(* ===== verification/_CoqProject ===== *)
-Q . S2P
Prelude.v
Types.v
BitSets.v
Powers.v
SigProof.v
SimpleProofs.v
VoteSummary.v
RoundView.v
Stores.v
StoreProofs.v
Managers.v
KState.v
KernelBase.v
Kernel.v
KernelHandlers.v
KernelLoop.v
Mirror.v
KernelExample.v
KernelSpec.v
KernelRefine.v
KernelSafety.v
KernelTheorems.v
KernelCommit.v
MirrorSystem.v
MirrorProofs.v
Feedback.v
HeaderChecks.v
KernelPrompt.v
RoundLifecycle.v
StateMachineBase.v
StateMachine.v
StateMachineSpec.v
StateMachineRun.v
StateMachineFrames.v
StateMachineExample.v
StateMachineSigning.v
StateMachineRefine.v
StateMachineChannels.v
StateMachinePipeline.v
StateMachineSafety.v
StateMachineReplay.v
StateMachineActions.v
DebugChecks.v
Engine.v
NetDag.v
TxBuffer.v
RoundTimer.v
Registry.v
Codec.v
SigTree.v
SigTreeLayout.v
SigTreeProofs.v
BLSProof.v
Gossip.v
Delivery.v
Spread.v
Fixture.v
Halt.v
Node.v
NodeRun.v
OwnVotes.v
P2P.v
Agreement.v
EchoApp.v
IntegrationApps.v
Text.v
Schemes.v
Assertions.v
Erasure.v
Watchdog.v
Metrics.v
DaisyChain.v
Bootstrap.v
