(* ===== verification/Prelude.v ===== *)
(** * Gordian: a consensus engine and its parts

    This development models gordian, a consensus engine in the Tendermint family, as shallow embeddings
    of its Go code under src/, and proves what makes that code a correct consensus component.  This file
    is the root: it holds the documentation of the whole development and the shared vocabulary (byte
    strings, machine integers, outcomes, Go maps, list lemmas).

    * The program

    A node runs two cooperating goroutines and a set of stores.  The mirror kernel (tmi.Kernel) is one
    goroutine that owns the "views": the proposed headers and votes of the committing, the voting and
    the next round.  The mirror (tmmirror.Mirror) is a set of methods that network goroutines call with
    proposed headers and votes; they validate a message and turn it into requests to the kernel.  The
    kernel commits a header when the view for it holds precommits of a Byzantine majority, and then moves
    to the next height.  The state machine (tmstate) follows the kernel's views through the steps of a
    round; it asks the application's consensus strategy what to propose and vote, signs the answer, and
    has committed headers finalized by the application.  The gossip strategy sends what the kernel's
    output managers offer to the network, whose connection hands what it receives to the mirror.  The
    engine (tmengine) checks its options, initializes the chain and starts these parts.

    * Parts, files and their sources

    The data:
    - Types: gcrypto keys, tm/tmconsensus headers, validators, votes and errors; hash and signature
      schemes as records of functions.
    - BitSets: the interface of the bit set library with its documented laws, and an instance over
      finite sets, so that every theorem about it has a concrete instance.
    - Powers: math.go and validator.go of tm/tmconsensus, in uint64 arithmetic.
    - VoteSummary: votesummary.go, and the kernel's votedistribution.go.
    - RoundView: roundview.go, prevote.go, precommit.go, sparsesignaturecollection.go.
    - Text, Schemes: lines, hexadecimal and decimal text; the signature and hash schemes of
      tmconsensustest that the demonstration chains use.
    - Registry, Codec: gcrypto/registry.go with the key types registered in it, and tm/tmcodec/tmjson.

    Proofs of votes (gcrypto):
    - SigProof, SimpleProofs: the proof interface as type classes (CommonMessageSignatureProof and its
      laws) and simplecommonmessagesignatureproof.go, which satisfies them.
    - SigTree, SigTreeLayout, SigTreeProofs, BLSProof: gblsminsig, whose proofs keep aggregated signatures
      in a tree; points and pairings are a class with laws.

    The mirror:
    - Stores, StoreProofs: tm/tmstore/tmmemstore, and KernelStores, the class through which the kernel
      uses the stores, with the laws the in-memory stores satisfy.
    - Managers: the gossip, state machine and lag output managers and versioned views of tmi.
    - KState: kstate.go.  KernelBase, Kernel, KernelHandlers, KernelLoop: kernel.go, every handler of
      the main loop, NewKernel, and the select of the main loop.
    - Mirror, Feedback: mirror.go and feedbackmapper.go.
    - KernelExample: a concrete four-validator kernel on which the witnesses evaluate the code.
    - KernelSpec: an abstract protocol (the specification).  KernelRefine: the kernel refines it.
    - KernelSafety, KernelTheorems, KernelCommit: the theorems about the kernel.
    - MirrorSystem: mirror calls and kernel interleaved.  MirrorProofs, HeaderChecks: the mirror's own
      theorems.
    - KernelPrompt: how promptly the kernel commits.  Delivery: a majority that is delivered commits.
      Halt: a round with split precommits on a network of mirrors.
    - Agreement: two mirrors of one chain, and the evidence a fork of theirs leaves behind.

    The state machine (tmengine/internal/tmstate):
    - RoundLifecycle: steps, the values of a round, requests to the strategy, the signer.
    - StateMachineBase, StateMachine: the monad of the handlers, and statemachine.go with every case of
      its loops.  StateMachineRun: starts, crashes and restarts on the same stores, the consensus manager,
      timers, and the main loop as a step relation.
    - StateMachineSpec: rounds as an abstract transition system.  StateMachineFrames: what each handler
      leaves alone.  StateMachineExample: a concrete node.
    - StateMachineSigning, StateMachineRefine, StateMachineChannels, StateMachinePipeline,
      StateMachineSafety, StateMachineReplay, StateMachineActions: its theorems.
    - RoundTimer: timeoutstrategy.go and the goroutine of roundtimer.go.

    The node (tmengine/engine.go):
    - Node: the mirror with its kernel and the state machine, joined by the channels for round entrances,
      actions and views, as one step relation.  A vote crosses without its height and round, so each side
      is proved against a promise of the other: the state machine sends an action only after the entrance
      it is signed for (StateMachineActions), and nothing but an entrance changes the height and round
      under which the kernel files it (stays_handle).
    - NodeRun: the moves of a node as functions, runs made of them, and the theorems about nodes.
    - OwnVotes: what becomes of the votes of the node's own state machine.

    Around them:
    - Engine: opts.go, engine.go and the standalone mirror of mirror.go.
    - Gossip, P2P, DaisyChain: tm/tmgossip/chattystrategy.go, the libp2p connection of tm/tmp2p/tmlibp2p,
      and the in-memory network of tm/tmp2p/tmp2ptest.  Spread: the kernel's output and the gossip strategy
      of one node, and the mirror of another.
    - Fixture: standardfixture.go of tmconsensustest, which makes the headers and votes of the tests.
    - NetDag, TxBuffer, Erasure: gnetdag, gdriver/gtxbuf and gerasure/gereedsolomon.
    - Watchdog, Assertions, DebugChecks: gwatchdog, the rules of gassert, and what debug builds assert.
    - Metrics: the collector of tmemetrics.
    - EchoApp, IntegrationApps: the demonstration application and consensus strategy of cmd/, and those of
      the integration tests.
    - Bootstrap: how the nodes of a stress test are given their genesis (cmd/gordian-stress).

    * How the code is rendered

    - Functions that cannot fail are Rocq functions.  A Go panic or an out-of-range index is the outcome
      [Panic]; a Go error is a value ([result], or an [option error] beside the new state, when the code
      returns both).  The handlers of the kernel and of the state machine run in a state and outcome monad
      each ([M] of KernelBase, and that of StateMachineBase) over a world that holds their state, the
      stores and the events sent to other goroutines.
    - [uint64], [uint32] and [int] are integers with [u64], [u32] or [i64] applied at every arithmetic
      operation, so wrap-around is part of the model; [uint] indices that come from lengths are naturals.
    - A Go slice is a list; where the code slices up to the capacity (the key registry, the destination of
      the erasure code) the capacity is part of the model.
    - A Go map is an [option] of a finite map: [None] is the nil map, on which reads find nothing and
      writes panic.  Go iterates a map in an arbitrary order; the model uses the order of stdpp's
      [map_to_list], and VoteSummary.tally_order_irrelevant shows that the tally, whose result could
      depend on it, does not.  The codec takes the order as a parameter.
    - The kernel's views share the map of the previous commit proof.  KState records the identity of
      each of these maps, so a write through one view is seen by the views that alias it.
    - Goroutines are step relations: a step is one case of a select, with what other goroutines or the
      environment supply (answers, elapsed time, random numbers, cancellation) as part of the event.  The
      kernel's select computes the outputs the managers offer and one ready case runs.  A call of a mirror
      method is a value recording where the goroutine is; each step makes one kernel request, so that the
      kernel may do anything between two requests.
    - Signature verification, the hash and signature schemes, the bit set library, JSON, pairings, the
      Reed-Solomon code, the application and the consensus strategy are parameters: functions, records or
      type classes, with laws where the code relies on some, and an instance of each class.  Nothing is
      assumed of verification, so a claim that somebody signed speaks of signatures that verify.  That
      different precommits have different sign bytes is a named hypothesis where it is used;
      Schemes.signing_contents_exact proves it for the simple scheme.

    * The theorems

    - Specifications: kernel_refines_protocol (whatever a main loop case is handed, its effect is a run of
      the abstract protocol, with at most one commit, and jumps only to a round a message claims) and
      sm_refines_rounds, the same for the state machine.
    - Commits: mirror_commits_certified (any network messages, any interleaving; of what the driver replays
      it is assumed that the header names the voting validators and a round in view, which the code does not
      check and without which the claim is false, by the lemma replay_commits_foreign_header),
      node_commits_certified (the same with the state machine beside it, whose votes need no assumption),
      committed_headers_final, and the lemma committed_headers_certified (the kernel alone).
      forks_leave_evidence compares the chains of two mirrors: at their first difference either one hash
      stands for two next validator sets, or validators with a third of the power signed precommits for both
      headers.  It rests on quorum_intersection.  The two certificates may be of different rounds, so nobody
      needs to have signed twice in one round: the lemma fork_across_rounds has such runs, since no part of
      the code keeps the locks of Tendermint.
    - Invariants: kernel_views_coherent, by induction on the main loop.
    - Progress: kernel_commits_promptly, that nothing is left to commit between two iterations;
      delivered_majority_commits, that the call which handles a message with a majority ends with the commit;
      commit_spreads, that a node that committed sends a message with which the others commit;
      chatty_broadcasts_everything; own_prevote_counted.  The limits: split_round_halts_network (a network in
      which no mirror ever leaves a round whose precommits are split), the lemmas
      racing_precommits_strand_commit and restart_strands_commit (a majority that is there and not committed).
    - The mirror: accepted_header_authentic, fixture_header_accepted (the checks are passed by what the tests
      make), the lemma quiet_votes_accepted; what is signed and hashed: signing_contents_exact,
      block_content_exact.
    - The state machine: sm_no_double_sign (across crashes and restarts), sm_votes_answer_requests,
      sm_builds_on_finalizations, sm_panics_are_external, replaying_node_never_acts; its timer:
      round_timer_faithful.
    - Limits of the code: late_commit_crashes_node and stranded_commit_crashes_node (runs without a fault in
      which the kernel and the state machine part and the node panics), later_round_panics,
      next_height_header_spins, engine_restart_at_initial_height and short_key_crashes_node, and the lemmas
      registry_loses_bls_keys, standalone_mirror_never_starts and daisy_chain_deadlocks, characterise inputs
      on which a node stops, is kept busy or never starts.
    - Votes and their proofs: simple_proof_sound, bls_proof_sound, bls_sparse_roundtrip; lemmas of the
      same files and of VoteSummary, RoundView, Managers and Stores give the behaviour of each operation.
    - Stores and messages: codec_roundtrip (for keys whose type name fits the eight bytes of the registry),
      published_message_delivered, action_store_no_double_sign, reconstructed_from_any_shards, and the lemma
      daisy_chain_delivers.
    - The rest: buffer_pending_exact, watchdog_cancels_for_cause, enabled_exact, and the lemmas
      echo_nodes_agree, identity_proposals_chosen, shuffle_proposals_chosen and shuffle_nodes_agree (nodes
      of one application vote for what the proposer proposes, and finalize alike), bootstrap_roundtrip and
      genesis_agrees_unless_changed.

    * Bounds

    Loops over slices and maps are folds or structural recursion.  Loops that end by arithmetic have
    fuel: those of the signature tree, whose lemmas show that the fuel given suffices (SigTreeLayout);
    the visit of a bit set (setBits_enough); and the loops of the network tree, which return None without
    enough of it, and fixed_tree_is_heap gives how much is enough.  The retry loops of mirror.go are not
    bounded by the code, and so are modelled by the step relation of calls and not by fuel:
    quiet_votes_accepted gives the case in which they end, next_height_header_spins one in which they do
    not.

    * Not modelled

    Logging, tracing, and what of the handlers only reports metrics; the generator of the release versions
    of the assertions; what runs inside libp2p (hosts, discovery, subscriptions); the command line programs
    of cmd/, which read flags and assemble the engine; the compliance suites
    of the stores, codecs and networks and the harnesses of the tests, which check the parts from outside and
    keep no state of a node.  Libraries outside src/ are parameters, as above.  Cancellation of a context
    ends a run of the kernel and of the state machine; for mirror calls, the gossip strategy and the
    watchdog it is part of the model.

    * What is left open

    Safety is proved for a whole node against any network messages, with trusted replays.  Agreement of
    several nodes across rounds is not, because the code has no locks.  Progress is proved hop by hop and not for the
    network as a whole: a vote of a state machine reaches its mirror (own_prevote_counted), a mirror's view
    reaches the network (chatty_broadcasts_everything), a message with a majority commits
    (delivered_majority_commits), and the commit reaches the others (commit_spreads).  A theorem that every
    proposal which enough validators vote for is committed does not hold of the code as it is:
    split_round_halts_network, late_commit_crashes_node and stranded_commit_crashes_node are runs of honest
    validators that end without one. *)
From stdpp Require Export base tactics decidable gmap strings list numbers sorting.
From Stdlib Require Export ZArith Lia Ascii.
From Stdlib Require Import OrdersEx.

Declare Scope go_scope.
Delimit Scope go_scope with go.
Open Scope Z_scope.

(** * Go byte strings

    A Go [string] and a Go [byte slice] are both sequences of bytes; the program converts
    freely between the two, so both are Rocq strings here.  [nilHash] is the empty
    string, which the consensus code uses as the hash of a nil vote. *)
Notation bytes := string.
Notation nilHash := EmptyString.

(** Go's builtin [len] on strings and byte slices. *)
Definition blen (b : bytes) : Z := Z.of_nat (String.length b).

(** Go's builtin [min] on two strings: the bytewise lexicographic minimum. *)
Definition minBytes (a b : bytes) : bytes := if String.ltb b a then b else a.

(** * Machine integers

    [uint64] and [uint32] values are integers of [Z] kept in range by [u64] and [u32], which the
    model applies wherever the Go code does arithmetic on such a value. *)
Definition two64 : Z := 18446744073709551616.
Definition two32 : Z := 4294967296.
Definition u64 (z : Z) : Z := z mod two64.
Definition u32 (z : Z) : Z := z mod two32.
Definition two63 : Z := 9223372036854775808.
Definition i64 (z : Z) : Z := (z + two63) mod two64 - two63.
Definition is_u64 (z : Z) : Prop := 0 <= z < two64.
Definition is_u32 (z : Z) : Prop := 0 <= z < two32.
Definition is_i64 (z : Z) : Prop := - two63 <= z < two63.

(** * Outcomes

    A Go call either returns or panics. *)
Inductive outcome (A : Type) : Type :=
| Ret (a : A)
| Panic (msg : string).
Arguments Ret {A} a.
Arguments Panic {A} msg.

#[export] Instance outcome_ret : MRet outcome := @Ret.
#[export] Instance outcome_bind : MBind outcome :=
  fun A B f m => match m with Ret a => f a | Panic s => Panic s end.
#[export] Instance outcome_fmap : FMap outcome :=
  fun A B f m => match m with Ret a => Ret (f a) | Panic s => Panic s end.

Definition returns {A} (m : outcome A) : Prop := exists a, m = Ret a.
Definition returnsb {A} (m : outcome A) : bool :=
  match m with Ret _ => true | Panic _ => false end.

(** Partial-correctness and total-correctness readings of an outcome. *)
Definition okay {A} (m : outcome A) (Q : A -> Prop) : Prop :=
  match m with Ret a => Q a | Panic _ => True end.
Definition sure {A} (m : outcome A) (Q : A -> Prop) : Prop :=
  match m with Ret a => Q a | Panic _ => False end.

(** Left fold of an outcome-valued step over a list: a Go [for ... range] loop
    whose body may panic. *)
Fixpoint foldO {A S} (f : S -> A -> outcome S) (s : S) (l : list A) : outcome S :=
  match l with
  | [] => Ret s
  | a :: l => s' ← f s a; foldO f s' l
  end.

(** * Go maps with string keys

    A Go map value may be nil.  Reading, iterating and clearing a nil map is allowed;
    assigning an entry panics. *)
Notation gomap V := (option (gmap bytes V)).

Definition gm_map {V} (m : gomap V) : gmap bytes V := default ∅ m.
Definition gm_make {V} : gomap V := Some ∅.
Definition gm_get {V} (m : gomap V) (k : bytes) : option V := gm_map m !! k.
Definition gm_set {V} (k : bytes) (v : V) (m : gomap V) : outcome (gomap V) :=
  match m with
  | Some g => Ret (Some (<[k := v]> g))
  | None => Panic "assignment to entry in nil map"
  end.
Definition gm_clear {V} (m : gomap V) : gomap V :=
  match m with Some _ => Some ∅ | None => None end.
Definition gm_entries {V} (m : gomap V) : list (bytes * V) := map_to_list (gm_map m).
Definition gm_len {V} (m : gomap V) : nat := size (gm_map m).
(** The value a Go map read yields: the zero value [z] when the key is absent. *)
Definition gm_getz {V} (z : V) (m : gomap V) (k : bytes) : V := default z (gm_get m k).

(** * Generic lemmas *)

Lemma u64_small z : is_u64 z -> u64 z = z.
Proof. intros H. apply Z.mod_small, H. Qed.

Lemma u32_small z : is_u32 z -> u32 z = z.
Proof. intros H. apply Z.mod_small, H. Qed.

Lemma i64_small z : is_i64 z -> i64 z = z.
Proof. unfold is_i64, i64, two63, two64. intros. rewrite Z.mod_small; lia. Qed.

Lemma i64_range z : is_i64 (i64 z).
Proof. unfold is_i64, i64, two63. pose proof (Z.mod_pos_bound (z + 9223372036854775808) two64 eq_refl). unfold two64 in *. lia. Qed.

Lemma u64_range z : is_u64 (u64 z).
Proof. apply Z.mod_pos_bound. reflexivity. Qed.

Lemma u32_range z : is_u32 (u32 z).
Proof. apply Z.mod_pos_bound. reflexivity. Qed.

Lemma u64_add_l a b : u64 (u64 a + b) = u64 (a + b).
Proof. apply Zplus_mod_idemp_l. Qed.

Lemma okay_ret {A} (a : A) Q : Q a -> okay (Ret a) Q.
Proof. done. Qed.

Lemma okay_bind {A B} (m : outcome A) (f : A -> outcome B) Q :
  okay m (fun a => okay (f a) Q) -> okay (m ≫= f) Q.
Proof. by destruct m. Qed.

Lemma okay_mono {A} (m : outcome A) (P Q : A -> Prop) :
  (forall a, P a -> Q a) -> okay m P -> okay m Q.
Proof. destruct m; simpl; auto. Qed.

Lemma okay_trivial {A} (m : outcome A) : okay m (fun _ => True).
Proof. by destruct m. Qed.

Lemma okay_and {A} (m : outcome A) (P Q : A -> Prop) :
  okay m P -> okay m Q -> okay m (fun a => P a /\ Q a).
Proof. destruct m; simpl; auto. Qed.

Lemma okay_elim {A} (m : outcome A) (Q : A -> Prop) a : okay m Q -> m = Ret a -> Q a.
Proof. by intros H ->. Qed.

Lemma okay_intro {A} (m : outcome A) (Q : A -> Prop) :
  (forall a, m = Ret a -> Q a) -> okay m Q.
Proof. destruct m; simpl; auto. Qed.

Lemma sure_bind {A B} (m : outcome A) (f : A -> outcome B) Q :
  sure m (fun a => sure (f a) Q) -> sure (m ≫= f) Q.
Proof. by destruct m. Qed.

Lemma sure_mono {A} (m : outcome A) (P Q : A -> Prop) :
  (forall a, P a -> Q a) -> sure m P -> sure m Q.
Proof. destruct m; simpl; auto. Qed.

Lemma sure_okay {A} (m : outcome A) (Q : A -> Prop) : sure m Q -> okay m Q.
Proof. by destruct m. Qed.

Lemma sure_returns {A} (m : outcome A) (Q : A -> Prop) : sure m Q -> returns m.
Proof. destruct m; simpl; [by eexists | done]. Qed.

Lemma sure_of_returns {A} (m : outcome A) (Q : A -> Prop) : returns m -> okay m Q -> sure m Q.
Proof. intros [a ->]. done. Qed.

Lemma bind_Ret_inv {A B} (m : outcome A) (f : A -> outcome B) b :
  m ≫= f = Ret b -> exists a, m = Ret a /\ f a = Ret b.
Proof. destruct m; simpl; intros H; [by eexists | discriminate]. Qed.

(** The invariant rule for outcome loops. *)
Lemma foldO_okay {A S} (f : S -> A -> outcome S) (I : list A -> S -> Prop) l s :
  (forall done a rest s, l = done ++ a :: rest -> I done s ->
      okay (f s a) (I (done ++ [a]))) ->
  I [] s -> okay (foldO f s l) (I l).
Proof.
  intros Hstep. cut (forall done rest s, l = done ++ rest -> I done s ->
    okay (foldO f s rest) (I l)).
  { intros H H0. by apply (H [] l). }
  intros dn rest. revert dn. induction rest as [|a rest IH]; intros dn s' Hl HI; simpl.
  - by rewrite app_nil_r in Hl; subst.
  - apply okay_bind. eapply okay_mono; [|by eapply Hstep].
    intros s'' H''. apply (IH (dn ++ [a])); [|done]. by rewrite <- app_assoc.
Qed.

Lemma foldO_sure {A S} (f : S -> A -> outcome S) (I : list A -> S -> Prop) l s :
  (forall done a rest s, l = done ++ a :: rest -> I done s ->
      sure (f s a) (I (done ++ [a]))) ->
  I [] s -> sure (foldO f s l) (I l).
Proof.
  intros Hstep. cut (forall done rest s, l = done ++ rest -> I done s ->
    sure (foldO f s rest) (I l)).
  { intros H H0. by apply (H [] l). }
  intros dn rest. revert dn. induction rest as [|a rest IH]; intros dn s' Hl HI; simpl.
  - by rewrite app_nil_r in Hl; subst.
  - apply sure_bind. eapply sure_mono; [|by eapply Hstep].
    intros s'' H''. apply (IH (dn ++ [a])); [|done]. by rewrite <- app_assoc.
Qed.

Lemma foldO_app {A S} (f : S -> A -> outcome S) s l1 l2 :
  foldO f s (l1 ++ l2) = (s' ← foldO f s l1; foldO f s' l2).
Proof.
  revert s. induction l1 as [|a l1 IH]; intros s; simpl; [done|].
  destruct (f s a); simpl; [apply IH|done].
Qed.

(** An invariant that does not look at the position in the loop. *)
Lemma foldO_okay_inv {A S} (f : S -> A -> outcome S) (I : S -> Prop) l s :
  (forall a s, a ∈ l -> I s -> okay (f s a) I) -> I s -> okay (foldO f s l) I.
Proof.
  intros H. apply (foldO_okay f (fun _ => I)).
  intros dn a rest s' -> ?. apply H; [set_solver | done].
Qed.

Lemma gm_get_set {V} k (v : V) m m' k' :
  gm_set k v m = Ret m' -> gm_get m' k' = if decide (k = k') then Some v else gm_get m k'.
Proof.
  destruct m as [g|]; simpl; [|discriminate]. intros [= <-].
  unfold gm_get; simpl. case_decide; subst; simplify_map_eq; done.
Qed.

Lemma gm_get_clear {V} (m : gomap V) k : gm_get (gm_clear m) k = None.
Proof. by destruct m. Qed.

Lemma gm_entries_get {V} (m : gomap V) k v : (k, v) ∈ gm_entries m <-> gm_get m k = Some v.
Proof. apply elem_of_map_to_list. Qed.

Lemma gm_entries_NoDup {V} (m : gomap V) : NoDup (gm_entries m).*1.
Proof. apply NoDup_fst_map_to_list. Qed.

(** ** Strings *)
Lemma append_length (a b : bytes) : String.length (a +:+ b) = (String.length a + String.length b)%nat.
Proof. induction a as [|c a IH]; [done|]. exact (f_equal S IH). Qed.

Lemma append_assoc (a b c : bytes) : (a +:+ b) +:+ c = a +:+ (b +:+ c).
Proof. induction a as [|x a IH]; [done|]. exact (f_equal (String x) IH). Qed.

#[export] Instance outcome_eq_dec {A} `{EqDecision A} : EqDecision (outcome A).
Proof. solve_decision. Defined.
