(* ===== verification/Types.v ===== *)
(** The consensus data model: keys and signatures of [gcrypto], the headers, validators, votes and
    errors of [tm/tmconsensus], and the interfaces (hash scheme, signature scheme) through which the
    engine reaches application code. *)
From S2P Require Import Prelude.

(** * gcrypto: keys and sparse signatures *)

(** [gcrypto.PubKey] is an interface; its documented [Equal] compares the dynamic type and the
    key bytes, so a non-nil value of the interface is its type name and its bytes. *)
Record PubKey := MkPubKey { pk_TypeName : bytes; pk_PubKeyBytes : bytes }.

#[export] Instance PubKey_eq_dec : EqDecision PubKey.
Proof. solve_decision. Defined.

Definition pk_Equal (a b : PubKey) : bool := bool_decide (a = b).

(** [PubKey.Verify(msg, sig)] is the cryptography of the key's type, a parameter of
    the development: a Boolean relation of key, message and signature bytes. *)
Class Verifier := verify : PubKey -> bytes -> bytes -> bool.

Record SparseSignature := MkSparseSignature { ss_KeyID : bytes; ss_Sig : bytes }.

Record SparseSignatureProof := MkSparseSignatureProof {
  ssp_PubKeyHash : bytes;
  ssp_Signatures : list SparseSignature
}.

#[export] Instance SparseSignature_eq_dec : EqDecision SparseSignature.
Proof. solve_decision. Defined.

Record SignatureProofMergeResult := MkMergeResult {
  AllValidSignatures : bool;
  IncreasedSignatures : bool;
  WasStrictSuperset : bool
}.

Definition Combine (r other : SignatureProofMergeResult) : SignatureProofMergeResult :=
  {| AllValidSignatures := r.(AllValidSignatures) && other.(AllValidSignatures);
     IncreasedSignatures := r.(IncreasedSignatures) || other.(IncreasedSignatures);
     WasStrictSuperset := r.(WasStrictSuperset) && other.(WasStrictSuperset) |}.

(** The Go zero value. *)
Definition MergeResult_zero : SignatureProofMergeResult := MkMergeResult false false false.

(** * tmconsensus: validators, votes, headers *)

Record Validator := MkValidator { val_PubKey : PubKey; val_Power : Z }.

Record ValidatorSet := MkValidatorSet {
  Validators : list Validator;
  PubKeyHash : bytes;
  VotePowerHash : bytes
}.

Definition ValidatorSet_zero : ValidatorSet := MkValidatorSet [] nilHash nilHash.

Record VoteTarget := MkVoteTarget { vt_Height : Z; vt_Round : Z; vt_BlockHash : bytes }.

Record Annotations := MkAnnotations { ann_User : bytes; ann_Driver : bytes }.

Record CommitProof := MkCommitProof {
  cp_Round : Z;
  cp_PubKeyHash : bytes;
  cp_Proofs : gomap (list SparseSignature)
}.

Definition CommitProof_zero : CommitProof := MkCommitProof 0 nilHash None.

Record Header := MkHeader {
  Hash : bytes;
  PrevBlockHash : bytes;
  Height : Z;
  PrevCommitProof : CommitProof;
  hd_ValidatorSet : ValidatorSet;
  NextValidatorSet : ValidatorSet;
  DataID : bytes;
  PrevAppStateHash : bytes;
  hd_Annotations : Annotations
}.

Definition Header_zero : Header :=
  MkHeader nilHash nilHash 0 CommitProof_zero ValidatorSet_zero ValidatorSet_zero
    nilHash nilHash (MkAnnotations nilHash nilHash).

Record CommittedHeader := MkCommittedHeader { ch_Header : Header; ch_Proof : CommitProof }.

(** [ProposerPubKey] is an interface field: nil (None) for a replayed header. *)
Record ProposedHeader := MkProposedHeader {
  ph_Header : Header;
  ph_Round : Z;
  ph_ProposerPubKey : option PubKey;
  ph_Annotations : Annotations;
  ph_Signature : bytes
}.

(** The zero value of [BlockSignatures] is a nil map, which the round store tests. *)
Record SparseSignatureCollection := MkSSC {
  ssc_PubKeyHash : bytes;
  BlockSignatures : gomap (list SparseSignature)
}.

Definition SSC_zero : SparseSignatureCollection := MkSSC nilHash None.

#[export] Instance Validator_eq_dec : EqDecision Validator.
Proof. solve_decision. Defined.
#[export] Instance ValidatorSet_eq_dec : EqDecision ValidatorSet.
Proof. solve_decision. Defined.
#[export] Instance Annotations_eq_dec : EqDecision Annotations.
Proof. solve_decision. Defined.
#[export] Instance CommitProof_eq_dec : EqDecision CommitProof.
Proof. solve_decision. Defined.
#[export] Instance Header_eq_dec : EqDecision Header.
Proof. solve_decision. Defined.
#[export] Instance CommittedHeader_eq_dec : EqDecision CommittedHeader.
Proof. solve_decision. Defined.
#[export] Instance ProposedHeader_eq_dec : EqDecision ProposedHeader.
Proof. solve_decision. Defined.
#[export] Instance SparseSignatureCollection_eq_dec : EqDecision SparseSignatureCollection.
Proof. solve_decision. Defined.

(** * Errors

    The error types of [gcrypto], [tmconsensus], [tmstore] and [tmelink] that the
    modelled code creates or inspects; [ErrOther] stands for any other error (for instance one an
    application-supplied scheme returns), [ErrWrap] for fmt.Errorf with a wrapped error and
    [ErrJoin] and [ErrJoin1] for errors.Join of two errors and of one. *)
Inductive error : Type :=
| ErrUnknownKey
| ErrInvalidSignature
| RoundUnknownError (WantHeight WantRound : Z)
| HeightUnknownError (Want : Z)
| ErrStoreUninitialized
| PubKeysAlreadyExistError (ExistingHash : bytes)
| VotePowersAlreadyExistError (ExistingHash : bytes)
| NoPubKeyHashError (Want : bytes)
| NoVotePowerHashError (Want : bytes)
| PubKeyPowerCountMismatchError (NPubKeys NVotePower : nat)
| DoubleActionError (Type_ : bytes)
| PubKeyChangedError (ActionType Want Got : bytes)
| OverwriteError (Field Value : bytes)
| FinalizationOverwriteError (Height : Z)
| ReplayedHeaderOutOfSyncError (WantHeight GotHeight : Z)
| ReplayedHeaderValidationError (Err : error)
| ReplayedHeaderInternalError (Err : error)
| ErrWrap (msg : string) (Err : error)
| ErrJoin (e1 e2 : error)
| ErrJoin1 (Err : error)
| ErrOther (msg : string).

#[export] Instance error_eq_dec : EqDecision error.
Proof. solve_decision. Defined.

(** A Go pair of a value and a nil-able error, of which the caller uses one. *)
Inductive result (A : Type) : Type :=
| Ok (a : A)
| Err (e : error).
Arguments Ok {A} a.
Arguments Err {A} e.

(** errors.As: the first error of the chain that satisfies [p]. *)
Fixpoint errAs (p : error -> bool) (e : error) : bool :=
  p e || match e with
         | ErrWrap _ e' | ErrJoin1 e' | ReplayedHeaderValidationError e' | ReplayedHeaderInternalError e' =>
             errAs p e'
         | ErrJoin e1 e2 => errAs p e1 || errAs p e2
         | _ => false
         end.

Definition isRoundUnknown (e : error) : bool :=
  match e with RoundUnknownError _ _ => true | _ => false end.
Definition isPubKeysAlreadyExist (e : error) : bool :=
  match e with PubKeysAlreadyExistError _ => true | _ => false end.
Definition isVotePowersAlreadyExist (e : error) : bool :=
  match e with VotePowersAlreadyExistError _ => true | _ => false end.
Definition isReplayedHeaderInternal (e : error) : bool :=
  match e with ReplayedHeaderInternalError _ => true | _ => false end.

(** * Interfaces supplied by the application *)

(** [tmconsensus.HashScheme]. *)
Record HashScheme := MkHashScheme {
  hs_Block : Header -> result bytes;
  hs_PubKeys : list PubKey -> result bytes;
  hs_VotePowers : list Z -> result bytes
}.

(** [tmconsensus.SignatureScheme].  A method that writes its content to an [io.Writer] is
    the content it writes, or the error it returns. *)
Record SignatureScheme := MkSignatureScheme {
  WriteProposalSigningContent : Header -> Z -> Annotations -> result bytes;
  WritePrevoteSigningContent : VoteTarget -> result bytes;
  WritePrecommitSigningContent : VoteTarget -> result bytes
}.

(** The pooled buffer is reset before the scheme writes to it, so the sign bytes are exactly
    what the scheme wrote. *)
Definition ProposalSignBytes (h : Header) (round : Z) (a : Annotations) (s : SignatureScheme) :
  result bytes := WriteProposalSigningContent s h round a.
Definition PrevoteSignBytes (vt : VoteTarget) (s : SignatureScheme) : result bytes :=
  WritePrevoteSigningContent s vt.
Definition PrecommitSignBytes (vt : VoteTarget) (s : SignatureScheme) : result bytes :=
  WritePrecommitSigningContent s vt.

(** [Genesis] and the header it determines. *)
Record Genesis := MkGenesis {
  g_ChainID : bytes;
  g_InitialHeight : Z;
  g_CurrentAppStateHash : bytes;
  g_ValidatorSet : ValidatorSet
}.

Definition Genesis_zero : Genesis := MkGenesis nilHash 0 nilHash ValidatorSet_zero.

Definition Genesis_Header (g : Genesis) (hs : HashScheme) : Header * option error :=
  let h := {| Header_zero with Height := u64 (g.(g_InitialHeight) - 1);
                               NextValidatorSet := g.(g_ValidatorSet) |} in
  match hs_Block hs h with
  | Err e => (h, Some (ErrWrap "failed to calculate genesis block hash" e))
  | Ok bh => ({| h with Hash := bh |}, None)
  end.

(** [tmi.NetworkHeightRound]. *)
Record NetworkHeightRound := MkNHR {
  VotingHeight : Z;
  VotingRound : Z;
  CommittingHeight : Z;
  CommittingRound : Z
}.
