(* ===== verification/BitSets.v ===== *)
(** The interface of the bit set library the program uses
    (github.com/bits-and-blooms/bitset), its documented laws, and an instance over stdpp's finite sets
    that satisfies them. *)
From S2P Require Import Prelude.
Local Open Scope nat_scope.

(** The operations the program calls. [bs_New n] is an empty set sized for [n] bits;
    [bs_SetAll] sets the bits below that size. *)
Class BitSet (B : Type) := {
  bs_New : nat -> B;
  bs_Set : nat -> B -> B;
  bs_Test : nat -> B -> bool;
  bs_NextSet : nat -> B -> option nat;
  bs_Count : B -> nat;
  bs_None : B -> bool;
  bs_IsStrictSuperSet : B -> B -> bool
}.

(** The documented behaviour, stated against the set of indices a value holds. *)
Class BitSetLaws (B : Type) `{BitSet B} := {
  bs_elems : B -> gset nat;
  bs_elems_New n : bs_elems (bs_New n) = ∅;
  bs_elems_Set i b : bs_elems (bs_Set i b) = {[i]} ∪ bs_elems b;
  bs_Test_spec i b : bs_Test i b = bool_decide (i ∈ bs_elems b);
  bs_NextSet_Some i b j : bs_NextSet i b = Some j ->
    j ∈ bs_elems b /\ i <= j /\ forall k, i <= k < j -> k ∉ bs_elems b;
  bs_NextSet_None i b : bs_NextSet i b = None -> forall k, i <= k -> k ∉ bs_elems b;
  bs_Count_spec b : bs_Count b = size (bs_elems b);
  bs_None_spec b : bs_None b = bool_decide (bs_elems b = ∅);
  bs_IsStrictSuperSet_spec a b :
    bs_IsStrictSuperSet a b = bool_decide (bs_elems b ⊂ bs_elems a)
}.

(** The indices the Go loop
    [for i, ok := bs.NextSet(0); ok && int(i) < n; i, ok = bs.NextSet(i+1)] visits, in order, with
    [fuel] iterations at most. *)
Fixpoint setBits `{BitSet B} (fuel : nat) (bs : B) (i n : nat) : list nat :=
  match fuel with
  | 0 => []
  | S fuel =>
      match bs_NextSet i bs with
      | Some j => if bool_decide (j < n) then j :: setBits fuel bs (S j) n else []
      | None => []
      end
  end.

(** The whole loop: [S n] iterations always suffice ([setBits_enough]). *)
Definition loopBits `{BitSet B} (bs : B) (n : nat) : list nat := setBits (S n) bs 0 n.

(** * The finite set instance *)

#[export] Instance gset_BitSet : BitSet (gset nat) := {
  bs_New _ := ∅;
  bs_Set i b := {[i]} ∪ b;
  bs_Test i b := bool_decide (i ∈ b);
  bs_NextSet i b := head (merge_sort le (elements (filter (fun k => i <= k) b)));
  bs_Count b := size b;
  bs_None b := bool_decide (b = ∅);
  bs_IsStrictSuperSet a b := bool_decide (b ⊂ a)
}.

Lemma gset_NextSet_mem (i : nat) (b : gset nat) k :
  k ∈ merge_sort le (elements (filter (fun k => i <= k) b)) <-> i <= k /\ k ∈ b.
Proof.
  rewrite merge_sort_Permutation, elem_of_elements, elem_of_filter. tauto.
Qed.

#[export] Program Instance gset_BitSetLaws : BitSetLaws (gset nat) := {
  bs_elems b := b
}.
Next Obligation. done. Qed.
Next Obligation. done. Qed.
Next Obligation. done. Qed.
Next Obligation.
  simpl. intros i b j Hj. pose proof (gset_NextSet_mem i b) as Hmem.
  assert (HS : StronglySorted le (merge_sort le (elements (filter (fun k => i <= k) b)))).
  { apply StronglySorted_merge_sort; apply _. }
  destruct (merge_sort le _) as [|x l] eqn:E; simplify_eq/=.
  destruct (proj1 (Hmem j) ltac:(set_solver)) as [Hij Hjb]. split_and!; [done..|].
  intros k [Hik Hkj] Hk. assert (Hin : k ∈ j :: l) by (by apply Hmem).
  apply elem_of_cons in Hin as [->|Hin]; [lia|].
  apply StronglySorted_inv in HS as [_ HF]. rewrite Forall_forall in HF.
  apply HF in Hin. lia.
Qed.
Next Obligation.
  simpl. intros i b Hn k Hik Hk. pose proof (gset_NextSet_mem i b k) as Hmem.
  destruct (merge_sort le _); [|done]. assert (k ∈ @nil nat) by (by apply Hmem). set_solver.
Qed.
Next Obligation. done. Qed.
Next Obligation. done. Qed.
Next Obligation. done. Qed.

(** * The loop visits exactly the members below the bound, in ascending order *)

Section loop.
Context {B : Type} `{BitSetLaws B}.

Lemma seq_filter_none (P : nat -> Prop) `{!forall x, Decision (P x)} i d :
  (forall k, i <= k < i + d -> ~ P k) -> filter P (seq i d) = [].
Proof.
  revert i. induction d as [|d IH]; intros i Hn; simpl; [done|].
  rewrite filter_cons_False; [|apply Hn; lia]. apply IH. intros k Hk. apply Hn. lia.
Qed.

Lemma setBits_spec fuel (bs : B) i n :
  i <= n -> n - i < fuel ->
  setBits fuel bs i n = filter (fun k => k ∈ bs_elems bs) (seq i (n - i)).
Proof.
  revert i. induction fuel as [|fuel IH]; intros i Hi Hf; [lia|]. simpl.
  destruct (bs_NextSet i bs) as [j|] eqn:E.
  - apply bs_NextSet_Some in E as (Hj & Hij & Hgap). case_bool_decide as Hjn.
    + replace (n - i) with ((j - i) + S (n - S j)) by lia.
      rewrite seq_app, filter_app, (seq_filter_none _ i (j - i)); [|intros; apply Hgap; lia].
      replace (i + (j - i)) with j by lia. simpl.
      rewrite filter_cons_True by done. f_equal. apply IH; lia.
    + rewrite seq_filter_none; [done|]. intros k Hk. apply Hgap. lia.
  - rewrite seq_filter_none; [done|]. intros k Hk. by apply (bs_NextSet_None i bs E); lia.
Qed.

(** Any fuel of at least [S n] gives the same visit: the loop has ended before that. *)
Lemma setBits_enough fuel (bs : B) n : S n <= fuel -> setBits fuel bs 0 n = loopBits bs n.
Proof. intros. unfold loopBits. rewrite !setBits_spec by lia. done. Qed.

Lemma loopBits_spec (bs : B) n :
  loopBits bs n = filter (fun k => k ∈ bs_elems bs) (seq 0 n).
Proof. unfold loopBits. rewrite setBits_spec by lia. by rewrite Nat.sub_0_r. Qed.

Lemma elem_of_loopBits (bs : B) n k : k ∈ loopBits bs n <-> k ∈ bs_elems bs /\ k < n.
Proof. rewrite loopBits_spec, list_elem_of_filter, elem_of_seq. split; intros []; split; (done || lia). Qed.
End loop.
