(* ===== verification/Powers.v ===== *)
(** Voting power arithmetic and validator collections
    (tm/tmconsensus/math.go and validator.go): the Byzantine thresholds, sums of power over index
    sets, validator sets, and the quorum intersection fact every commit relies on. *)
From S2P Require Import Prelude Types BitSets.

(** * math.go *)

Definition ByzantineMajority (n : Z) : outcome Z :=
  if n =? 0 then Panic "ByzantineMajority: n must be positive"
  else
    let quo := n / 3 in
    let rem := n mod 3 in
    if rem <? 2 then Ret (u64 (2 * quo + 1)) else Ret (u64 (2 * quo + 2)).

Definition ByzantineMinority (n : Z) : outcome Z :=
  if n =? 0 then Panic "ByzantineMinority: n must be positive"
  else
    let quo := n / 3 in
    let rem := n mod 3 in
    if rem =? 0 then Ret quo else Ret (u64 (quo + 1)).

(** * validator.go *)

Definition ValidatorSlicesEqual (vs1 vs2 : list Validator) : bool :=
  Nat.eqb (length vs1) (length vs2) &&
  forallb (fun '(v1, v2) => (v1.(val_Power) =? v2.(val_Power)) &&
                            pk_Equal v1.(val_PubKey) v2.(val_PubKey)) (zip vs1 vs2).

Definition ValidatorSet_Equal (v other : ValidatorSet) : bool :=
  String.eqb v.(PubKeyHash) other.(PubKeyHash) &&
  String.eqb v.(VotePowerHash) other.(VotePowerHash) &&
  ValidatorSlicesEqual v.(Validators) other.(Validators).

Definition ValidatorsToPubKeys (vs : list Validator) : list PubKey := map val_PubKey vs.
Definition ValidatorsToVotePowers (vs : list Validator) : list Z := map val_Power vs.

Definition NewValidatorSet (vs : list Validator) (hs : HashScheme) : result ValidatorSet :=
  match hs_PubKeys hs (ValidatorsToPubKeys vs) with
  | Err e => Err (ErrWrap "failed to calculate public key hash" e)
  | Ok kh =>
      match hs_VotePowers hs (ValidatorsToVotePowers vs) with
      | Err e => Err (ErrWrap "failed to calculate vote power hash" e)
      | Ok ph => Ok (MkValidatorSet vs kh ph)
      end
  end.

(** The comparison SortValidators passes to sort.Slice. *)
Definition validatorLess (a b : Validator) : bool :=
  if a.(val_Power) =? b.(val_Power)
  then String.ltb a.(val_PubKey).(pk_PubKeyBytes) b.(val_PubKey).(pk_PubKeyBytes)
  else b.(val_Power) <? a.(val_Power).

(** One iteration of the loop of CanTrustValidators: total and trusted power so far. *)
Definition trustStep (trustedKeys : gset bytes) (acc : Z * Z) (v : Validator) : Z * Z :=
  (u64 (acc.1 + v.(val_Power)),
   if bool_decide (v.(val_PubKey).(pk_PubKeyBytes) ∈ trustedKeys)
   then u64 (acc.2 + v.(val_Power)) else acc.2).

Definition CanTrustValidators (vs : list Validator) (pubKeys : list PubKey) : outcome bool :=
  let trustedKeys : gset bytes := list_to_set (map pk_PubKeyBytes pubKeys) in
  let '(totalPower, trustedPower) := foldl (trustStep trustedKeys) (0, 0) vs in
  m ← ByzantineMinority totalPower;
  Ret (u64 (m + 1) <? trustedPower).

(** * Thresholds *)

(** The threshold facts of math.go, in the form the later files use. *)
Lemma ByzantineMajority_ret n : 0 < n < two64 ->
  exists m, ByzantineMajority n = Ret m /\ 3 * m > 2 * n /\ 3 * (m - 1) <= 2 * n /\ 0 < m <= n.
Proof.
  intros Hn. unfold ByzantineMajority. destruct (Z.eqb_spec n 0); [lia|].
  pose proof (Z.div_mod n 3 ltac:(lia)) as Hdm.
  pose proof (Z.mod_pos_bound n 3 ltac:(lia)) as Hr. unfold two64 in *.
  destruct (Z.ltb_spec (n mod 3) 2); eexists; (split; [reflexivity|]);
    rewrite u64_small by (unfold is_u64, two64; lia); lia.
Qed.

Lemma ByzantineMinority_ret n : 0 < n < two64 ->
  exists m, ByzantineMinority n = Ret m /\ 3 * m >= n /\ 3 * (m - 1) < n /\ 0 < m <= n.
Proof.
  intros Hn. unfold ByzantineMinority. destruct (Z.eqb_spec n 0); [lia|].
  pose proof (Z.div_mod n 3 ltac:(lia)) as Hdm.
  pose proof (Z.mod_pos_bound n 3 ltac:(lia)) as Hr. unfold two64 in *.
  destruct (Z.eqb_spec (n mod 3) 0); eexists; (split; [reflexivity|]);
    rewrite ?u64_small by (unfold is_u64, two64; lia); lia.
Qed.

(** Two majorities exceed the whole by at least a minority. *)
Lemma two_majorities n maj min : 0 < n < two64 ->
  ByzantineMajority n = Ret maj -> ByzantineMinority n = Ret min -> 2 * maj - n >= min.
Proof.
  intros Hn HM Hm.
  destruct (ByzantineMajority_ret n Hn) as (M & EM & ? & ? & ?).
  destruct (ByzantineMinority_ret n Hn) as (m & Em & ? & ? & ?).
  rewrite EM in HM; rewrite Em in Hm; simplify_eq. lia.
Qed.

(** * Power of an index set

    [powerIn vals S off] is the exact (unwrapped) voting power of the validators of [vals] whose
    index, counted from [off], lies in [S]. *)
Fixpoint powerIn (vals : list Validator) (S : gset nat) (off : nat) : Z :=
  match vals with
  | [] => 0
  | v :: vals => (if bool_decide (off ∈ S) then v.(val_Power) else 0) + powerIn vals S (Datatypes.S off)
  end.

Definition totalPowerZ (vals : list Validator) : Z := foldr (fun v a => v.(val_Power) + a) 0 vals.

Definition powers_ok (vals : list Validator) : Prop :=
  Forall (fun v => is_u64 v.(val_Power)) vals /\ totalPowerZ vals < two64.

Lemma powers_ok_nonneg vals : powers_ok vals -> Forall (fun v => 0 <= v.(val_Power)) vals.
Proof. intros [H _]. eapply Forall_impl; [done|]. by intros v []. Qed.

Lemma powerIn_nonneg vals S off :
  Forall (fun v => 0 <= v.(val_Power)) vals -> 0 <= powerIn vals S off.
Proof.
  intros H. revert off. induction H; intros off; simpl; [lia|].
  specialize (IHForall (Datatypes.S off)). case_bool_decide; lia.
Qed.

Lemma powerIn_le_total vals S off :
  Forall (fun v => 0 <= v.(val_Power)) vals -> powerIn vals S off <= totalPowerZ vals.
Proof.
  intros H. revert off. induction H; intros off; simpl; [lia|].
  specialize (IHForall (Datatypes.S off)). case_bool_decide; lia.
Qed.

Lemma powerIn_union_inter vals S T off :
  powerIn vals S off + powerIn vals T off =
  powerIn vals (S ∪ T) off + powerIn vals (S ∩ T) off.
Proof.
  revert off. induction vals as [|v vals IH]; intros off; simpl; [done|].
  specialize (IH (Datatypes.S off)).
  repeat case_bool_decide; (lia || set_solver).
Qed.

Lemma powerIn_mono vals S T off :
  Forall (fun v => 0 <= v.(val_Power)) vals -> S ⊆ T -> powerIn vals S off <= powerIn vals T off.
Proof.
  intros H HST. revert off. induction H; intros off; simpl; [lia|].
  specialize (IHForall (Datatypes.S off)).
  repeat case_bool_decide; (lia || set_solver).
Qed.

Lemma powerIn_empty vals off : powerIn vals ∅ off = 0.
Proof.
  revert off. induction vals as [|v vals IH]; intros off; simpl; [done|].
  rewrite bool_decide_eq_false_2 by set_solver. by rewrite IH.
Qed.

Lemma powerIn_ext vals S T off :
  (forall i, (off <= i < off + length vals)%nat -> i ∈ S <-> i ∈ T) ->
  powerIn vals S off = powerIn vals T off.
Proof.
  revert off. induction vals as [|v vals IH]; intros off Hext; simpl in *; [done|].
  rewrite (IH (Datatypes.S off)) by (intros; apply Hext; lia).
  by rewrite (bool_decide_ext (off ∈ S) (off ∈ T) (Hext off ltac:(lia))).
Qed.

(** * Power read off a bit set by the Go loop

    [blockPow := 0; for i over set bits below len(vals) { blockPow += vals[i].Power }] *)
Definition addPower (vals : list Validator) (acc : Z) (i : nat) : Z :=
  u64 (acc + default 0 (val_Power <$> (vals !! i))).

Definition sumPower `{BitSet B} (vals : list Validator) (bs : B) : Z :=
  foldl (addPower vals) 0 (loopBits bs (length vals)).

Section sums.
Context {B : Type} `{BitSetLaws B}.

Lemma foldl_addPower vals l acc :
  foldl (addPower vals) (u64 acc) l =
  u64 (acc + foldr (fun i a => default 0 (val_Power <$> (vals !! i)) + a) 0 l).
Proof.
  revert acc. induction l as [|i l IH]; intros acc; simpl.
  - by rewrite Z.add_0_r.
  - unfold addPower at 2. rewrite u64_add_l, IH. f_equal. lia.
Qed.

Lemma sum_filter_powerIn (vals pre : list Validator) S :
  foldr (fun i a => default 0 (val_Power <$> ((pre ++ vals) !! i)) + a) 0
    (filter (fun k => k ∈ S) (seq (length pre) (length vals))) =
  powerIn vals S (length pre).
Proof.
  revert pre. induction vals as [|v vals IH]; intros pre; simpl; [done|].
  specialize (IH (pre ++ [v])). rewrite <- app_assoc, length_app in IH. simpl in IH.
  rewrite Nat.add_1_r in IH. rewrite filter_cons.
  case_decide as Hin; [rewrite bool_decide_eq_true_2 by done|
                       rewrite bool_decide_eq_false_2 by done]; simpl.
  - rewrite IH, (list_lookup_middle _ _ _ _ eq_refl). done.
  - rewrite IH. done.
Qed.

(** The machine sum is the exact power, modulo 2^64. *)
Lemma sumPower_u64 vals (bs : B) : sumPower vals bs = u64 (powerIn vals (bs_elems bs) 0).
Proof.
  unfold sumPower. change 0 with (u64 0) at 1. rewrite foldl_addPower, loopBits_spec.
  f_equal. apply (sum_filter_powerIn vals []).
Qed.

Lemma sumPower_exact vals (bs : B) :
  powers_ok vals -> sumPower vals bs = powerIn vals (bs_elems bs) 0.
Proof.
  intros Hok. rewrite sumPower_u64. apply u64_small. pose proof (powers_ok_nonneg _ Hok) as Hn.
  split; [by apply powerIn_nonneg|].
  eapply Z.le_lt_trans; [by apply powerIn_le_total|]. apply Hok.
Qed.
End sums.

(** * Validator slices and trust *)

Lemma ValidatorSlicesEqual_spec vs1 vs2 : ValidatorSlicesEqual vs1 vs2 = true <-> vs1 = vs2.
Proof.
  unfold ValidatorSlicesEqual. rewrite andb_true_iff, Nat.eqb_eq. split.
  - intros [Hlen Hall]. revert vs2 Hlen Hall.
    induction vs1 as [|[k1 p1] vs1 IH]; intros [|[k2 p2] vs2] Hlen Hall; simplify_eq/=; [done|].
    apply andb_true_iff in Hall as [Hh Ht]. apply andb_true_iff in Hh as [Hp Hk].
    apply Z.eqb_eq in Hp. apply bool_decide_eq_true in Hk. simplify_eq/=.
    f_equal. by apply IH.
  - intros <-. split; [done|]. induction vs1 as [|[k p] vs IH]; [done|]. simpl.
    unfold pk_Equal. rewrite Z.eqb_refl, bool_decide_eq_true_2 by done. done.
Qed.

(** The exact power of the validators whose key bytes are in [T]. *)
Definition trustedPowerZ (T : gset bytes) (vs : list Validator) : Z :=
  totalPowerZ (filter (fun v => v.(val_PubKey).(pk_PubKeyBytes) ∈ T) vs).

Lemma totalPowerZ_nonneg vs :
  Forall (fun v => 0 <= v.(val_Power)) vs -> 0 <= totalPowerZ vs.
Proof. induction 1; simpl; lia. Qed.

Lemma trustStep_sums T vs a b :
  foldl (trustStep T) (u64 a, u64 b) vs =
  (u64 (a + totalPowerZ vs), u64 (b + trustedPowerZ T vs)).
Proof.
  unfold trustedPowerZ. revert a b. induction vs as [|v vs IH]; intros a b; simpl.
  - by rewrite !Z.add_0_r.
  - unfold trustStep at 2; simpl. rewrite filter_cons.
    case_bool_decide; case_decide; try done; rewrite !u64_add_l, IH; simpl; do 2 f_equal; lia.
Qed.

Lemma trustedPowerZ_bounds T vs :
  Forall (fun v => 0 <= v.(val_Power)) vs -> 0 <= trustedPowerZ T vs <= totalPowerZ vs.
Proof.
  unfold trustedPowerZ. induction 1 as [|v vs]; simpl; [lia|].
  rewrite filter_cons. case_decide; simpl; lia.
Qed.

(** * Properties *)

Lemma ByzantineMajority_least (n : Z) : 0 < n < two64 ->
  exists m, ByzantineMajority n = Ret m /\ m <= n /\ forall k, m <= k <-> 3 * k > 2 * n.
Proof.
  intros Hn. destruct (ByzantineMajority_ret n Hn) as (m & -> & ? & ? & ?).
  exists m. split_and!; [done|lia|]. intros k. lia.
Qed.

Lemma ByzantineMinority_least (n : Z) : 0 < n < two64 ->
  exists m, ByzantineMinority n = Ret m /\ m <= n /\ forall k, m <= k <-> 3 * k >= n.
Proof.
  intros Hn. destruct (ByzantineMinority_ret n Hn) as (m & -> & ? & ? & ?).
  exists m. split_and!; [done|lia|]. intros k. lia.
Qed.

(** The thresholds are the least that serve.  For every non-zero uint64 n, ByzantineMajority returns the
    least value exceeding two thirds of n, and ByzantineMinority the least value reaching one third of n;
    neither exceeds n, so nothing wraps around. *)
Theorem thresholds_least (n : Z) : 0 < n < two64 ->
  (exists m, ByzantineMajority n = Ret m /\ m <= n /\ forall k, m <= k <-> 3 * k > 2 * n) /\
  (exists m, ByzantineMinority n = Ret m /\ m <= n /\ forall k, m <= k <-> 3 * k >= n).
Proof. intros Hn. split; [by apply ByzantineMajority_least|by apply ByzantineMinority_least]. Qed.

Lemma thresholds_least_witness :
  (exists m, ByzantineMajority 12 = Ret m /\ m <= 12 /\ forall k, m <= k <-> 3 * k > 2 * 12) /\
  (exists m, ByzantineMinority 12 = Ret m /\ m <= 12 /\ forall k, m <= k <-> 3 * k >= 12).
Proof. apply (thresholds_least 12). unfold two64; lia. Defined.

(** C37: quorum intersection on the sums the code computes.  If the powers the Go loop reads off two
    signature bit sets both reach ByzantineMajority of the available power, then the validators in both
    bit sets hold at least ByzantineMinority of it. *)
Theorem quorum_intersection {B : Type} `{BitSetLaws B} (vals : list Validator) (a b : B) (maj min : Z) :
  powers_ok vals -> 0 < totalPowerZ vals ->
  ByzantineMajority (totalPowerZ vals) = Ret maj ->
  ByzantineMinority (totalPowerZ vals) = Ret min ->
  maj <= sumPower vals a -> maj <= sumPower vals b ->
  min <= powerIn vals (bs_elems a ∩ bs_elems b) 0.
Proof.
  intros Hok Hpos HM Hm Ha Hb. rewrite sumPower_exact in Ha, Hb by done.
  pose proof (two_majorities _ _ _ (conj Hpos (proj2 Hok)) HM Hm) as Htwo.
  pose proof (powerIn_union_inter vals (bs_elems a) (bs_elems b) 0) as Hui.
  pose proof (powerIn_le_total vals (bs_elems a ∪ bs_elems b) 0 (powers_ok_nonneg _ Hok)). lia.
Qed.

Definition exampleVals : list Validator :=
  [MkValidator (MkPubKey "k" "a") 1; MkValidator (MkPubKey "k" "b") 1;
   MkValidator (MkPubKey "k" "c") 1; MkValidator (MkPubKey "k" "d") 1].

Lemma quorum_intersection_witness :
  2 <= powerIn exampleVals (bs_elems (B := gset nat) {[0%nat; 1%nat; 2%nat]} ∩
                            bs_elems (B := gset nat) {[1%nat; 2%nat; 3%nat]}) 0.
Proof.
  apply (quorum_intersection exampleVals {[0%nat; 1%nat; 2%nat]} {[1%nat; 2%nat; 3%nat]} 3 2);
    [|vm_compute; reflexivity..|vm_compute; discriminate|vm_compute; discriminate].
  split; [repeat constructor; vm_compute; discriminate | vm_compute; reflexivity].
Defined.

(** What CanTrustValidators decides.  With positive total power it returns true exactly when the
    trusted keys hold at least two more than ByzantineMinority of the total: in particular holding one
    third of the power, which the function's comment calls enough, is not enough. *)
Theorem CanTrustValidators_threshold (vs : list Validator) (keys : list PubKey) (min : Z) :
  powers_ok vs -> 0 < totalPowerZ vs -> ByzantineMinority (totalPowerZ vs) = Ret min ->
  exists b, CanTrustValidators vs keys = Ret b /\
    (b = true <-> min + 2 <= trustedPowerZ (list_to_set (map pk_PubKeyBytes keys)) vs) /\
    (trustedPowerZ (list_to_set (map pk_PubKeyBytes keys)) vs <= min + 1 -> b = false).
Proof.
  intros Hok Hpos Hmin. unfold CanTrustValidators.
  set (T := list_to_set _). change (0, 0) with (u64 0, u64 0). rewrite trustStep_sums, !Z.add_0_l.
  pose proof (trustedPowerZ_bounds T vs (powers_ok_nonneg _ Hok)) as HT.
  destruct (ByzantineMinority_ret _ (conj Hpos (proj2 Hok))) as (m & Hm & H1 & H2 & H3).
  rewrite Hmin in Hm; simplify_eq.
  pose proof (proj2 Hok) as Hlt. rewrite !u64_small by (unfold is_u64 in *; lia).
  simpl. rewrite Hmin. simpl. eexists; split; [reflexivity|].
  unfold is_u64, two64 in *. destruct (Z.eq_dec m (two64 - 1)) as [->|Hne]; [unfold two64 in *; lia|].
  rewrite u64_small by (unfold is_u64, two64 in *; lia).
  split; [rewrite Z.ltb_lt; lia|]. intros. apply Z.ltb_ge. lia.
Qed.

Lemma CanTrustValidators_threshold_witness :
  exists b, CanTrustValidators exampleVals [MkPubKey "k" "a"; MkPubKey "k" "b"] = Ret b /\
    (b = true <-> 2 + 2 <= trustedPowerZ (list_to_set (map pk_PubKeyBytes
        [MkPubKey "k" "a"; MkPubKey "k" "b"])) exampleVals) /\
    (trustedPowerZ (list_to_set (map pk_PubKeyBytes
        [MkPubKey "k" "a"; MkPubKey "k" "b"])) exampleVals <= 2 + 1 -> b = false).
Proof.
  apply (CanTrustValidators_threshold exampleVals [MkPubKey "k" "a"; MkPubKey "k" "b"] 2);
    [|vm_compute; reflexivity..].
  split; [repeat constructor; vm_compute; discriminate | vm_compute; reflexivity].
Defined.
