(* ===== verification/SigProof.v ===== *)
(** Signature proofs over a common message (gcrypto): the interface
    CommonMessageSignatureProof as type classes, and the simple implementation of
    simplecommonmessagesignatureproof.go. *)
From S2P Require Import Prelude Types BitSets.

(** * The interface

    [P] is the dynamic type of the proofs in use and [B] the bit set type.  Go proofs are
    mutated in place; here an operation returns the updated proof, and Clone, whose result shares no
    mutable state with its receiver, is the identity on values. *)
Class CMSP (P B : Type) := {
  cmsp_Message : P -> bytes;
  cmsp_PubKeyHash : P -> bytes;
  cmsp_AddSignature : bytes -> PubKey -> P -> result P;
  cmsp_Matches : P -> P -> bool;
  cmsp_Merge : P -> P -> P * SignatureProofMergeResult;
  cmsp_MergeSparse : SparseSignatureProof -> P -> outcome (P * SignatureProofMergeResult);
  cmsp_HasSparseKeyID : bytes -> P -> bool * bool;
  cmsp_Derive : P -> P;
  cmsp_SignatureBitSet : P -> B;
  cmsp_AsSparse : P -> SparseSignatureProof
}.

(** CommonMessageSignatureProofScheme; its KeyIDChecker is the predicate IsValid it returns. *)
Class CMSPScheme (P : Type) := {
  scheme_New : bytes -> list PubKey -> bytes -> result P;
  scheme_KeyIDChecker : list PubKey -> bytes -> bool
}.

(** What the engine relies on, whatever the implementation: [cmsp_sound] is an invariant of every
    proof the scheme builds, and a sound proof has a bit only for a candidate for whose key bytes
    it has seen a valid signature over its message. *)
Class CMSPLaws (P B : Type) `{Verifier, BitSetLaws B, !CMSP P B, !CMSPScheme P} := {
  cmsp_sound : list PubKey -> P -> Prop;
  cmsp_New_sound msg keys hash p : scheme_New msg keys hash = Ok p ->
    cmsp_sound keys p /\ cmsp_Message p = msg /\ cmsp_PubKeyHash p = hash /\
    bs_elems (cmsp_SignatureBitSet p) = ∅;
  cmsp_AddSignature_sound keys sig key p p' : cmsp_AddSignature sig key p = Ok p' ->
    cmsp_sound keys p -> cmsp_sound keys p' /\ cmsp_Message p' = cmsp_Message p /\
    bs_elems (cmsp_SignatureBitSet p) ⊆ bs_elems (cmsp_SignatureBitSet p');
  cmsp_MergeSparse_sound keys s p p' r : cmsp_MergeSparse s p = Ret (p', r) ->
    cmsp_sound keys p -> cmsp_sound keys p' /\ cmsp_Message p' = cmsp_Message p /\
    bs_elems (cmsp_SignatureBitSet p) ⊆ bs_elems (cmsp_SignatureBitSet p');
  cmsp_sound_bits keys p i : cmsp_sound keys p -> i ∈ bs_elems (cmsp_SignatureBitSet p) ->
    exists k key sig, keys !! i = Some k /\ key.(pk_PubKeyBytes) = k.(pk_PubKeyBytes) /\
      verify key (cmsp_Message p) sig = true
}.

(** * Big endian key IDs *)

(** binary.BigEndian.Uint16: panics on fewer than two bytes, ignores any after the second. *)
Definition beUint16 (b : bytes) : outcome nat :=
  match b with
  | String hi (String lo _) =>
      Ret (N.to_nat (N_of_ascii hi) * 256 + N.to_nat (N_of_ascii lo))%nat
  | _ => Panic "runtime error: index out of range"
  end.

(** binary.BigEndian.PutUint16 into a 2-byte array, after the conversion to uint16. *)
Definition putUint16 (n : nat) : bytes :=
  let m := (N.of_nat n mod 65536)%N in
  String (ascii_of_N (m / 256)) (String (ascii_of_N (m mod 256)) EmptyString).

(** The IsValid method of beUint16KeyLenIDChecker. *)
Definition keyIDValid (nKeys : nat) (keyID : bytes) : bool :=
  match keyID with
  | String hi (String lo EmptyString) =>
      bool_decide ((N.to_nat (N_of_ascii hi) * 256 + N.to_nat (N_of_ascii lo)) < nKeys)%nat
  | _ => false
  end.

(** * SimpleCommonMessageSignatureProof *)

Record SimpleProof (B : Type) := MkSimple {
  sp_msg : bytes;
  sp_sigs : gmap bytes PubKey;
  sp_keys : list PubKey;
  sp_keyIdxs : gmap bytes nat;
  sp_keyHash : bytes;
  sp_bitset : B
}.
Arguments MkSimple {B}.
Arguments sp_msg {B}.
Arguments sp_sigs {B}.
Arguments sp_keys {B}.
Arguments sp_keyIdxs {B}.
Arguments sp_keyHash {B}.
Arguments sp_bitset {B}.

(** The candidate index map: a later duplicate key overwrites an earlier one. *)
Fixpoint indexFrom (off : nat) (m : gmap bytes nat) (keys : list PubKey) : gmap bytes nat :=
  match keys with
  | [] => m
  | k :: keys => indexFrom (S off) (<[k.(pk_PubKeyBytes) := off]> m) keys
  end.

Definition indexKeys (keys : list PubKey) : gmap bytes nat := indexFrom 0 ∅ keys.

Section simple.
Context {B : Type} `{BitSet B} `{Verifier}.

Definition NewSimpleProof (msg : bytes) (candidateKeys : list PubKey) (pubKeyHash : bytes) :
  result (SimpleProof B) :=
  Ok {| sp_msg := msg; sp_sigs := ∅; sp_keys := candidateKeys;
        sp_keyIdxs := indexKeys candidateKeys; sp_keyHash := pubKeyHash;
        sp_bitset := bs_New (length candidateKeys) |}.

Definition Simple_AddSignature (sig : bytes) (key : PubKey) (p : SimpleProof B) :
  result (SimpleProof B) :=
  match p.(sp_keyIdxs) !! key.(pk_PubKeyBytes) with
  | None => Err ErrUnknownKey
  | Some keyIdx =>
      if negb (verify key p.(sp_msg) sig) then Err ErrInvalidSignature
      else Ok {| p with sp_sigs := <[sig := key]> p.(sp_sigs);
                        sp_bitset := bs_Set keyIdx p.(sp_bitset) |}
  end.

Definition Simple_Matches (p o : SimpleProof B) : bool :=
  String.eqb p.(sp_msg) o.(sp_msg) && String.eqb p.(sp_keyHash) o.(sp_keyHash) &&
  bool_decide (p.(sp_keys) = o.(sp_keys)).

(** One iteration of the loop of Merge: the proof, AllValidSignatures, IncreasedSignatures. *)
Definition mergeStep (acc : SimpleProof B * bool * bool) (other : bytes * PubKey) :
  SimpleProof B * bool * bool :=
  let '(p, allValid, increased) := acc in
  let '(otherSig, otherKey) := other in
  match p.(sp_sigs) !! otherSig with
  | None =>
      match Simple_AddSignature otherSig otherKey p with
      | Ok p' => (p', allValid, true)
      | Err _ => (p, false, increased)
      end
  | Some curKey => (p, allValid && pk_Equal curKey otherKey, increased)
  end.

Definition Simple_Merge (p o : SimpleProof B) : SimpleProof B * SignatureProofMergeResult :=
  if negb (Simple_Matches p o) then (p, MergeResult_zero)
  else
    let looksLikeStrictSuperset :=
      (bs_None o.(sp_bitset) && bs_None p.(sp_bitset)) ||
      bs_IsStrictSuperSet o.(sp_bitset) p.(sp_bitset) in
    let '(p', allValid, increased) := foldl mergeStep (p, true, false) (map_to_list o.(sp_sigs)) in
    (p', {| AllValidSignatures := allValid; IncreasedSignatures := increased;
            WasStrictSuperset := looksLikeStrictSuperset && allValid |}).

Definition Simple_Derive (p : SimpleProof B) : SimpleProof B :=
  {| p with sp_sigs := ∅; sp_bitset := bs_New (length p.(sp_keys)) |}.

(** The sort order of AsSparse. *)
Definition sparseLe (a b : SparseSignature) : Prop := String.ltb b.(ss_KeyID) a.(ss_KeyID) = false.
#[export] Instance sparseLe_dec : RelDecision sparseLe.
Proof. intros a b. unfold sparseLe. apply _. Defined.

Definition sparseOf (p : SimpleProof B) (e : bytes * PubKey) : SparseSignature :=
  MkSparseSignature (putUint16 (default 0%nat (p.(sp_keyIdxs) !! e.2.(pk_PubKeyBytes)))) e.1.

Definition Simple_AsSparse (p : SimpleProof B) : SparseSignatureProof :=
  {| ssp_PubKeyHash := p.(sp_keyHash);
     ssp_Signatures := merge_sort sparseLe (map (sparseOf p) (map_to_list p.(sp_sigs))) |}.

(** One iteration of the loop of MergeSparse: the proof, AllValidSignatures, addedBS. *)
Definition mergeSparseStep (acc : SimpleProof B * bool * B) (s : SparseSignature) :
  outcome (SimpleProof B * bool * B) :=
  let '(p, allValid, added) := acc in
  n ← beUint16 s.(ss_KeyID);
  match p.(sp_keys) !! n with
  | None => Ret (p, false, added)
  | Some key =>
      match Simple_AddSignature s.(ss_Sig) key p with
      | Err _ => Ret (p, false, added)
      | Ok p' => Ret (p', allValid, bs_Set n added)
      end
  end.

Definition Simple_MergeSparse (s : SparseSignatureProof) (p : SimpleProof B) :
  outcome (SimpleProof B * SignatureProofMergeResult) :=
  if negb (String.eqb p.(sp_keyHash) s.(ssp_PubKeyHash)) then Ret (p, MergeResult_zero)
  else
    let bsBefore := p.(sp_bitset) in
    r ← foldO mergeSparseStep (p, true, bs_New (length p.(sp_keys))) s.(ssp_Signatures);
    let '(p', allValid, added) := r in
    Ret (p', {| AllValidSignatures := allValid;
                IncreasedSignatures :=
                  bool_decide (bs_Count bsBefore < bs_Count p'.(sp_bitset))%nat;
                WasStrictSuperset := bs_IsStrictSuperSet added bsBefore |}).

(** HasSparseKeyID: (has, valid). *)
Definition Simple_HasSparseKeyID (keyID : bytes) (p : SimpleProof B) : bool * bool :=
  if negb (keyIDValid (length p.(sp_keys)) keyID) then (false, false)
  else match beUint16 keyID with
       | Ret u => (bs_Test u p.(sp_bitset), true)
       | Panic _ => (false, false)
       end.

#[export] Instance SimpleProof_CMSP : CMSP (SimpleProof B) B := {
  cmsp_Message := sp_msg;
  cmsp_PubKeyHash := sp_keyHash;
  cmsp_AddSignature := Simple_AddSignature;
  cmsp_Matches := Simple_Matches;
  cmsp_Merge := Simple_Merge;
  cmsp_MergeSparse := Simple_MergeSparse;
  cmsp_HasSparseKeyID := Simple_HasSparseKeyID;
  cmsp_Derive := Simple_Derive;
  cmsp_SignatureBitSet := sp_bitset;
  cmsp_AsSparse := Simple_AsSparse
}.

(** SimpleCommonMessageSignatureProofScheme. *)
#[export] Instance SimpleProofScheme : CMSPScheme (SimpleProof B) := {
  scheme_New := NewSimpleProof;
  scheme_KeyIDChecker keys := keyIDValid (length keys)
}.
End simple.
