(* ===== verification/SimpleProofs.v ===== *)
(** Correctness of the simple signature proof: the engine's interface laws, the exact effect of
    merging a sparse proof, and the sparse round trip. *)
From S2P Require Import Prelude Types BitSets SigProof.

(** * The candidate index map *)

Lemma indexKeys_gen keys off m b i :
  indexFrom off m keys !! b = Some i ->
  m !! b = Some i \/ exists j k, keys !! j = Some k /\ i = (off + j)%nat /\ k.(pk_PubKeyBytes) = b.
Proof.
  revert off m. induction keys as [|k keys IH]; intros off m Hi; simpl in Hi; [by left|].
  apply IH in Hi as [Hi|(j & k' & ? & -> & ?)].
  - apply lookup_insert_Some in Hi as [[Hk ->]|[_ Hi]]; [|by left].
    right. exists 0%nat, k. split_and!; [done|lia|done].
  - right. exists (S j), k'. split_and!; [done|lia|done].
Qed.

Lemma indexKeys_Some keys b i :
  indexKeys keys !! b = Some i -> exists k, keys !! i = Some k /\ k.(pk_PubKeyBytes) = b.
Proof.
  intros Hi. apply indexKeys_gen in Hi as [Hi|(j & k & ? & -> & ?)]; [done|]. by exists k.
Qed.

Lemma indexKeys_gen_fresh keys off m b :
  b ∉ map pk_PubKeyBytes keys ->
  indexFrom off m keys !! b = m !! b.
Proof.
  revert off m. induction keys as [|k keys IH]; intros off m Hb; simpl in *; [done|].
  rewrite IH by set_solver. by rewrite lookup_insert_ne by set_solver.
Qed.

Lemma indexKeys_gen_lookup keys off m i k :
  NoDup (map pk_PubKeyBytes keys) -> keys !! i = Some k ->
  indexFrom off m keys !! k.(pk_PubKeyBytes) = Some (off + i)%nat.
Proof.
  revert off m i. induction keys as [|k0 keys IH]; intros off m i Hnd Hi; simpl in *; [done|].
  apply NoDup_cons in Hnd as [Hk0 Hnd]. destruct i as [|i]; simplify_eq/=.
  - rewrite indexKeys_gen_fresh by done. rewrite lookup_insert_eq. f_equal. lia.
  - rewrite (IH _ _ i) by done. f_equal. lia.
Qed.

Lemma indexKeys_lookup keys i k :
  NoDup (map pk_PubKeyBytes keys) -> keys !! i = Some k ->
  indexKeys keys !! k.(pk_PubKeyBytes) = Some i.
Proof. intros. unfold indexKeys. by rewrite (indexKeys_gen_lookup keys 0 ∅ i k). Qed.

Section facts.
Context {B : Type} `{BitSetLaws B} `{Verifier}.
Implicit Types p o : SimpleProof B.

(** * The soundness invariant *)

(** Bits stand for candidates of whose key bytes a valid signature was seen; recorded
    signatures verify, and their signer's bit is set. *)
Record simple_sound (keys : list PubKey) p : Prop := {
  ss_keys : p.(sp_keys) = keys;
  ss_idxs : p.(sp_keyIdxs) = indexKeys keys;
  ss_bits i : i ∈ bs_elems p.(sp_bitset) -> exists k key sig, keys !! i = Some k /\
    key.(pk_PubKeyBytes) = k.(pk_PubKeyBytes) /\ verify key p.(sp_msg) sig = true;
  ss_sigs sig key : p.(sp_sigs) !! sig = Some key -> verify key p.(sp_msg) sig = true /\
    exists i, indexKeys keys !! key.(pk_PubKeyBytes) = Some i /\ i ∈ bs_elems p.(sp_bitset)
}.

Lemma NewSimpleProof_sound msg keys hash p :
  NewSimpleProof msg keys hash = Ok p -> simple_sound keys p.
Proof.
  intros [= <-]. split; simpl; try done. intros i. rewrite bs_elems_New. set_solver.
Qed.

Lemma Simple_AddSignature_Ok sig key p p' : Simple_AddSignature sig key p = Ok p' ->
  exists i, p.(sp_keyIdxs) !! key.(pk_PubKeyBytes) = Some i /\ verify key p.(sp_msg) sig = true /\
    p' = {| p with sp_sigs := <[sig := key]> p.(sp_sigs); sp_bitset := bs_Set i p.(sp_bitset) |}.
Proof.
  unfold Simple_AddSignature. destruct (sp_keyIdxs p !! _) as [i|]; [|discriminate].
  destruct (verify key (sp_msg p) sig) eqn:E; simpl; [|discriminate]. intros [= <-]. eauto.
Qed.

Lemma Simple_AddSignature_sound keys sig key p p' :
  Simple_AddSignature sig key p = Ok p' -> simple_sound keys p ->
  simple_sound keys p' /\ p'.(sp_msg) = p.(sp_msg) /\
  bs_elems p.(sp_bitset) ⊆ bs_elems p'.(sp_bitset).
Proof.
  intros Hadd [Hk Hx Hb Hs].
  apply Simple_AddSignature_Ok in Hadd as (i & Hi & Hv & ->). rewrite Hx in Hi.
  simpl. rewrite bs_elems_Set. split; [|set_solver].
  destruct (indexKeys_Some _ _ _ Hi) as (k & Hki & Hbytes).
  split; simpl; try done; rewrite ?bs_elems_Set.
  - intros j. rewrite elem_of_union, elem_of_singleton. intros [->|Hj]; [eauto 10|by apply Hb].
  - intros sig' key' [[<- <-]|[_ Hl]]%lookup_insert_Some.
    + split; [done|]. exists i. set_solver.
    + apply Hs in Hl as (? & j & ? & ?). split; [done|]. exists j. set_solver.
Qed.

(** The relation a merge loop maintains between the proof before and after. *)
Definition grows (keys : list PubKey) p p' : Prop :=
  simple_sound keys p' /\ p'.(sp_msg) = p.(sp_msg) /\ p'.(sp_keyHash) = p.(sp_keyHash) /\
  p.(sp_sigs) ⊆ p'.(sp_sigs) /\ bs_elems p.(sp_bitset) ⊆ bs_elems p'.(sp_bitset).

(** ** Sparse merges *)

(** What one sparse signature contributes: the bit of a candidate that signed. *)
Definition contributes p (s : SparseSignature) (i : nat) : Prop :=
  exists n key, beUint16 s.(ss_KeyID) = Ret n /\ p.(sp_keys) !! n = Some key /\
    p.(sp_keyIdxs) !! key.(pk_PubKeyBytes) = Some i /\ verify key p.(sp_msg) s.(ss_Sig) = true.

Definition validFor p (s : SparseSignature) : Prop := exists i, contributes p s i.

Record sparseInv p (l : list SparseSignature) (acc : SimpleProof B * bool * B) : Prop := {
  si_keys : acc.1.1.(sp_keys) = p.(sp_keys);
  si_idxs : acc.1.1.(sp_keyIdxs) = p.(sp_keyIdxs);
  si_msg : acc.1.1.(sp_msg) = p.(sp_msg);
  si_hash : acc.1.1.(sp_keyHash) = p.(sp_keyHash);
  si_bits i : i ∈ bs_elems acc.1.1.(sp_bitset) <->
    i ∈ bs_elems p.(sp_bitset) \/ exists s, s ∈ l /\ contributes p s i;
  si_valid : acc.1.2 = true <-> Forall (validFor p) l;
  si_from sig key : acc.1.1.(sp_sigs) !! sig = Some key -> p.(sp_sigs) !! sig = Some key \/
    exists s n, s ∈ l /\ s.(ss_Sig) = sig /\ beUint16 s.(ss_KeyID) = Ret n /\
      p.(sp_keys) !! n = Some key;
  si_dom s : s ∈ l -> validFor p s -> is_Some (acc.1.1.(sp_sigs) !! s.(ss_Sig));
  si_sound keys : simple_sound keys p -> simple_sound keys acc.1.1
}.

Lemma mergeSparseStep_inv p l s acc :
  sparseInv p l acc -> (2 <= String.length s.(ss_KeyID))%nat ->
  sure (mergeSparseStep acc s) (sparseInv p (l ++ [s])).
Proof.
  destruct acc as [[q v] added]. intros [Hk Hx Hm Hh Hb Hv Hf Hd Hs] Hlen; simpl in *.
  assert (exists n, beUint16 s.(ss_KeyID) = Ret n) as [n Hn].
  { destruct (ss_KeyID s) as [|? [|? ?]]; simpl in *; [lia|lia|eauto]. }
  rewrite Hn; simpl. rewrite Hk.
  assert (Hbad : ~ validFor p s -> sparseInv p (l ++ [s]) (q, false, added)).
  { intros Hnv. split; simpl; auto.
    - intros i. rewrite Hb. setoid_rewrite elem_of_app. split.
      + intros [?|(s' & ? & ?)]; eauto 10.
      + intros [?|(s' & [?| ->%list_elem_of_singleton] & Hc)]; eauto 10.
        destruct Hnv. by exists i.
    - split; [discriminate|]. rewrite Forall_app, Forall_singleton. intros []. done.
    - intros sig key [?|(s' & n' & ? & ?)]%Hf; [by left|]. right. exists s', n'. set_solver.
    - intros s' [?| ->%list_elem_of_singleton]%elem_of_app ?; [by apply Hd|done]. }
  destruct (sp_keys p !! n) as [key|] eqn:Ekey; simpl.
  2:{ apply Hbad. intros (i & n' & key & Hn' & ? & _). rewrite Hn in Hn'. congruence. }
  destruct (Simple_AddSignature _ key q) as [q'|e] eqn:Eadd; simpl.
  - pose proof Eadd as Eadd'. apply Simple_AddSignature_Ok in Eadd' as (i & Hi & Hver & ->).
    rewrite Hx in Hi. rewrite Hm in Hver.
    assert (Hci : contributes p s i) by (exists n, key; done).
    split; simpl; auto.
    + intros j. rewrite bs_elems_Set, elem_of_union, elem_of_singleton, Hb.
      setoid_rewrite elem_of_app. split.
      * intros [->|[?|(s' & ? & ?)]]; [right|by left|right]; eauto.
        exists s. split; [right; by apply list_elem_of_singleton|done].
      * intros [?|(s' & [?| ->%list_elem_of_singleton] & Hc)]; eauto.
        destruct Hc as (n' & key' & Hn' & ? & ? & ?). left. congruence.
    + rewrite Forall_app, Forall_singleton, Hv. unfold validFor at 3. naive_solver.
    + intros sig key' [[<- <-]|[_ Hl]]%lookup_insert_Some.
      * right. exists s, n. set_solver.
      * apply Hf in Hl as [?|(s' & n' & ? & ?)]; [by left|]. right. exists s', n'. set_solver.
    + intros s' Hs' Hval. destruct (decide (s.(ss_Sig) = s'.(ss_Sig))) as [<-|Hne].
      * rewrite lookup_insert_eq. by eexists.
      * rewrite lookup_insert_ne by done. apply Hd; [|done].
        apply elem_of_app in Hs' as [?| ->%list_elem_of_singleton]; done.
    + intros keys Hso. eapply Simple_AddSignature_sound; [done|]. by apply Hs.
  - apply Hbad. intros (i & n' & key' & Hn' & Hkey' & Hi & Hver).
    rewrite Hn in Hn'. simplify_eq.
    unfold Simple_AddSignature in Eadd. by rewrite Hx, Hi, Hm, Hver in Eadd.
Qed.

Lemma mergeSparse_fold p l added0 :
  Forall (fun s => 2 <= String.length s.(ss_KeyID))%nat l ->
  sure (foldO mergeSparseStep (p, true, added0) l) (sparseInv p l).
Proof.
  intros Hl. apply foldO_sure.
  - intros dn s rest acc -> Hacc. apply mergeSparseStep_inv; [done|].
    rewrite Forall_app, Forall_cons in Hl. tauto.
  - split; simpl; auto; [set_solver|done|set_solver].
Qed.

(** The whole call, for well-formed key IDs. *)
Lemma Simple_MergeSparse_spec p (s : SparseSignatureProof) :
  p.(sp_keyHash) = s.(ssp_PubKeyHash) ->
  Forall (fun s => 2 <= String.length s.(ss_KeyID))%nat s.(ssp_Signatures) ->
  exists p' r added, Simple_MergeSparse s p = Ret (p', r) /\
    sparseInv p s.(ssp_Signatures) (p', r.(AllValidSignatures), added) /\
    r.(IncreasedSignatures) =
      bool_decide (size (bs_elems p.(sp_bitset)) < size (bs_elems p'.(sp_bitset)))%nat /\
    r.(WasStrictSuperset) = bool_decide (bs_elems p.(sp_bitset) ⊂ bs_elems added).
Proof.
  intros Hhash Hlen. unfold Simple_MergeSparse. rewrite Hhash, String.eqb_refl. simpl.
  pose proof (mergeSparse_fold p _ (bs_New (length (sp_keys p))) Hlen) as Hf.
  destruct (foldO _ _ _) as [[[p' v] added]|]; simpl in *; [|done].
  eexists p', _, added. split; [reflexivity|]. split; [done|]. simpl.
  by rewrite !bs_Count_spec, bs_IsStrictSuperSet_spec.
Qed.

Lemma foldO_mergeSparse_panics l acc :
  Exists (fun s => String.length s.(ss_KeyID) < 2)%nat l ->
  exists msg, foldO mergeSparseStep acc l = Panic msg.
Proof.
  intros Hl. revert acc. induction Hl as [s l Hs|s l Hl IH]; intros [[p v] added]; simpl.
  - destruct (ss_KeyID s) as [|? [|? ?]]; simpl in *; eauto; lia.
  - destruct (beUint16 _) as [n|]; simpl; [|eauto]. destruct (sp_keys p !! n); simpl; [|apply IH].
    destruct (Simple_AddSignature _ _ _); apply IH.
Qed.

(** ** Full merges *)

Lemma mergeStep_sound keys l p v u p' v' u' :
  foldl mergeStep (p, v, u) l = (p', v', u') -> simple_sound keys p ->
  simple_sound keys p' /\ p'.(sp_msg) = p.(sp_msg) /\
  bs_elems p.(sp_bitset) ⊆ bs_elems p'.(sp_bitset).
Proof.
  revert p v u. induction l as [|[sig key] l IH]; intros p v u Hf Hs; simpl in Hf; [by simplify_eq|].
  destruct (sp_sigs p !! sig) eqn:Esig; [by apply IH in Hf|].
  destruct (Simple_AddSignature sig key p) as [q|] eqn:Ea; [|by apply IH in Hf].
  apply (Simple_AddSignature_sound keys) in Ea as (Hq & Hm & Hb); [|done].
  apply IH in Hf as (? & Hm' & ?); [|done]. split_and!; [done|congruence|set_solver].
Qed.

Lemma Simple_Merge_sound keys p o p' r :
  Simple_Merge p o = (p', r) -> simple_sound keys p ->
  simple_sound keys p' /\ p'.(sp_msg) = p.(sp_msg) /\
  bs_elems p.(sp_bitset) ⊆ bs_elems p'.(sp_bitset).
Proof.
  unfold Simple_Merge. destruct (negb _); [by intros [= <- <-] ?|].
  destruct (foldl _ _ _) as [[q v] u] eqn:E. intros [= <- <-] ?. by eapply mergeStep_sound in E.
Qed.

Lemma Simple_MergeSparse_Ret_sound keys s p p' r :
  Simple_MergeSparse s p = Ret (p', r) -> simple_sound keys p ->
  simple_sound keys p' /\ p'.(sp_msg) = p.(sp_msg) /\
  bs_elems p.(sp_bitset) ⊆ bs_elems p'.(sp_bitset).
Proof.
  intros Hm Hs. destruct (decide (sp_keyHash p = ssp_PubKeyHash s)) as [Hh|Hh].
  - destruct (decide (Forall (fun s => 2 <= String.length s.(ss_KeyID))%nat s.(ssp_Signatures)))
      as [Hl|Hl].
    + destruct (Simple_MergeSparse_spec p s Hh Hl) as (q & r' & added & Hq & Hi & _).
      rewrite Hq in Hm. simplify_eq. split_and!; [by apply (si_sound _ _ _ Hi)|apply Hi|].
      intros i Hi'. apply (si_bits _ _ _ Hi). by left.
    + apply not_Forall_Exists in Hl; [|apply _].
      assert (Hl' : Exists (fun s => String.length s.(ss_KeyID) < 2)%nat s.(ssp_Signatures)).
      { eapply Exists_impl; [exact Hl|]. simpl. intros; lia. }
      destruct (foldO_mergeSparse_panics _ (p, true, bs_New (length (sp_keys p))) Hl') as [msg Hp].
      unfold Simple_MergeSparse in Hm. rewrite Hh, String.eqb_refl, Hp in Hm. discriminate.
  - unfold Simple_MergeSparse in Hm. apply String.eqb_neq in Hh. rewrite Hh in Hm. by simplify_eq/=.
Qed.

(** The simple scheme satisfies the laws the engine relies on. *)
#[export] Program Instance SimpleProof_laws : CMSPLaws (SimpleProof B) B := {
  cmsp_sound := simple_sound
}.
Next Obligation.
  intros msg keys hash p Hnew. simpl in *. pose proof (NewSimpleProof_sound _ _ _ _ Hnew).
  unfold NewSimpleProof in Hnew. simplify_eq/=. by rewrite bs_elems_New.
Qed.
Next Obligation. intros keys sig key p p' Ha Hs. exact (Simple_AddSignature_sound _ _ _ _ _ Ha Hs). Qed.
Next Obligation. intros keys s p p' r Ha Hs. exact (Simple_MergeSparse_Ret_sound _ _ _ _ _ Ha Hs). Qed.
Next Obligation. intros keys p i Hs Hi. exact (ss_bits _ _ Hs _ Hi). Qed.
End facts.

(** * Key ID round trip *)

Lemma beUint16_putUint16 n : (N.of_nat n < 65536)%N -> beUint16 (putUint16 n) = Ret n.
Proof.
  intros Hn. unfold putUint16, beUint16. rewrite (N.mod_small _ _ Hn).
  pose proof (N.div_mod (N.of_nat n) 256 ltac:(lia)) as Hd.
  pose proof (N.mod_lt (N.of_nat n) 256 ltac:(lia)) as Hm.
  set (q := (N.of_nat n / 256)%N) in *. set (r := (N.of_nat n mod 256)%N) in *.
  clearbody q r. rewrite !N_ascii_embedding by lia. f_equal. lia.
Qed.

(** * Properties *)

(** Proofs reachable from the constructor by the mutating operations, with any arguments. *)
Inductive simple_reachable {B : Type} `{BitSet B, Verifier} (msg : bytes) (keys : list PubKey) (hash : bytes) :
  SimpleProof B -> Prop :=
| sr_new p : NewSimpleProof msg keys hash = Ok p -> simple_reachable msg keys hash p
| sr_add p p' sig key : simple_reachable msg keys hash p ->
    Simple_AddSignature sig key p = Ok p' -> simple_reachable msg keys hash p'
| sr_merge p o p' r : simple_reachable msg keys hash p ->
    Simple_Merge p o = (p', r) -> simple_reachable msg keys hash p'
| sr_sparse p s p' r : simple_reachable msg keys hash p ->
    Simple_MergeSparse s p = Ret (p', r) -> simple_reachable msg keys hash p'.

(** C29: whatever sequence of AddSignature, Merge and MergeSparse calls is applied to a new simple
    proof, with whatever untrusted arguments, every bit of its bit set stands for a candidate key for
    whose bytes a signature over the proof's message has been verified. *)
Theorem simple_proof_sound {B : Type} `{BitSetLaws B, Verifier} msg keys hash (p : SimpleProof B) i :
  simple_reachable msg keys hash p -> i ∈ bs_elems p.(sp_bitset) ->
  exists k key sig, keys !! i = Some k /\ key.(pk_PubKeyBytes) = k.(pk_PubKeyBytes) /\
    verify key msg sig = true.
Proof.
  intros Hr Hi. assert (Hs : simple_sound keys p /\ p.(sp_msg) = msg).
  { clear Hi i. induction Hr as [p Hn|p p' sig key _ [IH <-] Ha|p o p' r _ [IH <-] Hm|p s p' r _ [IH <-] Hm].
    - split; [by eapply NewSimpleProof_sound|]. unfold NewSimpleProof in Hn. by simplify_eq.
    - destruct (Simple_AddSignature_sound keys _ _ _ _ Ha IH) as (? & ? & _). done.
    - destruct (Simple_Merge_sound keys _ _ _ _ Hm IH) as (? & ? & _). done.
    - destruct (Simple_MergeSparse_Ret_sound keys _ _ _ _ Hm IH) as (? & ? & _). done. }
  destruct Hs as [Hs <-]. by apply (ss_bits _ _ Hs).
Qed.

(** A toy verification relation for concrete instances: a signature is the key bytes followed by
    the message. *)
Definition toyVerify : Verifier := fun k msg sig => String.eqb sig (k.(pk_PubKeyBytes) +:+ msg).
Definition toyKeys : list PubKey := [MkPubKey "toy" "a"; MkPubKey "toy" "b"; MkPubKey "toy" "c"].
Definition toyProof : SimpleProof (gset nat) :=
  MkSimple "m" {["bm" := MkPubKey "toy" "b"]} toyKeys (indexKeys toyKeys) "h" {[1%nat]}.

Lemma simple_proof_sound_witness :
  exists k key sig, toyKeys !! 1%nat = Some k /\ key.(pk_PubKeyBytes) = k.(pk_PubKeyBytes) /\
    toyVerify key "m" sig = true.
Proof.
  apply (simple_proof_sound (H1 := toyVerify) "m" toyKeys "h" toyProof 1).
  - eapply (sr_add (H0 := toyVerify) _ _ _ _ _ "bm" (MkPubKey "toy" "b")).
    + apply sr_new. reflexivity.
    + vm_compute. reflexivity.
  - vm_compute. reflexivity.
Defined.

Lemma MergeSparse_exact {B : Type} `{BitSetLaws B, Verifier} (p : SimpleProof B) (s : SparseSignatureProof) :
  p.(sp_keyHash) = s.(ssp_PubKeyHash) ->
  Forall (fun s => 2 <= String.length s.(ss_KeyID))%nat s.(ssp_Signatures) ->
  exists p' r, Simple_MergeSparse s p = Ret (p', r) /\
    (forall i, i ∈ bs_elems p'.(sp_bitset) <->
      i ∈ bs_elems p.(sp_bitset) \/ exists sg, sg ∈ s.(ssp_Signatures) /\ contributes p sg i) /\
    (r.(AllValidSignatures) = true <-> Forall (validFor p) s.(ssp_Signatures)) /\
    (r.(IncreasedSignatures) = true <-> bs_elems p.(sp_bitset) ⊂ bs_elems p'.(sp_bitset)) /\
    p'.(sp_msg) = p.(sp_msg) /\ p'.(sp_keys) = p.(sp_keys) /\ p'.(sp_keyHash) = p.(sp_keyHash).
Proof.
  intros Hh Hl. destruct (Simple_MergeSparse_spec p s Hh Hl) as (p' & r & added & Hm & Hi & Hinc & _).
  exists p', r. split; [done|]. destruct Hi as [Hk Hx Hms Hhs Hb Hv Hf Hd Hs]; simpl in *.
  split_and!; try done. rewrite Hinc, bool_decide_eq_true.
  assert (Hsub : bs_elems (sp_bitset p) ⊆ bs_elems (sp_bitset p')) by (intros j Hj; apply Hb; by left).
  split; [|apply subset_size]. intros Hlt. split; [done|]. intros Hge%subseteq_size. lia.
Qed.

Definition toySparse : SparseSignatureProof :=
  MkSparseSignatureProof "h" [MkSparseSignature (putUint16 0) "am"; MkSparseSignature (putUint16 2) "xx"].

Lemma MergeSparse_panics_iff {B : Type} `{BitSetLaws B, Verifier} (p : SimpleProof B) (s : SparseSignatureProof) :
  p.(sp_keyHash) = s.(ssp_PubKeyHash) ->
  ((exists msg, Simple_MergeSparse s p = Panic msg) <->
   exists sg, sg ∈ s.(ssp_Signatures) /\ (String.length sg.(ss_KeyID) < 2)%nat).
Proof.
  intros Hh. split.
  - intros [msg Hp]. destruct (decide (Forall (fun s => 2 <= String.length s.(ss_KeyID))%nat s.(ssp_Signatures)))
      as [Hl|Hl].
    + destruct (Simple_MergeSparse_spec p s Hh Hl) as (p' & r & added & Hm & _). congruence.
    + apply not_Forall_Exists, Exists_exists in Hl as (sg & ? & ?); [|apply _].
      exists sg. split; [done|]. simpl in *. lia.
  - intros Hex. apply Exists_exists in Hex.
    destruct (foldO_mergeSparse_panics _ (p, true, bs_New (length (sp_keys p))) Hex) as [msg Hp].
    exists msg. unfold Simple_MergeSparse. by rewrite Hh, String.eqb_refl, Hp.
Qed.

(** What MergeSparse does with a sparse proof for its key hash.  It panics exactly when some signature
    carries a key ID shorter than two bytes, wherever it is in the list: the callers that do not check key
    IDs first (the previous commit proof of a proposed header, a replayed header's proof) can be crashed.
    Otherwise the old bits stay and exactly those of candidates that really signed the message are added;
    AllValidSignatures holds exactly when every entry is a candidate's own signature, IncreasedSignatures
    exactly when bits were added, and message, keys and key hash stay. *)
Theorem MergeSparse_spec {B : Type} `{BitSetLaws B, Verifier} (p : SimpleProof B) (s : SparseSignatureProof) :
  p.(sp_keyHash) = s.(ssp_PubKeyHash) ->
  ((exists msg, Simple_MergeSparse s p = Panic msg) <->
   exists sg, sg ∈ s.(ssp_Signatures) /\ (String.length sg.(ss_KeyID) < 2)%nat) /\
  (Forall (fun s => 2 <= String.length s.(ss_KeyID))%nat s.(ssp_Signatures) ->
   exists p' r, Simple_MergeSparse s p = Ret (p', r) /\
     (forall i, i ∈ bs_elems p'.(sp_bitset) <->
       i ∈ bs_elems p.(sp_bitset) \/ exists sg, sg ∈ s.(ssp_Signatures) /\ contributes p sg i) /\
     (r.(AllValidSignatures) = true <-> Forall (validFor p) s.(ssp_Signatures)) /\
     (r.(IncreasedSignatures) = true <-> bs_elems p.(sp_bitset) ⊂ bs_elems p'.(sp_bitset)) /\
     p'.(sp_msg) = p.(sp_msg) /\ p'.(sp_keys) = p.(sp_keys) /\ p'.(sp_keyHash) = p.(sp_keyHash)).
Proof. intros Hh. split; [by apply MergeSparse_panics_iff|by apply MergeSparse_exact]. Qed.

Lemma MergeSparse_spec_witness :
  exists p' r, Simple_MergeSparse (H0 := toyVerify) toySparse toyProof = Ret (p', r) /\
    (forall i, i ∈ bs_elems p'.(sp_bitset) <->
      i ∈ bs_elems toyProof.(sp_bitset) \/
      exists sg, sg ∈ toySparse.(ssp_Signatures) /\ contributes (H1 := toyVerify) toyProof sg i) /\
    (r.(AllValidSignatures) = true <->
      Forall (validFor (H1 := toyVerify) toyProof) toySparse.(ssp_Signatures)) /\
    (r.(IncreasedSignatures) = true <-> bs_elems toyProof.(sp_bitset) ⊂ bs_elems p'.(sp_bitset)) /\
    p'.(sp_msg) = toyProof.(sp_msg) /\ p'.(sp_keys) = toyProof.(sp_keys) /\
    p'.(sp_keyHash) = toyProof.(sp_keyHash).
Proof.
  apply (MergeSparse_spec (H1 := toyVerify) toyProof toySparse); [reflexivity|].
  repeat constructor; vm_compute; lia.
Defined.

(** A proof whose bits are all backed by recorded signatures of candidates: what a proof is when no
    signature verifies under two candidate keys. *)
Definition fully_recorded {B : Type} `{BitSetLaws B} (keys : list PubKey) (p : SimpleProof B) : Prop :=
  (forall sig k, p.(sp_sigs) !! sig = Some k -> k ∈ keys) /\
  (forall i, i ∈ bs_elems p.(sp_bitset) ->
     exists sig k, p.(sp_sigs) !! sig = Some k /\ indexKeys keys !! k.(pk_PubKeyBytes) = Some i).

Section roundtrip.
Context {B : Type} `{BitSetLaws B, Verifier}.
Context (keys : list PubKey) (p : SimpleProof B).
Context (Hnd : NoDup (map pk_PubKeyBytes keys)) (Hlen : (N.of_nat (length keys) < 65536)%N).
Context (Hsound : simple_sound keys p) (Hrec : fully_recorded keys p).

Lemma elem_of_AsSparse s :
  s ∈ (Simple_AsSparse p).(ssp_Signatures) <->
  exists sig k, p.(sp_sigs) !! sig = Some k /\ s = sparseOf p (sig, k).
Proof.
  simpl. rewrite merge_sort_Permutation, list_elem_of_fmap. split.
  - intros ([sig k] & -> & Hin). apply elem_of_map_to_list in Hin. eauto.
  - intros (sig & k & Hl & ->). exists (sig, k). split; [done|]. by apply elem_of_map_to_list.
Qed.

(** Each recorded signature is sent under the index of its signer, which the receiver maps back
    to the same key. *)
Lemma recorded_index sig k : p.(sp_sigs) !! sig = Some k ->
  exists i, keys !! i = Some k /\ p.(sp_keyIdxs) !! k.(pk_PubKeyBytes) = Some i /\
    beUint16 (sparseOf p (sig, k)).(ss_KeyID) = Ret i.
Proof.
  intros Hk. destruct Hrec as [Hin _]. destruct Hsound as [_ Hx _ _].
  apply Hin in Hk. apply list_elem_of_lookup in Hk as [i Hi].
  pose proof (indexKeys_lookup keys i k Hnd Hi) as Hidx.
  exists i. rewrite Hx. split_and!; [done..|]. simpl. rewrite Hx, Hidx. simpl.
  apply beUint16_putUint16. apply lookup_lt_Some in Hi. lia.
Qed.

Lemma recorded_contributes sig k i : p.(sp_sigs) !! sig = Some k ->
  p.(sp_keyIdxs) !! k.(pk_PubKeyBytes) = Some i ->
  contributes (Simple_Derive p) (sparseOf p (sig, k)) i.
Proof.
  intros Hk Hi. destruct (recorded_index sig k Hk) as (j & Hj & Hij & Hbe).
  exists j, k. simpl. rewrite (ss_keys _ _ Hsound). split_and!; [done..|].
  by apply (ss_sigs _ _ Hsound).
Qed.

Lemma AsSparse_keyIDs :
  Forall (fun s => 2 <= String.length s.(ss_KeyID))%nat (Simple_AsSparse p).(ssp_Signatures).
Proof.
  apply Forall_forall. intros s (sig & k & Hk & ->)%elem_of_AsSparse. simpl. lia.
Qed.

Lemma roundtrip_gen : exists p' r,
  Simple_MergeSparse (Simple_AsSparse p) (Simple_Derive p) = Ret (p', r) /\
  p'.(sp_sigs) = p.(sp_sigs) /\ bs_elems p'.(sp_bitset) = bs_elems p.(sp_bitset) /\
  r.(AllValidSignatures) = true.
Proof.
  destruct (Simple_MergeSparse_spec (Simple_Derive p) (Simple_AsSparse p) eq_refl AsSparse_keyIDs)
    as (p' & r & added & Hm & [_ _ _ _ Hb Hv Hf Hd _] & _).
  simpl in Hb, Hf, Hd. exists p', r. split; [done|]. split_and!.
  - apply map_eq. intros sig. destruct (sp_sigs p !! sig) as [k|] eqn:Ek.
    + destruct (recorded_index sig k Ek) as (i & Hi & Hix & _).
      destruct (Hd (sparseOf p (sig, k))) as [k' Hk'].
      { apply elem_of_AsSparse. eauto. }
      { exists i. by apply recorded_contributes. }
      change (ss_Sig (sparseOf p (sig, k))) with sig in Hk'. rewrite Hk'. f_equal.
      apply Hf in Hk' as [?|(s & n & Hs & Hsig & Hbe & Hn)]; [done|].
      apply elem_of_AsSparse in Hs as (sig' & k'' & Hk'' & ->). simpl in Hsig; subst sig'.
      destruct (recorded_index sig k'' Hk'') as (j & Hj & _ & Hbe').
      rewrite Hbe in Hbe'. rewrite (ss_keys _ _ Hsound) in Hn. congruence.
    + destruct (sp_sigs p' !! sig) as [k'|] eqn:Ek'; [|done].
      apply Hf in Ek' as [?|(s & n & Hs & Hsig & _)]; [done|].
      apply elem_of_AsSparse in Hs as (sig' & k'' & Hk'' & ->). simpl in Hsig. congruence.
  - apply set_eq. intros i. rewrite Hb, bs_elems_New. split.
    + intros [?|(s & Hs & (n & key & Hn & Hkn & Hkey & _))]; [set_solver|].
      apply elem_of_AsSparse in Hs as (sig & k & Hk & ->).
      destruct (recorded_index sig k Hk) as (j & Hj & Hjx & Hbe).
      change (sp_keys p !! n = Some key) in Hkn. change (sp_keyIdxs p !! pk_PubKeyBytes key = Some i) in Hkey.
      rewrite (ss_keys _ _ Hsound) in Hkn. rewrite (ss_idxs _ _ Hsound) in Hkey.
      assert (n = j) as -> by congruence. assert (key = k) as -> by congruence.
      destruct (ss_sigs _ _ Hsound _ _ Hk) as (_ & i' & Hi' & Hin). congruence.
    + intros Hi. right. destruct (proj2 Hrec i Hi) as (sig & k & Hk & Hidx).
      exists (sparseOf p (sig, k)). split; [apply elem_of_AsSparse; eauto|].
      apply recorded_contributes; [done|]. by rewrite (ss_idxs _ _ Hsound).
  - apply Hv. apply Forall_forall. intros s (sig & k & Hk & ->)%elem_of_AsSparse.
    destruct (recorded_index sig k Hk) as (i & _ & Hi & _). exists i. by apply recorded_contributes.
Qed.
End roundtrip.

(** The sparse round trip.  Sending a proof whose bits are all backed by recorded candidate
    signatures as a sparse proof, and merging it into an empty proof for the same message and keys,
    gives back exactly the same signatures and bits, with every signature accepted. *)
Theorem AsSparse_MergeSparse_roundtrip {B : Type} `{BitSetLaws B, Verifier} keys (p : SimpleProof B) :
  NoDup (map pk_PubKeyBytes keys) -> (N.of_nat (length keys) < 65536)%N ->
  simple_sound keys p -> fully_recorded keys p ->
  exists p' r, Simple_MergeSparse (Simple_AsSparse p) (Simple_Derive p) = Ret (p', r) /\
    p'.(sp_sigs) = p.(sp_sigs) /\ bs_elems p'.(sp_bitset) = bs_elems p.(sp_bitset) /\
    r.(AllValidSignatures) = true.
Proof. intros. by apply (roundtrip_gen keys). Qed.

Lemma toyProof_sound : simple_sound (H1 := toyVerify) toyKeys toyProof.
Proof.
  split; [done|done| |].
  - intros i Hi. change (i ∈ ({[1%nat]} : gset nat)) in Hi. apply elem_of_singleton in Hi as ->.
    exists (MkPubKey "toy" "b"), (MkPubKey "toy" "b"), "bm". done.
  - intros sig key Hs. simpl in Hs. apply lookup_singleton_Some in Hs as [<- <-]. split; [done|]. exists 1%nat. split; [done|].
    change (1%nat ∈ ({[1%nat]} : gset nat)). set_solver.
Defined.

Lemma AsSparse_MergeSparse_roundtrip_witness :
  exists p' r, Simple_MergeSparse (H0 := toyVerify) (Simple_AsSparse toyProof) (Simple_Derive toyProof)
      = Ret (p', r) /\
    p'.(sp_sigs) = toyProof.(sp_sigs) /\ bs_elems p'.(sp_bitset) = bs_elems toyProof.(sp_bitset) /\
    r.(AllValidSignatures) = true.
Proof.
  apply (AsSparse_MergeSparse_roundtrip (H1 := toyVerify) toyKeys toyProof).
  - apply (bool_decide_unpack _). vm_compute. exact I.
  - vm_compute. reflexivity.
  - apply toyProof_sound.
  - split.
    + intros sig k Hs. simpl in Hs. apply lookup_singleton_Some in Hs as [<- <-].
      apply (bool_decide_unpack _). vm_compute. exact I.
    + intros i Hi. exists "bm", (MkPubKey "toy" "b"). split; [done|].
      change (i ∈ ({[1%nat]} : gset nat)) in Hi. by apply elem_of_singleton in Hi as ->.
Defined.
