(* ===== verification/VoteSummary.v ===== *)
(** Vote tallies: tm/tmconsensus/votesummary.go and the kernel's
    votedistribution.go, with the order independence of the tally and what its fields mean. *)
From S2P Require Import Prelude Types BitSets Powers SigProof SimpleProofs.

Record VoteSummary := MkVoteSummary {
  AvailablePower : Z;
  TotalPrevotePower : Z;
  TotalPrecommitPower : Z;
  PrevoteBlockPower : gomap Z;
  PrecommitBlockPower : gomap Z;
  MostVotedPrevoteHash : bytes;
  MostVotedPrecommitHash : bytes
}.

(** The Go zero value, with nil maps. *)
Definition VoteSummary_zero : VoteSummary := MkVoteSummary 0 0 0 None None nilHash nilHash.

Definition NewVoteSummary : VoteSummary :=
  {| VoteSummary_zero with PrevoteBlockPower := gm_make; PrecommitBlockPower := gm_make |}.

Definition SetAvailablePower (vals : list Validator) (vs : VoteSummary) : VoteSummary :=
  {| vs with AvailablePower := foldl (fun a v => u64 (a + v.(val_Power))) 0 vals |}.

Definition VoteSummary_ResetForSameHeight (vs : VoteSummary) : VoteSummary :=
  {| vs with TotalPrevotePower := 0; TotalPrecommitPower := 0;
             PrevoteBlockPower := gm_clear vs.(PrevoteBlockPower);
             PrecommitBlockPower := gm_clear vs.(PrecommitBlockPower);
             MostVotedPrevoteHash := nilHash; MostVotedPrecommitHash := nilHash |}.

Definition VoteSummary_Reset (vs : VoteSummary) : VoteSummary :=
  VoteSummary_ResetForSameHeight {| vs with AvailablePower := 0 |}.

(** The state of the tally loop. *)
Record Tally := MkTally { t_total : Z; t_block : gomap Z; t_maxPow : Z; t_maxHash : bytes }.

Section tally.
Context {P B : Type} `{BitSet B, !CMSP P B}.

(** The power one proof carries, read off its bit set. *)
Definition proofPower (vals : list Validator) (p : P) : Z := sumPower vals (cmsp_SignatureBitSet p).

(** One iteration of the range over the proofs. *)
Definition tallyStep (vals : list Validator) (t : Tally) (e : bytes * P) : outcome Tally :=
  let '(blockHash, proof) := e in
  let bits := loopBits (cmsp_SignatureBitSet proof) (length vals) in
  let total := foldl (addPower vals) t.(t_total) bits in
  let blockPow := foldl (addPower vals) 0 bits in
  block ← gm_set blockHash blockPow t.(t_block);
  Ret (if blockPow =? t.(t_maxPow) then
         MkTally total block t.(t_maxPow) (minBytes t.(t_maxHash) blockHash)
       else if t.(t_maxPow) <? blockPow then MkTally total block blockPow blockHash
       else MkTally total block t.(t_maxPow) t.(t_maxHash)).

Definition tally (vals : list Validator) (block : gomap Z) (entries : list (bytes * P)) :
  outcome Tally :=
  foldO (tallyStep vals) (MkTally 0 (gm_clear block) 0 nilHash) entries.

Definition SetPrevotePowers (vals : list Validator) (prevotes : gomap P) (vs : VoteSummary) :
  outcome VoteSummary :=
  t ← tally vals vs.(PrevoteBlockPower) (gm_entries prevotes);
  Ret {| vs with TotalPrevotePower := t.(t_total); PrevoteBlockPower := t.(t_block);
                 MostVotedPrevoteHash := t.(t_maxHash) |}.

Definition SetPrecommitPowers (vals : list Validator) (precommits : gomap P) (vs : VoteSummary) :
  outcome VoteSummary :=
  t ← tally vals vs.(PrecommitBlockPower) (gm_entries precommits);
  Ret {| vs with TotalPrecommitPower := t.(t_total); PrecommitBlockPower := t.(t_block);
                 MostVotedPrecommitHash := t.(t_maxHash) |}.

Definition SetVotePowers (vals : list Validator) (prevotes precommits : gomap P) (vs : VoteSummary) :
  outcome VoteSummary :=
  vs ← SetPrevotePowers vals prevotes vs;
  SetPrecommitPowers vals precommits vs.

(** ** votedistribution.go *)
Record voteDistribution := MkVoteDistribution {
  AvailableVotePower : Z;
  VotePowerPresent : Z;
  BlockVotePower : gmap bytes Z
}.

(** One set bit: [d.BlockVotePower[blockHash] += pow; d.VotePowerPresent += pow]. *)
Definition distBit (vals : list Validator) (blockHash : bytes) (d : voteDistribution) (i : nat) :
  voteDistribution :=
  let pow := default 0 (val_Power <$> (vals !! i)) in
  {| d with BlockVotePower :=
              <[blockHash := u64 (default 0 (d.(BlockVotePower) !! blockHash) + pow)]> d.(BlockVotePower);
            VotePowerPresent := u64 (d.(VotePowerPresent) + pow) |}.

Definition distStep (vals : list Validator) (d : voteDistribution) (e : bytes * P) : voteDistribution :=
  foldl (distBit vals e.1) d (loopBits (cmsp_SignatureBitSet e.2) (length vals)).

Definition newVoteDistribution (proofs : gomap P) (vals : list Validator) : voteDistribution :=
  let d := MkVoteDistribution (foldl (fun a v => u64 (a + v.(val_Power))) 0 vals) 0 ∅ in
  foldl (distStep vals) d (gm_entries proofs).
End tally.

Arguments voteDistribution : clear implicits.

(** * The order on hashes

    Go compares strings bytewise; [bytesLe] is that order. *)
Definition bytesLe (a b : bytes) : Prop := String.ltb b a = false.

Lemma compare_refl a : String.compare a a = Eq.
Proof. induction a as [|c a IH]; simpl; [done|]. unfold Ascii.compare. by rewrite N.compare_refl. Qed.

Lemma compare_lt_trans a b c :
  String.compare a b = Lt -> String.compare b c = Lt -> String.compare a c = Lt.
Proof.
  revert b c. induction a as [|x a IH]; intros [|y b] [|z c]; simpl; try done.
  unfold Ascii.compare.
  destruct (N.compare_spec (N_of_ascii x) (N_of_ascii y)) as [Exy|Exy|Exy]; try done;
    destruct (N.compare_spec (N_of_ascii y) (N_of_ascii z)) as [Eyz|Eyz|Eyz]; try done;
    destruct (N.compare_spec (N_of_ascii x) (N_of_ascii z)) as [Exz|Exz|Exz]; try done; try lia.
  apply IH.
Qed.

Lemma bytesLe_alt a b : bytesLe a b <-> String.compare a b = Lt \/ a = b.
Proof.
  unfold bytesLe, String.ltb. rewrite (String.compare_antisym b a).
  destruct (String.compare a b) eqn:E; simpl.
  - apply String.compare_eq_iff in E. naive_solver.
  - naive_solver.
  - split; [done|]. intros [?| ->]; [done|]. by rewrite compare_refl in E.
Qed.

Lemma bytesLe_ltb a b : String.ltb a b = true -> bytesLe a b.
Proof. rewrite bytesLe_alt. unfold String.ltb. destruct (String.compare a b); auto; discriminate. Qed.

#[export] Instance bytesLe_refl : Reflexive bytesLe.
Proof. intros a. apply bytesLe_alt. by right. Qed.

#[export] Instance bytesLe_trans : Transitive bytesLe.
Proof.
  intros a b c. rewrite !bytesLe_alt. intros [Hab| ->] [Hbc| ->]; auto.
  left. by eapply compare_lt_trans.
Qed.

#[export] Instance bytesLe_antisym : AntiSymm (=) bytesLe.
Proof.
  intros a b. rewrite !bytesLe_alt. intros [Hab| ->] [Hba|Hba]; auto.
  pose proof (compare_lt_trans _ _ _ Hab Hba) as H. by rewrite compare_refl in H.
Qed.

(** * The tally picks the strongest entry

    [beats] orders (power, hash) pairs: more power first, then the smaller hash. *)
Definition beats (a b : Z * bytes) : Prop := b.1 < a.1 \/ (b.1 = a.1 /\ bytesLe a.2 b.2).

Definition best (a b : Z * bytes) : Z * bytes :=
  if b.1 =? a.1 then (a.1, minBytes a.2 b.2) else if a.1 <? b.1 then b else a.

Lemma best_beats a b : beats (best a b) a /\ beats (best a b) b /\ (best a b = a \/ best a b = b).
Proof.
  destruct a as [p h], b as [q k]. unfold best, beats, minBytes; simpl.
  destruct (Z.eqb_spec q p) as [->|Hne]; simpl.
  - destruct (String.ltb k h) eqn:E; split_and!; try (right; split; [done|]); auto.
    + by apply bytesLe_ltb.
    + reflexivity.
    + reflexivity.
  - destruct (Z.ltb_spec p q); simpl; split_and!; auto; try lia; right; split; (done || reflexivity).
Qed.

Lemma beats_antisym a b : beats a b -> beats b a -> a = b.
Proof.
  destruct a as [p h], b as [q k]. unfold beats; simpl. intros [?|[-> ?]] [?|[? ?]]; try lia.
  f_equal. by apply (anti_symm bytesLe).
Qed.

Lemma beats_trans a b c : beats a b -> beats b c -> beats a c.
Proof.
  destruct a as [p h], b as [q k], c as [r l]. unfold beats; simpl.
  intros [?|[-> ?]] [?|[-> ?]]; [left; lia..|]. right. split; [done|]. by etransitivity.
Qed.

(** The fold of [best] is the unique pair that beats them all, so its order is irrelevant. *)
Lemma foldl_best l a :
  beats (foldl best a l) a /\ (forall b, b ∈ l -> beats (foldl best a l) b) /\
  (foldl best a l = a \/ foldl best a l ∈ l).
Proof.
  revert a. induction l as [|b l IH]; intros a; simpl.
  - split_and!; [right; split; [done|reflexivity]|set_solver|by left].
  - destruct (best_beats a b) as (Ha & Hb & Hor). destruct (IH (best a b)) as (H1 & H2 & H3).
    split_and!.
    + by eapply beats_trans.
    + intros c [->|Hc]%elem_of_cons; [by eapply beats_trans|by apply H2].
    + destruct H3 as [->|H3]; [|set_solver]. destruct Hor as [->| ->]; set_solver.
Qed.

Lemma foldl_best_perm l l' a : l ≡ₚ l' -> foldl best a l = foldl best a l'.
Proof.
  intros Hp. destruct (foldl_best l a) as (H1 & H2 & H3).
  destruct (foldl_best l' a) as (H1' & H2' & H3'). apply beats_antisym.
  - destruct H3' as [->|H3']; [done|]. apply H2. by rewrite Hp.
  - destruct H3 as [->|H3]; [done|]. apply H2'. by rewrite <- Hp.
Qed.

Lemma SetAvailablePower_spec vals vs :
  AvailablePower (SetAvailablePower vals vs) = u64 (totalPowerZ vals).
Proof.
  simpl. change 0 with (u64 0) at 1. rewrite <- (Z.add_0_l (totalPowerZ vals)).
  generalize 0. induction vals as [|v vals IH]; intros a; simpl; [by rewrite Z.add_0_r|].
  rewrite u64_add_l, IH. f_equal. lia.
Qed.

(** * What the tally computes *)

Section tally_facts.
Context {P B : Type} `{BitSetLaws B, !CMSP P B}.

(** The exact power a proof carries. *)
Definition proofPowerZ (vals : list Validator) (p : P) : Z :=
  powerIn vals (bs_elems (cmsp_SignatureBitSet p)) 0.

Definition sumPowers (vals : list Validator) (entries : list (bytes * P)) : Z :=
  foldr (fun e a => proofPowerZ vals e.2 + a) 0 entries.

Lemma addPower_total vals T (p : P) :
  foldl (addPower vals) (u64 T) (loopBits (cmsp_SignatureBitSet p) (length vals)) =
  u64 (T + proofPowerZ vals p).
Proof. rewrite foldl_addPower, loopBits_spec. do 2 f_equal. apply (sum_filter_powerIn vals []). Qed.

Definition entryPower (vals : list Validator) (e : bytes * P) : Z * bytes :=
  (proofPower vals e.2, e.1).

(** The loop in closed form: a wrapped sum, a map insertion per entry, and a [best] fold. *)
Lemma tallyStep_closed vals T g a e :
  tallyStep vals (MkTally (u64 T) (Some g) a.1 a.2) e =
  Ret (MkTally (u64 (T + proofPowerZ vals e.2)) (Some (<[e.1 := proofPower vals e.2]> g))
         (best a (entryPower vals e)).1 (best a (entryPower vals e)).2).
Proof.
  destruct e as [h p], a as [mp mh]. unfold tallyStep. cbn [t_total t_block t_maxPow t_maxHash fst snd]. rewrite addPower_total.
  change (foldl (addPower vals) 0 _) with (proofPower vals p).
  unfold best, entryPower; simpl.
  destruct (proofPower vals p =? mp); [done|]. by destruct (mp <? proofPower vals p).
Qed.

Lemma tally_closed vals T g a entries :
  foldO (tallyStep vals) (MkTally (u64 T) (Some g) a.1 a.2) entries =
  Ret (MkTally (u64 (T + sumPowers vals entries))
         (Some (foldl (fun m e => <[e.1 := proofPower vals e.2]> m) g entries))
         (foldl best a (map (entryPower vals) entries)).1
         (foldl best a (map (entryPower vals) entries)).2).
Proof.
  revert T g a. induction entries as [|e l IH]; intros T g a; cbn [foldO foldl map sumPowers foldr].
  - by rewrite Z.add_0_r.
  - rewrite tallyStep_closed. cbn [mbind outcome_bind]. rewrite IH. unfold sumPowers.
    do 3 f_equal. lia.
Qed.

Definition tallyMost vals (entries : list (bytes * P)) : Z * bytes :=
  foldl best (0, nilHash) (map (entryPower vals) entries).

Lemma tally_ret vals g entries :
  tally vals (Some g) entries =
  Ret (MkTally (u64 (sumPowers vals entries))
         (Some (foldl (fun m e => <[e.1 := proofPower vals e.2]> m) ∅ entries))
         (tallyMost vals entries).1 (tallyMost vals entries).2).
Proof. apply (tally_closed vals 0 ∅ (0, nilHash)). Qed.

Lemma sumPowers_perm vals l l' : l ≡ₚ l' -> sumPowers vals l = sumPowers vals l'.
Proof. induction 1; simpl; lia. Qed.

Lemma tallyMap_lookup vals (g : gmap bytes Z) (l : list (bytes * P)) k :
  NoDup l.*1 ->
  foldl (fun m e => <[e.1 := proofPower vals e.2]> m) g l !! k =
  match (list_to_map l : gmap bytes P) !! k with
  | Some p => Some (proofPower vals p)
  | None => g !! k
  end.
Proof.
  revert g. induction l as [|[h p] l IH]; intros g Hnd; simpl; [done|].
  apply NoDup_cons in Hnd as [Hh Hnd]. rewrite IH by done.
  destruct (decide (h = k)) as [->|Hne].
  - rewrite not_elem_of_list_to_map_1 by done. by rewrite !lookup_insert_eq.
  - by rewrite !lookup_insert_ne by done.
Qed.

(** The tally of a Go map: its result does not depend on the iteration order. *)
Lemma tally_perm vals block l l' :
  NoDup l.*1 -> l ≡ₚ l' -> tally vals block l = tally vals block l'.
Proof.
  intros Hnd Hp. destruct block as [g|].
  - rewrite !tally_ret. do 2 f_equal.
    + by apply f_equal, sumPowers_perm.
    + f_equal. apply map_eq. intros k. rewrite !tallyMap_lookup by (try rewrite <- Hp; done).
      by rewrite (list_to_map_proper l l' Hnd Hp).
    + unfold tallyMost. by rewrite (foldl_best_perm _ _ _ (Permutation_map _ Hp)).
    + unfold tallyMost. by rewrite (foldl_best_perm _ _ _ (Permutation_map _ Hp)).
  - unfold tally. destruct l as [|[h p] l], l' as [|[h' p'] l'];
      [done|by apply Permutation_nil_cons in Hp| |done].
    symmetry in Hp. by apply Permutation_nil_cons in Hp.
Qed.

(** ** The meaning of the summary fields *)

(** [tallied vals proofs total block most]: the three fields of a summary that describe one
    kind of vote agree with the proofs. *)
Record tallied (vals : list Validator) (proofs : gomap P) (total : Z) (block : gomap Z) (most : bytes) :
  Prop := {
  td_total : total = u64 (sumPowers vals (gm_entries proofs));
  td_block : block = Some (proofPower vals <$> gm_map proofs);
  td_most_power : forall h p, gm_get proofs h = Some p ->
    proofPower vals p <= gm_getz 0 block most;
  td_most_tie : forall h p, gm_get proofs h = Some p ->
    proofPower vals p = gm_getz 0 block most -> bytesLe most h;
  td_most_in : most = nilHash \/ is_Some (gm_get proofs most)
}.

Lemma tallyMap_fmap vals (proofs : gomap P) :
  foldl (fun m e => <[e.1 := proofPower vals e.2]> m) ∅ (gm_entries proofs) =
  proofPower vals <$> gm_map proofs.
Proof.
  apply map_eq. intros k. rewrite tallyMap_lookup by apply gm_entries_NoDup.
  unfold gm_entries. rewrite list_to_map_to_list, lookup_fmap.
  by destruct (gm_map proofs !! k).
Qed.

Lemma nilHash_least h : bytesLe nilHash h.
Proof. unfold bytesLe, String.ltb. by destruct h. Qed.

Lemma tallyMost_spec vals (proofs : gomap P) :
  let m := tallyMost vals (gm_entries proofs) in
  m.1 = gm_getz 0 (Some (proofPower vals <$> gm_map proofs)) m.2 /\
  (forall h p, gm_get proofs h = Some p -> beats m (proofPower vals p, h)) /\
  (m.2 = nilHash \/ is_Some (gm_get proofs m.2)).
Proof.
  intros m. unfold tallyMost in m.
  destruct (foldl_best (map (entryPower vals) (gm_entries proofs)) (0, nilHash)) as (H1 & H2 & H3).
  fold m in H1, H2, H3. assert (Hin : forall h p, gm_get proofs h = Some p ->
    (proofPower vals p, h) ∈ map (entryPower vals) (gm_entries proofs)).
  { intros h p Hp. apply list_elem_of_fmap. exists (h, p). split; [done|]. by apply gm_entries_get. }
  assert (Hbeats : forall h p, gm_get proofs h = Some p -> beats m (proofPower vals p, h)).
  { intros h p Hp. by apply H2, Hin. }
  assert (Hget : forall h, gm_getz 0 (Some (proofPower vals <$> gm_map proofs)) h =
            default 0 (proofPower vals <$> gm_get proofs h)).
  { intros h. unfold gm_getz, gm_get at 1. simpl. by rewrite lookup_fmap. }
  split_and!; [|done|].
  - rewrite Hget. destruct H3 as [E|E].
    + rewrite E in *; simpl. destruct (gm_get proofs nilHash) as [p|] eqn:Ep; simpl; [|done].
      apply Hbeats in Ep. unfold beats in Ep; simpl in Ep.
      destruct Ep as [Hlt|[Heq _]]; [|done].
      pose proof (u64_range (powerIn vals (bs_elems (cmsp_SignatureBitSet p)) 0)) as Hr.
      unfold proofPower in Hlt. rewrite sumPower_u64 in Hlt. unfold is_u64 in Hr. lia.
    + apply list_elem_of_fmap in E as ([h p] & -> & Hp). apply gm_entries_get in Hp.
      simpl. by rewrite Hp.
  - destruct H3 as [E|E]; [left; by rewrite E|right].
    apply list_elem_of_fmap in E as ([h p] & -> & Hp). apply gm_entries_get in Hp. by eexists.
Qed.

Lemma tally_tallied vals g (proofs : gomap P) t :
  tally vals (Some g) (gm_entries proofs) = Ret t ->
  tallied vals proofs t.(t_total) t.(t_block) t.(t_maxHash).
Proof.
  rewrite tally_ret, tallyMap_fmap. intros [= <-]; simpl.
  destruct (tallyMost_spec vals proofs) as (Hm & Hb & Hin).
  split; [done|done| | |exact Hin]; rewrite <- Hm; intros h p Hp; apply Hb in Hp;
    unfold beats in Hp; simpl in Hp.
  - destruct Hp as [?|[? ?]]; lia.
  - intros Heq. destruct Hp as [?|[? ?]]; [lia|done].
Qed.
End tally_facts.

(** * Properties *)

Section one_vote_each.
Context {P B : Type} `{BitSetLaws B, !CMSP P B}.

Definition unionBits (entries : list (bytes * P)) : gset nat :=
  foldr (fun e S => bs_elems (cmsp_SignatureBitSet e.2) ∪ S) ∅ entries.

(** No validator appears in two of the proofs. *)
Fixpoint disjointBits (entries : list (bytes * P)) : Prop :=
  match entries with
  | [] => True
  | e :: l => bs_elems (cmsp_SignatureBitSet e.2) ∩ unionBits l = ∅ /\ disjointBits l
  end.

Lemma sumPowers_disjoint vals entries :
  disjointBits entries -> sumPowers vals entries = powerIn vals (unionBits entries) 0.
Proof.
  induction entries as [|e l IH]; simpl; [by rewrite powerIn_empty|].
  intros [Hd Hl]. fold (sumPowers vals l). rewrite (IH Hl). unfold proofPowerZ.
  rewrite powerIn_union_inter, Hd, powerIn_empty. lia.
Qed.
End one_vote_each.

(** The vote tally does not depend on the order in which Go happens to iterate the map of proofs:
    the wrapped total, the power per block and the most voted hash (with its tie break) are the same
    for every order of the map's entries. *)
Theorem tally_order_irrelevant {P B : Type} `{BitSetLaws B, !CMSP P B}
  (vals : list Validator) (block : gomap Z) (proofs : gomap P) (l : list (bytes * P)) :
  l ≡ₚ gm_entries proofs -> tally vals block l = tally vals block (gm_entries proofs).
Proof.
  intros Hp. symmetry. apply tally_perm; [apply gm_entries_NoDup|by symmetry].
Qed.

(** Concrete instances use the simple proof over finite sets and the toy verification relation. *)
#[local] Existing Instance toyVerify.

Definition exampleProof (bits : gset nat) : SimpleProof (gset nat) := MkSimple "m" ∅ [] ∅ "h" bits.
Definition exampleVotes : gomap (SimpleProof (gset nat)) :=
  Some {["x" := exampleProof {[0%nat; 1%nat]}; "y" := exampleProof {[2%nat; 3%nat]}]}.

Lemma tally_order_irrelevant_witness :
  tally exampleVals gm_make (reverse (gm_entries exampleVotes)) =
  tally exampleVals gm_make (gm_entries exampleVotes).
Proof.
  apply tally_order_irrelevant. apply reverse_Permutation.
Defined.

(** SetVotePowers on a summary with usable maps always returns, and afterwards each half of the
    summary describes its proofs: the total is the sum over blocks (modulo 2^64), every block has the
    power of its proof, the most voted hash has the maximal power and is the smallest such hash (so a
    tie with nil goes to nil), and AvailablePower is untouched. *)
Theorem SetVotePowers_tallied {P B : Type} `{BitSetLaws B, !CMSP P B}
  (vals : list Validator) (prevotes precommits : gomap P) (vs : VoteSummary) :
  vs.(PrevoteBlockPower) <> None -> vs.(PrecommitBlockPower) <> None ->
  exists vs', SetVotePowers vals prevotes precommits vs = Ret vs' /\
    tallied vals prevotes vs'.(TotalPrevotePower) vs'.(PrevoteBlockPower) vs'.(MostVotedPrevoteHash) /\
    tallied vals precommits vs'.(TotalPrecommitPower) vs'.(PrecommitBlockPower) vs'.(MostVotedPrecommitHash) /\
    vs'.(AvailablePower) = vs.(AvailablePower).
Proof.
  destruct vs as [a tp tc [bp|] [bc|] mp mc]; simpl; try done. intros _ _.
  unfold SetVotePowers, SetPrevotePowers, SetPrecommitPowers. cbn [PrevoteBlockPower].
  destruct (tally vals (Some bp) (gm_entries prevotes)) as [t|] eqn:Et; [|by rewrite tally_ret in Et].
  cbn [mbind outcome_bind PrecommitBlockPower].
  destruct (tally vals (Some bc) (gm_entries precommits)) as [u|] eqn:Eu; [|by rewrite tally_ret in Eu].
  cbn [mbind outcome_bind]. eexists. split; [reflexivity|]. simpl.
  split_and!; [by eapply tally_tallied|by eapply tally_tallied|done].
Qed.

Lemma SetVotePowers_tallied_witness :
  exists vs', SetVotePowers exampleVals exampleVotes exampleVotes NewVoteSummary = Ret vs' /\
    tallied exampleVals exampleVotes vs'.(TotalPrevotePower) vs'.(PrevoteBlockPower)
      vs'.(MostVotedPrevoteHash) /\
    tallied exampleVals exampleVotes vs'.(TotalPrecommitPower) vs'.(PrecommitBlockPower)
      vs'.(MostVotedPrecommitHash) /\
    vs'.(AvailablePower) = 0.
Proof.
  apply (SetVotePowers_tallied exampleVals exampleVotes exampleVotes NewVoteSummary);
    discriminate.
Defined.

(** When no validator signed for two different hashes, the tally's total is exactly the power of
    the validators that voted and never exceeds the available power; the condition is needed, because
    the total counts a validator once per hash it signed for. *)
Theorem tally_total_distinct_voters {P B : Type} `{BitSetLaws B, !CMSP P B}
  (vals : list Validator) (g : gmap bytes Z) (proofs : gomap P) :
  powers_ok vals -> disjointBits (gm_entries proofs) ->
  exists t, tally vals (Some g) (gm_entries proofs) = Ret t /\
    t.(t_total) = powerIn vals (unionBits (gm_entries proofs)) 0 /\
    t.(t_total) <= AvailablePower (SetAvailablePower vals NewVoteSummary).
Proof.
  intros Hok Hd. rewrite tally_ret. eexists. split; [reflexivity|].
  rewrite SetAvailablePower_spec. cbn [t_total]. rewrite sumPowers_disjoint by done.
  pose proof (powers_ok_nonneg _ Hok) as Hn.
  pose proof (powerIn_nonneg vals (unionBits (gm_entries proofs)) 0 Hn).
  pose proof (powerIn_le_total vals (unionBits (gm_entries proofs)) 0 Hn).
  destruct Hok as [_ Hlt]. rewrite !u64_small by (unfold is_u64; lia). done.
Qed.

Lemma tally_total_distinct_voters_witness :
  exists t, tally exampleVals (Some ∅) (gm_entries exampleVotes) = Ret t /\
    t.(t_total) = powerIn exampleVals (unionBits (gm_entries exampleVotes)) 0 /\
    t.(t_total) <= AvailablePower (SetAvailablePower exampleVals NewVoteSummary).
Proof.
  apply (tally_total_distinct_voters exampleVals ∅ exampleVotes).
  - split; [repeat constructor; vm_compute; discriminate | vm_compute; reflexivity].
  - cbn. split; [|split; [|done]]; apply (bool_decide_unpack _); vm_compute; exact I.
Defined.
