(* ===== verification/RoundView.v ===== *)
(** Round views and sparse vote collections of tm/tmconsensus
    (roundview.go, header.go, prevote.go, precommit.go, sparsesignaturecollection.go). *)
From S2P Require Import Prelude Types BitSets Powers SigProof SimpleProofs VoteSummary.

(** * roundview.go *)

Record RoundView (P : Type) := MkRoundView {
  rv_Height : Z;
  rv_Round : Z;
  rv_ValidatorSet : ValidatorSet;
  rv_PrevCommitProof : CommitProof;
  rv_ProposedHeaders : list ProposedHeader;
  rv_PrevoteProofs : gomap P;
  rv_PrecommitProofs : gomap P;
  rv_VoteSummary : VoteSummary
}.
Arguments MkRoundView {P}.
Arguments rv_Height {P}.
Arguments rv_Round {P}.
Arguments rv_ValidatorSet {P}.
Arguments rv_PrevCommitProof {P}.
Arguments rv_ProposedHeaders {P}.
Arguments rv_PrevoteProofs {P}.
Arguments rv_PrecommitProofs {P}.
Arguments rv_VoteSummary {P}.

(** VersionedRoundView embeds a RoundView; a nil block version map is replaced on first use by the
    code that writes it. *)
Record VersionedRoundView (P : Type) := MkVRV {
  vrv_RV : RoundView P;
  Version : Z;
  PrevoteVersion : Z;
  PrecommitVersion : Z;
  PrevoteBlockVersions : gomap Z;
  PrecommitBlockVersions : gomap Z
}.
Arguments MkVRV {P}.
Arguments vrv_RV {P}.
Arguments Version {P}.
Arguments PrevoteVersion {P}.
Arguments PrecommitVersion {P}.
Arguments PrevoteBlockVersions {P}.
Arguments PrecommitBlockVersions {P}.

Section views.
Context {P : Type}.
Implicit Types (v : VersionedRoundView P) (rv : RoundView P).

Definition RoundView_zero : RoundView P :=
  MkRoundView 0 0 ValidatorSet_zero CommitProof_zero [] None None VoteSummary_zero.
Definition VRV_zero : VersionedRoundView P := MkVRV RoundView_zero 0 0 0 None None.

(** Promoted fields of the embedded view. *)
Definition vHeight v : Z := v.(vrv_RV).(rv_Height).
Definition vRound v : Z := v.(vrv_RV).(rv_Round).
Definition vVals v : list Validator := v.(vrv_RV).(rv_ValidatorSet).(Validators).
Definition vSummary v : VoteSummary := v.(vrv_RV).(rv_VoteSummary).
Definition vPrevotes v : gomap P := v.(vrv_RV).(rv_PrevoteProofs).
Definition vPrecommits v : gomap P := v.(vrv_RV).(rv_PrecommitProofs).
Definition vPHs v : list ProposedHeader := v.(vrv_RV).(rv_ProposedHeaders).
Definition vPCP v : CommitProof := v.(vrv_RV).(rv_PrevCommitProof).

(** Assignment through the embedded view. *)
Definition vrv_upd (f : RoundView P -> RoundView P) v : VersionedRoundView P :=
  {| v with vrv_RV := f v.(vrv_RV) |}.

(** CommitProof.Clone makes a fresh, non-nil map. *)
Definition CommitProof_Clone (p : CommitProof) : CommitProof :=
  {| p with cp_Proofs := Some (gm_map p.(cp_Proofs)) |}.

(** The clone of a proof map is nil when there is nothing to clone. *)
Definition cloneProofMap (m : gomap P) : gomap P :=
  if bool_decide (0 < gm_len m)%nat then Some (gm_map m) else None.

(** maps.Clone keeps nil maps nil, so VoteSummary.Clone is the identity on values. *)
Definition RoundView_Clone rv : RoundView P :=
  {| rv with rv_PrevCommitProof := CommitProof_Clone rv.(rv_PrevCommitProof);
             rv_PrevoteProofs := cloneProofMap rv.(rv_PrevoteProofs);
             rv_PrecommitProofs := cloneProofMap rv.(rv_PrecommitProofs) |}.

Definition RoundView_ResetForSameHeight rv : RoundView P :=
  {| rv with rv_Round := 0; rv_ProposedHeaders := [];
             rv_PrevoteProofs := gm_clear rv.(rv_PrevoteProofs);
             rv_PrecommitProofs := gm_clear rv.(rv_PrecommitProofs);
             rv_VoteSummary := VoteSummary_ResetForSameHeight rv.(rv_VoteSummary) |}.

Definition RoundView_Reset rv : RoundView P :=
  let rv1 := {| rv with rv_Height := 0;
                        rv_PrevCommitProof := MkCommitProof 0 nilHash
                                                (gm_clear rv.(rv_PrevCommitProof).(cp_Proofs));
                        rv_ValidatorSet := ValidatorSet_zero |} in
  let rv2 := RoundView_ResetForSameHeight rv1 in
  {| rv2 with rv_VoteSummary := VoteSummary_Reset rv2.(rv_VoteSummary) |}.

Definition VRV_Clone v : VersionedRoundView P := vrv_upd RoundView_Clone v.

Definition resetVersions v : VersionedRoundView P :=
  {| v with Version := 0; PrevoteVersion := 0; PrecommitVersion := 0;
            PrevoteBlockVersions := gm_clear v.(PrevoteBlockVersions);
            PrecommitBlockVersions := gm_clear v.(PrecommitBlockVersions) |}.

Definition VRV_Reset v : VersionedRoundView P := resetVersions (vrv_upd RoundView_Reset v).

Definition VRV_ResetForSameHeight v : VersionedRoundView P :=
  resetVersions (vrv_upd RoundView_ResetForSameHeight v).
End views.

(** * prevote.go and precommit.go *)

Record PrevoteSparseProof := MkPrevoteSparse {
  pvs_Height : Z;
  pvs_Round : Z;
  pvs_PubKeyHash : bytes;
  pvs_Proofs : gomap (list SparseSignature)
}.

Record PrecommitSparseProof := MkPrecommitSparse {
  pcs_Height : Z;
  pcs_Round : Z;
  pcs_PubKeyHash : bytes;
  pcs_Proofs : gomap (list SparseSignature)
}.

Record PrevoteProof (P : Type) := MkPrevoteProof {
  pv_Height : Z; pv_Round : Z; pv_Proofs : gomap P
}.
Arguments MkPrevoteProof {P}.
Arguments pv_Height {P}.
Arguments pv_Round {P}.
Arguments pv_Proofs {P}.

Record PrecommitProof (P : Type) := MkPrecommitProof {
  pc_Height : Z; pc_Round : Z; pc_Proofs : gomap P
}.
Arguments MkPrecommitProof {P}.
Arguments pc_Height {P}.
Arguments pc_Round {P}.
Arguments pc_Proofs {P}.

Section sparse.
Context {P B : Type} `{BitSet B, !CMSP P B, !CMSPScheme P}.

(** The body shared by the four conversions to a sparse proof: the key hash of an arbitrary (here
    the first) entry, which every other entry must have. *)
Fixpoint sparseEntries (hash : bytes) (m : gmap bytes (list SparseSignature)) (l : list (bytes * P)) :
  gmap bytes (list SparseSignature) * option error :=
  match l with
  | [] => (m, None)
  | (blockHash, proof) :: l =>
      if String.eqb (cmsp_PubKeyHash proof) hash
      then sparseEntries hash (<[blockHash := (cmsp_AsSparse proof).(ssp_Signatures)]> m) l
      else (m, Some (ErrOther "public key hash mismatch"))
  end.

Definition firstPubKeyHash (l : list (bytes * P)) : bytes :=
  match l with [] => nilHash | (_, proof) :: _ => cmsp_PubKeyHash proof end.

(** PrevoteProof.AsSparse: on a mismatch the partially filled value is returned with the error. *)
Definition PrevoteProof_AsSparse (p : PrevoteProof P) : PrevoteSparseProof * option error :=
  let l := gm_entries p.(pv_Proofs) in
  let hash := firstPubKeyHash l in
  let '(m, err) := sparseEntries hash ∅ l in
  (MkPrevoteSparse p.(pv_Height) p.(pv_Round) hash (Some m), err).

Definition PrecommitProof_AsSparse (p : PrecommitProof P) : PrecommitSparseProof * option error :=
  let l := gm_entries p.(pc_Proofs) in
  let hash := firstPubKeyHash l in
  let '(m, err) := sparseEntries hash ∅ l in
  (MkPrecommitSparse p.(pc_Height) p.(pc_Round) hash (Some m), err).

(** PrevoteSparseProofFromFullProof: compares the hash of each sparse proof instead, and discards
    the partial value on a mismatch. *)
Fixpoint sparseFromFull (hash : bytes) (m : gmap bytes (list SparseSignature)) (l : list (bytes * P)) :
  result (gmap bytes (list SparseSignature)) :=
  match l with
  | [] => Ok m
  | (blockHash, proof) :: l =>
      let s := cmsp_AsSparse proof in
      if String.eqb s.(ssp_PubKeyHash) hash
      then sparseFromFull hash (<[blockHash := s.(ssp_Signatures)]> m) l
      else Err (ErrOther "public key hash mismatch")
  end.

Definition PrevoteSparseProofFromFullProof (height round : Z) (fullProof : gomap P) :
  result PrevoteSparseProof :=
  let l := gm_entries fullProof in
  let hash := firstPubKeyHash l in
  match sparseFromFull hash ∅ l with
  | Ok m => Ok (MkPrevoteSparse height round hash (Some m))
  | Err e => Err e
  end.

Definition PrecommitSparseProofFromFullProof (height round : Z) (fullProof : gomap P) :
  result PrecommitSparseProof :=
  let l := gm_entries fullProof in
  let hash := firstPubKeyHash l in
  match sparseFromFull hash ∅ l with
  | Ok m => Ok (MkPrecommitSparse height round hash (Some m))
  | Err e => Err e
  end.

(** One iteration of ToFull; [signBytes] is PrevoteSignBytes or PrecommitSignBytes. The merge
    result is discarded, as in the code. *)
Definition toFullStep (signBytes : VoteTarget -> result bytes) (msgErr : string)
  (h r : Z) (pubKeyHash : bytes) (keys : list PubKey) (keyHash : bytes)
  (acc : result (gmap bytes P)) (e : bytes * list SparseSignature) : outcome (result (gmap bytes P)) :=
  match acc with
  | Err e => Ret (Err e)
  | Ok m =>
      match signBytes (MkVoteTarget h r e.1) with
      | Err e => Ret (Err (ErrWrap msgErr e))
      | Ok msg =>
          match scheme_New msg keys keyHash with
          | Err e => Ret (Err (ErrWrap "failed to build signature proof" e))
          | Ok p =>
              pr ← cmsp_MergeSparse (MkSparseSignatureProof pubKeyHash e.2) p;
              Ret (Ok (<[e.1 := pr.1]> m))
          end
      end
  end.

Definition PrevoteSparseProof_ToFull (p : PrevoteSparseProof) (sigScheme : SignatureScheme)
  (hashScheme : HashScheme) (trustedVals : list Validator) : outcome (result (PrevoteProof P)) :=
  let valPubKeys := ValidatorsToPubKeys trustedVals in
  match hs_PubKeys hashScheme valPubKeys with
  | Err e => Ret (Err (ErrWrap "failed to build validator pub key hash" e))
  | Ok kh =>
      m ← foldO (toFullStep (fun vt => PrevoteSignBytes vt sigScheme)
                   "failed to build prevote sign bytes" p.(pvs_Height) p.(pvs_Round)
                   p.(pvs_PubKeyHash) valPubKeys kh)
            (Ok ∅) (gm_entries p.(pvs_Proofs));
      Ret match m with
          | Ok m => Ok (MkPrevoteProof p.(pvs_Height) p.(pvs_Round) (Some m))
          | Err e => Err e
          end
  end.

Definition PrecommitSparseProof_ToFull (p : PrecommitSparseProof) (sigScheme : SignatureScheme)
  (hashScheme : HashScheme) (trustedVals : list Validator) : outcome (result (PrecommitProof P)) :=
  let valPubKeys := ValidatorsToPubKeys trustedVals in
  match hs_PubKeys hashScheme valPubKeys with
  | Err e => Ret (Err (ErrWrap "failed to build validator pub key hash" e))
  | Ok kh =>
      m ← foldO (toFullStep (fun vt => PrecommitSignBytes vt sigScheme)
                   "failed to build precommit sign bytes" p.(pcs_Height) p.(pcs_Round)
                   p.(pcs_PubKeyHash) valPubKeys kh)
            (Ok ∅) (gm_entries p.(pcs_Proofs));
      Ret match m with
          | Ok m => Ok (MkPrecommitProof p.(pcs_Height) p.(pcs_Round) (Some m))
          | Err e => Err e
          end
  end.

(** * sparsesignaturecollection.go *)

(** One iteration of toFullProofMap. *)
Definition fullMapStep (signBytes : VoteTarget -> result bytes) (h r : Z) (vs : ValidatorSet)
  (acc : result (gmap bytes P)) (e : bytes * list SparseSignature) : outcome (result (gmap bytes P)) :=
  match acc with
  | Err e => Ret (Err e)
  | Ok m =>
      match signBytes (MkVoteTarget h r e.1) with
      | Err er => Ret (Err (ErrWrap "failed to build sign bytes for block hash" er))
      | Ok content =>
          match scheme_New content (ValidatorsToPubKeys vs.(Validators)) vs.(PubKeyHash) with
          | Err er => Ret (Err (ErrWrap "failed to get initial proof" er))
          | Ok p =>
              if bool_decide (e.2 = []) then Panic "BUG: saw len(sparseSigs) == 0"
              else
                pr ← cmsp_MergeSparse (MkSparseSignatureProof vs.(PubKeyHash) e.2) p;
                if negb pr.2.(AllValidSignatures) || negb pr.2.(IncreasedSignatures)
                then Panic "BUG: invalid result after merging signatures"
                else Ret (Ok (<[e.1 := pr.1]> m))
          end
      end
  end.

Definition toFullProofMap (signBytes : VoteTarget -> result bytes) (h r : Z) (vs : ValidatorSet)
  (c : SparseSignatureCollection) : outcome (result (gomap P)) :=
  m ← foldO (fullMapStep signBytes h r vs) (Ok ∅) (gm_entries c.(BlockSignatures));
  Ret match m with Ok m => Ok (Some m) | Err e => Err e end.

Definition ToFullPrevoteProofMap (h r : Z) (vs : ValidatorSet) (sigScheme : SignatureScheme)
  (c : SparseSignatureCollection) : outcome (result (gomap P)) :=
  m ← toFullProofMap (fun vt => PrevoteSignBytes vt sigScheme) h r vs c;
  Ret match m with
      | Ok m => Ok m
      | Err e => Err (ErrWrap "failed to build prevote proof map" e)
      end.

Definition ToFullPrecommitProofMap (h r : Z) (vs : ValidatorSet) (sigScheme : SignatureScheme)
  (c : SparseSignatureCollection) : outcome (result (gomap P)) :=
  m ← toFullProofMap (fun vt => PrecommitSignBytes vt sigScheme) h r vs c;
  Ret match m with
      | Ok m => Ok m
      | Err e => Err (ErrWrap "failed to build precommit proof map" e)
      end.

(** ** The kernel's inverse, mapToSparseSignatureCollection *)
Definition sparseCollStep (acc : SparseSignatureCollection * bool) (e : bytes * P) :
  outcome (SparseSignatureCollection * bool) :=
  let '(out, isFirst) := acc in
  let '(hash, proof) := e in
  let add (o : SparseSignatureCollection) :=
    {| o with BlockSignatures :=
         Some (<[hash := default [] (gm_get o.(BlockSignatures) hash) ++
                         (cmsp_AsSparse proof).(ssp_Signatures)]> (gm_map o.(BlockSignatures))) |} in
  if (isFirst : bool) then Ret (add {| out with ssc_PubKeyHash := cmsp_PubKeyHash proof |}, false)
  else if String.eqb out.(ssc_PubKeyHash) (cmsp_PubKeyHash proof) then Ret (add out, false)
  else Panic "public key hash mismatch in signature proofs".

Definition mapToSparseSignatureCollection (proofs : gomap P) : outcome SparseSignatureCollection :=
  r ← foldO sparseCollStep (MkSSC nilHash gm_make, true) (gm_entries proofs);
  Ret r.1.
End sparse.

(** * Storing and reloading votes

    The kernel stores a map of full proofs as a sparse collection and rebuilds the full proofs from
    it at startup. *)
Section store_roundtrip.
Context {P B : Type} `{BitSet B, !CMSP P B}.

(** All proofs of a map name the same key set. *)
Definition sameKeyHash (hash : bytes) (m : gmap bytes P) : Prop :=
  forall h p, m !! h = Some p -> cmsp_PubKeyHash p = hash.

Definition sparseSigs (p : P) : list SparseSignature := (cmsp_AsSparse p).(ssp_Signatures).

Lemma sparseColl_fold hash l (g : gmap bytes (list SparseSignature)) :
  Forall (fun e => cmsp_PubKeyHash e.2 = hash /\ g !! e.1 = None) l -> NoDup l.*1 ->
  foldO sparseCollStep (MkSSC hash (Some g), false) l =
  Ret (MkSSC hash (Some (foldl (fun m e => <[e.1 := sparseSigs e.2]> m) g l)), false).
Proof.
  revert g. induction l as [|[h p] l IH]; intros g Hall Hnd; [done|].
  apply Forall_cons in Hall as [[Hp Hg] Hl]. apply NoDup_cons in Hnd as [Hh Hnd].
  cbn [foldO sparseCollStep ssc_PubKeyHash]. simpl in Hp. rewrite Hp, String.eqb_refl.
  cbn [mbind outcome_bind]. unfold gm_get, gm_map. simpl in Hg |- *. rewrite Hg. simpl.
  apply IH; [|done]. apply Forall_forall. intros [h' p'] Hin.
  rewrite Forall_forall in Hl. destruct (Hl _ Hin) as [? ?]. split; [done|]. simpl in *.
  rewrite lookup_insert_ne; [done|]. intros <-. apply Hh. apply list_elem_of_fmap. by exists (h, p').
Qed.

Lemma foldl_insert_fmap {A C} (f : A -> C) (m : gmap bytes A) :
  foldl (fun g e => <[e.1 := f e.2]> g) ∅ (map_to_list m) = f <$> m.
Proof.
  apply map_eq. intros k. rewrite lookup_fmap. rewrite <- (list_to_map_to_list m) at 2.
  pose proof (NoDup_fst_map_to_list m) as Hnd. revert Hnd. generalize (map_to_list m) as l.
  intros l. cut (forall g : gmap bytes C, NoDup l.*1 ->
    foldl (fun g e => <[e.1 := f e.2]> g) g l !! k =
    match (list_to_map l : gmap bytes A) !! k with Some a => Some (f a) | None => g !! k end).
  { intros Hg Hnd. rewrite Hg by done. by destruct ((list_to_map l : gmap bytes A) !! k). }
  induction l as [|[h a] l IH]; intros g Hnd; simpl; [done|].
  apply NoDup_cons in Hnd as [Hh Hnd]. rewrite IH by done.
  destruct (decide (h = k)) as [->|Hne].
  - rewrite not_elem_of_list_to_map_1 by done. by rewrite !lookup_insert_eq.
  - by rewrite !lookup_insert_ne by done.
Qed.

(** The stored collection of a map with one key hash: the sparse signatures of every proof. *)
Lemma mapToSparse_spec hash (m : gmap bytes P) : sameKeyHash hash m ->
  exists h', mapToSparseSignatureCollection (Some m) = Ret (MkSSC h' (Some (sparseSigs <$> m))) /\
    (m <> ∅ -> h' = hash).
Proof.
  intros Hm. unfold mapToSparseSignatureCollection, gm_entries; simpl.
  pose proof (NoDup_fst_map_to_list m) as Hnd. rewrite <- foldl_insert_fmap.
  assert (Hall : Forall (fun e => cmsp_PubKeyHash e.2 = hash) (map_to_list m)).
  { apply Forall_forall. intros [h p] Hin. apply elem_of_map_to_list in Hin. by apply (Hm h). }
  destruct (map_to_list m) as [|[h p] l] eqn:E; simpl.
  { exists nilHash. split; [done|]. intros Hne. by apply map_to_list_empty_iff in E. }
  apply Forall_cons in Hall as [Hp Hl]. apply NoDup_cons in Hnd as [Hh Hnd]. simpl in Hp, Hh.
  unfold gm_get, gm_map. simpl. rewrite Hp, (sparseColl_fold hash); [|..|done].
  - by exists hash.
  - apply Forall_forall. intros [h' p'] Hin. rewrite Forall_forall in Hl. split; [by apply Hl|].
    simpl. rewrite lookup_insert_ne; [done|]. intros <-. apply Hh. apply list_elem_of_fmap.
    by exists (h, p').
Qed.
End store_roundtrip.

Section reload.
Context {B : Type} `{BitSetLaws B, Verifier}.
Context (signBytes : VoteTarget -> result bytes) (h r : Z) (vs : ValidatorSet).
Local Abbreviation keys := (ValidatorsToPubKeys vs.(Validators)).

(** What the engine keeps per block hash: a sound, recorded, non-empty proof over the sign bytes of
    the hash. *)
Record reloadable (hash : bytes) (p : SimpleProof B) : Prop := {
  rl_msg : signBytes (MkVoteTarget h r hash) = Ok p.(sp_msg);
  rl_hash : p.(sp_keyHash) = vs.(PubKeyHash);
  rl_sound : simple_sound keys p;
  rl_recorded : fully_recorded keys p;
  rl_nonempty : p.(sp_sigs) <> ∅
}.

(** Equal up to the representation of the bit set. *)
Definition sameProof (p p' : SimpleProof B) : Prop :=
  p'.(sp_msg) = p.(sp_msg) /\ p'.(sp_keys) = p.(sp_keys) /\ p'.(sp_keyHash) = p.(sp_keyHash) /\
  p'.(sp_sigs) = p.(sp_sigs) /\ bs_elems p'.(sp_bitset) = bs_elems p.(sp_bitset).

Context (Hnd : NoDup (map pk_PubKeyBytes keys)) (Hlen : (N.of_nat (length keys) < 65536)%N).

Lemma reload_one hash p : reloadable hash p ->
  sparseSigs p <> [] /\ exists q p' rr,
    scheme_New p.(sp_msg) keys vs.(PubKeyHash) = Ok q /\
    cmsp_MergeSparse (MkSparseSignatureProof vs.(PubKeyHash) (sparseSigs p)) q = Ret (p', rr) /\
    rr.(AllValidSignatures) = true /\ rr.(IncreasedSignatures) = true /\ sameProof p p'.
Proof.
  intros [Hm Hh Hs Hr Hne]. apply map_choose in Hne as (sig & k & Hk). split.
  { intros Hnil. apply (elem_of_nil (sparseOf p (sig, k))).
    change ([] : list SparseSignature) with (@nil SparseSignature). rewrite <- Hnil.
    apply elem_of_AsSparse. eauto. }
  exists (Simple_Derive p).
  destruct (roundtrip_gen keys p Hnd Hlen Hs Hr) as (p' & rr & Hmerge & Hsigs & Hbits & Hall).
  exists p', rr. split_and!.
  - simpl. unfold NewSimpleProof, Simple_Derive. destruct p; simpl in *. destruct Hs; simpl in *.
    by subst.
  - rewrite <- Hh. apply Hmerge.
  - done.
  - destruct (Simple_MergeSparse_spec (Simple_Derive p) (Simple_AsSparse p) eq_refl
      ltac:(by eapply AsSparse_keyIDs)) as (q & r' & added & Hq & _ & Hinc & _).
    rewrite Hmerge in Hq. simplify_eq. rewrite Hinc, Hbits. simpl. rewrite bs_elems_New, size_empty.
    apply bool_decide_eq_true. destruct (ss_sigs _ _ Hs _ _ Hk) as (_ & i & _ & Hi).
    assert (size (bs_elems (sp_bitset p)) <> 0%nat); [intros Hz%size_empty_inv; set_solver|lia].
  - destruct (Simple_MergeSparse_spec (Simple_Derive p) (Simple_AsSparse p) eq_refl
      ltac:(by eapply AsSparse_keyIDs)) as (q & r' & added & Hq & Hi & _).
    rewrite Hmerge in Hq. simplify_eq. destruct Hi; simpl in *. done.
Qed.
(** The loop invariant of toFullProofMap over the entries of a stored map. *)
Definition reloadInv (m : gmap bytes (SimpleProof B)) (dn : list (bytes * list SparseSignature))
  (acc : result (gmap bytes (SimpleProof B))) : Prop :=
  exists g, acc = Ok g /\
    (forall k, is_Some (g !! k) <-> k ∈ dn.*1) /\
    (forall k p', g !! k = Some p' -> exists p, m !! k = Some p /\ sameProof p p').

Lemma reload_fold (m : gmap bytes (SimpleProof B)) :
  (forall k p, m !! k = Some p -> reloadable k p) ->
  sure (foldO (fullMapStep signBytes h r vs) (Ok ∅) (map_to_list (sparseSigs <$> m)))
    (reloadInv m (map_to_list (sparseSigs <$> m))).
Proof.
  intros Hm. apply foldO_sure.
  - intros dn [k sg] rest acc Hl (g & -> & Hdom & Hsame).
    assert (Hk : exists p, m !! k = Some p /\ sg = sparseSigs p).
    { assert (Hin : (k, sg) ∈ map_to_list (sparseSigs <$> m)) by (rewrite Hl; set_solver).
      apply elem_of_map_to_list, lookup_fmap_Some in Hin as (p & <- & ?). eauto. }
    destruct Hk as (p & Hp & ->). destruct (reload_one k p (Hm _ _ Hp))
      as (Hne & q & p' & rr & Hnew & Hmerge & Hall & Hinc & Heq).
    unfold fullMapStep; cbn [fst snd]. rewrite (rl_msg _ _ (Hm _ _ Hp)), Hnew.
    rewrite bool_decide_eq_false_2 by done. rewrite Hmerge; cbn [mbind outcome_bind fst snd].
    rewrite Hall, Hinc; cbn [negb orb sure]. eexists. split; [reflexivity|]. split.
    + intros j. rewrite fmap_app, elem_of_app. cbn. rewrite list_elem_of_singleton, <- Hdom.
      destruct (decide (k = j)) as [->|Hkj].
      * rewrite lookup_insert_eq. split; [by right|by eexists].
      * rewrite lookup_insert_ne by done. naive_solver.
    + intros j p'' Hj. apply lookup_insert_Some in Hj as [[<- <-]|[_ Hj]]; [by exists p|].
      by apply Hsame.
  - exists ∅. split; [done|]. split; [|done]. intros k. split; [intros [? ?]; done|set_solver].
Qed.
End reload.

(** * Properties *)

(** Votes survive a restart.  Storing a map of simple proofs with mapToSparseSignatureCollection
    and rebuilding it with toFullProofMap, when every proof is over the sign bytes of its block hash and
    non-empty, neither panics nor fails and yields a proof for exactly the same hashes, with the same
    message, keys, signatures and bits. *)
Theorem stored_votes_reload {B : Type} `{BitSetLaws B, Verifier} (signBytes : VoteTarget -> result bytes)
  (h r : Z) (vs : ValidatorSet) (m : gmap bytes (SimpleProof B)) :
  NoDup (map pk_PubKeyBytes (ValidatorsToPubKeys vs.(Validators))) ->
  (N.of_nat (length (ValidatorsToPubKeys vs.(Validators))) < 65536)%N ->
  (forall k p, m !! k = Some p -> reloadable signBytes h r vs k p) ->
  exists c m', mapToSparseSignatureCollection (Some m) = Ret c /\
    toFullProofMap signBytes h r vs c = Ret (Ok (Some m')) /\ dom m' = dom m /\
    forall k p p', m !! k = Some p -> m' !! k = Some p' -> sameProof p p'.
Proof.
  intros Hnd Hlen Hm.
  destruct (mapToSparse_spec vs.(PubKeyHash) m) as (h' & Hc & _).
  { intros k p Hk. apply (Hm k p Hk). }
  pose proof (reload_fold signBytes h r vs Hnd Hlen m Hm) as Hf.
  eexists _. unfold toFullProofMap, gm_entries; simpl.
  destruct (foldO _ _ _) as [acc|] eqn:E in Hf; [|done]. destruct Hf as (g & -> & Hdom & Hsame).
  exists g. split; [exact Hc|]. simpl. rewrite E. split; [done|]. split.
  - apply set_eq. intros k. rewrite !elem_of_dom, Hdom, list_elem_of_fmap. split.
    + intros ([k' sg] & -> & Hin). apply elem_of_map_to_list, lookup_fmap_Some in Hin as (p & _ & ?).
      by exists p.
    + intros [p Hp]. exists (k, sparseSigs p). split; [done|]. apply elem_of_map_to_list.
      by rewrite lookup_fmap, Hp.
  - intros k p p' Hp Hp'. destruct (Hsame _ _ Hp') as (q & Hq & ?). congruence.
Qed.

(** A concrete validator set and store content for the instances below. *)
#[local] Existing Instance toyVerify.

Definition toySet : ValidatorSet :=
  MkValidatorSet (map (fun k => MkValidator k 1) toyKeys) "h" "p".
Definition toySignBytes (vt : VoteTarget) : result bytes := Ok "m".
Definition toyMap : gmap bytes (SimpleProof (gset nat)) := {["x" := toyProof]}.

Lemma toyProof_reloadable : reloadable toySignBytes 1 0 toySet "x" toyProof.
Proof.
  split; [done|done|apply toyProof_sound| |by apply map_non_empty_singleton].
  split.
  - intros sig k Hs. simpl in Hs. apply lookup_singleton_Some in Hs as [<- <-].
    apply (bool_decide_unpack _). vm_compute. exact I.
  - intros i Hi. exists "bm", (MkPubKey "toy" "b"). split; [done|].
    change (i ∈ ({[1%nat]} : gset nat)) in Hi. by apply elem_of_singleton in Hi as ->.
Qed.

Lemma stored_votes_reload_witness :
  exists c m', mapToSparseSignatureCollection (Some toyMap) = Ret c /\
    toFullProofMap toySignBytes 1 0 toySet c = Ret (Ok (Some m')) /\ dom m' = dom toyMap /\
    forall k p p', toyMap !! k = Some p -> m' !! k = Some p' -> sameProof p p'.
Proof.
  apply (stored_votes_reload toySignBytes 1 0 toySet toyMap).
  - apply (bool_decide_unpack _). vm_compute. exact I.
  - vm_compute. reflexivity.
  - unfold toyMap. intros k p [<- <-]%lookup_singleton_Some. apply toyProof_reloadable.
Defined.

(** An entry with no signatures poisons the store.  If any stored block hash has an empty
    signature list, rebuilding the proofs never returns them: it panics, or an earlier entry's sign
    bytes or proof construction already failed. *)
Theorem empty_entry_never_reloads {P B : Type} `{BitSet B, !CMSP P B, !CMSPScheme P}
  (signBytes : VoteTarget -> result bytes) (h r : Z) (vs : ValidatorSet) (c : SparseSignatureCollection) (k : bytes) :
  gm_get c.(BlockSignatures) k = Some [] ->
  forall m, toFullProofMap (P := P) signBytes h r vs c <> Ret (Ok m).
Proof.
  intros Hk m Hret. apply gm_entries_get in Hk. unfold toFullProofMap in Hret.
  apply bind_Ret_inv in Hret as (acc & Hfold & Hacc).
  destruct acc as [g|e]; [|discriminate]. clear Hacc. revert Hfold. generalize (@Ok (gmap bytes P) ∅).
  induction (gm_entries c.(BlockSignatures)) as [|e l IH]; [set_solver|].
  intros acc. cbn [foldO]. intros Hfold. apply bind_Ret_inv in Hfold as (acc' & Hstep & Hfold).
  apply elem_of_cons in Hk as [<-|Hk]; [|by eapply IH].
  assert (Herr : forall l er, foldO (fullMapStep (P := P) signBytes h r vs) (Err er) l <> Ret (Ok g)).
  { clear. intros l er. induction l as [|e l IH]; [discriminate|]. exact IH. }
  destruct acc as [g0|er]; simpl in Hstep; [|simplify_eq; by apply Herr in Hfold].
  destruct (signBytes _); [|simplify_eq; by apply Herr in Hfold].
  destruct (scheme_New _ _ _); [|simplify_eq; by apply Herr in Hfold].
  discriminate.
Qed.

Lemma empty_entry_never_reloads_witness :
  gm_get (Some {["x" := ([] : list SparseSignature)]}) "x" = Some [] /\
  forall m, toFullProofMap (P := SimpleProof (gset nat)) toySignBytes 1 0 toySet
    (MkSSC "h" (Some {["x" := []]})) <> Ret (Ok m).
Proof. split; [reflexivity|]. apply (empty_entry_never_reloads toySignBytes 1 0 toySet _ "x"). reflexivity. Defined.
