(* ===== verification/Stores.v ===== *)
(** The engine's stores: the in-memory implementations of tm/tmstore/tmmemstore, and the interface
    through which the mirror kernel uses its four stores. *)
From S2P Require Import Prelude Types.

(** fmt's %x verb on a string. *)
Definition hexDigit (n : N) : ascii := ascii_of_N (if (n <? 10)%N then 48 + n else 87 + n)%N.
Fixpoint hexBytes (b : bytes) : bytes :=
  match b with
  | EmptyString => EmptyString
  | String c b =>
      String (hexDigit (N_of_ascii c / 16)) (String (hexDigit (N_of_ascii c mod 16)) (hexBytes b))
  end.

(** * ActionStore (actionstore.go) *)
Module ActionStore.
(** tmstore.RoundActions. *)
Record RoundActions := MkRoundActions {
  ra_Height : Z;
  ra_Round : Z;
  ra_ProposedHeader : option ProposedHeader;
  ra_PubKey : option PubKey;
  PrevoteTarget : bytes;
  PrevoteSignature : bytes;
  PrecommitTarget : bytes;
  PrecommitSignature : bytes
}.

(** The zero proposed header, whose height is 0, is None. *)
Definition RoundActions_zero : RoundActions :=
  MkRoundActions 0 0 None None nilHash nilHash nilHash nilHash.

Definition phHeight (o : option ProposedHeader) : Z :=
  match o with Some ph => ph.(ph_Header).(Height) | None => 0 end.

(** The map of actions by height and round. *)
Notation t := (gmap (Z * Z) RoundActions).

Definition SaveProposedHeaderAction (ph : ProposedHeader) (s : t) : t * option error :=
  let k := (ph.(ph_Header).(Height), ph.(ph_Round)) in
  let ra := default RoundActions_zero (s !! k) in
  if negb (phHeight ra.(ra_ProposedHeader) =? 0) then (s, Some (DoubleActionError "proposed block"))
  else (<[k := {| ra with ra_Height := k.1; ra_Round := k.2; ra_ProposedHeader := Some ph |}]> s, None).

(** The two guards that run when the round has an entry; on a fresh round they do not fire. *)
Definition keyChanged (ra : RoundActions) (pubKey : PubKey) : option bytes :=
  match ra.(ra_PubKey) with
  | Some k => if pk_Equal k pubKey then None else Some k.(pk_PubKeyBytes)
  | None => None
  end.

Definition SavePrevoteAction (pubKey : PubKey) (vt : VoteTarget) (sig : bytes) (s : t) : t * option error :=
  let k := (vt.(vt_Height), vt.(vt_Round)) in
  let ra := default RoundActions_zero (s !! k) in
  if negb (String.eqb ra.(PrevoteSignature) nilHash) then (s, Some (DoubleActionError "prevote"))
  else match keyChanged ra pubKey with
       | Some want => (s, Some (PubKeyChangedError "prevote" want pubKey.(pk_PubKeyBytes)))
       | None =>
           (<[k := {| ra with ra_Height := k.1; ra_Round := k.2; PrevoteTarget := vt.(vt_BlockHash);
                              PrevoteSignature := sig; ra_PubKey := Some pubKey |}]> s, None)
       end.

Definition SavePrecommitAction (pubKey : PubKey) (vt : VoteTarget) (sig : bytes) (s : t) : t * option error :=
  let k := (vt.(vt_Height), vt.(vt_Round)) in
  let ra := default RoundActions_zero (s !! k) in
  if negb (String.eqb ra.(PrecommitSignature) nilHash) then (s, Some (DoubleActionError "precommit"))
  else match keyChanged ra pubKey with
       | Some want => (s, Some (PubKeyChangedError "precommit" want pubKey.(pk_PubKeyBytes)))
       | None =>
           (<[k := {| ra with ra_Height := k.1; ra_Round := k.2; PrecommitTarget := vt.(vt_BlockHash);
                              PrecommitSignature := sig; ra_PubKey := Some pubKey |}]> s, None)
       end.

Definition LoadActions (height round : Z) (s : t) : result RoundActions :=
  match s !! (height, round) with
  | Some ra => Ok ra
  | None => Err (RoundUnknownError height round)
  end.
End ActionStore.

(** * FinalizationStore (finalizationstore.go) *)
Module FinalizationStore.
Record fin := MkFin {
  fin_H : Z; fin_R : Z; fin_BlockHash : bytes; fin_ValSet : ValidatorSet; fin_AppStateHash : bytes
}.
Notation t := (gmap Z fin).

Definition SaveFinalization (height round : Z) (blockHash : bytes) (valSet : ValidatorSet)
  (appStateHash : bytes) (s : t) : t * option error :=
  match s !! height with
  | Some _ => (s, Some (FinalizationOverwriteError height))
  | None => (<[height := MkFin height round blockHash valSet appStateHash]> s, None)
  end.

Definition LoadFinalizationByHeight (height : Z) (s : t) : result (Z * bytes * ValidatorSet * bytes) :=
  match s !! height with
  | Some f => Ok (f.(fin_R), f.(fin_BlockHash), f.(fin_ValSet), f.(fin_AppStateHash))
  | None => Err (HeightUnknownError height)
  end.
End FinalizationStore.

(** * MirrorStore and StateMachineStore (mirrorstore.go, statemachinestore.go) *)
Module MirrorStore.
Notation t := NetworkHeightRound.
Definition NewMirrorStore : t := MkNHR 0 0 0 0.
Definition SetNetworkHeightRound (nhr : NetworkHeightRound) (s : t) : t * option error := (nhr, None).
(** The values returned next to the error are the zero values. *)
Definition NetworkHeightRound (s : t) : result t :=
  if s.(VotingHeight) =? 0 then Err ErrStoreUninitialized else Ok s.
End MirrorStore.

Module StateMachineStore.
Notation t := (Z * Z)%type.
Definition NewStateMachineStore : t := (0, 0).
Definition SetStateMachineHeightRound (height round : Z) (s : t) : t * option error :=
  ((height, round), None).
Definition StateMachineHeightRound (s : t) : result (Z * Z) :=
  if s.1 =? 0 then Err ErrStoreUninitialized else Ok s.
End StateMachineStore.

(** * ValidatorStore (validatorstore.go) *)
Module ValidatorStore.
Record t := MkValidatorStore { vst_keys : gmap bytes (list PubKey); vst_pows : gmap bytes (list Z) }.
Definition NewValidatorStore : t := MkValidatorStore ∅ ∅.

(** The hash is returned along with the already-exists error. *)
Definition SavePubKeys (hs : HashScheme) (keys : list PubKey) (s : t) : t * bytes * option error :=
  match hs_PubKeys hs keys with
  | Err e => (s, nilHash, Some e)
  | Ok h =>
      match s.(vst_keys) !! h with
      | Some _ => (s, h, Some (PubKeysAlreadyExistError h))
      | None => ({| s with vst_keys := <[h := keys]> s.(vst_keys) |}, h, None)
      end
  end.

Definition SaveVotePowers (hs : HashScheme) (pows : list Z) (s : t) : t * bytes * option error :=
  match hs_VotePowers hs pows with
  | Err e => (s, nilHash, Some e)
  | Ok h =>
      match s.(vst_pows) !! h with
      | Some _ => (s, h, Some (VotePowersAlreadyExistError h))
      | None => ({| s with vst_pows := <[h := pows]> s.(vst_pows) |}, h, None)
      end
  end.

Definition LoadPubKeys (hash : bytes) (s : t) : result (list PubKey) :=
  match s.(vst_keys) !! hash with Some k => Ok k | None => Err (NoPubKeyHashError hash) end.

Definition LoadVotePowers (hash : bytes) (s : t) : result (list Z) :=
  match s.(vst_pows) !! hash with Some p => Ok p | None => Err (NoVotePowerHashError hash) end.

(** errors.Join of a nil error and an error is a join of that one error. *)
Definition LoadValidators (keyHash powHash : bytes) (s : t) : result (list Validator) :=
  match s.(vst_keys) !! keyHash, s.(vst_pows) !! powHash with
  | None, Some _ => Err (NoPubKeyHashError keyHash)
  | Some _, None => Err (ErrJoin1 (NoVotePowerHashError powHash))
  | None, None => Err (ErrJoin (NoPubKeyHashError keyHash) (NoVotePowerHashError powHash))
  | Some keys, Some pows =>
      if negb (bool_decide (length keys = length pows))
      then Err (PubKeyPowerCountMismatchError (length keys) (length pows))
      else Ok (zip_with MkValidator keys pows)
  end.
End ValidatorStore.

(** * RoundStore (roundstore.go) *)
Module RoundStore.
Record t := MkRoundStore {
  phs : gmap Z (gmap Z (gmap bytes (list ProposedHeader)));
  prevotes : gmap Z (gmap Z SparseSignatureCollection);
  precommits : gmap Z (gmap Z SparseSignatureCollection);
  replayedHeaders : gmap Z (list Header)
}.
Definition NewRoundStore : t := MkRoundStore ∅ ∅ ∅ ∅.

(** [ph.ProposerPubKey.Equal(have.ProposerPubKey)] with a non-nil receiver [k]. *)
Definition sameProposer (k : PubKey) (have : ProposedHeader) : bool :=
  match have.(ph_ProposerPubKey) with Some k' => pk_Equal k k' | None => false end.

Definition phsAt (h r : Z) (s : t) : gmap bytes (list ProposedHeader) :=
  default ∅ (default ∅ (s.(phs) !! h) !! r).

(** The nil receiver only matters when there are headers to compare with. *)
Definition SaveRoundProposedHeader (ph : ProposedHeader) (s : t) : outcome (t * option error) :=
  let h := ph.(ph_Header).(Height) in
  let r := ph.(ph_Round) in
  let hash := ph.(ph_Header).(Hash) in
  let byRound := default ∅ (s.(phs) !! h) in
  let byHash := default ∅ (byRound !! r) in
  let havePHs := default [] (byHash !! hash) in
  let add := {| s with phs := <[h := <[r := <[hash := havePHs ++ [ph]]> byHash]> byRound]> s.(phs) |} in
  match havePHs, ph.(ph_ProposerPubKey) with
  | [], _ => Ret (add, None)
  | _ :: _, None => Panic "runtime error: invalid memory address or nil pointer dereference"
  | _ :: _, Some k =>
      if existsb (sameProposer k) havePHs
      then Ret (s, Some (OverwriteError "pubkey" (hexBytes k.(pk_PubKeyBytes))))
      else Ret (add, None)
  end.

(** Any round of the height counts. *)
Definition SaveRoundReplayedHeader (h : Header) (s : t) : t * option error :=
  let byRound := default ∅ (s.(phs) !! h.(Height)) in
  if existsb (fun e => bool_decide (is_Some (e.2 !! h.(Hash)))) (map_to_list byRound)
  then (s, Some (OverwriteError "hash" (hexBytes h.(Hash))))
  else ({| s with replayedHeaders :=
             <[h.(Height) := default [] (s.(replayedHeaders) !! h.(Height)) ++ [h]]> s.(replayedHeaders) |},
        None).

Definition OverwriteRoundPrevoteProofs (h r : Z) (c : SparseSignatureCollection) (s : t) : t * option error :=
  ({| s with prevotes := <[h := <[r := c]> (default ∅ (s.(prevotes) !! h))]> s.(prevotes) |}, None).

Definition OverwriteRoundPrecommitProofs (h r : Z) (c : SparseSignatureCollection) (s : t) : t * option error :=
  ({| s with precommits := <[h := <[r := c]> (default ∅ (s.(precommits) !! h))]> s.(precommits) |}, None).

(** A replayed header as LoadRoundState returns it: only the Header field is set. *)
Definition replayedPH (h : Header) : ProposedHeader :=
  MkProposedHeader h 0 None (MkAnnotations nilHash nilHash) nilHash.

(** The replayed headers for the non-nil hashes of the stored precommits. *)
Definition replayedFor (hdrs : list Header) (c : SparseSignatureCollection) : list ProposedHeader :=
  flat_map (fun e : bytes * list SparseSignature =>
    if String.eqb e.1 nilHash then []
    else map replayedPH (List.filter (fun rh => String.eqb e.1 rh.(Hash)) hdrs))
    (gm_entries c.(BlockSignatures)).

(** [phs] is nil exactly when nothing was appended to it: a non-empty hash map makes it
    non-nil even if its lists were empty. *)
Definition LoadRoundState (h r : Z) (s : t) :
  list ProposedHeader * SparseSignatureCollection * SparseSignatureCollection * option error :=
  let hashMap := phsAt h r s in
  let ps := flat_map snd (map_to_list hashMap) in
  let pv := default SSC_zero (default ∅ (s.(prevotes) !! h) !! r) in
  let pc := default SSC_zero (default ∅ (s.(precommits) !! h) !! r) in
  let rep := replayedFor (default [] (s.(replayedHeaders) !! h)) pc in
  let phsNil := bool_decide (hashMap = ∅) && bool_decide (rep = []) in
  if phsNil && bool_decide (pv.(BlockSignatures) = None) && bool_decide (pc.(BlockSignatures) = None)
  then ([], pv, pc, Some (RoundUnknownError h r))
  else (ps ++ rep, pv, pc, None).
End RoundStore.

(** * CommittedHeaderStore (committedheaderstore.go)

    The store keeps the value it is given, and with it a reference to the map of the value's
    proof.  A map object has an identity [MapRef]; [mapCleared] is what the store sees when
    the owner of that object clears it. *)
Definition MapRef := nat.

Module CommittedHeaderStore.
Notation t := (gmap Z (CommittedHeader * MapRef)).

Definition SaveCommittedHeader (ref : MapRef) (ch : CommittedHeader) (s : t) : t * option error :=
  (<[ch.(ch_Header).(Height) := (ch, ref)]> s, None).

Definition LoadCommittedHeader (height : Z) (s : t) : result CommittedHeader :=
  match s !! height with Some e => Ok e.1 | None => Err (HeightUnknownError height) end.

Definition clearProof (ch : CommittedHeader) : CommittedHeader :=
  {| ch with ch_Proof := {| ch.(ch_Proof) with cp_Proofs := gm_clear ch.(ch_Proof).(cp_Proofs) |} |}.

Definition mapCleared (ref : MapRef) (s : t) : t :=
  (fun e => if decide (e.2 = ref) then (clearProof e.1, e.2) else e) <$> s.
End CommittedHeaderStore.

(** * The kernel's view of its stores

    [ST] is the state of the four stores the mirror kernel writes (tmstore.MirrorStore,
    CommittedHeaderStore, RoundStore and ValidatorStore).  A method returns the new state and its
    nil-able error. *)
Class KernelStores (ST : Type) := {
  ks_SetNetworkHeightRound : NetworkHeightRound -> ST -> ST * option error;
  ks_NetworkHeightRound : ST -> result NetworkHeightRound;
  ks_SaveCommittedHeader : MapRef -> CommittedHeader -> ST -> ST * option error;
  ks_LoadCommittedHeader : Z -> ST -> result CommittedHeader;
  ks_mapCleared : MapRef -> ST -> ST;
  ks_SaveRoundProposedHeader : ProposedHeader -> ST -> outcome (ST * option error);
  ks_SaveRoundReplayedHeader : Header -> ST -> ST * option error;
  ks_OverwriteRoundPrevoteProofs : Z -> Z -> SparseSignatureCollection -> ST -> ST * option error;
  ks_OverwriteRoundPrecommitProofs : Z -> Z -> SparseSignatureCollection -> ST -> ST * option error;
  ks_LoadRoundState : Z -> Z -> ST ->
    list ProposedHeader * SparseSignatureCollection * SparseSignatureCollection * option error;
  ks_SavePubKeys : list PubKey -> ST -> ST * option error;
  ks_SaveVotePowers : list Z -> ST -> ST * option error
}.

(** The header stored for a height, without its proof. *)
Definition committedAt {ST : Type} `{KernelStores ST} (h : Z) (s : ST) : option Header :=
  match ks_LoadCommittedHeader h s with Ok ch => Some ch.(ch_Header) | Err _ => None end.

(** What the kernel's theorems rely on: a saved committed header is read back under its height and
    no other, a failed save stores nothing, and the methods of the other stores do not touch the
    committed headers. *)
Class KernelStoresLaws (ST : Type) `{KernelStores ST} := {
  ksl_save_ok ref ch s s' : ks_SaveCommittedHeader ref ch s = (s', None) ->
    ks_LoadCommittedHeader ch.(ch_Header).(Height) s' = Ok ch;
  ksl_save_frame ref ch s s' e h : ks_SaveCommittedHeader ref ch s = (s', e) ->
    h <> ch.(ch_Header).(Height) -> committedAt h s' = committedAt h s;
  ksl_save_err ref ch s s' e : ks_SaveCommittedHeader ref ch s = (s', Some e) ->
    forall h, committedAt h s' = committedAt h s;
  ksl_nhr h nhr s : committedAt h (ks_SetNetworkHeightRound nhr s).1 = committedAt h s;
  ksl_cleared h ref s : committedAt h (ks_mapCleared ref s) = committedAt h s;
  ksl_ph h ph s s' e : ks_SaveRoundProposedHeader ph s = Ret (s', e) ->
    committedAt h s' = committedAt h s;
  ksl_replayed h hd s : committedAt h (ks_SaveRoundReplayedHeader hd s).1 = committedAt h s;
  ksl_prevotes h r c hh s : committedAt hh (ks_OverwriteRoundPrevoteProofs h r c s).1 = committedAt hh s;
  ksl_precommits h r c hh s :
    committedAt hh (ks_OverwriteRoundPrecommitProofs h r c s).1 = committedAt hh s;
  ksl_keys h keys s : committedAt h (ks_SavePubKeys keys s).1 = committedAt h s;
  ksl_pows h pows s : committedAt h (ks_SaveVotePowers pows s).1 = committedAt h s
}.

(** ** The in-memory stores implement it *)
Record MemStores := MkMemStores {
  ms_mirror : MirrorStore.t;
  ms_headers : CommittedHeaderStore.t;
  ms_rounds : RoundStore.t;
  ms_vals : ValidatorStore.t
}.

Definition NewMemStores : MemStores :=
  MkMemStores MirrorStore.NewMirrorStore ∅ RoundStore.NewRoundStore ValidatorStore.NewValidatorStore.

Section mem.
Context (hs : HashScheme).

#[export] Instance MemStores_KernelStores : KernelStores MemStores := {
  ks_SetNetworkHeightRound nhr s :=
    let r := MirrorStore.SetNetworkHeightRound nhr s.(ms_mirror) in ({| s with ms_mirror := r.1 |}, r.2);
  ks_NetworkHeightRound s := MirrorStore.NetworkHeightRound s.(ms_mirror);
  ks_SaveCommittedHeader ref ch s :=
    let r := CommittedHeaderStore.SaveCommittedHeader ref ch s.(ms_headers) in
    ({| s with ms_headers := r.1 |}, r.2);
  ks_LoadCommittedHeader h s := CommittedHeaderStore.LoadCommittedHeader h s.(ms_headers);
  ks_mapCleared ref s :=
    {| s with ms_headers := CommittedHeaderStore.mapCleared ref s.(ms_headers) |};
  ks_SaveRoundProposedHeader ph s :=
    r ← RoundStore.SaveRoundProposedHeader ph s.(ms_rounds); Ret ({| s with ms_rounds := r.1 |}, r.2);
  ks_SaveRoundReplayedHeader hd s :=
    let r := RoundStore.SaveRoundReplayedHeader hd s.(ms_rounds) in ({| s with ms_rounds := r.1 |}, r.2);
  ks_OverwriteRoundPrevoteProofs h r c s :=
    let x := RoundStore.OverwriteRoundPrevoteProofs h r c s.(ms_rounds) in
    ({| s with ms_rounds := x.1 |}, x.2);
  ks_OverwriteRoundPrecommitProofs h r c s :=
    let x := RoundStore.OverwriteRoundPrecommitProofs h r c s.(ms_rounds) in
    ({| s with ms_rounds := x.1 |}, x.2);
  ks_LoadRoundState h r s := RoundStore.LoadRoundState h r s.(ms_rounds);
  ks_SavePubKeys keys s :=
    let x := ValidatorStore.SavePubKeys hs keys s.(ms_vals) in ({| s with ms_vals := x.1.1 |}, x.2);
  ks_SaveVotePowers pows s :=
    let x := ValidatorStore.SaveVotePowers hs pows s.(ms_vals) in ({| s with ms_vals := x.1.1 |}, x.2)
}.

#[export] Instance MemStores_laws : KernelStoresLaws MemStores.
Proof.
  split; unfold committedAt; simpl; intros; simplify_eq/=; try done.
  - unfold CommittedHeaderStore.LoadCommittedHeader. by rewrite lookup_insert_eq.
  - unfold CommittedHeaderStore.LoadCommittedHeader. by rewrite lookup_insert_ne by done.
  - unfold CommittedHeaderStore.LoadCommittedHeader, CommittedHeaderStore.mapCleared.
    rewrite lookup_fmap. destruct (_ !! h) as [e|]; simpl; [|done]. by destruct (decide _).
  - by destruct (RoundStore.SaveRoundProposedHeader _ _); simplify_eq/=.
Qed.
End mem.
