(* ===== verification/StoreProofs.v ===== *)
(** What the in-memory stores guarantee: the action store as the engine's guard against double
    signing, the round store's save and load, and write-once finalizations. *)
From S2P Require Import Prelude Types Stores.

(** * The action store over a history of requests *)
Section actions.
Import ActionStore.

Inductive action :=
| APropose (ph : ProposedHeader)
| APrevote (key : PubKey) (vt : VoteTarget) (sig : bytes)
| APrecommit (key : PubKey) (vt : VoteTarget) (sig : bytes).

Definition execAction (a : action) (s : t) : t * option error :=
  match a with
  | APropose ph => SaveProposedHeaderAction ph s
  | APrevote key vt sig => SavePrevoteAction key vt sig s
  | APrecommit key vt sig => SavePrecommitAction key vt sig s
  end.

(** Run a history, keeping the actions the store accepted. *)
Fixpoint runActions (l : list action) (s : t) (accepted : list action) : t * list action :=
  match l with
  | [] => (s, accepted)
  | a :: l =>
      let '(s', e) := execAction a s in
      runActions l s' (match e with None => a :: accepted | Some _ => accepted end)
  end.

(** The round an action belongs to, and the kind of action it is. *)
Definition actionHR (a : action) : Z * Z :=
  match a with
  | APropose ph => (ph.(ph_Header).(Height), ph.(ph_Round))
  | APrevote _ vt _ | APrecommit _ vt _ => (vt.(vt_Height), vt.(vt_Round))
  end.
Definition actionKind (a : action) : nat :=
  match a with APropose _ => 0 | APrevote _ _ _ => 1 | APrecommit _ _ _ => 2 end%nat.
Definition actionKey (a : action) : option PubKey :=
  match a with APropose _ => None | APrevote k _ _ | APrecommit k _ _ => Some k end.

(** Signatures are never empty, and no header is proposed for height 0. *)
Definition realAction (a : action) : Prop :=
  match a with
  | APropose ph => ph.(ph_Header).(Height) <> 0
  | APrevote _ _ sig | APrecommit _ _ sig => sig <> nilHash
  end.

(** The entry of a round shows the action. *)
Definition shows (ra : RoundActions) (a : action) : Prop :=
  match a with
  | APropose ph => ra.(ra_ProposedHeader) = Some ph
  | APrevote k vt sig => ra.(PrevoteTarget) = vt.(vt_BlockHash) /\ ra.(PrevoteSignature) = sig /\
                         ra.(ra_PubKey) = Some k
  | APrecommit k vt sig => ra.(PrecommitTarget) = vt.(vt_BlockHash) /\ ra.(PrecommitSignature) = sig /\
                           ra.(ra_PubKey) = Some k
  end.

Definition entryOf (s : t) (k : Z * Z) : RoundActions := default RoundActions_zero (s !! k).

Lemma execAction_other a s k : k <> actionHR a -> (execAction a s).1 !! k = s !! k.
Proof.
  intros Hk. destruct a; simpl in *;
    unfold SaveProposedHeaderAction, SavePrevoteAction, SavePrecommitAction;
    repeat case_match; simpl; rewrite ?lookup_insert_ne by done; done.
Qed.

Lemma execAction_refused a s e : (execAction a s).2 = Some e -> (execAction a s).1 = s.
Proof.
  destruct a; simpl; unfold SaveProposedHeaderAction, SavePrevoteAction, SavePrecommitAction;
    repeat case_match; by simpl.
Qed.

(** An accepted action is shown, and hides no action shown before. *)
Lemma execAction_accepted a s : (execAction a s).2 = None ->
  exists ra, (execAction a s).1 !! actionHR a = Some ra /\ shows ra a /\
    (forall b, realAction b -> shows (entryOf s (actionHR a)) b ->
       shows ra b /\ actionKind b <> actionKind a).
Proof.
  destruct a as [ph|k vt sig|k vt sig]; simpl;
    unfold SaveProposedHeaderAction, SavePrevoteAction, SavePrecommitAction, entryOf, keyChanged.
  - destruct (negb _) eqn:Eg; simpl; [done|]. intros _. rewrite lookup_insert_eq. eexists.
    split; [done|]. split; [done|]. apply negb_false_iff, Z.eqb_eq in Eg.
    intros [ph'|k' vt' sig'|k' vt' sig'] Hr Hs; simpl in *; [|by split..].
    rewrite Hs in Eg. done.
  - destruct (String.eqb _ _) eqn:Eg; simpl; [|done]. apply String.eqb_eq in Eg.
    destruct (ra_PubKey _) as [k0|] eqn:Ek.
    + unfold pk_Equal. case_bool_decide; subst; simpl; [|done]. intros _.
      rewrite lookup_insert_eq. eexists. split; [done|]. split; [done|].
      intros [ph'|k' vt' sig'|k' vt' sig'] Hr Hs; simpl in *; [done| |].
      * destruct Hs as (_ & Hs & _). congruence.
      * rewrite Ek in Hs. done.
    + simpl. intros _. rewrite lookup_insert_eq. eexists. split; [done|]. split; [done|].
      intros [ph'|k' vt' sig'|k' vt' sig'] Hr Hs; simpl in *; [done| |];
        destruct Hs as (_ & _ & Hs); congruence.
  - destruct (String.eqb _ _) eqn:Eg; simpl; [|done]. apply String.eqb_eq in Eg.
    destruct (ra_PubKey _) as [k0|] eqn:Ek.
    + unfold pk_Equal. case_bool_decide; subst; simpl; [|done]. intros _.
      rewrite lookup_insert_eq. eexists. split; [done|]. split; [done|].
      intros [ph'|k' vt' sig'|k' vt' sig'] Hr Hs; simpl in *; [done| |].
      * rewrite Ek in Hs. done.
      * destruct Hs as (_ & Hs & _). congruence.
    + simpl. intros _. rewrite lookup_insert_eq. eexists. split; [done|]. split; [done|].
      intros [ph'|k' vt' sig'|k' vt' sig'] Hr Hs; simpl in *; [done| |];
        destruct Hs as (_ & _ & Hs); congruence.
Qed.

(** The invariant of a history. *)
Record actionsInv (s : t) (acc : list action) : Prop := {
  ai_real : Forall realAction acc;
  ai_shown : forall a, a ∈ acc -> shows (entryOf s (actionHR a)) a;
  ai_slots : NoDup (map (fun a => (actionKind a, actionHR a)) acc)
}.

Lemma actionsInv_step a s acc : realAction a -> actionsInv s acc ->
  actionsInv (execAction a s).1
    (match (execAction a s).2 with None => a :: acc | Some _ => acc end).
Proof.
  intros Ha [Hr Hs Hn]. destruct (execAction a s).2 as [e|] eqn:E.
  { apply execAction_refused in E. rewrite E. by split. }
  destruct (execAction_accepted a s E) as (ra & Hra & Hsa & Hold).
  assert (Hentry : entryOf (execAction a s).1 (actionHR a) = ra) by (unfold entryOf; by rewrite Hra).
  split; [by constructor| |].
  - intros b [->|Hb]%elem_of_cons; [by rewrite Hentry|].
    destruct (decide (actionHR b = actionHR a)) as [Heq|Hne].
    + rewrite Heq, Hentry. apply Hold; [|rewrite <- Heq; by apply Hs].
      rewrite Forall_forall in Hr. by apply Hr.
    + unfold entryOf. rewrite execAction_other by done. by apply Hs.
  - simpl. constructor; [|done]. intros Hin.
    apply list_elem_of_fmap in Hin as (b & Heq & Hb). simplify_eq.
    assert (Hk : actionHR b = actionHR a) by congruence.
    rewrite Forall_forall in Hr. destruct (Hold b (Hr b Hb)) as [_ Hne]; [|by apply Hne].
    rewrite <- Hk. by apply Hs.
Qed.

Lemma runActions_inv l s acc : Forall realAction l -> actionsInv s acc ->
  actionsInv (runActions l s acc).1 (runActions l s acc).2.
Proof.
  revert s acc. induction l as [|a l IH]; intros s acc Hl Hi; simpl; [done|].
  apply Forall_cons in Hl as [Ha Hl]. pose proof (actionsInv_step a s acc Ha Hi) as H.
  destruct (execAction a s) as [s' e]. simpl in H. by apply IH.
Qed.
End actions.


Definition exampleActions : list action :=
  [ APrevote (MkPubKey "toy" "a") (MkVoteTarget 1 0 "x") "s1";
    APrevote (MkPubKey "toy" "a") (MkVoteTarget 1 0 "y") "s2";
    APrecommit (MkPubKey "toy" "b") (MkVoteTarget 1 0 "x") "s3";
    APrecommit (MkPubKey "toy" "a") (MkVoteTarget 1 0 "x") "s4" ].


(** * The round store *)
Section rounds.
Import RoundStore.

(** The four results of LoadRoundState. *)
Definition loadedPHs (h r : Z) (s : t) : list ProposedHeader := (LoadRoundState h r s).1.1.1.
Definition loadedPrevotes (h r : Z) (s : t) : SparseSignatureCollection := (LoadRoundState h r s).1.1.2.
Definition loadedPrecommits (h r : Z) (s : t) : SparseSignatureCollection := (LoadRoundState h r s).1.2.
Definition loadedErr (h r : Z) (s : t) : option error := (LoadRoundState h r s).2.

Definition storedPrecommits (h r : Z) (s : t) : SparseSignatureCollection :=
  default SSC_zero (default ∅ (s.(precommits) !! h) !! r).

Lemma loadedPHs_eq h r s : loadedPHs h r s =
  flat_map snd (map_to_list (phsAt h r s)) ++
  replayedFor (default [] (s.(replayedHeaders) !! h)) (storedPrecommits h r s).
Proof.
  unfold loadedPHs, LoadRoundState, storedPrecommits.
  destruct (_ && _ && _) eqn:E; [|done]. simpl.
  apply andb_true_iff in E as [[[E1 E2]%andb_true_iff _]%andb_true_iff _].
  apply bool_decide_eq_true in E1, E2. by rewrite E1, E2, map_to_list_empty.
Qed.

Lemma phsAt_insert h r m s h' r' :
  phsAt h' r' {| s with phs := <[h := <[r := m]> (default ∅ (s.(phs) !! h))]> s.(phs) |} =
  if decide (h = h' /\ r = r') then m else phsAt h' r' s.
Proof.
  unfold phsAt; simpl. destruct (decide (h = h')) as [->|Hh].
  - rewrite lookup_insert_eq; simpl. destruct (decide (r = r')) as [->|Hr].
    + rewrite lookup_insert_eq. by rewrite decide_True.
    + rewrite lookup_insert_ne by done. rewrite decide_False by naive_solver. done.
  - rewrite lookup_insert_ne by done. rewrite decide_False by naive_solver. done.
Qed.

(** Appending to one entry of a map of lists appends to the concatenation. *)
Lemma flat_map_snoc {V} (m : gmap bytes (list V)) k v :
  flat_map snd (map_to_list (<[k := default [] (m !! k) ++ [v]]> m)) ≡ₚ
  v :: flat_map snd (map_to_list m).
Proof.
  rewrite <- insert_delete_eq, map_to_list_insert by apply lookup_delete_eq. simpl.
  destruct (m !! k) as [l|] eqn:E; simpl.
  - transitivity (v :: (l ++ flat_map snd (map_to_list (delete k m)))).
    + rewrite <- app_assoc. simpl. symmetry. apply Permutation_middle.
    + constructor. change (l ++ flat_map snd (map_to_list (delete k m))) with
        (flat_map snd ((k, l) :: map_to_list (delete k m))).
      apply Permutation_flat_map. rewrite <- map_to_list_insert by apply lookup_delete_eq.
      rewrite insert_delete_eq. by rewrite insert_id.
  - by rewrite delete_id.
Qed.

Lemma SaveRoundProposedHeader_cases ph s s' e :
  let h := ph.(ph_Header).(Height) in let r := ph.(ph_Round) in
  let hash := ph.(ph_Header).(Hash) in
  SaveRoundProposedHeader ph s = Ret (s', e) ->
  (e = None /\ s' = {| s with phs := <[h := <[r := <[hash := default [] (phsAt h r s !! hash) ++ [ph]]>
                                (phsAt h r s)]> (default ∅ (s.(phs) !! h))]> s.(phs) |}) \/
  (s' = s /\ exists have k, have ∈ default [] (phsAt h r s !! hash) /\
     ph.(ph_ProposerPubKey) = Some k /\ have.(ph_ProposerPubKey) = Some k /\
     e = Some (OverwriteError "pubkey" (hexBytes k.(pk_PubKeyBytes)))).
Proof.
  cbv zeta. unfold SaveRoundProposedHeader, phsAt.
  destruct (default [] _) as [|x l] eqn:E.
  - intros [= <- <-]. by left.
  - destruct (ph_ProposerPubKey ph) as [k|]; [|discriminate].
    destruct (existsb _ _) eqn:Ex; intros [= <- <-]; [right|by left].
    apply existsb_exists in Ex as (have & Hin & Hsame). split; [done|]. exists have, k.
    unfold sameProposer in Hsame. destruct (ph_ProposerPubKey have) as [k'|]; [|done].
    unfold pk_Equal in Hsame. apply bool_decide_eq_true in Hsame as <-.
    split_and!; [by apply list_elem_of_In|done..].
Qed.
End rounds.

(** Saving a proposed header either stores it, so that loading its round returns it along with
    everything that was there (in some order) and no other round changes; or it changes nothing, and
    then the round already holds, under the same hash, a header of the same proposer. *)
Theorem round_store_save_load (ph : ProposedHeader) (s s' : RoundStore.t) (e : option error) :
  RoundStore.SaveRoundProposedHeader ph s = Ret (s', e) ->
  let h := ph.(ph_Header).(Height) in let r := ph.(ph_Round) in
  (e = None /\ loadedErr h r s' = None /\ loadedPHs h r s' ≡ₚ ph :: loadedPHs h r s /\
   forall h' r', (h', r') <> (h, r) -> RoundStore.LoadRoundState h' r' s' = RoundStore.LoadRoundState h' r' s) \/
  (s' = s /\ e <> None /\ exists have,
     have ∈ default [] (RoundStore.phsAt h r s !! ph.(ph_Header).(Hash)) /\
     have ∈ loadedPHs h r s /\ have.(ph_ProposerPubKey) = ph.(ph_ProposerPubKey)).
Proof.
  intros Hs. cbv zeta. destruct (SaveRoundProposedHeader_cases ph s s' e Hs)
    as [[-> ->]|(-> & have & k & Hin & Hk & Hk' & ->)]; [left|right].
  - split; [done|]. split_and!.
    + unfold loadedErr, RoundStore.LoadRoundState. rewrite phsAt_insert, decide_True by done.
      rewrite (bool_decide_eq_false_2 (<[_ := _]> _ = ∅)) by apply insert_non_empty. done.
    + rewrite !loadedPHs_eq, phsAt_insert, decide_True by done.
      rewrite flat_map_snoc. done.
    + intros h' r' Hne. unfold RoundStore.LoadRoundState.
      rewrite phsAt_insert, decide_False by naive_solver. done.
  - split_and!; [done..|]. exists have. split; [done|]. split; [|congruence].
    rewrite loadedPHs_eq. apply elem_of_app. left.
    destruct (RoundStore.phsAt _ _ s !! _) as [l|] eqn:E; simpl in Hin; [|set_solver].
    apply list_elem_of_In, in_flat_map. exists (Hash (ph_Header ph), l).
    split; [by apply list_elem_of_In, elem_of_map_to_list|by apply list_elem_of_In].
Qed.

Definition examplePH (hash : bytes) (key : bytes) : ProposedHeader :=
  MkProposedHeader {| Header_zero with Height := 1; Hash := hash |} 0 (Some (MkPubKey "toy" key))
    (MkAnnotations nilHash nilHash) "sig".

Lemma round_store_save_load_witness :
  let s := RoundStore.NewRoundStore in
  exists s', RoundStore.SaveRoundProposedHeader (examplePH "x" "a") s = Ret (s', None) /\
  ((@None error = None /\ loadedErr 1 0 s' = None /\ loadedPHs 1 0 s' ≡ₚ examplePH "x" "a" :: loadedPHs 1 0 s /\
   forall h' r', (h', r') <> (1, 0) -> RoundStore.LoadRoundState h' r' s' = RoundStore.LoadRoundState h' r' s) \/
  (s' = s /\ @None error <> None /\ exists have,
     have ∈ default [] (RoundStore.phsAt 1 0 s !! "x") /\
     have ∈ loadedPHs 1 0 s /\ have.(ph_ProposerPubKey) = (examplePH "x" "a").(ph_ProposerPubKey))).
Proof.
  eexists. split; [vm_compute; reflexivity|].
  apply (round_store_save_load (examplePH "x" "a")). vm_compute. reflexivity.
Defined.

(** A replayed header comes back.  After the flow the interface documents (SaveRoundReplayedHeader,
    then OverwriteRoundPrecommitProofs with precommits for its hash), loading that height and round
    returns the header without proposer; and the save is refused exactly when some round of the height,
    not only the replayed one, already holds a proposed header with that hash. *)
Theorem replayed_header_loads (hd : Header) (s s1 : RoundStore.t) (e : option error) (r : Z)
  (c : SparseSignatureCollection) :
  RoundStore.SaveRoundReplayedHeader hd s = (s1, e) ->
  hd.(Hash) <> nilHash -> is_Some (gm_get c.(BlockSignatures) hd.(Hash)) ->
  (e <> None <-> exists r', is_Some (RoundStore.phsAt hd.(Height) r' s !! hd.(Hash))) /\
  (e = None ->
   let s2 := (RoundStore.OverwriteRoundPrecommitProofs hd.(Height) r c s1).1 in
   loadedErr hd.(Height) r s2 = None /\ RoundStore.replayedPH hd ∈ loadedPHs hd.(Height) r s2 /\
   loadedPrecommits hd.(Height) r s2 = c).
Proof.
  unfold RoundStore.SaveRoundReplayedHeader. intros Hs Hne [sigs Hc]. split.
  - unfold RoundStore.phsAt. destruct (existsb _ _) eqn:Ex; simplify_eq.
    + split; [intros _|done]. apply existsb_exists in Ex as ([r' m] & Hin & Hm).
      apply bool_decide_eq_true in Hm. exists r'. apply list_elem_of_In, elem_of_map_to_list in Hin.
      by rewrite Hin.
    + split; [done|]. intros (r' & Hm). exfalso. apply not_true_iff_false in Ex. apply Ex.
      apply existsb_exists. destruct (default ∅ (RoundStore.phs s !! Height hd) !! r') as [m|] eqn:Er;
        simpl in Hm; [|by apply is_Some_None in Hm].
      exists (r', m). split; [by apply list_elem_of_In, elem_of_map_to_list|].
      by apply bool_decide_eq_true.
  - intros ->. destruct (existsb _ _); [discriminate|]. injection Hs as <-. cbv zeta.
    assert (Hrep : RoundStore.replayedPH hd ∈ RoundStore.replayedFor
      (default [] (RoundStore.replayedHeaders s !! Height hd) ++ [hd]) c).
    { apply list_elem_of_In, in_flat_map. exists (Hash hd, sigs). split.
      - by apply list_elem_of_In, gm_entries_get.
      - simpl. destruct (String.eqb_spec (Hash hd) nilHash) as [?|_]; [done|].
        apply in_map, filter_In. split; [|apply String.eqb_refl]. apply in_or_app. right. by left. }
    set (s2 := fst _). assert (Hst : storedPrecommits (Height hd) r s2 = c).
    { unfold storedPrecommits, s2; simpl. rewrite lookup_insert_eq; simpl. by rewrite lookup_insert_eq. }
    assert (Hh : default [] (RoundStore.replayedHeaders s2 !! Height hd) =
      default [] (RoundStore.replayedHeaders s !! Height hd) ++ [hd]).
    { unfold s2; simpl. by rewrite lookup_insert_eq. }
    split_and!.
    + unfold loadedErr, RoundStore.LoadRoundState. fold (storedPrecommits (Height hd) r s2).
      rewrite Hst, Hh. destruct (BlockSignatures c) eqn:Eb; [|done].
      rewrite (bool_decide_eq_false_2 (Some _ = None)) by done. by rewrite andb_false_r.
    + rewrite loadedPHs_eq, Hst, Hh. apply elem_of_app. by right.
    + unfold loadedPrecommits, RoundStore.LoadRoundState. fold (storedPrecommits (Height hd) r s2).
      rewrite Hst. by destruct (_ && _ && _).
Qed.

Lemma replayed_header_loads_witness :
  let hd := {| Header_zero with Height := 1; Hash := "x" |} in
  let c := MkSSC "h" (Some {["x" := [MkSparseSignature "01" "s"]]}) in
  exists s1, RoundStore.SaveRoundReplayedHeader hd RoundStore.NewRoundStore = (s1, None) /\
  (@None error <> None <-> exists r', is_Some (RoundStore.phsAt 1 r' RoundStore.NewRoundStore !! "x")) /\
  (@None error = None ->
   let s2 := (RoundStore.OverwriteRoundPrecommitProofs 1 0 c s1).1 in
   loadedErr 1 0 s2 = None /\ RoundStore.replayedPH hd ∈ loadedPHs 1 0 s2 /\
   loadedPrecommits 1 0 s2 = c).
Proof.
  intros hd c. eexists. split; [vm_compute; reflexivity|].
  apply (replayed_header_loads hd RoundStore.NewRoundStore).
  - vm_compute. reflexivity.
  - discriminate.
  - by eexists.
Defined.
