(* ===== verification/Managers.v ===== *)
(** The mirror kernel's output managers: gossipviewmanager.go, statemachineviewmanager.go, lag.go and
    view.go of tm/tmengine/internal/tmmirror/internal/tmi.

    An outgoing channel is described by whether it is nil: a send on a nil channel never fires in the
    kernel's select.  The kernel computes an output value, and calls its MarkSent when the send fires. *)
From S2P Require Import Prelude Types BitSets Powers SigProof SimpleProofs VoteSummary RoundView.

(** * view.go *)
Inductive ViewID := ViewIDNotFound | ViewIDVoting | ViewIDCommitting | ViewIDNextRound | ViewIDNextHeight.

#[export] Instance ViewID_eq_dec : EqDecision ViewID.
Proof. solve_decision. Defined.

Record OutgoingView (P : Type) := MkOutgoingView {
  SentH : Z; SentR : Z; SentV : Z; ov_VRV : VersionedRoundView P
}.
Arguments MkOutgoingView {P}.
Arguments SentH {P}.
Arguments SentR {P}.
Arguments SentV {P}.
Arguments ov_VRV {P}.

(** View: a maintained round view together with what was sent of it. *)
Record View (P : Type) := MkView { vw_VRV : VersionedRoundView P; vw_Outgoing : OutgoingView P }.
Arguments MkView {P}.
Arguments vw_VRV {P}.
Arguments vw_Outgoing {P}.

(** * tmelink.NetworkViewUpdate, tmelink.LagState and the values of tmeil *)
Record NetworkViewUpdate (P : Type) := MkNVU {
  nvu_Committing : option (VersionedRoundView P);
  nvu_Voting : option (VersionedRoundView P);
  nvu_NextRound : option (VersionedRoundView P);
  nvu_NilVotedRound : option (VersionedRoundView P)
}.
Arguments MkNVU {P}.
Arguments nvu_Committing {P}.
Arguments nvu_Voting {P}.
Arguments nvu_NextRound {P}.
Arguments nvu_NilVotedRound {P}.

Inductive LagStatus :=
| LagStatusInitializing | LagStatusUpToDate | LagStatusAssumedBehind | LagStatusKnownMissing.

#[export] Instance LagStatus_eq_dec : EqDecision LagStatus.
Proof. solve_decision. Defined.

Record LagState := MkLagState { Status : LagStatus; ls_CommittingHeight : Z; NeedHeight : Z }.

(** StateMachineRoundEntrance: the action and height-committed channels are nil or an identity; the
    1-buffered response channel always accepts its one value. *)
Record StateMachineRoundEntrance := MkEntrance {
  re_H : Z;
  re_R : Z;
  re_PubKey : option PubKey;
  re_Actions : bool;
  re_HeightCommitted : option nat
}.

Definition Entrance_zero : StateMachineRoundEntrance := MkEntrance 0 0 None false None.

(** StateMachineRoundView; its CH field is never set by the mirror. *)
Record StateMachineRoundView (P : Type) := MkSMRV {
  smrv_VRV : VersionedRoundView P;
  JumpAheadRoundView : option (VersionedRoundView P)
}.
Arguments MkSMRV {P}.
Arguments smrv_VRV {P}.
Arguments JumpAheadRoundView {P}.

Section managers.
Context {P : Type}.

Definition HasBeenSent (v : OutgoingView P) : bool :=
  (v.(SentH) =? vHeight v.(ov_VRV)) && (v.(SentR) =? vRound v.(ov_VRV)) &&
  (v.(SentV) =? Version v.(ov_VRV)).

Definition OutgoingView_MarkSent (v : OutgoingView P) : OutgoingView P :=
  {| v with SentH := vHeight v.(ov_VRV); SentR := vRound v.(ov_VRV); SentV := Version v.(ov_VRV) |}.

Definition OutgoingView_zero : OutgoingView P := MkOutgoingView 0 0 0 VRV_zero.

(** Both branches of UpdateOutgoing store a fresh clone. *)
Definition View_UpdateOutgoing (v : View P) : View P :=
  let vrv := {| v.(vw_VRV) with Version := u32 (v.(vw_VRV).(Version) + 1) |} in
  MkView vrv {| v.(vw_Outgoing) with ov_VRV := VRV_Clone vrv |}.

(** * gossipViewManager *)
Record gossipViewManager := MkGVM {
  gvm_out : bool;
  NilVotedRound : option (VersionedRoundView P);
  gvm_Committing : OutgoingView P;
  gvm_Voting : OutgoingView P;
  gvm_NextRound : OutgoingView P
}.

Definition newGossipViewManager (out : bool) : gossipViewManager :=
  MkGVM out None OutgoingView_zero OutgoingView_zero OutgoingView_zero.

Record gossipStrategyOutput := MkGSO { gso_Ch : bool; gso_Val : NetworkViewUpdate P }.

Definition unsentClone (v : OutgoingView P) : option (VersionedRoundView P) :=
  if HasBeenSent v then None else Some (VRV_Clone v.(ov_VRV)).

(** The output channel stays nil unless one of the four parts is present. *)
Definition Gossip_Output (m : gossipViewManager) : gossipStrategyOutput :=
  let val := MkNVU (unsentClone m.(gvm_Committing)) (unsentClone m.(gvm_Voting))
                   (unsentClone m.(gvm_NextRound)) m.(NilVotedRound) in
  let any := negb (HasBeenSent m.(gvm_Committing)) || negb (HasBeenSent m.(gvm_Voting)) ||
             negb (HasBeenSent m.(gvm_NextRound)) || bool_decide (is_Some m.(NilVotedRound)) in
  MkGSO (any && m.(gvm_out)) val.

Definition markIf (o : option (VersionedRoundView P)) (v : OutgoingView P) : OutgoingView P :=
  match o with Some _ => OutgoingView_MarkSent v | None => v end.

Definition Gossip_MarkSent (o : gossipStrategyOutput) (m : gossipViewManager) : gossipViewManager :=
  {| m with gvm_Committing := markIf o.(gso_Val).(nvu_Committing) m.(gvm_Committing);
            gvm_Voting := markIf o.(gso_Val).(nvu_Voting) m.(gvm_Voting);
            gvm_NextRound := markIf o.(gso_Val).(nvu_NextRound) m.(gvm_NextRound);
            NilVotedRound := None |}.

(** * stateMachineViewManager *)
Record stateMachineViewManager := MkSMVM {
  smvm_out : bool;
  roundEntrance : StateMachineRoundEntrance;
  lastSentVersion : Z;
  forceSend : option (VersionedRoundView P);
  jumpAhead : option (VersionedRoundView P);
  outgoingView : VersionedRoundView P
}.

Definition newStateMachineViewManager (out : bool) : stateMachineViewManager :=
  MkSMVM out Entrance_zero 0 None None VRV_zero.

Definition smH (m : stateMachineViewManager) : Z := m.(roundEntrance).(re_H).
Definition smR (m : stateMachineViewManager) : Z := m.(roundEntrance).(re_R).
Definition smPubKey (m : stateMachineViewManager) : option PubKey := m.(roundEntrance).(re_PubKey).
Definition smActions (m : stateMachineViewManager) : bool := m.(roundEntrance).(re_Actions).
Definition HeightCommittedChan (m : stateMachineViewManager) : Z * option nat :=
  (m.(roundEntrance).(re_H), m.(roundEntrance).(re_HeightCommitted)).

Definition SetView (v : VersionedRoundView P) (m : stateMachineViewManager) : stateMachineViewManager :=
  {| m with outgoingView := VRV_Clone v |}.

Definition JumpToRound (v : VersionedRoundView P) (m : stateMachineViewManager) : stateMachineViewManager :=
  {| m with jumpAhead := Some (VRV_Clone v) |}.

(** [smo_m] says whether the output carries its manager. *)
Record stateMachineOutput := MkSMO {
  smo_m : bool;
  smo_Ch : bool;
  smo_Val : StateMachineRoundView P;
  sentVersion : Z
}.

Definition smOutput_zero : stateMachineOutput := MkSMO false false (MkSMRV VRV_zero None) 0.

(** The part of Output for an outgoing view of the state machine's round. *)
Definition smOutputCurrent (m : stateMachineViewManager) : option stateMachineOutput :=
  if (vHeight m.(outgoingView) =? smH m) && (vRound m.(outgoingView) =? smR m) then
    let sent0 := match m.(jumpAhead) with Some _ => m.(lastSentVersion) | None => 0 end in
    let newer := m.(lastSentVersion) <? m.(outgoingView).(Version) in
    let vrv := if newer then VRV_Clone m.(outgoingView) else VRV_zero in
    let sent := if newer then m.(outgoingView).(Version) else sent0 in
    if 0 <? sent then Some (MkSMO true m.(smvm_out) (MkSMRV vrv m.(jumpAhead)) sent) else None
  else None.

Definition smOutputJump (m : stateMachineViewManager) : stateMachineOutput :=
  match m.(jumpAhead) with
  | Some j =>
      if (vHeight j =? smH m) && (smR m <? vRound j)
      then MkSMO true m.(smvm_out) (MkSMRV VRV_zero (Some j)) m.(lastSentVersion)
      else smOutput_zero
  | None => smOutput_zero
  end.

Definition SM_Output (m : stateMachineViewManager) : stateMachineOutput :=
  match m.(forceSend) with
  | Some f => MkSMO true m.(smvm_out) (MkSMRV f None) f.(Version)
  | None => default (smOutputJump m) (smOutputCurrent m)
  end.

Definition ForceSend (vrv : VersionedRoundView P) (m : stateMachineViewManager) :
  outcome stateMachineViewManager :=
  match m.(forceSend) with
  | Some _ => Panic "BUG: (*stateMachineViewManager).ForceSend called twice"
  | None => Ret {| m with forceSend := Some vrv |}
  end.

Definition SM_Reset (re : StateMachineRoundEntrance) (m : stateMachineViewManager) : stateMachineViewManager :=
  {| m with roundEntrance := re; lastSentVersion := 0; jumpAhead := None |}.

Definition MarkFirstSentVersion (version : Z) (m : stateMachineViewManager) : outcome stateMachineViewManager :=
  if negb (m.(lastSentVersion) =? 0)
  then Panic "BUG: (*stateMachineViewManager).MarkFirstSentVersion must only be called with version == 0"
  else Ret {| m with lastSentVersion := version |}.

Definition SM_MarkSent (o : stateMachineOutput) (m : stateMachineViewManager) : outcome stateMachineViewManager :=
  if o.(smo_m)
  then Ret {| m with forceSend := None; jumpAhead := None; lastSentVersion := o.(sentVersion) |}
  else Panic "BUG: MarkSent called on no-op stateMachineOutput".
End managers.
Arguments gossipViewManager : clear implicits.
Arguments gossipStrategyOutput : clear implicits.
Arguments stateMachineViewManager : clear implicits.
Arguments stateMachineOutput : clear implicits.

(** * lagManager (lag.go) *)
Record lagManager := MkLagManager { lag_outCh : bool; lag_state : LagState; lag_sent : bool }.

Definition newLagManager (out : bool) : lagManager :=
  MkLagManager out (MkLagState LagStatusInitializing 0 0) false.

Definition Lag_SetState (st : LagStatus) (committingHeight needHeight : Z) (m : lagManager) : lagManager :=
  if negb m.(lag_outCh) then m
  else
    let sent := if bool_decide (m.(lag_state).(Status) = st) then m.(lag_sent) else false in
    {| m with lag_state := MkLagState st committingHeight needHeight; lag_sent := sent |}.

Record LagOutput := MkLagOutput { lo_Ch : bool; lo_Val : LagState }.

Definition Lag_Output (m : lagManager) : LagOutput :=
  if negb m.(lag_outCh) || m.(lag_sent) then MkLagOutput false (MkLagState LagStatusInitializing 0 0)
  else MkLagOutput true m.(lag_state).

Definition Lag_MarkSent (m : lagManager) : lagManager := {| m with lag_sent := true |}.

(** * Properties *)

Section manager_facts.
Context {P : Type}.

Lemma HasBeenSent_MarkSent (v : OutgoingView P) : HasBeenSent (OutgoingView_MarkSent v) = true.
Proof. unfold HasBeenSent, OutgoingView_MarkSent; simpl. by rewrite !Z.eqb_refl. Qed.

Lemma markIf_unsent (v : OutgoingView P) : HasBeenSent (markIf (unsentClone v) v) = true.
Proof.
  unfold unsentClone. destruct (HasBeenSent v) eqn:E; simpl; [done|]. apply HasBeenSent_MarkSent.
Qed.

Lemma unsentClone_spec (v : OutgoingView P) :
  match unsentClone v with
  | Some c => HasBeenSent v = false /\ c = VRV_Clone v.(ov_VRV)
  | None => HasBeenSent v = true
  end.
Proof. unfold unsentClone. by destruct (HasBeenSent v). Qed.
End manager_facts.

(** Gossip output is complete and quiet.  With a live channel the gossip manager offers a send
    exactly when some view has a height, round or version that was not sent, or a nil-voted round is
    pending; the offer holds clones of exactly the unsent views; and once it is sent nothing is
    offered until a view changes. *)
Theorem gossip_output_exact {P : Type} (m : gossipViewManager P) :
  m.(gvm_out) = true ->
  let o := Gossip_Output m in
  (o.(gso_Ch) = true <->
     (exists v, v ∈ [m.(gvm_Committing); m.(gvm_Voting); m.(gvm_NextRound)] /\ HasBeenSent v = false) \/
     is_Some m.(NilVotedRound)) /\
  o.(gso_Val).(nvu_Voting) =
    (if HasBeenSent m.(gvm_Voting) then None else Some (VRV_Clone m.(gvm_Voting).(ov_VRV))) /\
  o.(gso_Val).(nvu_Committing) =
    (if HasBeenSent m.(gvm_Committing) then None else Some (VRV_Clone m.(gvm_Committing).(ov_VRV))) /\
  o.(gso_Val).(nvu_NextRound) =
    (if HasBeenSent m.(gvm_NextRound) then None else Some (VRV_Clone m.(gvm_NextRound).(ov_VRV))) /\
  o.(gso_Val).(nvu_NilVotedRound) = m.(NilVotedRound) /\
  (Gossip_Output (Gossip_MarkSent o m)).(gso_Ch) = false.
Proof.
  intros Hout o. split_and!; [|done..|].
  - unfold o, Gossip_Output; simpl. rewrite Hout, andb_true_r, !orb_true_iff, !negb_true_iff,
      bool_decide_eq_true. split.
    + intros [[[H|H]|H]|H]; [left; eexists; (split; [|exact H]); set_solver..|by right].
    + intros [(v & Hv & H)|H]; [|auto]. rewrite !elem_of_cons, elem_of_nil in Hv.
      destruct Hv as [->|[->|[->|[]]]]; auto.
  - unfold o, Gossip_Output; simpl. by rewrite !markIf_unsent.
Qed.

Lemma gossip_output_exact_witness :
  let m : gossipViewManager nat := newGossipViewManager true in
  (Gossip_Output m).(gso_Ch) = false /\
  ((Gossip_Output m).(gso_Ch) = true <->
     (exists v, v ∈ [m.(gvm_Committing); m.(gvm_Voting); m.(gvm_NextRound)] /\ HasBeenSent v = false) \/
     is_Some m.(NilVotedRound)).
Proof. intros m. split; [reflexivity|]. apply (gossip_output_exact m). reflexivity. Defined.

(** What the state machine is offered.  With a live channel and no forced send: a newer view of the
    round the state machine is in is offered as a clone; a pending jump to a later round of its height
    is offered too; and after a send nothing is offered until a newer view or another jump arrives. *)
Theorem sm_output_offers {P : Type} (m : stateMachineViewManager P) :
  m.(smvm_out) = true -> m.(forceSend) = None -> 0 <= m.(lastSentVersion) ->
  let o := SM_Output m in
  (vHeight m.(outgoingView) = smH m -> vRound m.(outgoingView) = smR m ->
   m.(lastSentVersion) < Version m.(outgoingView) ->
   o.(smo_Ch) = true /\ o.(smo_Val).(smrv_VRV) = VRV_Clone m.(outgoingView)) /\
  (forall j, m.(jumpAhead) = Some j -> vHeight j = smH m -> smR m < vRound j ->
   o.(smo_Ch) = true /\ o.(smo_Val).(JumpAheadRoundView) = Some j) /\
  (forall m', SM_MarkSent o m = Ret m' -> (SM_Output m').(smo_Ch) = false).
Proof.
  destruct m as [out re last force jump og]. simpl. intros -> -> Hlast.
  unfold SM_Output, smOutputCurrent, smOutputJump, smH, smR; simpl. split_and!.
  - intros Hh Hr Hv. rewrite Hh, Hr, !Z.eqb_refl. simpl.
    rewrite (proj2 (Z.ltb_lt _ _) Hv), (proj2 (Z.ltb_lt 0 (Version og))) by lia. done.
  - intros j -> Hj Hr. rewrite Hj, Z.eqb_refl, (proj2 (Z.ltb_lt _ _) Hr). simpl.
    destruct (_ && _); simpl; [|done].
    destruct (last <? Version og), (0 <? _); done.
  - intros m'. unfold SM_MarkSent. destruct (_ && _) eqn:Em; simpl.
    + destruct (Z.ltb_spec last (Version og)) as [Hlt|Hge]; simpl.
      * rewrite (proj2 (Z.ltb_lt 0 (Version og))) by lia. simpl. intros Hm; simplify_eq/=.
        by rewrite Em, Z.ltb_irrefl.
      * assert (Hn : (last <? Version og) = false) by (apply Z.ltb_ge; lia).
        destruct jump as [j|]; simpl; [|done].
        destruct (0 <? last); simpl; [intros Hm; simplify_eq/=; by rewrite Em, Hn|].
        destruct ((vHeight j =? _) && _); simpl; [|done]. intros Hm; simplify_eq/=. by rewrite Em, Hn.
    + destruct jump as [j|]; simpl; [|done]. destruct ((vHeight j =? _) && _); simpl; [|done].
      intros Hm; simplify_eq/=. by rewrite Em.
Qed.

Lemma sm_output_offers_witness :
  let j : VersionedRoundView nat := vrv_upd (fun rv => {| rv with rv_Height := 3; rv_Round := 1 |}) VRV_zero in
  let m := JumpToRound j (SM_Reset (MkEntrance 3 0 None false None) (newStateMachineViewManager true)) in
  (SM_Output m).(smo_Ch) = true /\ (SM_Output m).(smo_Val).(JumpAheadRoundView) = Some (VRV_Clone j).
Proof.
  intros j m. apply (sm_output_offers m).
  - reflexivity.
  - reflexivity.
  - discriminate.
  - reflexivity.
  - reflexivity.
  - reflexivity.
Defined.
