(* ===== verification/KState.v ===== *)
(** The mirror kernel's mutable state, kState, and its methods
    (tm/tmengine/internal/tmmirror/internal/tmi/kstate.go). *)
From S2P Require Import Prelude Types BitSets Powers SigProof SimpleProofs VoteSummary RoundView.
From S2P Require Import Stores Managers.

Inductive ViewLookupStatus :=
| ViewFound | ViewBeforeCommitting | ViewWrongCommit | ViewOrphaned | ViewLaterVotingRound | ViewFuture.

#[export] Instance ViewLookupStatus_eq_dec : EqDecision ViewLookupStatus.
Proof. solve_decision. Defined.

(** The kernel's state.  The cancel function kept per in-flight fetch is represented by the presence of
    its hash.

    The Proofs map of a view's PrevCommitProof is an object that is cleared in place by Reset, and two
    views (or a view and a store) can hold the same object.  [refCommitting], [refVoting] and
    [refNextRound] are the identities of the three views' map objects, and [refFresh] the next unused
    one. *)
Record kState (P : Type) := MkKState {
  s_Committing : VersionedRoundView P;
  s_Voting : VersionedRoundView P;
  s_NextRound : VersionedRoundView P;
  InFlightFetchPHs : gset bytes;
  CommittingHeader : Header;
  StateMachineViewManager : stateMachineViewManager P;
  GossipViewManager : gossipViewManager P;
  LagManager : lagManager;
  refCommitting : MapRef;
  refVoting : MapRef;
  refNextRound : MapRef;
  refFresh : MapRef
}.
Arguments MkKState {P}.
Arguments s_Committing {P}.
Arguments s_Voting {P}.
Arguments s_NextRound {P}.
Arguments InFlightFetchPHs {P}.
Arguments CommittingHeader {P}.
Arguments StateMachineViewManager {P}.
Arguments GossipViewManager {P}.
Arguments LagManager {P}.
Arguments refCommitting {P}.
Arguments refVoting {P}.
Arguments refNextRound {P}.
Arguments refFresh {P}.

(** nextHeightDetails; its four nil-vote proofs are never set. *)
Record nextHeightDetails := MkNHD { nhd_ValidatorSet : ValidatorSet; VotedHeader : Header }.

Section kstate.
Context {P B : Type} `{BitSet B, !CMSP P B}.
Implicit Types (s : kState P) (v : VersionedRoundView P).

(** FindView: the identifier stands for the pointer to the view, ViewIDNotFound for nil. *)
Definition FindView (h r : Z) s : outcome (ViewID * ViewLookupStatus) :=
  let vh := vHeight s.(s_Voting) in
  let ch := vHeight s.(s_Committing) in
  if h =? vh then
    let vr := vRound s.(s_Voting) in
    Ret (if r =? vr then (ViewIDVoting, ViewFound)
         else if r =? u32 (vr + 1) then (ViewIDNextRound, ViewFound)
         else if r <? vr then (ViewIDNotFound, ViewOrphaned)
         else (ViewIDNotFound, ViewLaterVotingRound))
  else
    let cr := vRound s.(s_Committing) in
    if (h =? ch) && (r =? cr) then Ret (ViewIDCommitting, ViewFound)
    else if (h =? ch) && (r <? cr) then Ret (ViewIDNotFound, ViewBeforeCommitting)
    else if h <? ch then Ret (ViewIDNotFound, ViewBeforeCommitting)
    else if vh <? h then Ret (ViewIDNotFound, ViewFuture)
    else Panic "TODO: unhandled attempt to find view".

(** The view an identifier points to, and assignment through the pointer. *)
Definition viewOf (id : ViewID) s : VersionedRoundView P :=
  match id with
  | ViewIDCommitting => s.(s_Committing)
  | ViewIDNextRound => s.(s_NextRound)
  | _ => s.(s_Voting)
  end.
Definition setView (id : ViewID) v s : kState P :=
  match id with
  | ViewIDCommitting => {| s with s_Committing := v |}
  | ViewIDNextRound => {| s with s_NextRound := v |}
  | _ => {| s with s_Voting := v |}
  end.

Definition bumpVersion v : VersionedRoundView P := {| v with Version := u32 (v.(Version) + 1) |}.

(** [s.GossipViewManager.X.VRV = v.Clone()]. *)
Definition ovSet v (o : OutgoingView P) : OutgoingView P := {| o with ov_VRV := VRV_Clone v |}.

Definition MarkCommittingViewUpdated s : kState P :=
  let c := bumpVersion s.(s_Committing) in
  let g0 := s.(GossipViewManager) in
  let g := {| g0 with gvm_Committing := ovSet c g0.(gvm_Committing) |} in
  let m := s.(StateMachineViewManager) in
  let smh := smH m in
  let smr := smR m in
  let m' := if (smh =? vHeight c) && (smr =? vRound c) then SetView c m
            else if (smh <? vHeight c) || ((smh =? vHeight c) && (smr <? vRound c)) then JumpToRound c m
            else m in
  {| s with s_Committing := c; GossipViewManager := g; StateMachineViewManager := m' |}.

Definition MarkVotingViewUpdated s : kState P :=
  let v := bumpVersion s.(s_Voting) in
  let g0 := s.(GossipViewManager) in
  let g := {| g0 with gvm_Voting := ovSet v g0.(gvm_Voting) |} in
  let m := s.(StateMachineViewManager) in
  let m' := if (smH m =? vHeight v) && (smR m =? vRound v) then SetView v m else m in
  {| s with s_Voting := v; GossipViewManager := g; StateMachineViewManager := m' |}.

Definition MarkNextRoundViewUpdated s : kState P :=
  let v := bumpVersion s.(s_NextRound) in
  let g0 := s.(GossipViewManager) in
  let g := {| g0 with gvm_NextRound := ovSet v g0.(gvm_NextRound) |} in
  {| s with s_NextRound := v; GossipViewManager := g |}.

Definition MarkViewUpdated (id : ViewID) s : outcome (kState P) :=
  match id with
  | ViewIDCommitting => Ret (MarkCommittingViewUpdated s)
  | ViewIDVoting => Ret (MarkVotingViewUpdated s)
  | ViewIDNextRound => Ret (MarkNextRoundViewUpdated s)
  | _ => Panic "TODO: MarkViewUpdated: handle id"
  end.

(** The voting view of a new height. *)
Definition newVotingView (newHeight : Z) (vals : ValidatorSet) (pcp : CommitProof) : VersionedRoundView P :=
  {| vrv_RV := {| rv_Height := newHeight; rv_Round := 0; rv_ValidatorSet := vals;
                  rv_PrevCommitProof := pcp; rv_ProposedHeaders := [];
                  rv_PrevoteProofs := gm_make; rv_PrecommitProofs := gm_make;
                  rv_VoteSummary := SetAvailablePower vals.(Validators) NewVoteSummary |};
     Version := 0; PrevoteVersion := 1; PrecommitVersion := 1;
     PrevoteBlockVersions := None; PrecommitBlockVersions := None |}.

(** The NextRound view after Reset and the assignments that follow it. *)
Definition newNextRoundView (newHeight : Z) (vals : ValidatorSet) (pcp : CommitProof) (avail : Z) v :
  VersionedRoundView P :=
  let v0 := VRV_Reset v in
  let rv := v0.(vrv_RV) in
  {| v0 with vrv_RV := {| rv with rv_Height := newHeight; rv_Round := 1; rv_ValidatorSet := vals;
                                  rv_PrevCommitProof := CommitProof_Clone pcp;
                                  rv_VoteSummary := {| rv.(rv_VoteSummary) with AvailablePower := avail |} |};
             PrevoteVersion := 1; PrecommitVersion := 1 |}.

Definition clearPCP v : VersionedRoundView P :=
  vrv_upd (fun rv => {| rv with rv_PrevCommitProof :=
    {| rv.(rv_PrevCommitProof) with cp_Proofs := gm_clear rv.(rv_PrevCommitProof).(cp_Proofs) |} |}) v.

Definition commitProofsOf (m : gomap P) : gomap (list SparseSignature) :=
  Some ((fun p => (cmsp_AsSparse p).(ssp_Signatures)) <$> gm_map m).

(** ShiftVotingToCommitting: the new state, the identity of the map that NextRound.Reset clears, and
    the height-committed channel to close.  When the cleared map is the one that just moved to the
    Committing view, that view loses its previous commit proof. *)
Definition ShiftVotingToCommitting (nhd : nextHeightDetails) s : kState P * MapRef * option nat :=
  let '(h, ch) := HeightCommittedChan s.(StateMachineViewManager) in
  let ch := if h =? vHeight s.(s_Committing) then ch else None in
  let s1 := MarkCommittingViewUpdated
              {| s with s_Committing := s.(s_Voting); refCommitting := s.(refVoting) |} in
  let newHeight := u64 (vHeight s1.(s_Voting) + 1) in
  let c := s1.(s_Committing) in
  let pcp := MkCommitProof (vRound c) c.(vrv_RV).(rv_ValidatorSet).(PubKeyHash)
               (commitProofsOf (vPrecommits c)) in
  let s2 := MarkVotingViewUpdated
              {| s1 with s_Voting := newVotingView newHeight nhd.(nhd_ValidatorSet) pcp;
                         refVoting := s1.(refFresh); refFresh := S s1.(refFresh) |} in
  let cleared := s2.(refNextRound) in
  let s3 := {| s2 with
               s_Committing := if decide (s2.(refCommitting) = cleared) then clearPCP s2.(s_Committing)
                               else s2.(s_Committing);
               s_NextRound := newNextRoundView newHeight nhd.(nhd_ValidatorSet) (vPCP s2.(s_Voting))
                                (vSummary s2.(s_Voting)).(AvailablePower) s2.(s_NextRound);
               refNextRound := s2.(refFresh); refFresh := S s2.(refFresh) |} in
  let s4 := MarkNextRoundViewUpdated s3 in
  ({| s4 with CommittingHeader := nhd.(VotedHeader) |}, cleared, ch).

(** Swap NextRound and Voting, then clear the values of the new NextRound. *)
Definition incrementVotingRound s : kState P :=
  let s1 := MarkVotingViewUpdated
              {| s with s_Voting := s.(s_NextRound); s_NextRound := s.(s_Voting);
                        refVoting := s.(refNextRound); refNextRound := s.(refVoting) |} in
  let n := vrv_upd (fun rv => {| rv with rv_Round := u32 (vRound s1.(s_Voting) + 1) |})
             (VRV_ResetForSameHeight s1.(s_NextRound)) in
  MarkNextRoundViewUpdated {| s1 with s_NextRound := n |}.

Definition AdvanceVotingRound s : kState P :=
  let g0 := s.(GossipViewManager) in
  let g := {| g0 with NilVotedRound := Some (VRV_Clone s.(s_Voting)) |} in
  incrementVotingRound {| s with GossipViewManager := g |}.

Definition JumpVotingRound s : kState P :=
  let s1 := incrementVotingRound s in
  let m := s1.(StateMachineViewManager) in
  if (smH m =? vHeight s1.(s_Voting)) && (smR m =? u32 (vRound s1.(s_Voting) - 1))
  then {| s1 with StateMachineViewManager := JumpToRound s1.(s_Voting) m |}
  else s1.
End kstate.

(** * Invariants of the views *)
Section view_facts.
Context {P B : Type} `{BitSetLaws B, !CMSP P B}.
Implicit Types (s : kState P) (v : VersionedRoundView P) (rv : RoundView P).

(** A view whose vote maps exist and whose summary describes them. *)
Record rv_ok rv : Prop := {
  ro_prevotes : rv.(rv_PrevoteProofs) <> None;
  ro_precommits : rv.(rv_PrecommitProofs) <> None;
  ro_avail : rv.(rv_VoteSummary).(AvailablePower) = u64 (totalPowerZ rv.(rv_ValidatorSet).(Validators));
  ro_prevote_tally : tallied rv.(rv_ValidatorSet).(Validators) rv.(rv_PrevoteProofs)
    rv.(rv_VoteSummary).(TotalPrevotePower) rv.(rv_VoteSummary).(PrevoteBlockPower)
    rv.(rv_VoteSummary).(MostVotedPrevoteHash);
  ro_precommit_tally : tallied rv.(rv_ValidatorSet).(Validators) rv.(rv_PrecommitProofs)
    rv.(rv_VoteSummary).(TotalPrecommitPower) rv.(rv_VoteSummary).(PrecommitBlockPower)
    rv.(rv_VoteSummary).(MostVotedPrecommitHash)
}.

Definition view_ok v : Prop := rv_ok v.(vrv_RV).

Lemma tallied_empty vals (m : gomap P) : gm_map m = ∅ -> tallied vals m 0 (Some ∅) nilHash.
Proof.
  intros Hm. split.
  - unfold gm_entries. by rewrite Hm, map_to_list_empty.
  - by rewrite Hm, fmap_empty.
  - intros h p. unfold gm_get. by rewrite Hm.
  - intros h p. unfold gm_get. by rewrite Hm.
  - by left.
Qed.

Lemma tallied_block_some vals (m : gomap P) t b h : tallied vals m t b h -> b <> None.
Proof. intros [_ -> _ _ _]. done. Qed.

Lemma gm_map_clear {V} (m : gomap V) : gm_map (gm_clear m) = ∅.
Proof. by destruct m. Qed.

Lemma gm_clear_some {V} (m : gomap V) : m <> None -> gm_clear m = Some ∅.
Proof. by destruct m. Qed.

Lemma rv_ok_ResetForSameHeight rv : rv_ok rv -> rv_ok (RoundView_ResetForSameHeight rv).
Proof.
  intros [Hp Hc Ha Htp Htc]. apply tallied_block_some in Htp, Htc. split; simpl.
  - by rewrite gm_clear_some.
  - by rewrite gm_clear_some.
  - done.
  - rewrite (gm_clear_some (PrevoteBlockPower _)) by done. apply tallied_empty, gm_map_clear.
  - rewrite (gm_clear_some (PrecommitBlockPower _)) by done. apply tallied_empty, gm_map_clear.
Qed.

Lemma rv_ok_round rv r : rv_ok rv -> rv_ok {| rv with rv_Round := r |}.
Proof. intros []. by split. Qed.

Lemma rv_ok_pcp rv c : rv_ok rv -> rv_ok {| rv with rv_PrevCommitProof := c |}.
Proof. intros []. by split. Qed.

Lemma rv_ok_phs rv l : rv_ok rv -> rv_ok {| rv with rv_ProposedHeaders := l |}.
Proof. intros []. by split. Qed.

Lemma view_ok_newVoting nh vals pcp : view_ok (newVotingView nh vals pcp).
Proof.
  split; simpl; [done|done| | |].
  - rewrite <- (SetAvailablePower_spec _ NewVoteSummary). done.
  - by apply tallied_empty.
  - by apply tallied_empty.
Qed.

Lemma view_ok_newNextRound nh vals pcp v : view_ok v ->
  view_ok (newNextRoundView nh vals pcp (u64 (totalPowerZ vals.(Validators))) v).
Proof.
  intros [Hp Hc Ha Htp Htc]. apply tallied_block_some in Htp, Htc. split; simpl.
  - by rewrite gm_clear_some.
  - by rewrite gm_clear_some.
  - done.
  - rewrite (gm_clear_some (PrevoteBlockPower _)) by done. apply tallied_empty, gm_map_clear.
  - rewrite (gm_clear_some (PrecommitBlockPower _)) by done. apply tallied_empty, gm_map_clear.
Qed.

(** NextRound is the round after Voting, in the same height, for the same validators. *)
Record coherent s : Prop := {
  co_voting : view_ok s.(s_Voting);
  co_next : view_ok s.(s_NextRound);
  co_height : vHeight s.(s_NextRound) = vHeight s.(s_Voting);
  co_round : vRound s.(s_NextRound) = u32 (vRound s.(s_Voting) + 1);
  co_vals : s.(s_NextRound).(vrv_RV).(rv_ValidatorSet) = s.(s_Voting).(vrv_RV).(rv_ValidatorSet)
}.

Lemma coherent_views s s' :
  s'.(s_Voting).(vrv_RV) = s.(s_Voting).(vrv_RV) ->
  s'.(s_NextRound).(vrv_RV) = s.(s_NextRound).(vrv_RV) -> coherent s -> coherent s'.
Proof.
  unfold vHeight, vRound. intros Hv Hn [H1 H2 H3 H4 H5]. unfold view_ok, vHeight, vRound in *.
  split; unfold view_ok, vHeight, vRound; by rewrite ?Hv, ?Hn.
Qed.

(** ** What the shifts do to the views *)
Lemma Shift_views nhd s s' cleared ch : ShiftVotingToCommitting nhd s = (s', cleared, ch) ->
  s'.(s_Voting).(vrv_RV) = (newVotingView (u64 (vHeight s.(s_Voting) + 1)) nhd.(nhd_ValidatorSet)
    (MkCommitProof (vRound s.(s_Voting)) s.(s_Voting).(vrv_RV).(rv_ValidatorSet).(PubKeyHash)
       (commitProofsOf (vPrecommits s.(s_Voting))))).(vrv_RV) /\
  s'.(s_NextRound).(vrv_RV) = (newNextRoundView (u64 (vHeight s.(s_Voting) + 1)) nhd.(nhd_ValidatorSet)
    (vPCP s'.(s_Voting)) (vSummary s'.(s_Voting)).(AvailablePower) s.(s_NextRound)).(vrv_RV) /\
  (s'.(s_Committing).(vrv_RV) = s.(s_Voting).(vrv_RV) \/
   s'.(s_Committing).(vrv_RV) = (clearPCP s.(s_Voting)).(vrv_RV)) /\
  s'.(CommittingHeader) = nhd.(VotedHeader).
Proof.
  unfold ShiftVotingToCommitting. destruct (HeightCommittedChan _) as [h c].
  intros [= <- _ _]. cbn -[u64 newNextRoundView]. split_and!; [done|done| |done].
  destruct (decide _); [by right|by left].
Qed.

Lemma increment_views s :
  (incrementVotingRound s).(s_Voting).(vrv_RV) = s.(s_NextRound).(vrv_RV) /\
  (incrementVotingRound s).(s_NextRound).(vrv_RV) =
    (let rv := RoundView_ResetForSameHeight s.(s_Voting).(vrv_RV) in
     {| rv with rv_Round := u32 (vRound s.(s_NextRound) + 1) |}) /\
  (incrementVotingRound s).(s_Committing) = s.(s_Committing) /\
  (incrementVotingRound s).(CommittingHeader) = s.(CommittingHeader).
Proof. done. Qed.

Lemma coherent_increment s : coherent s -> coherent (incrementVotingRound s).
Proof.
  intros [Hv Hn Hh Hr Hvals]. destruct (increment_views s) as (Ev & En & _).
  unfold view_ok, vHeight, vRound in *. split; unfold view_ok, vHeight, vRound; rewrite ?Ev, ?En; simpl.
  - done.
  - by apply (rv_ok_round (RoundView_ResetForSameHeight (vrv_RV (s_Voting s)))), rv_ok_ResetForSameHeight.
  - done.
  - done.
  - done.
Qed.

Lemma Advance_views s :
  (AdvanceVotingRound s).(s_Voting) = (incrementVotingRound s).(s_Voting) /\
  (AdvanceVotingRound s).(s_NextRound) = (incrementVotingRound s).(s_NextRound) /\
  (AdvanceVotingRound s).(s_Committing) = s.(s_Committing) /\
  (AdvanceVotingRound s).(CommittingHeader) = s.(CommittingHeader).
Proof. done. Qed.

Lemma Jump_views s :
  (JumpVotingRound s).(s_Voting) = (incrementVotingRound s).(s_Voting) /\
  (JumpVotingRound s).(s_NextRound) = (incrementVotingRound s).(s_NextRound) /\
  (JumpVotingRound s).(s_Committing) = s.(s_Committing) /\
  (JumpVotingRound s).(CommittingHeader) = s.(CommittingHeader).
Proof. unfold JumpVotingRound. by destruct (_ && _). Qed.

Lemma coherent_Shift nhd s s' cleared ch : coherent s ->
  ShiftVotingToCommitting nhd s = (s', cleared, ch) -> coherent s'.
Proof.
  intros Hs Heq. destruct (Shift_views _ _ _ _ _ Heq) as (Ev & En & _).
  assert (Ha : (vSummary s'.(s_Voting)).(AvailablePower) = u64 (totalPowerZ nhd.(nhd_ValidatorSet).(Validators))).
  { unfold vSummary. rewrite Ev. simpl. rewrite <- (SetAvailablePower_spec _ NewVoteSummary). done. }
  rewrite Ha in En. split.
  - unfold view_ok. rewrite Ev. apply view_ok_newVoting.
  - unfold view_ok. rewrite En. apply view_ok_newNextRound, Hs.
  - unfold vHeight. by rewrite Ev, En.
  - unfold vRound. by rewrite Ev, En.
  - by rewrite Ev, En.
Qed.
End view_facts.

(** * Properties *)

(** FindView, on a state whose NextRound follows Voting and whose committing height is below the
    voting height.  A found view has the requested height and round; the not-found statuses describe
    exactly where the request lies; ViewWrongCommit is never returned; and FindView panics exactly for
    heights from the committing height up to (not including) the voting height, when, at the
    committing height itself, the round is later than the committing round. *)
Theorem FindView_spec {P : Type} (h r : Z) (s : kState P) :
  vHeight s.(s_Committing) < vHeight s.(s_Voting) ->
  vHeight s.(s_NextRound) = vHeight s.(s_Voting) ->
  vRound s.(s_NextRound) = u32 (vRound s.(s_Voting) + 1) ->
  match FindView h r s with
  | Ret (id, ViewFound) =>
      id ∈ [ViewIDVoting; ViewIDCommitting; ViewIDNextRound] /\
      vHeight (viewOf id s) = h /\ vRound (viewOf id s) = r
  | Ret (id, ViewBeforeCommitting) =>
      id = ViewIDNotFound /\ (h < vHeight s.(s_Committing) \/
        (h = vHeight s.(s_Committing) /\ r < vRound s.(s_Committing)))
  | Ret (id, ViewOrphaned) => id = ViewIDNotFound /\ h = vHeight s.(s_Voting) /\ r < vRound s.(s_Voting)
  | Ret (id, ViewLaterVotingRound) =>
      id = ViewIDNotFound /\ h = vHeight s.(s_Voting) /\ vRound s.(s_Voting) < r /\
      r <> vRound s.(s_NextRound)
  | Ret (id, ViewFuture) => id = ViewIDNotFound /\ vHeight s.(s_Voting) < h
  | Ret (_, ViewWrongCommit) => False
  | Panic _ =>
      vHeight s.(s_Committing) <= h < vHeight s.(s_Voting) /\
      (h = vHeight s.(s_Committing) -> vRound s.(s_Committing) < r)
  end.
Proof.
  intros Hlt Hh Hr. unfold FindView.
  destruct (Z.eqb_spec h (vHeight (s_Voting s))) as [->|Hne].
  - destruct (Z.eqb_spec r (vRound (s_Voting s))) as [->|Hr1]; [set_solver|].
    destruct (Z.eqb_spec r (u32 (vRound (s_Voting s) + 1))) as [->|Hr2].
    { split; [set_solver|]. simpl. by rewrite Hh, Hr. }
    destruct (Z.ltb_spec r (vRound (s_Voting s))); [done|]. split_and!; [done|done|lia|congruence].
  - destruct (Z.eqb_spec h (vHeight (s_Committing s))) as [->|Hc]; simpl.
    + destruct (Z.eqb_spec r (vRound (s_Committing s))) as [->|Hr1]; simpl; [set_solver|].
      destruct (Z.ltb_spec r (vRound (s_Committing s))); simpl; [split; [done|right; done]|].
      rewrite Z.ltb_irrefl. destruct (Z.ltb_spec (vHeight (s_Voting s)) (vHeight (s_Committing s))); lia.
    + destruct (Z.ltb_spec h (vHeight (s_Committing s))); [split; [done|lia]|].
      destruct (Z.ltb_spec (vHeight (s_Voting s)) h); [split; [done|lia]|lia].
Qed.

(** A state voting at height 6, round 2, after committing height 5 in round 1. *)
Definition viewAt (h r : Z) : VersionedRoundView (SimpleProof (gset nat)) :=
  vrv_upd (fun rv => {| rv with rv_Height := h; rv_Round := r |}) VRV_zero.
Definition exampleKState : kState (SimpleProof (gset nat)) :=
  MkKState (viewAt 5 1) (viewAt 6 2) (viewAt 6 3) ∅ Header_zero (newStateMachineViewManager false)
    (newGossipViewManager true) (newLagManager false) 0%nat 1%nat 2%nat 3%nat.

Lemma FindView_spec_witness :
  FindView 5 2 exampleKState = Panic "TODO: unhandled attempt to find view" /\
  vHeight exampleKState.(s_Committing) <= 5 < vHeight exampleKState.(s_Voting) /\
  (5 = vHeight exampleKState.(s_Committing) -> vRound exampleKState.(s_Committing) < 2).
Proof.
  split; [reflexivity|]. apply (FindView_spec 5 2 exampleKState); reflexivity.
Defined.
