(* ===== verification/KernelBase.v ===== *)
(** The vocabulary of the mirror kernel: its requests and responses (votes.go, phcheck.go, snapshot.go,
    viewlookup.go of tmi, and the values of tmeil and tmelink), its configuration, and the state and
    outcome monad its handlers run in. *)
From S2P Require Import Prelude Types BitSets SigProof RoundView Stores Managers KState.

(** * Requests and responses *)

Record VoteUpdate (P : Type) := MkVoteUpdate { vu_Proof : P; PrevVersion : Z }.
Arguments MkVoteUpdate {P}.
Arguments vu_Proof {P}.
Arguments PrevVersion {P}.

(** The updates are the entries of a Go map; [Response] says whether the request has a response
    channel. *)
Record AddPrevoteRequest (P : Type) := MkAddPrevote {
  apv_H : Z; apv_R : Z; PrevoteUpdates : gmap bytes (VoteUpdate P); apv_Response : bool
}.
Arguments MkAddPrevote {P}.
Arguments apv_H {P}.
Arguments apv_R {P}.
Arguments PrevoteUpdates {P}.
Arguments apv_Response {P}.

Record AddPrecommitRequest (P : Type) := MkAddPrecommit {
  apc_H : Z; apc_R : Z; PrecommitUpdates : gmap bytes (VoteUpdate P); apc_Response : bool
}.
Arguments MkAddPrecommit {P}.
Arguments apc_H {P}.
Arguments apc_R {P}.
Arguments PrecommitUpdates {P}.
Arguments apc_Response {P}.

Inductive AddVoteResult := AddVoteAccepted | AddVoteConflict | AddVoteOutOfDate.

#[export] Instance AddVoteResult_eq_dec : EqDecision AddVoteResult.
Proof. solve_decision. Defined.

Inductive PHCheckStatus :=
| PHCheckInvalid | PHCheckAcceptable | PHCheckNextHeight | PHCheckAlreadyHaveSignature
| PHCheckSignerUnrecognized | PHCheckRoundTooOld | PHCheckRoundTooFarInFuture.

#[export] Instance PHCheckStatus_eq_dec : EqDecision PHCheckStatus.
Proof. solve_decision. Defined.

Record PHCheckResponse (P : Type) := MkPHCheckResponse {
  phc_Status : PHCheckStatus;
  phc_ProposerPubKey : option PubKey;
  phc_PrevBlockHash : bytes;
  phc_PrevValidatorSet : ValidatorSet;
  phc_VotingRoundView : option (RoundView P)
}.
Arguments MkPHCheckResponse {P}.
Arguments phc_Status {P}.
Arguments phc_ProposerPubKey {P}.
Arguments phc_PrevBlockHash {P}.
Arguments phc_PrevValidatorSet {P}.
Arguments phc_VotingRoundView {P}.

Definition PHCheckResponse_zero {P} : PHCheckResponse P :=
  MkPHCheckResponse PHCheckInvalid None nilHash ValidatorSet_zero None.

(** RVFieldFlags. *)
Definition RVValidators : Z := 1.
Definition RVProposedBlocks : Z := 2.
Definition RVPrevotes : Z := 4.
Definition RVPrecommits : Z := 8.
Definition RVVoteSummary : Z := 16.
Definition RVPrevCommitProof : Z := 32.
Definition RVAll : Z :=
  Z.lor RVValidators (Z.lor RVProposedBlocks (Z.lor RVPrevotes
    (Z.lor RVPrecommits (Z.lor RVVoteSummary RVPrevCommitProof)))).

Definition hasField (fields flag : Z) : bool := 0 <? Z.land fields flag.

(** A lookup request carries the view the kernel overwrites. *)
Record ViewLookupRequest (P : Type) := MkViewLookup {
  vl_H : Z; vl_R : Z; vl_Fields : Z; vl_VRV : VersionedRoundView P; vl_Reason : string
}.
Arguments MkViewLookup {P}.
Arguments vl_H {P}.
Arguments vl_R {P}.
Arguments vl_Fields {P}.
Arguments vl_VRV {P}.
Arguments vl_Reason {P}.

Record ViewLookupResponse := MkViewLookupResponse { vlr_ID : ViewID; vlr_Status : ViewLookupStatus }.

Record SnapshotRequest (P : Type) := MkSnapshot {
  sn_Voting : option (VersionedRoundView P);
  sn_Committing : option (VersionedRoundView P);
  sn_Fields : Z
}.
Arguments MkSnapshot {P}.
Arguments sn_Voting {P}.
Arguments sn_Committing {P}.
Arguments sn_Fields {P}.

Record ScopedSignature := MkScopedSignature { TargetHash : bytes; SignContent : bytes; sc_Sig : bytes }.

Record StateMachineRoundAction := MkAction {
  act_PH : ProposedHeader; act_Prevote : ScopedSignature; act_Precommit : ScopedSignature
}.

Record RoundEntranceResponse (P : Type) := MkRER {
  rer_VRV : VersionedRoundView P; rer_CH : CommittedHeader
}.
Arguments MkRER {P}.
Arguments rer_VRV {P}.
Arguments rer_CH {P}.

Definition CommittedHeader_zero : CommittedHeader := MkCommittedHeader Header_zero CommitProof_zero.

Record ProposedHeaderFetchRequest := MkFetch { pfr_Height : Z; pfr_BlockHash : bytes }.

(** * The kernel's configuration *)
Record Kernel := MkKernel {
  k_hashScheme : HashScheme;
  k_sigScheme : SignatureScheme;
  k_initialHeight : Z;
  k_initialValSet : ValidatorSet;
  (** The buffer of the FetchRequests channel. *)
  k_fetchCap : nat
}.

(** * What the kernel sends *)
Inductive Event (P : Type) :=
| EvFetchCancelled (hash : bytes)
| EvVote (r : AddVoteResult)
| EvPHCheck (r : PHCheckResponse P)
| EvLookup (r : ViewLookupResponse) (vrv : VersionedRoundView P)
| EvSnapshot (voting committing : option (VersionedRoundView P))
| EvRoundEntrance (r : RoundEntranceResponse P)
| EvHeightCommitted (ch : nat)
| EvReplayed (err : option error)
| EvGossip (u : NetworkViewUpdate P)
| EvStateMachine (v : StateMachineRoundView P)
| EvLag (s : LagState).
Arguments EvFetchCancelled {P}.
Arguments EvVote {P}.
Arguments EvPHCheck {P}.
Arguments EvLookup {P}.
Arguments EvSnapshot {P}.
Arguments EvRoundEntrance {P}.
Arguments EvHeightCommitted {P}.
Arguments EvReplayed {P}.
Arguments EvGossip {P}.
Arguments EvStateMachine {P}.
Arguments EvLag {P}.

(** * The kernel monad

    The world a handler acts on: the kernel's state, the state of its stores, the requests
    buffered for the proposed header fetcher, and everything it has sent, in order. *)
Record World (P ST : Type) := MkWorld {
  w_k : kState P;
  w_st : ST;
  w_fetchQ : list ProposedHeaderFetchRequest;
  w_out : list (Event P)
}.
Arguments MkWorld {P ST}.
Arguments w_k {P ST}.
Arguments w_st {P ST}.
Arguments w_fetchQ {P ST}.
Arguments w_out {P ST}.

Definition K (P ST A : Type) : Type := World P ST -> outcome (A * World P ST).

#[export] Instance K_ret P ST : MRet (K P ST) := fun A a w => Ret (a, w).
#[export] Instance K_bind P ST : MBind (K P ST) :=
  fun A C f m w => r ← m w; f r.1 r.2.

Section monad.
Context {P ST : Type}.

Definition getK : K P ST (kState P) := fun w => Ret (w.(w_k), w).
Definition gets {A} (f : kState P -> A) : K P ST A := fun w => Ret (f w.(w_k), w).
Definition modK (f : kState P -> kState P) : K P ST unit :=
  fun w => Ret (tt, {| w with w_k := f w.(w_k) |}).
Definition modKO (f : kState P -> outcome (kState P)) : K P ST unit :=
  fun w => k ← f w.(w_k); Ret (tt, {| w with w_k := k |}).
Definition liftO {A} (m : outcome A) : K P ST A := fun w => a ← m; Ret (a, w).
Definition panicK {A} (msg : string) : K P ST A := fun w => Panic msg.
Definition emit (e : Event P) : K P ST unit := fun w => Ret (tt, {| w with w_out := w.(w_out) ++ [e] |}).
Definition getStore {A} (f : ST -> A) : K P ST A := fun w => Ret (f w.(w_st), w).
Definition modStore (f : ST -> ST) : K P ST unit := fun w => Ret (tt, {| w with w_st := f w.(w_st) |}).
Definition callStore (f : ST -> ST * option error) : K P ST (option error) :=
  fun w => let r := f w.(w_st) in Ret (r.2, {| w with w_st := r.1 |}).
Definition callStoreO (f : ST -> outcome (ST * option error)) : K P ST (option error) :=
  fun w => r ← f w.(w_st); Ret (r.2, {| w with w_st := r.1 |}).
Definition getW : K P ST (World P ST) := fun w => Ret (w, w).
Definition pushFetch (r : ProposedHeaderFetchRequest) : K P ST unit :=
  fun w => Ret (tt, {| w with w_fetchQ := w.(w_fetchQ) ++ [r] |}).

(** A Go loop over a list. *)
Fixpoint forK {A} (f : A -> K P ST unit) (l : list A) : K P ST unit :=
  match l with [] => mret tt | a :: l => _ ← f a; forK f l end.

(** Partial correctness of a computation from a world. *)
Definition wp {A} (m : K P ST A) (w : World P ST) (Q : A -> World P ST -> Prop) : Prop :=
  okay (m w) (fun r => Q r.1 r.2).

Lemma wp_ret {A} (a : A) w (Q : A -> World P ST -> Prop) : Q a w -> wp (mret a) w Q.
Proof. done. Qed.

Lemma wp_bind {A C} (m : K P ST A) (f : A -> K P ST C) w Q :
  wp m w (fun a w' => wp (f a) w' Q) -> wp (m ≫= f) w Q.
Proof.
  unfold wp. intros H. change (okay (m w ≫= (fun r => f r.1 r.2)) (fun r => Q r.1 r.2)).
  by apply okay_bind.
Qed.

Lemma wp_mono {A} (m : K P ST A) w (Q R : A -> World P ST -> Prop) :
  (forall a w', Q a w' -> R a w') -> wp m w Q -> wp m w R.
Proof. intros H. apply okay_mono. intros [a w']. apply H. Qed.

Lemma wp_conj {A} (m : K P ST A) w (Q R : A -> World P ST -> Prop) :
  wp m w Q -> wp m w R -> wp m w (fun a w' => Q a w' /\ R a w').
Proof. apply okay_and. Qed.

Lemma wp_liftO {A} (m : outcome A) w Q : okay m (fun a => Q a w) -> wp (liftO m) w Q.
Proof. unfold wp, liftO. by destruct m. Qed.

Lemma wp_liftO_eq {A} (m : outcome A) w (Q : A -> World P ST -> Prop) :
  (forall a, m = Ret a -> Q a w) -> wp (liftO m) w Q.
Proof. intros H. apply wp_liftO, okay_intro, H. Qed.

Lemma wp_panic {A} msg w (Q : A -> World P ST -> Prop) : wp (panicK msg) w Q.
Proof. done. Qed.

Lemma wp_modKO f w (Q : unit -> World P ST -> Prop) :
  (forall k, f w.(w_k) = Ret k -> Q tt {| w with w_k := k |}) -> wp (modKO f) w Q.
Proof. unfold wp, modKO. destruct (f _); simpl; auto. Qed.

Lemma wp_callStoreO f w (Q : option error -> World P ST -> Prop) :
  (forall s e, f w.(w_st) = Ret (s, e) -> Q e {| w with w_st := s |}) -> wp (callStoreO f) w Q.
Proof. unfold wp, callStoreO. destruct (f _) as [[s e]|]; simpl; auto. Qed.

Lemma wp_callStore f w (Q : option error -> World P ST -> Prop) :
  (forall s e, f w.(w_st) = (s, e) -> Q e {| w with w_st := s |}) -> wp (callStore f) w Q.
Proof. unfold wp, callStore. destruct (f _) as [s e]; simpl; auto. Qed.

Lemma wp_run {A} (m : K P ST A) w Q a w' : wp m w Q -> m w = Ret (a, w') -> Q a w'.
Proof. unfold wp. intros H Hr. rewrite Hr in H. exact H. Qed.

Lemma wp_intro {A} (m : K P ST A) w (Q : A -> World P ST -> Prop) :
  (forall a w', m w = Ret (a, w') -> Q a w') -> wp m w Q.
Proof. intros H. apply okay_intro. intros [a w']. apply H. Qed.

(** The loop rule, for an invariant that does not look at the position. *)
Lemma wp_forK {A} (f : A -> K P ST unit) l (I : World P ST -> Prop) w :
  (forall a w, a ∈ l -> I w -> wp (f a) w (fun _ => I)) -> I w -> wp (forK f l) w (fun _ => I).
Proof.
  revert w. induction l as [|a l IH]; intros w Hf Hi; simpl; [done|].
  apply wp_bind. eapply wp_mono; [|apply Hf; [set_solver|done]]. intros [] w' Hi'.
  apply IH; [|done]. intros b w'' Hb. apply Hf. set_solver.
Qed.
End monad.
