(* ===== verification/Kernel.v ===== *)
(** The mirror kernel's handlers
    (tm/tmengine/internal/tmmirror/internal/tmi/kernel.go): adding headers and votes, the view shifts,
    fetches of missing headers, and the responses to the mirror and the state machine.

    Handlers run in the monad of KernelBase.  A successful view lookup names one of the three views, so
    the panics of the methods on any other identifier cannot fire after it.  Log calls and trace regions are left out.  The context is
    live: a cancelled context stops the main loop. *)
From S2P Require Import Prelude Types BitSets Powers SigProof SimpleProofs VoteSummary RoundView.
From S2P Require Import Stores Managers KState KernelBase.

Section kernel.
Context {P B ST : Type} `{BitSet B, !CMSP P B, !CMSPScheme P, !KernelStores ST}.
Context (k : Kernel).
Local Abbreviation M := (K P ST).

(** The error a call returned, wrapped. *)
Definition wrapErr (msg : string) (e : option error) : option error := ErrWrap msg <$> e.

(** ** Observers and shifts *)

Definition updateObservers : M (option error) :=
  s ← getK;
  e ← callStore (ks_SetNetworkHeightRound
                   (MkNHR (vHeight s.(s_Voting)) (vRound s.(s_Voting))
                          (vHeight s.(s_Committing)) (vRound s.(s_Committing))));
  mret (wrapErr "failed to update mirror store with new heights and rounds" e).

Definition advanceVotingRound : M (option error) :=
  _ ← modK AdvanceVotingRound;
  e ← updateObservers;
  mret (wrapErr "failed to update observers after advancing voting round" e).

(** The new round argument is not used. *)
Definition jumpVotingRound (newRound : Z) : M (option error) :=
  _ ← modK JumpVotingRound;
  e ← updateObservers;
  mret (wrapErr "failed to update observers after jumping voting round" e).

(** ShiftVotingToCommitting with its effects outside the kernel's state: the cleared map may be held
    by the header store, and the height-committed channel is closed. *)
Definition shiftVotingToCommitting (nhd : nextHeightDetails) : M unit :=
  s ← getK;
  let '(s', cleared, ch) := ShiftVotingToCommitting nhd s in
  _ ← modK (fun _ => s');
  _ ← modStore (ks_mapCleared cleared);
  match ch with Some c => emit (EvHeightCommitted c) | None => mret tt end.

Definition saveCurrentCommittingHeader : M (option error) :=
  s ← getK;
  e ← callStore (ks_SaveCommittedHeader s.(refVoting)
                   (MkCommittedHeader s.(CommittingHeader) (vPCP s.(s_Voting))));
  mret (wrapErr "failed to save newly committed header" e).

(** ** Missing proposed headers *)

(** The hashes with votes, other than nil, whose proposed header is neither in the voting view nor
    being fetched. *)
Definition missingPHs (s : kState P) (proofs : gomap P) : list bytes :=
  let have : gset bytes := list_to_set (map (fun ph => ph.(ph_Header).(Hash)) (vPHs s.(s_Voting))) in
  let missing := List.filter (fun h => negb (String.eqb h nilHash) && negb (bool_decide (h ∈ have)))
                   (gm_entries proofs).*1 in
  List.filter (fun h => negb (bool_decide (h ∈ s.(InFlightFetchPHs)))) missing.

(** The non-blocking send: it succeeds while the channel's buffer has room. *)
Definition tryFetch (dist : voteDistribution) (min : Z) (hash : bytes) : M unit :=
  if default 0 (dist.(BlockVotePower) !! hash) <? min then mret tt
  else
    w ← getW;
    if bool_decide (length w.(w_fetchQ) < k.(k_fetchCap))%nat then
      _ ← pushFetch (MkFetch (vHeight w.(w_k).(s_Voting)) hash);
      modK (fun s => {| s with InFlightFetchPHs := {[hash]} ∪ s.(InFlightFetchPHs) |})
    else mret tt.

(** The capacity hint len(proofs)-1 is negative when there are no proofs. *)
Definition checkMissingPHs (proofs : gomap P) : M unit :=
  if bool_decide (gm_len proofs = 0%nat) then panicK "runtime error: makeslice: cap out of range"
  else
    s ← getK;
    let missing := missingPHs s proofs in
    if bool_decide (missing = []) then mret tt
    else
      let dist := newVoteDistribution proofs (vVals s.(s_Voting)) in
      min ← liftO (ByzantineMinority dist.(AvailableVotePower));
      forK (tryFetch dist min) missing.

(** ** View shifts *)

(** The first proposed header of the view with the given hash. *)
Definition findPH (hash : bytes) (phs : list ProposedHeader) : option ProposedHeader :=
  List.find (fun ph => String.eqb ph.(ph_Header).(Hash) hash) phs.

Definition checkVotingPrecommitViewShift : M (option error) :=
  s ← getK;
  let vrv := s.(s_Voting) in
  let vs := vSummary vrv in
  maj ← liftO (ByzantineMajority vs.(AvailablePower));
  let committingHash := vs.(MostVotedPrecommitHash) in
  let highestPow := gm_getz 0 vs.(PrecommitBlockPower) committingHash in
  if highestPow <? maj then
    if vs.(TotalPrecommitPower) =? vs.(AvailablePower) then advanceVotingRound else mret None
  else if String.eqb committingHash nilHash then advanceVotingRound
  else
    match findPH committingHash (vPHs vrv) with
    | None => mret None
    | Some ph =>
        let votedHeader := ph.(ph_Header) in
        _ ← shiftVotingToCommitting (MkNHD votedHeader.(NextValidatorSet) votedHeader);
        e ← saveCurrentCommittingHeader;
        match e with
        | Some e => mret (Some e)
        | None => updateObservers
        end
    end.

Definition checkNextRoundPrecommitViewShift : M (option error) :=
  s ← getK;
  let vs := vSummary s.(s_NextRound) in
  min ← liftO (ByzantineMinority vs.(AvailablePower));
  if vs.(TotalPrecommitPower) <? min then mret None
  else
    e ← jumpVotingRound (u32 (vRound s.(s_NextRound) + 1));
    match e with
    | Some e => mret (Some e)
    | None =>
        maj ← liftO (ByzantineMajority vs.(AvailablePower));
        let maxPow := gm_getz 0 vs.(PrecommitBlockPower) vs.(MostVotedPrecommitHash) in
        if maj <=? maxPow then panicK "TODO: handle a majority precommit for NextRound"
        else
          _ ← (if min <=? maxPow then proofs ← gets (fun s => vPrecommits s.(s_Voting)); checkMissingPHs proofs
               else mret tt);
          mret None
    end.

Definition checkPrevoteViewShift (vID : ViewID) : M (option error) :=
  if negb (bool_decide (vID = ViewIDNextRound)) then panicK "BUG: unhandled view ID in checkPrecommitViewShift"
  else
    s ← getK;
    let vs := vSummary s.(s_NextRound) in
    min ← liftO (ByzantineMinority vs.(AvailablePower));
    if vs.(TotalPrevotePower) <? min then mret None
    else
      e ← jumpVotingRound (u32 (vRound s.(s_NextRound) + 1));
      match e with
      | Some e => mret (Some e)
      | None =>
          _ ← (if min <=? gm_getz 0 vs.(PrevoteBlockPower) vs.(MostVotedPrevoteHash)
               then proofs ← gets (fun s => vPrevotes s.(s_Voting)); checkMissingPHs proofs
               else mret tt);
          mret None
      end.

(** ** Adding votes *)

(** One update of the loop of addPrevote or addPrecommit on the proofs and block versions of the view
    (a version map is created when it is nil): allAccepted and anyAdded. *)
Definition applyUpdate (acc : gomap P * gomap Z * bool * bool) (e : bytes * VoteUpdate P) :
  outcome (gomap P * gomap Z * bool * bool) :=
  let '(proofs, versions, allAccepted, anyAdded) := acc in
  let '(blockHash, u) := e in
  if u.(PrevVersion) =? gm_getz 0 versions blockHash then
    proofs' ← gm_set blockHash u.(vu_Proof) proofs;
    let versions' := Some (<[blockHash := u32 (gm_getz 0 versions blockHash + 1)]> (gm_map versions)) in
    Ret (proofs', versions', allAccepted, true)
  else Ret (proofs, versions, false, anyAdded).

Definition applyUpdates (proofs : gomap P) (versions : gomap Z) (updates : gmap bytes (VoteUpdate P)) :
  outcome (gomap P * gomap Z * bool * bool) :=
  foldO applyUpdate (proofs, versions, true, false) (map_to_list updates).

Definition respond (hasResponse : bool) (r : AddVoteResult) : M unit :=
  if hasResponse then emit (EvVote r) else mret tt.

(** What both methods do when no view was found. *)
Definition voteViewNotFound (status : ViewLookupStatus) (hasResponse : bool) : M unit :=
  match status with
  | ViewBeforeCommitting | ViewOrphaned | ViewWrongCommit => respond hasResponse AddVoteOutOfDate
  | _ => panicK "TODO: handle unexpected view status when looking up view to add vote"
  end.

(** The view with new prevote proofs and block versions. *)
Definition withPrevotes (vrv : VersionedRoundView P) (proofs : gomap P) (versions : gomap Z) :
  VersionedRoundView P :=
  let rv := vrv.(vrv_RV) in
  {| vrv with vrv_RV := {| rv with rv_PrevoteProofs := proofs |}; PrevoteBlockVersions := versions |}.

(** The bookkeeping after at least one update was applied: summary, version, store. *)
Definition recordPrevotes (vID : ViewID) (h r : Z) : M unit :=
  vrv ← gets (viewOf vID);
  vs ← liftO (SetPrevotePowers (vVals vrv) (vPrevotes vrv) (vSummary vrv));
  _ ← modK (setView vID (vrv_upd (fun rv => {| rv with rv_VoteSummary := vs |}) vrv));
  _ ← modKO (MarkViewUpdated vID);
  c ← liftO (mapToSparseSignatureCollection (vPrevotes vrv));
  _ ← callStore (ks_OverwriteRoundPrevoteProofs h r c);
  mret tt.

Definition addPrevote (req : AddPrevoteRequest P) : M unit :=
  s ← getK;
  f ← liftO (FindView req.(apv_H) req.(apv_R) s);
  let '(vID, vStatus) := f in
  if negb (bool_decide (vStatus = ViewFound)) then voteViewNotFound vStatus req.(apv_Response)
  else
    let vrv := viewOf vID s in
    r ← liftO (applyUpdates (vPrevotes vrv) vrv.(PrevoteBlockVersions) req.(PrevoteUpdates));
    let '(proofs, versions, allAccepted, anyAdded) := r in
    _ ← modK (setView vID (withPrevotes vrv proofs versions));
    _ ← (if anyAdded : bool then recordPrevotes vID req.(apv_H) req.(apv_R) else mret tt);
    let res := if allAccepted : bool then AddVoteAccepted else AddVoteConflict in
    _ ← respond req.(apv_Response) res;
    _ ← checkMissingPHs proofs;
    if bool_decide (res = AddVoteAccepted) && bool_decide (vID = ViewIDNextRound)
    then _ ← checkPrevoteViewShift vID; mret tt
    else mret tt.

(** The view with new precommit proofs and block versions. *)
Definition withPrecommits (vrv : VersionedRoundView P) (proofs : gomap P) (versions : gomap Z) :
  VersionedRoundView P :=
  let rv := vrv.(vrv_RV) in
  {| vrv with vrv_RV := {| rv with rv_PrecommitProofs := proofs |}; PrecommitBlockVersions := versions |}.

(** The bookkeeping after at least one update was applied: summary, version, store. *)
Definition recordPrecommits (vID : ViewID) (h r : Z) : M unit :=
  vrv ← gets (viewOf vID);
  vs ← liftO (SetPrecommitPowers (vVals vrv) (vPrecommits vrv) (vSummary vrv));
  _ ← modK (setView vID (vrv_upd (fun rv => {| rv with rv_VoteSummary := vs |}) vrv));
  _ ← modKO (MarkViewUpdated vID);
  c ← liftO (mapToSparseSignatureCollection (vPrecommits vrv));
  _ ← callStore (ks_OverwriteRoundPrecommitProofs h r c);
  mret tt.

Definition addPrecommit (req : AddPrecommitRequest P) : M unit :=
  s ← getK;
  f ← liftO (FindView req.(apc_H) req.(apc_R) s);
  let '(vID, vStatus) := f in
  if negb (bool_decide (vStatus = ViewFound)) then voteViewNotFound vStatus req.(apc_Response)
  else
    let vrv := viewOf vID s in
    r ← liftO (applyUpdates (vPrecommits vrv) vrv.(PrecommitBlockVersions) req.(PrecommitUpdates));
    let '(proofs, versions, allAccepted, anyAdded) := r in
    _ ← modK (setView vID (withPrecommits vrv proofs versions));
    _ ← (if anyAdded : bool then recordPrecommits vID req.(apc_H) req.(apc_R) else mret tt);
    let res := if allAccepted : bool then AddVoteAccepted else AddVoteConflict in
    _ ← respond req.(apc_Response) res;
    _ ← checkMissingPHs proofs;
    if negb (bool_decide (res = AddVoteAccepted)) then mret tt
    else match vID with
         | ViewIDVoting => _ ← checkVotingPrecommitViewShift; mret tt
         | ViewIDNextRound => _ ← checkNextRoundPrecommitViewShift; mret tt
         | ViewIDCommitting => mret tt
         | _ => panicK "BUG: unhandled view ID in addPrecommit"
         end.
End kernel.
