(* ===== verification/KernelHandlers.v ===== *)
(** The other handlers of the mirror kernel (kernel.go): proposed headers, snapshots and lookups, the
    proposed header check, and the messages of the state machine. *)
From S2P Require Import Prelude Types BitSets Powers SigProof SimpleProofs VoteSummary RoundView.
From S2P Require Import Stores Managers KState KernelBase Kernel.

Section handlers.
Context {P B ST : Type} `{BitSet B, !CMSP P B, !CMSPScheme P, !KernelStores ST}.
Context (k : Kernel).
Local Abbreviation M := (K P ST).

(** ** addProposedHeader *)

(** The log line of a failed save compares the proposer with the state machine's key, which
    dereferences a nil proposer. *)
Definition checkSaveError (ph : ProposedHeader) (e : option error) : M unit :=
  s ← getK;
  match e, ph.(ph_ProposerPubKey) with
  | Some (OverwriteError field _), None =>
      if String.eqb field "pubkey" &&
         (smH s.(StateMachineViewManager) =? ph.(ph_Header).(Height)) &&
         (smR s.(StateMachineViewManager) =? ph.(ph_Round))
      then panicK "runtime error: invalid memory address or nil pointer dereference"
      else mret tt
  | _, _ => mret tt
  end.

(** One entry of the header's previous commit proof, merged in place into the committing view:
    the committing precommits so far, and mergedAny. *)
Definition backfillStep (pubKeyHash : bytes) (acc : gomap P * bool) (e : bytes * list SparseSignature) :
  outcome (gomap P * bool) :=
  let '(proofs, mergedAny) := acc in
  let '(blockHash, laterSigs) := e in
  match gm_get proofs blockHash with
  | None => Panic "TODO: backfill unknown block precommit"
  | Some target =>
      r ← cmsp_MergeSparse (MkSparseSignatureProof pubKeyHash laterSigs) target;
      proofs' ← gm_set blockHash r.1 proofs;
      Ret (proofs', mergedAny || r.2.(IncreasedSignatures))
  end.

Definition backfillCommit (ph : ProposedHeader) : M unit :=
  s ← getK;
  let pcp := ph.(ph_Header).(PrevCommitProof) in
  r ← liftO (foldO (backfillStep pcp.(cp_PubKeyHash)) (vPrecommits s.(s_Committing), false)
               (gm_entries pcp.(cp_Proofs)));
  let '(proofs, mergedAny) := r in
  _ ← modK (fun s => {| s with s_Committing :=
         vrv_upd (fun rv => {| rv with rv_PrecommitProofs := proofs |}) s.(s_Committing) |});
  if mergedAny : bool then
    c ← liftO (mapToSparseSignatureCollection proofs);
    _ ← callStore (ks_OverwriteRoundPrecommitProofs (u64 (ph.(ph_Header).(Height) - 1)) pcp.(cp_Round) c);
    modK MarkCommittingViewUpdated
  else mret tt.

Definition cancelFetch (hash : bytes) : M unit :=
  s ← getK;
  if bool_decide (hash ∈ s.(InFlightFetchPHs)) then
    _ ← emit (EvFetchCancelled hash);
    modK (fun s => {| s with InFlightFetchPHs := s.(InFlightFetchPHs) ∖ {[hash]} |})
  else mret tt.

Definition appendPH (ph : ProposedHeader) (rv : RoundView P) : RoundView P :=
  {| rv with rv_ProposedHeaders := rv.(rv_ProposedHeaders) ++ [ph] |}.

Definition addProposedHeader (ph : ProposedHeader) : M unit :=
  let hd := ph.(ph_Header) in
  _ ← cancelFetch hd.(Hash);
  s ← getK;
  f ← liftO (FindView hd.(Height) ph.(ph_Round) s);
  let viewID := f.1 in
  if bool_decide (viewID = ViewIDNotFound) then mret tt
  else
    let vrv := viewOf viewID s in
    if existsb (fun have => String.eqb have.(ph_Signature) ph.(ph_Signature)) (vPHs vrv) then mret tt
    else
      _ ← modK (setView viewID (vrv_upd (appendPH ph) vrv));
      e ← callStoreO (ks_SaveRoundProposedHeader ph);
      _ ← checkSaveError ph e;
      _ ← modKO (MarkViewUpdated viewID);
      if negb (bool_decide (viewID = ViewIDVoting) || bool_decide (viewID = ViewIDNextRound)) then mret tt
      else
        _ ← modK (fun s => {| s with LagManager :=
               Lag_SetState LagStatusUpToDate (vHeight s.(s_Committing)) 0 s.(LagManager) |});
        _ ← backfillCommit ph;
        s ← getK;
        if bool_decide (viewID = ViewIDVoting) &&
           bool_decide (is_Some (gm_get (vPrecommits s.(s_Voting)) hd.(Hash)))
        then _ ← checkVotingPrecommitViewShift; mret tt
        else mret tt.

(** ** Snapshots and lookups *)

(** Copying map entries into a destination map that is made if nil. *)
Definition copyProofs (dst src : gomap P) : gomap P := Some (gm_map src ∪ gm_map dst).

(** The destination version map is made only if the source has entries. *)
Definition copyVersions (dst src : gomap Z) : gomap Z :=
  match dst with
  | None => if bool_decide (0 < gm_len src)%nat then Some (gm_map src) else None
  | Some d => Some (gm_map src ∪ d)
  end.

(** A nil destination power map becomes a clone of the source's. *)
Definition copyPowers (dst src : gomap Z) : gomap Z :=
  match dst with None => src | Some d => Some (gm_map src ∪ d) end.

Definition copySummary (src dst : VoteSummary) : VoteSummary :=
  MkVoteSummary src.(AvailablePower) src.(TotalPrevotePower) src.(TotalPrecommitPower)
    (copyPowers dst.(PrevoteBlockPower) src.(PrevoteBlockPower))
    (copyPowers dst.(PrecommitBlockPower) src.(PrecommitBlockPower))
    src.(MostVotedPrevoteHash) src.(MostVotedPrecommitHash).

Definition copySnapshotView (src dst : VersionedRoundView P) (fields : Z) : VersionedRoundView P :=
  let s := src.(vrv_RV) in
  let d := dst.(vrv_RV) in
  let vs0 := VoteSummary_Reset d.(rv_VoteSummary) in
  {| vrv_RV :=
       {| rv_Height := s.(rv_Height);
          rv_Round := s.(rv_Round);
          rv_ValidatorSet := if hasField fields RVValidators then s.(rv_ValidatorSet) else ValidatorSet_zero;
          rv_PrevCommitProof :=
            if hasField fields RVPrevCommitProof
            then MkCommitProof s.(rv_PrevCommitProof).(cp_Round) s.(rv_PrevCommitProof).(cp_PubKeyHash)
                   (Some (gm_map s.(rv_PrevCommitProof).(cp_Proofs)))
            else d.(rv_PrevCommitProof);
          rv_ProposedHeaders := if hasField fields RVProposedBlocks then s.(rv_ProposedHeaders) else [];
          rv_PrevoteProofs :=
            let d0 := gm_clear d.(rv_PrevoteProofs) in
            if hasField fields RVPrevotes then copyProofs d0 s.(rv_PrevoteProofs) else d0;
          rv_PrecommitProofs :=
            let d0 := gm_clear d.(rv_PrecommitProofs) in
            if hasField fields RVPrecommits then copyProofs d0 s.(rv_PrecommitProofs) else d0;
          rv_VoteSummary :=
            if hasField fields RVVoteSummary then copySummary s.(rv_VoteSummary) vs0 else vs0 |};
     Version := src.(Version);
     PrevoteVersion := dst.(PrevoteVersion);
     PrecommitVersion := dst.(PrecommitVersion);
     PrevoteBlockVersions :=
       let d0 := gm_clear dst.(PrevoteBlockVersions) in
       if hasField fields RVPrevotes then copyVersions d0 src.(PrevoteBlockVersions) else d0;
     PrecommitBlockVersions :=
       let d0 := gm_clear dst.(PrecommitBlockVersions) in
       if hasField fields RVPrecommits then copyVersions d0 src.(PrecommitBlockVersions) else d0 |}.

Definition sendSnapshotResponse (req : SnapshotRequest P) : M unit :=
  s ← getK;
  emit (EvSnapshot
    ((fun dst => copySnapshotView s.(s_Voting) dst req.(sn_Fields)) <$> req.(sn_Voting))
    ((fun dst => copySnapshotView s.(s_Committing) dst req.(sn_Fields)) <$> req.(sn_Committing))).

(** The destination view is left alone when no view is found. *)
Definition sendViewLookupResponse (req : ViewLookupRequest P) : M unit :=
  if String.eqb req.(vl_Reason) EmptyString then panicK "BUG: ViewLookupRequest.Reason must not be empty"
  else
    s ← getK;
    f ← liftO (FindView req.(vl_H) req.(vl_R) s);
    let '(vID, vStatus) := f in
    let vrv := if bool_decide (vID = ViewIDNotFound) then req.(vl_VRV)
               else copySnapshotView (viewOf vID s) req.(vl_VRV) req.(vl_Fields) in
    emit (EvLookup (MkViewLookupResponse vID vStatus) vrv).

(** ** The proposed header check *)

(** The key of the first validator equal to the proposer's; comparing dereferences the proposer. *)
Fixpoint findProposer (proposer : option PubKey) (vals : list Validator) : outcome (option PubKey) :=
  match vals with
  | [] => Ret None
  | v :: vals =>
      match proposer with
      | None => Panic "runtime error: invalid memory address or nil pointer dereference"
      | Some key => if pk_Equal key v.(val_PubKey) then Ret (Some v.(val_PubKey)) else findProposer proposer vals
      end
  end.

Definition setPHCheckStatus (s : kState P) (ph : ProposedHeader) (resp : PHCheckResponse P)
  (vrv : VersionedRoundView P) (vID : ViewID) : outcome (PHCheckResponse P) :=
  if existsb (fun have => String.eqb have.(ph_Signature) ph.(ph_Signature)) (vPHs vrv)
  then Ret {| resp with phc_Status := PHCheckAlreadyHaveSignature |}
  else
    proposer ← findProposer ph.(ph_ProposerPubKey) (vVals vrv);
    match proposer with
    | None => Ret {| resp with phc_Status := PHCheckSignerUnrecognized |}
    | Some key =>
        let resp := {| resp with phc_Status := PHCheckAcceptable; phc_ProposerPubKey := Some key |} in
        if ph.(ph_Header).(Height) =? k.(k_initialHeight) then Ret resp
        else
          match vID with
          | ViewIDCommitting =>
              Ret {| resp with phc_PrevBlockHash := s.(CommittingHeader).(PrevBlockHash) |}
          | ViewIDVoting | ViewIDNextRound =>
              Ret {| resp with phc_PrevBlockHash := s.(CommittingHeader).(Hash);
                               phc_PrevValidatorSet := s.(CommittingHeader).(hd_ValidatorSet) |}
          | _ => Panic "BUG: setPHCheckStatus called with invalid view ID"
          end
    end.

Definition phCheck (s : kState P) (ph : ProposedHeader) : outcome (PHCheckResponse P) :=
  let resp := PHCheckResponse_zero in
  let status st := Ret {| resp with phc_Status := st |} in
  let pbHeight := ph.(ph_Header).(Height) in
  let pbRound := ph.(ph_Round) in
  let votingHeight := vHeight s.(s_Voting) in
  let votingRound := vRound s.(s_Voting) in
  let committingHeight := vHeight s.(s_Committing) in
  let committingRound := vRound s.(s_Committing) in
  if pbHeight <? committingHeight then status PHCheckRoundTooOld
  else if pbHeight =? committingHeight then
    if pbRound <? committingRound then status PHCheckRoundTooOld
    else if pbRound =? committingRound then setPHCheckStatus s ph resp s.(s_Committing) ViewIDCommitting
    else Panic "TODO: handle proposed block with round beyond committing round"
  else if pbHeight =? votingHeight then
    if pbRound <? votingRound then status PHCheckRoundTooOld
    else if pbRound =? votingRound then setPHCheckStatus s ph resp s.(s_Voting) ViewIDVoting
    else if pbRound =? u32 (votingRound + 1) then setPHCheckStatus s ph resp s.(s_NextRound) ViewIDNextRound
    else Panic "TODO: handle proposed block with round beyond voting round"
  else if pbHeight =? u64 (votingHeight + 1) then
    Ret {| resp with phc_Status := PHCheckNextHeight;
                     phc_VotingRoundView := Some (RoundView_Clone s.(s_Voting).(vrv_RV)) |}
  else status PHCheckRoundTooFarInFuture.

Definition sendPHCheckResponse (ph : ProposedHeader) : M unit :=
  s ← getK;
  resp ← liftO (phCheck s ph);
  if bool_decide (resp.(phc_Status) = PHCheckInvalid) then panicK "BUG: cannot determine PHCheckStatus"
  else emit (EvPHCheck resp).

(** ** The state machine *)

Definition handleStateMachineRoundEntrance (re : StateMachineRoundEntrance) : M unit :=
  _ ← modK (fun s => {| s with StateMachineViewManager := SM_Reset re s.(StateMachineViewManager) |});
  s ← getK;
  f ← liftO (FindView re.(re_H) re.(re_R) s);
  let '(vID, status) := f in
  if bool_decide (vID = ViewIDNotFound) then
    if bool_decide (status = ViewBeforeCommitting) then
      ch ← getStore (ks_LoadCommittedHeader re.(re_H));
      match ch with
      | Err _ => panicK "failed to load block from block store for state machine"
      | Ok ch => emit (EvRoundEntrance (MkRER VRV_zero ch))
      end
    else panicK "TODO: handle view not found when responding to state machine round update"
  else
    let r := MkRER (VRV_Clone (viewOf vID s)) CommittedHeader_zero in
    _ ← emit (EvRoundEntrance r);
    modKO (fun s => m ← MarkFirstSentVersion r.(rer_VRV).(Version) s.(StateMachineViewManager);
                    Ret {| s with StateMachineViewManager := m |}).

(** Signing with the state machine's key: AddSignature dereferences a nil key. *)
Definition addOwnSignature (sig : bytes) (key : option PubKey) (p : P) : outcome (result P) :=
  match key with
  | None => Panic "runtime error: invalid memory address or nil pointer dereference"
  | Some key => Ret (cmsp_AddSignature sig key p)
  end.

(** The proof a state machine vote is added to; a first vote for a hash builds it from the voting
    view's validators, whatever the view the vote is for. *)
Definition voteBase (s : kState P) (existing : option P) (signContent : bytes) : result P :=
  match existing with
  | Some p => Ok p
  | None =>
      let vals := s.(s_Voting).(vrv_RV).(rv_ValidatorSet) in
      scheme_New signContent (ValidatorsToPubKeys vals.(Validators)) vals.(PubKeyHash)
  end.

Definition nonEmpty (b : bytes) : bool := negb (String.eqb b EmptyString).

Definition handleStateMachineAction (act : StateMachineRoundAction) : M unit :=
  let hasPH := nonEmpty act.(act_PH).(ph_Header).(Hash) in
  let hasPrevote := nonEmpty act.(act_Prevote).(sc_Sig) in
  let hasPrecommit := nonEmpty act.(act_Precommit).(sc_Sig) in
  if negb (hasPH || hasPrevote || hasPrecommit) then panicK "BUG: no state machine action present"
  else if hasPH then
    if hasPrevote || hasPrecommit then panicK "BUG: multiple state machine actions present"
    else addProposedHeader act.(act_PH)
  else
    s ← getK;
    let h := smH s.(StateMachineViewManager) in
    let r := smR s.(StateMachineViewManager) in
    f ← liftO (FindView h r s);
    let vID := f.1 in
    if negb (bool_decide (vID = ViewIDVoting) || bool_decide (vID = ViewIDCommitting)) then mret tt
    else
      let vrv := viewOf vID s in
      let key := smPubKey s.(StateMachineViewManager) in
      if hasPrevote then
        if hasPrecommit then panicK "BUG: multiple state machine actions present"
        else
          let hash := act.(act_Prevote).(TargetHash) in
          match voteBase s (gm_get (vPrevotes vrv) hash) act.(act_Prevote).(SignContent) with
          | Err _ => mret tt
          | Ok base =>
              signed ← liftO (addOwnSignature act.(act_Prevote).(sc_Sig) key base);
              match signed with
              | Err _ => mret tt
              | Ok p => addPrevote k (MkAddPrevote h r
                          {[hash := MkVoteUpdate p (gm_getz 0 vrv.(PrevoteBlockVersions) hash)]} false)
              end
          end
      else
        let hash := act.(act_Precommit).(TargetHash) in
        match voteBase s (gm_get (vPrecommits vrv) hash) act.(act_Precommit).(SignContent) with
        | Err _ => mret tt
        | Ok base =>
            signed ← liftO (addOwnSignature act.(act_Precommit).(sc_Sig) key base);
            match signed with
            | Err _ => mret tt
            | Ok p => addPrecommit k (MkAddPrecommit h r
                        {[hash := MkVoteUpdate p (gm_getz 0 vrv.(PrecommitBlockVersions) hash)]} false)
            end
        end.
End handlers.
