(* ===== verification/KernelLoop.v ===== *)
(** Replayed headers, kernel startup and the main loop (kernel.go).

    The main loop is a step relation: each iteration computes the three outputs and handles one ready
    channel of the select. *)
From S2P Require Import Prelude Types BitSets Powers SigProof SimpleProofs VoteSummary RoundView.
From S2P Require Import Stores Managers KState KernelBase Kernel KernelHandlers.

Section loop.
Context {P B ST : Type} `{BitSet B, !CMSP P B, !CMSPScheme P, !KernelStores ST}.
Context (k : Kernel).
Local Abbreviation M := (K P ST).

(** ** handleReplayedHeader *)

(** The proof a replayed hash's signatures are merged into: a clone of the voting view's, or a new one
    over the validators of the header itself. *)
Definition replayBase (s : kState P) (header : Header) (r : Z) (hash : bytes) : outcome (result P) :=
  match gm_get (vPrecommits s.(s_Voting)) hash with
  | Some p => Ret (Ok p)
  | None =>
      match PrecommitSignBytes (MkVoteTarget header.(Height) r hash) k.(k_sigScheme) with
      | Err e => Ret (Err (ReplayedHeaderInternalError
                            (ErrWrap "failed to produce precommit sign content for replayed header" e)))
      | Ok content =>
          let vals := header.(hd_ValidatorSet).(Validators) in
          if bool_decide (vals = []) then Panic "TODO: ValidatorSet must be populated on replayed headers"
          else match scheme_New content (ValidatorsToPubKeys vals) header.(hd_ValidatorSet).(PubKeyHash) with
               | Err e => Ret (Err (ReplayedHeaderInternalError
                            (ErrWrap "failed to produce empty signature proof for replayed header" e)))
               | Ok p => Ret (Ok p)
               end
      end
  end.

(** One entry of the replayed commit proof: tempProofs so far, or the error returned. *)
Definition replayStep (s : kState P) (header : Header) (r : Z) (acc : result (gmap bytes P))
  (e : bytes * list SparseSignature) : outcome (result (gmap bytes P)) :=
  match acc with
  | Err er => Ret (Err er)
  | Ok temp =>
      base ← replayBase s header r e.1;
      match base with
      | Err er => Ret (Err er)
      | Ok p =>
          m ← cmsp_MergeSparse (MkSparseSignatureProof header.(hd_ValidatorSet).(PubKeyHash) e.2) p;
          if negb m.2.(AllValidSignatures)
          then Ret (Err (ReplayedHeaderValidationError (ErrOther "invalid signature received for block hash")))
          else Ret (Ok (<[e.1 := m.1]> temp))
      end
  end.

Definition replayFailed (e : option error) : M (option error) := mret (ReplayedHeaderInternalError <$> e).

(** From the point where the signatures are known to be valid. *)
Definition replayApply (header : Header) (proof : CommitProof) (temp : gmap bytes P) : M (option error) :=
  let h := header.(Height) in
  let r := proof.(cp_Round) in
  s ← getK;
  e ← (if existsb (fun ph => String.eqb ph.(ph_Header).(Hash) header.(Hash)) (vPHs s.(s_Voting)) then mret None
       else
         e ← callStore (ks_SaveRoundReplayedHeader header);
         match e with
         | Some e => mret (Some (ErrWrap "failed to save replayed header to round store" e))
         | None =>
             let fakePH := MkProposedHeader header r None (MkAnnotations nilHash nilHash) nilHash in
             _ ← modK (fun s => setView ViewIDVoting (vrv_upd (appendPH fakePH) s.(s_Voting)) s);
             mret None
         end);
  match e with
  | Some e => replayFailed (Some e)
  | None =>
      match temp !! header.(Hash) with
      | None => panicK "runtime error: invalid memory address or nil pointer dereference"
      | Some p =>
          let blockPow := sumPower header.(hd_ValidatorSet).(Validators) (cmsp_SignatureBitSet p) in
          maj ← liftO (ByzantineMajority (vSummary s.(s_Voting)).(AvailablePower));
          if blockPow <? maj
          then mret (Some (ReplayedHeaderValidationError (ErrOther "needed more vote power for block")))
          else
            proofs ← liftO (foldO (fun m e => gm_set e.1 e.2 m) (vPrecommits s.(s_Voting)) (map_to_list temp));
            vs ← liftO (SetPrecommitPowers (vVals s.(s_Voting)) proofs (vSummary s.(s_Voting)));
            _ ← modK (fun s => setView ViewIDVoting
                   (vrv_upd (fun rv => {| rv with rv_PrecommitProofs := proofs; rv_VoteSummary := vs |})
                      s.(s_Voting)) s);
            c ← liftO (mapToSparseSignatureCollection proofs);
            e ← callStore (ks_OverwriteRoundPrecommitProofs h r c);
            match e with
            | Some e => replayFailed (Some (ErrWrap "failed to save replayed commits to round store" e))
            | None =>
                e ← checkVotingPrecommitViewShift;
                replayFailed (wrapErr "failed to apply replayed header" e)
            end
      end
  end.

Definition handleReplayedHeader (header : Header) (proof : CommitProof) : M (option error) :=
  s ← getK;
  if negb (header.(Height) =? vHeight s.(s_Voting)) then
    mret (Some (ReplayedHeaderOutOfSyncError (vHeight s.(s_Voting)) header.(Height)))
  else if proof.(cp_Round) <? vRound s.(s_Voting) then
    panicK "TODO: handle replay for earlier round"
  else
    e ← (if vRound s.(s_Voting) <? proof.(cp_Round) then jumpVotingRound proof.(cp_Round) else mret None);
    match e with
    | Some e => replayFailed (Some (ErrWrap "failed to jump voting round to replayed round" e))
    | None =>
        match hs_Block k.(k_hashScheme) header with
        | Err e => mret (Some (ReplayedHeaderValidationError (ErrWrap "failed to build block hash" e)))
        | Ok expHash =>
            if negb (String.eqb expHash header.(Hash)) then
              mret (Some (ReplayedHeaderValidationError
                            (ErrOther "reported block hash different from expected")))
            else
              s ← getK;
              temp ← liftO (foldO (replayStep s header proof.(cp_Round)) (Ok ∅) (gm_entries proof.(cp_Proofs)));
              match temp with
              | Err e => mret (Some e)
              | Ok temp => replayApply header proof temp
              end
        end
    end.

(** The main loop's case for a replay: the response, then a panic on an internal error. *)
Definition replayRequest (header : Header) (proof : CommitProof) : M unit :=
  e ← handleReplayedHeader header proof;
  _ ← emit (EvReplayed e);
  match e with
  | Some er => if errAs isReplayedHeaderInternal er
               then panicK "TODO: handle internal error from handling replayed block" else mret tt
  | None => mret tt
  end.

(** ** Startup *)

(** The round view rebuilt from the store, or the error returned. *)
Definition loadInitialView (h r : Z) (vs : ValidatorSet) : M (result (RoundView P)) :=
  l ← getStore (ks_LoadRoundState h r);
  let '(phs, sparsePrevotes, sparsePrecommits, err) := l in
  if match err with Some e => negb (errAs (fun e => bool_decide (e = RoundUnknownError h r)) e) | None => false end
  then mret (Err (default (ErrOther "unreachable") err))
  else
    e ← callStore (ks_SavePubKeys (ValidatorsToPubKeys vs.(Validators)));
    if match e with Some e => negb (errAs isPubKeysAlreadyExist e) | None => false end
    then mret (Err (ErrWrap "cannot initialize view: failed to save or check initial view validator pubkey hash"
                      (default (ErrOther "unreachable") e)))
    else
      e ← callStore (ks_SaveVotePowers (ValidatorsToVotePowers vs.(Validators)));
      if match e with Some e => negb (errAs isVotePowersAlreadyExist e) | None => false end
      then mret (Err (ErrWrap "cannot initialize view: failed to save or check initial view vote power hash"
                        (default (ErrOther "unreachable") e)))
      else
        pv ← liftO (ToFullPrevoteProofMap h r vs k.(k_sigScheme) sparsePrevotes);
        match pv with
        | Err e => mret (Err (ErrWrap "failed to load full prevote proof map" e))
        | Ok prevoteProofs =>
            pc ← liftO (ToFullPrecommitProofMap h r vs k.(k_sigScheme) sparsePrecommits);
            match pc with
            | Err e => mret (Err (ErrWrap "failed to load full precommit proof map" e))
            | Ok precommitProofs =>
                sum ← liftO (SetVotePowers vs.(Validators) prevoteProofs precommitProofs
                               (SetAvailablePower vs.(Validators) NewVoteSummary));
                mret (Ok (MkRoundView h r vs CommitProof_zero phs prevoteProofs precommitProofs sum))
            end
        end.

(** The view with its round view replaced and both vote versions set to 1. *)
Definition loadedView (rv : RoundView P) (v : VersionedRoundView P) : VersionedRoundView P :=
  {| v with vrv_RV := rv; PrevoteVersion := 1; PrecommitVersion := 1 |}.

(** The hash with the most power; the loop keeps the first strict maximum it meets. *)
Definition strongestHash (dist : voteDistribution) : bytes :=
  (foldl (fun (acc : Z * bytes) e => if acc.1 <? e.2 then (e.2, e.1) else acc)
     (0, nilHash) (map_to_list dist.(BlockVotePower))).2.

Definition loadInitialCommittingView : M (option error) :=
  s ← getK;
  let h := vHeight s.(s_Committing) in
  let r := vRound s.(s_Committing) in
  vs ← (if (h =? k.(k_initialHeight)) || (h =? u64 (k.(k_initialHeight) + 1)) then mret k.(k_initialValSet)
        else
          ch ← getStore (ks_LoadCommittedHeader (u64 (h - 1)));
          match ch with
          | Err _ => panicK "panic: committed header not found"
          | Ok ch => mret ch.(ch_Header).(NextValidatorSet)
          end);
  l ← loadInitialView h r vs;
  match l with
  | Err e => mret (Some e)
  | Ok rv =>
      _ ← modK (fun s => {| s with s_Committing := loadedView rv s.(s_Committing) |});
      _ ← modK MarkCommittingViewUpdated;
      if bool_decide (gm_len rv.(rv_PrecommitProofs) = 0%nat)
      then panicK "BUG: loading commit view from disk without any precommits"
      else
        e ← (if k.(k_initialHeight) <? h then
               ch ← getStore (ks_LoadCommittedHeader (u64 (h - 1)));
               match ch with
               | Err e => mret (Some (ErrWrap "failed to load committed header for previous commit proof" e))
               | Ok ch =>
                   _ ← modK (fun s => {| s with s_Committing :=
                          vrv_upd (fun rv => {| rv with rv_PrevCommitProof := ch.(ch_Proof) |}) s.(s_Committing) |});
                   mret None
               end
             else mret None);
        match e with
        | Some e => mret (Some e)
        | None =>
            let committingHash := strongestHash (newVoteDistribution rv.(rv_PrecommitProofs)
                                                   rv.(rv_ValidatorSet).(Validators)) in
            match findPH committingHash rv.(rv_ProposedHeaders) with
            | Some ph =>
                if nonEmpty ph.(ph_Header).(Hash) then
                  _ ← modK (fun s => {| s with CommittingHeader := ph.(ph_Header) |}); mret None
                else panicK "BUG: failed to determine committing block"
            | None => panicK "BUG: failed to determine committing block"
            end
        end
  end.

Definition loadInitialVotingView : M (option error) :=
  s ← getK;
  let h := vHeight s.(s_Voting) in
  let r := vRound s.(s_Voting) in
  let vs := if (h =? k.(k_initialHeight)) || (h =? u64 (k.(k_initialHeight) + 1)) then k.(k_initialValSet)
            else s.(CommittingHeader).(hd_ValidatorSet) in
  if bool_decide (vs.(Validators) = []) then panicK "BUG: no validators available when loading initial Voting View"
  else
    l ← loadInitialView h r vs;
    match l with
    | Err e => mret (Some e)
    | Ok rv =>
        _ ← modK (fun s => {| s with s_Voting := loadedView rv s.(s_Voting) |});
        _ ← modK MarkVotingViewUpdated;
        l ← loadInitialView h (u32 (r + 1)) vs;
        match l with
        | Err e => mret (Some e)
        | Ok nrrv =>
            _ ← modK (fun s => {| s with s_NextRound := loadedView nrrv s.(s_NextRound) |});
            _ ← modK MarkNextRoundViewUpdated;
            mret None
        end
    end.

Definition viewShell (h r : Z) : VersionedRoundView P :=
  MkVRV (MkRoundView h r ValidatorSet_zero CommitProof_zero [] None None VoteSummary_zero) 0 0 0 None None.

(** The initial state; the zero identity stands for map objects nothing else refers to. *)
Definition seedState (nhr : NetworkHeightRound) (smOut gsOut lagOut : bool) : kState P :=
  MkKState (viewShell nhr.(CommittingHeight) nhr.(CommittingRound))
    (viewShell nhr.(VotingHeight) nhr.(VotingRound)) VRV_zero ∅ Header_zero
    (newStateMachineViewManager smOut) (newGossipViewManager gsOut) (newLagManager lagOut)
    0%nat 0%nat 0%nat 1%nat.

(** The previous commit proof for the voting view, from the stored committing round; the error is
    None, or the one returned. *)
Definition initialCommitProof (nhr : NetworkHeightRound) : M (result CommitProof) :=
  l ← getStore (ks_LoadRoundState nhr.(CommittingHeight) nhr.(CommittingRound));
  let '(_, _, precommits, err) := l in
  mret match err with
       | None => Ok (MkCommitProof nhr.(CommittingRound) precommits.(ssc_PubKeyHash)
                       (Some (gm_map precommits.(BlockSignatures))))
       | Some e => if errAs isRoundUnknown e then Ok (MkCommitProof 0 nilHash gm_make)
                   else Err (ErrWrap "cannot initialize mirror kernel: failed to load committing round state" e)
       end.

(** [initState.Voting...PrevCommitProof = committingProof], and the same for NextRound: both views get
    the same map object. *)
Definition setInitialPCP (c : CommitProof) (s : kState P) : kState P :=
  {| s with s_Voting := vrv_upd (fun rv => {| rv with rv_PrevCommitProof := c |}) s.(s_Voting);
            s_NextRound := vrv_upd (fun rv => {| rv with rv_PrevCommitProof := c |}) s.(s_NextRound);
            refVoting := s.(refFresh); refNextRound := s.(refFresh); refFresh := S s.(refFresh) |}.

(** The stored position, or the initial one, which is stored first. *)
Definition initialNHR : M (result NetworkHeightRound) :=
  l ← getStore ks_NetworkHeightRound;
  match l with
  | Ok nhr => mret (Ok nhr)
  | Err e =>
      if bool_decide (e = ErrStoreUninitialized) then
        let nhr := MkNHR k.(k_initialHeight) 0 0 0 in
        e ← callStore (ks_SetNetworkHeightRound nhr);
        mret match e with
             | Some e => Err (ErrWrap "cannot initialize mirror kernel: failed to set initial height/round on store" e)
             | None => Ok nhr
             end
      else mret (Err (ErrWrap "cannot initialize mirror kernel: failed to retrieve stored network height/round" e))
  end.

Definition NewKernel (smOut gsOut lagOut : bool) : M (option error) :=
  if bool_decide (k.(k_initialValSet).(Validators) = []) then panicK "BUG: initial validator set is empty"
  else
    n ← initialNHR;
    match n with
    | Err e => mret (Some e)
    | Ok nhr =>
        p ← initialCommitProof nhr;
        match p with
        | Err e => mret (Some e)
        | Ok committingProof =>
            _ ← modK (fun _ => seedState nhr smOut gsOut lagOut);
            e ← (if k.(k_initialHeight) <=? nhr.(CommittingHeight) then loadInitialCommittingView else mret None);
            match e with
            | Some e => mret (Some e)
            | None =>
                e ← loadInitialVotingView;
                match e with
                | Some e => mret (Some e)
                | None => _ ← modK (setInitialPCP committingProof); updateObservers
                end
            end
        end
    end.

(** ** mainLoop *)

(** A ready case of the select. *)
Inductive Input :=
| InSnapshot (req : SnapshotRequest P)
| InViewLookup (req : ViewLookupRequest P)
| InPHCheck (ph : ProposedHeader)
| InAddPH (ph : ProposedHeader)
| InAddPrevote (req : AddPrevoteRequest P)
| InAddPrecommit (req : AddPrecommitRequest P)
| InGossipSent
| InStateMachineSent
| InLagSent
| InFetchedPH (ph : ProposedHeader)
| InRoundEntrance (re : StateMachineRoundEntrance)
| InAction (act : StateMachineRoundAction)
| InReplay (header : Header) (proof : CommitProof).

(** Whether the case can fire: sends need a non-nil output channel, actions a non-nil action channel. *)
Definition ready (s : kState P) (i : Input) : bool :=
  match i with
  | InGossipSent => (Gossip_Output s.(GossipViewManager)).(gso_Ch)
  | InStateMachineSent => (SM_Output s.(StateMachineViewManager)).(smo_Ch)
  | InLagSent => (Lag_Output s.(LagManager)).(lo_Ch)
  | InAction _ => smActions s.(StateMachineViewManager)
  | _ => true
  end.

Definition handle (i : Input) : M unit :=
  match i with
  | InSnapshot req => sendSnapshotResponse req
  | InViewLookup req => sendViewLookupResponse req
  | InPHCheck ph => sendPHCheckResponse k ph
  | InAddPH ph | InFetchedPH ph => addProposedHeader ph
  | InAddPrevote req => addPrevote k req
  | InAddPrecommit req => addPrecommit k req
  | InGossipSent =>
      s ← getK;
      let o := Gossip_Output s.(GossipViewManager) in
      _ ← emit (EvGossip o.(gso_Val));
      modK (fun s => {| s with GossipViewManager := Gossip_MarkSent o s.(GossipViewManager) |})
  | InStateMachineSent =>
      s ← getK;
      let o := SM_Output s.(StateMachineViewManager) in
      _ ← emit (EvStateMachine o.(smo_Val));
      modKO (fun s => m ← SM_MarkSent o s.(StateMachineViewManager);
                      Ret {| s with StateMachineViewManager := m |})
  | InLagSent =>
      s ← getK;
      _ ← emit (EvLag (Lag_Output s.(LagManager)).(lo_Val));
      modK (fun s => {| s with LagManager := Lag_MarkSent s.(LagManager) |})
  | InRoundEntrance re => handleStateMachineRoundEntrance re
  | InAction act => handleStateMachineAction k act
  | InReplay header proof => replayRequest header proof
  end.

(** One iteration, or the fetcher taking a buffered request. *)
Inductive step : World P ST -> World P ST -> Prop :=
| step_handle i w w' : ready w.(w_k) i = true -> handle i w = Ret (tt, w') -> step w w'
| step_fetch r q w : w.(w_fetchQ) = r :: q -> step w {| w with w_fetchQ := q |}.
End loop.
