(* ===== verification/Mirror.v ===== *)
(** The mirror (tm/tmengine/internal/tmmirror/mirror.go): the methods that validate messages from the
    network and turn them into kernel requests.

    A method runs on its own goroutine and talks to the kernel only through requests, so it is modelled
    as a call: a value that records where the goroutine is and its local state, with one step per
    request.  The kernel can do anything else between two requests of a call.  Cancellation of the
    context, which ReqResp and SendC report, is in MirrorSystem, where calls run side by side. *)
From S2P Require Import Prelude Types BitSets Powers SigProof SimpleProofs VoteSummary RoundView.
From S2P Require Import Stores Managers KState KernelBase Kernel KernelHandlers KernelLoop.

(** * Results *)

Inductive HandleProposedHeaderResult :=
| HandleProposedHeaderAccepted
| HandleProposedHeaderAlreadyStored
| HandleProposedHeaderSignerUnrecognized
| HandleProposedHeaderBadBlockHash
| HandleProposedHeaderBadSignature
| HandleProposedHeaderBadPrevCommitProofPubKeyHash
| HandleProposedHeaderBadPrevCommitProofSignature
| HandleProposedHeaderBadPrevCommitVoteCount
| HandleProposedHeaderRoundTooOld
| HandleProposedHeaderRoundTooFarInFuture
| HandleProposedHeaderInternalError.

Inductive HandleVoteProofsResult :=
| HandleVoteProofsAccepted
| HandleVoteProofsNoNewSignatures
| HandleVoteProofsEmpty
| HandleVoteProofsBadPubKeyHash
| HandleVoteProofsRoundTooOld
| HandleVoteProofsTooFarInFuture
| HandleVoteProofsInternalError.

#[export] Instance HandleProposedHeaderResult_eq_dec : EqDecision HandleProposedHeaderResult.
Proof. solve_decision. Defined.
#[export] Instance HandleVoteProofsResult_eq_dec : EqDecision HandleVoteProofsResult.
Proof. solve_decision. Defined.

Inductive backfillCommitStatus := backfillCommitAccepted | backfillCommitRejected.

Section mirror.
Context {P B ST : Type} `{Verifier, BitSet B, !CMSP P B, !CMSPScheme P, !KernelStores ST}.
(** The mirror's schemes are the kernel's: toKernelConfig copies them from one configuration. *)
Context (k : Kernel).
Local Abbreviation M := (K P ST).

(** * Votes *)

(** Whether a signature of the message is worth adding: the body of the loops of getSignaturesToAdd. *)
Definition sigWanted (valSet : ValidatorSet) (fullProof : option P) (sig : SparseSignature) : bool :=
  match fullProof with
  | None => scheme_KeyIDChecker (P := P) (ValidatorsToPubKeys valSet.(Validators)) sig.(ss_KeyID)
  | Some p => let '(has, valid) := cmsp_HasSparseKeyID sig.(ss_KeyID) p in valid && negb has
  end.

Definition addWanted (curProofs : gomap P) (valSet : ValidatorSet)
  (toAdd : gomap (list SparseSignature)) (e : bytes * list SparseSignature) : gomap (list SparseSignature) :=
  match List.filter (sigWanted valSet (gm_get curProofs e.1)) e.2 with
  | [] => toAdd
  | sigsToAdd => Some (<[e.1 := sigsToAdd]> (gm_map toAdd))
  end.

Definition getSignaturesToAdd (curProofs : gomap P) (incoming : gomap (list SparseSignature))
  (valSet : ValidatorSet) : gomap (list SparseSignature) :=
  foldl (addWanted curProofs valSet) None (gm_entries incoming).

Definition makeNewPrevoteProof (height round : Z) (blockHash : bytes) (valSet : ValidatorSet) : option P :=
  match PrevoteSignBytes (MkVoteTarget height round blockHash) k.(k_sigScheme) with
  | Err _ => None
  | Ok signContent =>
      match scheme_New signContent (ValidatorsToPubKeys valSet.(Validators)) valSet.(PubKeyHash) with
      | Err _ => None
      | Ok emptyProof => Some emptyProof
      end
  end.

Definition makeNewPrecommitProof (height round : Z) (blockHash : bytes) (valSet : ValidatorSet) : option P :=
  match PrecommitSignBytes (MkVoteTarget height round blockHash) k.(k_sigScheme) with
  | Err _ => None
  | Ok signContent =>
      match scheme_New signContent (ValidatorsToPubKeys valSet.(Validators)) valSet.(PubKeyHash) with
      | Err _ => None
      | Ok emptyProof => Some emptyProof
      end
  end.

(** The loop over the signatures to add: an existing proof (the lookup's clone) or a new one takes the
    signatures; whether they were all valid is recorded by the code and never read. *)
Definition addVoteUpdate (mk : bytes -> option P) (curProofs : gomap P) (versions : gomap Z)
  (voteUpdates : gmap bytes (VoteUpdate P)) (e : bytes * list SparseSignature) :
  outcome (gmap bytes (VoteUpdate P)) :=
  let '(blockHash, sigs) := e in
  match match gm_get curProofs blockHash with Some p => Some p | None => mk blockHash end with
  | None => Ret voteUpdates
  | Some fullProof =>
      r ← cmsp_MergeSparse (MkSparseSignatureProof (cmsp_PubKeyHash fullProof) sigs) fullProof;
      Ret (<[blockHash := MkVoteUpdate r.1 (gm_getz 0 versions blockHash)]> voteUpdates)
  end.

(** What HandlePrevoteProofs does with the answer to its lookup: a result, or the request to send. *)
Definition prevoteRequest (p : PrevoteSparseProof) (resp : ViewLookupResponse) (cur : VersionedRoundView P) :
  outcome (HandleVoteProofsResult + AddPrevoteRequest P) :=
  if negb (bool_decide (resp.(vlr_Status) = ViewFound)) then Ret (inl HandleVoteProofsRoundTooOld)
  else
    match resp.(vlr_ID) with
    | ViewIDVoting | ViewIDCommitting | ViewIDNextRound =>
        let valSet := cur.(vrv_RV).(rv_ValidatorSet) in
        if negb (String.eqb p.(pvs_PubKeyHash) valSet.(PubKeyHash)) then Ret (inl HandleVoteProofsBadPubKeyHash)
        else
          let sigsToAdd := getSignaturesToAdd (vPrevotes cur) p.(pvs_Proofs) valSet in
          if bool_decide (gm_len sigsToAdd = 0%nat) then Ret (inl HandleVoteProofsNoNewSignatures)
          else
            voteUpdates ← foldO (addVoteUpdate
                (fun h => makeNewPrevoteProof p.(pvs_Height) p.(pvs_Round) h valSet)
                (vPrevotes cur) cur.(PrevoteBlockVersions)) ∅ (gm_entries sigsToAdd);
            if bool_decide (size voteUpdates = 0%nat) then Ret (inl HandleVoteProofsNoNewSignatures)
            else Ret (inr (MkAddPrevote p.(pvs_Height) p.(pvs_Round) voteUpdates true))
    | _ => Panic "TODO: handle prevotes for views other than committing, voting, or next round"
    end.

Definition precommitRequest (p : PrecommitSparseProof) (resp : ViewLookupResponse)
  (cur : VersionedRoundView P) : outcome (HandleVoteProofsResult + AddPrecommitRequest P) :=
  if negb (bool_decide (resp.(vlr_Status) = ViewFound)) then Ret (inl HandleVoteProofsRoundTooOld)
  else
    match resp.(vlr_ID) with
    | ViewIDVoting | ViewIDCommitting | ViewIDNextRound =>
        let valSet := cur.(vrv_RV).(rv_ValidatorSet) in
        if negb (String.eqb p.(pcs_PubKeyHash) valSet.(PubKeyHash)) then Ret (inl HandleVoteProofsBadPubKeyHash)
        else
          let sigsToAdd := getSignaturesToAdd (vPrecommits cur) p.(pcs_Proofs) valSet in
          if bool_decide (gm_len sigsToAdd = 0%nat) then Ret (inl HandleVoteProofsNoNewSignatures)
          else
            voteUpdates ← foldO (addVoteUpdate
                (fun h => makeNewPrecommitProof p.(pcs_Height) p.(pcs_Round) h valSet)
                (vPrecommits cur) cur.(PrecommitBlockVersions)) ∅ (gm_entries sigsToAdd);
            if bool_decide (size voteUpdates = 0%nat) then Ret (inl HandleVoteProofsNoNewSignatures)
            else Ret (inr (MkAddPrecommit p.(pcs_Height) p.(pcs_Round) voteUpdates true))
    | _ => Panic "TODO: handle precommits for views other than committing, voting, or next round"
    end.

(** A call of HandlePrevoteProofs: about to look up the view (at RETRY, with the snapshot it will
    overwrite), about to send the updates, or returned. *)
Inductive PrevoteCall :=
| PVLookup (p : PrevoteSparseProof) (curPrevoteState : VersionedRoundView P)
| PVAdd (p : PrevoteSparseProof) (curPrevoteState : VersionedRoundView P) (req : AddPrevoteRequest P)
| PVDone (res : HandleVoteProofsResult).

Definition HandlePrevoteProofs (p : PrevoteSparseProof) : PrevoteCall :=
  if bool_decide (gm_len p.(pvs_Proofs) = 0%nat) then PVDone HandleVoteProofsEmpty
  else PVLookup p VRV_zero.

(** A call of handlePrecommitProofs. *)
Inductive PrecommitCall :=
| PCLookup (reason : string) (p : PrecommitSparseProof) (curPrecommitState : VersionedRoundView P)
| PCAdd (reason : string) (p : PrecommitSparseProof) (curPrecommitState : VersionedRoundView P)
    (req : AddPrecommitRequest P)
| PCDone (res : HandleVoteProofsResult).

Definition handlePrecommitProofs (p : PrecommitSparseProof) (reason : string) : PrecommitCall :=
  if bool_decide (gm_len p.(pcs_Proofs) = 0%nat) then PCDone HandleVoteProofsEmpty
  else PCLookup reason p VRV_zero.

Definition HandlePrecommitProofs (p : PrecommitSparseProof) : PrecommitCall :=
  handlePrecommitProofs p "(*Mirror).HandlePrecommitProofs".

(** ** Requests *)

Definition asVote (e : Event P) : option AddVoteResult := match e with EvVote r => Some r | _ => None end.
Definition asLookup (e : Event P) : option (ViewLookupResponse * VersionedRoundView P) :=
  match e with EvLookup r v => Some (r, v) | _ => None end.
Definition asPHCheck (e : Event P) : option (PHCheckResponse P) :=
  match e with EvPHCheck r => Some r | _ => None end.

(** The first answer among the events. *)
Fixpoint firstAnswer {A} (f : Event P -> option A) (l : list (Event P)) : option A :=
  match l with
  | [] => None
  | e :: l => match f e with Some a => Some a | None => firstAnswer f l end
  end.

(** ReqResp: the kernel handles the request, and the caller takes the answer it sends meanwhile; a
    caller without an answer would wait forever. *)
Definition ask {A} (i : Input (P := P)) (f : Event P -> option A) : M A := fun w =>
  r ← handle k i w;
  match firstAnswer f (drop (length w.(w_out)) r.2.(w_out)) with
  | Some a => Ret (a, r.2)
  | None => Panic "no answer"
  end.

(** One request of a call and what follows it, up to the next request. *)
Definition prevoteStep (c : PrevoteCall) : M PrevoteCall :=
  match c with
  | PVLookup p cur =>
      a ← ask (InViewLookup (MkViewLookup p.(pvs_Height) p.(pvs_Round) (Z.lor RVValidators RVPrevotes) cur
                 "(*Mirror).HandlePrevoteProofs")) asLookup;
      let '(resp, cur) := a in
      v ← liftO (prevoteRequest p resp cur);
      mret match v with inl res => PVDone res | inr req => PVAdd p cur req end
  | PVAdd p cur req =>
      result ← ask (InAddPrevote req) asVote;
      mret match result with
           | AddVoteAccepted => PVDone HandleVoteProofsAccepted
           | AddVoteConflict => PVLookup p (VRV_Reset cur)
           | AddVoteOutOfDate => PVDone HandleVoteProofsRoundTooOld
           end
  | PVDone res => mret c
  end.

Definition precommitStep (c : PrecommitCall) : M PrecommitCall :=
  match c with
  | PCLookup reason p cur =>
      a ← ask (InViewLookup (MkViewLookup p.(pcs_Height) p.(pcs_Round) (Z.lor RVValidators RVPrecommits) cur
                 reason)) asLookup;
      let '(resp, cur) := a in
      v ← liftO (precommitRequest p resp cur);
      mret match v with inl res => PCDone res | inr req => PCAdd reason p cur req end
  | PCAdd reason p cur req =>
      result ← ask (InAddPrecommit req) asVote;
      mret match result with
           | AddVoteAccepted => PCDone HandleVoteProofsAccepted
           | AddVoteConflict => PCLookup reason p (VRV_Reset cur)
           | AddVoteOutOfDate => PCDone HandleVoteProofsRoundTooOld
           end
  | PCDone res => mret c
  end.

(** * Proposed headers *)

(** One entry of the header's previous commit proof: None to go on. *)
Definition checkPrevCommit (ph : ProposedHeader) (prev : ValidatorSet)
  (acc : option HandleProposedHeaderResult) (e : bytes * list SparseSignature) :
  outcome (option HandleProposedHeaderResult) :=
  match acc with
  | Some _ => Ret acc
  | None =>
      let pcp := ph.(ph_Header).(PrevCommitProof) in
      match PrecommitSignBytes (MkVoteTarget (u64 (ph.(ph_Header).(Height) - 1)) pcp.(cp_Round) e.1)
              k.(k_sigScheme) with
      | Err _ => Ret (Some HandleProposedHeaderInternalError)
      | Ok msg =>
          match scheme_New (P := P) msg (ValidatorsToPubKeys prev.(Validators)) prev.(PubKeyHash) with
          | Err _ => Ret (Some HandleProposedHeaderInternalError)
          | Ok proof =>
              r ← cmsp_MergeSparse (MkSparseSignatureProof pcp.(cp_PubKeyHash) e.2) proof;
              Ret (if negb r.2.(AllValidSignatures)
                   then Some HandleProposedHeaderBadPrevCommitProofSignature else None)
          end
      end
  end.

(** The validation after an acceptable check; None to send the header to the kernel. *)
Definition validateHeader (ph : ProposedHeader) (checkResp : PHCheckResponse P) :
  outcome (option HandleProposedHeaderResult) :=
  match hs_Block k.(k_hashScheme) ph.(ph_Header) with
  | Err _ => Ret (Some HandleProposedHeaderInternalError)
  | Ok wantHash =>
      if negb (String.eqb wantHash ph.(ph_Header).(Hash)) then Ret (Some HandleProposedHeaderBadBlockHash)
      else
        match ProposalSignBytes ph.(ph_Header) ph.(ph_Round) ph.(ph_Annotations) k.(k_sigScheme) with
        | Err _ => Ret (Some HandleProposedHeaderInternalError)
        | Ok signContent =>
            match checkResp.(phc_ProposerPubKey) with
            | None => Panic "runtime error: invalid memory address or nil pointer dereference"
            | Some key =>
                if negb (verify key signContent ph.(ph_Signature)) then Ret (Some HandleProposedHeaderBadSignature)
                else
                  let pcp := ph.(ph_Header).(PrevCommitProof) in
                  if negb (String.eqb checkResp.(phc_PrevValidatorSet).(PubKeyHash) pcp.(cp_PubKeyHash))
                  then Ret (Some HandleProposedHeaderBadPrevCommitProofPubKeyHash)
                  else foldO (checkPrevCommit ph checkResp.(phc_PrevValidatorSet)) None (gm_entries pcp.(cp_Proofs))
            end
        end
  end.

(** backfillCommitForNextHeightPE: the precommits it handles, and the status made of their result. *)
Definition backfillCommitForNextHeightPE (ph : ProposedHeader) : PrecommitCall :=
  let pcp := ph.(ph_Header).(PrevCommitProof) in
  handlePrecommitProofs
    (MkPrecommitSparse (u64 (ph.(ph_Header).(Height) - 1)) pcp.(cp_Round) pcp.(cp_PubKeyHash) pcp.(cp_Proofs))
    "(*Mirror).backfillCommitForNextHeightPE".
Definition backfillStatus (res : HandleVoteProofsResult) : backfillCommitStatus :=
  if bool_decide (res = HandleVoteProofsAccepted) then backfillCommitAccepted else backfillCommitRejected.

(** A call of HandleProposedHeader: at RESTART, inside the backfill, about to send the header to the
    kernel's buffered channel, or returned. *)
Inductive HeaderCall :=
| HCheck (ph : ProposedHeader)
| HBackfill (ph : ProposedHeader) (c : PrecommitCall)
| HAdd (ph : ProposedHeader)
| HDone (res : HandleProposedHeaderResult).

Definition HandleProposedHeader (ph : ProposedHeader) : HeaderCall := HCheck ph.

(** What follows the check. *)
Definition afterCheck (ph : ProposedHeader) (checkResp : PHCheckResponse P) : outcome HeaderCall :=
  match checkResp.(phc_Status) with
  | PHCheckAlreadyHaveSignature => Ret (HDone HandleProposedHeaderAlreadyStored)
  | PHCheckAcceptable =>
      v ← validateHeader ph checkResp;
      Ret match v with Some res => HDone res | None => HAdd ph end
  | PHCheckSignerUnrecognized => Ret (HDone HandleProposedHeaderSignerUnrecognized)
  | PHCheckNextHeight => Ret (HBackfill ph (backfillCommitForNextHeightPE ph))
  | PHCheckRoundTooOld => Ret (HDone HandleProposedHeaderRoundTooOld)
  | PHCheckRoundTooFarInFuture => Ret (HDone HandleProposedHeaderRoundTooFarInFuture)
  | PHCheckInvalid => Panic "TODO: handle PHCheck status Invalid"
  end.

(** The status of a finished backfill is dropped, and the call starts again. *)
Definition headerStep (c : HeaderCall) : M HeaderCall :=
  match c with
  | HCheck ph =>
      checkResp ← ask (InPHCheck ph) asPHCheck;
      liftO (afterCheck ph checkResp)
  | HBackfill ph (PCDone res) => let _ := backfillStatus res in mret (HCheck ph)
  | HBackfill ph c => c' ← precommitStep c; mret (HBackfill ph c')
  | HAdd ph => mret c
  | HDone res => mret c
  end.

(** A call left alone with the kernel for [n] steps. *)
Fixpoint runHeader (n : nat) (c : HeaderCall) : M HeaderCall :=
  match n with O => mret c | S n => c' ← headerStep c; runHeader n c' end.

(** * Views *)

(** VotingView and CommittingView overwrite the view they are given with a full snapshot. *)
Definition asSnapshot (e : Event P) : option (option (VersionedRoundView P) * option (VersionedRoundView P)) :=
  match e with EvSnapshot v c => Some (v, c) | _ => None end.

Definition getSnapshot (req : SnapshotRequest P) :
  M (option (VersionedRoundView P) * option (VersionedRoundView P)) :=
  ask (InSnapshot req) asSnapshot.

Definition VotingView (v : VersionedRoundView P) : M (VersionedRoundView P) :=
  s ← getSnapshot (MkSnapshot (Some v) None RVAll); mret (default v s.1).
Definition CommittingView (v : VersionedRoundView P) : M (VersionedRoundView P) :=
  s ← getSnapshot (MkSnapshot None (Some v) RVAll); mret (default v s.2).
End mirror.
Arguments PrevoteCall : clear implicits.
Arguments PrecommitCall : clear implicits.
Arguments HeaderCall : clear implicits.
