(* ===== verification/KernelExample.v ===== *)
(** A concrete kernel to evaluate the handlers on: four validators of power one, the simple proof over
    finite sets, the in-memory stores, and toy hash and signature schemes. *)
From S2P Require Import Prelude Types BitSets Powers SigProof SimpleProofs VoteSummary RoundView.
From S2P Require Import Stores Managers KState KernelBase Kernel KernelHandlers KernelLoop.

Definition TP : Type := SimpleProof (gset nat).

(** Sign content that names the kind, height, round and hash. *)
Definition toyContent (kind : bytes) (vt : VoteTarget) : result bytes :=
  Ok (kind +:+ String (ascii_of_N (Z.to_N vt.(vt_Height)))
        (String (ascii_of_N (Z.to_N vt.(vt_Round))) vt.(vt_BlockHash))).

Definition toySigScheme : SignatureScheme :=
  MkSignatureScheme (fun h r _ => toyContent "H" (MkVoteTarget h.(Height) r h.(Hash)))
    (toyContent "V") (toyContent "C").

(** A header's hash is its data ID. *)
Definition toyHashScheme : HashScheme :=
  MkHashScheme (fun h => Ok h.(DataID)) (fun keys => Ok (String.concat "," (map pk_PubKeyBytes keys)))
    (fun _ => Ok "p").

#[export] Instance toyStores : KernelStores MemStores := MemStores_KernelStores toyHashScheme.
#[export] Instance toyStores_laws : KernelStoresLaws MemStores := MemStores_laws toyHashScheme.
#[export] Existing Instance toyVerify.

Definition toyValidators : list Validator :=
  map (fun n => MkValidator (MkPubKey "toy" n) 1) ["a"; "b"; "c"; "d"].
Definition toyValSet : ValidatorSet := MkValidatorSet toyValidators "a,b,c,d" "p".

Definition toyKernel : Kernel := MkKernel toyHashScheme toySigScheme 1 toyValSet 2.

Definition TW : Type := World TP MemStores.
Definition emptyWorld : TW :=
  MkWorld (seedState (MkNHR 0 0 0 0) true true true) NewMemStores [] [].

Definition worldOr {A} (d : TW) (m : outcome (A * TW)) : TW := match m with Ret r => r.2 | Panic _ => d end.

(** The kernel after starting on empty stores. *)
Definition startWorld : TW := worldOr emptyWorld (NewKernel (B := gset nat) toyKernel true true true emptyWorld).

(** A header for height [h] with hash [hash]; [next] votes on the height after it. *)
Definition toyHeader (h : Z) (hash prev : bytes) (pcp : CommitProof) : Header :=
  MkHeader hash prev h pcp toyValSet toyValSet hash nilHash (MkAnnotations nilHash nilHash).
Definition toyPH (h r : Z) (hash key : bytes) (pcp : CommitProof) : ProposedHeader :=
  MkProposedHeader (toyHeader h hash nilHash pcp) r (Some (MkPubKey "toy" key))
    (MkAnnotations nilHash nilHash) (key +:+ hash).

(** A precommit proof signed by the given validators. *)
Definition toyContentOf (m : result bytes) : bytes := match m with Ok c => c | Err _ => nilHash end.
Definition signWith (content : bytes) (p : TP) (key : bytes) : TP :=
  match cmsp_AddSignature (key +:+ content) (MkPubKey "toy" key) p with Ok p' => p' | Err _ => p end.
Definition toyProofOf (kind : bytes) (h r : Z) (hash : bytes) (signers : list bytes) : TP :=
  let content := toyContentOf (toyContent kind (MkVoteTarget h r hash)) in
  foldl (signWith content)
    (MkSimple content ∅ (ValidatorsToPubKeys toyValidators)
       (indexKeys (ValidatorsToPubKeys toyValidators)) "a,b,c,d" ∅) signers.

Definition toyPrecommits (h r : Z) (hash : bytes) (signers : list bytes) (prev : Z) : AddPrecommitRequest TP :=
  MkAddPrecommit h r {[hash := MkVoteUpdate (toyProofOf "C" h r hash signers) prev]} true.

(** A proposed header and then three of four precommits commit height 1. *)
Definition proposedWorld : TW :=
  worldOr emptyWorld (handle toyKernel (InAddPH (toyPH 1 0 "x" "a" (MkCommitProof 0 nilHash gm_make))) startWorld).
Definition commitInput : Input := InAddPrecommit (toyPrecommits 1 0 "x" ["a"; "b"; "c"] 0).
Definition committedWorld : TW := worldOr emptyWorld (handle toyKernel commitInput proposedWorld).

Example start_position :
  vHeight startWorld.(w_k).(s_Voting) = 1 /\ vRound startWorld.(w_k).(s_NextRound) = 1.
Proof. vm_compute. split; reflexivity. Qed.

Example commit_position :
  vHeight committedWorld.(w_k).(s_Voting) = 2 /\ vHeight committedWorld.(w_k).(s_Committing) = 1 /\
  committedWorld.(w_k).(CommittingHeader).(Hash) = "x".
Proof. vm_compute. split_and!; reflexivity. Qed.
