(* ===== verification/KernelSpec.v ===== *)
(** The abstract protocol the mirror kernel implements: the voting, next-round and committing views, the
    committing header and the log of committed headers, with one transition per kind of progress.
    KernelRefine shows that every iteration of the kernel's main loop is a sequence of these
    transitions; the invariants are proved here, by induction on them. *)
From S2P Require Import Prelude Types BitSets Powers SigProof SimpleProofs VoteSummary RoundView.
From S2P Require Import Stores Managers KState KernelBase Kernel KernelHandlers.

Record AState (P : Type) := MkAState {
  aV : RoundView P;
  aN : RoundView P;
  aC : RoundView P;
  aCH : Header;
  aLog : Z -> option Header
}.
Arguments MkAState {P}.
Arguments aV {P}.
Arguments aN {P}.
Arguments aC {P}.
Arguments aCH {P}.
Arguments aLog {P}.

(** Equality with the log compared pointwise. *)
Record aeq {P} (a b : AState P) : Prop := {
  aeq_V : b.(aV) = a.(aV);
  aeq_N : b.(aN) = a.(aN);
  aeq_C : b.(aC) = a.(aC);
  aeq_CH : b.(aCH) = a.(aCH);
  aeq_log : forall h, b.(aLog) h = a.(aLog) h
}.

Section spec.
Context {P B : Type} `{BitSet B, !CMSP P B}.
Implicit Types (a : AState P) (rv : RoundView P).

Definition rvVals rv : list Validator := rv.(rv_ValidatorSet).(Validators).

Definition rvWithPrevotes rv (proofs : gomap P) (vs : VoteSummary) : RoundView P :=
  {| rv with rv_PrevoteProofs := proofs; rv_VoteSummary := vs |}.
Definition rvWithPrecommits rv (proofs : gomap P) (vs : VoteSummary) : RoundView P :=
  {| rv with rv_PrecommitProofs := proofs; rv_VoteSummary := vs |}.

(** The power the tally gives the strongest precommit hash. *)
Definition topPrecommitPower rv : Z :=
  gm_getz 0 rv.(rv_VoteSummary).(PrecommitBlockPower) rv.(rv_VoteSummary).(MostVotedPrecommitHash).

(** Why a round may be left: its precommits reached a majority for nil; all of the power precommitted
    without a majority; or a minority of the power has voted in the next round. *)
Definition advanceReason (v n : RoundView P) : Prop :=
  (exists maj, ByzantineMajority v.(rv_VoteSummary).(AvailablePower) = Ret maj /\
     (v.(rv_VoteSummary).(MostVotedPrecommitHash) = nilHash /\ maj <= topPrecommitPower v \/
      topPrecommitPower v < maj /\
      v.(rv_VoteSummary).(TotalPrecommitPower) = v.(rv_VoteSummary).(AvailablePower))) \/
  (exists min, ByzantineMinority n.(rv_VoteSummary).(AvailablePower) = Ret min /\
     (min <= n.(rv_VoteSummary).(TotalPrevotePower) \/ min <= n.(rv_VoteSummary).(TotalPrecommitPower))).

(** The next round becomes the voting round, and the round after it starts empty. *)
Definition nextRoundOf a : AState P :=
  {| a with aV := a.(aN);
            aN := let rv := RoundView_ResetForSameHeight a.(aV) in
                  {| rv with rv_Round := u32 (a.(aN).(rv_Round) + 1) |} |}.

(** A majority of the voting view's power has precommitted the hash of a header of the view. *)
Definition commitGuard (ph : ProposedHeader) rv : Prop :=
  ph ∈ rv.(rv_ProposedHeaders) /\
  ph.(ph_Header).(Hash) = rv.(rv_VoteSummary).(MostVotedPrecommitHash) /\
  ph.(ph_Header).(Hash) <> nilHash /\
  exists maj, ByzantineMajority rv.(rv_VoteSummary).(AvailablePower) = Ret maj /\
    maj <= topPrecommitPower rv.

(** The next height: the voting view becomes the committing one (it may lose its previous commit proof,
    when it shares that map with the next round), and the header's next validators vote. *)
Definition nextHeightOf (hd : Header) (c : RoundView P) (n : VersionedRoundView P) a : AState P :=
  let h := u64 (a.(aV).(rv_Height) + 1) in
  let pcp := MkCommitProof a.(aV).(rv_Round) a.(aV).(rv_ValidatorSet).(PubKeyHash)
               (commitProofsOf a.(aV).(rv_PrecommitProofs)) in
  let v := (newVotingView h hd.(NextValidatorSet) pcp).(vrv_RV) in
  {| a with aV := v;
            aN := (newNextRoundView h hd.(NextValidatorSet) pcp v.(rv_VoteSummary).(AvailablePower) n).(vrv_RV);
            aC := c;
            aCH := hd |}.

(** What a transition does to the position: nothing, the next round for a reason, a skip towards round
    [r], or the next height. *)
Inductive label := LQuiet | LAdvance | LJump (r : Z) | LCommit.

(** [newOK rv hash p]: what is known of a precommit proof that enters a view. *)
Inductive astep (newOK : RoundView P -> bytes -> P -> Prop) : label -> AState P -> AState P -> Prop :=
| as_frame a b : aeq a b -> astep newOK LQuiet a b
| as_header_voting ph a : ph.(ph_Header).(Height) = a.(aV).(rv_Height) ->
    astep newOK LQuiet a {| a with aV := appendPH ph a.(aV) |}
| as_header_next ph a : ph.(ph_Header).(Height) = a.(aV).(rv_Height) ->
    astep newOK LQuiet a {| a with aN := appendPH ph a.(aN) |}
| as_prevotes_voting proofs vs a : proofs <> None ->
    SetPrevotePowers (rvVals a.(aV)) proofs a.(aV).(rv_VoteSummary) = Ret vs ->
    astep newOK LQuiet a {| a with aV := rvWithPrevotes a.(aV) proofs vs |}
| as_prevotes_next proofs vs a : proofs <> None ->
    SetPrevotePowers (rvVals a.(aN)) proofs a.(aN).(rv_VoteSummary) = Ret vs ->
    astep newOK LQuiet a {| a with aN := rvWithPrevotes a.(aN) proofs vs |}
| as_precommits_voting proofs vs a : proofs <> None ->
    (forall h p, gm_get proofs h = Some p ->
       gm_get a.(aV).(rv_PrecommitProofs) h = Some p \/ newOK a.(aV) h p) ->
    SetPrecommitPowers (rvVals a.(aV)) proofs a.(aV).(rv_VoteSummary) = Ret vs ->
    astep newOK LQuiet a {| a with aV := rvWithPrecommits a.(aV) proofs vs |}
| as_precommits_next proofs vs a : proofs <> None ->
    (forall h p, gm_get proofs h = Some p ->
       gm_get a.(aN).(rv_PrecommitProofs) h = Some p \/ newOK a.(aN) h p) ->
    SetPrecommitPowers (rvVals a.(aN)) proofs a.(aN).(rv_VoteSummary) = Ret vs ->
    astep newOK LQuiet a {| a with aN := rvWithPrecommits a.(aN) proofs vs |}
| as_committing c a : c.(rv_Height) = a.(aC).(rv_Height) -> c.(rv_Round) = a.(aC).(rv_Round) ->
    c.(rv_ValidatorSet) = a.(aC).(rv_ValidatorSet) ->
    astep newOK LQuiet a {| a with aC := c |}
| as_advance a : advanceReason a.(aV) a.(aN) -> astep newOK LAdvance a (nextRoundOf a)
| as_jump r a : a.(aV).(rv_Round) < r -> astep newOK (LJump r) a (nextRoundOf a)
| as_commit ph c n a : commitGuard ph a.(aV) ->
    c.(rv_Height) = a.(aV).(rv_Height) -> c.(rv_Round) = a.(aV).(rv_Round) ->
    c.(rv_ValidatorSet) = a.(aV).(rv_ValidatorSet) ->
    c.(rv_PrecommitProofs) = a.(aV).(rv_PrecommitProofs) ->
    n.(vrv_RV) = a.(aN) ->
    astep newOK LCommit a (nextHeightOf ph.(ph_Header) c n a)
| as_saved b a : b.(aV) = a.(aV) -> b.(aN) = a.(aN) -> b.(aC) = a.(aC) -> b.(aCH) = a.(aCH) ->
    b.(aLog) a.(aCH).(Height) = Some a.(aCH) ->
    (forall h, h <> a.(aCH).(Height) -> b.(aLog) h = a.(aLog) h) ->
    astep newOK LQuiet a b.

(** [crun newOK jump n a b]: a sequence of transitions from [a] to [b] with at most [n] commits, in which
    rounds are skipped only towards the round [jump]. *)
Inductive crun (newOK : RoundView P -> bytes -> P -> Prop) (jump : option Z) :
  nat -> AState P -> AState P -> Prop :=
| crun_refl n a : crun newOK jump n a a
| crun_step l n a b c : astep newOK l a b -> (forall r, l = LJump r -> jump = Some r) -> l <> LCommit ->
    crun newOK jump n b c -> crun newOK jump n a c
| crun_commit n a b c : astep newOK LCommit a b -> crun newOK jump n b c -> crun newOK jump (S n) a c.

Lemma crun_more newOK jump n m a b : crun newOK jump n a b -> crun newOK jump (n + m) a b.
Proof.
  intros Hr. induction Hr as [n a|l n a b c Hs Hj Hl Hr IH|n a b c Hs Hr IH].
  - apply crun_refl.
  - by eapply crun_step.
  - by eapply crun_commit.
Qed.

Lemma crun_trans newOK jump n m a b c :
  crun newOK jump n a b -> crun newOK jump m b c -> crun newOK jump (n + m) a c.
Proof.
  intros Hr Hc. induction Hr as [n a|l n a b d Hs Hj Hl Hr IH|n a b d Hs Hr IH].
  - rewrite Nat.add_comm. by apply crun_more.
  - by eapply crun_step; [..|apply IH].
  - simpl. by eapply crun_commit; [|apply IH].
Qed.

(** An invariant of the transitions holds along a run. *)
Lemma crun_inv newOK jump (I : AState P -> Prop) : (forall l a b, astep newOK l a b -> I a -> I b) ->
  forall n a b, crun newOK jump n a b -> I a -> I b.
Proof. intros Hstep n a b Hr. induction Hr; eauto. Qed.
End spec.

(** The abstract state of a world. *)
Definition abs {P ST : Type} `{KernelStores ST} (w : World P ST) : AState P :=
  MkAState w.(w_k).(s_Voting).(vrv_RV) w.(w_k).(s_NextRound).(vrv_RV) w.(w_k).(s_Committing).(vrv_RV)
    w.(w_k).(CommittingHeader) (fun h => committedAt h w.(w_st)).

(** * Invariants of the protocol *)
Section invariants.
Context {P B : Type} `{BitSetLaws B, !CMSP P B}.
Context (newOK : RoundView P -> bytes -> P -> Prop).
Implicit Types (a b : AState P) (rv : RoundView P).

(** ** Views and summaries agree *)
Record a_coherent a : Prop := {
  ac_voting : rv_ok a.(aV);
  ac_next : rv_ok a.(aN);
  ac_height : a.(aN).(rv_Height) = a.(aV).(rv_Height);
  ac_round : a.(aN).(rv_Round) = u32 (a.(aV).(rv_Round) + 1);
  ac_vals : a.(aN).(rv_ValidatorSet) = a.(aV).(rv_ValidatorSet)
}.

Lemma rv_ok_withPrevotes rv proofs vs : rv_ok rv -> proofs <> None ->
  SetPrevotePowers (rvVals rv) proofs rv.(rv_VoteSummary) = Ret vs -> rv_ok (rvWithPrevotes rv proofs vs).
Proof.
  intros [Hp Hc Ha Htp Htc] Hne Hs. unfold SetPrevotePowers in Hs.
  destruct (PrevoteBlockPower (rv_VoteSummary rv)) as [g|] eqn:Eg;
    [|destruct (tallied_block_some _ _ _ _ _ Htp); congruence].
  apply bind_Ret_inv in Hs as (t & Ht & Hs). injection Hs as <-.
  apply tally_tallied in Ht. by split.
Qed.

Lemma rv_ok_withPrecommits rv proofs vs : rv_ok rv -> proofs <> None ->
  SetPrecommitPowers (rvVals rv) proofs rv.(rv_VoteSummary) = Ret vs -> rv_ok (rvWithPrecommits rv proofs vs).
Proof.
  intros [Hp Hc Ha Htp Htc] Hne Hs. unfold SetPrecommitPowers in Hs.
  destruct (PrecommitBlockPower (rv_VoteSummary rv)) as [g|] eqn:Eg;
    [|destruct (tallied_block_some _ _ _ _ _ Htc); congruence].
  apply bind_Ret_inv in Hs as (t & Ht & Hs). injection Hs as <-.
  apply tally_tallied in Ht. by split.
Qed.

Lemma a_coherent_step l a b : astep newOK l a b -> a_coherent a -> a_coherent b.
Proof.
  intros Hst [Hv Hn Hh Hr Hvals]. destruct Hst as
    [a b [Ev En Ec Ech El]|ph a Hph|ph a Hph|proofs vs a Hne Hs|proofs vs a Hne Hs|
     proofs vs a Hne Hnew Hs|proofs vs a Hne Hnew Hs|c a|a Hreason|r a Hlt|ph c n a Hg _ _ _ _ Hn'|
     b a Ev En Ec Ech _ _]; try (split; done).
  - split; by rewrite ?Ev, ?En.
  - split; simpl; try done. by apply rv_ok_phs.
  - split; simpl; try done. by apply rv_ok_phs.
  - split; simpl; try done. by apply rv_ok_withPrevotes.
  - split; simpl; try done. by apply rv_ok_withPrevotes.
  - split; simpl; try done. by apply rv_ok_withPrecommits.
  - split; simpl; try done. by apply rv_ok_withPrecommits.
  - split; simpl; try done.
    by apply (rv_ok_round (RoundView_ResetForSameHeight (aV a))), rv_ok_ResetForSameHeight.
  - split; simpl; try done.
    by apply (rv_ok_round (RoundView_ResetForSameHeight (aV a))), rv_ok_ResetForSameHeight.
  - assert (Havail : foldl (fun x v => u64 (x + v.(val_Power))) 0
              (Validators (NextValidatorSet (ph_Header ph))) =
            u64 (totalPowerZ (Validators (NextValidatorSet (ph_Header ph))))).
    { rewrite <- (SetAvailablePower_spec _ NewVoteSummary). done. }
    split; simpl; try done.
    + apply (view_ok_newVoting (P := P) (u64 (rv_Height (aV a) + 1))).
    + rewrite Havail. apply (view_ok_newNextRound (P := P)). unfold view_ok. by rewrite Hn'.
  - split; by rewrite ?Ev, ?En.
Qed.

(** ** Heights, and the log *)

(** The voting height is one above the committed header's; headers of the views are for that height;
    nothing above the committing header is logged, and its own entry is that header. *)
Record a_chain a : Prop := {
  ah_next : a.(aN).(rv_Height) = a.(aV).(rv_Height);
  ah_phs : forall ph, ph ∈ a.(aV).(rv_ProposedHeaders) \/ ph ∈ a.(aN).(rv_ProposedHeaders) ->
    ph.(ph_Header).(Height) = a.(aV).(rv_Height);
  ah_commit : a.(aCH).(Height) < a.(aV).(rv_Height);
  ah_above : forall h, a.(aCH).(Height) < h -> a.(aLog) h = None;
  ah_own : forall hd, a.(aLog) a.(aCH).(Height) = Some hd -> hd = a.(aCH)
}.

(** A transition keeps the chain invariant, moves the position forward, and never changes what the log
    already says; all below the point where the height counter would wrap around. *)
Lemma a_chain_step l a b : astep newOK l a b -> a_chain a ->
  0 <= a.(aV).(rv_Height) < two64 -> (l = LCommit -> a.(aV).(rv_Height) < two64 - 1) ->
  a_chain b /\ a.(aV).(rv_Height) <= b.(aV).(rv_Height) <= a.(aV).(rv_Height) + 1 /\
  (l <> LCommit -> b.(aV).(rv_Height) = a.(aV).(rv_Height)) /\
  (forall h hd, a.(aLog) h = Some hd -> b.(aLog) h = Some hd).
Proof.
  intros Hst Hch Hw Hlast. pose proof Hch as [Hnh Hphs Hc Hab Hown]. destruct Hst as
    [a b [Ev En Ec Ech El]|ph a Hph|ph a Hph|proofs vs a Hne Hs|proofs vs a Hne Hs|
     proofs vs a Hne Hnew Hs|proofs vs a Hne Hnew Hs|c a|a Hreason|r a Hlt|ph c n a Hg Hch1 _ _ _ Hn'|
     b a Ev En Ec Ech Hsv Hfr]; simpl.
  - split; [|split; [rewrite Ev; lia|split; [by rewrite Ev|intros h hd; by rewrite El]]].
    split; rewrite ?Ev, ?En, ?Ech; try done; intros h; rewrite El; auto.
  - split; [|split; [lia|split; done]]. split; simpl; try done.
    intros ph' [[?| ->%list_elem_of_singleton]%elem_of_app|?]; auto.
  - split; [|split; [lia|split; done]]. split; simpl; try done.
    intros ph' [?|[?| ->%list_elem_of_singleton]%elem_of_app]; auto.
  - split; [|split; [lia|split; done]]. by split.
  - split; [|split; [lia|split; done]]. by split.
  - split; [|split; [lia|split; done]]. by split.
  - split; [|split; [lia|split; done]]. by split.
  - split; [|split; [lia|split; done]]. by split.
  - split; [|split; [lia|split; done]]. split; simpl; try done; [|lia].
    intros ph [?|?]; [|set_solver]. rewrite Hnh. auto.
  - split; [|split; [lia|split; done]]. split; simpl; try done; [|lia].
    intros ph [?|?]; [|set_solver]. rewrite Hnh. auto.
  - specialize (Hlast eq_refl). destruct Hg as (Hin & _). assert (Hhd : Height (ph_Header ph) = rv_Height (aV a)) by auto.
    rewrite (u64_small (rv_Height (aV a) + 1)) by (unfold is_u64; lia).
    split; [|split; [lia|split; done]]. split; simpl; try done.
    + intros ph' [?|?]; set_solver.
    + rewrite (u64_small (rv_Height (aV a) + 1)) by (unfold is_u64; lia). lia.
    + intros h Hh. apply Hab. lia.
    + intros hd Hhd'. rewrite Hab in Hhd' by lia. done.
  - split; [|split; [rewrite Ev; lia|split; [by rewrite Ev|]]].
    + split; rewrite ?Ev, ?En, ?Ech; try done.
      * intros h Hh. rewrite Hfr by lia. auto.
      * intros hd. rewrite Hsv. congruence.
    + intros h hd Hl. destruct (decide (h = Height (aCH a))) as [->|Hne]; [|by rewrite Hfr].
      rewrite Hsv. apply Hown in Hl. by subst.
Qed.
(** Along a run that stays below the point where the height counter would wrap around. *)
Lemma crun_chain jump n a b : crun newOK jump n a b -> a_chain a ->
  0 <= a.(aV).(rv_Height) -> a.(aV).(rv_Height) + Z.of_nat n < two64 ->
  a_chain b /\ a.(aV).(rv_Height) <= b.(aV).(rv_Height) <= a.(aV).(rv_Height) + Z.of_nat n /\
  (forall h hd, a.(aLog) h = Some hd -> b.(aLog) h = Some hd).
Proof.
  intros Hr. induction Hr as [n a|l n a b c Hs Hj Hl Hr IH|n a b c Hs Hr IH]; intros Hc Hpos Hn.
  - split; [done|split; [lia|done]].
  - destruct (a_chain_step l a b Hs Hc ltac:(lia) ltac:(done)) as (Hb & Hle & He & Hlog).
    specialize (He Hl). destruct (IH Hb ltac:(lia) ltac:(lia)) as (Hcc & Hle' & Hlog').
    split; [done|split; [lia|auto]].
  - destruct (a_chain_step LCommit a b Hs Hc ltac:(lia) ltac:(lia)) as (Hb & Hle & _ & Hlog).
    destruct (IH Hb ltac:(lia) ltac:(lia)) as (Hcc & Hle' & Hlog').
    split; [done|split; [lia|auto]].
Qed.
End invariants.
