(* ===== verification/KernelRefine.v ===== *)
(** Every iteration of the kernel's main loop is a sequence of transitions of the abstract protocol
    (KernelSpec). *)
From S2P Require Import Prelude Types BitSets Powers SigProof SimpleProofs VoteSummary RoundView.
From S2P Require Import Stores Managers KState KernelBase Kernel KernelHandlers KernelLoop.
From S2P Require Import KernelSpec.
From stdpp Require Import relations.
Local Open Scope Z_scope.

Section refine.
Context {P B ST : Type} `{BitSet B, !CMSP P B, !CMSPScheme P, !KernelStores ST, !KernelStoresLaws ST}.
Context (k : Kernel) (newOK : RoundView P -> bytes -> P -> Prop) (jump : option Z).
Implicit Types (w : World P ST).
Local Abbreviation M := (K P ST).

#[local] Instance aeq_refl : Reflexive (@aeq P).
Proof. by split. Qed.

Lemma aeq_trans (a b c : AState P) : aeq a b -> aeq b c -> aeq a c.
Proof. intros [] []. split; congruence. Qed.

(** ** Frames: computations the protocol does not see *)
Definition frames {A} (m : M A) w : Prop := wp m w (fun _ w' => aeq (abs w) (abs w')).

(** The computation is a run of the protocol with at most [n] commits. *)
Definition refines {A} (n : nat) (m : M A) w : Prop :=
  wp m w (fun _ w' => crun newOK jump n (abs w) (abs w')).

Lemma frames_ret {A} (a : A) w : frames (mret a) w.
Proof. apply wp_ret. reflexivity. Qed.

Lemma frames_bind {A C} (m : M A) (f : A -> M C) w :
  frames m w -> (forall a w', frames (f a) w') -> frames (m ≫= f) w.
Proof.
  intros Hm Hf. apply wp_bind. eapply wp_mono; [|apply Hm]. intros a w' Hw.
  eapply wp_mono; [|apply Hf]. intros c w'' Hw'. exact (aeq_trans _ _ _ Hw Hw').
Qed.

Lemma frames_getK w : frames getK w.
Proof. unfold frames, wp. simpl. reflexivity. Qed.
Lemma frames_gets {A} (f : kState P -> A) w : frames (gets f) w.
Proof. unfold frames, wp. simpl. reflexivity. Qed.
Lemma frames_getW w : frames getW w.
Proof. unfold frames, wp. simpl. reflexivity. Qed.
Lemma frames_getStore {A} (f : ST -> A) w : frames (getStore f) w.
Proof. unfold frames, wp. simpl. reflexivity. Qed.
Lemma frames_liftO {A} (m : outcome A) w : frames (liftO m) w.
Proof. apply wp_liftO_eq. intros a _. reflexivity. Qed.
Lemma frames_panic {A} msg w : frames (panicK (A := A) msg) w.
Proof. done. Qed.
Lemma frames_emit e w : frames (emit e) w.
Proof. unfold frames, wp. simpl. by split. Qed.
Lemma frames_pushFetch r w : frames (pushFetch r) w.
Proof. unfold frames, wp. simpl. by split. Qed.

(** States with the same three round views and committing header. *)
Definition same4 (s s' : kState P) : Prop :=
  s'.(s_Voting).(vrv_RV) = s.(s_Voting).(vrv_RV) /\
  s'.(s_NextRound).(vrv_RV) = s.(s_NextRound).(vrv_RV) /\
  s'.(s_Committing).(vrv_RV) = s.(s_Committing).(vrv_RV) /\
  s'.(CommittingHeader) = s.(CommittingHeader).

Lemma frames_modK f w : (forall s, same4 s (f s)) -> frames (modK f) w.
Proof. intros Hf. destruct (Hf w.(w_k)) as (? & ? & ? & ?). by split. Qed.

Lemma frames_modKO f w : (forall s s', f s = Ret s' -> same4 s s') -> frames (modKO f) w.
Proof.
  intros Hf. apply wp_modKO. intros s' Hs. destruct (Hf _ _ Hs) as (? & ? & ? & ?). by split.
Qed.

Lemma frames_callStore f w : (forall s s' e, f s = (s', e) -> forall h, committedAt h s' = committedAt h s) ->
  frames (callStore f) w.
Proof. intros Hf. apply wp_callStore. intros s e Hs. split; try done. simpl. by eapply Hf. Qed.

Lemma frames_callStoreO f w :
  (forall s s' e, f s = Ret (s', e) -> forall h, committedAt h s' = committedAt h s) ->
  frames (callStoreO f) w.
Proof. intros Hf. apply wp_callStoreO. intros s e Hs. split; try done. simpl. by eapply Hf. Qed.

Lemma frames_forK {A} (f : A -> M unit) l w : (forall a w, frames (f a) w) -> frames (forK f l) w.
Proof.
  intros Hf. revert w. induction l as [|a l IH]; intros w; [apply frames_ret|].
  apply frames_bind; [apply Hf|]. intros _ w'. apply IH.
Qed.

(** ** Refinement rules *)
Lemma crun_once n l a b : astep newOK l a b -> (forall r, l = LJump r -> jump = Some r) -> l <> LCommit ->
  crun newOK jump n a b.
Proof. intros Hs Hj Hl. eapply crun_step; [done..|]. apply crun_refl. Qed.

Lemma refines_frame {A} n (m : M A) w : frames m w -> refines n m w.
Proof. apply wp_mono. intros _ w' Ha. by eapply crun_once; [apply as_frame|..]. Qed.

(** A commit happens in the second computation of a sequence, or in the first. *)
Lemma refines_bind {A C} n (m : M A) (f : A -> M C) w :
  refines 0 m w -> (forall a w', m w = Ret (a, w') -> refines n (f a) w') -> refines n (m ≫= f) w.
Proof.
  intros Hm Hf. apply wp_bind. apply wp_intro. intros a w' Hr.
  pose proof (wp_run _ _ _ _ _ Hm Hr) as Hw. simpl in Hw.
  eapply wp_mono; [|by apply Hf]. intros c w'' Hw'. exact (crun_trans _ _ 0 n _ _ _ Hw Hw').
Qed.

Lemma refines_bind_first {A C} n (m : M A) (f : A -> M C) w :
  refines n m w -> (forall a w', m w = Ret (a, w') -> refines 0 (f a) w') -> refines n (m ≫= f) w.
Proof.
  intros Hm Hf. apply wp_bind. apply wp_intro. intros a w' Hr.
  pose proof (wp_run _ _ _ _ _ Hm Hr) as Hw. simpl in Hw.
  eapply wp_mono; [|by apply Hf]. intros c w'' Hw'. rewrite <- (Nat.add_0_r n).
  exact (crun_trans _ _ n 0 _ _ _ Hw Hw').
Qed.

Lemma refines_ret {A} n (a : A) w : refines n (mret a) w.
Proof. apply refines_frame, frames_ret. Qed.

Lemma refines_panic {A} n msg w : refines n (panicK (A := A) msg) w.
Proof. done. Qed.

(** Reading the state: the continuation runs on the same world. *)
Lemma refines_getK {C} n (f : kState P -> M C) w : refines n (f w.(w_k)) w -> refines n (getK ≫= f) w.
Proof. intros Hf. exact Hf. Qed.

Lemma refines_gets {A C} n (g : kState P -> A) (f : A -> M C) w :
  refines n (f (g w.(w_k))) w -> refines n (gets g ≫= f) w.
Proof. intros Hf. exact Hf. Qed.

Lemma refines_liftO {A C} n (m : outcome A) (f : A -> M C) w :
  (forall a, m = Ret a -> refines n (f a) w) -> refines n (liftO m ≫= f) w.
Proof.
  intros Hf. apply wp_bind, wp_liftO_eq. intros a Ha. by apply Hf.
Qed.

Lemma refines_then {A C} n (m : M A) (f : A -> M C) w :
  frames m w -> (forall a w', m w = Ret (a, w') -> refines n (f a) w') -> refines n (m ≫= f) w.
Proof. intros Hm. apply refines_bind. by apply refines_frame. Qed.

Lemma refines_step {A} n l (m : M A) w : (forall r, l = LJump r -> jump = Some r) -> l <> LCommit ->
  (forall a w', m w = Ret (a, w') -> astep newOK l (abs w) (abs w')) -> refines n m w.
Proof. intros Hj Hl Hm. apply wp_intro. intros a w' Hr. by eapply crun_once; [by eapply Hm|done|done]. Qed.

Lemma refines_commit {A} n (m : M A) w :
  (forall a w', m w = Ret (a, w') -> astep newOK LCommit (abs w) (abs w')) -> refines (S n) m w.
Proof. intros Hm. apply wp_intro. intros a w' Hr. eapply crun_commit; [by eapply Hm|apply crun_refl]. Qed.

(** ** Marking and shifting *)
Lemma same4_MarkCommitting s : same4 s (MarkCommittingViewUpdated s).
Proof. done. Qed.
Lemma same4_MarkVoting s : same4 s (MarkVotingViewUpdated s).
Proof. done. Qed.
Lemma same4_MarkNext s : same4 s (MarkNextRoundViewUpdated s).
Proof. done. Qed.
Lemma same4_MarkViewUpdated id s s' : MarkViewUpdated id s = Ret s' -> same4 s s'.
Proof. destruct id; simpl; intros [= <-]; done. Qed.

Lemma frames_updateObservers w : frames updateObservers w.
Proof.
  apply frames_bind; [apply frames_getK|]. intros s w'. apply frames_bind; [|intros; apply frames_ret].
  apply frames_callStore. intros st st' e Hs h.
  pose proof (ksl_nhr h (MkNHR (vHeight (s_Voting s)) (vRound (s_Voting s))
    (vHeight (s_Committing s)) (vRound (s_Committing s))) st) as Hn. by rewrite Hs in Hn.
Qed.

Lemma refines_advance n w :
  advanceReason (abs w).(aV) (abs w).(aN) -> refines n advanceVotingRound w.
Proof.
  intros Hr. apply refines_bind.
  - apply (refines_step _ LAdvance); [done|done|]. intros [] w' Hw. injection Hw as <-.
    by apply (as_advance newOK (abs w)).
  - intros _ w' _. apply refines_frame, frames_bind; [apply frames_updateObservers|].
    intros; apply frames_ret.
Qed.

Lemma abs_jump w : abs {| w with w_k := JumpVotingRound w.(w_k) |} = nextRoundOf (abs w).
Proof. unfold abs, nextRoundOf, JumpVotingRound. simpl. by destruct (_ && _). Qed.

Lemma refines_jump n r w :
  (advanceReason (abs w).(aV) (abs w).(aN) \/ exists r', jump = Some r' /\ (abs w).(aV).(rv_Round) < r') ->
  refines n (jumpVotingRound r) w.
Proof.
  intros Hr. apply refines_bind.
  - destruct Hr as [Ha|(r' & Hj & Hlt)].
    + apply (refines_step _ LAdvance); [done|done|]. intros [] w' Hw. injection Hw as <-. rewrite abs_jump.
      by apply as_advance.
    + apply (refines_step _ (LJump r')); [by intros ? [= <-]|done|]. intros [] w' Hw. injection Hw as <-.
      rewrite abs_jump. by apply as_jump.
  - intros _ w' _. apply refines_frame, frames_bind; [apply frames_updateObservers|].
    intros; apply frames_ret.
Qed.

(** The views after a jump: the next round's are now the voting ones. *)
Lemma jumpVotingRound_result r w e w' : jumpVotingRound r w = Ret (e, w') ->
  w'.(w_k).(s_Voting).(vrv_RV) = w.(w_k).(s_NextRound).(vrv_RV).
Proof.
  unfold jumpVotingRound. intros Hr. apply bind_Ret_inv in Hr as ([[] w1] & H1 & H2).
  injection H1 as <-. simpl in H2. apply bind_Ret_inv in H2 as ([e' w2] & H2 & H3).
  injection H3 as _ <-. apply bind_Ret_inv in H2 as ([e'' w3] & H2 & H3).
  injection H3 as _ <-. injection H2 as <- <-. simpl.
  destruct (Jump_views (w_k w)) as (-> & _). done.
Qed.

(** ** Fetches *)
Lemma frames_tryFetch dist min hash w : frames (tryFetch k dist min hash) w.
Proof.
  unfold tryFetch. destruct (_ <? _); [apply frames_ret|].
  apply frames_bind; [apply frames_getW|]. intros w1 w2. case_bool_decide; [|apply frames_ret].
  apply frames_bind; [apply frames_pushFetch|]. intros _ w3. by apply frames_modK.
Qed.

Lemma frames_checkMissingPHs proofs w : frames (checkMissingPHs k proofs) w.
Proof.
  unfold checkMissingPHs. case_bool_decide; [apply frames_panic|].
  apply frames_bind; [apply frames_getK|]. intros s w'. case_bool_decide; [apply frames_ret|].
  apply frames_bind; [apply frames_liftO|]. intros min w''. apply frames_forK. apply frames_tryFetch.
Qed.

(** ** Commits *)
Lemma findPH_spec hash phs ph : findPH hash phs = Some ph -> ph ∈ phs /\ ph.(ph_Header).(Hash) = hash.
Proof.
  intros Hf. apply find_some in Hf as [Hin Heq]. apply String.eqb_eq in Heq.
  split; [by apply list_elem_of_In|done].
Qed.

Lemma committedAt_cleared ref st h : committedAt h (ks_mapCleared ref st) = committedAt h st.
Proof. apply ksl_cleared. Qed.

Lemma refines_shift ph w :
  commitGuard ph (abs w).(aV) ->
  refines 1 (shiftVotingToCommitting (MkNHD ph.(ph_Header).(NextValidatorSet) ph.(ph_Header))) w.
Proof.
  intros Hg. unfold shiftVotingToCommitting. apply refines_getK.
  destruct (ShiftVotingToCommitting _ _) as [[s' cleared] ch] eqn:Esh.
  destruct (Shift_views _ _ _ _ _ Esh) as (Ev & En & Ec & Ech). simpl in Ech.
  unfold vSummary, vPCP in En. rewrite Ev in En. simpl in En.
  apply refines_bind_first; [|intros [] w1 Hw1; apply refines_then; [|intros [] w2 _]].
  - apply refines_commit. intros [] w1 Hw1. injection Hw1 as <-.
    set (c := s'.(s_Committing).(vrv_RV)).
    replace (abs {| w with w_k := s' |}) with (nextHeightOf ph.(ph_Header) c w.(w_k).(s_NextRound) (abs w)).
    + apply as_commit; [done|..|done]; unfold c; destruct Ec as [->| ->]; done.
    + unfold nextHeightOf, abs; simpl. by rewrite Ev, En, Ech.
  - unfold frames, wp; simpl. split; try done. simpl. intros h. apply committedAt_cleared.
  - destruct ch; [apply refines_frame, frames_emit|apply refines_ret].
Qed.

Lemma refines_save n w : refines n saveCurrentCommittingHeader w.
Proof.
  unfold saveCurrentCommittingHeader. apply refines_getK, refines_bind; [|intros; apply refines_ret].
  apply (refines_step _ LQuiet); [done|done|]. intros e w' Hw. unfold callStore in Hw.
  destruct (ks_SaveCommittedHeader _ _ _) as [st e'] eqn:Es. injection Hw as <- <-. simpl.
  destruct e' as [e'|].
  - apply as_frame. split; try done. simpl. by eapply ksl_save_err.
  - apply as_saved; try done; simpl.
    + unfold committedAt. pose proof (ksl_save_ok _ _ _ _ Es) as Hl. simpl in Hl. by rewrite Hl.
    + intros h Hne. by eapply ksl_save_frame.
Qed.

Lemma refines_checkVotingPrecommit w : refines 1 checkVotingPrecommitViewShift w.
Proof.
  unfold checkVotingPrecommitViewShift. apply refines_getK, refines_liftO. intros maj Hmaj.
  destruct (Z.ltb_spec (gm_getz 0 (PrecommitBlockPower (vSummary (s_Voting (w_k w))))
    (MostVotedPrecommitHash (vSummary (s_Voting (w_k w))))) maj) as [Hlt|Hge].
  - destruct (Z.eqb_spec (TotalPrecommitPower (vSummary (s_Voting (w_k w))))
      (AvailablePower (vSummary (s_Voting (w_k w))))) as [Heq|_]; [|apply refines_ret].
    apply refines_advance. left. exists maj. split; [done|]. by right.
  - destruct (String.eqb_spec (MostVotedPrecommitHash (vSummary (s_Voting (w_k w)))) nilHash) as [Hn|Hn].
    { apply refines_advance. left. exists maj. split; [done|]. by left. }
    destruct (findPH _ _) as [ph|] eqn:Ef; [|apply refines_ret].
    apply findPH_spec in Ef as [Hin Hhash].
    apply refines_bind_first; [apply refines_shift|intros _ w1 _; apply refines_bind;
      [apply refines_save|intros [e|] w2 _; [apply refines_ret|apply refines_frame, frames_updateObservers]]].
    split; [done|]. split; [done|]. split; [by rewrite Hhash|]. by exists maj.
Qed.

Lemma refines_checkNextRoundPrecommit n w : refines n (checkNextRoundPrecommitViewShift k) w.
Proof.
  unfold checkNextRoundPrecommitViewShift. apply refines_getK, refines_liftO. intros min Hmin.
  destruct (Z.ltb_spec (TotalPrecommitPower (vSummary (s_NextRound (w_k w)))) min) as [?|Hge];
    [apply refines_ret|].
  apply refines_bind.
  { apply refines_jump. left. right. exists min. split; [done|]. by right. }
  intros [e|] w1 _; [apply refines_ret|]. apply refines_liftO. intros maj _.
  destruct (maj <=? _); [apply refines_panic|].
  apply refines_then; [|intros; apply refines_ret].
  destruct (min <=? _); [|apply frames_ret]. apply frames_bind; [apply frames_gets|].
  intros; apply frames_checkMissingPHs.
Qed.

Lemma refines_checkPrevote n id w : refines n (checkPrevoteViewShift k id) w.
Proof.
  unfold checkPrevoteViewShift. case_bool_decide; simpl; [|apply refines_panic].
  apply refines_getK, refines_liftO. intros min Hmin.
  destruct (Z.ltb_spec (TotalPrevotePower (vSummary (s_NextRound (w_k w)))) min) as [?|Hge];
    [apply refines_ret|].
  apply refines_bind.
  { apply refines_jump. left. right. exists min. split; [done|]. by left. }
  intros [e|] w1 _; [apply refines_ret|].
  apply refines_then; [|intros; apply refines_ret].
  destruct (min <=? _); [|apply frames_ret]. apply frames_bind; [apply frames_gets|].
  intros; apply frames_checkMissingPHs.
Qed.

(** ** Votes *)

Lemma FindView_found h r (s : kState P) id st : FindView h r s = Ret (id, st) ->
  (st = ViewFound <-> id <> ViewIDNotFound) /\
  (id = ViewIDVoting \/ id = ViewIDNextRound -> h = vHeight s.(s_Voting)) /\
  (st = ViewFound -> id = ViewIDVoting \/ id = ViewIDNextRound \/ id = ViewIDCommitting).
Proof.
  unfold FindView. destruct (Z.eqb_spec h (vHeight (s_Voting s))) as [->|Hne].
  - destruct (_ =? vRound _); [intros [= <- <-]; naive_solver|].
    destruct (_ =? u32 _); [intros [= <- <-]; naive_solver|].
    destruct (_ <? _); intros [= <- <-]; naive_solver.
  - repeat case_match; intros; simplify_eq; naive_solver.
Qed.

(** What the update loop does to the proofs. *)
Lemma applyUpdates_spec (proofs : gomap P) versions ups proofs' versions' acc any :
  applyUpdates proofs versions ups = Ret (proofs', versions', acc, any) ->
  (forall h p, gm_get proofs' h = Some p ->
     gm_get proofs h = Some p \/ exists u, ups !! h = Some u /\ p = u.(vu_Proof)) /\
  (any = true -> proofs' <> None) /\
  (any = false -> proofs' = proofs /\ versions' = versions).
Proof.
  unfold applyUpdates. intros Hr.
  assert (Hf : okay (foldO applyUpdate (proofs, versions, true, false) (map_to_list ups))
    (fun x => let '(pr, ve, _, an) := x in
      (forall h p, gm_get pr h = Some p ->
         gm_get proofs h = Some p \/ exists u, ups !! h = Some u /\ p = u.(vu_Proof)) /\
      (an = true -> pr <> None) /\ (an = false -> pr = proofs /\ ve = versions))).
  { apply foldO_okay_inv; [|split; [auto|done]].
    intros [h u] [[[pr ve] ac] an] Hin (H1 & H2 & H3). unfold applyUpdate.
    destruct (_ =? _); [|by split].
    destruct (gm_set h (vu_Proof u) pr) as [pr'|] eqn:Eset; simpl; [|done].
    split; [|split; [|done]].
    - intros h' p. rewrite (gm_get_set _ _ _ _ _ Eset). case_decide; [|apply H1].
      intros [= <-]. subst. right. exists u. split; [|done]. by apply elem_of_map_to_list.
    - intros _. destruct pr; simpl in Eset; [|discriminate]. by injection Eset as <-. }
  rewrite Hr in Hf. exact Hf.
Qed.

Lemma frames_respond b r w : frames (respond b r) w.
Proof. destruct b; [apply frames_emit|apply frames_ret]. Qed.

Lemma frames_voteViewNotFound st b w : frames (voteViewNotFound st b) w.
Proof. destruct st; try apply frames_panic; apply frames_respond. Qed.

Lemma rv_prevotes_id (rv : RoundView P) : {| rv with rv_PrevoteProofs := rv.(rv_PrevoteProofs) |} = rv.
Proof. by destruct rv. Qed.
Lemma rv_precommits_id (rv : RoundView P) : {| rv with rv_PrecommitProofs := rv.(rv_PrecommitProofs) |} = rv.
Proof. by destruct rv. Qed.

(** Assigning new votes and their bookkeeping is one transition. *)
Lemma refines_prevotes n id h r proofs versions w : proofs <> None ->
  refines n (_ ← modK (setView id (withPrevotes (viewOf id w.(w_k)) proofs versions)); recordPrevotes id h r) w.
Proof.
  intros Hne. apply wp_bind. unfold wp at 1; simpl. unfold recordPrevotes.
  apply wp_bind. unfold wp at 1; simpl. apply wp_bind, wp_liftO_eq. intros vs Hvs.
  apply wp_bind. unfold wp at 1; simpl. apply wp_bind, wp_modKO. intros s' Hs'.
  apply wp_bind, wp_liftO_eq. intros c Hc. apply wp_bind, wp_callStore. intros st e Hst. apply wp_ret.
  simpl in *. assert (Hlog : forall x, committedAt x st = committedAt x w.(w_st)).
  { intros x. pose proof (ksl_prevotes h r c x w.(w_st)) as Hl. by rewrite Hst in Hl. }
  destruct id; simpl in Hs'; try discriminate; injection Hs' as <-; simpl in *.
  - eapply crun_step; [eapply (as_prevotes_voting newOK proofs vs (abs w) Hne Hvs)|done|done|].
    eapply crun_once; [apply as_frame; by split|done|done].
  - eapply crun_step; [eapply (as_committing newOK
      (rvWithPrevotes (s_Committing (w_k w)).(vrv_RV) proofs vs) (abs w)); done|done|done|].
    eapply crun_once; [apply as_frame; by split|done|done].
  - eapply crun_step; [eapply (as_prevotes_next newOK proofs vs (abs w) Hne Hvs)|done|done|].
    eapply crun_once; [apply as_frame; by split|done|done].
Qed.

Lemma refines_precommits n id h r proofs versions w : proofs <> None ->
  (id = ViewIDVoting \/ id = ViewIDNextRound -> forall h p, gm_get proofs h = Some p ->
     gm_get (vPrecommits (viewOf id w.(w_k))) h = Some p \/ newOK (viewOf id w.(w_k)).(vrv_RV) h p) ->
  refines n (_ ← modK (setView id (withPrecommits (viewOf id w.(w_k)) proofs versions)); recordPrecommits id h r) w.
Proof.
  intros Hne Hnew. apply wp_bind. unfold wp at 1; simpl. unfold recordPrecommits.
  apply wp_bind. unfold wp at 1; simpl. apply wp_bind, wp_liftO_eq. intros vs Hvs.
  apply wp_bind. unfold wp at 1; simpl. apply wp_bind, wp_modKO. intros s' Hs'.
  apply wp_bind, wp_liftO_eq. intros c Hc. apply wp_bind, wp_callStore. intros st e Hst. apply wp_ret.
  simpl in *. assert (Hlog : forall x, committedAt x st = committedAt x w.(w_st)).
  { intros x. pose proof (ksl_precommits h r c x w.(w_st)) as Hl. by rewrite Hst in Hl. }
  destruct id; simpl in Hs'; try discriminate; injection Hs' as <-; simpl in *.
  - eapply crun_step; [eapply (as_precommits_voting newOK proofs vs (abs w) Hne (Hnew (or_introl eq_refl)) Hvs)|done|done|].
    eapply crun_once; [apply as_frame; by split|done|done].
  - eapply crun_step; [eapply (as_committing newOK
      (rvWithPrecommits (s_Committing (w_k w)).(vrv_RV) proofs vs) (abs w)); done|done|done|].
    eapply crun_once; [apply as_frame; by split|done|done].
  - eapply crun_step; [eapply (as_precommits_next newOK proofs vs (abs w) Hne (Hnew (or_intror eq_refl)) Hvs)|done|done|].
    eapply crun_once; [apply as_frame; by split|done|done].
Qed.

Lemma bind_assoc_K {A C D} (m : M A) (f : A -> M C) (g : C -> M D) w :
  ((m ≫= f) ≫= g) w = (m ≫= (fun a => f a ≫= g)) w.
Proof. unfold mbind, K_bind, mbind, outcome_bind. by destruct (m w). Qed.

Lemma refines_assoc {A C D} n (m : M A) (f : A -> M C) (g : C -> M D) w :
  refines n ((m ≫= f) ≫= g) w -> refines n (m ≫= (fun a => f a ≫= g)) w.
Proof. unfold refines, wp. by rewrite bind_assoc_K. Qed.

Lemma frames_setPrevotes_same id versions w :
  frames (modK (setView id (withPrevotes (viewOf id w.(w_k)) (vPrevotes (viewOf id w.(w_k))) versions))) w.
Proof.
  unfold frames, wp; simpl. unfold abs, withPrevotes, vPrevotes. destruct id; simpl;
    (split; [..|done]); simpl; by rewrite ?rv_prevotes_id.
Qed.

Lemma frames_setPrecommits_same id versions w :
  frames (modK (setView id (withPrecommits (viewOf id w.(w_k)) (vPrecommits (viewOf id w.(w_k))) versions))) w.
Proof.
  unfold frames, wp; simpl. unfold abs, withPrecommits, vPrecommits. destruct id; simpl;
    (split; [..|done]); simpl; by rewrite ?rv_precommits_id.
Qed.

Lemma refines_addPrevote n req w : refines n (addPrevote k req) w.
Proof.
  unfold addPrevote. apply refines_getK, refines_liftO. intros [id st] Hf.
  case_bool_decide; simpl; [|apply refines_frame, frames_voteViewNotFound].
  apply refines_liftO. intros [[[proofs versions] acc] any] Hup.
  apply applyUpdates_spec in Hup as (_ & Hany & Hnone).
  apply refines_assoc, refines_bind.
  - destruct any; [by apply refines_prevotes, Hany|]. destruct (Hnone eq_refl) as [-> ->].
    apply refines_then; [apply frames_setPrevotes_same|intros; apply refines_ret].
  - intros _ w1 _. apply refines_then; [apply frames_respond|]. intros _ w2 _.
    apply refines_then; [apply frames_checkMissingPHs|]. intros _ w3 _.
    destruct (_ && _); [|apply refines_ret].
    apply refines_bind; [apply refines_checkPrevote|intros; apply refines_ret].
Qed.

(** What is required of the updates of a precommit request: they are fit for the voting or next round
    view they name. *)
Definition goodUpdates (h r : Z) (ups : gmap bytes (VoteUpdate P)) (s : kState P) : Prop :=
  forall id hash u, FindView h r s = Ret (id, ViewFound) -> id = ViewIDVoting \/ id = ViewIDNextRound ->
    ups !! hash = Some u -> newOK (viewOf id s).(vrv_RV) hash u.(vu_Proof).

Lemma refines_addPrecommit req w :
  goodUpdates req.(apc_H) req.(apc_R) req.(PrecommitUpdates) w.(w_k) -> refines 1 (addPrecommit k req) w.
Proof.
  intros Hgood. unfold addPrecommit. apply refines_getK, refines_liftO. intros [id st] Hf.
  case_bool_decide; simpl; [|apply refines_frame, frames_voteViewNotFound].
  apply refines_liftO. intros [[[proofs versions] acc] any] Hup.
  apply applyUpdates_spec in Hup as (Hnew & Hany & Hnone). subst st.
  apply refines_assoc, refines_bind.
  - destruct any.
    + apply refines_precommits; [by apply Hany|]. intros Hid h p Hp.
      apply Hnew in Hp as [?|(u & Hu & ->)]; [by left|right]. by eapply Hgood.
    + destruct (Hnone eq_refl) as [-> ->].
      apply refines_then; [apply frames_setPrecommits_same|intros; apply refines_ret].
  - intros _ w1 _. apply refines_then; [apply frames_respond|]. intros _ w2 _.
    apply refines_then; [apply frames_checkMissingPHs|]. intros _ w3 _.
    case_bool_decide; simpl; [|apply refines_ret].
    destruct id; try apply refines_panic; [..|apply refines_ret|];
      (apply refines_bind_first; [|intros; apply refines_ret]).
    + apply refines_checkVotingPrecommit.
    + apply refines_checkNextRoundPrecommit.
Qed.

(** ** Proposed headers *)

Lemma frames_cancelFetch hash w : frames (cancelFetch hash) w.
Proof.
  apply frames_bind; [apply frames_getK|]. intros s w'. case_bool_decide; [|apply frames_ret].
  apply frames_bind; [apply frames_emit|]. intros _ w''. by apply frames_modK.
Qed.

Lemma frames_checkSaveError ph e w : frames (checkSaveError ph e) w.
Proof.
  apply frames_bind; [apply frames_getK|]. intros s w'.
  destruct e as [[]|], (ph_ProposerPubKey ph); try apply frames_ret.
  destruct (_ && _); [apply frames_panic|apply frames_ret].
Qed.

Lemma refines_backfill n ph w : refines n (backfillCommit ph) w.
Proof.
  unfold backfillCommit. apply refines_getK, refines_liftO. intros [proofs merged] Hr.
  apply refines_bind.
  - apply (refines_step _ LQuiet); [done|done|]. intros [] w' Hw. injection Hw as <-.
    apply (as_committing newOK
      {| w.(w_k).(s_Committing).(vrv_RV) with rv_PrecommitProofs := proofs |} (abs w)); done.
  - intros _ w1 _. destruct merged; [|apply refines_ret]. apply refines_frame.
    apply frames_bind; [apply frames_liftO|]. intros c w2.
    apply frames_bind; [|intros; by apply frames_modK]. apply frames_callStore.
    intros st st' e Hs h. pose proof (ksl_precommits (u64 (Height (ph_Header ph) - 1))
      (cp_Round (PrevCommitProof (ph_Header ph))) c h st) as Hl. by rewrite Hs in Hl.
Qed.

(** Appending a header to the view FindView named. *)
Lemma refines_appendPH n id st ph w :
  FindView ph.(ph_Header).(Height) ph.(ph_Round) w.(w_k) = Ret (id, st) -> id <> ViewIDNotFound ->
  refines n (modK (setView id (vrv_upd (appendPH ph) (viewOf id w.(w_k))))) w.
Proof.
  intros Hf Hid. destruct (FindView_found _ _ _ _ _ Hf) as (Hst & Hh & Hin).
  destruct (Hin (proj2 Hst Hid)) as [->|[->| ->]].
  - apply (refines_step _ LQuiet); [done|done|]. intros [] w' Hw. injection Hw as <-.
    apply (as_header_voting newOK ph (abs w)). apply Hh. by left.
  - apply (refines_step _ LQuiet); [done|done|]. intros [] w' Hw. injection Hw as <-.
    apply (as_header_next newOK ph (abs w)). apply Hh. by right.
  - apply (refines_step _ LQuiet); [done|done|]. intros [] w' Hw. injection Hw as <-.
    by apply (as_committing newOK (appendPH ph w.(w_k).(s_Committing).(vrv_RV)) (abs w)).
Qed.

Lemma refines_addProposedHeader ph w : refines 1 (addProposedHeader ph) w.
Proof.
  unfold addProposedHeader. apply refines_then; [apply frames_cancelFetch|]. intros _ w1 _.
  apply refines_getK, refines_liftO. intros [id st] Hf. simpl fst.
  case_bool_decide as Hid; [apply refines_ret|]. destruct (existsb _ _); [apply refines_ret|].
  apply refines_bind; [by eapply refines_appendPH|]. intros _ w2 _.
  apply refines_then; [apply frames_callStoreO; intros; by eapply ksl_ph|]. intros e w3 _.
  apply refines_then; [apply frames_checkSaveError|]. intros _ w4 _.
  apply refines_then; [apply frames_modKO; apply same4_MarkViewUpdated|]. intros _ w5 _.
  destruct (negb _); [apply refines_ret|].
  apply refines_then; [by apply frames_modK|]. intros _ w6 _.
  apply refines_bind; [apply refines_backfill|]. intros _ w7 _. apply refines_getK.
  destruct (_ && _); [|apply refines_ret].
  apply refines_bind_first; [apply refines_checkVotingPrecommit|intros; apply refines_ret].
Qed.

(** ** The state machine's actions *)

(** A precommit of the state machine for the voting view yields a proof fit for that view. *)
Definition goodAction (act : StateMachineRoundAction) (s : kState P) : Prop :=
  forall st base key p,
    let h := smH s.(StateMachineViewManager) in
    let r := smR s.(StateMachineViewManager) in
    let hash := act.(act_Precommit).(TargetHash) in
    nonEmpty act.(act_Precommit).(sc_Sig) = true ->
    FindView h r s = Ret (ViewIDVoting, st) ->
    smPubKey s.(StateMachineViewManager) = Some key ->
    voteBase s (gm_get (vPrecommits s.(s_Voting)) hash) act.(act_Precommit).(SignContent) = Ok base ->
    cmsp_AddSignature act.(act_Precommit).(sc_Sig) key base = Ok p ->
    newOK s.(s_Voting).(vrv_RV) hash p.

Lemma refines_action act w : goodAction act w.(w_k) -> refines 1 (handleStateMachineAction k act) w.
Proof.
  intros Hgood. unfold handleStateMachineAction. destruct (negb _) eqn:Hany; [apply refines_panic|]. apply negb_false_iff in Hany.
  destruct (nonEmpty (Hash _)) eqn:Eph.
  { clear Hany. destruct (_ || _); [apply refines_panic|apply refines_addProposedHeader]. }
  apply refines_getK, refines_liftO. intros [id st] Hf. simpl fst.
  destruct (negb _) eqn:Hid; [apply refines_ret|].
  apply negb_false_iff, orb_true_iff in Hid. rewrite !bool_decide_eq_true in Hid.
  destruct (nonEmpty (sc_Sig (act_Prevote act))) eqn:Epv.
  - clear Hany Eph Epv. destruct (nonEmpty _); [apply refines_panic|].
    destruct (voteBase _ _ _) as [base|]; [|apply refines_ret].
    apply refines_liftO. intros [p|] _; [apply refines_addPrevote|apply refines_ret].
  - assert (Epc : nonEmpty (sc_Sig (act_Precommit act)) = true) by exact Hany.
    destruct (voteBase _ _ _) as [base|] eqn:Eb; [|apply refines_ret].
    apply refines_liftO. intros [p|] Hs; [|apply refines_ret]. apply refines_addPrecommit.
    intros id' hash u Hf' Hid' Hu. cbn [apc_H apc_R PrecommitUpdates] in *.
    rewrite Hf in Hf'. injection Hf' as <- ->. apply lookup_singleton_Some in Hu as [<- <-]. simpl.
    unfold addOwnSignature in Hs. destruct (smPubKey _) as [key|] eqn:Ek; [|discriminate].
    injection Hs as Hs. destruct Hid as [->| ->]; [by eapply Hgood|by destruct Hid'].
Qed.

Lemma refines_roundEntrance n re w : refines n (handleStateMachineRoundEntrance re) w.
Proof.
  unfold handleStateMachineRoundEntrance. apply refines_then; [by apply frames_modK|]. intros _ w1 _.
  apply refines_getK, refines_liftO. intros [id st] _. case_bool_decide.
  - case_bool_decide; [|apply refines_panic]. apply refines_then; [apply frames_getStore|].
    intros [ch|e] w2 _; [apply refines_frame, frames_emit|apply refines_panic].
  - apply refines_then; [apply frames_emit|]. intros _ w2 _. apply refines_frame, frames_modKO.
    intros s s' Hs. apply bind_Ret_inv in Hs as (m & _ & Hs). by injection Hs as <-.
Qed.

(** ** Replays *)

(** The state in which the signatures of a replay are merged. *)
Definition replayState (proof : CommitProof) (s : kState P) : kState P :=
  if vRound s.(s_Voting) <? proof.(cp_Round) then JumpVotingRound s else s.

(** The proofs a replay would merge are fit for the voting view it reaches. *)
Definition goodReplay (header : Header) (proof : CommitProof) (s : kState P) : Prop :=
  let s' := replayState proof s in
  forall temp, header.(Height) = vHeight s.(s_Voting) -> vRound s.(s_Voting) <= proof.(cp_Round) ->
    foldO (replayStep k s' header proof.(cp_Round)) (Ok ∅) (gm_entries proof.(cp_Proofs)) = Ret (Ok temp) ->
    forall h p, temp !! h = Some p -> newOK s'.(s_Voting).(vrv_RV) h p.

Lemma setAll_spec (l : list (bytes * P)) m m' :
  foldO (fun m e => gm_set e.1 e.2 m) m l = Ret m' ->
  (m <> None \/ l <> [] -> m' <> None) /\
  forall h p, gm_get m' h = Some p -> gm_get m h = Some p \/ (h, p) ∈ l.
Proof.
  revert m. induction l as [|[h0 p0] l IH]; intros m; simpl.
  - intros [= <-]. split; [by intros [?|?]|]. auto.
  - intros Hr. apply bind_Ret_inv in Hr as (m1 & H1 & H2). apply IH in H2 as [Hn Hg]. split.
    + intros _. apply Hn. left. destruct m; simpl in H1; [|discriminate]. by injection H1 as <-.
    + intros h p Hp. apply Hg in Hp as [Hp|Hp]; [|right; set_solver].
      rewrite (gm_get_set _ _ _ _ _ H1) in Hp. case_decide; [|by left].
      injection Hp as <-. subst. right. set_solver.
Qed.

Lemma frames_saveReplayed header w : frames (callStore (ks_SaveRoundReplayedHeader header)) w.
Proof.
  apply frames_callStore. intros st st' e Hs h. pose proof (ksl_replayed h header st) as Hl.
  by rewrite Hs in Hl.
Qed.

Lemma refines_setPrecommits n proofs vs w : proofs <> None ->
  (forall h p, gm_get proofs h = Some p ->
     gm_get (vPrecommits w.(w_k).(s_Voting)) h = Some p \/ newOK w.(w_k).(s_Voting).(vrv_RV) h p) ->
  SetPrecommitPowers (vVals w.(w_k).(s_Voting)) proofs (vSummary w.(w_k).(s_Voting)) = Ret vs ->
  refines n (modK (fun s => setView ViewIDVoting
             (vrv_upd (fun rv => {| rv with rv_PrecommitProofs := proofs; rv_VoteSummary := vs |})
                s.(s_Voting)) s)) w.
Proof.
  intros Hne Hnew Hs. apply (refines_step _ LQuiet); [done|done|]. intros [] w' Hw. injection Hw as <-.
  by apply (as_precommits_voting newOK proofs vs (abs w)).
Qed.

(** What is known of a proof does not depend on the headers of the view. *)
Definition newOK_headers : Prop := forall rv ph h p, newOK rv h p -> newOK (appendPH ph rv) h p.

Lemma refines_replayApply header proof temp w :
  newOK_headers -> header.(Height) = vHeight w.(w_k).(s_Voting) ->
  (forall h p, temp !! h = Some p -> newOK w.(w_k).(s_Voting).(vrv_RV) h p) ->
  refines 1 (replayApply header proof temp) w.
Proof.
  intros Hph Hh Hnew. unfold replayApply. apply refines_getK.
  set (fakePH := MkProposedHeader header _ None _ _).
  apply refines_bind.
  { destruct (existsb _ _); [apply refines_ret|]. apply refines_then; [apply frames_saveReplayed|].
    intros [e|] w1 Hw1; [apply refines_ret|]. apply refines_bind; [|intros; apply refines_ret].
    apply (refines_step _ LQuiet); [done|done|]. intros [] w2 Hw2. injection Hw2 as <-.
    apply (as_header_voting newOK fakePH (abs w1)). simpl. rewrite Hh.
    unfold callStore in Hw1. by injection Hw1 as _ <-. }
  intros e w1 Hw1. destruct e as [e|]; [apply refines_ret|].
  assert (Hview : w1.(w_k).(s_Voting).(vrv_RV) = w.(w_k).(s_Voting).(vrv_RV) \/
    w1.(w_k).(s_Voting).(vrv_RV) = appendPH fakePH w.(w_k).(s_Voting).(vrv_RV)).
  { destruct (existsb _ _); [injection Hw1 as <-; by left|].
    unfold callStore, mbind, K_bind in Hw1. simpl in Hw1.
    destruct (ks_SaveRoundReplayedHeader _ _) as [st [e|]]; simpl in Hw1; [discriminate|].
    injection Hw1 as <-. by right. }
  assert (Hkeep : forall h p, temp !! h = Some p -> newOK w1.(w_k).(s_Voting).(vrv_RV) h p).
  { intros h p Hp. destruct Hview as [->| ->]; [by apply Hnew|by apply Hph, Hnew]. }
  assert (Hfields : vPrecommits w.(w_k).(s_Voting) = vPrecommits w1.(w_k).(s_Voting) /\
    vVals w.(w_k).(s_Voting) = vVals w1.(w_k).(s_Voting) /\
    vSummary w.(w_k).(s_Voting) = vSummary w1.(w_k).(s_Voting)).
  { unfold vPrecommits, vVals, vSummary. by destruct Hview as [->| ->]. }
  destruct Hfields as (Hpc & Hvals & Hsum). rewrite Hpc, Hvals, Hsum.
  destruct (temp !! Hash header) as [p|] eqn:Ep; [|apply refines_panic].
  apply refines_liftO. intros maj _. destruct (_ <? _); [apply refines_ret|].
  apply refines_liftO. intros proofs Hset. apply setAll_spec in Hset as [Hne Hget].
  apply refines_liftO. intros vs Hvs. apply refines_bind.
  { apply refines_setPrecommits; [|intros h q Hq|done].
    - apply Hne. right. intros Hnil. apply map_to_list_empty_iff in Hnil. subst. done.
    - apply Hget in Hq as [Hq|Hq]; [by left|]. apply elem_of_map_to_list in Hq. right. by apply Hkeep. }
  intros _ w2 _. apply refines_liftO. intros c _.
  apply refines_then.
  { apply frames_callStore. intros st st' e Hs h. pose proof (ksl_precommits (Height header)
      (cp_Round proof) c h st) as Hl. by rewrite Hs in Hl. }
  intros [e|] w3 _; [apply refines_ret|].
  apply refines_bind_first; [apply refines_checkVotingPrecommit|intros; apply refines_ret].
Qed.

Lemma refines_replayRequest header proof w :
  newOK_headers -> vHeight w.(w_k).(s_NextRound) = vHeight w.(w_k).(s_Voting) ->
  jump = Some proof.(cp_Round) -> goodReplay header proof w.(w_k) -> refines 1 (replayRequest k header proof) w.
Proof.
  intros Hph Hnh Hj Hgood. unfold replayRequest. apply refines_bind_first.
  2:{ intros e w1 _. apply refines_then; [apply frames_emit|]. intros _ w2 _.
      destruct e as [er|]; [|apply refines_ret]. destruct (errAs _ _); [apply refines_panic|apply refines_ret]. }
  unfold handleReplayedHeader. apply refines_getK.
  destruct (Z.eqb_spec (Height header) (vHeight (s_Voting (w_k w)))) as [Hh|_]; simpl; [|apply refines_ret].
  destruct (Z.ltb_spec (cp_Round proof) (vRound (s_Voting (w_k w)))); [apply refines_panic|].
  apply refines_bind.
  { destruct (Z.ltb_spec (vRound (s_Voting (w_k w))) (cp_Round proof)) as [Hlt|_]; [|apply refines_ret].
    apply refines_jump. right. by exists (cp_Round proof). }
  intros [e|] w1 Hw1; [apply refines_ret|].
  destruct (hs_Block _ _) as [expHash|]; [|apply refines_ret].
  destruct (negb _); [apply refines_ret|]. apply refines_getK, refines_liftO. intros [temp|e] Htemp;
    [|apply refines_ret].
  assert (Hs : w1.(w_k) = replayState proof w.(w_k)).
  { unfold replayState. destruct (_ <? _); [|by injection Hw1 as <-].
    unfold jumpVotingRound, updateObservers, callStore, mbind, K_bind in Hw1. simpl in Hw1.
    by injection Hw1 as _ <-. }
  rewrite Hs in Htemp. apply refines_replayApply; rewrite ?Hs; [done| |by apply Hgood].
  unfold replayState. destruct (_ <? _); [|done]. rewrite Hh. symmetry.
  destruct (Jump_views w.(w_k)) as (-> & _). exact Hnh.
Qed.

(** ** The main loop *)

(** The inputs whose precommit proofs are fit for the views they enter. *)
Definition goodInput (i : Input) (s : kState P) : Prop :=
  match i with
  | InAddPrecommit req => goodUpdates req.(apc_H) req.(apc_R) req.(PrecommitUpdates) s
  | InAction act => goodAction act s
  | InReplay header proof => goodReplay header proof s
  | _ => True
  end.

(** The round a replay claims, which the kernel skips towards. *)
Definition claimedRound (i : Input (P := P)) : option Z :=
  match i with InReplay _ proof => Some proof.(cp_Round) | _ => None end.

Lemma refines_handle i w :
  newOK_headers -> (forall r, claimedRound i = Some r -> jump = Some r) -> vHeight w.(w_k).(s_NextRound) = vHeight w.(w_k).(s_Voting) ->
  goodInput i w.(w_k) -> refines 1 (handle k i) w.
Proof.
  intros Hph Hj Hnh Hgood. destruct i as [req|req|ph|ph|req|req| | | |ph|re|act|header proof]; simpl in *.
  - apply refines_frame, frames_bind; [apply frames_getK|]. intros; apply frames_emit.
  - unfold sendViewLookupResponse. destruct (String.eqb _ _); [apply refines_panic|].
    apply refines_getK, refines_liftO. intros [id st] _. apply refines_frame, frames_emit.
  - unfold sendPHCheckResponse. apply refines_getK, refines_liftO. intros resp _.
    case_bool_decide; [apply refines_panic|apply refines_frame, frames_emit].
  - apply refines_addProposedHeader.
  - apply refines_addPrevote.
  - by apply refines_addPrecommit.
  - apply refines_getK, refines_then; [apply frames_emit|]. intros _ w1 _.
    by apply refines_frame, frames_modK.
  - apply refines_getK, refines_then; [apply frames_emit|]. intros _ w1 _.
    apply refines_frame, frames_modKO. intros s s' Hs. apply bind_Ret_inv in Hs as (m & _ & Hs).
    by injection Hs as <-.
  - apply refines_getK, refines_then; [apply frames_emit|]. intros _ w1 _.
    by apply refines_frame, frames_modK.
  - apply refines_addProposedHeader.
  - apply refines_roundEntrance.
  - by apply refines_action.
  - apply refines_replayRequest; [done..| |done]. by apply Hj.
Qed.
End refine.
