(* ===== verification/KernelSafety.v ===== *)
(** Safety of the mirror kernel: its runs implement the abstract protocol, keep the views coherent,
    never change a committed header, and commit only what two thirds of the voting power signed. *)
From S2P Require Import Prelude Types BitSets Powers SigProof SimpleProofs VoteSummary RoundView.
From S2P Require Import Stores Managers KState KernelBase Kernel KernelHandlers KernelLoop.
From S2P Require Import KernelSpec KernelRefine.
From stdpp Require Import relations.
Local Open Scope Z_scope.

(** * Runs *)
Section runs.
Context {P B ST : Type} `{BitSet B, !CMSP P B, !CMSPScheme P, !KernelStores ST}.
Context (k : Kernel).

(** Iterations of the main loop whose inputs are good for [newOK]. *)
Inductive gstep (newOK : RoundView P -> bytes -> P -> Prop) : World P ST -> World P ST -> Prop :=
| gs_handle i w w' : ready w.(w_k) i = true -> goodInput k newOK i w.(w_k) ->
    handle k i w = Ret (tt, w') -> gstep newOK w w'
| gs_fetch r q w : w.(w_fetchQ) = r :: q -> gstep newOK w {| w with w_fetchQ := q |}.

(** Every iteration is good when nothing is asked of the proofs. *)
Definition anyOK : RoundView P -> bytes -> P -> Prop := fun _ _ _ => True.

Lemma step_gstep w w' : step k w w' -> gstep anyOK w w'.
Proof.
  intros [i w1 w2 Hr Hh|r q w1 Hq]; [|by eapply gs_fetch]. eapply gs_handle; [done| |done].
  by destruct i.
Qed.

Context `{!KernelStoresLaws ST}.

Lemma gstep_refines newOK w w' : newOK_headers newOK ->
  vHeight w.(w_k).(s_NextRound) = vHeight w.(w_k).(s_Voting) ->
  gstep newOK w w' -> exists jump, crun newOK jump 1 (abs w) (abs w').
Proof.
  intros Hph Hnh Hs. destruct Hs as [i w w' Hr Hg Hh|r q w Hq].
  - exists (claimedRound i). exact (wp_run _ _ _ _ _ (refines_handle k newOK _ i w Hph (fun _ E => E) Hnh Hg) Hh).
  - exists None. by eapply crun_once; [apply as_frame|..].
Qed.
End runs.

Section invariant_rules.
Context {P B ST : Type} `{BitSetLaws B, !CMSP P B, !CMSPScheme P, !KernelStores ST, !KernelStoresLaws ST}.
Context (k : Kernel).

(** An invariant of the protocol that implies coherence is an invariant of the kernel. *)
Lemma gstep_inv newOK (I : AState P -> Prop) (w w' : World P ST) :
  newOK_headers newOK ->
  (forall a, I a -> a.(aN).(rv_Height) = a.(aV).(rv_Height)) ->
  (forall l a b, astep newOK l a b -> I a -> I b) ->
  gstep k newOK w w' -> I (abs w) -> I (abs w').
Proof.
  intros Hph Hh Hstep Hs Hi. destruct (gstep_refines k newOK w w' Hph (Hh (abs w) Hi) Hs) as [j Hr].
  exact (crun_inv newOK j I Hstep _ _ _ Hr Hi).
Qed.

Lemma gsteps_inv newOK (I : AState P -> Prop) (w w' : World P ST) :
  newOK_headers newOK ->
  (forall a, I a -> a.(aN).(rv_Height) = a.(aV).(rv_Height)) ->
  (forall l a b, astep newOK l a b -> I a -> I b) ->
  rtc (gstep k newOK) w w' -> I (abs w) -> I (abs w').
Proof.
  intros Hph Hh Hstep Hr. induction Hr as [w|w w1 w' Hs Hr IH]; intros Hi; [done|].
  apply IH. by eapply gstep_inv.
Qed.

Lemma steps_inv (I : AState P -> Prop) (w w' : World P ST) :
  (forall a, I a -> a.(aN).(rv_Height) = a.(aV).(rv_Height)) ->
  (forall l a b, astep anyOK l a b -> I a -> I b) ->
  rtc (step k) w w' -> I (abs w) -> I (abs w').
Proof.
  intros Hh Hstep Hr. apply (gsteps_inv anyOK); [done|done|done|].
  eapply rtc_subrel; [|exact Hr]. apply step_gstep.
Qed.
End invariant_rules.

(** * Certified headers *)
Section certified.
Context {P B ST : Type} `{CMSPLaws P B, !KernelStores ST, !KernelStoresLaws ST}.
Context (k : Kernel).

(** A precommit proof for a hash in a view: sound for the view's validators, over the precommit sign
    bytes of the view's height and round. *)
Definition precommit_ok (rv : RoundView P) (hash : bytes) (p : P) : Prop :=
  cmsp_sound (ValidatorsToPubKeys (rvVals rv)) p /\
  PrecommitSignBytes (MkVoteTarget rv.(rv_Height) rv.(rv_Round) hash) k.(k_sigScheme) = Ok (cmsp_Message p).

Lemma precommit_ok_headers : newOK_headers precommit_ok.
Proof. intros rv ph h p Hp. exact Hp. Qed.

(** The validator at index [i] signed [content]. *)
Definition signedBy (vals : list Validator) (content : bytes) (i : nat) : Prop :=
  exists v key sig, vals !! i = Some v /\ key.(pk_PubKeyBytes) = v.(val_PubKey).(pk_PubKeyBytes) /\
    verify key content sig = true.

(** Validators holding ByzantineMajority of the power signed a precommit for the header in a round. *)
Definition certifiedBy (vals : ValidatorSet) (r : Z) (hd : Header) : Prop :=
  hd.(Hash) <> nilHash /\
  exists content maj (S : gset nat),
    PrecommitSignBytes (MkVoteTarget hd.(Height) r hd.(Hash)) k.(k_sigScheme) = Ok content /\
    ByzantineMajority (u64 (totalPowerZ vals.(Validators))) = Ret maj /\
    maj <= u64 (powerIn vals.(Validators) S 0) /\
    forall i, i ∈ S -> signedBy vals.(Validators) content i.

(** Headers linked to a starting point (a header, the validators of the next height, and that height),
    each certified by the validators its predecessor names. *)
Inductive certChain (hd0 : Header) (vals0 : ValidatorSet) (h0 : Z) : Header -> ValidatorSet -> Z -> Prop :=
| cc_start : certChain hd0 vals0 h0 hd0 vals0 h0
| cc_next hd vals h hd' r : certChain hd0 vals0 h0 hd vals h ->
    hd'.(Height) = h -> certifiedBy vals r hd' ->
    certChain hd0 vals0 h0 hd' hd'.(NextValidatorSet) (u64 (h + 1)).

Definition a_sound (a : AState P) : Prop :=
  (forall h p, gm_get a.(aV).(rv_PrecommitProofs) h = Some p -> precommit_ok a.(aV) h p) /\
  (forall h p, gm_get a.(aN).(rv_PrecommitProofs) h = Some p -> precommit_ok a.(aN) h p).

Definition a_headers (a : AState P) : Prop :=
  forall ph, ph ∈ a.(aV).(rv_ProposedHeaders) \/ ph ∈ a.(aN).(rv_ProposedHeaders) ->
    ph.(ph_Header).(Height) = a.(aV).(rv_Height).

Lemma a_sound_step l a b : astep precommit_ok l a b -> a_sound a -> a_sound b.
Proof.
  intros Hst [Hv Hn]. destruct Hst as
    [a b [Ev En Ec Ech El]|ph a Hph|ph a Hph|proofs vs a Hne Hs|proofs vs a Hne Hs|
     proofs vs a Hne Hnew Hs|proofs vs a Hne Hnew Hs|c a|a Hreason|r a Hlt|ph c n a Hg Hch1 _ _ _ Hn'|
     b a Ev En Ec Ech Hsv Hfr]; try (split; done).
  - split; by rewrite ?Ev, ?En.
  - split; [|done]. intros h p Hp. simpl in *. destruct (Hnew h p Hp); [by apply Hv|done].
  - split; [done|]. intros h p Hp. simpl in *. destruct (Hnew h p Hp); [by apply Hn|done].
  - split; [done|]. simpl. intros h p. by rewrite gm_get_clear.
  - split; [done|]. simpl. intros h p. by rewrite gm_get_clear.
  - split; simpl; [done|]. intros h p. by rewrite gm_get_clear.
  - split; by rewrite ?Ev, ?En.
Qed.

Lemma a_headers_step newOK l a b : astep newOK l a b -> a.(aN).(rv_Height) = a.(aV).(rv_Height) ->
  a_headers a -> a_headers b.
Proof.
  intros Hst Hnh Hh. destruct Hst as
    [a b [Ev En Ec Ech El]|ph a Hph|ph a Hph|proofs vs a Hne Hs|proofs vs a Hne Hs|
     proofs vs a Hne Hnew Hs|proofs vs a Hne Hnew Hs|c a|a Hreason|r a Hlt|ph c n a Hg Hch1 _ _ _ Hn'|
     b a Ev En Ec Ech Hsv Hfr]; try done.
  - intros ph. rewrite Ev, En. apply Hh.
  - intros ph'. simpl. rewrite elem_of_app, list_elem_of_singleton. intros [[?| ->]|?]; auto.
  - intros ph'. simpl. rewrite elem_of_app, list_elem_of_singleton. intros [?|[?| ->]]; auto.
  - intros ph. simpl. rewrite Hnh. intros [?|?]; [auto|set_solver].
  - intros ph. simpl. rewrite Hnh. intros [?|?]; [auto|set_solver].
  - intros ph'. simpl. set_solver.
  - intros ph. rewrite Ev, En. apply Hh.
Qed.

(** The commit guard, on a coherent and sound state, certifies the header. *)
Lemma commit_certified a ph : rv_ok a.(aV) -> a_sound a -> a_headers a ->
  commitGuard ph a.(aV) -> certifiedBy a.(aV).(rv_ValidatorSet) a.(aV).(rv_Round) ph.(ph_Header).
Proof.
  intros [_ _ Hav _ Htc] [Hv _] Hh (Hin & Hhash & Hnil & maj & Hmaj & Hpow). split; [done|].
  rewrite Hav in Hmaj. unfold topPrecommitPower in Hpow.
  assert (Hpos : 0 < maj).
  { assert (Hb : 0 < u64 (totalPowerZ (Validators (rv_ValidatorSet (aV a)))) < two64).
    { pose proof (u64_range (totalPowerZ (Validators (rv_ValidatorSet (aV a))))) as Hr.
      unfold is_u64 in Hr. unfold ByzantineMajority in Hmaj. destruct (Z.eqb_spec
        (u64 (totalPowerZ (Validators (rv_ValidatorSet (aV a))))) 0); [discriminate|]. lia. }
    destruct (ByzantineMajority_ret _ Hb) as (M & EM & ? & ? & ?). rewrite EM in Hmaj.
    injection Hmaj as <-. lia. }
  destruct (gm_get (rv_PrecommitProofs (aV a)) (Hash (ph_Header ph))) as [p|] eqn:Ep.
  2:{ exfalso. rewrite (td_block _ _ _ _ _ Htc), <- Hhash in Hpow. unfold gm_getz, gm_get in Hpow. simpl in Hpow.
      rewrite lookup_fmap in Hpow. unfold gm_get in Ep. rewrite Ep in Hpow. simpl in Hpow. lia. }
  destruct (Hv _ _ Ep) as [Hsound Hmsg]. exists (cmsp_Message p), maj, (bs_elems (cmsp_SignatureBitSet p)).
  assert (Hht : Height (ph_Header ph) = rv_Height (aV a)) by (apply Hh; by left).
  split_and!; [by rewrite Hht|done| |].
  - rewrite (td_block _ _ _ _ _ Htc), <- Hhash in Hpow. unfold gm_getz, gm_get in Hpow. simpl in Hpow.
    rewrite lookup_fmap in Hpow. unfold gm_get in Ep. rewrite Ep in Hpow. simpl in Hpow.
    unfold proofPower in Hpow. by rewrite sumPower_u64 in Hpow.
  - intros i Hi. destruct (cmsp_sound_bits _ _ _ Hsound Hi) as (key0 & key & sig & Hk & Hb & Hver).
    unfold ValidatorsToPubKeys in Hk. rewrite list_lookup_fmap in Hk.
    apply fmap_Some in Hk as (v & Hvi & ->). by exists v, key, sig.
Qed.

Section chain.
Context (hd0 : Header) (vals0 : ValidatorSet) (h0 : Z) (log0 : Z -> option Header).

Record a_certified (a : AState P) : Prop := {
  cert_coherent : a_coherent a;
  cert_sound : a_sound a;
  cert_headers : a_headers a;
  cert_chain : certChain hd0 vals0 h0 a.(aCH) a.(aV).(rv_ValidatorSet) a.(aV).(rv_Height);
  cert_log : forall h hd, a.(aLog) h = Some hd -> log0 h = Some hd \/
    (hd.(Height) = h /\ exists vals h', certChain hd0 vals0 h0 hd vals h')
}.

Lemma a_certified_step l a b : astep precommit_ok l a b -> a_certified a -> a_certified b.
Proof.
  intros Hst [Hc Hs Hh Hch Hl]. split.
  - by eapply a_coherent_step.
  - by eapply a_sound_step.
  - eapply a_headers_step; [done|apply Hc|done].
  - destruct Hst as
      [a b [Ev En Ec Ech El]|ph a Hph|ph a Hph|proofs vs a Hne Hp|proofs vs a Hne Hp|
       proofs vs a Hne Hnew Hp|proofs vs a Hne Hnew Hp|c a|a Hreason|r a Hlt|ph c n a Hg Hch1 _ _ _ Hn'|
       b a Ev En Ec Ech Hsv Hfr]; try done.
    + by rewrite Ev, Ech.
    + simpl. by rewrite (ac_vals _ Hc), (ac_height _ Hc).
    + simpl. by rewrite (ac_vals _ Hc), (ac_height _ Hc).
    + simpl. eapply cc_next; [exact Hch| |].
      * apply Hh. left. apply Hg.
      * eapply commit_certified; [apply Hc|done..].
    + by rewrite Ev, Ech.
  - destruct Hst as
      [a b [Ev En Ec Ech El]| | | | | | | | | | |b a Ev En Ec Ech Hsv Hfr]; try done.
    + intros h hd. rewrite El. apply Hl.
    + intros h hd Hhd. destruct (decide (h = (aCH a).(Height))) as [->|Hne].
      * right. rewrite Hsv in Hhd. injection Hhd as <-. split; [done|]. eauto.
      * rewrite Hfr in Hhd by done. by apply Hl.
Qed.
End chain.
End certified.
