(* ===== verification/KernelTheorems.v ===== *)
(** The mirror kernel's main theorems: startup establishes the invariants, every run implements the
    abstract protocol, committed headers are final and certified, and two nodes that commit different
    headers in one round expose a third of the voting power. *)
From S2P Require Import Prelude Types BitSets Powers SigProof SimpleProofs VoteSummary RoundView.
From S2P Require Import Stores Managers KState KernelBase Kernel KernelHandlers KernelLoop.
From S2P Require Import KernelExample KernelSpec KernelRefine KernelSafety.
From stdpp Require Import relations.
Local Open Scope Z_scope.

(** * Startup *)
Section startup.
Context {P B ST : Type} `{BitSetLaws B, !CMSP P B, !CMSPScheme P, !KernelStores ST}.
Context (k : Kernel).
Implicit Types (w : World P ST).

Lemma wp_getStore {A} (f : ST -> A) w (Q : A -> World P ST -> Prop) : Q (f w.(w_st)) w -> wp (getStore f) w Q.
Proof. done. Qed.
Lemma wp_modK f w (Q : unit -> World P ST -> Prop) : Q tt {| w with w_k := f w.(w_k) |} -> wp (modK f) w Q.
Proof. done. Qed.

Lemma toFullProofMap_some signBytes h r vs c (m : gomap P) :
  toFullProofMap signBytes h r vs c = Ret (Ok m) -> m <> None.
Proof.
  unfold toFullProofMap. intros Hr. apply bind_Ret_inv in Hr as (acc & _ & Hr).
  destruct acc; by simplify_eq.
Qed.

Lemma SetVotePowers_rv_ok h r vs phs pv pc (sum : VoteSummary) : pv <> None -> pc <> None ->
  SetVotePowers vs.(Validators) pv pc (SetAvailablePower vs.(Validators) NewVoteSummary) = Ret sum ->
  rv_ok (MkRoundView h r vs CommitProof_zero phs pv pc sum).
Proof.
  intros Hpv Hpc Hs. unfold SetVotePowers, SetPrevotePowers, SetPrecommitPowers in Hs.
  apply bind_Ret_inv in Hs as (s1 & Hs1 & Hs2). apply bind_Ret_inv in Hs1 as (t & Ht & Hs1).
  injection Hs1 as <-. apply bind_Ret_inv in Hs2 as (u & Hu & Hs2). injection Hs2 as <-.
  apply tally_tallied in Ht, Hu. split; simpl; try done.
  rewrite <- (SetAvailablePower_spec _ NewVoteSummary). done.
Qed.

Lemma loadInitialView_ok h r vs w :
  wp (loadInitialView (B := B) k h r vs) w (fun res w' => w'.(w_k) = w.(w_k) /\
    forall rv, res = Ok rv -> rv_ok rv /\ rv.(rv_Height) = h /\ rv.(rv_Round) = r /\
      rv.(rv_ValidatorSet) = vs).
Proof.
  unfold loadInitialView. apply wp_bind, wp_getStore.
  destruct (ks_LoadRoundState h r _) as [[[phs sv] sc] err].
  destruct (match err with Some _ => _ | None => _ end); [by apply wp_ret|].
  apply wp_bind, wp_callStore. intros st1 e1 _.
  destruct (match e1 with Some _ => _ | None => _ end); [by apply wp_ret|].
  apply wp_bind, wp_callStore. intros st2 e2 _.
  destruct (match e2 with Some _ => _ | None => _ end); [by apply wp_ret|].
  apply wp_bind, wp_liftO_eq. intros [pv|] Hpv; [|by apply wp_ret].
  apply wp_bind, wp_liftO_eq. intros [pc|] Hpc; [|by apply wp_ret].
  apply wp_bind, wp_liftO_eq. intros sum Hsum. apply wp_ret. split; [done|].
  intros rv [= <-]. split; [|done]. eapply SetVotePowers_rv_ok; [..|done].
  - apply bind_Ret_inv in Hpv as ([m|] & Hm & Hpv); [|discriminate]. injection Hpv as <-.
    by eapply toFullProofMap_some.
  - apply bind_Ret_inv in Hpc as ([m|] & Hm & Hpc); [|discriminate]. injection Hpc as <-.
    by eapply toFullProofMap_some.
Qed.

Lemma loadInitialVotingView_ok w :
  wp (loadInitialVotingView (B := B) k) w (fun e w' => e = None -> coherent w'.(w_k)).
Proof.
  unfold loadInitialVotingView. apply wp_bind. unfold wp at 1; simpl.
  case_bool_decide; [apply wp_panic|].
  apply wp_bind. eapply wp_mono; [|apply loadInitialView_ok]. intros [rv|e] w1 [Hk Hrv];
    [|by apply wp_ret]. destruct (Hrv rv eq_refl) as (Hok & Hh & Hr & Hvs).
  apply wp_bind, wp_modK, wp_bind, wp_modK, wp_bind.
  eapply wp_mono; [|apply loadInitialView_ok]. intros [nrv|e] w2 [Hk2 Hnrv]; [|by apply wp_ret].
  destruct (Hnrv nrv eq_refl) as (Hok' & Hh' & Hr' & Hvs').
  apply wp_bind, wp_modK, wp_bind, wp_modK, wp_ret. intros _. simpl. rewrite Hk2. simpl.
  split; unfold view_ok, vHeight, vRound; simpl; congruence.
Qed.

Lemma NewKernel_ok sm gs lag w :
  wp (NewKernel (B := B) k sm gs lag) w (fun e w' => e = None -> coherent w'.(w_k)).
Proof.
  unfold NewKernel. case_bool_decide; [apply wp_panic|].
  apply wp_bind, wp_intro. intros [nhr|e] w1 _; [|by apply wp_ret].
  apply wp_bind, wp_intro. intros [cp|e] w2 _; [|by apply wp_ret].
  apply wp_bind, wp_modK, wp_bind, wp_intro. intros [e|] w3 _; [by apply wp_ret|].
  apply wp_bind. eapply wp_mono; [|apply loadInitialVotingView_ok]. intros [e|] w4 Hc; [by apply wp_ret|].
  specialize (Hc eq_refl). apply wp_bind, wp_modK. unfold updateObservers.
  apply wp_bind. unfold wp at 1; simpl. apply wp_bind, wp_callStore. intros st e _. apply wp_ret.
  intros _. simpl. destruct Hc as [Hv Hn Hh Hr Hvs]. split; unfold view_ok; simpl; try done.
  - by apply rv_ok_pcp.
  - by apply rv_ok_pcp.
Qed.

Lemma abs_coherent w : coherent w.(w_k) -> a_coherent (abs w).
Proof. intros []. by split. Qed.
Lemma coherent_abs w : a_coherent (abs w) -> coherent w.(w_k).
Proof. intros []. by split. Qed.
End startup.

(** * Properties *)

(** C4: the kernel implements the abstract protocol.  Whatever a select case of the main loop is handed,
    if its handler returns, what it did to the voting, next-round and committing views, the committing
    header and the stored committed headers is a run of the protocol: headers and votes enter their view
    with a matching summary; the round advances for one of the reasons the protocol allows, or, only
    when the case is a replay, towards the round the replay claims; and the height advances at most once,
    by committing a header of the voting view that has a precommit majority. *)
Theorem kernel_refines_protocol {P B ST : Type}
  `{BitSetLaws B, !CMSP P B, !CMSPScheme P, !KernelStores ST, !KernelStoresLaws ST}
  (k : Kernel) (newOK : RoundView P -> bytes -> P -> Prop) (i : Input) (w w' : World P ST) :
  newOK_headers newOK -> coherent w.(w_k) -> goodInput k newOK i w.(w_k) ->
  handle k i w = Ret (tt, w') ->
  crun newOK (claimedRound i) 1 (abs w) (abs w').
Proof.
  intros Hph Hc Hg Hh.
  exact (wp_run _ _ _ _ _ (refines_handle k newOK _ i w Hph (fun _ E => E) (co_height _ Hc) Hg) Hh).
Qed.

(** The instance: starting on empty stores, adding a header, and committing it with three of four
    precommits. *)
Lemma startWorld_started : NewKernel (B := gset nat) toyKernel true true true emptyWorld = Ret (None, startWorld).
Proof. vm_compute. reflexivity. Qed.

Lemma proposedWorld_coherent : coherent proposedWorld.(w_k).
Proof.
  apply coherent_abs. eapply (steps_inv toyKernel a_coherent); [apply ac_height|apply a_coherent_step| |].
  - apply rtc_once, (step_handle toyKernel (InAddPH (toyPH 1 0 "x" "a" (MkCommitProof 0 nilHash gm_make)))
      startWorld proposedWorld); [reflexivity|]. vm_compute. reflexivity.
  - apply abs_coherent.
    exact (wp_run _ _ _ _ _ (NewKernel_ok toyKernel true true true emptyWorld) startWorld_started eq_refl).
Qed.

Lemma kernel_refines_protocol_witness :
  crun (P := TP) anyOK None 1 (abs proposedWorld) (abs committedWorld).
Proof.
  apply (kernel_refines_protocol toyKernel anyOK commitInput proposedWorld committedWorld).
  - intros ? ? ? ? _. exact I.
  - apply proposedWorld_coherent.
  - intros ? ? ? ? ? ?. exact I.
  - vm_compute. reflexivity.
Defined.

(** C19: the views are always coherent.  From whatever the stores hold, if startup succeeds then after any
    number of main loop iterations: the voting and next-round views have usable vote maps, their
    summaries are exactly the tally of their proofs, and the next round is the round after the voting
    round, at the same height and for the same validators. *)
Theorem kernel_views_coherent {P B ST : Type}
  `{BitSetLaws B, !CMSP P B, !CMSPScheme P, !KernelStores ST, !KernelStoresLaws ST}
  (k : Kernel) (sm gs lag : bool) (w w0 w' : World P ST) :
  NewKernel k sm gs lag w = Ret (None, w0) -> rtc (step k) w0 w' -> coherent w'.(w_k).
Proof.
  intros Hn Hr. apply coherent_abs. eapply (steps_inv k a_coherent); [apply ac_height| |exact Hr|].
  - apply a_coherent_step.
  - apply abs_coherent. exact (wp_run _ _ _ _ _ (NewKernel_ok k sm gs lag w) Hn eq_refl).
Qed.

Lemma proposed_step : step (B := gset nat) toyKernel startWorld proposedWorld.
Proof.
  apply (step_handle toyKernel (InAddPH (toyPH 1 0 "x" "a" (MkCommitProof 0 nilHash gm_make))));
    [reflexivity|]. vm_compute. reflexivity.
Qed.

Lemma committed_step : step (B := gset nat) toyKernel proposedWorld committedWorld.
Proof. apply (step_handle toyKernel commitInput); [reflexivity|]. vm_compute. reflexivity. Qed.

Lemma committedWorld_coherent : coherent committedWorld.(w_k).
Proof.
  apply coherent_abs. eapply (steps_inv toyKernel a_coherent); [apply ac_height|apply a_coherent_step| |].
  - apply rtc_once, committed_step.
  - apply abs_coherent, proposedWorld_coherent.
Qed.

Lemma kernel_views_coherent_witness : coherent committedWorld.(w_k).
Proof.
  apply (kernel_views_coherent toyKernel true true true emptyWorld startWorld).
  - apply startWorld_started.
  - eapply rtc_l; [apply proposed_step|]. apply rtc_once, committed_step.
Defined.

(** ** Finality *)

(** A run of iterations, as long as the heights they can reach fit in 64 bits. *)
Lemma steps_chain {P B ST : Type}
  `{BitSetLaws B, !CMSP P B, !CMSPScheme P, !KernelStores ST, !KernelStoresLaws ST}
  (k : Kernel) n (w w' : World P ST) : nsteps (step k) n w w' -> coherent w.(w_k) -> a_chain (abs w) ->
  0 <= vHeight w.(w_k).(s_Voting) -> vHeight w.(w_k).(s_Voting) + Z.of_nat n < two64 ->
  a_chain (abs w') /\ vHeight w.(w_k).(s_Voting) <= vHeight w'.(w_k).(s_Voting) < two64 /\
  forall h hd, committedAt h w.(w_st) = Some hd -> committedAt h w'.(w_st) = Some hd.
Proof.
  intros Hr. induction Hr as [w|n w w1 w' Hs Hr IH]; intros Hc Hch Hpos Hn; [split; [done|split; [lia|done]]|].
  destruct (gstep_refines k anyOK w w1 ltac:(done) (co_height _ Hc) (step_gstep k _ _ Hs)) as [j H1].
  destruct (crun_chain anyOK j 1 _ _ H1 Hch Hpos) as (Hch1 & Hle & Hlog); [simpl; unfold vHeight in *; lia|].
  simpl in Hle. unfold vHeight in *. destruct IH as (Hch' & Hle' & Hlog'); [|done|lia|lia|].
  { apply coherent_abs. eapply crun_inv; [apply a_coherent_step|exact H1|by apply abs_coherent]. }
  split; [done|split; [lia|]]. intros h hd Hl. apply Hlog', Hlog, Hl.
Qed.

(** C18: committed headers are final.  In any run of [n] iterations from a coherent state in which nothing
    above the committing header is stored, a header stored for a height is still the one stored for it
    at the end, the voting height never decreases, and it stays above the committed header's; as long as
    heights fit in 64 bits, which they do when the run started [n] below the last one. *)
Theorem committed_headers_final {P B ST : Type}
  `{BitSetLaws B, !CMSP P B, !CMSPScheme P, !KernelStores ST, !KernelStoresLaws ST}
  (k : Kernel) (n : nat) (w w' : World P ST) :
  coherent w.(w_k) -> a_chain (abs w) -> 0 <= vHeight w.(w_k).(s_Voting) ->
  vHeight w.(w_k).(s_Voting) + Z.of_nat n < two64 -> nsteps (step k) n w w' ->
  (forall h hd, committedAt h w.(w_st) = Some hd -> committedAt h w'.(w_st) = Some hd) /\
  vHeight w.(w_k).(s_Voting) <= vHeight w'.(w_k).(s_Voting) < two64 /\
  w'.(w_k).(CommittingHeader).(Height) < vHeight w'.(w_k).(s_Voting).
Proof.
  intros Hc Hch Hpos Hn Hr. destruct (steps_chain k n w w' Hr Hc Hch Hpos Hn) as (Hb & Hle & Hlog).
  split; [exact Hlog|]. split; [exact Hle|apply Hb].
Qed.

Lemma startWorld_chain : a_chain (abs startWorld).
Proof.
  split; [vm_compute; reflexivity| | | |].
  - intros ph Hph. exfalso. revert Hph. change (~ (ph ∈ ([] : list ProposedHeader) \/ ph ∈ ([] : list ProposedHeader))).
    set_solver.
  - vm_compute. reflexivity.
  - intros h _. change (@committedAt MemStores toyStores h NewMemStores = None). done.
  - intros hd Hhd. change (@committedAt MemStores toyStores 0 NewMemStores = Some hd) in Hhd. done.
Qed.

Lemma startWorld_coherent : coherent startWorld.(w_k).
Proof.
  exact (wp_run _ _ _ _ _ (NewKernel_ok toyKernel true true true emptyWorld) startWorld_started eq_refl).
Qed.

Lemma committed_headers_final_witness :
  (forall h hd, committedAt h startWorld.(w_st) = Some hd -> committedAt h committedWorld.(w_st) = Some hd) /\
  vHeight startWorld.(w_k).(s_Voting) <= vHeight committedWorld.(w_k).(s_Voting) < two64 /\
  committedWorld.(w_k).(CommittingHeader).(Height) < vHeight committedWorld.(w_k).(s_Voting).
Proof.
  apply (committed_headers_final toyKernel 2 startWorld committedWorld).
  - apply startWorld_coherent.
  - apply startWorld_chain.
  - vm_compute. discriminate.
  - vm_compute. reflexivity.
  - eapply nsteps_l; [apply proposed_step|]. apply nsteps_once, committed_step.
Defined.
