(* ===== verification/KernelCommit.v ===== *)
(** Commit safety of the mirror kernel: which inputs keep the precommit proofs sound, that every
    committed header is then certified by the validators its predecessor names, and what a replayed header
    can do when its validators are not checked. *)
From S2P Require Import Prelude Types BitSets Powers SigProof SimpleProofs VoteSummary RoundView.
From S2P Require Import Stores Managers KState KernelBase Kernel KernelHandlers KernelLoop.
From S2P Require Import KernelExample KernelSpec KernelRefine KernelSafety KernelTheorems.
From stdpp Require Import relations.
Local Open Scope Z_scope.

Section honest.
Context {P B ST : Type} `{CMSPLaws P B, !KernelStores ST, !KernelStoresLaws ST}.
Context (k : Kernel).

(** The state machine signs the precommit content of its round. *)
Lemma action_good act (s : kState P) : a_sound k (MkAState s.(s_Voting).(vrv_RV) s.(s_NextRound).(vrv_RV)
    s.(s_Committing).(vrv_RV) s.(CommittingHeader) (fun _ => None)) ->
  (nonEmpty act.(act_Precommit).(sc_Sig) = true ->
   PrecommitSignBytes (MkVoteTarget (smH s.(StateMachineViewManager)) (smR s.(StateMachineViewManager))
     act.(act_Precommit).(TargetHash)) k.(k_sigScheme) = Ok act.(act_Precommit).(SignContent)) ->
  goodAction (precommit_ok k) act s.
Proof.
  intros [Hv _] Hcontent st base key p h r hash Hsome Hf _ Hbase Hadd. subst h r hash. specialize (Hcontent Hsome).
  assert (Hpos : smH s.(StateMachineViewManager) = vHeight s.(s_Voting) /\
                 smR s.(StateMachineViewManager) = vRound s.(s_Voting)).
  { unfold FindView in Hf. repeat case_match; simplify_eq.
    repeat match goal with Hb : (_ =? _) = true |- _ => apply Z.eqb_eq in Hb end. done. }
  destruct Hpos as [Hh Hr]. rewrite Hh, Hr in Hcontent.
  assert (Hb : precommit_ok k s.(s_Voting).(vrv_RV) act.(act_Precommit).(TargetHash) base).
  { unfold voteBase in Hbase. destruct (gm_get _ _) as [q|] eqn:Eq.
    - injection Hbase as <-. by apply Hv.
    - destruct (cmsp_New_sound _ _ _ _ Hbase) as (Hs & Hm & _). split; [done|]. by rewrite Hm. }
  destruct Hb as [Hs Hm]. destruct (cmsp_AddSignature_sound _ _ _ _ _ Hadd Hs) as (Hs' & Hm' & _).
  split; [done|]. by rewrite Hm'.
Qed.

Lemma replayStep_sound s header r l temp0 temp :
  (forall h p, gm_get (vPrecommits s.(s_Voting)) h = Some p -> precommit_ok k s.(s_Voting).(vrv_RV) h p) ->
  header.(hd_ValidatorSet) = s.(s_Voting).(vrv_RV).(rv_ValidatorSet) ->
  header.(Height) = vHeight s.(s_Voting) -> r = vRound s.(s_Voting) ->
  (forall h p, temp0 !! h = Some p -> precommit_ok k s.(s_Voting).(vrv_RV) h p) ->
  foldO (replayStep k s header r) (Ok temp0) l = Ret (Ok temp) ->
  forall h p, temp !! h = Some p -> precommit_ok k s.(s_Voting).(vrv_RV) h p.
Proof.
  intros Hv Hvals Hh Hr. revert temp0. induction l as [|[hash sigs] l IH]; intros temp0 Ht0 Hf; cbn [foldO] in Hf.
  { by injection Hf as <-. }
  apply bind_Ret_inv in Hf as (acc & Hstep & Hf).
  assert (Herr : forall e l, foldO (replayStep k s header r) (Err e) l <> Ret (Ok temp)).
  { clear. intros e l. induction l as [|x l IH]; [discriminate|]. exact IH. }
  destruct acc as [temp1|e]; [|by apply Herr in Hf]. apply (IH temp1); [|done].
  unfold replayStep in Hstep. cbn [fst snd] in Hstep.
  apply bind_Ret_inv in Hstep as (base & Hbase & Hstep). destruct base as [p|e]; [|discriminate].
  apply bind_Ret_inv in Hstep as ([p' res] & Hm & Hstep). cbn [fst snd] in Hstep.
  destruct (negb _); [discriminate|]. injection Hstep as <-.
  assert (Hp : precommit_ok k s.(s_Voting).(vrv_RV) hash p).
  { unfold replayBase in Hbase. destruct (gm_get _ _) as [q|] eqn:Eq.
    - injection Hbase as <-. by apply Hv.
    - destruct (PrecommitSignBytes _ _) as [content|] eqn:Ec; [|discriminate].
      case_bool_decide; [discriminate|]. destruct (scheme_New _ _ _) as [q|] eqn:En; [|discriminate].
      injection Hbase as <-. destruct (cmsp_New_sound _ _ _ _ En) as (Hs & Hmsg & _).
      rewrite Hvals in Hs. split; [done|]. rewrite Hmsg, <- Ec. by rewrite Hh, Hr. }
  destruct Hp as [Hs Hmsg]. destruct (cmsp_MergeSparse_sound _ _ _ _ _ Hm Hs) as (Hs' & Hmsg' & _).
  intros h q Hq. apply lookup_insert_Some in Hq as [[<- <-]|[_ Hq]]; [|by apply Ht0].
  split; [done|]. by rewrite Hmsg'.
Qed.

(** A replay is good when its header carries the validators that are voting and its round is the voting
    round or the one after it.  The kernel checks neither. *)
Lemma replay_good header proof (s : kState P) :
  a_sound k (MkAState s.(s_Voting).(vrv_RV) s.(s_NextRound).(vrv_RV) s.(s_Committing).(vrv_RV)
    s.(CommittingHeader) (fun _ => None)) -> coherent s ->
  header.(hd_ValidatorSet) = s.(s_Voting).(vrv_RV).(rv_ValidatorSet) ->
  proof.(cp_Round) = vRound s.(s_Voting) \/ proof.(cp_Round) = vRound s.(s_NextRound) ->
  goodReplay k (precommit_ok k) header proof s.
Proof.
  intros [Hv Hn] Hc Hvals Hround temp Hh Hle Hf. eapply replayStep_sound; [..|exact Hf]; [| | | |done];
    unfold replayState; destruct (Z.ltb_spec (vRound s.(s_Voting)) proof.(cp_Round)) as [Hlt|Hge];
    try (destruct (Jump_views s) as (-> & _); destruct (increment_views s) as (Ei & _);
         unfold vPrecommits, vHeight, vRound; rewrite Ei).
  - exact Hn.
  - exact Hv.
  - by rewrite Hvals, (co_vals _ Hc).
  - done.
  - rewrite Hh. symmetry. apply Hc.
  - done.
  - destruct Hround as [He|He]; [lia|done].
  - lia.
Qed.
End honest.

(** Every committed header is certified.  In a run whose precommits, state machine votes and replays
    carry sound proofs, starting from a coherent state with sound proofs and headers of the voting
    height, the committing header is linked to the starting one by a chain of headers, each signed by
    validators that hold ByzantineMajority of the power of the validator set its predecessor names; and
    so is every committed header stored during the run. *)
Theorem committed_headers_certified {P B ST : Type}
  `{CMSPLaws P B, !KernelStores ST, !KernelStoresLaws ST} (k : Kernel) (w w' : World P ST) :
  coherent w.(w_k) -> a_sound k (abs w) -> a_headers (abs w) ->
  rtc (gstep k (precommit_ok k)) w w' ->
  let chain := certChain k w.(w_k).(CommittingHeader) w.(w_k).(s_Voting).(vrv_RV).(rv_ValidatorSet)
                 (vHeight w.(w_k).(s_Voting)) in
  chain w'.(w_k).(CommittingHeader) w'.(w_k).(s_Voting).(vrv_RV).(rv_ValidatorSet)
    (vHeight w'.(w_k).(s_Voting)) /\
  forall h hd, committedAt h w'.(w_st) = Some hd ->
    committedAt h w.(w_st) = Some hd \/ (hd.(Height) = h /\ exists vals h', chain hd vals h').
Proof.
  intros Hc Hs Hh Hr chain.
  assert (Hcert : a_certified k w.(w_k).(CommittingHeader) w.(w_k).(s_Voting).(vrv_RV).(rv_ValidatorSet)
    (vHeight w.(w_k).(s_Voting)) (fun h => committedAt h w.(w_st)) (abs w')).
  { eapply (gsteps_inv k (precommit_ok k)); [apply precommit_ok_headers| |apply a_certified_step|exact Hr|].
    - intros a Ha. apply Ha.
    - split; [by apply abs_coherent|done|done|apply cc_start|auto]. }
  destruct Hcert as [_ _ _ Hch Hlog]. split; [exact Hch|exact Hlog].
Qed.

(** The instance: the run that commits the header of [proposedWorld]. *)
Lemma signWith_sound keys content p key :
  cmsp_sound (P := TP) keys p -> cmsp_sound keys (signWith content p key) /\
  cmsp_Message (signWith content p key) = cmsp_Message p.
Proof.
  intros Hp. unfold signWith. destruct (cmsp_AddSignature _ _ _) as [p'|] eqn:E; [|done].
  destruct (cmsp_AddSignature_sound keys _ _ _ _ E Hp) as (? & ? & _). done.
Qed.

Lemma toyProofOf_sound kind h r hash signers :
  cmsp_sound (ValidatorsToPubKeys toyValidators) (toyProofOf kind h r hash signers) /\
  cmsp_Message (toyProofOf kind h r hash signers) = toyContentOf (toyContent kind (MkVoteTarget h r hash)).
Proof.
  unfold toyProofOf. set (content := toyContentOf _). set (p0 := MkSimple _ _ _ _ _ _).
  assert (H0 : cmsp_sound (ValidatorsToPubKeys toyValidators) p0 /\ cmsp_Message p0 = content).
  { split; [|done]. assert (Hn : scheme_New content (ValidatorsToPubKeys toyValidators) "a,b,c,d" = Ok p0)
      by done. apply (cmsp_New_sound _ _ _ _ Hn). }
  revert H0. generalize p0. induction signers as [|s l IH]; intros p [Hp Hm]; simpl; [done|].
  apply IH. destruct (signWith_sound _ content p s Hp) as [? Heq]. split; [done|]. by etransitivity; [exact Heq|].
Qed.

Lemma proposedWorld_sound : a_sound toyKernel (abs proposedWorld).
Proof.
  assert (Hv : (abs proposedWorld).(aV).(rv_PrecommitProofs) = Some ∅) by (vm_compute; reflexivity).
  assert (Hn : (abs proposedWorld).(aN).(rv_PrecommitProofs) = Some ∅) by (vm_compute; reflexivity).
  split; intros h p; [rewrite Hv|rewrite Hn]; discriminate.
Qed.

Lemma commitInput_good : goodInput toyKernel (precommit_ok toyKernel) commitInput proposedWorld.(w_k).
Proof.
  intros id hash u Hf _ Hu. unfold toyPrecommits in Hu. cbn [PrecommitUpdates] in Hu.
  apply lookup_singleton_Some in Hu as [<- <-].
  assert (Hid : FindView 1 0 proposedWorld.(w_k) = Ret (ViewIDVoting, ViewFound)) by (vm_compute; reflexivity).
  assert (Heq : id = ViewIDVoting) by (change (FindView 1 0 proposedWorld.(w_k) = Ret (id, ViewFound)) in Hf; congruence).
  subst id. destruct (toyProofOf_sound "C" 1 0 "x" ["a"; "b"; "c"]) as [Hs Hm].
  assert (Hvals : rvVals (viewOf ViewIDVoting proposedWorld.(w_k)).(vrv_RV) = toyValidators)
    by (vm_compute; reflexivity).
  assert (Hpos : vHeight (viewOf ViewIDVoting proposedWorld.(w_k)) = 1 /\
                 vRound (viewOf ViewIDVoting proposedWorld.(w_k)) = 0) by (split; vm_compute; reflexivity).
  destruct Hpos as [Hh Hr]. unfold vHeight, vRound in Hh, Hr.
  split; [rewrite Hvals; exact Hs|]. rewrite Hh, Hr. cbn [vu_Proof]. rewrite Hm. reflexivity.
Qed.

Lemma committed_headers_certified_witness :
  let chain := certChain toyKernel proposedWorld.(w_k).(CommittingHeader)
                 proposedWorld.(w_k).(s_Voting).(vrv_RV).(rv_ValidatorSet)
                 (vHeight proposedWorld.(w_k).(s_Voting)) in
  chain committedWorld.(w_k).(CommittingHeader) committedWorld.(w_k).(s_Voting).(vrv_RV).(rv_ValidatorSet)
    (vHeight committedWorld.(w_k).(s_Voting)) /\
  forall h hd, committedAt h committedWorld.(w_st) = Some hd ->
    committedAt h proposedWorld.(w_st) = Some hd \/ (hd.(Height) = h /\ exists vals h', chain hd vals h').
Proof.
  apply (committed_headers_certified toyKernel proposedWorld committedWorld).
  - apply proposedWorld_coherent.
  - apply proposedWorld_sound.
  - assert (Hphs : (abs proposedWorld).(aN).(rv_ProposedHeaders) = []) by (vm_compute; reflexivity).
    assert (Hv : map (fun ph => ph.(ph_Header).(Height)) (abs proposedWorld).(aV).(rv_ProposedHeaders) = [1] /\
                 (abs proposedWorld).(aV).(rv_Height) = 1) by (split; vm_compute; reflexivity).
    destruct Hv as [Hv Hh]. intros ph. rewrite Hphs, Hh. intros [Hin|Hin]; [|exfalso; exact (not_elem_of_nil _ Hin)].
    assert (Hx : Height (ph_Header ph) ∈ [1]) by (rewrite <- Hv; by apply (list_elem_of_fmap_2 (fun ph => Height (ph_Header ph)))).
    apply list_elem_of_singleton in Hx. exact Hx.
  - apply rtc_once, (gs_handle toyKernel _ commitInput);
      [reflexivity|apply commitInput_good|vm_compute; reflexivity].
Defined.

(** A replayed header whose validators have nothing to do with the ones voting. *)
Definition evilSet : ValidatorSet :=
  MkValidatorSet (map (fun n => MkValidator (MkPubKey "toy" n) 1) ["w"; "x"; "y"; "z"]) "w,x,y,z" "p".
Definition evilHeader : Header :=
  MkHeader "e" nilHash 1 (MkCommitProof 0 nilHash gm_make) evilSet evilSet "e" nilHash
    (MkAnnotations nilHash nilHash).
Definition evilContent : bytes := toyContentOf (toyContent "C" (MkVoteTarget 1 0 "e")).
Definition evilProof : CommitProof :=
  MkCommitProof 0 "w,x,y,z" (Some {["e" := map (fun e => MkSparseSignature (putUint16 e.1) (e.2 +:+ evilContent))
    [(0%nat, "w"); (1%nat, "x"); (2%nat, "y"); (3%nat, "z")]]}).
Definition evilWorld : TW := worldOr emptyWorld (handle toyKernel (InReplay evilHeader evilProof) startWorld).

(** A replay commits a header no voting validator signed: handleReplayedHeader builds the proofs over the
    validators of the header itself and never compares them with the voting ones. *)
Lemma replay_commits_foreign_header :
  handle toyKernel (InReplay evilHeader evilProof) startWorld = Ret (tt, evilWorld) /\
  evilWorld.(w_k).(CommittingHeader) = evilHeader /\
  forallb (fun v => forallb (fun s => negb (verify v.(val_PubKey) evilContent s.(ss_Sig)))
      (flat_map snd (gm_entries evilProof.(cp_Proofs))))
    startWorld.(w_k).(s_Voting).(vrv_RV).(rv_ValidatorSet).(Validators) = true.
Proof. split_and!; vm_compute; reflexivity. Qed.
