(* ===== verification/MirrorSystem.v ===== *)
(** The mirror and its kernel together: any number of mirror calls, with any messages from the network,
    interleaved request by request with the kernel's other inputs.  What a call sends to the kernel is
    sound whatever the kernel did since the call looked its view up, so every committed header is
    certified whatever messages come, as long as replayed headers name the voting validators and a round
    in view. *)
From S2P Require Import Prelude Types BitSets Powers SigProof SimpleProofs VoteSummary RoundView.
From S2P Require Import Stores Managers KState KernelBase Kernel KernelHandlers KernelLoop Mirror.
From S2P Require Import KernelExample KernelSpec KernelRefine KernelSafety KernelTheorems KernelCommit.
From stdpp Require Import relations.
Local Open Scope Z_scope.

(** * The system *)
Section system.
Context {P B ST : Type} `{Verifier, BitSet B, !CMSP P B, !CMSPScheme P, !KernelStores ST}.
Context (k : Kernel).

Inductive Call :=
| CallHeader (c : HeaderCall P)
| CallPrevotes (c : PrevoteCall P)
| CallPrecommits (c : PrecommitCall P).

(** The message a call begins with. *)
Inductive Message :=
| MsgHeader (ph : ProposedHeader)
| MsgPrevotes (p : PrevoteSparseProof)
| MsgPrecommits (p : PrecommitSparseProof).

Definition begin (m : Message) : Call :=
  match m with
  | MsgHeader ph => CallHeader (HandleProposedHeader ph)
  | MsgPrevotes p => CallPrevotes (HandlePrevoteProofs p)
  | MsgPrecommits p => CallPrecommits (HandlePrecommitProofs p)
  end.

Definition callStep (c : Call) : K P ST Call :=
  match c with
  | CallHeader c => c' ← headerStep k c; mret (CallHeader c')
  | CallPrevotes c => c' ← prevoteStep k c; mret (CallPrevotes c')
  | CallPrecommits c => c' ← precommitStep k c; mret (CallPrecommits c')
  end.

(** A call whose context is cancelled: a failed ReqResp ends a vote call and a header call; a cancelled
    backfill makes the header call start again, and a failed send of the header is ignored. *)
Definition cancelPrevotes (c : PrevoteCall P) : PrevoteCall P :=
  match c with PVDone res => PVDone res | _ => PVDone HandleVoteProofsInternalError end.
Definition cancelPrecommits (c : PrecommitCall P) : PrecommitCall P :=
  match c with PCDone res => PCDone res | _ => PCDone HandleVoteProofsInternalError end.
Definition cancelled (c : Call) : Call :=
  match c with
  | CallHeader (HCheck ph) => CallHeader (HDone HandleProposedHeaderInternalError)
  | CallHeader (HBackfill ph c) => CallHeader (HBackfill ph (cancelPrecommits c))
  | CallHeader (HAdd ph) => CallHeader (HDone HandleProposedHeaderAccepted)
  | CallHeader (HDone res) => CallHeader (HDone res)
  | CallPrevotes c => CallPrevotes (cancelPrevotes c)
  | CallPrecommits c => CallPrecommits (cancelPrecommits c)
  end.

(** The kernel with its stores, the buffer of the channel of accepted headers, and the calls. *)
Record System := MkSystem {
  sys_w : World P ST;
  sys_phQ : list ProposedHeader;
  sys_calls : list Call
}.

(** The buffer of addPHRequests. *)
Definition addPHCap : nat := 8.

(** The inputs that do not come from a mirror method. *)
Definition fromElsewhere (i : Input (P := P)) : bool :=
  match i with
  | InViewLookup _ | InPHCheck _ | InAddPH _ | InAddPrevote _ | InAddPrecommit _ => false
  | _ => true
  end.

(** What is assumed of them: the state machine signs the precommit content of its own round, and a
    replayed header names the voting validators and one of the two rounds in view, which the kernel
    does not check. *)
Definition trusted (i : Input (P := P)) (s : kState P) : Prop :=
  match i with
  | InAction act => nonEmpty act.(act_Precommit).(sc_Sig) = true ->
      PrecommitSignBytes (MkVoteTarget (smH s.(StateMachineViewManager)) (smR s.(StateMachineViewManager))
        act.(act_Precommit).(TargetHash)) k.(k_sigScheme) = Ok act.(act_Precommit).(SignContent)
  | InReplay header proof =>
      header.(hd_ValidatorSet) = s.(s_Voting).(vrv_RV).(rv_ValidatorSet) /\
      (proof.(cp_Round) = vRound s.(s_Voting) \/ proof.(cp_Round) = vRound s.(s_NextRound))
  | _ => True
  end.

(** What happens next, when the kernel gets the [allowed] inputs from elsewhere. *)
Inductive sysmove (allowed : Input (P := P) -> kState P -> Prop) : System -> System -> Prop :=
(** A message arrives. *)
| sys_begin m w q cs : sysmove allowed (MkSystem w q cs) (MkSystem w q (cs ++ [begin m]))
(** A call makes its next request, and gets the answer. *)
| sys_call i c c' w w' q cs : cs !! i = Some c -> callStep c w = Ret (c', w') ->
    sysmove allowed (MkSystem w q cs) (MkSystem w' q (<[i := c']> cs))
(** A call is cancelled before its request is taken, or while it waits for the answer. *)
| sys_cancel i c w q cs : cs !! i = Some c ->
    sysmove allowed (MkSystem w q cs) (MkSystem w q (<[i := cancelled c]> cs))
| sys_cancel_waiting i c c' w w' q cs : cs !! i = Some c -> callStep c w = Ret (c', w') ->
    sysmove allowed (MkSystem w q cs) (MkSystem w' q (<[i := cancelled c]> cs))
(** An accepted header is buffered for the kernel, and taken. *)
| sys_send i ph w q cs : cs !! i = Some (CallHeader (HAdd ph)) -> (length q < addPHCap)%nat ->
    sysmove allowed (MkSystem w q cs) (MkSystem w (q ++ [ph]) (<[i := CallHeader (HDone HandleProposedHeaderAccepted)]> cs))
| sys_header ph w w' q cs : handle k (InAddPH ph) w = Ret (tt, w') ->
    sysmove allowed (MkSystem w (ph :: q) cs) (MkSystem w' q cs)
(** The kernel handles an input of its own, or the fetcher takes a request. *)
| sys_kernel i w w' q cs : fromElsewhere i = true -> ready w.(w_k) i = true -> allowed i w.(w_k) ->
    handle k i w = Ret (tt, w') -> sysmove allowed (MkSystem w q cs) (MkSystem w' q cs)
| sys_fetch r fq w q cs : w.(w_fetchQ) = r :: fq ->
    sysmove allowed (MkSystem w q cs) (MkSystem {| w with w_fetchQ := fq |} q cs).

Definition sysstep : System -> System -> Prop := sysmove trusted.
End system.
Arguments Call : clear implicits.
Arguments System : clear implicits.

(** One good iteration of the kernel, or none. *)
Definition moved {P B ST : Type} `{CMSPLaws P B, !KernelStores ST, !KernelStoresLaws ST} (k : Kernel)
  (w w' : World P ST) : Prop := gstep k (precommit_ok k) w w' \/ w = w'.

(** * What a call sends *)
Section calls.
Context {P B ST : Type} `{CMSPLaws P B, !KernelStores ST, !KernelStoresLaws ST}.
Context (k : Kernel).
Implicit Types (s : kState P) (w : World P ST).

(** Precommits for a height and round that are sound for a validator set. *)
Definition soundFor (vals : ValidatorSet) (h r : Z) (hash : bytes) (p : P) : Prop :=
  cmsp_sound (ValidatorsToPubKeys vals.(Validators)) p /\
  PrecommitSignBytes (MkVoteTarget h r hash) k.(k_sigScheme) = Ok (cmsp_Message p).

(** A request that waits to be sent: the kernel has already reached its height, and while it votes on
    that height the updates are sound for the voting validators. *)
Definition reqOK (req : AddPrecommitRequest P) (vals : ValidatorSet) (h : Z) : Prop :=
  req.(apc_H) <= h /\
  (req.(apc_H) = h -> forall hash u, req.(PrecommitUpdates) !! hash = Some u ->
     soundFor vals req.(apc_H) req.(apc_R) hash u.(vu_Proof)).

Definition precommitCallOK (c : PrecommitCall P) (vals : ValidatorSet) (h : Z) : Prop :=
  match c with PCAdd _ _ _ req => reqOK req vals h | _ => True end.

Definition callOK (c : Call P) (vals : ValidatorSet) (h : Z) : Prop :=
  match c with
  | CallHeader (HBackfill _ c) | CallPrecommits c => precommitCallOK c vals h
  | _ => True
  end.

Lemma addVoteUpdates_sound (keep : bytes -> P -> Prop) mk (cur : gomap P) versions l ups :
  (forall h p, gm_get cur h = Some p -> keep h p) -> (forall h p, mk h = Some p -> keep h p) ->
  (forall h p p' sp r, keep h p -> cmsp_MergeSparse sp p = Ret (p', r) -> keep h p') ->
  foldO (addVoteUpdate mk cur versions) ∅ l = Ret ups ->
  forall h u, ups !! h = Some u -> keep h u.(vu_Proof).
Proof.
  intros Hcur Hmk Hmerge Hf.
  assert (Hok : okay (foldO (addVoteUpdate mk cur versions) ∅ l)
    (fun m => forall h u, m !! h = Some u -> keep h u.(vu_Proof))).
  { apply foldO_okay_inv; [|by intros ? ? ?%lookup_empty_Some]. intros [h sigs] m _ Hm. unfold addVoteUpdate.
    destruct (match gm_get cur h with Some p => Some p | None => mk h end) as [p|] eqn:Ep; [|done].
    destruct (cmsp_MergeSparse _ p) as [[p' r]|] eqn:Em; [|done]. simpl.
    intros h' u [[<- <-]|[_ Hu]]%lookup_insert_Some; [|by eapply Hm]. simpl.
    eapply Hmerge; [|exact Em]. destruct (gm_get cur h) eqn:Ec; [simplify_eq; by apply Hcur|by apply Hmk]. }
  rewrite Hf in Hok. exact Hok.
Qed.

Lemma makeNewPrecommitProof_sound h r hash vals p :
  makeNewPrecommitProof k h r hash vals = Some p -> soundFor vals h r hash p.
Proof.
  unfold makeNewPrecommitProof. destruct (PrecommitSignBytes _ _) as [content|] eqn:Ec; [|discriminate].
  destruct (scheme_New _ _ _) as [q|] eqn:En; [|discriminate]. intros [= <-].
  destruct (cmsp_New_sound _ _ _ _ En) as (Hs & Hm & _). split; [done|]. by rewrite Hm.
Qed.

Lemma precommitRequest_sound p resp cur req :
  (forall h q, gm_get (vPrecommits cur) h = Some q ->
     soundFor cur.(vrv_RV).(rv_ValidatorSet) p.(pcs_Height) p.(pcs_Round) h q) ->
  precommitRequest k p resp cur = Ret (inr req) ->
  req.(apc_H) = p.(pcs_Height) /\ req.(apc_R) = p.(pcs_Round) /\
  forall hash u, req.(PrecommitUpdates) !! hash = Some u ->
    soundFor cur.(vrv_RV).(rv_ValidatorSet) p.(pcs_Height) p.(pcs_Round) hash u.(vu_Proof).
Proof.
  intros Hcur. unfold precommitRequest. destruct (negb _); [discriminate|].
  destruct (vlr_ID resp); try discriminate;
    (destruct (negb _); [discriminate|]; case_bool_decide; [discriminate|];
     intros Hr; apply bind_Ret_inv in Hr as (ups & Hups & Hr); case_bool_decide; [discriminate|];
     injection Hr as <-; split; [done|split; [done|]]; simpl;
     eapply (addVoteUpdates_sound (soundFor cur.(vrv_RV).(rv_ValidatorSet) p.(pcs_Height) p.(pcs_Round)));
       [exact Hcur|intros ? ?; apply makeNewPrecommitProof_sound| |exact Hups];
     intros h q q' sp r [Hs Hm] Hmerge; destruct (cmsp_MergeSparse_sound _ _ _ _ _ Hmerge Hs) as (? & Hmm & _);
     split; [done|by rewrite Hmm]).
Qed.

(** ** Requests *)
Lemma ask_handle {A} i (f : Event P -> option A) w a w' : ask k i f w = Ret (a, w') ->
  handle k i w = Ret (tt, w') /\ firstAnswer f (drop (length w.(w_out)) w'.(w_out)) = Some a.
Proof.
  unfold ask. intros Hr. apply bind_Ret_inv in Hr as ([[] w1] & Hh & Hr). simpl in Hr.
  destruct (firstAnswer _ _) as [a'|] eqn:Ef; [|discriminate]. by injection Hr as <- <-.
Qed.

(** A lookup changes nothing, and copies the view it found. *)
Lemma askLookup_spec req w resp cur w' : ask k (InViewLookup req) asLookup w = Ret ((resp, cur), w') ->
  w'.(w_k) = w.(w_k) /\ w'.(w_st) = w.(w_st) /\
  exists id st, FindView req.(vl_H) req.(vl_R) w.(w_k) = Ret (id, st) /\ resp = MkViewLookupResponse id st /\
    (id <> ViewIDNotFound -> cur = copySnapshotView (viewOf id w.(w_k)) req.(vl_VRV) req.(vl_Fields)).
Proof.
  intros Hr. apply ask_handle in Hr as [Hh Hf]. simpl in Hh. unfold sendViewLookupResponse in Hh.
  destruct (String.eqb _ _); [discriminate|]. apply bind_Ret_inv in Hh as ([s w1] & Hg & Hh).
  injection Hg as <- <-. apply bind_Ret_inv in Hh as ([[id st] w2] & Hg & Hh). simpl in Hg.
  unfold liftO in Hg. apply bind_Ret_inv in Hg as (x & Hfind & Hx). injection Hx as -> <-.
  simpl in Hh. injection Hh as <-. simpl in Hf. rewrite drop_app_length in Hf. simpl in Hf.
  injection Hf as <- <-. split; [done|split; [done|]]. exists id, st. split; [done|split; [done|]].
  intros Hid. by rewrite bool_decide_eq_false_2.
Qed.

Lemma copySnapshot_precommits (src dst : VersionedRoundView P) fields :
  hasField fields RVPrecommits = true ->
  forall h, gm_get (vPrecommits (copySnapshotView src dst fields)) h = gm_get (vPrecommits src) h.
Proof.
  intros Hf h. unfold vPrecommits, copySnapshotView. simpl. rewrite Hf. unfold copyProofs, gm_get. simpl.
  destruct (rv_PrecommitProofs (vrv_RV dst)); simpl; by rewrite (right_id_L ∅ (∪)).
Qed.

Lemma copySnapshot_vals (src dst : VersionedRoundView P) fields : hasField fields RVValidators = true ->
  (copySnapshotView src dst fields).(vrv_RV).(rv_ValidatorSet) = src.(vrv_RV).(rv_ValidatorSet).
Proof. intros Hf. unfold copySnapshotView. simpl. by rewrite Hf. Qed.

(** Where FindView finds a view. *)
Lemma FindView_at h r s id st : FindView h r s = Ret (id, st) -> id <> ViewIDNotFound -> coherent s ->
  ((id = ViewIDVoting \/ id = ViewIDNextRound) /\ h = vHeight s.(s_Voting) /\
   vHeight (viewOf id s) = h /\ vRound (viewOf id s) = r /\
   (viewOf id s).(vrv_RV).(rv_ValidatorSet) = s.(s_Voting).(vrv_RV).(rv_ValidatorSet)) \/
  (id = ViewIDCommitting /\ h <> vHeight s.(s_Voting) /\ h = vHeight s.(s_Committing)).
Proof.
  intros Hf Hid Hc. unfold FindView in Hf. destruct (Z.eqb_spec h (vHeight (s_Voting s))) as [->|Hne].
  - left. repeat case_match; simplify_eq;
      repeat match goal with Hb : (_ =? _) = true |- _ => apply Z.eqb_eq in Hb end; subst.
    + split; [by left|done].
    + split; [by right|]. simpl. pose proof (co_height _ Hc). pose proof (co_round _ Hc).
      pose proof (co_vals _ Hc). done.
  - right. repeat case_match; simplify_eq.
    match goal with Hb : (_ && _) = true |- _ => apply andb_prop in Hb as [Hb _]; apply Z.eqb_eq in Hb end.
    done.
Qed.

(** ** A step of a call is good for the kernel *)

Record kernelOK s : Prop := {
  ko_coherent : coherent s;
  ko_sound : forall id h p, id = ViewIDVoting \/ id = ViewIDNextRound ->
    gm_get (vPrecommits (viewOf id s)) h = Some p -> precommit_ok k (viewOf id s).(vrv_RV) h p;
  ko_below : vHeight s.(s_Committing) < vHeight s.(s_Voting)
}.

Definition votingVals s : ValidatorSet := s.(s_Voting).(vrv_RV).(rv_ValidatorSet).

Lemma ask_gstep {A} i (f : Event P -> option A) w a w' : ask k i f w = Ret (a, w') ->
  ready w.(w_k) i = true -> goodInput k (precommit_ok k) i w.(w_k) -> gstep k (precommit_ok k) w w'.
Proof. intros Ha Hr Hg. apply ask_handle in Ha as [Hh _]. by eapply gs_handle. Qed.

Lemma precommitStep_ok c c' w w' : kernelOK w.(w_k) ->
  precommitCallOK c (votingVals w.(w_k)) (vHeight w.(w_k).(s_Voting)) ->
  precommitStep k c w = Ret (c', w') ->
  moved k w w' /\
  precommitCallOK c' (votingVals w'.(w_k)) (vHeight w'.(w_k).(s_Voting)).
Proof.
  intros [Hc Hsound Hbelow] Hok Hr. destruct c as [reason p cur|reason p cur req|res]; simpl in Hr.
  - apply bind_Ret_inv in Hr as ([[resp cur'] w1] & Ha & Hr). simpl in Hr.
    apply bind_Ret_inv in Hr as ([v w2] & Hv & Hr). injection Hr as <- <-.
    unfold liftO in Hv. apply bind_Ret_inv in Hv as (v' & Hv & Hw). injection Hw as -> <-.
    split; [left; by eapply ask_gstep|]. simpl.
    apply askLookup_spec in Ha as (Hk & _ & id & st & Hf & -> & Hcur). rewrite Hk.
    destruct v as [res|req]; [done|]. simpl in *.
    assert (Hid : id <> ViewIDNotFound).
    { intros ->. unfold precommitRequest in Hv. simpl in Hv. by destruct (negb _). }
    specialize (Hcur Hid). subst cur'.
    destruct (FindView_at _ _ _ _ _ Hf Hid Hc) as [(Hids & Hh & Hvh & Hvr & Hvals)|(-> & Hne & Hh)].
    + apply precommitRequest_sound in Hv as (Eh & Er & Hups).
      * split; [rewrite Eh; lia|]. intros _ hash u Hu. rewrite Eh, Er. unfold votingVals. rewrite <- Hvals.
        rewrite copySnapshot_vals in Hups by done. by apply Hups.
      * intros h q. rewrite copySnapshot_precommits, copySnapshot_vals by done. intros Hq.
        pose proof (Hsound id h q Hids Hq) as [Hs Hm]. split; [exact Hs|].
        unfold vHeight, vRound in Hvh, Hvr. by rewrite Hvh, Hvr in Hm.
    + assert (Eh : req.(apc_H) = p.(pcs_Height)).
      { unfold precommitRequest in Hv. destruct (negb _); [discriminate|]. simpl in Hv.
        destruct (negb _); [discriminate|]. case_bool_decide; [discriminate|].
        apply bind_Ret_inv in Hv as (ups & _ & Hv). case_bool_decide; [discriminate|]. by injection Hv as <-. }
      split; [rewrite Eh; lia|]. rewrite Eh. done.
  - apply bind_Ret_inv in Hr as ([v w1] & Ha & Hr). injection Hr as <- <-.
    split; [|by destruct v]. left; eapply ask_gstep; [exact Ha|done|].
    intros id hash u Hf Hid Hu. assert (Hnf : id <> ViewIDNotFound) by (destruct Hid as [->| ->]; done).
    destruct Hok as [_ Hok].
    destruct (FindView_at _ _ _ _ _ Hf Hnf Hc) as [(_ & Hh & Hvh & Hvr & Hvals)|(-> & _)];
      [|by destruct Hid].
    destruct (Hok Hh hash u Hu) as [Hs Hm]. unfold vHeight, vRound in Hvh, Hvr. split.
    + unfold rvVals. rewrite Hvals. exact Hs.
    + by rewrite Hvh, Hvr.
  - injection Hr as <- <-. split; [by right|done].
Qed.

Lemma prevoteStep_ok c c' w w' : prevoteStep k c w = Ret (c', w') -> moved k w w'.
Proof.
  intros Hr. destruct c as [p cur|p cur req|res]; simpl in Hr.
  - apply bind_Ret_inv in Hr as ([[resp cur'] w1] & Ha & Hr). simpl in Hr.
    apply bind_Ret_inv in Hr as ([v w2] & Hv & Hr). injection Hr as _ <-.
    unfold liftO in Hv. apply bind_Ret_inv in Hv as (v' & Hv & Hw). injection Hw as _ <-.
    left; by eapply ask_gstep.
  - apply bind_Ret_inv in Hr as ([v w1] & Ha & Hr). injection Hr as _ <-. left; by eapply ask_gstep.
  - injection Hr as _ <-. by right.
Qed.

Lemma headerStep_ok c c' w w' : kernelOK w.(w_k) ->
  callOK (CallHeader c) (votingVals w.(w_k)) (vHeight w.(w_k).(s_Voting)) ->
  headerStep k c w = Ret (c', w') ->
  moved k w w' /\
  callOK (CallHeader c') (votingVals w'.(w_k)) (vHeight w'.(w_k).(s_Voting)).
Proof.
  intros Hko Hok Hr. destruct c as [ph|ph c|ph|res]; simpl in Hr.
  - apply bind_Ret_inv in Hr as ([resp w1] & Ha & Hr). simpl in Hr.
    unfold liftO in Hr. apply bind_Ret_inv in Hr as (v & Hv & Hr). injection Hr as -> <-.
    split; [left; by eapply ask_gstep|]. unfold afterCheck in Hv.
    destruct (phc_Status resp); simplify_eq; try done.
    + apply bind_Ret_inv in Hv as (v & _ & Hv). injection Hv as <-. by destruct v.
    + simpl. unfold backfillCommitForNextHeightPE, handlePrecommitProofs. by case_bool_decide.
  - destruct c as [reason p cur|reason p cur req|res].
    1,2: apply bind_Ret_inv in Hr as ([c'' w1] & Hs & Hr); injection Hr as <- <-;
      by eapply (precommitStep_ok _ _ _ _ Hko Hok).
    injection Hr as <- <-. split; [by right|done].
  - injection Hr as <- <-. split; [by right|done].
  - injection Hr as <- <-. split; [by right|done].
Qed.

Lemma callStep_ok c c' w w' : kernelOK w.(w_k) ->
  callOK c (votingVals w.(w_k)) (vHeight w.(w_k).(s_Voting)) -> callStep k c w = Ret (c', w') ->
  moved k w w' /\
  callOK c' (votingVals w'.(w_k)) (vHeight w'.(w_k).(s_Voting)).
Proof.
  intros Hko Hok Hr. destruct c as [c|c|c]; apply bind_Ret_inv in Hr as ([c1 w1] & Hs & Hr);
    injection Hr as <- <-.
  - by eapply headerStep_ok.
  - split; [by eapply prevoteStep_ok|done].
  - by eapply precommitStep_ok.
Qed.
End calls.

(** * Positions along a run of the protocol *)
Section positions.
Context {P B : Type} `{BitSetLaws B, !CMSP P B}.
Context (newOK : RoundView P -> bytes -> P -> Prop).
Implicit Types (a b : AState P).

(** Voting goes on at one height with the same validators, or at a later height. *)
Definition onward a b : Prop :=
  (b.(aV).(rv_Height) = a.(aV).(rv_Height) /\ b.(aV).(rv_ValidatorSet) = a.(aV).(rv_ValidatorSet)) \/
  a.(aV).(rv_Height) < b.(aV).(rv_Height).

Definition a_below a : Prop := a.(aC).(rv_Height) < a.(aV).(rv_Height).

Lemma onward_trans a b c : onward a b -> onward b c -> onward a c.
Proof. unfold onward. intros [[-> ->]|?] [[-> ->]|?]; [by left|by right|by right|right; lia]. Qed.

Lemma astep_onward l a b : astep newOK l a b -> a_coherent a -> a_below a ->
  0 <= a.(aV).(rv_Height) < two64 -> (l = LCommit -> a.(aV).(rv_Height) < two64 - 1) ->
  onward a b /\ a_below b.
Proof.
  intros Hst [_ _ Hnh _ Hvals] Hb Hpos Hlast. unfold onward, a_below in *. destruct Hst as
    [a b [Ev En Ec Ech El]|ph a Hph|ph a Hph|proofs vs a Hne Hs|proofs vs a Hne Hs|
     proofs vs a Hne Hnew Hs|proofs vs a Hne Hnew Hs|c a Hch Hcr Hcv|a Hreason|r a Hlt|
     ph c n a Hg Hch1 Hch2 Hcv Hcp Hn'|b a Ev En Ec Ech Hsv Hfr]; simpl.
  - rewrite Ev, Ec. split; [by left|done].
  - split; [by left|done].
  - split; [by left|done].
  - split; [by left|done].
  - split; [by left|done].
  - split; [by left|done].
  - split; [by left|done].
  - split; [by left|]. by rewrite Hch.
  - split; [by left|]. by rewrite Hnh.
  - split; [by left|]. by rewrite Hnh.
  - specialize (Hlast eq_refl). rewrite u64_small by (unfold is_u64; lia). split; [right; lia|]. lia.
  - rewrite Ev, Ec. split; [by left|done].
Qed.

Lemma crun_onward jump n a b : crun newOK jump n a b -> a_coherent a -> a_chain a -> a_below a ->
  0 <= a.(aV).(rv_Height) -> a.(aV).(rv_Height) + Z.of_nat n < two64 -> onward a b /\ a_below b.
Proof.
  intros Hr. induction Hr as [n a|l n a b c Hs Hj Hl Hr IH|n a b c Hs Hr IH]; intros Hc Hch Hb Hpos Hn.
  - split; [by left|done].
  - destruct (astep_onward l a b Hs Hc Hb ltac:(lia) ltac:(done)) as [Ho Hb'].
    destruct (a_chain_step newOK l a b Hs Hch ltac:(lia) ltac:(done)) as (Hch' & _ & He & _).
    specialize (He Hl). destruct IH as [Ho' Hb'']; [by eapply a_coherent_step|done|done|lia|lia|].
    split; [by eapply onward_trans|done].
  - destruct (astep_onward LCommit a b Hs Hc Hb ltac:(lia) ltac:(lia)) as [Ho Hb'].
    destruct (a_chain_step newOK LCommit a b Hs Hch ltac:(lia) ltac:(lia)) as (Hch' & He & _).
    destruct IH as [Ho' Hb'']; [by eapply a_coherent_step|done|done|lia|lia|].
    split; [by eapply onward_trans|done].
Qed.
End positions.

(** * The invariant of the system *)
Section invariant.
Context {P B ST : Type} `{CMSPLaws P B, !KernelStores ST, !KernelStoresLaws ST}.
Context (k : Kernel) (hd0 : Header) (vals0 : ValidatorSet) (h0 : Z) (log0 : Z -> option Header).
Implicit Types (w : World P ST) (sys : System P ST).

Record worldOK w : Prop := {
  wo_certified : a_certified k hd0 vals0 h0 log0 (abs w);
  wo_chain : a_chain (abs w);
  wo_below : a_below (abs w);
  wo_height : 0 <= vHeight w.(w_k).(s_Voting)
}.

Lemma worldOK_kernelOK w : worldOK w -> kernelOK k w.(w_k).
Proof.
  intros [[Hc [Hv Hn] _ _ _] _ Hb _]. split; [by apply coherent_abs| |exact Hb].
  intros id h p [->| ->]; [apply Hv|apply Hn].
Qed.

Lemma worldOK_gstep w w' : worldOK w -> vHeight w.(w_k).(s_Voting) + 1 < two64 ->
  moved k w w' ->
  worldOK w' /\ onward (abs w) (abs w') /\
  vHeight w'.(w_k).(s_Voting) <= vHeight w.(w_k).(s_Voting) + 1 /\
  (forall h hd, committedAt h w.(w_st) = Some hd -> committedAt h w'.(w_st) = Some hd).
Proof.
  intros [Hcert Hch Hb Hpos] Hlast [Hs|<-].
  2:{ split; [done|]. split; [by left|split; [lia|done]]. }
  pose proof (cert_coherent _ _ _ _ _ _ Hcert) as Hc.
  destruct (gstep_refines k _ w w' (precommit_ok_headers k) (ac_height _ Hc) Hs) as [j Hr].
  destruct (crun_chain _ _ _ _ _ Hr Hch Hpos Hlast) as (Hch' & Hle & Hlog).
  destruct (crun_onward _ _ _ _ _ Hr Hc Hch Hb Hpos Hlast) as [Ho Hb'].
  split; [|split; [done|split; [apply Hle|done]]]. split; [|done|done|simpl in Hle; unfold vHeight in *; lia].
  eapply crun_inv; [|exact Hr|exact Hcert]. intros l a b. apply a_certified_step.
Qed.

Record sysOK sys : Prop := {
  so_world : worldOK sys.(sys_w);
  so_calls : forall c, c ∈ sys.(sys_calls) ->
    callOK k c (votingVals sys.(sys_w).(w_k)) (vHeight sys.(sys_w).(w_k).(s_Voting))
}.

Lemma callOK_onward c w w' : onward (abs w) (abs w') ->
  callOK k c (votingVals w.(w_k)) (vHeight w.(w_k).(s_Voting)) ->
  callOK k c (votingVals w'.(w_k)) (vHeight w'.(w_k).(s_Voting)).
Proof.
  intros Ho. assert (Hreq : forall req, reqOK k req (votingVals w.(w_k)) (vHeight w.(w_k).(s_Voting)) ->
    reqOK k req (votingVals w'.(w_k)) (vHeight w'.(w_k).(s_Voting))).
  { intros req [Hle Hs]. unfold votingVals, vHeight in *. destruct Ho as [[Hh Hv]|Hlt]; simpl in *.
    - by rewrite Hh, Hv.
    - split; [lia|]. intros Heq. lia. }
  destruct c as [[ph|ph [| |]|ph|res]|c|[| |]]; simpl; try done; apply Hreq.
Qed.

Lemma begin_ok m vals h : callOK k (begin (P := P) m) vals h.
Proof.
  destruct m as [ph|p|p]; simpl; try done. unfold HandlePrecommitProofs, handlePrecommitProofs.
  by case_bool_decide.
Qed.

Lemma cancelled_ok (c : Call P) vals h : callOK k (cancelled c) vals h.
Proof. by destruct c as [[ph|ph [| |]|ph|res]|c|[| |]]. Qed.

(** Replacing one call after a step of the world. *)
Lemma sysOK_update w w' q q' cs i c' : sysOK (MkSystem w q cs) -> worldOK w' -> onward (abs w) (abs w') ->
  callOK k c' (votingVals w'.(w_k)) (vHeight w'.(w_k).(s_Voting)) -> sysOK (MkSystem w' q' (<[i := c']> cs)).
Proof.
  intros [_ Hcs] Hw Ho Hc'. split; [done|]. simpl in *. intros c Hc.
  apply list_elem_of_lookup in Hc as (j & Hj). apply list_lookup_insert_Some in Hj as [(_ & <- & _)|[_ Hj]];
    [done|]. eapply callOK_onward; [done|]. apply Hcs. by eapply list_elem_of_lookup_2.
Qed.

Lemma sysOK_world w w' q q' cs : sysOK (MkSystem w q cs) -> worldOK w' -> onward (abs w) (abs w') ->
  sysOK (MkSystem w' q' cs).
Proof.
  intros [_ Hcs] Hw Ho. split; [done|]. simpl in *. intros c Hc. eapply callOK_onward; [done|]. by apply Hcs.
Qed.

Lemma onward_refl (a : AState P) : onward a a.
Proof. by left. Qed.

Lemma trusted_good i w : worldOK w -> fromElsewhere i = true -> trusted k i w.(w_k) ->
  goodInput k (precommit_ok k) i w.(w_k).
Proof.
  intros [[Hc Hs _ _ _] _ _ _] Hi Ht.
  destruct i as [req|req|ph|ph|req|req| | | |ph|re|act|header proof]; try done.
  - apply action_good; [exact Hs|exact Ht].
  - destruct Ht as [Hv Hr]. apply replay_good; [exact Hs|by apply coherent_abs|done|done].
Qed.

(** What a step does to the kernel. *)
Lemma sysstep_moved sys sys' : sysstep k sys sys' -> sysOK sys -> moved k sys.(sys_w) sys'.(sys_w).
Proof.
  intros Hst [Hw Hcs]. destruct Hst as
    [m w q cs|i c c' w w' q cs Hi Hc|i c w q cs Hi|i c c' w w' q cs Hi Hc|i ph w q cs Hi Hlen|
     ph w w' q cs Hh|i w w' q cs Hi Hr Ht Hh|r fq w q cs Hf]; simpl in *; try (by right);
    try exact (proj1 (callStep_ok k c c' w w' (worldOK_kernelOK _ Hw) (Hcs c (list_elem_of_lookup_2 _ _ _ Hi)) Hc)).
  - left. by apply (gs_handle k _ (InAddPH ph)).
  - left. apply (gs_handle k _ i); [done| |done]. by apply trusted_good.
  - left. by eapply gs_fetch.
Qed.

Lemma sysstep_ok sys sys' : sysstep k sys sys' -> sysOK sys ->
  vHeight sys.(sys_w).(w_k).(s_Voting) + 1 < two64 ->
  sysOK sys' /\ vHeight sys'.(sys_w).(w_k).(s_Voting) <= vHeight sys.(sys_w).(w_k).(s_Voting) + 1 /\
  (forall h hd, committedAt h sys.(sys_w).(w_st) = Some hd -> committedAt h sys'.(sys_w).(w_st) = Some hd).
Proof.
  intros Hst Hok Hlast. pose proof Hok as [Hw Hcs]. destruct Hst as
    [m w q cs|i c c' w w' q cs Hi Hc|i c w q cs Hi|i c c' w w' q cs Hi Hc|i ph w q cs Hi Hlen|
     ph w w' q cs Hh|i w w' q cs Hi Hr Ht Hh|r fq w q cs Hf]; simpl in *.
  - split; [|split; [lia|done]]. split; [done|]. simpl. intros c [Hc| ->%list_elem_of_singleton]%elem_of_app;
      [by apply Hcs|apply begin_ok].
  - destruct (callStep_ok k c c' w w' (worldOK_kernelOK _ Hw) (Hcs c (list_elem_of_lookup_2 _ _ _ Hi)) Hc) as [Hg Hc'].
    destruct (worldOK_gstep w w' Hw Hlast Hg) as (Hw' & Ho & Hle & Hlog).
    split; [by eapply sysOK_update|done].
  - split; [|split; [lia|done]]. eapply sysOK_update; [done|done|apply onward_refl|apply cancelled_ok].
  - destruct (callStep_ok k c c' w w' (worldOK_kernelOK _ Hw) (Hcs c (list_elem_of_lookup_2 _ _ _ Hi)) Hc) as [Hg _].
    destruct (worldOK_gstep w w' Hw Hlast Hg) as (Hw' & Ho & Hle & Hlog).
    split; [|done]. eapply sysOK_update; [done|done|done|apply cancelled_ok].
  - split; [|split; [lia|done]]. eapply sysOK_update; [done|done|apply onward_refl|done].
  - destruct (worldOK_gstep w w' Hw Hlast) as (Hw' & Ho & Hle & Hlog).
    { left; by apply (gs_handle k _ (InAddPH ph)). }
    split; [by eapply sysOK_world|done].
  - destruct (worldOK_gstep w w' Hw Hlast) as (Hw' & Ho & Hle & Hlog).
    { left; apply (gs_handle k _ i); [done| |done]. by apply trusted_good. }
    split; [by eapply sysOK_world|done].
  - destruct (worldOK_gstep w {| w with w_fetchQ := fq |} Hw Hlast) as (Hw' & Ho & Hle & Hlog).
    { left; by eapply gs_fetch. }
    split; [by eapply sysOK_world|done].
Qed.

Lemma sysOK_run n sys sys' : nsteps (sysstep k) n sys sys' -> sysOK sys ->
  vHeight sys.(sys_w).(w_k).(s_Voting) + Z.of_nat n < two64 ->
  sysOK sys' /\
  (forall h hd, committedAt h sys.(sys_w).(w_st) = Some hd -> committedAt h sys'.(sys_w).(w_st) = Some hd).
Proof.
  intros Hr. induction Hr as [sys|n sys sys1 sys' Hs Hr IH]; intros Hok Hn; [done|].
  destruct (sysstep_ok sys sys1 Hs Hok ltac:(lia)) as (Hok1 & Hle & Hlog).
  destruct (IH Hok1 ltac:(lia)) as [Hok' Hlog']. split; [done|]. auto.
Qed.
End invariant.

(** A system with no calls satisfies it. *)
Lemma sysOK_start {P B ST : Type} `{CMSPLaws P B, !KernelStores ST, !KernelStoresLaws ST} (k : Kernel) (sys : System P ST) :
  let w := sys.(sys_w) in coherent w.(w_k) -> a_sound k (abs w) -> a_chain (abs w) ->
  0 <= vHeight w.(w_k).(s_Voting) -> vHeight w.(w_k).(s_Committing) < vHeight w.(w_k).(s_Voting) -> sys.(sys_calls) = [] ->
  sysOK k w.(w_k).(CommittingHeader) (votingVals w.(w_k)) (vHeight w.(w_k).(s_Voting)) (fun h => committedAt h w.(w_st)) sys.
Proof.
  intros w Hc Hs Hch Hpos Hb Hcs. split; [|rewrite Hcs; by intros c Hin%elem_of_nil]. split; [|done..].
  split; [by apply abs_coherent|done|exact (ah_phs _ Hch)|apply cc_start|auto].
Qed.

(** * Properties *)

(** C2: safety of the mirror as a whole.  Take any run of [n] steps in which any number of mirror calls, started with
    arbitrary messages from the network, are interleaved with each other, with cancellations and with the kernel's own
    inputs.  Two of these inputs are restricted (trusted): a precommit of the state machine is signed for the round the
    kernel has it in, and a replayed header names the voting validators and one of the two rounds in view.  The code
    does not check the latter, and without it the claim is false (replay_commits_foreign_header).  Let the start be as
    a started kernel is: coherent views with sound precommits, headers in view of the voting height, nothing stored
    above the committing header, the committing height below the voting one, [n] below the last 64-bit height, and no
    calls running.  Then the committing header is linked to the starting one by a chain of headers, each signed by
    validators holding ByzantineMajority of the power of the set its predecessor names; every header stored as
    committed was stored before or is on such a chain; and no stored header was changed. *)
Theorem mirror_commits_certified {P B ST : Type} `{CMSPLaws P B, !KernelStores ST, !KernelStoresLaws ST}
  (k : Kernel) (n : nat) (sys sys' : System P ST) :
  let w := sys.(sys_w) in
  let w' := sys'.(sys_w) in
  let chain := certChain k w.(w_k).(CommittingHeader) (votingVals w.(w_k)) (vHeight w.(w_k).(s_Voting)) in
  coherent w.(w_k) -> a_sound k (abs w) -> a_chain (abs w) ->
  0 <= vHeight w.(w_k).(s_Voting) -> vHeight w.(w_k).(s_Voting) + Z.of_nat n < two64 ->
  vHeight w.(w_k).(s_Committing) < vHeight w.(w_k).(s_Voting) -> sys.(sys_calls) = [] ->
  nsteps (sysstep k) n sys sys' ->
  chain w'.(w_k).(CommittingHeader) (votingVals w'.(w_k)) (vHeight w'.(w_k).(s_Voting)) /\
  (forall h hd, committedAt h w'.(w_st) = Some hd ->
     committedAt h w.(w_st) = Some hd \/ (hd.(Height) = h /\ exists vals h', chain hd vals h')) /\
  (forall h hd, committedAt h w.(w_st) = Some hd -> committedAt h w'.(w_st) = Some hd).
Proof.
  intros w w' chain Hc Hs Hch Hpos Hn Hb Hcs Hr.
  assert (Hok : sysOK k w.(w_k).(CommittingHeader) (votingVals w.(w_k)) (vHeight w.(w_k).(s_Voting))
    (fun h => committedAt h w.(w_st)) sys) by (by apply sysOK_start).
  destruct (sysOK_run k _ _ _ _ n sys sys' Hr Hok Hn) as [[[Hcert _ _ _] _] Hlog].
  split; [exact (cert_chain _ _ _ _ _ _ Hcert)|split; [exact (cert_log _ _ _ _ _ _ Hcert)|exact Hlog]].
Qed.

(** The instance: a header and three of four precommits arrive from the network, and height 1 is
    committed. *)
Definition netHeader : ProposedHeader :=
  let ph := toyPH 1 0 "x" "a" (MkCommitProof 0 nilHash gm_make) in
  {| ph with ph_Signature := "a" +:+ toyContentOf (toyContent "H" (MkVoteTarget 1 0 "x")) |}.
Definition netPrecommits : PrecommitSparseProof :=
  MkPrecommitSparse 1 0 "a,b,c,d" (Some {["x" := map (fun e => MkSparseSignature (putUint16 e.1)
    (e.2 +:+ toyContentOf (toyContent "C" (MkVoteTarget 1 0 "x")))) [(0%nat, "a"); (1%nat, "b"); (2%nat, "c")]]}).

Definition callOr (m : outcome (Call TP * TW)) : Call TP * TW :=
  match m with Ret r => r | Panic _ => (CallPrevotes (PVDone HandleVoteProofsInternalError), emptyWorld) end.

Definition net1 : Call TP * TW := callOr (callStep toyKernel (begin (MsgHeader netHeader)) startWorld).
Definition net2 : TW := worldOr emptyWorld (handle toyKernel (InAddPH netHeader) net1.2).
Definition net3 : Call TP * TW := callOr (callStep toyKernel (begin (MsgPrecommits netPrecommits)) net2).
Definition net4 : Call TP * TW := callOr (callStep toyKernel net3.1 net3.2).

Lemma net_run : nsteps (sysstep toyKernel) 7 (MkSystem startWorld [] []) (MkSystem net4.2 []
  [CallHeader (HDone HandleProposedHeaderAccepted); CallPrecommits (PCDone HandleVoteProofsAccepted)]).
Proof.
  eapply nsteps_l; [apply (sys_begin _ _ (MsgHeader netHeader))|].
  eapply nsteps_l; [apply (sys_call _ _ 0 (begin (MsgHeader netHeader)) (CallHeader (HAdd netHeader)) _ net1.2);
    [reflexivity|vm_compute; reflexivity]|].
  eapply nsteps_l; [apply (sys_send _ _ 0 netHeader); [reflexivity|vm_compute; lia]|].
  eapply nsteps_l; [apply (sys_header _ _ netHeader _ net2); vm_compute; reflexivity|].
  eapply nsteps_l; [apply (sys_begin _ _ (MsgPrecommits netPrecommits))|].
  eapply nsteps_l; [apply (sys_call _ _ 1 (begin (MsgPrecommits netPrecommits)) net3.1 _ net3.2);
    [reflexivity|vm_compute; reflexivity]|].
  apply nsteps_once, (sys_call _ _ 1 net3.1 (CallPrecommits (PCDone HandleVoteProofsAccepted)) _ net4.2);
    [reflexivity|vm_compute; reflexivity].
Qed.

Lemma startWorld_sound : a_sound toyKernel (abs startWorld).
Proof.
  assert (Hv : (abs startWorld).(aV).(rv_PrecommitProofs) = Some ∅) by (vm_compute; reflexivity).
  assert (Hn : (abs startWorld).(aN).(rv_PrecommitProofs) = Some ∅) by (vm_compute; reflexivity).
  split; intros h p; [rewrite Hv|rewrite Hn]; discriminate.
Qed.

Lemma mirror_commits_certified_witness :
  let chain := certChain toyKernel startWorld.(w_k).(CommittingHeader) (votingVals startWorld.(w_k))
                 (vHeight startWorld.(w_k).(s_Voting)) in
  chain net4.2.(w_k).(CommittingHeader) (votingVals net4.2.(w_k)) (vHeight net4.2.(w_k).(s_Voting)) /\
  (forall h hd, committedAt h net4.2.(w_st) = Some hd ->
     committedAt h startWorld.(w_st) = Some hd \/ (hd.(Height) = h /\ exists vals h', chain hd vals h')) /\
  (forall h hd, committedAt h startWorld.(w_st) = Some hd -> committedAt h net4.2.(w_st) = Some hd).
Proof.
  apply (mirror_commits_certified toyKernel 7 (MkSystem startWorld [] []) (MkSystem net4.2 []
    [CallHeader (HDone HandleProposedHeaderAccepted); CallPrecommits (PCDone HandleVoteProofsAccepted)])).
  - apply startWorld_coherent.
  - exact startWorld_sound.
  - apply startWorld_chain.
  - vm_compute. discriminate.
  - vm_compute. reflexivity.
  - vm_compute. reflexivity.
  - reflexivity.
  - apply net_run.
Defined.
