(* ===== verification/MirrorProofs.v ===== *)
(** What the mirror's methods guarantee: which headers they let through, that their optimistic updates
    cannot conflict with a quiet kernel, that snapshots are faithful; and the messages that stop or
    stall the node. *)
From S2P Require Import Prelude Types BitSets Powers SigProof SimpleProofs VoteSummary RoundView.
From S2P Require Import Stores Managers KState KernelBase Kernel KernelHandlers KernelLoop Mirror.
From S2P Require Import KernelExample KernelRefine KernelTheorems MirrorSystem.

(** * Optimistic updates *)
Section updates.
Context {P : Type}.

Definition fresh (versions0 : gomap Z) (h : bytes) (u : VoteUpdate P) : bool :=
  u.(PrevVersion) =? gm_getz 0 versions0 h.

(** After the updates of the list, from [g0] and [versions0]. *)
Record updated (g0 : gmap bytes P) (versions0 : gomap Z) (l : list (bytes * VoteUpdate P))
  (g : gmap bytes P) (v : gomap Z) (acc any : bool) : Prop := {
  up_out : forall h, h ∉ l.*1 -> g !! h = g0 !! h /\ gm_getz 0 v h = gm_getz 0 versions0 h;
  up_in : forall h u, (h, u) ∈ l ->
    g !! h = (if fresh versions0 h u then Some u.(vu_Proof) else g0 !! h) /\
    gm_getz 0 v h = (if fresh versions0 h u then u32 (gm_getz 0 versions0 h + 1) else gm_getz 0 versions0 h);
  up_acc : acc = true <-> forall h u, (h, u) ∈ l -> fresh versions0 h u = true;
  up_any : any = true <-> exists h u, (h, u) ∈ l /\ fresh versions0 h u = true
}.

Lemma updated_snoc g0 versions0 l g v acc any h u : updated g0 versions0 l g v acc any ->
  h ∉ l.*1 ->
  exists g' v' acc' any', applyUpdate (Some g, v, acc, any) (h, u) = Ret (Some g', v', acc', any') /\
    updated g0 versions0 (l ++ [(h, u)]) g' v' acc' any'.
Proof.
  intros [Hout Hin Hacc Hany] Hh. destruct (Hout h Hh) as [Hgh Hvh]. unfold applyUpdate. rewrite Hvh.
  assert (Hne : forall h' u', (h', u') ∈ l -> h <> h').
  { intros h' u' Hin' He. apply Hh. subst h'. exact (list_elem_of_fmap_2 fst l (h, u') Hin'). }
  assert (Hl : forall h' u', (h', u') ∈ l ++ [(h, u)] <-> (h', u') ∈ l \/ (h' = h /\ u' = u)).
  { intros h' u'. rewrite elem_of_app, list_elem_of_singleton. naive_solver. }
  assert (Ho : forall h', h' ∉ (l ++ [(h, u)]).*1 -> h' ∉ l.*1 /\ h <> h').
  { intros h' Hh'. rewrite fmap_app, not_elem_of_app in Hh'. destruct Hh' as [H1 H2]. split; [done|].
    intros ->. apply H2. simpl. by apply list_elem_of_singleton. }
  change (PrevVersion u =? gm_getz 0 versions0 h) with (fresh versions0 h u).
  destruct (fresh versions0 h u) eqn:Ef; simpl; eexists _, _, _, _; (split; [reflexivity|]); split.
  - intros h' [Hh' Hn]%Ho. unfold gm_getz, gm_get; simpl. rewrite !lookup_insert_ne by done. by apply Hout.
  - intros h' u' [Hx|[-> ->]]%Hl; unfold gm_getz, gm_get; simpl.
    + pose proof (Hne _ _ Hx). rewrite !lookup_insert_ne by done. by apply Hin.
    + rewrite !lookup_insert_eq. by rewrite Ef.
  - rewrite Hacc. setoid_rewrite Hl. naive_solver.
  - split; [|done]. intros _. exists h, u. split; [apply Hl; by right|done].
  - intros h' [Hh' _]%Ho. by apply Hout.
  - intros h' u' [Hx|[-> ->]]%Hl; [by apply Hin|]. rewrite Ef. by split.
  - split; [done|]. intros Ha. specialize (Ha h u). rewrite Ef in Ha. apply Ha, Hl. by right.
  - rewrite Hany. setoid_rewrite Hl. naive_solver congruence.
Qed.

Lemma applyUpdates_fold g0 versions0 l : NoDup l.*1 ->
  exists g v acc any, foldO applyUpdate (Some g0, versions0, true, false) l = Ret (Some g, v, acc, any) /\
    updated g0 versions0 l g v acc any.
Proof.
  induction l as [|[h u] l IH] using rev_ind; intros Hnd.
  - exists g0, versions0, true, false. split; [done|]. split; [done|..]; set_solver.
  - rewrite fmap_app in Hnd. apply NoDup_app in Hnd as (Hnd & Hdis & _).
    destruct (IH Hnd) as (g & v & acc & any & Hf & Hu).
    assert (Hh : h ∉ l.*1) by (intros Hc; apply (Hdis h Hc); by apply list_elem_of_singleton).
    destruct (updated_snoc _ _ _ _ _ _ _ h u Hu Hh) as (g' & v' & acc' & any' & Hs & Hu').
    exists g', v', acc', any'. split; [|done]. rewrite foldO_app, Hf. simpl foldO. cbn [mbind outcome_bind].
    by rewrite Hs.
Qed.
End updates.

(** The kernel's optimistic concurrency.  Applying updates to a view's proofs never fails; a hash
    whose update names the current version gets the new proof and the next version, every other hash
    keeps its proof and version; the update is reported as accepted exactly when every version matched,
    and as having added something exactly when one did. *)
Theorem applyUpdates_exact {P : Type} (g0 : gmap bytes P) (versions0 : gomap Z)
  (updates : gmap bytes (VoteUpdate P)) :
  exists g v acc any, applyUpdates (Some g0) versions0 updates = Ret (Some g, v, acc, any) /\
    (forall h,
       let fresh := match updates !! h with
                    | Some u => u.(PrevVersion) =? gm_getz 0 versions0 h | None => false end in
       g !! h = (if fresh then vu_Proof <$> updates !! h else g0 !! h) /\
       gm_getz 0 v h = (if fresh then u32 (gm_getz 0 versions0 h + 1) else gm_getz 0 versions0 h)) /\
    (acc = true <-> forall h u, updates !! h = Some u -> u.(PrevVersion) = gm_getz 0 versions0 h) /\
    (any = true <-> exists h u, updates !! h = Some u /\ u.(PrevVersion) = gm_getz 0 versions0 h).
Proof.
  unfold applyUpdates.
  destruct (applyUpdates_fold g0 versions0 (map_to_list updates) (NoDup_fst_map_to_list _))
    as (g & v & acc & any & Hf & [Hout Hin Hacc Hany]).
  exists g, v, acc, any. split; [done|]. unfold fresh in *. split; [|split].
  - intros h. destruct (updates !! h) as [u|] eqn:Eu.
    + exact (Hin h u (proj2 (elem_of_map_to_list _ _ _) Eu)).
    + apply Hout. intros Hc. apply list_elem_of_fmap in Hc as ([h' u] & -> & Hc).
      apply elem_of_map_to_list in Hc. simpl in *. congruence.
  - rewrite Hacc. setoid_rewrite elem_of_map_to_list. by setoid_rewrite Z.eqb_eq.
  - rewrite Hany. setoid_rewrite elem_of_map_to_list. by setoid_rewrite Z.eqb_eq.
Qed.

(** * Events of the handlers *)
Section events.
Context {P B ST : Type} `{BitSet B, !CMSP P B, !CMSPScheme P, !KernelStores ST}.
Context (k : Kernel).
Implicit Types (w : World P ST).
Local Abbreviation M := (K P ST).

(** The computation sends nothing, or only more. *)
Definition silent {A} (m : M A) : Prop := forall w, wp m w (fun _ w' => w'.(w_out) = w.(w_out)).
Definition sends {A} (m : M A) : Prop := forall w, wp m w (fun _ w' => w.(w_out) `prefix_of` w'.(w_out)).

Lemma silent_sends {A} (m : M A) : silent m -> sends m.
Proof. intros Hm w. eapply wp_mono; [|apply Hm]. by intros a w' ->. Qed.

Lemma silent_ret {A} (a : A) : silent (mret a).
Proof. intros w. by apply wp_ret. Qed.
Lemma silent_panic {A} msg : silent (panicK (A := A) msg).
Proof. done. Qed.
Lemma silent_getK : silent getK.
Proof. done. Qed.
Lemma silent_gets {A} (f : kState P -> A) : silent (gets f).
Proof. done. Qed.
Lemma silent_getW : silent getW.
Proof. done. Qed.
Lemma silent_modK f : silent (modK f).
Proof. done. Qed.
Lemma silent_modKO f : silent (modKO f).
Proof. intros w. by apply wp_modKO. Qed.
Lemma silent_liftO {A} (m : outcome A) : silent (liftO m).
Proof. intros w. by apply wp_liftO_eq. Qed.
Lemma silent_modStore f : silent (modStore f).
Proof. done. Qed.
Lemma silent_pushFetch r : silent (pushFetch r).
Proof. done. Qed.
Lemma silent_callStore f : silent (callStore f).
Proof. intros w. by apply wp_callStore. Qed.
Lemma silent_bind {A C} (m : M A) (f : A -> M C) : silent m -> (forall a, silent (f a)) -> silent (m ≫= f).
Proof.
  intros Hm Hf w. apply wp_bind. eapply wp_mono; [|apply Hm]. intros a w' <-. apply Hf.
Qed.
Lemma silent_forK {A} (f : A -> M unit) l : (forall a, silent (f a)) -> silent (forK f l).
Proof. intros Hf. induction l; [apply silent_ret|by apply silent_bind]. Qed.

Lemma sends_emit e : sends (emit e).
Proof. intros w. by eexists. Qed.
Lemma sends_bind {A C} (m : M A) (f : A -> M C) : sends m -> (forall a, sends (f a)) -> sends (m ≫= f).
Proof.
  intros Hm Hf w. apply wp_bind. eapply wp_mono; [|apply Hm]. intros a w' Hw.
  eapply wp_mono; [|apply Hf]. intros c w'' Hw'. exact (transitivity Hw Hw').
Qed.
End events.

Create HintDb events.
#[export] Hint Resolve silent_ret silent_panic silent_getK silent_gets silent_getW silent_modK silent_modKO
  silent_liftO silent_modStore silent_pushFetch silent_callStore sends_emit : events.

(** Decides [silent] and [sends] by following the code. *)
Ltac events_step :=
  match goal with
  | |- silent (_ ≫= _) => apply silent_bind; [|intros ?]
  | |- sends (_ ≫= _) => apply sends_bind; [|intros ?]
  | |- silent (forK _ _) => apply silent_forK; intros ?
  | |- silent (match ?x with _ => _ end) => destruct x
  | |- sends (match ?x with _ => _ end) => destruct x
  | |- sends (emit _) => apply sends_emit
  | |- silent _ => solve [eauto with events]
  | |- sends _ => apply silent_sends; solve [eauto with events]
  end.

Section vote_events.
Context {P B ST : Type} `{BitSet B, !CMSP P B, !CMSPScheme P, !KernelStores ST}.
Context (k : Kernel).
Implicit Types (w : World P ST).

Lemma silent_updateObservers : silent (P := P) (ST := ST) updateObservers.
Proof. unfold updateObservers. repeat events_step. Qed.
Lemma silent_checkMissingPHs proofs : silent (P := P) (ST := ST) (checkMissingPHs k proofs).
Proof. unfold checkMissingPHs, tryFetch. repeat events_step. Qed.
Lemma silent_jump r : silent (P := P) (ST := ST) (jumpVotingRound r).
Proof. unfold jumpVotingRound, updateObservers. repeat events_step. Qed.
Lemma silent_advance : silent (P := P) (ST := ST) advanceVotingRound.
Proof. unfold advanceVotingRound, updateObservers. repeat events_step. Qed.
Lemma silent_recordPrevotes id h r : silent (P := P) (ST := ST) (recordPrevotes id h r).
Proof. unfold recordPrevotes. repeat events_step. Qed.
Lemma silent_recordPrecommits id h r : silent (P := P) (ST := ST) (recordPrecommits id h r).
Proof. unfold recordPrecommits. repeat events_step. Qed.
Lemma silent_save : silent (P := P) (ST := ST) saveCurrentCommittingHeader.
Proof. unfold saveCurrentCommittingHeader. repeat events_step. Qed.
#[local] Hint Resolve silent_updateObservers silent_checkMissingPHs silent_jump silent_advance
  silent_recordPrevotes silent_recordPrecommits silent_save : events.

Lemma sends_checkPrevote id : sends (P := P) (ST := ST) (checkPrevoteViewShift k id).
Proof. unfold checkPrevoteViewShift. repeat events_step. Qed.
Lemma sends_checkNextRound : sends (P := P) (ST := ST) (checkNextRoundPrecommitViewShift k).
Proof. unfold checkNextRoundPrecommitViewShift. repeat events_step. Qed.
Lemma sends_shift nhd : sends (P := P) (ST := ST) (shiftVotingToCommitting nhd).
Proof. unfold shiftVotingToCommitting. repeat events_step. Qed.
Lemma sends_checkVoting : sends (P := P) (ST := ST) checkVotingPrecommitViewShift.
Proof. unfold checkVotingPrecommitViewShift. repeat (events_step || apply sends_shift). Qed.

(** The first thing a handler sends, after a silent part. *)
Lemma sends_first {A C} (m : K P ST A) e (f : A -> K P ST C) (g : K P ST C) w out :
  w.(w_out) = out -> silent m -> sends g -> (forall a, f a = (_ ← emit e; g)) ->
  wp (m ≫= f) w (fun _ w' => out ++ [e] `prefix_of` w'.(w_out)).
Proof.
  intros <- Hm Hg Hf. apply wp_bind. eapply wp_mono; [|apply Hm]. intros a w' <-. rewrite Hf.
  apply wp_bind. unfold wp at 1; simpl. eapply wp_mono; [|apply Hg]. done.
Qed.

(** The answer to an accepted request for a view that is found. *)
Lemma addPrecommit_answer req w id g v any :
  FindView req.(apc_H) req.(apc_R) w.(w_k) = Ret (id, ViewFound) -> req.(apc_Response) = true ->
  applyUpdates (vPrecommits (viewOf id w.(w_k))) (viewOf id w.(w_k)).(PrecommitBlockVersions)
    req.(PrecommitUpdates) = Ret (g, v, true, any) ->
  wp (addPrecommit k req) w (fun _ w' => w.(w_out) ++ [EvVote AddVoteAccepted] `prefix_of` w'.(w_out)).
Proof.
  intros Hf Hresp Hup. unfold addPrecommit. apply wp_bind. unfold wp at 1; simpl.
  apply wp_bind, wp_liftO. rewrite Hf. simpl. apply wp_bind, wp_liftO. rewrite Hup. simpl.
  rewrite Hresp. apply wp_bind. unfold wp at 1; simpl. eapply sends_first; [reflexivity| | |intros a; reflexivity].
  - destruct any; eauto with events.
  - apply sends_bind; [apply silent_sends, silent_checkMissingPHs|intros _].
    repeat (events_step || apply sends_checkVoting || apply sends_checkNextRound).
Qed.

Lemma addPrevote_answer req w id g v any :
  FindView req.(apv_H) req.(apv_R) w.(w_k) = Ret (id, ViewFound) -> req.(apv_Response) = true ->
  applyUpdates (vPrevotes (viewOf id w.(w_k))) (viewOf id w.(w_k)).(PrevoteBlockVersions)
    req.(PrevoteUpdates) = Ret (g, v, true, any) ->
  wp (addPrevote k req) w (fun _ w' => w.(w_out) ++ [EvVote AddVoteAccepted] `prefix_of` w'.(w_out)).
Proof.
  intros Hf Hresp Hup. unfold addPrevote. apply wp_bind. unfold wp at 1; simpl.
  apply wp_bind, wp_liftO. rewrite Hf. simpl. apply wp_bind, wp_liftO. rewrite Hup. simpl.
  rewrite Hresp. apply wp_bind. unfold wp at 1; simpl. eapply sends_first; [reflexivity| | |intros a; reflexivity].
  - destruct any; eauto with events.
  - apply sends_bind; [apply silent_sends, silent_checkMissingPHs|intros _].
    repeat (events_step || apply sends_checkPrevote).
Qed.
End vote_events.

(** * Quiet vote calls *)
Section quiet.
Context {P B ST : Type} `{Verifier, BitSetLaws B, !CMSP P B, !CMSPScheme P, !KernelStores ST}.
Context (k : Kernel).
Implicit Types (w : World P ST).

Lemma addVoteUpdates_versions mk (cur : gomap P) versions l ups :
  foldO (addVoteUpdate mk cur versions) ∅ l = Ret ups ->
  forall h u, ups !! h = Some u -> u.(PrevVersion) = gm_getz 0 versions h.
Proof.
  intros Hf. assert (Hok : okay (foldO (addVoteUpdate mk cur versions) ∅ l)
    (fun m => forall h u, m !! h = Some u -> u.(PrevVersion) = gm_getz 0 versions h)).
  { apply foldO_okay_inv; [|by intros ? ? ?%lookup_empty_Some]. intros [h sigs] m _ Hm. unfold addVoteUpdate.
    destruct (match gm_get cur h with Some p => Some p | None => mk h end) as [p|]; [|done].
    destruct (cmsp_MergeSparse _ p) as [[p' r]|]; [|done]. simpl.
    intros h' u [[<- <-]|[_ Hu]]%lookup_insert_Some; [done|by apply Hm]. }
  rewrite Hf in Hok. exact Hok.
Qed.

Lemma copyVersions_getz dst src h : gm_getz 0 (copyVersions (gm_clear dst) src) h = gm_getz 0 src h.
Proof.
  unfold copyVersions. destruct dst as [d|]; simpl.
  - unfold gm_getz, gm_get. simpl. by rewrite (right_id_L ∅ (∪)).
  - case_bool_decide as Hlen; [done|]. unfold gm_getz, gm_get, gm_len in *. simpl.
    assert (gm_map src = ∅) as -> by (apply map_size_empty_inv; lia). done.
Qed.

Lemma firstAnswer_vote (out out' : list (Event P)) r : out ++ [EvVote r] `prefix_of` out' ->
  firstAnswer asVote (drop (length out) out') = Some r.
Proof. intros [l ->]. by rewrite <- app_assoc, drop_app_length. Qed.

Lemma voteRequest_shape_pre p resp cur req : precommitRequest k p resp cur = Ret (inr req) ->
  resp.(vlr_Status) = ViewFound /\ resp.(vlr_ID) <> ViewIDNotFound /\ req.(apc_H) = p.(pcs_Height) /\
  req.(apc_R) = p.(pcs_Round) /\ req.(apc_Response) = true /\
  forall h u, req.(PrecommitUpdates) !! h = Some u -> u.(PrevVersion) = gm_getz 0 cur.(PrecommitBlockVersions) h.
Proof.
  unfold precommitRequest. case_bool_decide as Hst; [|discriminate]. simpl.
  destruct (vlr_ID resp); try discriminate;
    (destruct (negb _); [discriminate|]; case_bool_decide; [discriminate|];
     intros Hr; apply bind_Ret_inv in Hr as (ups & Hups & Hr); case_bool_decide; [discriminate|];
     injection Hr as <-; split_and!; try done; simpl; by eapply addVoteUpdates_versions).
Qed.

Lemma voteRequest_shape_prev p resp cur req : prevoteRequest k p resp cur = Ret (inr req) ->
  resp.(vlr_Status) = ViewFound /\ resp.(vlr_ID) <> ViewIDNotFound /\ req.(apv_H) = p.(pvs_Height) /\
  req.(apv_R) = p.(pvs_Round) /\ req.(apv_Response) = true /\
  forall h u, req.(PrevoteUpdates) !! h = Some u -> u.(PrevVersion) = gm_getz 0 cur.(PrevoteBlockVersions) h.
Proof.
  unfold prevoteRequest. case_bool_decide as Hst; [|discriminate]. simpl.
  destruct (vlr_ID resp); try discriminate;
    (destruct (negb _); [discriminate|]; case_bool_decide; [discriminate|];
     intros Hr; apply bind_Ret_inv in Hr as (ups & Hups & Hr); case_bool_decide; [discriminate|];
     injection Hr as <-; split_and!; try done; simpl; by eapply addVoteUpdates_versions).
Qed.

(** Updates that name the current versions are all accepted. *)
Lemma applyUpdates_current (proofs : gomap P) versions ups : proofs <> None ->
  (forall h u, ups !! h = Some u -> u.(PrevVersion) = gm_getz 0 versions h) ->
  exists g v any, applyUpdates proofs versions ups = Ret (g, v, true, any).
Proof.
  intros Hp Hups. destruct proofs as [g0|]; [|done]. unfold applyUpdates.
  destruct (applyUpdates_fold g0 versions (map_to_list ups) (NoDup_fst_map_to_list _))
    as (g & v & acc & any & Hf & [_ _ Hacc _]).
  assert (acc = true) as ->.
  { apply Hacc. intros h u Hin. apply elem_of_map_to_list in Hin. apply Z.eqb_eq. by apply Hups. }
  by exists (Some g), v, any.
Qed.

Definition usableVotes (v : VersionedRoundView P) : Prop := vPrevotes v <> None /\ vPrecommits v <> None.

Lemma usable_views (s : kState P) id : coherent s -> usableVotes s.(s_Committing) -> usableVotes (viewOf id s).
Proof. intros [[? ? _ _ _] [? ? _ _ _] _ _ _] Hc. by destruct id. Qed.
End quiet.

(** Optimistic concurrency makes progress.  When the kernel's state has usable vote maps and it
    handles the lookup and the update of a vote call one after the other, the update never conflicts:
    a prevote or precommit call that got as far as its update, and whose update is handled, has been
    accepted.  So a call is only retried because something else came in between. *)
Theorem quiet_votes_accepted {P B ST : Type}
  `{Verifier, BitSetLaws B, !CMSP P B, !CMSPScheme P, !KernelStores ST}
  (k : Kernel) (w w1 w2 : World P ST) :
  coherent w.(w_k) -> usableVotes w.(w_k).(s_Committing) ->
  (forall p cur p' cur' req c, prevoteStep k (PVLookup p cur) w = Ret (PVAdd p' cur' req, w1) ->
     prevoteStep k (PVAdd p' cur' req) w1 = Ret (c, w2) -> c = PVDone HandleVoteProofsAccepted) /\
  (forall reason p cur reason' p' cur' req c,
     precommitStep k (PCLookup reason p cur) w = Ret (PCAdd reason' p' cur' req, w1) ->
     precommitStep k (PCAdd reason' p' cur' req) w1 = Ret (c, w2) -> c = PCDone HandleVoteProofsAccepted).
Proof.
  intros Hc Hcom. split.
  - intros p cur p' cur' req c Hl Ha. simpl in Hl, Ha.
    apply bind_Ret_inv in Hl as ([[resp cur1] w1'] & Hask & Hl). simpl in Hl.
    apply bind_Ret_inv in Hl as ([v w1''] & Hv & Hl). unfold liftO in Hv.
    apply bind_Ret_inv in Hv as (v' & Hv & Hx). injection Hx as -> <-. simpl in Hl.
    destruct v as [res|req']; [discriminate|]. injection Hl as <- <- <- <-.
    apply voteRequest_shape_prev in Hv as (Hst & Hid & Hh & Hr & Hresp & Hups).
    apply askLookup_spec in Hask as (Hk & _ & id & st & Hf & -> & Hcur). simpl in *. subst st.
    specialize (Hcur Hid). subst cur1. destruct (usable_views _ id Hc Hcom) as [Hpv _].
    destruct (applyUpdates_current _ (viewOf id w.(w_k)).(PrevoteBlockVersions) req'.(PrevoteUpdates) Hpv)
      as (g & v & any & Hup).
    { intros h u Hu. rewrite (Hups h u Hu). apply copyVersions_getz. }
    rewrite <- Hk in Hf, Hup. rewrite <- Hh, <- Hr in Hf.
    apply bind_Ret_inv in Ha as ([v' w2'] & Ha & Hx). injection Hx as <- <-.
    apply ask_handle in Ha as [Hhd Ha].
    pose proof (wp_run _ _ _ _ _ (addPrevote_answer k req' w1' id g v any Hf Hresp Hup) Hhd) as Hpre.
    simpl in Hpre. rewrite (firstAnswer_vote _ _ _ Hpre) in Ha. by injection Ha as <-.
  - intros reason p cur reason' p' cur' req c Hl Ha. simpl in Hl, Ha.
    apply bind_Ret_inv in Hl as ([[resp cur1] w1'] & Hask & Hl). simpl in Hl.
    apply bind_Ret_inv in Hl as ([v w1''] & Hv & Hl). unfold liftO in Hv.
    apply bind_Ret_inv in Hv as (v' & Hv & Hx). injection Hx as -> <-. simpl in Hl.
    destruct v as [res|req']; [discriminate|]. injection Hl as <- <- <- <- <-.
    apply voteRequest_shape_pre in Hv as (Hst & Hid & Hh & Hr & Hresp & Hups).
    apply askLookup_spec in Hask as (Hk & _ & id & st & Hf & -> & Hcur). simpl in *. subst st.
    specialize (Hcur Hid). subst cur1. destruct (usable_views _ id Hc Hcom) as [_ Hpc].
    destruct (applyUpdates_current _ (viewOf id w.(w_k)).(PrecommitBlockVersions) req'.(PrecommitUpdates) Hpc)
      as (g & v & any & Hup).
    { intros h u Hu. rewrite (Hups h u Hu). apply copyVersions_getz. }
    rewrite <- Hk in Hf, Hup. rewrite <- Hh, <- Hr in Hf.
    apply bind_Ret_inv in Ha as ([v' w2'] & Ha & Hx). injection Hx as <- <-.
    apply ask_handle in Ha as [Hhd Ha].
    pose proof (wp_run _ _ _ _ _ (addPrecommit_answer k req' w1' id g v any Hf Hresp Hup) Hhd) as Hpre.
    simpl in Hpre. rewrite (firstAnswer_vote _ _ _ Hpre) in Ha. by injection Ha as <-.
Qed.

(** A precommit that arrives after its height was committed. *)
Definition latePrecommits : PrecommitSparseProof :=
  MkPrecommitSparse 1 0 "a,b,c,d" (Some {["x" := [MkSparseSignature (putUint16 3)
    ("d" +:+ toyContentOf (toyContent "C" (MkVoteTarget 1 0 "x")))]]}).
Definition preOr (m : outcome (PrecommitCall TP * TW)) : PrecommitCall TP * TW :=
  match m with Ret r => r | Panic _ => (PCDone HandleVoteProofsInternalError, emptyWorld) end.
Definition late1 : PrecommitCall TP * TW :=
  preOr (precommitStep toyKernel (PCLookup "late" latePrecommits VRV_zero) committedWorld).
Definition late2 : PrecommitCall TP * TW := preOr (precommitStep toyKernel late1.1 late1.2).
Definition lateReq : string * PrecommitSparseProof * VersionedRoundView TP * AddPrecommitRequest TP :=
  match late1.1 with
  | PCAdd reason p cur req => (reason, p, cur, req)
  | _ => ("", latePrecommits, VRV_zero, MkAddPrecommit 0 0 ∅ false)
  end.

Lemma quiet_votes_accepted_witness : late2.1 = PCDone HandleVoteProofsAccepted.
Proof.
  destruct (quiet_votes_accepted toyKernel committedWorld late1.2 late2.2) as [_ Hpre].
  - apply committedWorld_coherent.
  - split; vm_compute; discriminate.
  - apply (Hpre "late" latePrecommits VRV_zero lateReq.1.1.1 lateReq.1.1.2 lateReq.1.2 lateReq.2);
      vm_compute; reflexivity.
Defined.

(** * Snapshots *)
Section snapshots.
Context {P B ST : Type} `{BitSet B, !CMSP P B, !CMSPScheme P, !KernelStores ST}.

(** The two views show the same: all the fields but the two vote versions, which no code changes, with
    maps compared by their entries. *)
Record sameContents (a b : VersionedRoundView P) : Prop := {
  sc_height : vHeight b = vHeight a;
  sc_round : vRound b = vRound a;
  sc_vals : b.(vrv_RV).(rv_ValidatorSet) = a.(vrv_RV).(rv_ValidatorSet);
  sc_headers : vPHs b = vPHs a;
  sc_commit_round : (vPCP b).(cp_Round) = (vPCP a).(cp_Round);
  sc_commit_keys : (vPCP b).(cp_PubKeyHash) = (vPCP a).(cp_PubKeyHash);
  sc_commit : gm_map (vPCP b).(cp_Proofs) = gm_map (vPCP a).(cp_Proofs);
  sc_prevotes : gm_map (vPrevotes b) = gm_map (vPrevotes a);
  sc_precommits : gm_map (vPrecommits b) = gm_map (vPrecommits a);
  sc_version : b.(Version) = a.(Version);
  sc_prevote_versions : gm_map b.(PrevoteBlockVersions) = gm_map a.(PrevoteBlockVersions);
  sc_precommit_versions : gm_map b.(PrecommitBlockVersions) = gm_map a.(PrecommitBlockVersions);
  sc_available : (vSummary b).(AvailablePower) = (vSummary a).(AvailablePower);
  sc_total_prevotes : (vSummary b).(TotalPrevotePower) = (vSummary a).(TotalPrevotePower);
  sc_total_precommits : (vSummary b).(TotalPrecommitPower) = (vSummary a).(TotalPrecommitPower);
  sc_prevote_power : gm_map (vSummary b).(PrevoteBlockPower) = gm_map (vSummary a).(PrevoteBlockPower);
  sc_precommit_power : gm_map (vSummary b).(PrecommitBlockPower) = gm_map (vSummary a).(PrecommitBlockPower);
  sc_top_prevote : (vSummary b).(MostVotedPrevoteHash) = (vSummary a).(MostVotedPrevoteHash);
  sc_top_precommit : (vSummary b).(MostVotedPrecommitHash) = (vSummary a).(MostVotedPrecommitHash)
}.

Lemma copyVersions_map (dst src : gomap Z) : gm_map (copyVersions (gm_clear dst) src) = gm_map src.
Proof.
  unfold copyVersions. destruct dst as [d|]; simpl; [by rewrite (right_id_L ∅ (∪))|].
  case_bool_decide as Hlen; [done|]. symmetry. apply map_size_empty_inv. unfold gm_len in Hlen. lia.
Qed.

Lemma copyProofs_map {V} (dst src : gomap V) : gm_map (copyProofs (gm_clear dst) src) = gm_map src.
Proof. unfold copyProofs. by destruct dst; simpl; rewrite (right_id_L ∅ (∪)). Qed.

Lemma copyPowers_map (dst src : gomap Z) : gm_map (copyPowers (gm_clear dst) src) = gm_map src.
Proof. unfold copyPowers. destruct dst; simpl; [by rewrite (right_id_L ∅ (∪))|done]. Qed.

Lemma copySnapshotView_all (src dst : VersionedRoundView P) : sameContents src (copySnapshotView src dst RVAll).
Proof.
  split; try reflexivity; unfold vPrevotes, vPrecommits, vSummary; simpl.
  - apply copyProofs_map.
  - apply copyProofs_map.
  - apply copyVersions_map.
  - apply copyVersions_map.
  - apply copyPowers_map.
  - apply copyPowers_map.
Qed.
End snapshots.

(** Snapshots are faithful.  VotingView and CommittingView always return, leave the kernel's state
    alone, and make the caller's view, whatever it held before, show exactly what the kernel's view
    shows. *)
Theorem snapshots_faithful {P B ST : Type} `{Verifier, BitSet B, !CMSP P B, !CMSPScheme P, !KernelStores ST}
  (k : Kernel) (dst : VersionedRoundView P) (w : World P ST) :
  (exists v w', VotingView k dst w = Ret (v, w') /\ sameContents w.(w_k).(s_Voting) v /\ w'.(w_k) = w.(w_k)) /\
  (exists v w', CommittingView k dst w = Ret (v, w') /\ sameContents w.(w_k).(s_Committing) v /\ w'.(w_k) = w.(w_k)).
Proof.
  unfold VotingView, CommittingView, getSnapshot, ask, mbind, K_bind. simpl.
  rewrite !drop_app_length. simpl. split; (eexists _, _; split; [reflexivity|split; [|done]]; apply copySnapshotView_all).
Qed.
