(* ===== verification/Feedback.v ===== *)
(** The feedback mappers (tm/tmconsensus/feedbackmapper.go), which turn the result of a mirror method
    into the feedback given to the peer-to-peer layer (gexchange/feedback.go).  A mapper wraps a handler
    and maps what the handler returns; the result type's zero value, which no handler returns, is not a
    value of the model's types. *)
From S2P Require Import Prelude Mirror.

Inductive Feedback :=
| FeedbackUnspecified | FeedbackAccepted | FeedbackRejected | FeedbackIgnored | FeedbackRejectAndDisconnect.

#[export] Instance Feedback_eq_dec : EqDecision Feedback.
Proof. solve_decision. Defined.

(** ** AcceptAllValidFeedbackMapper *)
Module AcceptAllValid.
Definition HandleProposedHeader (f : HandleProposedHeaderResult) : outcome Feedback :=
  match f with
  | HandleProposedHeaderAccepted | HandleProposedHeaderAlreadyStored => Ret FeedbackAccepted
  | HandleProposedHeaderRoundTooOld | HandleProposedHeaderInternalError => Ret FeedbackIgnored
  | HandleProposedHeaderSignerUnrecognized | HandleProposedHeaderBadSignature
  | HandleProposedHeaderBadBlockHash | HandleProposedHeaderBadPrevCommitProofPubKeyHash
  | HandleProposedHeaderBadPrevCommitProofSignature | HandleProposedHeaderBadPrevCommitVoteCount =>
      Ret FeedbackRejected
  | _ => Panic "BUG: no HandleProposedHeaderResult mapping set"
  end.

Definition mapVoteResult (f : HandleVoteProofsResult) : outcome Feedback :=
  match f with
  | HandleVoteProofsNoNewSignatures | HandleVoteProofsAccepted => Ret FeedbackAccepted
  | HandleVoteProofsRoundTooOld | HandleVoteProofsInternalError => Ret FeedbackIgnored
  | HandleVoteProofsEmpty | HandleVoteProofsBadPubKeyHash => Ret FeedbackRejected
  | _ => Panic "BUG: no mapping set"
  end.
End AcceptAllValid.

(** ** DropDuplicateFeedbackMapper *)
Module DropDuplicate.
Definition HandleProposedHeader (f : HandleProposedHeaderResult) : outcome Feedback :=
  match f with
  | HandleProposedHeaderAccepted => Ret FeedbackAccepted
  | HandleProposedHeaderRoundTooOld | HandleProposedHeaderInternalError | HandleProposedHeaderAlreadyStored =>
      Ret FeedbackIgnored
  | HandleProposedHeaderSignerUnrecognized | HandleProposedHeaderBadSignature
  | HandleProposedHeaderBadBlockHash | HandleProposedHeaderBadPrevCommitProofPubKeyHash
  | HandleProposedHeaderBadPrevCommitProofSignature | HandleProposedHeaderBadPrevCommitVoteCount =>
      Ret FeedbackRejected
  | _ => Panic "BUG: no HandleProposedHeaderResult mapping set"
  end.

Definition mapVoteResult (f : HandleVoteProofsResult) : outcome Feedback :=
  match f with
  | HandleVoteProofsAccepted => Ret FeedbackAccepted
  | HandleVoteProofsRoundTooOld | HandleVoteProofsNoNewSignatures | HandleVoteProofsInternalError =>
      Ret FeedbackIgnored
  | HandleVoteProofsEmpty | HandleVoteProofsBadPubKeyHash => Ret FeedbackRejected
  | _ => Panic "BUG: no mapping set"
  end.
End DropDuplicate.
