(* ===== verification/HeaderChecks.v ===== *)
(** HandleProposedHeader, from the message to the kernel's buffer: which headers get through, and the
    headers and votes that stop the node, or keep a call busy forever. *)
From S2P Require Import Prelude Types BitSets Powers SigProof SimpleProofs VoteSummary RoundView.
From S2P Require Import Stores Managers KState KernelBase Kernel KernelHandlers KernelLoop Mirror.
From S2P Require Import KernelExample MirrorSystem Feedback.

(** * The kernel's check *)
Section check.
Context {P B ST : Type} `{Verifier, BitSetLaws B, !CMSP P B, !CMSPScheme P, !KernelStores ST}.
Context (k : Kernel).
Implicit Types (s : kState P) (w : World P ST).

Lemma findProposer_Some proposer vals key : findProposer proposer vals = Ret (Some key) ->
  proposer = Some key /\ exists v, v ∈ vals /\ v.(val_PubKey) = key.
Proof.
  induction vals as [|v vals IH]; simpl; [discriminate|]. destruct proposer as [p|]; [|discriminate].
  unfold pk_Equal. case_bool_decide as Heq; intros Hf.
  - injection Hf as <-. split; [by rewrite Heq|]. exists v. split; [apply elem_of_cons; by left|done].
  - destruct (IH Hf) as (? & v' & Hin & ?). split; [done|]. exists v'. split; [apply elem_of_cons; by right|done].
Qed.

(** The validators of the height before, as far as the check reports them: none for the initial height
    and for headers of the committing height. *)
Definition prevValidators s (ph : ProposedHeader) (id : ViewID) : ValidatorSet :=
  if (ph.(ph_Header).(Height) =? k.(k_initialHeight)) || bool_decide (id = ViewIDCommitting)
  then ValidatorSet_zero else s.(CommittingHeader).(hd_ValidatorSet).

Lemma setPHCheckStatus_acceptable s ph vrv id resp :
  setPHCheckStatus k s ph PHCheckResponse_zero vrv id = Ret resp -> resp.(phc_Status) = PHCheckAcceptable ->
  id <> ViewIDNotFound ->
  existsb (fun have => String.eqb have.(ph_Signature) ph.(ph_Signature)) (vPHs vrv) = false /\
  (exists v, v ∈ vVals vrv /\ resp.(phc_ProposerPubKey) = Some v.(val_PubKey) /\
     ph.(ph_ProposerPubKey) = Some v.(val_PubKey)) /\
  resp.(phc_PrevValidatorSet) = prevValidators s ph id.
Proof.
  unfold setPHCheckStatus. destruct (existsb _ _) eqn:Ee; [intros [= <-]; discriminate|].
  intros Hr Hst Hid. split; [done|]. apply bind_Ret_inv in Hr as ([key|] & Hp & Hr);
    [|injection Hr as <-; discriminate].
  apply findProposer_Some in Hp as (Hprop & v & Hin & <-). unfold prevValidators.
  destruct (_ =? _); [injection Hr as <-; split; [by exists v|done]|].
  destruct id; try discriminate; try done; injection Hr as <-; (split; [by exists v|done]).
Qed.

Lemma phCheck_acceptable s ph resp : vHeight s.(s_Committing) < vHeight s.(s_Voting) ->
  phCheck k s ph = Ret resp -> resp.(phc_Status) = PHCheckAcceptable ->
  exists id, FindView ph.(ph_Header).(Height) ph.(ph_Round) s = Ret (id, ViewFound) /\
    id <> ViewIDNotFound /\ setPHCheckStatus k s ph PHCheckResponse_zero (viewOf id s) id = Ret resp.
Proof.
  intros Hlt Hr Hst. unfold phCheck in Hr. unfold FindView.
  destruct (Z.ltb_spec (Height (ph_Header ph)) (vHeight (s_Committing s))) as [|Hc]; [injection Hr as <-; discriminate|].
  destruct (Z.eqb_spec (Height (ph_Header ph)) (vHeight (s_Committing s))) as [Heq|Hne].
  - destruct (Z.eqb_spec (Height (ph_Header ph)) (vHeight (s_Voting s))) as [|_]; [lia|].
    destruct (ph_Round ph <? _); [injection Hr as <-; discriminate|]. rewrite ?Z.eqb_refl. simpl.
    destruct (ph_Round ph =? vRound (s_Committing s)); [by exists ViewIDCommitting|discriminate].
  - destruct (Z.eqb_spec (Height (ph_Header ph)) (vHeight (s_Voting s))) as [_|_].
    + destruct (_ <? _); [injection Hr as <-; discriminate|].
      destruct (_ =? _); [by exists ViewIDVoting|].
      destruct (_ =? _); [by exists ViewIDNextRound|discriminate].
    + destruct (Height (ph_Header ph) =? u64 _); injection Hr as <-; discriminate.
Qed.

(** The answer the mirror gets. *)
Lemma askPHCheck_spec ph w resp w' : ask k (InPHCheck ph) asPHCheck w = Ret (resp, w') ->
  phCheck k w.(w_k) ph = Ret resp /\ resp.(phc_Status) <> PHCheckInvalid /\
  w' = {| w with w_out := w.(w_out) ++ [EvPHCheck resp] |}.
Proof.
  intros Ha. apply ask_handle in Ha as [Hh Hf]. simpl in Hh. unfold sendPHCheckResponse in Hh.
  apply bind_Ret_inv in Hh as ([s w1] & Hg & Hh). injection Hg as <- <-.
  apply bind_Ret_inv in Hh as ([resp' w2] & Hc & Hh). unfold liftO in Hc.
  apply bind_Ret_inv in Hc as (x & Hc & Hx). injection Hx as -> <-. simpl in *.
  case_bool_decide; [discriminate|]. injection Hh as <-. simpl in Hf.
  rewrite drop_app_length in Hf. injection Hf as <-. done.
Qed.

Lemma askPHCheck_ret ph w resp : phCheck k w.(w_k) ph = Ret resp -> resp.(phc_Status) <> PHCheckInvalid ->
  ask k (InPHCheck ph) asPHCheck w = Ret (resp, {| w with w_out := w.(w_out) ++ [EvPHCheck resp] |}).
Proof.
  intros Hc Hv. unfold ask. simpl. unfold sendPHCheckResponse, mbind, K_bind, getK, liftO. simpl.
  rewrite Hc. simpl. rewrite bool_decide_eq_false_2 by done. simpl. by rewrite drop_app_length.
Qed.
End check.

(** * What the mirror validates *)
Section validate.
Context {B : Type} `{BitSetLaws B, Verifier}.
Context (k : Kernel).

(** A signature of a previous commit proof that is really there. *)
Definition signedCommit (prev : ValidatorSet) (content : bytes) (sg : SparseSignature) : Prop :=
  exists n v, beUint16 sg.(ss_KeyID) = Ret n /\ prev.(Validators) !! n = Some v /\
    verify v.(val_PubKey) content sg.(ss_Sig) = true.

(** Merging into a new proof accepts everything only if every signature is valid. *)
Lemma MergeSparse_new_valid msg (prev : ValidatorSet) hash sigs (proof p' : SimpleProof B) r :
  NewSimpleProof msg (ValidatorsToPubKeys prev.(Validators)) hash = Ok proof ->
  Simple_MergeSparse (MkSparseSignatureProof hash sigs) proof = Ret (p', r) ->
  r.(AllValidSignatures) = true -> forall sg, sg ∈ sigs -> signedCommit prev msg sg.
Proof.
  intros [= <-] Hm Hv sg Hin. set (proof := MkSimple _ _ _ _ _ _) in Hm.
  destruct (decide (Forall (fun s => 2 <= String.length s.(ss_KeyID))%nat sigs)) as [Hl|Hl].
  - destruct (Simple_MergeSparse_spec proof (MkSparseSignatureProof hash sigs) eq_refl Hl)
      as (q & r' & added & Hq & Hi & _). rewrite Hq in Hm. injection Hm as <- <-.
    pose proof (proj1 (si_valid _ _ _ Hi) Hv) as Hall. rewrite Forall_forall in Hall.
    destruct (Hall sg Hin) as (i & n & key & Hn & Hk & _ & Hver). simpl in *.
    unfold ValidatorsToPubKeys in Hk. rewrite list_lookup_fmap in Hk.
    apply fmap_Some in Hk as (v & Hvi & ->). by exists n, v.
  - apply not_Forall_Exists in Hl; [|apply _].
    assert (Hl' : Exists (fun s => String.length s.(ss_KeyID) < 2)%nat sigs).
    { eapply Exists_impl; [exact Hl|]. simpl. intros; lia. }
    destruct (foldO_mergeSparse_panics _ (proof, true, bs_New (length (sp_keys proof))) Hl') as [msg' Hp].
    unfold Simple_MergeSparse in Hm. simpl in Hm. rewrite String.eqb_refl in Hm. simpl in Hm, Hp.
    rewrite Hp in Hm. discriminate.
Qed.

Lemma checkPrevCommit_None ph prev acc e :
  checkPrevCommit (P := SimpleProof B) k ph prev acc e = Ret None ->
  prev.(PubKeyHash) = ph.(ph_Header).(PrevCommitProof).(cp_PubKeyHash) ->
  acc = None /\ exists content,
    PrecommitSignBytes (MkVoteTarget (u64 (ph.(ph_Header).(Height) - 1))
      ph.(ph_Header).(PrevCommitProof).(cp_Round) e.1) k.(k_sigScheme) = Ok content /\
    forall sg, sg ∈ e.2 -> signedCommit prev content sg.
Proof.
  unfold checkPrevCommit. destruct acc; [discriminate|]. intros Hr Hh. split; [done|].
  destruct (PrecommitSignBytes _ _) as [content|]; [|discriminate]. exists content. split; [done|].
  destruct (scheme_New _ _ _) as [proof|] eqn:En; [|discriminate].
  apply bind_Ret_inv in Hr as ([p' r] & Hm & Hr). simpl in Hr.
  destruct (AllValidSignatures r) eqn:Ev; [|discriminate]. rewrite <- Hh in Hm.
  exact (MergeSparse_new_valid _ _ _ _ _ _ _ En Hm Ev).
Qed.

Lemma checkPrevCommits_None ph prev l acc :
  foldO (checkPrevCommit (P := SimpleProof B) k ph prev) acc l = Ret None ->
  prev.(PubKeyHash) = ph.(ph_Header).(PrevCommitProof).(cp_PubKeyHash) ->
  acc = None /\ forall hash sigs, (hash, sigs) ∈ l -> exists content,
    PrecommitSignBytes (MkVoteTarget (u64 (ph.(ph_Header).(Height) - 1))
      ph.(ph_Header).(PrevCommitProof).(cp_Round) hash) k.(k_sigScheme) = Ok content /\
    forall sg, sg ∈ sigs -> signedCommit prev content sg.
Proof.
  intros Hf Hh. revert acc Hf. induction l as [|[hash sigs] l IH]; intros acc Hf; simpl in Hf.
  - injection Hf as ->. split; [done|]. by intros ? ? ?%elem_of_nil.
  - apply bind_Ret_inv in Hf as (acc' & Hs & Hf). destruct (IH _ Hf) as [-> Hl].
    destruct (checkPrevCommit_None _ _ _ _ Hs Hh) as [-> Hc]. split; [done|].
    intros hash' sigs' [Heq|Hin]%elem_of_cons; [|by apply Hl]. by simplify_eq.
Qed.
End validate.

(** C20: only authentic headers reach the kernel.  When a proposed header's call gets to the point of
    handing it to the kernel, the header's hash is the one the hash scheme computes; the view for its
    height and round exists and one of its validators is the proposer and signed this proposal; and its
    previous commit proof names the previous validators, with every signature in it made by one of them
    over the precommit content of that height and round. *)
Theorem accepted_header_authentic {B ST : Type} `{BitSetLaws B, Verifier, !KernelStores ST}
  (k : Kernel) (ph ph' : ProposedHeader) (w w' : World (SimpleProof B) ST) :
  vHeight w.(w_k).(s_Committing) < vHeight w.(w_k).(s_Voting) ->
  headerStep k (HandleProposedHeader ph) w = Ret (HAdd ph', w') ->
  ph' = ph /\ hs_Block k.(k_hashScheme) ph.(ph_Header) = Ok ph.(ph_Header).(Hash) /\
  exists id v content,
    FindView ph.(ph_Header).(Height) ph.(ph_Round) w.(w_k) = Ret (id, ViewFound) /\
    v ∈ vVals (viewOf id w.(w_k)) /\ ph.(ph_ProposerPubKey) = Some v.(val_PubKey) /\
    ProposalSignBytes ph.(ph_Header) ph.(ph_Round) ph.(ph_Annotations) k.(k_sigScheme) = Ok content /\
    verify v.(val_PubKey) content ph.(ph_Signature) = true /\
    let prev := prevValidators k w.(w_k) ph id in
    let pcp := ph.(ph_Header).(PrevCommitProof) in
    prev.(PubKeyHash) = pcp.(cp_PubKeyHash) /\
    forall hash sigs, gm_get pcp.(cp_Proofs) hash = Some sigs -> exists content,
      PrecommitSignBytes (MkVoteTarget (u64 (ph.(ph_Header).(Height) - 1)) pcp.(cp_Round) hash)
        k.(k_sigScheme) = Ok content /\
      forall sg, sg ∈ sigs -> signedCommit prev content sg.
Proof.
  intros Hlt Hr. simpl in Hr. apply bind_Ret_inv in Hr as ([resp w1] & Ha & Hr). simpl in Hr.
  unfold liftO in Hr. apply bind_Ret_inv in Hr as (c & Hc & Hr). injection Hr as -> _.
  apply askPHCheck_spec in Ha as (Hck & _ & _). unfold afterCheck in Hc.
  destruct (phc_Status resp) eqn:Est; try discriminate.
  destruct (phCheck_acceptable k _ _ _ Hlt Hck Est) as (id & Hf & Hid & Hset).
  destruct (setPHCheckStatus_acceptable k _ _ _ _ _ Hset Est Hid) as (_ & (v & Hv & Hkey & Hprop) & Hprev).
  apply bind_Ret_inv in Hc as (res & Hc & Hres). destruct res; [discriminate|]. injection Hres as <-.
  unfold validateHeader in Hc. destruct (hs_Block _ _) as [want|] eqn:Eb; [|discriminate].
  destruct (String.eqb_spec want (Hash (ph_Header ph))) as [Ew|]; [|discriminate]. subst want. simpl in Hc.
  destruct (ProposalSignBytes _ _ _ _) as [content|] eqn:Es; [|discriminate]. rewrite Hkey in Hc.
  destruct (verify (val_PubKey v) content (ph_Signature ph)) eqn:Ever; [|discriminate]. simpl in Hc.
  destruct (String.eqb_spec (PubKeyHash (phc_PrevValidatorSet resp)) (cp_PubKeyHash (PrevCommitProof (ph_Header ph))))
    as [Hh|]; [|discriminate]. simpl in Hc.
  destruct (checkPrevCommits_None k _ _ _ _ Hc Hh) as [_ Hall]. rewrite Hprev in Hh, Hall.
  split; [done|]. split; [done|]. exists id, v, content. split_and!; try done.
  split; [exact Hh|]. intros hash sigs Hg. apply Hall. by apply elem_of_map_to_list.
Qed.

(** The instance: the header of height 2, carrying the commit of height 1. *)
Definition nextHeader : ProposedHeader :=
  let ph := toyPH 2 0 "y" "b" (MkCommitProof 0 "a,b,c,d" netPrecommits.(pcs_Proofs)) in
  {| ph with ph_Signature := "b" +:+ toyContentOf (toyContent "H" (MkVoteTarget 2 0 "y")) |}.
Definition headerOr (m : outcome (HeaderCall TP * TW)) : HeaderCall TP * TW :=
  match m with Ret r => r | Panic _ => (HDone HandleProposedHeaderInternalError, emptyWorld) end.
Definition nextChecked : HeaderCall TP * TW :=
  headerOr (headerStep toyKernel (HandleProposedHeader nextHeader) committedWorld).

Lemma accepted_header_authentic_witness :
  nextHeader = nextHeader /\ hs_Block toyHashScheme nextHeader.(ph_Header) = Ok "y" /\
  exists id v content,
    FindView 2 0 committedWorld.(w_k) = Ret (id, ViewFound) /\
    v ∈ vVals (viewOf id committedWorld.(w_k)) /\ nextHeader.(ph_ProposerPubKey) = Some v.(val_PubKey) /\
    ProposalSignBytes nextHeader.(ph_Header) 0 nextHeader.(ph_Annotations) toySigScheme = Ok content /\
    verify v.(val_PubKey) content nextHeader.(ph_Signature) = true /\
    let prev := prevValidators toyKernel committedWorld.(w_k) nextHeader id in
    prev.(PubKeyHash) = "a,b,c,d" /\
    forall hash sigs, gm_get netPrecommits.(pcs_Proofs) hash = Some sigs -> exists content,
      PrecommitSignBytes (MkVoteTarget (u64 (2 - 1)) 0 hash) toySigScheme = Ok content /\
      forall sg, sg ∈ sigs -> signedCommit prev content sg.
Proof.
  apply (accepted_header_authentic toyKernel nextHeader nextHeader committedWorld nextChecked.2).
  - vm_compute. reflexivity.
  - vm_compute. reflexivity.
Defined.

(** * Messages that stop the node *)

Lemma later_round_header_panics {P B ST : Type}
  `{Verifier, BitSetLaws B, !CMSP P B, !CMSPScheme P, !KernelStores ST}
  (k : Kernel) (ph : ProposedHeader) (w : World P ST) :
  let h := ph.(ph_Header).(Height) in
  let r := ph.(ph_Round) in
  let s := w.(w_k) in
  vHeight s.(s_Committing) < vHeight s.(s_Voting) ->
  (h = vHeight s.(s_Committing) /\ vRound s.(s_Committing) < r) \/
  (h = vHeight s.(s_Voting) /\ vRound s.(s_Voting) < r /\ r <> u32 (vRound s.(s_Voting) + 1)) ->
  exists msg, headerStep k (HandleProposedHeader ph) w = Panic msg.
Proof.
  intros h r s Hlt Hcase.
  assert (Hck : exists msg, phCheck k s ph = Panic msg).
  { unfold phCheck. fold h r. destruct Hcase as [[Hh Hr]|(Hh & Hr & Hne)]; rewrite Hh.
    - rewrite Z.ltb_irrefl, Z.eqb_refl. destruct (Z.ltb_spec r (vRound (s_Committing s))); [lia|].
      destruct (Z.eqb_spec r (vRound (s_Committing s))); [lia|]. by eexists.
    - destruct (Z.ltb_spec (vHeight (s_Voting s)) (vHeight (s_Committing s))); [lia|].
      destruct (Z.eqb_spec (vHeight (s_Voting s)) (vHeight (s_Committing s))); [lia|].
      rewrite Z.eqb_refl. destruct (Z.ltb_spec r (vRound (s_Voting s))); [lia|].
      destruct (Z.eqb_spec r (vRound (s_Voting s))); [lia|].
      destruct (Z.eqb_spec r (u32 (vRound (s_Voting s) + 1))); [done|]. by eexists. }
  destruct Hck as [msg Hck]. exists msg. simpl.
  unfold ask, mbind, K_bind, handle, sendPHCheckResponse, mbind, K_bind, getK, liftO. simpl.
  fold s. by rewrite Hck.
Qed.

Lemma later_round_votes_panic {P B ST : Type}
  `{Verifier, BitSetLaws B, !CMSP P B, !CMSPScheme P, !KernelStores ST}
  (k : Kernel) (h r : Z) (keyHash : bytes) (proofs : gomap (list SparseSignature)) (w : World P ST) :
  let s := w.(w_k) in
  vHeight s.(s_Committing) <= h < vHeight s.(s_Voting) ->
  (h = vHeight s.(s_Committing) -> vRound s.(s_Committing) < r) -> gm_len proofs <> 0%nat ->
  (exists msg, prevoteStep k (HandlePrevoteProofs (MkPrevoteSparse h r keyHash proofs)) w = Panic msg) /\
  (exists msg, precommitStep k (HandlePrecommitProofs (MkPrecommitSparse h r keyHash proofs)) w = Panic msg).
Proof.
  intros s [Hle Hlt] Hr Hne.
  assert (Hf : exists msg, FindView h r s = Panic msg).
  { unfold FindView. destruct (Z.eqb_spec h (vHeight (s_Voting s))); [lia|].
    destruct (Z.eqb_spec h (vHeight (s_Committing s))) as [Hh|Hh]; simpl.
    - destruct (Z.eqb_spec r (vRound (s_Committing s))); [lia|]. destruct (Z.ltb_spec r (vRound (s_Committing s))); [lia|].
      simpl. destruct (Z.ltb_spec h (vHeight (s_Committing s))); [lia|].
      destruct (Z.ltb_spec (vHeight (s_Voting s)) h); [lia|]. by eexists.
    - destruct (Z.ltb_spec h (vHeight (s_Committing s))); [lia|].
      destruct (Z.ltb_spec (vHeight (s_Voting s)) h); [lia|]. by eexists. }
  destruct Hf as [msg Hf]. unfold HandlePrevoteProofs, HandlePrecommitProofs, handlePrecommitProofs. simpl.
  rewrite !bool_decide_eq_false_2 by done. simpl.
  unfold ask, mbind, K_bind, handle, sendViewLookupResponse, mbind, K_bind, getK, liftO. simpl.
  fold s. rewrite Hf. simpl. split; by eexists.
Qed.

(** Three rounds ahead of the vote. *)
Definition farRoundHeader : ProposedHeader := toyPH 2 3 "z" "b" (MkCommitProof 0 nilHash gm_make).

(** C25: messages from a later round stop the node.  A proposed header for the committing height with a
    round after the committing one, or for the voting height with a round after the next one, makes the
    kernel panic in the check HandleProposedHeader starts with, before its signer, signature or hash are
    looked at; and so does, in the lookup its handler starts with, a non-empty message of prevotes or
    precommits for the committing height and a round after the committing one, or for a height between the
    committing and the voting one. *)
Theorem later_round_panics {P B ST : Type}
  `{Verifier, BitSetLaws B, !CMSP P B, !CMSPScheme P, !KernelStores ST} (k : Kernel) (w : World P ST) :
  let s := w.(w_k) in
  vHeight s.(s_Committing) < vHeight s.(s_Voting) ->
  (forall ph, let h := ph.(ph_Header).(Height) in let r := ph.(ph_Round) in
    (h = vHeight s.(s_Committing) /\ vRound s.(s_Committing) < r) \/
    (h = vHeight s.(s_Voting) /\ vRound s.(s_Voting) < r /\ r <> u32 (vRound s.(s_Voting) + 1)) ->
    exists msg, headerStep k (HandleProposedHeader ph) w = Panic msg) /\
  (forall h r keyHash proofs, vHeight s.(s_Committing) <= h < vHeight s.(s_Voting) ->
    (h = vHeight s.(s_Committing) -> vRound s.(s_Committing) < r) -> gm_len proofs <> 0%nat ->
    (exists msg, prevoteStep k (HandlePrevoteProofs (MkPrevoteSparse h r keyHash proofs)) w = Panic msg) /\
    (exists msg, precommitStep k (HandlePrecommitProofs (MkPrecommitSparse h r keyHash proofs)) w = Panic msg)).
Proof.
  intros s Hlt. split.
  - intros ph h r. by apply later_round_header_panics.
  - intros h r keyHash proofs. by apply later_round_votes_panic.
Qed.

Lemma later_round_panics_witness :
  let votes := Some {["x" := ([] : list SparseSignature)]} in
  (exists msg, headerStep toyKernel (HandleProposedHeader farRoundHeader) committedWorld = Panic msg) /\
  (exists msg, prevoteStep toyKernel (HandlePrevoteProofs (MkPrevoteSparse 1 1 "" votes)) committedWorld = Panic msg) /\
  (exists msg, precommitStep toyKernel (HandlePrecommitProofs (MkPrecommitSparse 1 1 "" votes)) committedWorld = Panic msg).
Proof.
  intros votes. destruct (later_round_panics toyKernel committedWorld) as [Hheader Hvotes]; [vm_compute; reflexivity|].
  split.
  - apply Hheader. right. split_and!; vm_compute; [reflexivity|reflexivity|discriminate].
  - apply Hvotes.
    + split; vm_compute; [discriminate|reflexivity].
    + intros _. vm_compute. reflexivity.
    + vm_compute. discriminate.
Defined.

(** * Messages that keep a call busy *)
Section spin.
Context {P B ST : Type} `{Verifier, BitSetLaws B, !CMSP P B, !CMSPScheme P, !KernelStores ST}.
Context (k : Kernel) (ph : ProposedHeader).
Implicit Types (s : kState P) (w : World P ST).

Lemma askLookup_ret req w id st : req.(vl_Reason) <> EmptyString -> FindView req.(vl_H) req.(vl_R) w.(w_k) = Ret (id, st) ->
  let cur := if bool_decide (id = ViewIDNotFound) then req.(vl_VRV)
             else copySnapshotView (viewOf id w.(w_k)) req.(vl_VRV) req.(vl_Fields) in
  ask k (InViewLookup req) asLookup w = Ret ((MkViewLookupResponse id st, cur),
    {| w with w_out := w.(w_out) ++ [EvLookup (MkViewLookupResponse id st) cur] |}).
Proof.
  intros Hr%String.eqb_neq Hf cur. unfold ask. simpl. unfold sendViewLookupResponse, mbind, K_bind, getK, liftO.
  rewrite Hr. simpl. rewrite Hf. simpl. by rewrite drop_app_length.
Qed.

(** The result of the backfill for the header when it sends no votes to the kernel: the commit proof is empty,
    rejected, or has no signature that the view lacks. *)
Definition idleBackfill s : option HandleVoteProofsResult :=
  match backfillCommitForNextHeightPE (P := P) ph with
  | PCDone res => Some res
  | PCLookup _ p cur =>
      match FindView p.(pcs_Height) p.(pcs_Round) s with
      | Ret (id, st) =>
          let cur := if bool_decide (id = ViewIDNotFound) then cur
                     else copySnapshotView (viewOf id s) cur (Z.lor RVValidators RVPrecommits) in
          match precommitRequest k p (MkViewLookupResponse id st) cur with Ret (inl res) => Some res | _ => None end
      | Panic _ => None
      end
  | PCAdd _ _ _ _ => None
  end.

(** Where the call is in its cycle. *)
Definition spinning (res : HandleVoteProofsResult) (c : HeaderCall P) : Prop :=
  c = HCheck ph \/ c = HBackfill ph (backfillCommitForNextHeightPE ph) \/ c = HBackfill ph (PCDone res).

Lemma spin_step res w c : (exists resp, phCheck k w.(w_k) ph = Ret resp /\ resp.(phc_Status) = PHCheckNextHeight) ->
  idleBackfill w.(w_k) = Some res -> spinning res c ->
  exists c' w', headerStep k c w = Ret (c', w') /\ w'.(w_k) = w.(w_k) /\ w'.(w_st) = w.(w_st) /\ spinning res c'.
Proof.
  intros (resp & Hck & Hst) Hidle Hc. destruct Hc as [->|[->| ->]].
  - simpl. unfold mbind, K_bind. rewrite (askPHCheck_ret k ph w resp Hck) by (rewrite Hst; discriminate). simpl.
    unfold liftO, afterCheck. rewrite Hst. simpl. eexists _, _. split; [reflexivity|]. split; [done|]. split; [done|].
    by right; left.
  - unfold idleBackfill in Hidle. unfold backfillCommitForNextHeightPE, handlePrecommitProofs in *.
    destruct (bool_decide _); [injection Hidle as <-; eexists _, w; split; [reflexivity|]; split; [done|]; split; [done|by left]|].
    set (p := MkPrecommitSparse _ _ _ _) in *. destruct (FindView _ _ _) as [[id st]|] eqn:Ef; [|discriminate].
    destruct (precommitRequest k p _ _) as [[res'|]|] eqn:Ereq; [|discriminate..]. injection Hidle as ->.
    cbn [headerStep precommitStep]. unfold mbind at 1 2, K_bind.
    rewrite (askLookup_ret (MkViewLookup _ _ _ _ _) w id st) by done. simpl. unfold mbind, K_bind, liftO. simpl.
    rewrite Ereq. simpl. eexists _, _. split; [reflexivity|]. split; [done|]. split; [done|]. by right; right.
  - eexists _, w. split; [reflexivity|]. split; [done|]. split; [done|]. by left.
Qed.

Lemma spin_run res w n c : (exists resp, phCheck k w.(w_k) ph = Ret resp /\ resp.(phc_Status) = PHCheckNextHeight) ->
  idleBackfill w.(w_k) = Some res -> spinning res c ->
  exists c' w', runHeader k n c w = Ret (c', w') /\ spinning res c' /\ w'.(w_k) = w.(w_k) /\ w'.(w_st) = w.(w_st).
Proof.
  revert w c. induction n as [|n IH]; intros w c Hck Hidle Hc; [by exists c, w|].
  destruct (spin_step res w c Hck Hidle Hc) as (c1 & w1 & Hstep & Hk & Hs & Hc1).
  destruct (IH w1 c1) as (c' & w' & Hrun & Hc' & Hk' & Hs'); [by rewrite Hk|by rewrite Hk|done|].
  exists c', w'. simpl. unfold mbind, K_bind. rewrite Hstep. simpl. split; [exact Hrun|]. split; [done|].
  by rewrite Hk', Hs'.
Qed.

(** A header of the height after the voting one is to be backfilled. *)
Lemma phCheck_nextHeight s : vHeight s.(s_Committing) < vHeight s.(s_Voting) -> 0 <= vHeight s.(s_Voting) < two64 - 1 ->
  ph.(ph_Header).(Height) = vHeight s.(s_Voting) + 1 ->
  exists resp, phCheck k s ph = Ret resp /\ resp.(phc_Status) = PHCheckNextHeight.
Proof.
  intros Hlt Hpos Hh. unfold phCheck. rewrite Hh.
  destruct (Z.ltb_spec (vHeight (s_Voting s) + 1) (vHeight (s_Committing s))); [lia|].
  destruct (Z.eqb_spec (vHeight (s_Voting s) + 1) (vHeight (s_Committing s))); [lia|].
  destruct (Z.eqb_spec (vHeight (s_Voting s) + 1) (vHeight (s_Voting s))); [lia|].
  rewrite u64_small by (unfold is_u64; lia). rewrite Z.eqb_refl. by eexists.
Qed.
End spin.

(** C27: a header of the next height whose commit proof brings nothing is never answered.  HandleProposedHeader
    drops the result of the backfill and starts again, so when the proof is empty, rejected, or has only
    signatures that the voting view has already, on a kernel that does nothing else the call alternates between
    the check and the backfill for ever, and changes nothing. *)
Theorem next_height_header_spins {P B ST : Type}
  `{Verifier, BitSetLaws B, !CMSP P B, !CMSPScheme P, !KernelStores ST}
  (k : Kernel) (ph : ProposedHeader) (w : World P ST) (res : HandleVoteProofsResult) (n : nat) :
  let s := w.(w_k) in
  vHeight s.(s_Committing) < vHeight s.(s_Voting) -> 0 <= vHeight s.(s_Voting) < two64 - 1 ->
  ph.(ph_Header).(Height) = vHeight s.(s_Voting) + 1 -> idleBackfill k ph s = Some res ->
  exists c w', runHeader k n (HandleProposedHeader ph) w = Ret (c, w') /\ spinning ph res c /\
    w'.(w_k) = s /\ w'.(w_st) = w.(w_st).
Proof.
  intros s Hlt Hpos Hh Hidle. apply spin_run; [|done|by left]. by apply phCheck_nextHeight.
Qed.

Definition spinHeader : ProposedHeader := toyPH 3 0 "z" "b" (MkCommitProof 0 nilHash gm_make).

Lemma next_height_header_spins_witness :
  exists c w', runHeader toyKernel 1000 (HandleProposedHeader spinHeader) committedWorld = Ret (c, w') /\
    spinning spinHeader HandleVoteProofsEmpty c /\
    w'.(w_k) = committedWorld.(w_k) /\ w'.(w_st) = committedWorld.(w_st).
Proof.
  apply (next_height_header_spins toyKernel spinHeader committedWorld).
  - vm_compute. reflexivity.
  - split; vm_compute; [discriminate|reflexivity].
  - vm_compute. reflexivity.
  - vm_compute. reflexivity.
Defined.

(** * Feedback *)

(** Feedback is given for every result but one.  The mappers turn every result a vote call returns
    into feedback; for header results they do so too, except that both panic on RoundTooFarInFuture,
    which HandleProposedHeader returns for every header more than one height above the voting one. *)
Theorem feedback_mapping {P B ST : Type}
  `{Verifier, BitSetLaws B, !CMSP P B, !CMSPScheme P, !KernelStores ST} (k : Kernel) (w : World P ST) :
  (forall c w' res, prevoteStep k c w = Ret (PVDone res, w') -> (forall r, c <> PVDone r) ->
     returns (AcceptAllValid.mapVoteResult res) /\ returns (DropDuplicate.mapVoteResult res)) /\
  (forall c w' res, precommitStep k c w = Ret (PCDone res, w') -> (forall r, c <> PCDone r) ->
     returns (AcceptAllValid.mapVoteResult res) /\ returns (DropDuplicate.mapVoteResult res)) /\
  (forall res, returns (AcceptAllValid.HandleProposedHeader res) <-> res <> HandleProposedHeaderRoundTooFarInFuture) /\
  (forall res, returns (DropDuplicate.HandleProposedHeader res) <-> res <> HandleProposedHeaderRoundTooFarInFuture) /\
  (forall ph, vHeight w.(w_k).(s_Committing) < vHeight w.(w_k).(s_Voting) ->
     0 <= vHeight w.(w_k).(s_Voting) < two64 - 1 -> vHeight w.(w_k).(s_Voting) + 1 < ph.(ph_Header).(Height) ->
     exists w', headerStep k (HandleProposedHeader ph) w = Ret (HDone HandleProposedHeaderRoundTooFarInFuture, w')).
Proof.
  assert (Hres : forall res, res <> HandleVoteProofsTooFarInFuture ->
    returns (AcceptAllValid.mapVoteResult res) /\ returns (DropDuplicate.mapVoteResult res)).
  { intros [] Hne; try done; split; by eexists. }
  split; [|split; [|split; [|split]]].
  - intros c w' res Hr Hc. apply Hres. destruct c as [p cur|p cur req|r]; [| |by destruct (Hc r)]; simpl in Hr.
    + apply bind_Ret_inv in Hr as ([[resp cur'] w1] & _ & Hr). simpl in Hr.
      apply bind_Ret_inv in Hr as ([v w2] & Hv & Hr). unfold liftO in Hv.
      apply bind_Ret_inv in Hv as (v' & Hv & Hx). injection Hx as -> <-. destruct v as [res'|req]; [|discriminate].
      injection Hr as -> _. unfold prevoteRequest in Hv. repeat case_match; simplify_eq; try done;
      apply bind_Ret_inv in Hv as (ups & _ & Hv); case_match; by simplify_eq.
    + apply bind_Ret_inv in Hr as ([v w1] & _ & Hr). destruct v; [injection Hr as <- _|discriminate Hr|injection Hr as <- _]; discriminate.
  - intros c w' res Hr Hc. apply Hres. destruct c as [rs p cur|rs p cur req|r]; [| |by destruct (Hc r)]; simpl in Hr.
    + apply bind_Ret_inv in Hr as ([[resp cur'] w1] & _ & Hr). simpl in Hr.
      apply bind_Ret_inv in Hr as ([v w2] & Hv & Hr). unfold liftO in Hv.
      apply bind_Ret_inv in Hv as (v' & Hv & Hx). injection Hx as -> <-. destruct v as [res'|req]; [|discriminate].
      injection Hr as -> _. unfold precommitRequest in Hv. repeat case_match; simplify_eq; try done;
      apply bind_Ret_inv in Hv as (ups & _ & Hv); case_match; by simplify_eq.
    + apply bind_Ret_inv in Hr as ([v w1] & _ & Hr). destruct v; [injection Hr as <- _|discriminate Hr|injection Hr as <- _]; discriminate.
  - intros []; (split; [by intros [? [=]]|intros ?; try done; by eexists]).
  - intros []; (split; [by intros [? [=]]|intros ?; try done; by eexists]).
  - intros ph Hlt Hpos Hh. set (s := w.(w_k)) in *.
    assert (Hck : exists resp, phCheck k s ph = Ret resp /\ resp.(phc_Status) = PHCheckRoundTooFarInFuture).
    { unfold phCheck. destruct (Z.ltb_spec (Height (ph_Header ph)) (vHeight (s_Committing s))); [lia|].
      destruct (Z.eqb_spec (Height (ph_Header ph)) (vHeight (s_Committing s))); [lia|].
      destruct (Z.eqb_spec (Height (ph_Header ph)) (vHeight (s_Voting s))); [lia|].
      rewrite u64_small by (unfold is_u64; lia).
      destruct (Z.eqb_spec (Height (ph_Header ph)) (vHeight (s_Voting s) + 1)); [lia|]. by eexists. }
    destruct Hck as (resp & Hck & Hst). simpl. unfold mbind, K_bind.
    rewrite (askPHCheck_ret k ph w resp Hck) by (rewrite Hst; discriminate). simpl.
    unfold liftO, afterCheck. rewrite Hst. simpl. by eexists.
Qed.

Lemma feedback_mapping_witness :
  (exists w', headerStep toyKernel (HandleProposedHeader (toyPH 9 0 "z" "b" (MkCommitProof 0 nilHash gm_make)))
     committedWorld = Ret (HDone HandleProposedHeaderRoundTooFarInFuture, w')) /\
  ~ returns (DropDuplicate.HandleProposedHeader HandleProposedHeaderRoundTooFarInFuture).
Proof.
  destruct (feedback_mapping toyKernel committedWorld) as (_ & _ & _ & Hdup & Hfar). split.
  - apply Hfar; [vm_compute; reflexivity|split; vm_compute; [discriminate|reflexivity]|vm_compute; reflexivity].
  - intros Hr. exact (proj1 (Hdup _) Hr eq_refl).
Defined.
