(* ===== verification/KernelPrompt.v ===== *)
(** How promptly the mirror kernel commits: it never goes back to waiting for input with a voting view whose
    precommits already commit a header it holds, unless it answered a conflict or started from stores in that
    state; and what happens to a node in those two cases. *)
From S2P Require Import Prelude Types BitSets Powers SigProof SimpleProofs VoteSummary RoundView.
From S2P Require Import Stores Managers KState KernelBase Kernel KernelHandlers KernelLoop Mirror.
From S2P Require Import KernelExample KernelSpec KernelRefine KernelSafety KernelTheorems MirrorSystem HeaderChecks.
From stdpp Require Import relations.
Local Open Scope Z_scope.

(** * Views that are ready to commit *)
Section ripe.
Context {P : Type}.
Implicit Types (rv : RoundView P) (a : AState P).

(** A majority of the power precommitted a header that the view holds. *)
Definition ripe rv : bool :=
  match ByzantineMajority rv.(rv_VoteSummary).(AvailablePower) with
  | Ret maj => (maj <=? topPrecommitPower rv) && negb (String.eqb rv.(rv_VoteSummary).(MostVotedPrecommitHash) nilHash) &&
      match findPH rv.(rv_VoteSummary).(MostVotedPrecommitHash) rv.(rv_ProposedHeaders) with Some _ => true | None => false end
  | Panic _ => false
  end.

(** No hash has a majority of the precommits. *)
Definition slack rv : bool :=
  match ByzantineMajority rv.(rv_VoteSummary).(AvailablePower) with
  | Ret maj => topPrecommitPower rv <? maj
  | Panic _ => true
  end.

Lemma slack_unripe rv : slack rv = true -> ripe rv = false.
Proof.
  unfold slack, ripe. destruct (ByzantineMajority _); [|done]. intros Hlt%Z.ltb_lt.
  by rewrite (proj2 (Z.leb_gt _ _) Hlt).
Qed.

(** Nothing is left to commit, and the next round cannot become a voting view that has something to commit. *)
Definition prompt a : Prop := ripe a.(aV) = false /\ slack a.(aN) = true.

(** The sum of the precommit powers, which counts a validator once for each hash it signed, did not wrap around
    below the power of one of the hashes. *)
Definition noWrap rv : Prop := topPrecommitPower rv <= rv.(rv_VoteSummary).(TotalPrecommitPower).

Lemma ripe_precommits rv rv' : rv'.(rv_ProposedHeaders) = rv.(rv_ProposedHeaders) ->
  rv'.(rv_VoteSummary).(AvailablePower) = rv.(rv_VoteSummary).(AvailablePower) ->
  rv'.(rv_VoteSummary).(PrecommitBlockPower) = rv.(rv_VoteSummary).(PrecommitBlockPower) ->
  rv'.(rv_VoteSummary).(MostVotedPrecommitHash) = rv.(rv_VoteSummary).(MostVotedPrecommitHash) ->
  ripe rv' = ripe rv /\ slack rv' = slack rv.
Proof. unfold ripe, slack, topPrecommitPower. by intros -> -> -> ->. Qed.

Lemma majority_positive n maj : 0 <= n < two64 -> ByzantineMajority n = Ret maj -> 0 < maj.
Proof.
  intros Hn Hm. destruct (decide (n = 0)) as [->|Hne]; [discriminate|].
  destruct (ByzantineMajority_ret n) as (m & Em & _ & _ & ?); [lia|]. rewrite Em in Hm. injection Hm as <-. lia.
Qed.

Lemma minority_below n min maj : 0 <= n < two64 ->
  ByzantineMinority n = Ret min -> ByzantineMajority n = Ret maj -> min <= maj.
Proof.
  intros Hn Hmin Hmaj. destruct (decide (n = 0)) as [->|Hne]; [discriminate|].
  destruct (ByzantineMajority_ret n) as (m & Em & ? & ? & ?); [lia|].
  destruct (ByzantineMinority_ret n) as (m' & Em' & ? & ? & ?); [lia|].
  rewrite Em in Hmaj. rewrite Em' in Hmin. simplify_eq. lia.
Qed.
End ripe.

Section ok_views.
Context {P B : Type} `{BitSetLaws B, !CMSP P B}.
Implicit Types (rv : RoundView P).

Lemma avail_range rv : rv_ok rv -> 0 <= rv.(rv_VoteSummary).(AvailablePower) < two64.
Proof. intros Hok. rewrite (ro_avail _ Hok). apply u64_range. Qed.

(** Without votes there is slack. *)
Lemma slack_silent rv : rv_ok rv -> topPrecommitPower rv = 0 -> slack rv = true.
Proof.
  intros Hok Ht. unfold slack. destruct (ByzantineMajority _) as [maj|] eqn:Em; [|done].
  rewrite Ht. apply Z.ltb_lt, (majority_positive _ _ (avail_range _ Hok) Em).
Qed.

(** Nor is a view ripe whose precommits have no entry for the header that it lacked so far. *)
Lemma unvoted_unripe rv ph : rv_ok (appendPH ph rv) -> ripe rv = false ->
  gm_get rv.(rv_PrecommitProofs) ph.(ph_Header).(Hash) = None -> ripe (appendPH ph rv) = false.
Proof.
  intros Hok Hr Hnone. unfold ripe in *. simpl. pose proof (avail_range _ Hok) as Ha. simpl in Ha.
  destruct (ByzantineMajority _) as [maj|] eqn:Em; [|done]. pose proof (majority_positive _ _ Ha Em) as Hpos.
  change (topPrecommitPower (appendPH ph rv)) with (topPrecommitPower rv).
  destruct (maj <=? topPrecommitPower rv) eqn:El; [|done]. destruct (String.eqb _ _); [done|]. simpl in *.
  unfold findPH in *. destruct (List.find _ (rv_ProposedHeaders rv)) as [x|] eqn:Ef; [done|].
  destruct (List.find _ (rv_ProposedHeaders rv ++ [ph])) as [x|] eqn:Ef'; [|done]. exfalso.
  apply find_some in Ef' as [Hin Hx]. apply in_app_or in Hin as [Hin|[<-|[]]].
  { by rewrite (find_none _ _ Ef x Hin) in Hx. }
  apply String.eqb_eq in Hx. apply Z.leb_le in El. unfold topPrecommitPower in El.
  pose proof (td_block _ _ _ _ _ (ro_precommit_tally _ Hok)) as Hb. simpl in Hb.
  rewrite Hb, <- Hx in El. unfold gm_getz, gm_get in El. simpl in El.
  rewrite lookup_fmap in El. unfold gm_get in Hnone.
  destruct (rv_PrecommitProofs rv) as [m|]; simpl in *; [rewrite Hnone in El|rewrite lookup_empty in El]; simpl in El; lia.
Qed.

(** The exact sum of the powers does not reach 2^64 in any realistic network. *)
Lemma noWrap_fits rv : rv_ok rv -> powers_ok (rvVals rv) ->
  sumPowers (rvVals rv) (gm_entries rv.(rv_PrecommitProofs)) < two64 -> noWrap rv.
Proof.
  intros Hok Hp Hlt. pose proof (powers_ok_nonneg _ Hp) as Hn.
  pose proof (ro_precommit_tally _ Hok) as [Htotal Hblock _ _ _].
  assert (Hge : forall l : list (bytes * P), 0 <= sumPowers (rvVals rv) l /\
    forall h p, (h, p) ∈ l -> proofPowerZ (rvVals rv) p <= sumPowers (rvVals rv) l).
  { induction l as [|[h0 p0] l [IH1 IH2]]; simpl; [split; [lia|]; intros ? ? ?; set_solver|].
    fold (sumPowers (rvVals rv) l).
    pose proof (powerIn_nonneg (rvVals rv) (bs_elems (cmsp_SignatureBitSet p0)) 0 Hn).
    unfold proofPowerZ at 1 3. split; [lia|]. intros h p [[= -> ->]|Hin]%elem_of_cons; [unfold proofPowerZ; lia|].
    specialize (IH2 _ _ Hin). lia. }
  destruct (Hge (gm_entries (rv_PrecommitProofs rv))) as [Hpos Hle]. unfold noWrap, topPrecommitPower.
  fold (rvVals rv) in Htotal. rewrite Htotal, Hblock, u64_small by (unfold is_u64; lia).
  unfold gm_getz, gm_get at 1. simpl. rewrite lookup_fmap.
  destruct (gm_map (rv_PrecommitProofs rv) !! _) as [p|] eqn:Ep; simpl; [|done].
  transitivity (proofPowerZ (rvVals rv) p).
  - unfold proofPower. rewrite sumPower_u64. unfold u64.
    apply Z.mod_le; [apply powerIn_nonneg, Hn|done].
  - apply (Hle (MostVotedPrecommitHash (rv_VoteSummary rv))), gm_entries_get. unfold gm_get, gm_map in *.
    by destruct (rv_PrecommitProofs rv).
Qed.
End ok_views.

(** * The handlers *)
Section handlers.
Context {P B ST : Type} `{BitSetLaws B, !CMSP P B, !CMSPScheme P, !KernelStores ST, !KernelStoresLaws ST}.
Context (k : Kernel).
Implicit Types (w : World P ST) (s : kState P).
Local Abbreviation M := (K P ST).

(** ** Computations that leave the voting and next round views alone *)
Definition sameVN {A} (m : M A) w : Prop :=
  wp m w (fun _ w' => (abs w').(aV) = (abs w).(aV) /\ (abs w').(aN) = (abs w).(aN)).

(** What a handler leaves behind. *)
Definition settles w : Prop := a_coherent (abs w) -> noWrap (abs w).(aN) -> prompt (abs w).
Definition ends {A} (m : M A) w : Prop := wp m w (fun _ w' => settles w').

Lemma frames_sameVN {A} (m : M A) w : frames m w -> sameVN m w.
Proof. apply wp_mono. intros _ w' [Hv Hn _ _ _]. done. Qed.

Lemma ends_same {A} (m : M A) w : prompt (abs w) -> sameVN m w -> ends m w.
Proof. intros Hp. apply wp_mono. intros _ w' [Hv Hn] _ _. unfold prompt. by rewrite Hv, Hn. Qed.

Lemma ends_frame {A} (m : M A) w : prompt (abs w) -> frames m w -> ends m w.
Proof. intros Hp Hf. by apply ends_same, frames_sameVN. Qed.

Lemma ends_ret {A} (a : A) w : prompt (abs w) -> ends (mret a) w.
Proof. intros Hp _ _. exact Hp. Qed.

Lemma ends_panic {A} msg w : ends (panicK (A := A) msg) w.
Proof. done. Qed.

Lemma ends_liftO {A C} (m : outcome A) (f : A -> M C) w : (forall a, m = Ret a -> ends (f a) w) -> ends (liftO m ≫= f) w.
Proof. intros Hf. apply wp_bind, wp_liftO_eq. intros a Ha. by apply Hf. Qed.

Lemma ends_getK {C} (f : kState P -> M C) w : ends (f w.(w_k)) w -> ends (getK ≫= f) w.
Proof. intros Hf. exact Hf. Qed.

(** A computation that leaves the views alone, and then another. *)
Lemma ends_then {A C} (m : M A) (f : A -> M C) w : sameVN m w ->
  (forall a w', (abs w').(aV) = (abs w).(aV) -> (abs w').(aN) = (abs w).(aN) -> ends (f a) w') -> ends (m ≫= f) w.
Proof. intros Hm Hf. apply wp_bind. eapply wp_mono; [|exact Hm]. intros a w' [Hv Hn]. by apply Hf. Qed.

(** A computation that settles the views, and then others that leave them alone. *)
Lemma ends_settled {A} (m : M A) w : settles w -> sameVN m w -> ends m w.
Proof.
  intros Hs. apply wp_mono. intros c w' [Hv Hn] [Hcv Hcn Hh Hr Hvals] Hwrap. rewrite Hn in Hwrap.
  assert (Hc : a_coherent (abs w)) by (split; rewrite <- ?Hv, <- ?Hn; done).
  unfold prompt. rewrite Hv, Hn. by apply Hs.
Qed.

Lemma ends_first {A C} (m : M A) (f : A -> M C) w : ends m w -> (forall a w', sameVN (f a) w') -> ends (m ≫= f) w.
Proof.
  intros Hm Hf. apply wp_bind. eapply wp_mono; [|exact Hm]. intros a w' Hs. by apply ends_settled.
Qed.

Lemma sameVN_ret {A} (a : A) w : sameVN (mret a) w.
Proof. by apply wp_ret. Qed.

Lemma sameVN_bind {A C} (m : M A) (f : A -> M C) w : sameVN m w -> (forall a w', sameVN (f a) w') -> sameVN (m ≫= f) w.
Proof.
  intros Hm Hf. apply wp_bind. eapply wp_mono; [|exact Hm]. intros a w' [Hv Hn].
  eapply wp_mono; [|apply Hf]. intros c w'' [Hv' Hn']. by rewrite Hv', Hn'.
Qed.

(** ** Leaving the round or the height *)

(** The emptied view that becomes the next round has slack. *)
Lemma top_reset (rv : RoundView P) r :
  topPrecommitPower (let rv' := RoundView_ResetForSameHeight rv in {| rv' with rv_Round := r |}) = 0.
Proof. unfold topPrecommitPower, gm_getz, gm_get. simpl. by destruct (PrecommitBlockPower _). Qed.

Lemma settles_nextRound w a : slack a.(aN) = true -> aeq (nextRoundOf a) (abs w) -> settles w.
Proof.
  intros Hs [Hv Hn _ _ _] Hc _. split.
  - rewrite Hv. simpl. by apply slack_unripe.
  - apply slack_silent; [apply Hc|]. rewrite Hn. apply top_reset.
Qed.

Lemma wp_updateObservers w Q : (forall e w', aeq (abs w) (abs w') -> Q e w') -> wp updateObservers w Q.
Proof. intros HQ. eapply wp_mono; [exact HQ|]. apply frames_updateObservers. Qed.

Lemma ends_advance w : slack (abs w).(aN) = true -> ends advanceVotingRound w.
Proof.
  intros Hs. unfold advanceVotingRound. apply wp_bind, wp_modK, wp_bind, wp_updateObservers. intros e w' Ha.
  apply wp_ret. by apply (settles_nextRound _ (abs w)).
Qed.

(** A jump makes the next round, which has slack, the voting one. *)
Lemma wp_jump r w Q : (forall e w', aeq (nextRoundOf (abs w)) (abs w') -> Q e w') -> wp (jumpVotingRound r) w Q.
Proof.
  intros HQ. unfold jumpVotingRound. apply wp_bind, wp_modK, wp_bind, wp_updateObservers. intros e w' Ha.
  apply wp_ret, HQ. by rewrite <- abs_jump.
Qed.

Lemma settles_nextHeight w hd c n a : n.(vrv_RV) = a.(aN) -> (abs w).(aV) = (nextHeightOf hd c n a).(aV) ->
  (abs w).(aN) = (nextHeightOf hd c n a).(aN) -> settles w.
Proof.
  intros En Ev Enx Hc _. split.
  - apply slack_unripe, slack_silent; [apply Hc|]. by rewrite Ev.
  - apply slack_silent; [apply Hc|]. rewrite Enx. unfold topPrecommitPower, gm_getz, gm_get. simpl.
    by destruct (PrecommitBlockPower _).
Qed.

Lemma sameVN_emit e w : sameVN (emit e) w.
Proof. unfold sameVN, wp. by simpl. Qed.

Lemma sameVN_store f w : sameVN (callStore f) w.
Proof. apply wp_callStore. intros st e _. done. Qed.

Lemma sameVN_save w : sameVN saveCurrentCommittingHeader w.
Proof. apply sameVN_bind; [done|]. intros s w1. apply sameVN_bind; [apply sameVN_store|]. intros; apply sameVN_ret. Qed.

Lemma ends_shift ph w :
  ends (shiftVotingToCommitting (MkNHD ph.(ph_Header).(NextValidatorSet) ph.(ph_Header))) w.
Proof.
  unfold shiftVotingToCommitting. apply ends_getK.
  set (nhd := MkNHD ph.(ph_Header).(NextValidatorSet) ph.(ph_Header)). destruct (ShiftVotingToCommitting nhd (w_k w)) as [[s' cleared] ch] eqn:Esh.
  destruct (Shift_views _ _ _ _ _ Esh) as (Ev & En & _ & _). unfold vSummary, vPCP in En. rewrite Ev in En. simpl in En.
  cbv beta iota. apply wp_bind, wp_modK. apply ends_first; [|intros [] w2; destruct ch; [apply sameVN_emit|apply sameVN_ret]].
  unfold ends, wp. simpl.
  by apply (settles_nextHeight _ ph.(ph_Header) (abs w).(aV) w.(w_k).(s_NextRound) (abs w)).
Qed.

(** Whatever the votes in the voting view, the check leaves nothing to commit. *)
Lemma ends_checkVoting w : slack (abs w).(aN) = true -> ends checkVotingPrecommitViewShift w.
Proof.
  intros Hs. unfold checkVotingPrecommitViewShift. apply ends_getK, ends_liftO. intros maj Em.
  assert (Hstay : ripe (abs w).(aV) = false -> forall e : option error, ends (mret e) w) by (intros Hr e; by apply ends_ret).
  unfold ripe, topPrecommitPower in Hstay. change (vSummary (s_Voting (w_k w))) with (abs w).(aV).(rv_VoteSummary) in *.
  change (vPHs (s_Voting (w_k w))) with (abs w).(aV).(rv_ProposedHeaders). rewrite Em in Hstay.
  destruct (_ <? maj) eqn:El.
  - destruct (_ =? _); [by apply ends_advance|]. apply Hstay. by rewrite Z.leb_antisym, El.
  - destruct (String.eqb _ _) eqn:En; [by apply ends_advance|].
    destruct (findPH _ _) as [ph|] eqn:Ef; [|apply Hstay; by rewrite andb_false_r].
    apply ends_first; [apply ends_shift|]. intros _ w1. apply sameVN_bind; [apply sameVN_save|].
    intros [e|] w2; [apply sameVN_ret|]. apply frames_sameVN, frames_updateObservers.
Qed.

(** ** The next round *)

(** The store of the position does not fail, as an error there ends the check early. *)
Context (Hsaves : forall nhr (st : ST), (ks_SetNetworkHeightRound nhr st).2 = None).

Lemma wp_jump_saved r w Q : (forall w', aeq (nextRoundOf (abs w)) (abs w') -> Q None w') -> wp (jumpVotingRound r) w Q.
Proof.
  intros HQ. eapply (wp_mono _ _ (fun e w' => e = None /\ aeq (nextRoundOf (abs w)) (abs w'))).
  { intros e w' [-> Ha]. by apply HQ. }
  apply wp_conj; [|by apply wp_jump]. unfold jumpVotingRound. apply wp_bind, wp_modK, wp_bind.
  unfold updateObservers. apply wp_bind. unfold wp at 1; simpl. apply wp_bind, wp_callStore. intros st e He.
  pose proof (f_equal snd He) as Hn. simpl in Hn. rewrite Hsaves in Hn. subst e. by apply wp_ret, wp_ret.
Qed.

Lemma ends_checkNextRound w : ripe (abs w).(aV) = false -> ends (checkNextRoundPrecommitViewShift k) w.
Proof.
  intros Hr. unfold checkNextRoundPrecommitViewShift. apply ends_getK, ends_liftO. intros min Hmin. change (vSummary (s_NextRound (w_k w))) with (abs w).(aN).(rv_VoteSummary) in *.
  destruct (Z.ltb_spec (TotalPrecommitPower (rv_VoteSummary (aN (abs w)))) min) as [Hlt|_].
  - change (settles w). intros Hc Hwrap. split; [done|]. unfold slack. destruct (ByzantineMajority _) as [maj|] eqn:Em; [|done].
    pose proof (minority_below _ _ _ (avail_range _ (ac_next _ Hc)) Hmin Em). unfold noWrap in Hwrap. apply Z.ltb_lt. lia.
  - apply wp_bind, wp_jump_saved. intros w1 Ha. apply ends_liftO. intros maj Em.
    destruct (Z.leb_spec maj (gm_getz 0 (PrecommitBlockPower (rv_VoteSummary (aN (abs w))))
      (MostVotedPrecommitHash (rv_VoteSummary (aN (abs w)))))) as [?|Hlt]; [apply ends_panic|].
    apply ends_first; [|intros; apply sameVN_ret].
    assert (Hs : settles w1).
    { apply (settles_nextRound _ (abs w)); [|done]. unfold slack. rewrite Em. by apply Z.ltb_lt. }
    destruct (min <=? _); [|exact Hs]. apply ends_settled; [exact Hs|]. apply frames_sameVN, frames_bind; [apply frames_gets|].
    intros; apply frames_checkMissingPHs.
Qed.

Lemma ends_checkPrevote id w : prompt (abs w) -> ends (checkPrevoteViewShift k id) w.
Proof.
  intros [Hr Hs]. unfold checkPrevoteViewShift. destruct (negb _); [apply ends_panic|].
  apply ends_getK, ends_liftO. intros min Hmin.
  destruct (_ <? min); [by apply ends_ret|]. apply wp_bind, wp_jump_saved. intros w1 Ha.
  apply ends_first; [|intros; apply sameVN_ret].
  assert (Hw : settles w1) by (by apply (settles_nextRound _ (abs w))).
  destruct (min <=? _); [|exact Hw]. apply ends_settled; [exact Hw|]. apply frames_sameVN, frames_bind; [apply frames_gets|].
  intros; apply frames_checkMissingPHs.
Qed.

(** ** Votes *)

(** Only the named view changed. *)
Definition changedOnly (id : ViewID) w w' : Prop :=
  (id <> ViewIDVoting -> (abs w').(aV) = (abs w).(aV)) /\ (id <> ViewIDNextRound -> (abs w').(aN) = (abs w).(aN)).

Lemma changedOnly_trans id w w1 w2 : changedOnly id w w1 -> changedOnly id w1 w2 -> changedOnly id w w2.
Proof. intros [Hv Hn] [Hv' Hn']. split; intros Hid; [rewrite Hv', Hv|rewrite Hn', Hn]; done. Qed.

Lemma changedOnly_setView id v w : id = ViewIDVoting \/ id = ViewIDNextRound \/ id = ViewIDCommitting ->
  changedOnly id w {| w with w_k := setView id v w.(w_k) |}.
Proof. intros [->|[->| ->]]; split; intros; simpl; done. Qed.

Lemma wp_recordPrecommits id h r w : wp (recordPrecommits id h r) w (fun _ w' => changedOnly id w w').
Proof.
  unfold recordPrecommits. apply wp_bind. unfold wp at 1; simpl. apply wp_bind, wp_liftO_eq. intros vs _.
  apply wp_bind, wp_modK, wp_bind, wp_modKO. intros s' Hs'. apply wp_bind, wp_liftO_eq. intros c _.
  apply wp_bind, wp_callStore. intros st e _. apply wp_ret. simpl in *.
  destruct id; simpl in Hs'; try discriminate; injection Hs' as <-; split; intros; simpl; done.
Qed.

Lemma FindView_three h r s id : FindView h r s = Ret (id, ViewFound) ->
  id = ViewIDVoting \/ id = ViewIDNextRound \/ id = ViewIDCommitting.
Proof. intros Hf. destruct (FindView_found _ _ _ _ _ Hf) as (_ & _ & Hin). by apply Hin. Qed.

(** The request is applied in part, and answered with a conflict. *)
Definition partialUpdate (req : AddPrecommitRequest P) s : bool :=
  match FindView req.(apc_H) req.(apc_R) s with
  | Ret (id, ViewFound) =>
      match applyUpdates (vPrecommits (viewOf id s)) (viewOf id s).(PrecommitBlockVersions) req.(PrecommitUpdates) with
      | Ret (_, _, false, true) => true
      | _ => false
      end
  | _ => false
  end.

Lemma ends_addPrecommit req w : prompt (abs w) -> partialUpdate req w.(w_k) = false -> ends (addPrecommit k req) w.
Proof.
  intros Hp Hpart. unfold addPrecommit. apply ends_getK, ends_liftO. intros [id st] Hf.
  case_bool_decide; simpl; [|by apply ends_frame, frames_voteViewNotFound]. subst st.
  apply ends_liftO. intros [[[proofs versions] acc] any] Hup.
  unfold partialUpdate in Hpart. rewrite Hf, Hup in Hpart. apply FindView_three in Hf.
  apply applyUpdates_spec in Hup as (_ & _ & Hnone). apply wp_bind, wp_modK, wp_bind.
  set (w1 := {| w with w_k := _ |}).
  eapply (wp_mono _ _ (fun _ w' => changedOnly id w w' /\ (any = false -> prompt (abs w')))).
  2:{ destruct any.
      - eapply wp_mono; [|apply wp_recordPrecommits]. intros [] w' Hw'. split; [|done].
        eapply changedOnly_trans, Hw'. by apply changedOnly_setView.
      - apply wp_ret. split; [by apply changedOnly_setView|]. intros _. destruct (Hnone eq_refl) as [-> ->].
        assert (Hs : (abs w1).(aV) = (abs w).(aV) /\ (abs w1).(aN) = (abs w).(aN))
          by exact (frames_sameVN _ _ (frames_setPrecommits_same id _ w)).
        destruct Hs as [Hv Hn]. unfold prompt. by rewrite Hv, Hn. }
  intros [] w2 [[Hv Hn] Hstay]. apply ends_then; [apply frames_sameVN, frames_respond|]. intros _ w3 Ev3 En3.
  apply ends_then; [apply frames_sameVN, frames_checkMissingPHs|]. intros _ w4 Ev4 En4.
  assert (Hv4 : id <> ViewIDVoting -> ripe (abs w4).(aV) = false) by (intros; rewrite Ev4, Ev3, Hv; [apply Hp|done]).
  assert (Hn4 : id <> ViewIDNextRound -> slack (abs w4).(aN) = true) by (intros; rewrite En4, En3, Hn; [apply Hp|done]).
  destruct acc; simpl.
  - destruct Hf as [->|[->| ->]].
    + apply ends_first; [by apply ends_checkVoting, Hn4|intros; apply sameVN_ret].
    + apply ends_first; [by apply ends_checkNextRound, Hv4|intros; apply sameVN_ret].
    + apply ends_ret. split; [by apply Hv4|by apply Hn4].
  - destruct any; [done|]. apply ends_ret.
    unfold prompt. rewrite Ev4, En4, Ev3, En3. by apply Hstay.
Qed.

(** Prevotes commit nothing, but may end the round. *)
Lemma SetPrevotePowers_frame vals (proofs : gomap P) vs vs' : SetPrevotePowers vals proofs vs = Ret vs' ->
  vs'.(AvailablePower) = vs.(AvailablePower) /\ vs'.(PrecommitBlockPower) = vs.(PrecommitBlockPower) /\
  vs'.(MostVotedPrecommitHash) = vs.(MostVotedPrecommitHash).
Proof. intros Hs. unfold SetPrevotePowers in Hs. apply bind_Ret_inv in Hs as (t & _ & [= <-]). done. Qed.

Lemma wp_recordPrevotes id h r w : wp (recordPrevotes id h r) w (fun _ w' => prompt (abs w) -> prompt (abs w')).
Proof.
  unfold recordPrevotes. apply wp_bind. unfold wp at 1; simpl. apply wp_bind, wp_liftO_eq. intros vs Hvs.
  apply SetPrevotePowers_frame in Hvs as (Ha & Hb & Hm).
  apply wp_bind, wp_modK, wp_bind, wp_modKO. intros s' Hs'. apply wp_bind, wp_liftO_eq. intros c _.
  apply wp_bind, wp_callStore. intros st e _. apply wp_ret. intros [Hr Hs]. simpl in *.
  destruct id; simpl in Hs'; try discriminate; injection Hs' as <-; split; simpl; try done.
  - rewrite <- Hr. by apply ripe_precommits.
  - rewrite <- Hs. by apply ripe_precommits.
Qed.

Lemma ends_addPrevote req w : prompt (abs w) -> ends (addPrevote k req) w.
Proof.
  intros Hp. unfold addPrevote. apply ends_getK, ends_liftO. intros [id st] Hf.
  case_bool_decide; simpl; [|by apply ends_frame, frames_voteViewNotFound].
  apply ends_liftO. intros [[[proofs versions] acc] any] _. apply wp_bind, wp_modK, wp_bind.
  set (w1 := {| w with w_k := _ |}). assert (Hp1 : prompt (abs w1)) by (by destruct id).
  eapply (wp_mono _ _ (fun _ w' => prompt (abs w'))).
  2:{ destruct any; [|done]. eapply wp_mono; [|apply wp_recordPrevotes]. intros [] w' Hw'. by apply Hw'. }
  intros [] w2 Hp2. apply ends_then; [apply frames_sameVN, frames_respond|]. intros _ w3 Ev3 En3.
  apply ends_then; [apply frames_sameVN, frames_checkMissingPHs|]. intros _ w4 Ev4 En4.
  assert (Hp4 : prompt (abs w4)) by (unfold prompt; by rewrite Ev4, En4, Ev3, En3).
  destruct (_ && _); [|by apply ends_ret]. apply ends_first; [by apply ends_checkPrevote|intros; apply sameVN_ret].
Qed.

(** ** Proposed headers *)
Lemma sameVN_backfill ph w : sameVN (backfillCommit ph) w.
Proof.
  unfold backfillCommit. apply sameVN_bind; [done|]. intros s w1. apply sameVN_bind; [by apply wp_liftO_eq|].
  intros [proofs merged] w2. apply sameVN_bind; [done|]. intros _ w3. destruct merged; [|done].
  apply sameVN_bind; [by apply wp_liftO_eq|]. intros c w4. apply sameVN_bind; [apply sameVN_store|]. done.
Qed.

Lemma sameVN_storeO f w : sameVN (callStoreO f) w.
Proof. apply wp_callStoreO. intros st e _. done. Qed.

Lemma appendPH_next ph (rv : RoundView P) : slack (appendPH ph rv) = slack rv.
Proof. done. Qed.

(** A header that may be committed now, as the hash has precommits, is checked; another one is not needed. *)
Lemma ends_headerCheck id ph w : slack (abs w).(aN) = true ->
  (id = ViewIDVoting -> exists rv, (abs w).(aV) = appendPH ph rv /\ ripe rv = false) ->
  (id <> ViewIDVoting -> ripe (abs w).(aV) = false) ->
  ends (s ← getK; if bool_decide (id = ViewIDVoting) &&
                     bool_decide (is_Some (gm_get (vPrecommits s.(s_Voting)) ph.(ph_Header).(Hash)))
                  then _ ← checkVotingPrecommitViewShift; mret tt else mret tt) w.
Proof.
  intros Hs Hin Hout. apply ends_getK. case_bool_decide as Hid; simpl; [|apply ends_ret; split; [by apply Hout|done]].
  case_bool_decide as Hsome.
  - apply ends_first; [by apply ends_checkVoting|intros; apply sameVN_ret].
  - destruct (Hin Hid) as (rv & Ev & Hr). intros Hc _. change (a_coherent (abs w)) in Hc. change (prompt (abs w)).
    split; [|done]. rewrite Ev. apply unvoted_unripe; [rewrite <- Ev; apply Hc|done|].
    apply eq_None_not_Some. change (vPrecommits (s_Voting (w_k w))) with (rv_PrecommitProofs (aV (abs w))) in Hsome.
    by rewrite Ev in Hsome.
Qed.

Lemma ends_addProposedHeader ph w : prompt (abs w) -> ends (addProposedHeader ph) w.
Proof.
  intros Hp. unfold addProposedHeader. apply ends_then; [apply frames_sameVN, frames_cancelFetch|].
  intros _ w1 Ev1 En1. assert (Hp1 : prompt (abs w1)) by (unfold prompt; by rewrite Ev1, En1).
  destruct Hp1 as [Hr1 Hs1]. apply ends_getK, ends_liftO. intros [id st] Hf. simpl fst.
  case_bool_decide as Hid; [by apply ends_ret|]. destruct (existsb _ _); [by apply ends_ret|].
  destruct (FindView_found _ _ _ _ _ Hf) as (Hst & _ & Hin). specialize (Hin (proj2 Hst Hid)).
  apply wp_bind, wp_modK. set (w2 := {| w1 with w_k := _ |}).
  assert (Hs2 : slack (abs w2).(aN) = true) by (by destruct Hin as [->|[->| ->]]).
  assert (Hv2 : (id = ViewIDVoting -> (abs w2).(aV) = appendPH ph (abs w1).(aV)) /\
                (id <> ViewIDVoting -> (abs w2).(aV) = (abs w1).(aV))) by (by destruct Hin as [->|[->| ->]]).
  destruct Hv2 as [Hv2 Hv2'].
  apply ends_then; [apply sameVN_storeO|]. intros e w3 Ev3 En3.
  apply ends_then; [apply frames_sameVN, frames_checkSaveError|]. intros _ w4 Ev4 En4.
  apply ends_then; [apply frames_sameVN, frames_modKO; apply same4_MarkViewUpdated|]. intros _ w5 Ev5 En5.
  rewrite Ev4, Ev3 in Ev5. rewrite En4, En3 in En5.
  assert (Hdone : id <> ViewIDVoting -> prompt (abs w5)).
  { intros Hnv. unfold prompt. by rewrite Ev5, En5, Hv2'. }
  destruct (negb _) eqn:Eneg.
  { apply ends_ret, Hdone. intros ->. by rewrite bool_decide_eq_true_2 in Eneg. }
  apply ends_then; [by apply frames_sameVN, frames_modK|]. intros _ w6 Ev6 En6.
  apply ends_then; [apply sameVN_backfill|]. intros _ w7 Ev7 En7.
  apply ends_headerCheck; rewrite ?Ev7, ?En7, ?Ev6, ?En6.
  - by rewrite En5.
  - intros Hv. exists (abs w1).(aV). by rewrite Ev5, Hv2.
  - intros Hnv. by apply Hdone.
Qed.

(** ** The state machine's actions *)
Lemma ownVote_whole h r hash (p : P) s id st resp : FindView h r s = Ret (id, st) ->
  partialUpdate (MkAddPrecommit h r {[hash := MkVoteUpdate p (gm_getz 0 (viewOf id s).(PrecommitBlockVersions) hash)]} resp)
    s = false.
Proof.
  intros Hf. unfold partialUpdate. cbn [apc_H apc_R PrecommitUpdates]. rewrite Hf. destruct st; try done.
  unfold applyUpdates. rewrite map_to_list_singleton. simpl. rewrite Z.eqb_refl. by destruct (gm_set _ _ _).
Qed.

Lemma ends_action act w : prompt (abs w) -> ends (handleStateMachineAction k act) w.
Proof.
  intros Hp. unfold handleStateMachineAction. destruct (negb _); [apply ends_panic|].
  destruct (nonEmpty (Hash _)).
  { destruct (_ || _); [apply ends_panic|by apply ends_addProposedHeader]. }
  apply ends_getK, ends_liftO. intros [id st] Hf. simpl fst. destruct (negb _); [by apply ends_ret|].
  destruct (nonEmpty (sc_Sig (act_Prevote act))).
  - destruct (nonEmpty _); [apply ends_panic|]. destruct (voteBase _ _ _) as [base|]; [|by apply ends_ret].
    apply ends_liftO. intros [p|] _; [by apply ends_addPrevote|by apply ends_ret].
  - destruct (voteBase _ _ _) as [base|]; [|by apply ends_ret].
    apply ends_liftO. intros [p|] _; [|by apply ends_ret]. apply ends_addPrecommit; [done|]. by eapply ownVote_whole.
Qed.

Lemma frames_roundEntrance re w : frames (handleStateMachineRoundEntrance re) w.
Proof.
  unfold handleStateMachineRoundEntrance. apply frames_bind; [by apply frames_modK|]. intros _ w1.
  apply frames_bind; [apply frames_getK|]. intros s w2. apply frames_bind; [apply frames_liftO|]. intros [id st] w3.
  case_bool_decide.
  - case_bool_decide; [|apply frames_panic]. apply frames_bind; [apply frames_getStore|].
    intros [ch|e] w4; [apply frames_emit|apply frames_panic].
  - apply frames_bind; [apply frames_emit|]. intros _ w4. apply frames_modKO.
    intros s1 s' Hs. apply bind_Ret_inv in Hs as (m & _ & Hs). by injection Hs as <-.
Qed.

(** ** Replays *)
Definition shortError : error := ReplayedHeaderValidationError (ErrOther "needed more vote power for block").

(** A replay that is rejected for its power, when its header is in the voting view already. *)
Definition shortReplay (header : Header) (proof : CommitProof) w : bool :=
  match handleReplayedHeader k header proof w with Ret (Some e, _) => bool_decide (e = shortError) | _ => false end.

(** What a replay's response says of the views: nothing, when it is rejected for its power or the kernel is about
    to panic. *)
Definition replayed (e : option error) w : Prop :=
  e = Some shortError \/ (exists er, e = Some er /\ errAs isReplayedHeaderInternal er = true) \/ settles w.

Lemma replayed_failed er w : wp (replayFailed (Some er)) w replayed.
Proof. right; left. by eexists. Qed.

Lemma replayed_apply header proof temp w : prompt (abs w) -> wp (replayApply header proof temp) w replayed.
Proof.
  intros [Hr Hs]. unfold replayApply. apply wp_bind. unfold wp at 1; simpl. apply wp_bind.
  eapply (wp_mono _ _ (fun _ w' => slack (abs w').(aN) = true)).
  2:{ destruct (existsb _ _); [done|]. apply wp_bind, wp_callStore. intros st [e|] _; [done|]. done. }
  intros [e|] w1 Hs1; [apply replayed_failed|]. destruct (temp !! _) as [p|]; [|done].
  apply wp_bind, wp_liftO_eq. intros maj _. destruct (_ <? _); [by left|].
  apply wp_bind, wp_liftO_eq. intros proofs _. apply wp_bind, wp_liftO_eq. intros vs _.
  apply wp_bind, wp_modK, wp_bind, wp_liftO_eq. intros c _. apply wp_bind, wp_callStore. intros st [e|] _;
    [apply replayed_failed|].
  apply wp_bind. match goal with |- wp checkVotingPrecommitViewShift ?x _ => set (w2 := x) end.
  eapply wp_mono; [|by apply (ends_checkVoting w2)]. intros e w3 Hw3. apply wp_ret. by right; right.
Qed.

Lemma prompt_jump (a : AState P) : a_coherent a -> slack a.(aN) = true -> prompt (nextRoundOf a).
Proof.
  intros Hc Hs. split; [by apply slack_unripe|]. apply slack_silent; [|apply top_reset].
  apply (a_coherent_step anyOK (LJump (a.(aV).(rv_Round) + 1)) a); [apply as_jump; lia|done].
Qed.

Lemma replayed_handle header proof w : a_coherent (abs w) -> prompt (abs w) ->
  wp (handleReplayedHeader k header proof) w replayed.
Proof.
  intros Hc Hp. assert (Hstop : forall e w', prompt (abs w') -> wp (mret e) w' replayed) by (intros e w' Hw'; right; right; by intros _ _).
  unfold handleReplayedHeader. apply wp_bind. unfold wp at 1; simpl. destruct (negb _); [by apply Hstop|].
  destruct (_ <? _); [done|]. apply wp_bind.
  eapply (wp_mono _ _ (fun e w' => e = None /\ prompt (abs w'))).
  2:{ destruct (_ <? _); [|done]. apply wp_jump_saved. intros w' [Ev En _ _ _]. split; [done|].
      unfold prompt. rewrite Ev, En. apply prompt_jump; [done|apply Hp]. }
  intros e w1 [-> Hp1]. destruct (hs_Block _ _); [|by apply Hstop]. destruct (negb _); [by apply Hstop|].
  apply wp_bind. unfold wp at 1; simpl. apply wp_bind, wp_liftO_eq. intros [temp|er] _; [|by apply Hstop].
  by apply replayed_apply.
Qed.

Lemma ends_replay header proof w : a_coherent (abs w) -> prompt (abs w) -> shortReplay header proof w = false ->
  ends (replayRequest k header proof) w.
Proof.
  intros Hc Hp Hshort. unfold replayRequest. apply wp_bind, wp_intro. intros e w1 Hrun.
  pose proof (wp_run _ _ _ _ _ (replayed_handle header proof w Hc Hp) Hrun) as Hre.
  unfold shortReplay in Hshort. rewrite Hrun in Hshort. destruct Hre as [->|[(er & -> & Hint)|Hs]].
  - by rewrite bool_decide_eq_true_2 in Hshort.
  - apply wp_bind. unfold wp at 1; simpl. by rewrite Hint.
  - apply ends_settled; [done|]. apply sameVN_bind; [apply sameVN_emit|]. intros _ w2.
    destruct e as [er|]; [|done]. by destruct (errAs _ _).
Qed.

(** ** The main loop *)

(** The inputs after which the kernel may leave a ready commit for later. *)
Definition defers (i : Input (P := P)) w : bool :=
  match i with
  | InAddPrecommit req => partialUpdate req w.(w_k)
  | InReplay header proof => shortReplay header proof w
  | _ => false
  end.

Lemma ends_handle i w : a_coherent (abs w) -> prompt (abs w) -> defers i w = false -> ends (handle k i) w.
Proof.
  intros Hc Hp Hd. destruct i as [req|req|ph|ph|req|req| | | |ph|re|act|header proof]; simpl in *;
    try by apply ends_addProposedHeader.
  - by apply ends_frame, frames_bind; [|apply frames_getK|intros; apply frames_emit].
  - apply ends_frame; [done|]. unfold sendViewLookupResponse. destruct (String.eqb _ _); [apply frames_panic|].
    apply frames_bind; [apply frames_getK|]. intros s w1. apply frames_bind; [apply frames_liftO|].
    intros [id st] w2. apply frames_emit.
  - apply ends_frame; [done|]. unfold sendPHCheckResponse. apply frames_bind; [apply frames_getK|]. intros s w1.
    apply frames_bind; [apply frames_liftO|]. intros resp w2. case_bool_decide; [apply frames_panic|apply frames_emit].
  - by apply ends_addPrevote.
  - by apply ends_addPrecommit.
  - apply ends_frame; [done|]. apply frames_bind; [apply frames_getK|]. intros s w1.
    apply frames_bind; [apply frames_emit|]. intros _ w2. by apply frames_modK.
  - apply ends_frame; [done|]. apply frames_bind; [apply frames_getK|]. intros s w1.
    apply frames_bind; [apply frames_emit|]. intros _ w2. apply frames_modKO.
    intros s1 s' Hs. apply bind_Ret_inv in Hs as (m & _ & Hs). by injection Hs as <-.
  - apply ends_frame; [done|]. apply frames_bind; [apply frames_getK|]. intros s w1.
    apply frames_bind; [apply frames_emit|]. intros _ w2. by apply frames_modK.
  - by apply ends_frame, frames_roundEntrance.
  - by apply ends_action.
  - by apply ends_replay.
Qed.
End handlers.

(** * Properties *)

(** One iteration of the main loop whose input lets the kernel commit at once. *)
Inductive eagerStep {P B ST : Type} `{BitSet B, !CMSP P B, !CMSPScheme P, !KernelStores ST} (k : Kernel) :
  World P ST -> World P ST -> Prop :=
| eager_handle i w w' : ready w.(w_k) i = true -> defers k i w = false -> handle k i w = Ret (tt, w') ->
    noWrap (abs w').(aN) -> eagerStep k w w'
| eager_fetch r q w : w.(w_fetchQ) = r :: q -> eagerStep k w {| w with w_fetchQ := q |}.

Lemma eager_step {P B ST : Type} `{BitSet B, !CMSP P B, !CMSPScheme P, !KernelStores ST} (k : Kernel)
  (w w' : World P ST) : eagerStep k w w' -> step k w w'.
Proof. intros [i w1 w2 Hr _ Hh _|r q w1 Hq]; [by eapply step_handle|by eapply step_fetch]. Qed.

Lemma step_coherent {P B ST : Type}
  `{BitSetLaws B, !CMSP P B, !CMSPScheme P, !KernelStores ST, !KernelStoresLaws ST} (k : Kernel) (w w' : World P ST) :
  step k w w' -> a_coherent (abs w) -> a_coherent (abs w').
Proof.
  intros Hs. apply (steps_inv k a_coherent); [apply ac_height|apply a_coherent_step|by apply rtc_once].
Qed.

(** C5: the kernel commits at once, once it has nothing pending.  Start in a coherent state in which no majority
    precommitted a header that the voting view holds, and no hash has a majority of the next round's precommits
    (prompt).  NewKernel can start outside such a state, see restart_strands_commit.  Take any run of the main loop in
    which no input is one of [defers] (precommits of which only a part is applied, because another request changed some
    of the proofs first, and a replay rejected for its power), the position can be stored, and the total of the next
    round's precommits, which counts double votes, does not wrap around.  Then at the end of every iteration the voting
    view has no header that a majority of the power precommitted: votes that complete a majority, a header that arrives
    after its votes, the own votes of the state machine, a change of round and a replay all commit before the next
    input is taken. *)
Theorem kernel_commits_promptly {P B ST : Type}
  `{BitSetLaws B, !CMSP P B, !CMSPScheme P, !KernelStores ST, !KernelStoresLaws ST}
  (k : Kernel) (w w' : World P ST) :
  (forall nhr (st : ST), (ks_SetNetworkHeightRound nhr st).2 = None) ->
  coherent w.(w_k) -> prompt (abs w) -> rtc (eagerStep k) w w' ->
  ripe w'.(w_k).(s_Voting).(vrv_RV) = false.
Proof.
  intros Hsaves Hc%abs_coherent Hp Hr. change (ripe (abs w').(aV) = false). cut (prompt (abs w')); [by intros []|].
  induction Hr as [w|w w1 w' Hs Hr IH]; [done|]. pose proof (step_coherent k _ _ (eager_step k _ _ Hs) Hc) as Hc1.
  apply IH; [done|]. destruct Hs as [i w w1 Hrd Hd Hh Hwrap|r q w Hq]; [|done].
  exact (wp_run _ _ _ _ _ (ends_handle k Hsaves i w Hc Hp Hd) Hh Hc1 Hwrap).
Qed.

(** The instance: the precommits that complete a majority arrive before the header, which is committed when it is
    fetched. *)
Definition votedWorld : TW := worldOr emptyWorld (handle toyKernel commitInput startWorld).
Definition fetchedWorld : TW :=
  worldOr emptyWorld (handle toyKernel (InFetchedPH (toyPH 1 0 "x" "a" (MkCommitProof 0 nilHash gm_make))) votedWorld).

Lemma kernel_commits_promptly_witness :
  topPrecommitPower (abs votedWorld).(aV) = 3 /\ vHeight votedWorld.(w_k).(s_Voting) = 1 /\
  vHeight fetchedWorld.(w_k).(s_Voting) = 2 /\ ripe fetchedWorld.(w_k).(s_Voting).(vrv_RV) = false.
Proof.
  split; [vm_compute; reflexivity|]. split; [vm_compute; reflexivity|]. split; [vm_compute; reflexivity|].
  apply (kernel_commits_promptly toyKernel startWorld).
  - intros nhr st. reflexivity.
  - apply startWorld_coherent.
  - split; vm_compute; reflexivity.
  - eapply rtc_l; [apply (eager_handle _ commitInput _ votedWorld)|apply rtc_once,
      (eager_handle _ (InFetchedPH (toyPH 1 0 "x" "a" (MkCommitProof 0 nilHash gm_make))))];
      solve [vm_compute; reflexivity|vm_compute; discriminate].
Defined.

(** ** Commits that are left *)

(** Two peers gossip what they have of height 1: one the nil precommit of the fourth validator, the other that
    one and the precommits of the other three. *)
Definition sparseOf (p : TP) : list SparseSignature := (cmsp_AsSparse p).(ssp_Signatures).
Definition nilPrecommit : PrecommitSparseProof :=
  MkPrecommitSparse 1 0 "a,b,c,d" (Some {[nilHash := sparseOf (toyProofOf "C" 1 0 nilHash ["d"])]}).
Definition allPrecommits : PrecommitSparseProof :=
  MkPrecommitSparse 1 0 "a,b,c,d" (Some {[nilHash := sparseOf (toyProofOf "C" 1 0 nilHash ["d"]);
    "x" := sparseOf (toyProofOf "C" 1 0 "x" ["a"; "b"; "c"])]}).

(** Both look their view up before either sends its votes. *)
Definition race1 : Call TP * TW := callOr (callStep toyKernel (begin (MsgPrecommits nilPrecommit)) proposedWorld).
Definition race2 : Call TP * TW := callOr (callStep toyKernel (begin (MsgPrecommits allPrecommits)) race1.2).
Definition race3 : Call TP * TW := callOr (callStep toyKernel race1.1 race2.2).
Definition race4 : Call TP * TW := callOr (callStep toyKernel race2.1 race3.2).
Definition race5 : Call TP * TW := callOr (callStep toyKernel race4.1 race4.2).

(** The header that the other nodes, who committed height 1, propose next. *)
Definition laterHeader : ProposedHeader :=
  toyPH 2 0 "y" "b" (MkCommitProof 0 "a,b,c,d" (Some {["x" := sparseOf (toyProofOf "C" 1 0 "x" ["a"; "b"; "c"])]})).

Lemma race_run : rtc (sysstep toyKernel) (MkSystem proposedWorld [] []) (MkSystem race5.2 []
  [CallPrecommits (PCDone HandleVoteProofsAccepted); CallPrecommits (PCDone HandleVoteProofsNoNewSignatures)]).
Proof.
  eapply rtc_l; [apply (sys_begin _ _ (MsgPrecommits nilPrecommit))|].
  eapply rtc_l; [apply (sys_begin _ _ (MsgPrecommits allPrecommits))|].
  eapply rtc_l; [apply (sys_call _ _ 0 (begin (MsgPrecommits nilPrecommit)) race1.1 _ race1.2);
    [reflexivity|vm_compute; reflexivity]|].
  eapply rtc_l; [apply (sys_call _ _ 1 (begin (MsgPrecommits allPrecommits)) race2.1 _ race2.2);
    [reflexivity|vm_compute; reflexivity]|].
  eapply rtc_l; [apply (sys_call _ _ 0 race1.1 (CallPrecommits (PCDone HandleVoteProofsAccepted)) _ race3.2);
    [reflexivity|vm_compute; reflexivity]|].
  eapply rtc_l; [apply (sys_call _ _ 1 race2.1 race4.1 _ race4.2); [reflexivity|vm_compute; reflexivity]|].
  apply rtc_once, (sys_call _ _ 1 race4.1 (CallPrecommits (PCDone HandleVoteProofsNoNewSignatures)) _ race5.2);
    [reflexivity|vm_compute; reflexivity].
Qed.

(** A commit can be left for good.  A node holds the header of height 1 when two messages with precommits
    arrive at once: the nil precommit of one validator, and the same together with the precommits of the other
    three for the header.  Both calls return, the votes of all validators are in the voting view with a majority
    for the header, and it is not committed: the second request conflicts on nil, so its precommits for the
    header are recorded without the check that commits, and the retry finds nothing new to send.  A message with
    the same votes is not sent to the kernel again, and the header of the next height, with the proof that the
    height was committed, keeps its call busy for ever. *)
Theorem racing_precommits_strand_commit :
  exists w, rtc (sysstep toyKernel) (MkSystem proposedWorld [] []) (MkSystem w []
      [CallPrecommits (PCDone HandleVoteProofsAccepted); CallPrecommits (PCDone HandleVoteProofsNoNewSignatures)]) /\
    ripe w.(w_k).(s_Voting).(vrv_RV) = true /\ vHeight w.(w_k).(s_Voting) = 1 /\
    (vSummary w.(w_k).(s_Voting)).(TotalPrecommitPower) = (vSummary w.(w_k).(s_Voting)).(AvailablePower) /\
    (forall n, exists c w', runHeader toyKernel n (HandleProposedHeader laterHeader) w = Ret (c, w') /\
       spinning laterHeader HandleVoteProofsNoNewSignatures c /\ w'.(w_k) = w.(w_k)).
Proof.
  exists race5.2. split; [apply race_run|]. split; [vm_compute; reflexivity|]. split; [vm_compute; reflexivity|].
  split; [vm_compute; reflexivity|]. intros n.
  assert (Hcheck : exists resp, phCheck toyKernel race5.2.(w_k) laterHeader = Ret resp /\ resp.(phc_Status) = PHCheckNextHeight).
  { apply phCheck_nextHeight; [vm_compute; reflexivity|split; vm_compute; [discriminate|reflexivity]|vm_compute; reflexivity]. }
  assert (Hidle : idleBackfill toyKernel laterHeader race5.2.(w_k) = Some HandleVoteProofsNoNewSignatures)
    by (vm_compute; reflexivity).
  destruct (spin_run toyKernel laterHeader _ race5.2 n (HandleProposedHeader laterHeader) Hcheck Hidle (or_introl eq_refl))
    as (c & w' & Hrun & Hc & Hk & _).
  exists c, w'. exact (conj Hrun (conj Hc Hk)).
Qed.

(** A process that ends after the precommits of a majority were stored, and before the commit was. *)
Definition storedVotes : K TP MemStores unit :=
  _ ← modK (fun s => setView ViewIDVoting (withPrecommits s.(s_Voting)
                       (Some {["x" := toyProofOf "C" 1 0 "x" ["a"; "b"; "c"; "d"]]}) None) s);
  recordPrecommits ViewIDVoting 1 0.
Definition crashedStores : MemStores := (worldOr emptyWorld (storedVotes proposedWorld)).(w_st).
Definition restartedWorld : TW :=
  worldOr emptyWorld (NewKernel (B := gset nat) toyKernel true true true {| emptyWorld with w_st := crashedStores |}).

(** The kernel that starts from its stores does not look at the votes it loads: it waits for another precommit,
    which with the votes of all validators will not come. *)
Lemma restart_strands_commit :
  NewKernel (B := gset nat) toyKernel true true true {| emptyWorld with w_st := crashedStores |} = Ret (None, restartedWorld) /\
  ripe restartedWorld.(w_k).(s_Voting).(vrv_RV) = true /\ vHeight restartedWorld.(w_k).(s_Voting) = 1 /\
  (vSummary restartedWorld.(w_k).(s_Voting)).(TotalPrecommitPower) =
    (vSummary restartedWorld.(w_k).(s_Voting)).(AvailablePower).
Proof. split_and!; vm_compute; reflexivity. Qed.
