(* ===== verification/RoundLifecycle.v ===== *)
(** The state machine's vocabulary: the steps of a round and the requests to the consensus strategy
    (tm/tmengine/internal/tmstate/internal/tsi), the values of a single round (roundlifecycle.go), and
    the signer (tm/tmconsensus/signer.go). *)
From S2P Require Import Prelude.
From S2P Require Import Types.
From S2P Require Import Powers.
From S2P Require Import VoteSummary.
From S2P Require Import RoundView.
From S2P Require Import Stores.
From S2P Require Import Managers.
From S2P Require Import KernelBase.

(** * Steps (step.go) *)
Inductive Step :=
| StepInvalid
| StepAwaitingProposal
| StepAwaitingPrevotes
| StepPrevoteDelay
| StepAwaitingPrecommits
| StepPrecommitDelay
| StepCommitWait
| StepAwaitingFinalization.

#[export] Instance Step_eq_dec : EqDecision Step.
Proof. solve_decision. Defined.

Definition prevotePow (vs : VoteSummary) : Z := gm_getz 0 vs.(PrevoteBlockPower) vs.(MostVotedPrevoteHash).
Definition precommitPow (vs : VoteSummary) : Z :=
  gm_getz 0 vs.(PrecommitBlockPower) vs.(MostVotedPrecommitHash).

Definition GetStepFromVoteSummary (vs : VoteSummary) : outcome Step :=
  maj ← ByzantineMajority vs.(AvailablePower);
  min ← ByzantineMinority vs.(AvailablePower);
  Ret (if maj <=? vs.(TotalPrecommitPower) then
         if maj <=? precommitPow vs then StepCommitWait else StepPrecommitDelay
       else if min <=? vs.(TotalPrecommitPower) then StepAwaitingPrecommits
       else if maj <=? vs.(TotalPrevotePower) then
         if maj <=? prevotePow vs then StepAwaitingPrecommits else StepPrevoteDelay
       else StepAwaitingProposal).

(** * The signer (signer.go) *)

(** SignProposedHeader sets the signature of the header it is given, and nothing else: it is the
    signature it sets. *)
Record Signer := MkSigner {
  sg_PubKey : PubKey;
  sg_Prevote : VoteTarget -> result (bytes * bytes);
  sg_Precommit : VoteTarget -> result (bytes * bytes);
  sg_SignProposedHeader : ProposedHeader -> result bytes
}.

Section passthrough.
(** gcrypto.Signer: a key and its signing function. *)
Context (key : PubKey) (Sign : bytes -> result bytes) (s : SignatureScheme).

Definition signBytesWith (genMsg signMsg : string) (content : result bytes) : result (bytes * bytes) :=
  match content with
  | Err e => Err (ErrWrap genMsg e)
  | Ok c => match Sign c with Err e => Err (ErrWrap signMsg e) | Ok sig => Ok (c, sig) end
  end.

Definition PassthroughSigner_Prevote (vt : VoteTarget) : result (bytes * bytes) :=
  signBytesWith "PassthroughSigner.Prevote failed to generate sign bytes"
    "PassthroughSigner.Prevote failed to sign prevote bytes" (PrevoteSignBytes vt s).

Definition PassthroughSigner_Precommit (vt : VoteTarget) : result (bytes * bytes) :=
  signBytesWith "PassthroughSigner.Precommit failed to generate sign bytes"
    "PassthroughSigner.Precommit failed to sign precommit bytes" (PrecommitSignBytes vt s).

Definition PassthroughSigner_SignProposedHeader (ph : ProposedHeader) : result bytes :=
  match signBytesWith "PassthroughSigner.SignProposedHeader failed to generate sign bytes"
          "PassthroughSigner.SignProposedHeader failed to sign proposal"
          (ProposalSignBytes ph.(ph_Header) ph.(ph_Round) ph.(ph_Annotations) s) with
  | Err e => Err e
  | Ok cs => Ok cs.2
  end.

Definition PassthroughSigner : Signer :=
  MkSigner key PassthroughSigner_Prevote PassthroughSigner_Precommit PassthroughSigner_SignProposedHeader.
End passthrough.

(** * Values exchanged with the application *)

(** A channel is an identity, so that what a goroutine still holds of an earlier round is not
    confused with the channel of the current round; a nil channel is None. *)
Notation Chan := (option nat).

Record Proposal := MkProposal {
  pr_DataID : bytes; ProposalAnnotations : Annotations; BlockAnnotations : Annotations
}.

Record ConsiderReason := MkReason {
  NewProposedBlocks : list bytes; UpdatedBlockDataIDs : list bytes; MajorityVotingPowerPresent : bool
}.
Definition ConsiderReason_zero : ConsiderReason := MkReason [] [] false.

(** The four request types of consensusmanager.go. *)
Inductive CMRequest (P : Type) :=
| EnterRoundRequest (rv : RoundView P) (proposalOut : Chan)
| ConsiderProposedBlocksRequest (phs : list ProposedHeader) (reason : ConsiderReason) (result : Chan)
| ChooseProposedBlockRequest (phs : list ProposedHeader) (result : Chan)
| DecidePrecommitRequest (vs : VoteSummary) (result : Chan).
Arguments EnterRoundRequest {P}.
Arguments ConsiderProposedBlocksRequest {P}.
Arguments ChooseProposedBlockRequest {P}.
Arguments DecidePrecommitRequest {P}.

Record HashSelection := MkSelection { hs_Hash : bytes; hs_Err : option error }.

(** tmdriver.FinalizeBlockRequest and FinalizeBlockResponse, tmelink.BlockDataArrival. *)
Record FinalizeBlockRequest := MkFinReq { fr_Header : Header; fr_Round : Z; fr_Resp : Chan }.
Record FinalizeBlockResponse := MkFinResp {
  fp_Height : Z; fp_Round : Z; fp_BlockHash : bytes; fp_Validators : list Validator; fp_AppStateHash : bytes
}.
Record BlockDataArrival := MkArrival { ar_Height : Z; ar_Round : Z; ar_ID : bytes }.

(** * RoundLifecycle (roundlifecycle.go)

    The context of a round and its cancel function, which nothing in the repository reads, are left
    out.  A timer is its elapse channel, and its cancel function names the timer it cancels. *)
Record RoundLifecycle (P : Type) := MkRLC {
  rl_H : Z;
  rl_R : Z;
  rl_S : Step;
  rl_StepTimer : Chan;
  rl_CancelTimer : option nat;
  rl_HeightCommitted : Chan;
  rl_CurValSet : ValidatorSet;
  rl_PrevValSet : ValidatorSet;
  rl_VRV : option (VersionedRoundView P);
  rl_PrevBlockHash : bytes;
  rl_PrevFinNextValSet : ValidatorSet;
  rl_PrevFinAppStateHash : bytes;
  rl_PrevConsideredHashes : list bytes;
  rl_OutgoingActionsCh : bool;
  rl_ProposalCh : Chan;
  rl_PrevoteHashCh : Chan;
  rl_PrecommitHashCh : Chan;
  rl_FinalizeRespCh : Chan;
  rl_FinalizedValSet : ValidatorSet;
  rl_FinalizedAppStateHash : bytes;
  rl_FinalizedBlockHash : bytes;
  rl_CommitWaitElapsed : bool
}.
Arguments rl_H {P}.
Arguments rl_R {P}.
Arguments rl_S {P}.
Arguments rl_StepTimer {P}.
Arguments rl_CancelTimer {P}.
Arguments rl_HeightCommitted {P}.
Arguments rl_CurValSet {P}.
Arguments rl_PrevValSet {P}.
Arguments rl_VRV {P}.
Arguments rl_PrevBlockHash {P}.
Arguments rl_PrevFinNextValSet {P}.
Arguments rl_PrevFinAppStateHash {P}.
Arguments rl_PrevConsideredHashes {P}.
Arguments rl_OutgoingActionsCh {P}.
Arguments rl_ProposalCh {P}.
Arguments rl_PrevoteHashCh {P}.
Arguments rl_PrecommitHashCh {P}.
Arguments rl_FinalizeRespCh {P}.
Arguments rl_FinalizedValSet {P}.
Arguments rl_FinalizedAppStateHash {P}.
Arguments rl_FinalizedBlockHash {P}.
Arguments rl_CommitWaitElapsed {P}.

Section lifecycle.
Context {P : Type}.
Implicit Types (rlc : RoundLifecycle P).

Definition RLC_zero : RoundLifecycle P :=
  MkRLC P 0 0 StepInvalid None None None ValidatorSet_zero ValidatorSet_zero None nilHash ValidatorSet_zero
    nilHash [] false None None None None ValidatorSet_zero nilHash nilHash false.

(** Reset, with the channels it makes numbered from [n]; cancelling the timer is left to the caller,
    which holds the timers. *)
Definition RLC_Reset (h r : Z) (n : nat) rlc : RoundLifecycle P :=
  {| rlc with rl_H := h; rl_R := r;
              rl_StepTimer := match rlc.(rl_CancelTimer) with Some _ => None | None => rlc.(rl_StepTimer) end;
              rl_CancelTimer := None;
              rl_ProposalCh := Some n; rl_PrevoteHashCh := Some (S n); rl_PrecommitHashCh := Some (S (S n));
              rl_FinalizeRespCh := Some (S (S (S n))); rl_HeightCommitted := Some (S (S (S (S n))));
              rl_CommitWaitElapsed := false; rl_PrevConsideredHashes := [] |}.

(** The number of channels Reset makes. *)
Definition resetChans : nat := 5.

Definition MarkCatchingUp rlc : RoundLifecycle P :=
  {| rlc with rl_ProposalCh := None; rl_PrevoteHashCh := None; rl_PrecommitHashCh := None;
              rl_CommitWaitElapsed := true |}.

Definition IsReplaying rlc : bool := match rlc.(rl_VRV) with None => true | Some _ => false end.

Definition CycleFinalization rlc : RoundLifecycle P :=
  {| rlc with rl_PrevFinNextValSet := rlc.(rl_FinalizedValSet); rl_PrevValSet := rlc.(rl_CurValSet);
              rl_CurValSet := rlc.(rl_PrevFinNextValSet); rl_FinalizedValSet := ValidatorSet_zero;
              rl_PrevFinAppStateHash := rlc.(rl_FinalizedAppStateHash); rl_FinalizedAppStateHash := nilHash;
              rl_PrevBlockHash := rlc.(rl_FinalizedBlockHash); rl_FinalizedBlockHash := nilHash |}.

(** MarkReasonNewHashes: the reason's new hashes and the hashes considered so far. *)
Definition markNewHash (acc : list bytes * list bytes) (ph : ProposedHeader) : list bytes * list bytes :=
  let h := ph.(ph_Header).(Hash) in
  if bool_decide (h ∈ acc.2) then acc else (acc.1 ++ [h], acc.2 ++ [h]).

Definition MarkReasonNewHashes (phs : list ProposedHeader) (reason : ConsiderReason) rlc :
  ConsiderReason * RoundLifecycle P :=
  let acc := foldl markNewHash (reason.(NewProposedBlocks), rlc.(rl_PrevConsideredHashes)) phs in
  ({| reason with NewProposedBlocks := acc.1 |}, {| rlc with rl_PrevConsideredHashes := acc.2 |}).
End lifecycle.
