(* ===== verification/StateMachineBase.v ===== *)
(** What the state machine acts on: its stores, its world, and the monad of its handlers
    (tm/tmengine/internal/tmstate). *)
From S2P Require Import Prelude.
From S2P Require Import Types.
From S2P Require Import VoteSummary.
From S2P Require Import RoundView.
From S2P Require Import Stores.
From S2P Require Import Managers.
From S2P Require Import KernelBase.
From S2P Require Import RoundLifecycle.

(** * The state machine's view of its stores

    [ST] is the state of the three stores the state machine uses (tmstore.ActionStore,
    FinalizationStore and StateMachineStore). *)
Class SMStores (ST : Type) := {
  ss_SaveProposedHeaderAction : ProposedHeader -> ST -> ST * option error;
  ss_SavePrevoteAction : PubKey -> VoteTarget -> bytes -> ST -> ST * option error;
  ss_SavePrecommitAction : PubKey -> VoteTarget -> bytes -> ST -> ST * option error;
  ss_LoadActions : Z -> Z -> ST -> result ActionStore.RoundActions;
  ss_SaveFinalization : Z -> Z -> bytes -> ValidatorSet -> bytes -> ST -> ST * option error;
  ss_LoadFinalizationByHeight : Z -> ST -> result (Z * bytes * ValidatorSet * bytes);
  ss_SetStateMachineHeightRound : Z -> Z -> ST -> ST * option error;
  ss_StateMachineHeightRound : ST -> result (Z * Z)
}.

Section observers.
Context {ST : Type} `{SMStores ST}.

Definition actionsAt (h r : Z) (s : ST) : ActionStore.RoundActions :=
  match ss_LoadActions h r s with Ok ra => ra | Err _ => ActionStore.RoundActions_zero end.

(** What a node has proposed and signed in a round, according to its action store. *)
Definition proposalAt (h r : Z) (s : ST) : option ProposedHeader :=
  (actionsAt h r s).(ActionStore.ra_ProposedHeader).

Definition signedAs (target sig : bytes) : option (bytes * bytes) :=
  if String.eqb sig nilHash then None else Some (target, sig).

Definition prevoteAt (h r : Z) (s : ST) : option (bytes * bytes) :=
  let ra := actionsAt h r s in signedAs ra.(ActionStore.PrevoteTarget) ra.(ActionStore.PrevoteSignature).
Definition precommitAt (h r : Z) (s : ST) : option (bytes * bytes) :=
  let ra := actionsAt h r s in signedAs ra.(ActionStore.PrecommitTarget) ra.(ActionStore.PrecommitSignature).

Definition finAt (h : Z) (s : ST) : option (Z * bytes * ValidatorSet * bytes) :=
  match ss_LoadFinalizationByHeight h s with Ok f => Some f | Err _ => None end.

(** The stores agree on every action of a round, on finalizations, and on the position. *)
Record sameActions (s s' : ST) : Prop := {
  sa_proposal h r : proposalAt h r s' = proposalAt h r s;
  sa_prevote h r : prevoteAt h r s' = prevoteAt h r s;
  sa_precommit h r : precommitAt h r s' = precommitAt h r s
}.
Definition sameFins (s s' : ST) : Prop := forall h, finAt h s' = finAt h s.
End observers.

(** What the state machine's theorems rely on: an action is accepted only when the round has none of
    its kind and is then read back, a finalization is written once, a failed save stores nothing, and
    the three stores do not touch each other. *)
Class SMStoresLaws (ST : Type) `{SMStores ST} := {
  ssl_ph_ok ph s s' : ss_SaveProposedHeaderAction ph s = (s', None) ->
    let h := ph.(ph_Header).(Height) in
    ActionStore.phHeight (proposalAt h ph.(ph_Round) s) = 0 /\
    proposalAt h ph.(ph_Round) s' = Some ph /\
    (forall h' r', (h', r') <> (h, ph.(ph_Round)) -> proposalAt h' r' s' = proposalAt h' r' s) /\
    (forall h' r', prevoteAt h' r' s' = prevoteAt h' r' s /\ precommitAt h' r' s' = precommitAt h' r' s);
  ssl_ph_err ph s s' e : ss_SaveProposedHeaderAction ph s = (s', Some e) -> sameActions s s';
  ssl_prevote_ok key vt sig s s' : ss_SavePrevoteAction key vt sig s = (s', None) ->
    prevoteAt vt.(vt_Height) vt.(vt_Round) s = None /\
    prevoteAt vt.(vt_Height) vt.(vt_Round) s' = signedAs vt.(vt_BlockHash) sig /\
    (forall h' r', (h', r') <> (vt.(vt_Height), vt.(vt_Round)) -> prevoteAt h' r' s' = prevoteAt h' r' s) /\
    (forall h' r', proposalAt h' r' s' = proposalAt h' r' s /\ precommitAt h' r' s' = precommitAt h' r' s);
  ssl_prevote_err key vt sig s s' e : ss_SavePrevoteAction key vt sig s = (s', Some e) -> sameActions s s';
  ssl_precommit_ok key vt sig s s' : ss_SavePrecommitAction key vt sig s = (s', None) ->
    precommitAt vt.(vt_Height) vt.(vt_Round) s = None /\
    precommitAt vt.(vt_Height) vt.(vt_Round) s' = signedAs vt.(vt_BlockHash) sig /\
    (forall h' r', (h', r') <> (vt.(vt_Height), vt.(vt_Round)) -> precommitAt h' r' s' = precommitAt h' r' s) /\
    (forall h' r', proposalAt h' r' s' = proposalAt h' r' s /\ prevoteAt h' r' s' = prevoteAt h' r' s);
  ssl_precommit_err key vt sig s s' e : ss_SavePrecommitAction key vt sig s = (s', Some e) -> sameActions s s';
  ssl_ph_fin ph s : sameFins s (ss_SaveProposedHeaderAction ph s).1;
  ssl_prevote_fin key vt sig s : sameFins s (ss_SavePrevoteAction key vt sig s).1;
  ssl_precommit_fin key vt sig s : sameFins s (ss_SavePrecommitAction key vt sig s).1;
  ssl_fin_ok h r hash vals app s s' : ss_SaveFinalization h r hash vals app s = (s', None) ->
    finAt h s = None /\ finAt h s' = Some (r, hash, vals, app) /\
    (forall h', h' <> h -> finAt h' s' = finAt h' s);
  ssl_fin_err h r hash vals app s s' e : ss_SaveFinalization h r hash vals app s = (s', Some e) ->
    sameFins s s';
  ssl_fin_actions h r hash vals app s : sameActions s (ss_SaveFinalization h r hash vals app s).1;
  ssl_hr_fin h r s : sameFins s (ss_SetStateMachineHeightRound h r s).1;
  ssl_hr_actions h r s : sameActions s (ss_SetStateMachineHeightRound h r s).1
}.

(** The position changes only by being set; a failed save may or may not have changed it. *)
Class SMPositionLaws (ST : Type) `{SMStores ST} := {
  ssl_pos_ph ph s : ss_StateMachineHeightRound (ss_SaveProposedHeaderAction ph s).1 = ss_StateMachineHeightRound s;
  ssl_pos_prevote key vt sig s :
    ss_StateMachineHeightRound (ss_SavePrevoteAction key vt sig s).1 = ss_StateMachineHeightRound s;
  ssl_pos_precommit key vt sig s :
    ss_StateMachineHeightRound (ss_SavePrecommitAction key vt sig s).1 = ss_StateMachineHeightRound s;
  ssl_pos_fin h r hash vals app s :
    ss_StateMachineHeightRound (ss_SaveFinalization h r hash vals app s).1 = ss_StateMachineHeightRound s;
  ssl_pos_set h r s h' r' :
    ss_StateMachineHeightRound (ss_SetStateMachineHeightRound h r s).1 = Ok (h', r') ->
    (h', r') = (h, r) \/ ss_StateMachineHeightRound s = Ok (h', r')
}.

(** ** The in-memory stores implement it *)
Record MemSMStores := MkMemSM {
  mm_actions : ActionStore.t; mm_fins : FinalizationStore.t; mm_pos : StateMachineStore.t
}.
Definition NewMemSMStores : MemSMStores := MkMemSM ∅ ∅ StateMachineStore.NewStateMachineStore.

#[export] Instance MemSMStores_SMStores : SMStores MemSMStores := {
  ss_SaveProposedHeaderAction ph s :=
    let x := ActionStore.SaveProposedHeaderAction ph s.(mm_actions) in ({| s with mm_actions := x.1 |}, x.2);
  ss_SavePrevoteAction key vt sig s :=
    let x := ActionStore.SavePrevoteAction key vt sig s.(mm_actions) in ({| s with mm_actions := x.1 |}, x.2);
  ss_SavePrecommitAction key vt sig s :=
    let x := ActionStore.SavePrecommitAction key vt sig s.(mm_actions) in ({| s with mm_actions := x.1 |}, x.2);
  ss_LoadActions h r s := ActionStore.LoadActions h r s.(mm_actions);
  ss_SaveFinalization h r hash vals app s :=
    let x := FinalizationStore.SaveFinalization h r hash vals app s.(mm_fins) in ({| s with mm_fins := x.1 |}, x.2);
  ss_LoadFinalizationByHeight h s := FinalizationStore.LoadFinalizationByHeight h s.(mm_fins);
  ss_SetStateMachineHeightRound h r s :=
    let x := StateMachineStore.SetStateMachineHeightRound h r s.(mm_pos) in ({| s with mm_pos := x.1 |}, x.2);
  ss_StateMachineHeightRound s := StateMachineStore.StateMachineHeightRound s.(mm_pos)
}.

Lemma mem_actionsAt h r (s : MemSMStores) :
  actionsAt h r s = default ActionStore.RoundActions_zero (s.(mm_actions) !! (h, r)).
Proof. unfold actionsAt; simpl. unfold ActionStore.LoadActions. by destruct (_ !! _). Qed.

Lemma mem_finAt h (s : MemSMStores) :
  finAt h s = (fun f => (f.(FinalizationStore.fin_R), f.(FinalizationStore.fin_BlockHash),
    f.(FinalizationStore.fin_ValSet), f.(FinalizationStore.fin_AppStateHash))) <$> s.(mm_fins) !! h.
Proof. unfold finAt; simpl. unfold FinalizationStore.LoadFinalizationByHeight. by destruct (_ !! _). Qed.

(** A save that touches one entry, read at any round. *)
Ltac mem_save :=
  repeat match goal with
  | H : context [if ?b then _ else _] |- _ => destruct b eqn:?; simplify_eq/=
  | H : context [match ?x with Some _ => _ | None => _ end] |- _ => destruct x eqn:?; simplify_eq/=
  end.
Ltac mem_read :=
  unfold prevoteAt, precommitAt, proposalAt; rewrite ?mem_actionsAt; simpl;
  rewrite ?lookup_insert; repeat case_decide; simplify_eq/=.

Lemma mem_sameActions (s s' : MemSMStores) : s'.(mm_actions) = s.(mm_actions) -> sameActions s s'.
Proof. intros E. split; intros h r; mem_read; by rewrite E. Qed.

Lemma mem_sameFins (s s' : MemSMStores) : s'.(mm_fins) = s.(mm_fins) -> sameFins s s'.
Proof. intros E h. by rewrite !mem_finAt, E. Qed.

Lemma signedAs_nil target : signedAs target nilHash = None.
Proof. done. Qed.

Lemma signedAs_Some target sig x : signedAs target sig = Some x -> x = (target, sig) /\ sig <> nilHash.
Proof. unfold signedAs. destruct (String.eqb_spec sig nilHash); [done|]. by intros [= <-]. Qed.

#[export] Instance MemSMStores_laws : SMStoresLaws MemSMStores.
Proof.
  split; simpl; intros; unfold ActionStore.SaveProposedHeaderAction, ActionStore.SavePrevoteAction,
    ActionStore.SavePrecommitAction, FinalizationStore.SaveFinalization in *; mem_save;
    try (by apply mem_sameActions); try (by apply mem_sameFins).
  all: repeat match goal with
    | H : negb (_ =? _) = false |- _ => apply negb_false_iff, Z.eqb_eq in H
    | H : negb (String.eqb _ _) = false |- _ => apply negb_false_iff, String.eqb_eq in H
    end.
  1: split_and!; [by mem_read|by mem_read|intros h' r' ?; by mem_read|intros h' r'; split; by mem_read].
  1, 2: split_and!; [mem_read; rewrite Heqb; done|by mem_read|intros h' r' ?; by mem_read|
          intros h' r'; split; by mem_read].
  all: rewrite !mem_finAt, Heqo; simpl; rewrite lookup_insert_eq; split_and!; [done|done|].
  all: intros h' Hh; rewrite !mem_finAt; simpl; by rewrite lookup_insert_ne.
Qed.

#[export] Instance MemSMStores_position_laws : SMPositionLaws MemSMStores.
Proof.
  split; intros *; try reflexivity. simpl. unfold StateMachineStore.StateMachineHeightRound. simpl.
  destruct (h =? 0); [done|]. intros [= <- <-]. by left.
Qed.

(** * The world of the state machine *)

(** A StateMachineRoundAction sets one of its three fields. *)
Definition ProposedHeader_zero : ProposedHeader :=
  MkProposedHeader Header_zero 0 None (MkAnnotations nilHash nilHash) nilHash.
Definition ScopedSignature_zero : ScopedSignature := MkScopedSignature nilHash nilHash nilHash.
Definition actPH (ph : ProposedHeader) : StateMachineRoundAction :=
  MkAction ph ScopedSignature_zero ScopedSignature_zero.
Definition actPrevote (sg : ScopedSignature) : StateMachineRoundAction :=
  MkAction ProposedHeader_zero sg ScopedSignature_zero.
Definition actPrecommit (sg : ScopedSignature) : StateMachineRoundAction :=
  MkAction ProposedHeader_zero ScopedSignature_zero sg.

(** The methods of RoundTimer. *)
Inductive TimerKind := ProposalTimer | PrevoteDelayTimer | PrecommitDelayTimer | CommitWaitTimer.

(** The trace of the state machine: what it sends, with the height and round it was in, and how the
    mirror answers its round entrances. *)
Inductive SMOut (P : Type) :=
| OutEntrance (re : StateMachineRoundEntrance)
| GotEntrance (r : RoundEntranceResponse P)
| OutRequest (h r : Z) (req : CMRequest P)
| OutAction (h r : Z) (act : StateMachineRoundAction)
| OutFinalize (h r : Z) (req : FinalizeBlockRequest)
| OutTimer (h r : Z) (kind : TimerKind)
| OutTerminate (msg : string).
Arguments OutEntrance {P}.
Arguments GotEntrance {P}.
Arguments OutRequest {P}.
Arguments OutAction {P}.
Arguments OutFinalize {P}.
Arguments OutTimer {P}.
Arguments OutTerminate {P}.

(** What another goroutine answers while a handler waits for it: the mirror, to a round entrance; the
    consensus manager, to an EnterRoundRequest; whether the consensus manager took a request within
    100ms; and the block data arrivals already queued. *)
Inductive Answer (P : Type) :=
| AnsEntrance (r : RoundEntranceResponse P)
| AnsEntered (e : option error)
| AnsTaken (taken : bool)
| AnsArrivals (l : list BlockDataArrival).
Arguments AnsEntrance {P}.
Arguments AnsEntered {P}.
Arguments AnsTaken {P}.
Arguments AnsArrivals {P}.

(** The world a handler acts on: the round lifecycle, the stores, the next unused channel, the timer
    that is running in the round timer's goroutine, the answers to come, and the trace. *)
Record SMWorld (P ST : Type) := MkSMWorld {
  sw_rlc : RoundLifecycle P;
  sw_st : ST;
  sw_next : nat;
  sw_timer : option nat;
  sw_answers : list (Answer P);
  sw_log : list (SMOut P)
}.
Arguments MkSMWorld {P ST}.
Arguments sw_rlc {P ST}.
Arguments sw_st {P ST}.
Arguments sw_next {P ST}.
Arguments sw_timer {P ST}.
Arguments sw_answers {P ST}.
Arguments sw_log {P ST}.

(** * The handlers' monad

    A handler returns, panics, or waits forever for an answer that does not come; in each case it
    leaves the world it got to, which is what a restart finds in the stores. *)
Inductive sres (W A : Type) : Type :=
| SRet (a : A) (w : W)
| SPanic (msg : string) (w : W)
| SBlocked (w : W).
Arguments SRet {W A}.
Arguments SPanic {W A}.
Arguments SBlocked {W A}.

Definition SM (P ST A : Type) : Type := SMWorld P ST -> sres (SMWorld P ST) A.

#[export] Instance SM_ret P ST : MRet (SM P ST) := fun A a w => SRet a w.
#[export] Instance SM_bind P ST : MBind (SM P ST) :=
  fun A C f m w =>
    match m w with SRet a w' => f a w' | SPanic s w' => SPanic s w' | SBlocked w' => SBlocked w' end.

Section monad.
Context {P ST : Type}.
Implicit Types (w : SMWorld P ST).

Definition getR : SM P ST (RoundLifecycle P) := fun w => SRet w.(sw_rlc) w.
Definition modR (f : RoundLifecycle P -> RoundLifecycle P) : SM P ST unit :=
  fun w => SRet tt {| w with sw_rlc := f w.(sw_rlc) |}.
Definition panicS {A} (msg : string) : SM P ST A := fun w => SPanic msg w.
Definition blockedS {A} : SM P ST A := fun w => SBlocked w.
Definition liftS {A} (m : outcome A) : SM P ST A :=
  fun w => match m with Ret a => SRet a w | Panic s => SPanic s w end.
Definition sendS (o : SMOut P) : SM P ST unit := fun w => SRet tt {| w with sw_log := w.(sw_log) ++ [o] |}.
Definition loadS {A} (f : ST -> A) : SM P ST A := fun w => SRet (f w.(sw_st)) w.
Definition storeS (f : ST -> ST * option error) : SM P ST (option error) :=
  fun w => let x := f w.(sw_st) in SRet x.2 {| w with sw_st := x.1 |}.

(** Waiting for an answer of the kind [f] accepts. *)
Definition answerS {A} (f : Answer P -> option A) : SM P ST A :=
  fun w => match w.(sw_answers) with
           | [] => SBlocked w
           | a :: l => match f a with Some x => SRet x {| w with sw_answers := l |} | None => SBlocked w end
           end.

(** ** Specifications

    [swp m w Q E]: if [m] returns from [w] its result and world satisfy [Q]; if it panics with a message
    or blocks, the message and the world it leaves satisfy [E]. *)
Definition swp {A} (m : SM P ST A) w (Q : A -> SMWorld P ST -> Prop)
  (E : option string -> SMWorld P ST -> Prop) : Prop :=
  match m w with SRet a w' => Q a w' | SPanic s w' => E (Some s) w' | SBlocked w' => E None w' end.

Lemma swp_ret {A} (a : A) w (Q : A -> SMWorld P ST -> Prop) E : Q a w -> swp (mret a) w Q E.
Proof. done. Qed.

Lemma swp_bind {A C} (m : SM P ST A) (f : A -> SM P ST C) w Q E :
  swp m w (fun a w' => swp (f a) w' Q E) E -> swp (m ≫= f) w Q E.
Proof. unfold swp, mbind, SM_bind. by destruct (m w). Qed.

Lemma swp_mono {A} (m : SM P ST A) w (Q Q' : A -> SMWorld P ST -> Prop) (E E' : option string -> SMWorld P ST -> Prop) :
  (forall a w', Q a w' -> Q' a w') -> (forall e w', E e w' -> E' e w') -> swp m w Q E -> swp m w Q' E'.
Proof. unfold swp. destruct (m w); auto. Qed.

Lemma swp_conj {A} (m : SM P ST A) w (Q Q' : A -> SMWorld P ST -> Prop) E E' :
  swp m w Q E -> swp m w Q' E' -> swp m w (fun a w' => Q a w' /\ Q' a w') (fun e w' => E e w' /\ E' e w').
Proof. unfold swp. destruct (m w); auto. Qed.

Lemma swp_getR w Q E : Q w.(sw_rlc) w -> swp getR w Q E.
Proof. done. Qed.

Lemma swp_modR f w Q E : Q tt {| w with sw_rlc := f w.(sw_rlc) |} -> swp (modR f) w Q E.
Proof. done. Qed.

Lemma swp_sendS o w Q E : Q tt {| w with sw_log := w.(sw_log) ++ [o] |} -> swp (sendS o) w Q E.
Proof. done. Qed.

Lemma swp_loadS {A} (f : ST -> A) w Q E : Q (f w.(sw_st)) w -> swp (loadS f) w Q E.
Proof. done. Qed.

Lemma swp_storeS f w Q E :
  (forall s e, f w.(sw_st) = (s, e) -> Q e {| w with sw_st := s |}) -> swp (storeS f) w Q E.
Proof. unfold swp, storeS. destruct (f _) as [s e]. simpl. auto. Qed.

Lemma swp_panicS {A} msg w (Q : A -> SMWorld P ST -> Prop) (E : option string -> SMWorld P ST -> Prop) :
  E (Some msg) w -> swp (panicS msg) w Q E.
Proof. done. Qed.

Lemma swp_blockedS {A} w (Q : A -> SMWorld P ST -> Prop) (E : option string -> SMWorld P ST -> Prop) :
  E None w -> swp blockedS w Q E.
Proof. done. Qed.

Lemma swp_liftS {A} (m : outcome A) w (Q : A -> SMWorld P ST -> Prop)
  (E : option string -> SMWorld P ST -> Prop) :
  (forall s, m = Panic s -> E (Some s) w) -> (forall a, m = Ret a -> Q a w) -> swp (liftS m) w Q E.
Proof. unfold swp, liftS. destruct m; auto. Qed.

Lemma swp_answerS {A} (f : Answer P -> option A) w (Q : A -> SMWorld P ST -> Prop)
  (E : option string -> SMWorld P ST -> Prop) :
  E None w -> (forall a x l, w.(sw_answers) = a :: l -> f a = Some x -> Q x {| w with sw_answers := l |}) ->
  swp (answerS f) w Q E.
Proof.
  unfold swp, answerS. intros He Hq. destruct (sw_answers w) as [|a l]; [done|].
  destruct (f a) eqn:Ef; eauto.
Qed.

Lemma swp_run {A} (m : SM P ST A) w Q E a w' : swp m w Q E -> m w = SRet a w' -> Q a w'.
Proof. unfold swp. intros H Hr. by rewrite Hr in H. Qed.
End monad.
