(* ===== verification/StateMachine.v ===== *)
(** The state machine (tm/tmengine/internal/tmstate/statemachine.go): entering rounds, following the
    view updates of the mirror through the steps of a round, voting, committing and finalizing.

    The context is live, so the helpers of gchan send and receive; a handler that waits for what never
    comes is blocked.  Logging, metrics and trace regions are left out. *)
From S2P Require Import Prelude.
From S2P Require Import Types.
From S2P Require Import Powers.
From S2P Require Import VoteSummary.
From S2P Require Import RoundView.
From S2P Require Import Stores.
From S2P Require Import Managers.
From S2P Require Import KernelBase.
From S2P Require Import RoundLifecycle.
From S2P Require Import StateMachineBase.

(** What NewStateMachine is configured with, channels aside. *)
Record SMConfig := MkSMConfig {
  m_signer : option Signer;
  m_hashScheme : HashScheme;
  m_genesis : Genesis
}.

Definition nilDeref : string := "runtime error: invalid memory address or nil pointer dereference".

Section statemachine.
Context {P ST : Type} `{!SMStores ST}.
Context (m : SMConfig).
Implicit Types (rlc : RoundLifecycle P) (vrv : VersionedRoundView P).
Local Abbreviation M := (SM P ST).

(** * Participation and filtering *)

Definition isParticipating rlc : bool :=
  match m.(m_signer) with
  | None => false
  | Some sg => existsb (fun v => pk_Equal v.(val_PubKey) sg.(sg_PubKey)) rlc.(rl_CurValSet).(Validators)
  end.

Definition matchesState rlc (ph : ProposedHeader) : bool :=
  String.eqb ph.(ph_Header).(PrevAppStateHash) rlc.(rl_PrevFinAppStateHash) &&
  ValidatorSet_Equal ph.(ph_Header).(hd_ValidatorSet) rlc.(rl_CurValSet) &&
  ValidatorSet_Equal ph.(ph_Header).(NextValidatorSet) rlc.(rl_PrevFinNextValSet).

Definition rejectMismatchedProposedHeaders (phs : list ProposedHeader) rlc : list ProposedHeader :=
  List.filter (matchesState rlc) phs.

(** slices.IndexFunc on the header hash. *)
Definition headerFor (hash : bytes) (phs : list ProposedHeader) : option ProposedHeader :=
  List.find (fun ph => String.eqb ph.(ph_Header).(Hash) hash) phs.

(** * Sends, timers and resets *)

Definition sendCM (req : CMRequest P) : M unit :=
  rlc ← getR; sendS (OutRequest rlc.(rl_H) rlc.(rl_R) req).

(** A send that gives up after 100ms, with a panic. *)
Definition sendCMTimed (req : CMRequest P) (msg : string) : M unit :=
  taken ← answerS (fun a => match a with AnsTaken b => Some b | _ => None end);
  if (taken : bool) then sendCM req else panicS msg.

Definition sendFinalize (hd : Header) (round : Z) : M unit :=
  rlc ← getR;
  sendS (OutFinalize rlc.(rl_H) rlc.(rl_R) (MkFinReq hd round rlc.(rl_FinalizeRespCh))).

(** A send on the actions channel: its buffer of three never fills, and a nil channel blocks. *)
Definition sendAction (act : StateMachineRoundAction) : M unit :=
  rlc ← getR;
  if rlc.(rl_OutgoingActionsCh) then sendS (OutAction rlc.(rl_H) rlc.(rl_R) act) else blockedS.

(** The goroutine of StandardRoundTimer refuses a timer while another is running. *)
Definition startTimer (kind : TimerKind) : M unit :=
  fun w => match w.(sw_timer) with
           | Some _ => SPanic "BUG: new timer requested before previous timer elapsed or was cancelled" w
           | None =>
               let t := w.(sw_next) in
               let rlc := w.(sw_rlc) in
               SRet tt {| w with sw_next := S t; sw_timer := Some t;
                                 sw_rlc := {| rlc with rl_StepTimer := Some t; rl_CancelTimer := Some t |};
                                 sw_log := w.(sw_log) ++ [OutTimer rlc.(rl_H) rlc.(rl_R) kind] |}
           end.

(** Cancelling an elapsed or cancelled timer does nothing. *)
Definition stopTimer (t : nat) : M unit :=
  fun w => SRet tt {| w with sw_timer := if bool_decide (w.(sw_timer) = Some t) then None else w.(sw_timer) |}.

(** rlc.CancelTimer() and the two assignments that follow it. *)
Definition cancelStepTimer : M unit :=
  rlc ← getR;
  match rlc.(rl_CancelTimer) with
  | None => panicS nilDeref
  | Some t =>
      _ ← stopTimer t;
      modR (fun rlc => {| rlc with rl_StepTimer := None; rl_CancelTimer := None |})
  end.

Definition makeChans (h r : Z) : M unit :=
  fun w => SRet tt {| w with sw_rlc := RLC_Reset h r w.(sw_next) w.(sw_rlc);
                             sw_next := (w.(sw_next) + resetChans)%nat |}.

Definition resetRLC (h r : Z) : M unit :=
  rlc ← getR;
  _ ← match rlc.(rl_CancelTimer) with Some t => stopTimer t | None => mret tt end;
  makeChans h r.

Definition setStep (s : Step) : M unit := modR (fun rlc => {| rlc with rl_S := s |}).

(** * Requests to the consensus strategy *)

Definition markNew (phs : list ProposedHeader) (reason : ConsiderReason) : M ConsiderReason :=
  fun w => let x := MarkReasonNewHashes phs reason w.(sw_rlc) in SRet x.1 {| w with sw_rlc := x.2 |}.

Definition decidePrecommit vrv : M unit :=
  rlc ← getR; sendCM (DecidePrecommitRequest (vSummary vrv) rlc.(rl_PrecommitHashCh)).

Definition considerPHs (send : CMRequest P -> M unit) (phs : list ProposedHeader) (majority : bool) : M unit :=
  reason ← markNew phs ConsiderReason_zero;
  rlc ← getR;
  send (ConsiderProposedBlocksRequest phs {| reason with MajorityVotingPowerPresent := majority |}
          rlc.(rl_PrevoteHashCh)).

Definition choosePH (send : CMRequest P -> M unit) (phs : list ProposedHeader) : M unit :=
  rlc ← getR; send (ChooseProposedBlockRequest phs rlc.(rl_PrevoteHashCh)).

(** A consideration because of data that arrived: no new hashes are marked. *)
Definition considerArrived (phs : list ProposedHeader) (ids : list bytes) : M unit :=
  rlc ← getR; sendCM (ConsiderProposedBlocksRequest phs (MkReason [] ids false) rlc.(rl_PrevoteHashCh)).

Definition clearConsidered : M unit := modR (fun rlc => {| rlc with rl_PrevConsideredHashes := [] |}).

(** * Entering rounds *)

(** beginCommit: a missing header leaves the named result false. *)
Definition beginCommit vrv : M bool :=
  _ ← setStep StepCommitWait;
  _ ← startTimer CommitWaitTimer;
  match headerFor (vSummary vrv).(MostVotedPrecommitHash) (vPHs vrv) with
  | None => mret false
  | Some ph => _ ← sendFinalize ph.(ph_Header) (vRound vrv); mret true
  end.

Definition startInitialTimer : M unit :=
  rlc ← getR;
  match rlc.(rl_S) with
  | StepAwaitingProposal => startTimer ProposalTimer
  | StepAwaitingPrevotes | StepAwaitingPrecommits => mret tt
  | StepCommitWait => startTimer CommitWaitTimer
  | _ => panicS "BUG: no initial timer configured for step"
  end.

Definition setVRV vrv : M unit := modR (fun rlc => {| rlc with rl_VRV := Some vrv |}).

(** The end of beginRoundLive. *)
Definition settleStep (s : Step) vrv : M bool :=
  _ ← modR (fun rlc => {| rlc with rl_S := s; rl_VRV := Some vrv |});
  _ ← startInitialTimer;
  mret true.

(** beginRoundLive, with the advanceRound it may call. *)
Definition beginRoundLive (advanceRound : M bool) (initVRV : VersionedRoundView P) : M bool :=
  curStep ← liftS (GetStepFromVoteSummary (vSummary initVRV));
  match curStep with
  | StepAwaitingProposal =>
      rlc ← getR;
      let okPHs := rejectMismatchedProposedHeaders (vPHs initVRV) rlc in
      _ ← match okPHs with [] => mret tt | _ :: _ => considerPHs sendCM okPHs false end;
      settleStep curStep initVRV
  | StepAwaitingPrevotes => panicS "BUG: tsi.GetStepFromVoteSummary must not return tsi.StepAwaitingPrevotes"
  | StepAwaitingPrecommits => _ ← decidePrecommit initVRV; settleStep curStep initVRV
  | StepCommitWait =>
      if String.eqb (vSummary initVRV).(MostVotedPrecommitHash) nilHash then advanceRound
      else
        ok ← beginCommit initVRV;
        if (ok : bool) then _ ← setVRV initVRV; mret true else mret false
  | _ => panicS "BUG: unhandled initial step"
  end.

Definition IsVRV (r : RoundEntranceResponse P) : bool := 0 <? vHeight r.(rer_VRV).

Definition awaitEntrance : M (RoundEntranceResponse P) :=
  r ← answerS (fun a => match a with AnsEntrance r => Some r | _ => None end);
  _ ← sendS (GotEntrance r);
  mret r.

(** EnterRound on the consensus strategy. *)
Definition enterRound (rv : RoundView P) : M (option error) :=
  rlc ← getR;
  _ ← sendCM (EnterRoundRequest rv rlc.(rl_ProposalCh));
  answerS (fun a => match a with AnsEntered e => Some e | _ => None end).

Definition advance (advanceRound : M bool) (h r : Z) : M bool :=
  rlc ← getR;
  let re := MkEntrance h r (sg_PubKey <$> m.(m_signer)) (isParticipating rlc) rlc.(rl_HeightCommitted) in
  _ ← sendS (OutEntrance re);
  rer ← awaitEntrance;
  if IsVRV rer then
    _ ← modR (fun rlc => {| rlc with rl_OutgoingActionsCh := re.(re_Actions) |});
    err ← enterRound rer.(rer_VRV).(vrv_RV);
    match err with
    | Some _ => panicS "FATAL: error when calling ConsensusStrategy.EnterRound while advancing height"
    | None => beginRoundLive advanceRound rer.(rer_VRV)
    end
  else
    _ ← modR MarkCatchingUp;
    _ ← sendFinalize rer.(rer_CH).(ch_Header) rer.(rer_CH).(ch_Proof).(cp_Round);
    mret true.

(** Setting the new position, and then advance. *)
Definition moveTo (advanceRound : M bool) (h r : Z) : M bool :=
  _ ← resetRLC h r;
  err ← storeS (ss_SetStateMachineHeightRound h r);
  match err with Some _ => mret false | None => advance advanceRound h r end.

Definition advanceRoundBody (advanceRound : M bool) : M bool :=
  rlc ← getR; moveTo advanceRound rlc.(rl_H) (u32 (rlc.(rl_R) + 1)).

(** advanceRound calls itself through beginRoundLive, once per round entrance the mirror answers with a
    round that already voted nil; [n] bounds these answers. *)
Fixpoint advanceRoundN (n : nat) : M bool :=
  match n with O => blockedS | S n => advanceRoundBody (advanceRoundN n) end.

Definition advanceRound : M bool := fun w => advanceRoundN (S (length w.(sw_answers))) w.

Definition advanceHeight : M bool :=
  _ ← modR CycleFinalization;
  rlc ← getR;
  moveTo advanceRound (u64 (rlc.(rl_H) + 1)) 0.

(** * View updates *)

Definition derefVRV : M (VersionedRoundView P) :=
  rlc ← getR; match rlc.(rl_VRV) with None => panicS nilDeref | Some v => mret v end.

(** The results of advanceRound and beginCommit are ignored while following views. *)
Definition ignore (act : M bool) : M unit := _ ← act; mret tt.

(** A precommit majority: for nil, for a block, or split. *)
Definition onPrecommitMajority (maj : Z) vrv : M unit :=
  let vs := vSummary vrv in
  if maj <=? precommitPow vs then
    if String.eqb vs.(MostVotedPrecommitHash) nilHash then ignore advanceRound
    else ignore (beginCommit vrv)
  else
    _ ← setStep StepPrecommitDelay;
    _ ← startTimer PrecommitDelayTimer;
    decidePrecommit vrv.

Definition handleProposalViewUpdate vrv : M unit :=
  let vs := vSummary vrv in
  min ← liftS (ByzantineMinority vs.(AvailablePower));
  maj ← liftS (ByzantineMajority vs.(AvailablePower));
  if maj <=? vs.(TotalPrecommitPower) then
    _ ← cancelStepTimer;
    onPrecommitMajority maj vrv
  else if min <=? vs.(TotalPrecommitPower) then
    _ ← cancelStepTimer;
    _ ← setStep StepAwaitingPrecommits;
    decidePrecommit vrv
  else if maj <=? vs.(TotalPrevotePower) then
    _ ← cancelStepTimer;
    rlc ← getR;
    let phs := rejectMismatchedProposedHeaders (vPHs vrv) rlc in
    if maj <=? prevotePow vs then
      _ ← setStep StepAwaitingPrecommits;
      _ ← choosePH (fun req => sendCMTimed req "TODO: handle blocked send to ChooseProposedBlockRequests") phs;
      clearConsidered
    else
      _ ← setStep StepPrevoteDelay;
      _ ← startTimer PrevoteDelayTimer;
      match phs with
      | [] => mret tt
      | _ :: _ =>
          considerPHs (fun req => sendCMTimed req "TODO: handle blocked send to ConsiderProposedBlocksRequests")
            phs true
      end
  else
    cur ← derefVRV;
    if bool_decide (length (vPHs cur) < length (vPHs vrv))%nat then
      rlc ← getR;
      let incoming := rejectMismatchedProposedHeaders (vPHs vrv) rlc in
      let have := rejectMismatchedProposedHeaders (vPHs cur) rlc in
      if bool_decide (length incoming <= length have)%nat then mret tt
      else considerPHs
             (fun req => sendCMTimed req "TODO: handle blocked send to ConsiderProposedBlocksRequests")
             incoming false
    else mret tt.

(** Cancelling the timer when the step is the one that has it. *)
Definition cancelIfStep (s : Step) : M unit :=
  rlc ← getR; if bool_decide (rlc.(rl_S) = s) then cancelStepTimer else mret tt.

Definition handlePrevoteViewUpdate vrv : M unit :=
  let vs := vSummary vrv in
  maj ← liftS (ByzantineMajority vs.(AvailablePower));
  if maj <=? vs.(TotalPrecommitPower) then
    _ ← cancelIfStep StepPrevoteDelay;
    onPrecommitMajority maj vrv
  else if maj <=? vs.(TotalPrevotePower) then
    if maj <=? prevotePow vs then
      _ ← cancelIfStep StepPrevoteDelay;
      _ ← setStep StepAwaitingPrecommits;
      decidePrecommit vrv
    else
      rlc ← getR;
      if bool_decide (rlc.(rl_S) = StepAwaitingPrevotes) then
        _ ← setStep StepPrevoteDelay; startTimer PrevoteDelayTimer
      else mret tt
  else mret tt.

Definition handlePrecommitViewUpdate vrv : M unit :=
  let vs := vSummary vrv in
  maj ← liftS (ByzantineMajority vs.(AvailablePower));
  if maj <=? vs.(TotalPrecommitPower) then
    if maj <=? precommitPow vs then
      if String.eqb vs.(MostVotedPrecommitHash) nilHash then ignore advanceRound
      else
        _ ← cancelIfStep StepPrecommitDelay;
        ignore (beginCommit vrv)
    else if vs.(TotalPrecommitPower) =? vs.(AvailablePower) then ignore advanceRound
    else
      rlc ← getR;
      if bool_decide (rlc.(rl_S) = StepAwaitingPrecommits) then
        _ ← setStep StepPrecommitDelay; startTimer PrecommitDelayTimer
      else mret tt
  else mret tt.

Definition handleCommitWaitViewUpdate vrv : M unit :=
  rlc ← getR;
  match rlc.(rl_FinalizeRespCh) with
  | None => mret tt
  | Some _ =>
      cur ← derefVRV;
      match headerFor (vSummary cur).(MostVotedPrecommitHash) (vPHs cur) with
      | Some _ => mret tt
      | None =>
          match headerFor (vSummary vrv).(MostVotedPrecommitHash) (vPHs vrv) with
          | None => mret tt
          | Some ph => sendFinalize ph.(ph_Header) (vRound vrv)
          end
      end
  end.

Definition handleJumpAhead vrv : M unit :=
  rlc ← getR;
  if negb (vHeight vrv =? rlc.(rl_H)) then panicS "BUG: attempted to jump ahead to another height"
  else if vRound vrv <=? rlc.(rl_R) then panicS "BUG: attempted to jump ahead to an earlier round"
  else ignore advanceRound.

Definition followView vrv : M unit :=
  rlc ← getR;
  match rlc.(rl_S) with
  | StepAwaitingProposal => handleProposalViewUpdate vrv
  | StepAwaitingPrevotes | StepPrevoteDelay => handlePrevoteViewUpdate vrv
  | StepAwaitingPrecommits | StepPrecommitDelay => handlePrecommitViewUpdate vrv
  | StepCommitWait | StepAwaitingFinalization => handleCommitWaitViewUpdate vrv
  | StepInvalid => panicS "TODO: handle view update for step"
  end.

Definition handleViewUpdate (v : StateMachineRoundView P) : M unit :=
  let vrv := v.(smrv_VRV) in
  if vHeight vrv =? 0 then
    match v.(JumpAheadRoundView) with
    | None => panicS "BUG: received view update with empty VRV and nil JumpAheadRoundView"
    | Some j => handleJumpAhead j
    end
  else
    rlc ← getR;
    if negb (vHeight vrv =? rlc.(rl_H)) || negb (vRound vrv =? rlc.(rl_R)) then mret tt
    else
      cur ← derefVRV;
      if Version vrv <=? Version cur then sendS (OutTerminate "state machine got non-increasing round view")
      else
        _ ← followView vrv;
        cur ← derefVRV;
        _ ← if (vHeight vrv =? vHeight cur) && (vRound vrv =? vRound cur) then setVRV vrv else mret tt;
        match v.(JumpAheadRoundView) with None => mret tt | Some j => handleJumpAhead j end.

(** * Actions *)

Definition recordProposedHeader (p : Proposal) : M bool :=
  rlc ← getR;
  vrv ← derefVRV;
  match m.(m_signer) with
  | None => panicS nilDeref
  | Some sg =>
      let hd := MkHeader nilHash rlc.(rl_PrevBlockHash) rlc.(rl_H) (vPCP vrv) rlc.(rl_CurValSet)
                  rlc.(rl_PrevFinNextValSet) p.(pr_DataID) rlc.(rl_PrevFinAppStateHash) p.(BlockAnnotations) in
      match hs_Block m.(m_hashScheme) hd with
      | Err _ => mret false
      | Ok hash =>
          let ph := MkProposedHeader {| hd with Hash := hash |} rlc.(rl_R) (Some sg.(sg_PubKey))
                      p.(ProposalAnnotations) nilHash in
          match sg_SignProposedHeader sg ph with
          | Err _ => mret false
          | Ok sig =>
              let ph := {| ph with ph_Signature := sig |} in
              err ← storeS (ss_SaveProposedHeaderAction ph);
              match err with Some _ => mret false | None => _ ← sendAction (actPH ph); mret true end
          end
      end
  end.

(** Signing, saving and then sending a vote. *)
Definition recordVote (sign : Signer -> VoteTarget -> result (bytes * bytes))
  (save : PubKey -> VoteTarget -> bytes -> ST -> ST * option error)
  (act : ScopedSignature -> StateMachineRoundAction) (targetHash : bytes) : M bool :=
  rlc ← getR;
  if isParticipating rlc then
    match m.(m_signer) with
    | None => mret true
    | Some sg =>
        let vt := MkVoteTarget rlc.(rl_H) rlc.(rl_R) targetHash in
        match sign sg vt with
        | Err _ => mret false
        | Ok (signContent, sig) =>
            err ← storeS (save sg.(sg_PubKey) vt sig);
            match err with
            | Some _ => mret false
            | None => _ ← sendAction (act (MkScopedSignature targetHash signContent sig)); mret true
            end
        end
    end
  else mret true.

Definition recordPrevote (targetHash : bytes) : M bool :=
  ok ← recordVote sg_Prevote ss_SavePrevoteAction actPrevote targetHash;
  if (ok : bool) then
    rlc ← getR;
    _ ← if bool_decide (rlc.(rl_S) = StepAwaitingProposal)
        then _ ← setStep StepAwaitingPrevotes; cancelStepTimer else mret tt;
    mret true
  else mret false.

Definition recordPrecommit (targetHash : bytes) : M bool :=
  recordVote sg_Precommit ss_SavePrecommitAction actPrecommit targetHash.

(** * Finalization *)

Definition handleFinalization (resp : FinalizeBlockResponse) : M bool :=
  match resp.(fp_Validators) with
  | [] => panicS "BUG: application did not set validators in finalization response"
  | _ :: _ =>
      match NewValidatorSet resp.(fp_Validators) m.(m_hashScheme) with
      | Err _ => mret false
      | Ok vals =>
          _ ← modR (fun rlc => {| rlc with rl_FinalizedValSet := vals;
                                           rl_FinalizedAppStateHash := resp.(fp_AppStateHash);
                                           rl_FinalizedBlockHash := resp.(fp_BlockHash);
                                           rl_FinalizeRespCh := None |});
          rlc ← getR;
          if negb (resp.(fp_Height) =? rlc.(rl_H)) || negb (resp.(fp_Round) =? rlc.(rl_R))
          then panicS "BUG: driver sent height/round differing from current"
          else
            err ← storeS (ss_SaveFinalization rlc.(rl_H) rlc.(rl_R) resp.(fp_BlockHash) vals resp.(fp_AppStateHash));
            match err with
            | Some _ => mret false
            | None =>
                if bool_decide (rlc.(rl_S) = StepAwaitingFinalization) then advanceHeight else mret true
            end
      end
  end.

(** The end of the commit wait: without a finalization, wait for it. *)
Definition commitWaitOver : M bool :=
  rlc ← getR;
  match rlc.(rl_FinalizedValSet).(Validators) with
  | [] => _ ← setStep StepAwaitingFinalization; mret true
  | _ :: _ => advanceHeight
  end.

Definition handleTimerElapsed : M bool :=
  rlc ← getR;
  match rlc.(rl_S) with
  | StepAwaitingProposal =>
      vrv ← derefVRV;
      _ ← choosePH sendCM (rejectMismatchedProposedHeaders (vPHs vrv) rlc);
      _ ← clearConsidered;
      _ ← setStep StepAwaitingPrevotes;
      _ ← cancelStepTimer;
      mret true
  | StepPrevoteDelay =>
      vrv ← derefVRV;
      _ ← decidePrecommit vrv;
      _ ← setStep StepAwaitingPrecommits;
      _ ← cancelStepTimer;
      mret true
  | StepPrecommitDelay => _ ← cancelStepTimer; advanceRound
  | StepCommitWait =>
      _ ← modR (fun rlc => {| rlc with rl_CommitWaitElapsed := true |});
      _ ← cancelStepTimer;
      commitWaitOver
  | _ => panicS "BUG: unhandled timer elapse for step"
  end.

Definition handleHeightCommitted : M bool :=
  _ ← modR (fun rlc => {| rlc with rl_HeightCommitted := None; rl_CommitWaitElapsed := true |});
  rlc ← getR;
  _ ← match rlc.(rl_CancelTimer) with Some t => stopTimer t | None => mret tt end;
  _ ← modR (fun rlc => {| rlc with rl_StepTimer := None; rl_CancelTimer := None |});
  match rlc.(rl_S) with
  | StepAwaitingFinalization => mret true
  | StepCommitWait => commitWaitOver
  | _ => panicS "BUG: expected to be on step commit wait"
  end.

(** The data IDs that arrived: the first arrival's, and those queued for the same round. *)
Definition arrivedIDs (a : BlockDataArrival) (l : list BlockDataArrival) : list bytes :=
  a.(ar_ID) :: map ar_ID
    (List.filter (fun x => (x.(ar_Height) =? a.(ar_Height)) && (x.(ar_Round) =? a.(ar_Round))) l).

Definition handleBlockDataArrival (a : BlockDataArrival) : M bool :=
  rlc ← getR;
  match rlc.(rl_PrevoteHashCh) with
  | None => mret true
  | Some _ =>
      if negb (a.(ar_Height) =? rlc.(rl_H)) || negb (a.(ar_Round) =? rlc.(rl_R)) then mret true
      else
        vrv ← derefVRV;
        let okPHs := rejectMismatchedProposedHeaders (vPHs vrv) rlc in
        match okPHs with
        | [] => mret true
        | _ :: _ =>
            queued ← answerS (fun x => match x with AnsArrivals l => Some l | _ => None end);
            let ids := arrivedIDs a queued in
            let updated := List.filter (fun id => bool_decide (id ∈ ids))
                             (map (fun ph => ph.(ph_Header).(DataID)) okPHs) in
            match updated with
            | [] => mret true
            | _ :: _ =>
                _ ← considerArrived okPHs updated;
                mret true
            end
        end
  end.

(** * Starting *)

Definition loadFin (h : Z) : M (result (Z * bytes * ValidatorSet * bytes)) := loadS (ss_LoadFinalizationByHeight h).

(** The position to start from: the stored one or the genesis one, and the height after it when the
    height is already finalized. *)
Definition startPosition (s : ST) : result (Z * Z) :=
  match (match ss_StateMachineHeightRound s with
         | Ok hr => Ok hr
         | Err e => if bool_decide (e = ErrStoreUninitialized) then Ok (m.(m_genesis).(g_InitialHeight), 0)
                    else Err e
         end) with
  | Err e => Err e
  | Ok (h, r) =>
      match ss_LoadFinalizationByHeight h s with Ok _ => Ok (u64 (h + 1), 0) | Err _ => Ok (h, r) end
  end.

Definition isGenesis (h r : Z) : bool := (h =? m.(m_genesis).(g_InitialHeight)) && (r =? 0).

(** The validators of the starting height and of the one before it: false when a store fails. *)
Definition loadValSets (h r : Z) : M bool :=
  let g := m.(m_genesis) in
  if isGenesis h r then
    _ ← modR (fun rlc => {| rlc with rl_CurValSet := g.(g_ValidatorSet); rl_PrevValSet := g.(g_ValidatorSet) |});
    mret true
  else
    cur ← loadFin (u64 (h - 2));
    match cur with
    | Err _ => mret false
    | Ok (_, _, vals, _) =>
        _ ← modR (fun rlc => {| rlc with rl_CurValSet := vals |});
        if g.(g_InitialHeight) <? u64 (h - 3) then
          prev ← loadFin (u64 (h - 3));
          match prev with
          | Err _ => mret false
          | Ok (_, _, pvals, _) => _ ← modR (fun rlc => {| rlc with rl_PrevValSet := pvals |}); mret true
          end
        else _ ← modR (fun rlc => {| rlc with rl_PrevValSet := g.(g_ValidatorSet) |}); mret true
    end.

(** What the starting round builds on. *)
Definition loadPrevious (h r : Z) (vrv : VersionedRoundView P) : M bool :=
  let g := m.(m_genesis) in
  if isGenesis h r then
    _ ← modR (fun rlc => {| rlc with rl_PrevFinNextValSet := g.(g_ValidatorSet);
                                     rl_PrevFinAppStateHash := g.(g_CurrentAppStateHash) |});
    match Genesis_Header g m.(m_hashScheme) with
    | (_, Some _) => panicS "FATAL: failed to generate genesis block hash"
    | (b, None) => _ ← modR (fun rlc => {| rlc with rl_PrevBlockHash := b.(Hash) |}); mret true
    end
  else
    fin ← loadFin (u64 (h - 1));
    match fin with
    | Err _ => mret false
    | Ok (_, hash, vals, app) =>
        _ ← modR (fun rlc => {| rlc with rl_PrevBlockHash := hash; rl_PrevFinNextValSet := vals;
                                         rl_PrevFinAppStateHash := app; rl_VRV := Some (VRV_Clone vrv) |});
        mret true
    end.

Definition newChan : M nat := fun w => SRet w.(sw_next) {| w with sw_next := S w.(sw_next) |}.

(** sendInitialActionSet: the response with its mismatched headers removed, and whether it succeeded. *)
Definition sendInitialActionSet : M (option (RoundEntranceResponse P)) :=
  hc ← newChan;
  pos ← loadS startPosition;
  match pos with
  | Err _ => mret None
  | Ok (h, r) =>
      ok ← loadValSets h r;
      if negb ok then mret None
      else
        rlc ← getR;
        let re := MkEntrance h r (sg_PubKey <$> m.(m_signer)) (isParticipating rlc) (Some hc) in
        _ ← sendS (OutEntrance re);
        rer ← awaitEntrance;
        _ ← resetRLC h r;
        _ ← modR (fun rlc => {| rlc with rl_HeightCommitted := Some hc |});
        if IsVRV rer then
          _ ← modR (fun rlc => {| rlc with rl_OutgoingActionsCh := re.(re_Actions) |});
          ok ← loadPrevious h r rer.(rer_VRV);
          if negb ok then mret None
          else
            rlc ← getR;
            mret (Some {| rer with rer_VRV := vrv_upd (fun rv =>
              {| rv with rv_ProposedHeaders := rejectMismatchedProposedHeaders (vPHs rer.(rer_VRV)) rlc |})
              rer.(rer_VRV) |})
        else
          _ ← sendFinalize rer.(rer_CH).(ch_Header) rer.(rer_CH).(ch_Proof).(cp_Round);
          mret (Some rer)
  end.

Definition isUnknownRound (h r : Z) (e : error) : bool := errAs (fun x => bool_decide (x = RoundUnknownError h r)) e.

(** The signer's own proposed header: the round view has it, or the action store does, in which case it is
    sent again.  None is a failed store; the result is the view with the header. *)
Definition resumeProposal (vrv : VersionedRoundView P) : M (option (VersionedRoundView P)) :=
  match m.(m_signer) with
  | None => mret (Some vrv)
  | Some sg =>
      if existsb (RoundStore.sameProposer sg.(sg_PubKey)) (vPHs vrv) then
        _ ← modR (fun rlc => {| rlc with rl_ProposalCh := None |}); mret (Some vrv)
      else
        rlc ← getR;
        loaded ← loadS (ss_LoadActions rlc.(rl_H) rlc.(rl_R));
        let resend (ph : ProposedHeader) : M (option (VersionedRoundView P)) :=
          _ ← modR (fun rlc => {| rlc with rl_ProposalCh := None |});
          _ ← sendAction (actPH ph);
          mret (Some (vrv_upd (fun rv => {| rv with rv_ProposedHeaders := rv.(rv_ProposedHeaders) ++ [ph] |}) vrv)) in
        match loaded with
        | Err e => if isUnknownRound rlc.(rl_H) rlc.(rl_R) e then mret (Some vrv) else mret None
        | Ok ra =>
            match ra.(ActionStore.ra_ProposedHeader) with
            | Some ph => if ph.(ph_Header).(Height) =? 0 then mret (Some vrv) else resend ph
            | None => mret (Some vrv)
            end
        end
  end.

Definition initializeRLC : M bool :=
  su ← sendInitialActionSet;
  match su with
  | None => mret false
  | Some rer =>
      if negb (IsVRV rer) then mret true
      else
        resumed ← resumeProposal rer.(rer_VRV);
        match resumed with
        | None => mret false
        | Some vrv =>
            err ← enterRound vrv.(vrv_RV);
            match err with Some _ => mret false | None => beginRoundLive advanceRound vrv end
        end
  end.

(** * The main loop *)

(** What a case of the select receives. *)
Inductive SMInput :=
| InView (v : StateMachineRoundView P)
| InProposal (c : nat) (p : Proposal)
| InPrevoteHash (c : nat) (he : HashSelection)
| InPrecommitHash (c : nat) (he : HashSelection)
| InFinalization (c : nat) (resp : FinalizeBlockResponse)
| InTimer (t : nat)
| InHeightCommitted (c : nat)
| InArrival (a : BlockDataArrival).

(** The case receives from a channel of the round: nil channels are never ready. *)
Definition smReady rlc (i : SMInput) : Prop :=
  match i with
  | InView _ | InArrival _ => True
  | InProposal c _ => rlc.(rl_ProposalCh) = Some c
  | InPrevoteHash c _ => rlc.(rl_PrevoteHashCh) = Some c
  | InPrecommitHash c _ => rlc.(rl_PrecommitHashCh) = Some c
  | InFinalization c _ => rlc.(rl_FinalizeRespCh) = Some c
  | InTimer t => rlc.(rl_StepTimer) = Some t
  | InHeightCommitted c => rlc.(rl_HeightCommitted) = Some c
  end.

(** The two vote channels: an error of the strategy stops the state machine. *)
Definition onSelection (he : HashSelection) (record : bytes -> M bool)
  (close : RoundLifecycle P -> RoundLifecycle P) : M bool :=
  match he.(hs_Err) with
  | Some _ => mret false
  | None =>
      ok ← record he.(hs_Hash);
      if (ok : bool) then _ ← modR close; mret true else mret false
  end.

Definition handleLiveEvent (i : SMInput) : M bool :=
  match i with
  | InView v => _ ← handleViewUpdate v; mret true
  | InProposal _ p =>
      ok ← recordProposedHeader p;
      if (ok : bool) then _ ← modR (fun rlc => {| rlc with rl_ProposalCh := None |}); mret true else mret false
  | InPrevoteHash _ he => onSelection he recordPrevote (fun rlc => {| rlc with rl_PrevoteHashCh := None |})
  | InPrecommitHash _ he => onSelection he recordPrecommit (fun rlc => {| rlc with rl_PrecommitHashCh := None |})
  | InFinalization _ resp => handleFinalization resp
  | InTimer _ => handleTimerElapsed
  | InHeightCommitted _ => handleHeightCommitted
  | InArrival a => handleBlockDataArrival a
  end.

(** One turn of handleCatchupEvent's loop, which only finalizations leave the wait of. *)
Definition handleCatchupEvent (resp : FinalizeBlockResponse) : M bool :=
  _ ← setStep StepAwaitingFinalization;
  handleFinalization resp.
End statemachine.
Arguments SMInput : clear implicits.
