(* ===== verification/StateMachineSpec.v ===== *)
(** The abstract round protocol the state machine implements: its position is a height, a round and a
    step, and each event it handles moves the position only along the transitions below, each with the
    votes, timer or finalization that justify it. *)
From S2P Require Import Prelude.
From S2P Require Import Types.
From S2P Require Import Powers.
From S2P Require Import VoteSummary.
From S2P Require Import RoundView.
From S2P Require Import Managers.
From S2P Require Import KernelBase.
From S2P Require Import RoundLifecycle.
From S2P Require Import StateMachineBase.
From S2P Require Import StateMachine.
From stdpp Require Import relations.
Local Open Scope Z_scope.

Record Pos := MkPos { p_H : Z; p_R : Z; p_S : Step }.

Definition posOf {P} (rlc : RoundLifecycle P) : Pos := MkPos rlc.(rl_H) rlc.(rl_R) rlc.(rl_S).

(** The steps before a commit is decided. *)
Definition voting (s : Step) : Prop :=
  match s with
  | StepAwaitingProposal | StepAwaitingPrevotes | StepPrevoteDelay | StepAwaitingPrecommits
  | StepPrecommitDelay => True
  | _ => False
  end.

(** What the votes of the round justify.  [maj] and [min] are the thresholds of the available power. *)
Inductive viewStep (vs : VoteSummary) (maj min : Z) : Step -> Step -> Prop :=
| vs_minority_precommits :
    min <= vs.(TotalPrecommitPower) -> viewStep vs maj min StepAwaitingProposal StepAwaitingPrecommits
| vs_prevotes_split s :
    s = StepAwaitingProposal \/ s = StepAwaitingPrevotes ->
    maj <= vs.(TotalPrevotePower) -> prevotePow vs < maj -> viewStep vs maj min s StepPrevoteDelay
| vs_prevotes_agree s :
    s = StepAwaitingProposal \/ s = StepAwaitingPrevotes \/ s = StepPrevoteDelay ->
    maj <= vs.(TotalPrevotePower) -> maj <= prevotePow vs -> viewStep vs maj min s StepAwaitingPrecommits
| vs_precommits_split s :
    voting s -> maj <= vs.(TotalPrecommitPower) -> precommitPow vs < maj ->
    viewStep vs maj min s StepPrecommitDelay
| vs_commit s :
    voting s -> maj <= vs.(TotalPrecommitPower) -> maj <= precommitPow vs ->
    vs.(MostVotedPrecommitHash) <> nilHash -> viewStep vs maj min s StepCommitWait.

(** The votes of the round end it without a commit. *)
Definition viewEnds (vs : VoteSummary) (maj : Z) (s : Step) : Prop :=
  voting s /\ maj <= vs.(TotalPrecommitPower) /\
  ((maj <= precommitPow vs /\ vs.(MostVotedPrecommitHash) = nilHash) \/
   (vs.(TotalPrecommitPower) = vs.(AvailablePower) /\ (s = StepAwaitingPrecommits \/ s = StepPrecommitDelay))).

Section protocol.
Context {P : Type}.

(** The view is of the position's round, and [maj] and [min] are its thresholds. *)
Definition viewFor (vrv : VersionedRoundView P) (p : Pos) (maj min : Z) : Prop :=
  vHeight vrv = p.(p_H) /\ vRound vrv = p.(p_R) /\
  ByzantineMajority (vSummary vrv).(AvailablePower) = Ret maj /\
  ByzantineMinority (vSummary vrv).(AvailablePower) = Ret min.

Definition stepMove (i : SMInput P) (p : Pos) (s' : Step) : Prop :=
  match i with
  | InView v => exists maj min, viewFor v.(smrv_VRV) p maj min /\ viewStep (vSummary v.(smrv_VRV)) maj min p.(p_S) s'
  | InPrevoteHash _ _ => p.(p_S) = StepAwaitingProposal /\ s' = StepAwaitingPrevotes
  | InTimer _ => (p.(p_S) = StepAwaitingProposal /\ s' = StepAwaitingPrevotes) \/
                 (p.(p_S) = StepPrevoteDelay /\ s' = StepAwaitingPrecommits) \/
                 (p.(p_S) = StepCommitWait /\ s' = StepAwaitingFinalization)
  | InHeightCommitted _ => p.(p_S) = StepCommitWait /\ s' = StepAwaitingFinalization
  | _ => False
  end.

(** The mirror answered a round entrance with a round that already precommitted nil. *)
Definition nilEntered (l : list (Answer P)) : Prop :=
  exists r, AnsEntrance r ∈ l /\ IsVRV r = true /\
    GetStepFromVoteSummary (vSummary r.(rer_VRV)) = Ret StepCommitWait /\
    (vSummary r.(rer_VRV)).(MostVotedPrecommitHash) = nilHash.

Definition roundOver (i : SMInput P) (l : list (Answer P)) (p : Pos) : Prop :=
  nilEntered l \/
  match i with
  | InView v =>
      (exists maj min, viewFor v.(smrv_VRV) p maj min /\ viewEnds (vSummary v.(smrv_VRV)) maj p.(p_S)) \/
      (exists j, v.(JumpAheadRoundView) = Some j /\ vHeight j = p.(p_H) /\ p.(p_R) < vRound j)
  | InTimer _ => p.(p_S) = StepPrecommitDelay
  | _ => False
  end.

Definition heightOver (i : SMInput P) (p : Pos) : Prop :=
  match i with
  | InTimer _ | InHeightCommitted _ => p.(p_S) = StepCommitWait
  | InFinalization _ resp => p.(p_S) = StepAwaitingFinalization /\ resp.(fp_Height) = p.(p_H) /\ resp.(fp_Round) = p.(p_R)
  | _ => False
  end.

(** The step a round is entered in; a round that is not entered keeps the step of the one before. *)
Definition entry (s s' : Step) : Prop :=
  s' = s \/ s' = StepAwaitingProposal \/ s' = StepAwaitingPrecommits \/ s' = StepCommitWait.

Inductive rtrans (i : SMInput P) (l : list (Answer P)) : Pos -> Pos -> Prop :=
| rt_step p s' : stepMove i p s' -> rtrans i l p (MkPos p.(p_H) p.(p_R) s')
| rt_round p s' : roundOver i l p -> entry p.(p_S) s' -> rtrans i l p (MkPos p.(p_H) (u32 (p.(p_R) + 1)) s')
| rt_height p s' : heightOver i p -> entry p.(p_S) s' -> rtrans i l p (MkPos (u64 (p.(p_H) + 1)) 0 s').
End protocol.
