(* ===== verification/StateMachineRun.v ===== *)
(** Runs of the state machine: the consensus manager that answers its requests
    (tsi/consensusmanager.go), starts and restarts on the same stores, the main loop, and the elapse of
    timers, as a step relation. *)
From S2P Require Import Prelude.
From S2P Require Import Types.
From S2P Require Import VoteSummary.
From S2P Require Import RoundView.
From S2P Require Import Stores.
From S2P Require Import Managers.
From S2P Require Import KernelBase.
From S2P Require Import RoundLifecycle.
From S2P Require Import StateMachineBase.
From S2P Require Import StateMachine.
From stdpp Require Import relations.
Local Open Scope Z_scope.

(** * The consensus manager *)

Definition ErrProposedBlockChoiceNotReady : error := ErrOther "not ready to choose proposed block".

Section manager.
Context {P : Type}.

(** What the consensus manager sends, and where, when the strategy's method returns [ans]: nothing for a
    consideration that is not ready.  EnterRound is answered on a channel of its own. *)
Definition cmHandle (ans : bytes * option error) (req : CMRequest P) : option (Chan * HashSelection) :=
  let sel := MkSelection ans.1 ans.2 in
  match req with
  | EnterRoundRequest _ _ => None
  | ConsiderProposedBlocksRequest _ _ result =>
      if bool_decide (ans.2 = Some ErrProposedBlockChoiceNotReady) then None else Some (result, sel)
  | ChooseProposedBlockRequest _ result => Some (result, sel)
  | DecidePrecommitRequest _ result => Some (result, sel)
  end.

(** A value on a channel of a round is there because of a request in the trace: the strategy's answer to
    it, the proposal of a round it entered, or the application's answer to a finalize request. *)
Definition solicited (log : list (SMOut P)) (i : SMInput P) : Prop :=
  match i with
  | InProposal c _ => exists h r rv, OutRequest h r (EnterRoundRequest rv (Some c)) ∈ log
  | InPrevoteHash c he | InPrecommitHash c he =>
      exists h r req ans, OutRequest h r req ∈ log /\ cmHandle ans req = Some (Some c, he)
  | InFinalization c _ =>
      exists h r hd rd, OutFinalize h r (MkFinReq hd rd (Some c)) ∈ log
  | _ => True
  end.
End manager.

(** * The system *)

(** Where the kernel goroutine is: not running, or in one of the two loops. *)
Inductive Mode := Down | LiveLoop | CatchupLoop.

Record SMSys (P ST : Type) := MkSys { sy_mode : Mode; sy_w : SMWorld P ST }.
Arguments MkSys {P ST}.
Arguments sy_mode {P ST}.
Arguments sy_w {P ST}.

Section system.
Context {P ST : Type} `{!SMStores ST}.
Context (m : SMConfig).
Implicit Types (w : SMWorld P ST) (s : SMSys P ST).

(** A new process: the stores and the trace remain. *)
Definition crashed w : SMWorld P ST :=
  {| w with sw_rlc := RLC_zero; sw_timer := None; sw_answers := [] |}.

Definition provide (l : list (Answer P)) w : SMWorld P ST := {| w with sw_answers := l |}.

(** The dispatch of the kernel's outer loop. *)
Definition loopMode (rlc : RoundLifecycle P) : Mode := if IsReplaying rlc then CatchupLoop else LiveLoop.

(** A handler that reports false ends the kernel goroutine, a panic ends the process, and a blocked
    handler never comes back. *)
Definition finish (next : RoundLifecycle P -> Mode) (res : sres (SMWorld P ST) bool) : SMSys P ST :=
  match res with
  | SRet true w => MkSys (next w.(sw_rlc)) w
  | SRet false w | SPanic _ w | SBlocked w => MkSys Down w
  end.

(** Receiving from a timer's channel means that it elapsed. *)
Definition elapsed (i : SMInput P) w : SMWorld P ST :=
  match i with
  | InTimer t => {| w with sw_timer := if bool_decide (w.(sw_timer) = Some t) then None else w.(sw_timer) |}
  | _ => w
  end.

Definition start (l : list (Answer P)) w : SMSys P ST :=
  finish loopMode (initializeRLC m (provide l (crashed w))).
Definition live (i : SMInput P) (l : list (Answer P)) w : SMSys P ST :=
  finish loopMode (handleLiveEvent m i (provide l (elapsed i w))).
(** handleCatchupEvent never goes back to the outer loop. *)
Definition catchup (resp : FinalizeBlockResponse) (l : list (Answer P)) w : SMSys P ST :=
  finish (fun _ => CatchupLoop) (handleCatchupEvent m resp (provide l w)).

End system.

(** The engine gives the genesis only to the process that initialized the chain; a later process gets a
    zero one. *)
Definition withGenesis (g : Genesis) (m : SMConfig) : SMConfig := {| m with m_genesis := g |}.

Lemma withGenesis_same m : withGenesis m.(m_genesis) m = m.
Proof. by destruct m. Qed.

Section steps.
Context {P ST : Type} `{!SMStores ST}.
Context (m : SMConfig).
Implicit Types (w : SMWorld P ST) (s : SMSys P ST).

(** The steps of the system, with answers [good] provided for what its handlers wait for. *)
Inductive answeredStep (good : Answer P -> Prop) : SMSys P ST -> SMSys P ST -> Prop :=
| smstep_start md w l g : g = m.(m_genesis) \/ g = Genesis_zero -> Forall good l ->
    answeredStep good (MkSys md w) (start (withGenesis g m) l w)
| smstep_live w i l : Forall good l -> smReady w.(sw_rlc) i -> solicited w.(sw_log) i ->
    answeredStep good (MkSys LiveLoop w) (live m i l w)
| smstep_catchup w c resp l : Forall good l ->
    smReady w.(sw_rlc) (InFinalization (P := P) c resp) ->
    solicited w.(sw_log) (InFinalization (P := P) c resp) ->
    answeredStep good (MkSys CatchupLoop w) (catchup m resp l w)
| smstep_elapse md w : answeredStep good (MkSys md w) (MkSys md {| w with sw_timer := None |}).

(** Any answers at all. *)
Definition smstep : SMSys P ST -> SMSys P ST -> Prop := answeredStep (fun _ => True).

Lemma Forall_any (l : list (Answer P)) : Forall (fun _ => True) l.
Proof. by apply Forall_forall. Qed.

Lemma answeredStep_smstep good s s' : answeredStep good s s' -> smstep s s'.
Proof.
  intros [md w l g Hg _|w i l _ Hr Hs|w c resp l _ Hr Hs|md w].
  - by apply smstep_start, Forall_any.
  - apply smstep_live; [apply Forall_any|done|done].
  - apply (smstep_catchup _ _ c); [apply Forall_any|done|done].
  - apply smstep_elapse.
Qed.

(** The constructors, from a system whose mode is known. *)
Lemma step_start s l : smstep s (start m l s.(sy_w)).
Proof. destruct s. rewrite <- (withGenesis_same m). apply smstep_start, Forall_any. by left. Qed.

Lemma step_restart s l : smstep s (start (withGenesis Genesis_zero m) l s.(sy_w)).
Proof. destruct s. apply smstep_start, Forall_any. by right. Qed.

Lemma step_live s i l : s.(sy_mode) = LiveLoop -> smReady s.(sy_w).(sw_rlc) i -> solicited s.(sy_w).(sw_log) i ->
  smstep s (live m i l s.(sy_w)).
Proof. destruct s; simpl. intros ->. apply smstep_live, Forall_any. Qed.

Lemma step_catchup s c resp l : s.(sy_mode) = CatchupLoop ->
  smReady s.(sy_w).(sw_rlc) (InFinalization (P := P) c resp) ->
  solicited s.(sy_w).(sw_log) (InFinalization (P := P) c resp) -> smstep s (catchup m resp l s.(sy_w)).
Proof. destruct s; simpl. intros ->. apply smstep_catchup, Forall_any. Qed.

Definition smInit (st : ST) : SMSys P ST := MkSys Down (MkSMWorld RLC_zero st 0 None [] []).

(** * Invariants of runs

    An invariant of the world that every way of leaving a handler keeps. *)
Definition keeps {A} (J : SMWorld P ST -> Prop) (act : SM P ST A) : Prop :=
  forall w, J w -> swp act w (fun _ => J) (fun _ => J).

Lemma keeps_ret {A} J (a : A) : keeps J (mret a).
Proof. by intros w. Qed.

Lemma keeps_then {A C} J (act : SM P ST A) (f : A -> SM P ST C) w :
  swp act w (fun _ => J) (fun _ => J) -> (forall a, keeps J (f a)) -> swp (act ≫= f) w (fun _ => J) (fun _ => J).
Proof. intros Ha Hf. apply swp_bind. eapply swp_mono; [| |exact Ha]; [|done]. intros a w'. apply Hf. Qed.

Lemma keeps_bind {A C} J (act : SM P ST A) (f : A -> SM P ST C) :
  keeps J act -> (forall a, keeps J (f a)) -> keeps J (act ≫= f).
Proof. intros Ha Hf w Hw. apply keeps_then; auto. Qed.

Lemma keeps_getR J : keeps J getR.
Proof. by intros w. Qed.

Lemma keeps_loadS {A} J (f : ST -> A) : keeps J (loadS f).
Proof. by intros w. Qed.

Lemma keeps_panicS {A} J msg : keeps J (@panicS P ST A msg).
Proof. by intros w. Qed.

Lemma keeps_blockedS {A} J : keeps J (@blockedS P ST A).
Proof. by intros w. Qed.

Lemma keeps_liftS {A} J (o : outcome A) : keeps J (liftS o).
Proof. intros w Hw. by apply swp_liftS. Qed.

Lemma keeps_modR J f : (forall w, J w -> J {| w with sw_rlc := f w.(sw_rlc) |}) -> keeps J (modR f).
Proof. intros Hf w Hw. apply swp_modR. auto. Qed.

Lemma keeps_sendS J o : (forall w, J w -> J {| w with sw_log := w.(sw_log) ++ [o] |}) -> keeps J (sendS o).
Proof. intros Hf w Hw. apply swp_sendS. auto. Qed.

Lemma keeps_storeS J f : (forall w, J w -> J {| w with sw_st := (f w.(sw_st)).1 |}) -> keeps J (storeS f).
Proof. intros Hf w Hw. apply swp_storeS. intros st e E. specialize (Hf w Hw). by rewrite E in Hf. Qed.

Lemma keeps_finish (J : SMWorld P ST -> Prop) next (act : SM P ST bool) w :
  swp act w (fun _ => J) (fun _ => J) -> J (finish next (act w)).(sy_w).
Proof. unfold swp. by destruct (act w) as [[] w'|msg w'|w']. Qed.

(** An invariant of runs: it holds before anything was sent, and every handler keeps it, for what its
    select can receive. *)
Lemma rtc_invariant (J : SMWorld P ST -> Prop) s s' :
  (forall w, J w -> J (crashed w)) -> (forall w, J w -> J {| w with sw_timer := None |}) ->
  (forall w l, J w -> J (provide l w)) ->
  (forall w i, J w -> J (elapsed i w)) ->
  (forall g, keeps J (initializeRLC (withGenesis g m))) ->
  (forall i w, J w -> smReady w.(sw_rlc) i -> solicited w.(sw_log) i ->
     swp (handleLiveEvent m i) w (fun _ => J) (fun _ => J)) ->
  (forall resp, keeps J (handleCatchupEvent m resp)) ->
  rtc smstep s s' -> J s.(sy_w) -> J s'.(sy_w).
Proof.
  intros Hc Ht Hp He Hi Hl Hk Hr Hs. induction Hr as [s|s1 s2 s3 Hstep _ IH]; [done|].
  apply IH. destruct Hstep as [md w l g _ _|w i l _ Hrd Hsol|w c resp l _ _ _|md w]; simpl in *; [..|by apply Ht].
  - unfold start. apply (keeps_finish J), Hi. auto.
  - unfold live. apply (keeps_finish J), Hl; [auto|by destruct i|by destruct i].
  - unfold catchup. apply (keeps_finish J), Hk. auto.
Qed.
End steps.
