(* ===== verification/StateMachineFrames.v ===== *)
(** How the handlers of the state machine keep an invariant of the world: what is to be shown of the
    requests, the resets and the actions, for every handler to keep it. *)
From S2P Require Import Prelude.
From S2P Require Import Types.
From S2P Require Import Powers.
From S2P Require Import VoteSummary.
From S2P Require Import RoundView.
From S2P Require Import Stores.
From S2P Require Import Managers.
From S2P Require Import KernelBase.
From S2P Require Import RoundLifecycle.
From S2P Require Import StateMachineBase.
From S2P Require Import StateMachine.
From S2P Require Import StateMachineRun.
From stdpp Require Import relations.
Local Open Scope Z_scope.

Create HintDb keeps discriminated.

(** Following the structure of a handler: binds, tests and matches, down to what the hints know. *)
Ltac keeps_step :=
  first
    [ progress (eauto 2 with keeps nocore)
    | apply keeps_bind; [|intros ?]
    | match goal with
      | |- keeps _ (match ?x with _ => _ end) => destruct x
      end ].
Ltac keeps_tac := repeat keeps_step.

#[export] Hint Resolve keeps_ret keeps_getR keeps_loadS keeps_panicS keeps_blockedS keeps_liftS : keeps.

(** ** What most updates of the lifecycle leave alone

    The position, the validators and previous finalization, and the finalization; a channel may be
    replaced by nil. *)
Definition dropped (c c' : Chan) : Prop := c' = c \/ c' = None.

Record sameCore {P} (rlc rlc' : RoundLifecycle P) : Prop := {
  sc_H : rlc'.(rl_H) = rlc.(rl_H);
  sc_R : rlc'.(rl_R) = rlc.(rl_R);
  sc_cur : rlc'.(rl_CurValSet) = rlc.(rl_CurValSet);
  sc_hash : rlc'.(rl_PrevBlockHash) = rlc.(rl_PrevBlockHash);
  sc_next : rlc'.(rl_PrevFinNextValSet) = rlc.(rl_PrevFinNextValSet);
  sc_app : rlc'.(rl_PrevFinAppStateHash) = rlc.(rl_PrevFinAppStateHash);
  sc_fvals : rlc'.(rl_FinalizedValSet) = rlc.(rl_FinalizedValSet);
  sc_fapp : rlc'.(rl_FinalizedAppStateHash) = rlc.(rl_FinalizedAppStateHash);
  sc_fhash : rlc'.(rl_FinalizedBlockHash) = rlc.(rl_FinalizedBlockHash);
  sc_proposal : dropped rlc.(rl_ProposalCh) rlc'.(rl_ProposalCh);
  sc_prevote : dropped rlc.(rl_PrevoteHashCh) rlc'.(rl_PrevoteHashCh);
  sc_precommit : dropped rlc.(rl_PrecommitHashCh) rlc'.(rl_PrecommitHashCh);
  sc_finalize : dropped rlc.(rl_FinalizeRespCh) rlc'.(rl_FinalizeRespCh)
}.

Ltac same_core := split; simpl; try reflexivity; unfold dropped; auto.

(** Events that carry no request and no action. *)
Definition quiet {P} (o : SMOut P) : bool :=
  match o with OutAction _ _ _ | OutRequest _ _ _ | OutFinalize _ _ _ => false | _ => true end.

(** The ways a request is sent. *)
Inductive isSend {P ST} : (CMRequest P -> SM P ST unit) -> Prop :=
| is_sendCM : isSend sendCM
| is_sendCMTimed msg : isSend (fun req => sendCMTimed req msg).
#[export] Hint Constructors isSend : keeps.

(** ** Requests only extend the trace *)
Definition isAction {P} (o : SMOut P) : bool := match o with OutAction _ _ _ => true | _ => false end.
Definition isRequest {P} (o : SMOut P) : bool :=
  match o with OutRequest _ _ _ | OutFinalize _ _ _ => true | _ => false end.

Lemma request_not_action {P} (o : SMOut P) : isRequest o = true -> isAction o = false.
Proof. by destruct o. Qed.

Section requests.
Context {P ST : Type} `{!SMStores ST}.
Context (J : SMWorld P ST -> Prop).
Context (J_ext : forall w w', w'.(sw_st) = w.(sw_st) -> w'.(sw_log) = w.(sw_log) ->
  sameCore w.(sw_rlc) w'.(sw_rlc) -> (w.(sw_next) <= w'.(sw_next))%nat -> J w -> J w').
Context (J_log : forall w o, isRequest o = true -> J w -> J {| w with sw_log := w.(sw_log) ++ [o] |}).

Lemma rq_sendS o : isRequest o = true -> keeps J (sendS o).
Proof. intros Ho. apply keeps_sendS. intros w. by apply J_log. Qed.
Lemma rq_answerS {A} (f : Answer P -> option A) : keeps J (answerS f).
Proof.
  intros w Hw. apply swp_answerS; [done|]. intros a x l _ _. eapply J_ext, Hw; try done; same_core.
Qed.
Lemma rq_markNew phs reason : keeps J (markNew phs reason).
Proof. intros w Hw. eapply J_ext, Hw; try done; same_core. Qed.
#[local] Hint Resolve rq_answerS rq_markNew : keeps.
#[local] Hint Extern 1 (keeps J (sendS _)) => (apply rq_sendS; reflexivity) : keeps.

Lemma rq_send send req : isSend send -> keeps J (send req).
Proof. intros [|msg]; [unfold sendCM|unfold sendCMTimed, sendCM]; keeps_tac. Qed.
#[local] Hint Resolve rq_send : keeps.
Lemma rq_decide vrv : keeps J (decidePrecommit vrv).
Proof. unfold decidePrecommit, sendCM. keeps_tac. Qed.
Lemma rq_consider send phs b : isSend send -> keeps J (considerPHs send phs b).
Proof. intros. unfold considerPHs. keeps_tac. Qed.
Lemma rq_choose send phs : isSend send -> keeps J (choosePH send phs).
Proof. intros. unfold choosePH. keeps_tac. Qed.
Lemma rq_arrived phs ids : keeps J (considerArrived phs ids).
Proof. unfold considerArrived, sendCM. keeps_tac. Qed.
Lemma rq_enter rv : keeps J (enterRound rv).
Proof. unfold enterRound, sendCM. keeps_tac. Qed.
Lemma rq_finalize hd rd : keeps J (sendFinalize hd rd).
Proof. unfold sendFinalize. keeps_tac. Qed.
End requests.

(** The requests keep an invariant, from its extension and trace lemmas. *)
Ltac requests ext log :=
  (intros; first [apply rq_decide | apply rq_consider | apply rq_choose | apply rq_arrived | apply rq_enter
                 | apply rq_finalize];
   first [exact ext | exact log | assumption | intros ? ? ?%request_not_action; by apply log]).

(** ** Following views

    What the handlers do within a round, around the ways to enter another one. *)
Definition still {P} (o : SMOut P) : bool := quiet o && match o with OutEntrance _ => false | _ => true end.

Section follow.
Context {P ST : Type} `{!SMStores ST}.
Context (m : SMConfig) (J : SMWorld P ST -> Prop).

Context (J_ext : forall w w', w'.(sw_st) = w.(sw_st) -> w'.(sw_log) = w.(sw_log) ->
  sameCore w.(sw_rlc) w'.(sw_rlc) -> (w.(sw_next) <= w'.(sw_next))%nat -> J w -> J w').
Context (J_still : forall w o, still o = true -> J w -> J {| w with sw_log := w.(sw_log) ++ [o] |}).
Context (K_decide : forall vrv, keeps J (decidePrecommit vrv)).
Context (K_consider : forall send phs b, isSend send -> keeps J (considerPHs send phs b)).
Context (K_choose : forall send phs, isSend send -> keeps J (choosePH send phs)).
Context (K_arrived : forall phs ids, keeps J (considerArrived phs ids)).
Context (K_finalize : forall hd rd, keeps J (sendFinalize hd rd)).
Context (K_round : keeps J (advanceRound m)).

Lemma fo_modR f : (forall rlc, sameCore rlc (f rlc)) -> keeps J (modR f).
Proof. intros Hf. apply keeps_modR. intros w. by apply J_ext; simpl. Qed.

Lemma fo_answerS {A} (f : Answer P -> option A) : keeps J (answerS f).
Proof.
  intros w Hw. apply swp_answerS; [done|]. intros a x l _ _. eapply J_ext, Hw; try done; same_core.
Qed.

Lemma fo_sendS o : still o = true -> keeps J (sendS o).
Proof. intros Ho. apply keeps_sendS. intros w. by apply J_still. Qed.

Lemma fo_startTimer kind : keeps J (startTimer kind).
Proof.
  intros w Hw. unfold swp, startTimer. destruct (sw_timer w); [done|].
  eapply J_ext; [| | | |apply (J_still w (OutTimer (rl_H (sw_rlc w)) (rl_R (sw_rlc w)) kind)); [done|exact Hw]];
    simpl; try done; [same_core|lia].
Qed.

Lemma fo_stopTimer t : keeps J (stopTimer t).
Proof. intros w Hw. eapply J_ext, Hw; try done; same_core. Qed.

Lemma fo_clearTimers : keeps J (modR (fun rlc => {| rlc with rl_StepTimer := None; rl_CancelTimer := None |})).
Proof. apply fo_modR. intros rlc. same_core. Qed.

#[local] Hint Resolve fo_answerS fo_startTimer fo_stopTimer fo_clearTimers K_decide K_consider K_choose K_arrived
  K_finalize : keeps.
#[local] Hint Extern 1 (keeps J (sendS _)) => (apply fo_sendS; reflexivity) : keeps.
#[local] Hint Extern 1 (keeps J (modR _)) => (apply fo_modR; intros; same_core; fail) : keeps.

Lemma fo_setStep s : keeps J (setStep s).
Proof. unfold setStep. keeps_tac. Qed.
Lemma fo_clearConsidered : keeps J clearConsidered.
Proof. unfold clearConsidered. keeps_tac. Qed.
Lemma fo_setVRV v : keeps J (setVRV v).
Proof. unfold setVRV. keeps_tac. Qed.
Lemma fo_cancelStepTimer : keeps J cancelStepTimer.
Proof. unfold cancelStepTimer. keeps_tac. Qed.
#[local] Hint Resolve fo_setStep fo_clearConsidered fo_setVRV fo_cancelStepTimer : keeps.
Lemma fo_beginCommit vrv : keeps J (beginCommit vrv).
Proof. unfold beginCommit. keeps_tac. Qed.
Lemma fo_startInitialTimer : keeps J startInitialTimer.
Proof. unfold startInitialTimer. keeps_tac. Qed.
#[local] Hint Resolve fo_beginCommit fo_startInitialTimer : keeps.
Lemma fo_settleStep s vrv : keeps J (settleStep s vrv).
Proof. unfold settleStep. keeps_tac. Qed.
#[local] Hint Resolve fo_settleStep : keeps.
Lemma fo_beginRoundLive adv vrv : keeps J adv -> keeps J (beginRoundLive adv vrv).
Proof. intros. unfold beginRoundLive. keeps_tac. Qed.
Lemma fo_awaitEntrance : keeps J awaitEntrance.
Proof. unfold awaitEntrance. keeps_tac. Qed.
#[local] Hint Resolve fo_beginRoundLive fo_awaitEntrance K_round : keeps.
Lemma fo_derefVRV : keeps J derefVRV.
Proof. unfold derefVRV. keeps_tac. Qed.
Lemma fo_cancelIfStep s : keeps J (cancelIfStep s).
Proof. unfold cancelIfStep. keeps_tac. Qed.
#[local] Hint Resolve fo_derefVRV fo_cancelIfStep : keeps.
Lemma fo_onPrecommitMajority maj vrv : keeps J (onPrecommitMajority m maj vrv).
Proof. unfold onPrecommitMajority, ignore. keeps_tac. Qed.
#[local] Hint Resolve fo_onPrecommitMajority : keeps.
Lemma fo_handleProposalViewUpdate vrv : keeps J (handleProposalViewUpdate m vrv).
Proof. unfold handleProposalViewUpdate. keeps_tac. Qed.
Lemma fo_handlePrevoteViewUpdate vrv : keeps J (handlePrevoteViewUpdate m vrv).
Proof. unfold handlePrevoteViewUpdate. keeps_tac. Qed.
Lemma fo_handlePrecommitViewUpdate vrv : keeps J (handlePrecommitViewUpdate m vrv).
Proof. unfold handlePrecommitViewUpdate, ignore. keeps_tac. Qed.
Lemma fo_handleCommitWaitViewUpdate vrv : keeps J (handleCommitWaitViewUpdate vrv).
Proof. unfold handleCommitWaitViewUpdate. keeps_tac. Qed.
Lemma fo_handleJumpAhead vrv : keeps J (handleJumpAhead m vrv).
Proof. unfold handleJumpAhead, ignore. keeps_tac. Qed.
#[local] Hint Resolve fo_handleProposalViewUpdate fo_handlePrevoteViewUpdate fo_handlePrecommitViewUpdate
  fo_handleCommitWaitViewUpdate fo_handleJumpAhead : keeps.
Lemma fo_handleViewUpdate v : keeps J (handleViewUpdate m v).
Proof. unfold handleViewUpdate, followView. keeps_tac. Qed.
Lemma fo_handleBlockDataArrival a : keeps J (handleBlockDataArrival a).
Proof. unfold handleBlockDataArrival. keeps_tac. Qed.
#[local] Hint Resolve fo_handleViewUpdate fo_handleBlockDataArrival : keeps.

(** The end of a commit wait, and what acts. *)
Context (K_over : keeps J (commitWaitOver m)).
Context (K_proposal : forall p, keeps J (recordProposedHeader m p)).
Context (K_prevote : forall hash, keeps J (recordVote m sg_Prevote ss_SavePrevoteAction actPrevote hash)).
Context (K_precommit : forall hash, keeps J (recordVote m sg_Precommit ss_SavePrecommitAction actPrecommit hash)).
#[local] Hint Resolve K_over K_proposal K_prevote K_precommit : keeps.

Lemma fo_handleTimerElapsed : keeps J (handleTimerElapsed m).
Proof. unfold handleTimerElapsed. keeps_tac. Qed.
Lemma fo_handleHeightCommitted : keeps J (handleHeightCommitted m).
Proof. unfold handleHeightCommitted. keeps_tac. Qed.
Lemma fo_recordPrevote hash : keeps J (recordPrevote m hash).
Proof. unfold recordPrevote. keeps_tac. Qed.
Lemma fo_recordPrecommit hash : keeps J (recordPrecommit m hash).
Proof. unfold recordPrecommit. keeps_tac. Qed.
#[local] Hint Resolve fo_handleTimerElapsed fo_handleHeightCommitted fo_recordPrevote fo_recordPrecommit : keeps.

Lemma fo_onSelection he record close : (forall hash, keeps J (record hash)) ->
  (forall rlc, sameCore rlc (close rlc)) -> keeps J (onSelection he record close).
Proof. intros. unfold onSelection. keeps_tac. by apply fo_modR. Qed.

(** Every live event but a finalization. *)
Lemma fo_handleLiveEvent i : match i with InFinalization _ _ => False | _ => True end -> keeps J (handleLiveEvent m i).
Proof.
  destruct i; intros Hi; simpl; try done; keeps_tac;
    (apply fo_onSelection; [keeps_tac|intros; same_core]).
Qed.
End follow.

Section frames.
Context {P ST : Type} `{!SMStores ST}.
Context (m : SMConfig) (J : SMWorld P ST -> Prop).

Context (J_ext : forall w w', w'.(sw_st) = w.(sw_st) -> w'.(sw_log) = w.(sw_log) ->
  sameCore w.(sw_rlc) w'.(sw_rlc) -> (w.(sw_next) <= w'.(sw_next))%nat -> J w -> J w').
Context (J_log : forall w o, quiet o = true -> J w -> J {| w with sw_log := w.(sw_log) ++ [o] |}).
Context (J_pos : forall w r, J w ->
  J {| w with sw_st := (ss_SetStateMachineHeightRound w.(sw_rlc).(rl_H) r w.(sw_st)).1 |}).
Context (J_reset : forall w r, J w ->
  J {| w with sw_rlc := RLC_Reset w.(sw_rlc).(rl_H) r w.(sw_next) w.(sw_rlc);
              sw_next := (w.(sw_next) + resetChans)%nat |}).
Context (K_decide : forall vrv, keeps J (decidePrecommit vrv)).
Context (K_consider : forall send phs b, isSend send -> keeps J (considerPHs send phs b)).
Context (K_choose : forall send phs, isSend send -> keeps J (choosePH send phs)).
Context (K_arrived : forall phs ids, keeps J (considerArrived phs ids)).
Context (K_enter : forall rv, keeps J (enterRound rv)).
Context (K_finalize : forall hd rd, keeps J (sendFinalize hd rd)).

Lemma fr_still w o : still o = true -> J w -> J {| w with sw_log := w.(sw_log) ++ [o] |}.
Proof. intros [Ho _]%andb_true_iff. by apply J_log. Qed.
Tactic Notation "follows" uconstr(lem) := intros; apply lem; first [exact J_ext | exact fr_still | assumption | done].

Lemma fr_modR f : (forall rlc, sameCore rlc (f rlc)) -> keeps J (modR f).
Proof. follows fo_modR. Qed.
Lemma fr_answerS {A} (f : Answer P -> option A) : keeps J (answerS f).
Proof. follows fo_answerS. Qed.
Lemma fr_sendS o : quiet o = true -> keeps J (sendS o).
Proof. intros Ho. apply keeps_sendS. intros w. by apply J_log. Qed.
Lemma fr_startTimer kind : keeps J (startTimer kind).
Proof. follows fo_startTimer. Qed.
Lemma fr_stopTimer t : keeps J (stopTimer t).
Proof. follows fo_stopTimer. Qed.
Lemma fr_clearTimers : keeps J (modR (fun rlc => {| rlc with rl_StepTimer := None; rl_CancelTimer := None |})).
Proof. follows fo_clearTimers. Qed.
Lemma fr_setStep s : keeps J (setStep s).
Proof. follows fo_setStep. Qed.
Lemma fr_clearConsidered : keeps J clearConsidered.
Proof. follows fo_clearConsidered. Qed.
Lemma fr_setVRV v : keeps J (setVRV v).
Proof. follows fo_setVRV. Qed.
Lemma fr_cancelStepTimer : keeps J cancelStepTimer.
Proof. follows fo_cancelStepTimer. Qed.
Lemma fr_beginCommit vrv : keeps J (beginCommit vrv).
Proof. follows fo_beginCommit. Qed.
Lemma fr_startInitialTimer : keeps J startInitialTimer.
Proof. follows fo_startInitialTimer. Qed.
Lemma fr_settleStep s vrv : keeps J (settleStep s vrv).
Proof. follows fo_settleStep. Qed.
Lemma fr_beginRoundLive adv vrv : keeps J adv -> keeps J (beginRoundLive adv vrv).
Proof. follows fo_beginRoundLive. Qed.
Lemma fr_awaitEntrance : keeps J awaitEntrance.
Proof. follows fo_awaitEntrance. Qed.
#[local] Hint Resolve fr_answerS K_enter K_finalize : keeps.
#[local] Hint Extern 1 (keeps J (sendS _)) => (apply fr_sendS; reflexivity) : keeps.
#[local] Hint Extern 1 (keeps J (modR _)) => (apply fr_modR; intros; same_core; fail) : keeps.
#[local] Hint Resolve fr_beginRoundLive fr_awaitEntrance : keeps.
Lemma fr_advance adv h r : keeps J adv -> keeps J (advance m adv h r).
Proof. intros. unfold advance. keeps_tac. Qed.
#[local] Hint Resolve fr_advance : keeps.

(** Entering another round of the height; [J] does not change when the timer is stopped first. *)
Lemma fr_moveTo adv r w : keeps J adv -> J w ->
  swp (moveTo m adv w.(sw_rlc).(rl_H) r) w (fun _ => J) (fun _ => J).
Proof.
  intros Hadv Hw. unfold moveTo, resetRLC. apply swp_bind, swp_bind, swp_getR, swp_bind.
  set (w1 := {| w with sw_timer := match rl_CancelTimer (sw_rlc w) with
    | Some t => if bool_decide (sw_timer w = Some t) then None else sw_timer w | None => sw_timer w end |}).
  assert (Hw1 : J w1) by (eapply J_ext, Hw; try done; same_core).
  assert (Hgo : swp (makeChans (rl_H (sw_rlc w)) r) w1
    (fun _ w' => swp (err ← storeS (ss_SetStateMachineHeightRound (rl_H (sw_rlc w)) r);
       match err with Some _ => mret false | None => advance m adv (rl_H (sw_rlc w)) r end) w' (fun _ => J) (fun _ => J))
    (fun _ => J)).
  { pose proof (J_reset w1 r Hw1) as Hw2. unfold swp at 1, makeChans. apply swp_bind, swp_storeS. intros st e Es.
    pose proof (J_pos _ r Hw2) as Hw3. simpl in Hw3. simpl in Es. rewrite Es in Hw3. simpl in Hw3.
    destruct e; [done|]. by apply fr_advance. }
  destruct w as [rlc st nx tm ans lg]. unfold w1 in Hgo. simpl in *.
  destruct (rl_CancelTimer rlc) as [t|]; exact Hgo.
Qed.

Lemma fr_advanceRoundN n : keeps J (advanceRoundN m n).
Proof.
  induction n as [|n IH]; simpl; [apply keeps_blockedS|]. intros w Hw. unfold advanceRoundBody.
  apply swp_bind, swp_getR. by apply fr_moveTo.
Qed.
Lemma fr_advanceRound : keeps J (advanceRound m).
Proof. intros w. apply fr_advanceRoundN. Qed.

(** Entering the next height. *)
Lemma fr_advanceHeight w :
  (forall n t, J (MkSMWorld (RLC_Reset (u64 (w.(sw_rlc).(rl_H) + 1)) 0 w.(sw_next) (CycleFinalization w.(sw_rlc)))
                    w.(sw_st) n t w.(sw_answers) w.(sw_log))) ->
  swp (advanceHeight m) w (fun _ => J) (fun _ => J).
Proof.
  intros Hnext. unfold advanceHeight, moveTo, resetRLC. apply swp_bind, swp_modR, swp_bind, swp_getR.
  apply swp_bind, swp_bind, swp_getR, swp_bind. simpl.
  assert (Hgo : forall n t, swp (err ← storeS (ss_SetStateMachineHeightRound (u64 (rl_H (sw_rlc w) + 1)) 0);
    match err with Some _ => mret false | None => advance m (advanceRound m) (u64 (rl_H (sw_rlc w) + 1)) 0 end)
    (MkSMWorld (RLC_Reset (u64 (w.(sw_rlc).(rl_H) + 1)) 0 w.(sw_next) (CycleFinalization w.(sw_rlc)))
       w.(sw_st) n t w.(sw_answers) w.(sw_log)) (fun _ => J) (fun _ => J)).
  { intros n t. apply swp_bind, swp_storeS. intros st e Es.
    pose proof (J_pos _ 0 (Hnext n t)) as Hw3. simpl in Hw3, Es. rewrite Es in Hw3. simpl in Hw3.
    destruct e; [done|]. apply fr_advance; [apply fr_advanceRound|done]. }
  destruct (rl_CancelTimer (sw_rlc w)); apply Hgo.
Qed.

Tactic Notation "follows" uconstr(lem) := intros; apply lem; first [exact J_ext | exact fr_still | exact fr_advanceRound | assumption | done].

Lemma fr_derefVRV : keeps J derefVRV.
Proof. follows fo_derefVRV. Qed.
Lemma fr_cancelIfStep s : keeps J (cancelIfStep s).
Proof. follows fo_cancelIfStep. Qed.
Lemma fr_onPrecommitMajority maj vrv : keeps J (onPrecommitMajority m maj vrv).
Proof. follows fo_onPrecommitMajority. Qed.
Lemma fr_handleProposalViewUpdate vrv : keeps J (handleProposalViewUpdate m vrv).
Proof. follows fo_handleProposalViewUpdate. Qed.
Lemma fr_handlePrevoteViewUpdate vrv : keeps J (handlePrevoteViewUpdate m vrv).
Proof. follows fo_handlePrevoteViewUpdate. Qed.
Lemma fr_handlePrecommitViewUpdate vrv : keeps J (handlePrecommitViewUpdate m vrv).
Proof. follows fo_handlePrecommitViewUpdate. Qed.
Lemma fr_handleCommitWaitViewUpdate vrv : keeps J (handleCommitWaitViewUpdate vrv).
Proof. follows fo_handleCommitWaitViewUpdate. Qed.
Lemma fr_handleJumpAhead vrv : keeps J (handleJumpAhead m vrv).
Proof. follows fo_handleJumpAhead. Qed.
Lemma fr_handleViewUpdate v : keeps J (handleViewUpdate m v).
Proof. follows fo_handleViewUpdate. Qed.
Lemma fr_handleBlockDataArrival a : keeps J (handleBlockDataArrival a).
Proof. follows fo_handleBlockDataArrival. Qed.
(** The end of a commit wait, and what acts. *)
Context (K_over : keeps J (commitWaitOver m)).
Context (K_proposal : forall p, keeps J (recordProposedHeader m p)).
Context (K_prevote : forall hash, keeps J (recordVote m sg_Prevote ss_SavePrevoteAction actPrevote hash)).
Context (K_precommit : forall hash, keeps J (recordVote m sg_Precommit ss_SavePrecommitAction actPrecommit hash)).
Lemma fr_handleTimerElapsed : keeps J (handleTimerElapsed m).
Proof. follows fo_handleTimerElapsed. Qed.
Lemma fr_handleHeightCommitted : keeps J (handleHeightCommitted m).
Proof. follows fo_handleHeightCommitted. Qed.
Lemma fr_recordPrevote hash : keeps J (recordPrevote m hash).
Proof. follows fo_recordPrevote. Qed.
Lemma fr_recordPrecommit hash : keeps J (recordPrecommit m hash).
Proof. follows fo_recordPrecommit. Qed.
Lemma fr_onSelection he record close : (forall hash, keeps J (record hash)) ->
  (forall rlc, sameCore rlc (close rlc)) -> keeps J (onSelection he record close).
Proof. follows fo_onSelection. Qed.
(** Every live event but a finalization. *)
Lemma fr_handleLiveEvent i : match i with InFinalization _ _ => False | _ => True end -> keeps J (handleLiveEvent m i).
Proof. follows fo_handleLiveEvent. Qed.
End frames.

(** ** Invariants that do not look at the validators and finalizations *)
Record samePlace {P} (rlc rlc' : RoundLifecycle P) : Prop := {
  sp_H : rlc'.(rl_H) = rlc.(rl_H);
  sp_R : rlc'.(rl_R) = rlc.(rl_R);
  sp_proposal : dropped rlc.(rl_ProposalCh) rlc'.(rl_ProposalCh);
  sp_prevote : dropped rlc.(rl_PrevoteHashCh) rlc'.(rl_PrevoteHashCh);
  sp_precommit : dropped rlc.(rl_PrecommitHashCh) rlc'.(rl_PrecommitHashCh);
  sp_finalize : dropped rlc.(rl_FinalizeRespCh) rlc'.(rl_FinalizeRespCh)
}.

Lemma sameCore_samePlace {P} (rlc rlc' : RoundLifecycle P) : sameCore rlc rlc' -> samePlace rlc rlc'.
Proof. intros []. by split. Qed.

Section places.
Context {P ST : Type} `{!SMStores ST}.
Context (m : SMConfig) (J : SMWorld P ST -> Prop).

Context (J_ext : forall w w', w'.(sw_st) = w.(sw_st) -> w'.(sw_log) = w.(sw_log) ->
  samePlace w.(sw_rlc) w'.(sw_rlc) -> (w.(sw_next) <= w'.(sw_next))%nat -> J w -> J w').
Context (J_log : forall w o, quiet o = true -> J w -> J {| w with sw_log := w.(sw_log) ++ [o] |}).
Context (J_pos : forall w h r, J w -> J {| w with sw_st := (ss_SetStateMachineHeightRound h r w.(sw_st)).1 |}).
Context (J_fin : forall w h r hash vals app, J w ->
  J {| w with sw_st := (ss_SaveFinalization h r hash vals app w.(sw_st)).1 |}).
Context (J_reset : forall w h r, J w ->
  J {| w with sw_rlc := RLC_Reset h r w.(sw_next) w.(sw_rlc); sw_next := (w.(sw_next) + resetChans)%nat |}).
Context (K_decide : forall vrv, keeps J (decidePrecommit vrv)).
Context (K_consider : forall send phs b, isSend send -> keeps J (considerPHs send phs b)).
Context (K_choose : forall send phs, isSend send -> keeps J (choosePH send phs)).
Context (K_arrived : forall phs ids, keeps J (considerArrived phs ids)).
Context (K_enter : forall rv, keeps J (enterRound rv)).
Context (K_finalize : forall hd rd, keeps J (sendFinalize hd rd)).
Context (K_resume : forall vrv, keeps J (resumeProposal m vrv)).

Lemma pl_ext w w' : w'.(sw_st) = w.(sw_st) -> w'.(sw_log) = w.(sw_log) ->
  sameCore w.(sw_rlc) w'.(sw_rlc) -> (w.(sw_next) <= w'.(sw_next))%nat -> J w -> J w'.
Proof. intros Es El Hc%sameCore_samePlace. by apply J_ext. Qed.

Lemma pl_modR f : (forall rlc, samePlace rlc (f rlc)) -> keeps J (modR f).
Proof. intros Hf. apply keeps_modR. intros w. by apply J_ext; simpl. Qed.

Lemma pl_makeChans h r : keeps J (makeChans h r).
Proof. intros w Hw. by apply J_reset. Qed.

Lemma pl_newChan : keeps J newChan.
Proof. intros w Hw. eapply J_ext, Hw; simpl; try done; [same_core|lia]. Qed.

Lemma pl_setPos h r : keeps J (storeS (ss_SetStateMachineHeightRound h r)).
Proof. apply keeps_storeS. intros w. apply J_pos. Qed.

Lemma pl_saveFin h r hash vals app : keeps J (storeS (ss_SaveFinalization h r hash vals app)).
Proof. apply keeps_storeS. intros w. apply J_fin. Qed.

Lemma pl_stopTimer t : keeps J (stopTimer t).
Proof. apply fr_stopTimer, pl_ext. Qed.
Lemma pl_setStep s : keeps J (setStep s).
Proof. apply fr_setStep, pl_ext. Qed.
Lemma pl_awaitEntrance : keeps J awaitEntrance.
Proof. by apply fr_awaitEntrance; [apply pl_ext|]. Qed.
Lemma pl_sendEntrance re : keeps J (sendS (OutEntrance re)).
Proof. by apply fr_sendS. Qed.
#[local] Hint Resolve pl_makeChans pl_newChan pl_setPos pl_saveFin pl_stopTimer pl_setStep pl_awaitEntrance
  pl_sendEntrance K_finalize K_enter K_resume : keeps.
#[local] Hint Extern 1 (keeps J (modR _)) => (apply pl_modR; intros; same_core; fail) : keeps.

Lemma pl_resetRLC h r : keeps J (resetRLC h r).
Proof. unfold resetRLC. keeps_tac. Qed.
#[local] Hint Resolve pl_resetRLC : keeps.
Lemma pl_advance adv h r : keeps J adv -> keeps J (advance m adv h r).
Proof. by apply fr_advance; [apply pl_ext|..]. Qed.
#[local] Hint Resolve pl_advance : keeps.
Lemma pl_moveTo adv h r : keeps J adv -> keeps J (moveTo m adv h r).
Proof. intros. unfold moveTo. keeps_tac. Qed.
#[local] Hint Resolve pl_moveTo : keeps.
Lemma pl_advanceRoundN n : keeps J (advanceRoundN m n).
Proof. induction n as [|n IH]; simpl; [apply keeps_blockedS|]. unfold advanceRoundBody. keeps_tac. Qed.
Lemma pl_advanceRound : keeps J (advanceRound m).
Proof. intros w. apply pl_advanceRoundN. Qed.
#[local] Hint Resolve pl_advanceRound : keeps.
Lemma pl_advanceHeight : keeps J (advanceHeight m).
Proof. unfold advanceHeight. keeps_tac. Qed.
#[local] Hint Resolve pl_advanceHeight : keeps.
Lemma pl_commitWaitOver : keeps J (commitWaitOver m).
Proof. unfold commitWaitOver. keeps_tac. Qed.
Lemma pl_handleFinalization resp : keeps J (handleFinalization m resp).
Proof. unfold handleFinalization. keeps_tac. Qed.
#[local] Hint Resolve pl_commitWaitOver pl_handleFinalization : keeps.
Lemma pl_handleCatchupEvent resp : keeps J (handleCatchupEvent m resp).
Proof. unfold handleCatchupEvent. keeps_tac. Qed.
Lemma pl_beginRoundLive adv vrv : keeps J adv -> keeps J (beginRoundLive adv vrv).
Proof. by apply fr_beginRoundLive; [apply pl_ext|..]. Qed.
#[local] Hint Resolve pl_beginRoundLive : keeps.
Lemma pl_loadValSets h r : keeps J (loadValSets m h r).
Proof. unfold loadValSets, loadFin. keeps_tac. Qed.
Lemma pl_loadPrevious h r vrv : keeps J (loadPrevious m h r vrv).
Proof. unfold loadPrevious, loadFin. keeps_tac. Qed.
#[local] Hint Resolve pl_loadValSets pl_loadPrevious : keeps.
Lemma pl_sendInitialActionSet : keeps J (sendInitialActionSet m).
Proof. unfold sendInitialActionSet. keeps_tac. Qed.
#[local] Hint Resolve pl_sendInitialActionSet : keeps.
Lemma pl_initializeRLC : keeps J (initializeRLC m).
Proof. unfold initializeRLC. keeps_tac. Qed.
End places.

(** ** Invariants of the stores and the trace only *)

Section traces.
Context {P ST : Type} `{!SMStores ST}.
Context (m : SMConfig) (J : SMWorld P ST -> Prop).
Context (J_ext : forall w w', w'.(sw_st) = w.(sw_st) -> w'.(sw_log) = w.(sw_log) -> J w -> J w').
Context (J_log : forall w o, isAction o = false -> J w -> J {| w with sw_log := w.(sw_log) ++ [o] |}).
Context (J_pos : forall w h r, J w -> J {| w with sw_st := (ss_SetStateMachineHeightRound h r w.(sw_st)).1 |}).
Context (J_fin : forall w h r hash vals app, J w ->
  J {| w with sw_st := (ss_SaveFinalization h r hash vals app w.(sw_st)).1 |}).
Context (K_proposal : forall p, keeps J (recordProposedHeader m p)).
Context (K_prevote : forall hash, keeps J (recordVote m sg_Prevote ss_SavePrevoteAction actPrevote hash)).
Context (K_precommit : forall hash, keeps J (recordVote m sg_Precommit ss_SavePrecommitAction actPrecommit hash)).
Context (K_resume : forall vrv, keeps J (resumeProposal m vrv)).

Lemma tr_place w w' : w'.(sw_st) = w.(sw_st) -> w'.(sw_log) = w.(sw_log) ->
  samePlace w.(sw_rlc) w'.(sw_rlc) -> (w.(sw_next) <= w'.(sw_next))%nat -> J w -> J w'.
Proof. intros Es El _ _. by apply J_ext. Qed.
Lemma tr_core w w' : w'.(sw_st) = w.(sw_st) -> w'.(sw_log) = w.(sw_log) ->
  sameCore w.(sw_rlc) w'.(sw_rlc) -> (w.(sw_next) <= w'.(sw_next))%nat -> J w -> J w'.
Proof. intros Es El _ _. by apply J_ext. Qed.
Lemma tr_quiet w o : quiet o = true -> J w -> J {| w with sw_log := w.(sw_log) ++ [o] |}.
Proof. intros Ho. apply J_log. by destruct o. Qed.
Lemma tr_reset w h r : J w ->
  J {| w with sw_rlc := RLC_Reset h r w.(sw_next) w.(sw_rlc); sw_next := (w.(sw_next) + resetChans)%nat |}.
Proof. by apply J_ext. Qed.

Ltac tr :=
  first [ exact tr_place | exact tr_core | exact tr_quiet | exact tr_reset
        | requests tr_core J_log | assumption
        | intros; first [by apply J_pos | by apply tr_reset] ].

(** Such an invariant holds in every run. *)
Lemma trace_invariant s s' : rtc (smstep m) s s' -> J s.(sy_w) -> J s'.(sy_w).
Proof.
  assert (Hover : keeps J (commitWaitOver m)) by (apply pl_commitWaitOver; tr).
  assert (Hfin : forall resp, keeps J (handleFinalization m resp)) by (intros; apply pl_handleFinalization; tr).
  intros Hr. apply (rtc_invariant m J); try done.
  - intros w. by apply J_ext.
  - intros w. by apply J_ext.
  - intros w l. by apply J_ext.
  - intros w i. destruct i; by apply J_ext.
  - intros g. apply pl_initializeRLC; first [tr|exact K_resume].
  - intros i w Hw _ _. revert w Hw. change (keeps J (handleLiveEvent m i)).
    destruct i as [v|c p|c he|c he|c resp|t|c|a]; [| | | |apply Hfin|..];
      (apply fr_handleLiveEvent; try tr; done).
  - intros resp. apply pl_handleCatchupEvent; tr.
Qed.
End traces.
