(* ===== verification/StateMachineExample.v ===== *)
(** A concrete state machine to evaluate the handlers on: the validator "a" of the four of
    KernelExample, with a pass-through signer and the in-memory stores. *)
From S2P Require Import Prelude.
From S2P Require Import Types.
From S2P Require Import VoteSummary.
From S2P Require Import RoundView.
From S2P Require Import Stores.
From S2P Require Import Managers.
From S2P Require Import KernelBase.
From S2P Require Import KernelExample.
From S2P Require Import RoundLifecycle.
From S2P Require Import StateMachineBase.
From S2P Require Import StateMachine.
From S2P Require Import StateMachineRun.
From stdpp Require Import relations.
Local Open Scope Z_scope.

Definition exKey : PubKey := MkPubKey "toy" "a".
Definition exSigner : Signer := PassthroughSigner exKey (fun c => Ok ("a" +:+ c)) toySigScheme.
Definition exGenesis : Genesis := MkGenesis "chain" 1 "app" toyValSet.
Definition exConfig : SMConfig := MkSMConfig (Some exSigner) toyHashScheme exGenesis.

(** The finalization of the genesis, under the height before the initial one. *)
Definition exStores : MemSMStores :=
  {| NewMemSMStores with mm_fins := {[0 := FinalizationStore.MkFin 0 0 nilHash toyValSet "app"]} |}.

Definition exSummary (prevotes precommits : list (bytes * Z)) (mostPv mostPc : bytes) : VoteSummary :=
  let total l := foldr (fun e a => e.2 + a) 0 l in
  MkVoteSummary 4 (total prevotes) (total precommits) (Some (list_to_map prevotes)) (Some (list_to_map precommits))
    mostPv mostPc.
Definition exNoVotes : VoteSummary := exSummary [] [] nilHash nilHash.

(** A header for height [h] that fits the genesis state. *)
Definition exPH (h r : Z) (hash : bytes) : ProposedHeader :=
  MkProposedHeader (MkHeader hash nilHash h CommitProof_zero toyValSet toyValSet hash "app"
                      (MkAnnotations nilHash nilHash)) r (Some (MkPubKey "toy" "b"))
    (MkAnnotations nilHash nilHash) "sig".

Definition exView (h r v : Z) (phs : list ProposedHeader) (vs : VoteSummary) : VersionedRoundView TP :=
  MkVRV (MkRoundView h r toyValSet CommitProof_zero phs gm_make gm_make vs) v 1 1 None None.

Definition exEnter (v : VersionedRoundView TP) : list (Answer TP) :=
  [AnsEntrance (MkRER v CommittedHeader_zero); AnsEntered None].
Definition exReplay (h r : Z) (hash : bytes) : list (Answer TP) :=
  [AnsEntrance (MkRER VRV_zero (MkCommittedHeader (ph_Header (exPH h r hash)) (MkCommitProof r nilHash None)))].

Definition exUpdate (v : VersionedRoundView TP) : SMInput TP := InView (MkSMRV v None).

Definition exSys : Type := SMSys TP MemSMStores.

(** The first start: height 1, round 0, with nothing there yet. *)
Definition exStart : exSys :=
  start exConfig (exEnter (exView 1 0 1 [] exNoVotes)) (smInit exStores).(sy_w).

(** A header arrives, and the strategy selects it. *)
Definition exProposed : exSys :=
  live exConfig (exUpdate (exView 1 0 2 [exPH 1 0 "x"] exNoVotes)) [AnsTaken true] exStart.(sy_w).
Definition exPrevoteChan : nat := match exProposed.(sy_w).(sw_rlc).(rl_PrevoteHashCh) with Some c => c | None => 0%nat end.
Definition exPrevoted : exSys :=
  live exConfig (InPrevoteHash exPrevoteChan (MkSelection "x" None)) [] exProposed.(sy_w).

Example ex_positions :
  exStart.(sy_mode) = LiveLoop /\ exStart.(sy_w).(sw_rlc).(rl_S) = StepAwaitingProposal /\
  exPrevoted.(sy_w).(sw_rlc).(rl_S) = StepAwaitingPrevotes /\
  prevoteAt 1 0 exPrevoted.(sy_w).(sw_st) = Some ("x", "aV" +:+ String "001" (String "000" "x")).
Proof. vm_compute. split_and!; reflexivity. Qed.

(** The vote sent. *)
Definition exPrevote : ScopedSignature :=
  MkScopedSignature "x" ("V" +:+ String "001" (String "000" "x")) ("aV" +:+ String "001" (String "000" "x")).

Definition exConsider : CMRequest TP :=
  ConsiderProposedBlocksRequest [exPH 1 0 "x"] (MkReason ["x"] [] false) (Some exPrevoteChan).

(** The process restarts in the same round, and the strategy now selects another hash. *)
Definition exRestarted : exSys :=
  start exConfig (exEnter (exView 1 0 3 [exPH 1 0 "x"] exNoVotes)) exPrevoted.(sy_w).
Definition exSecondChan : nat :=
  match exRestarted.(sy_w).(sw_rlc).(rl_PrevoteHashCh) with Some c => c | None => 0%nat end.
Definition exSecond : exSys :=
  live exConfig (InPrevoteHash exSecondChan (MkSelection "y" None)) [] exRestarted.(sy_w).
Definition exConsiderAgain : CMRequest TP :=
  ConsiderProposedBlocksRequest [exPH 1 0 "x"] (MkReason ["x"] [] false) (Some exSecondChan).

Lemma ex_run_prevoted : rtc (smstep exConfig) (smInit exStores) exPrevoted.
Proof.
  apply (rtc_l _ _ exStart); [apply step_start|].
  apply (rtc_l _ _ exProposed); [apply step_live; [vm_compute; reflexivity|exact I|exact I]|].
  apply (rtc_l _ _ exPrevoted); [|apply rtc_refl].
  apply step_live; [vm_compute; reflexivity|vm_compute; reflexivity|].
  exists 1, 0, exConsider, ("x", None). split; [|reflexivity].
  apply (list_elem_of_lookup_2 _ 4). vm_compute. reflexivity.
Qed.

Lemma ex_run_second : rtc (smstep exConfig) (smInit exStores) exSecond.
Proof.
  transitivity exPrevoted; [apply ex_run_prevoted|].
  apply (rtc_l _ _ exRestarted); [apply step_start|].
  apply (rtc_l _ _ exSecond); [|apply rtc_refl].
  apply step_live; [vm_compute; reflexivity|vm_compute; reflexivity|].
  exists 1, 0, exConsiderAgain, ("y", None). split; [|reflexivity].
  apply (list_elem_of_lookup_2 _ 9). vm_compute. reflexivity.
Qed.
