(* ===== verification/StateMachineSigning.v ===== *)
(** The state machine never signs two different proposals, prevotes or precommits for one height and
    round, however often the process restarts: every action is in the action store before it is sent. *)
From S2P Require Import Prelude.
From S2P Require Import Types.
From S2P Require Import Stores.
From S2P Require Import Managers.
From S2P Require Import KernelBase.
From S2P Require Import RoundLifecycle.
From S2P Require Import StateMachineBase.
From S2P Require Import StateMachine.
From S2P Require Import StateMachineRun.
From S2P Require Import StateMachineFrames.
From S2P Require Import KernelExample.
From S2P Require Import StateMachineExample.
From stdpp Require Import relations.
Local Open Scope Z_scope.

Section signing.
Context {P ST : Type} `{SMStoresLaws ST}.
Context (m : SMConfig).
Implicit Types (w : SMWorld P ST).

(** What an action store remembers is never forgotten or replaced. *)
Record remembers (s s' : ST) : Prop := {
  rm_proposal h r ph : proposalAt h r s = Some ph -> ph.(ph_Header).(Height) <> 0 -> proposalAt h r s' = Some ph;
  rm_prevote h r x : prevoteAt h r s = Some x -> prevoteAt h r s' = Some x;
  rm_precommit h r x : precommitAt h r s = Some x -> precommitAt h r s' = Some x
}.

Lemma sameActions_remembers s s' : sameActions s s' -> remembers s s'.
Proof. intros [Hp Hv Hc]. split; intros h r x; rewrite ?Hp, ?Hv, ?Hc; auto. Qed.

Lemma remembers_ph ph s : remembers s (ss_SaveProposedHeaderAction ph s).1.
Proof.
  destruct (ss_SaveProposedHeaderAction ph s) as [s' [e|]] eqn:E; simpl.
  - by eapply sameActions_remembers, ssl_ph_err.
  - destruct (ssl_ph_ok _ _ _ E) as (Hz & _ & Hfr & Hv). split; intros h r x.
    + intros Hx Hh. rewrite Hfr; [done|]. intros [= -> ->]. by rewrite Hx in Hz.
    + by rewrite (proj1 (Hv h r)).
    + by rewrite (proj2 (Hv h r)).
Qed.

Lemma remembers_prevote key vt sig s : remembers s (ss_SavePrevoteAction key vt sig s).1.
Proof.
  destruct (ss_SavePrevoteAction key vt sig s) as [s' [e|]] eqn:E; simpl.
  - by eapply sameActions_remembers, ssl_prevote_err.
  - destruct (ssl_prevote_ok _ _ _ _ _ E) as (Hz & _ & Hfr & Hv). split; intros h r x.
    + by rewrite (proj1 (Hv h r)).
    + intros Hx. rewrite Hfr; [done|]. intros [= -> ->]. by rewrite Hx in Hz.
    + by rewrite (proj2 (Hv h r)).
Qed.

Lemma remembers_precommit key vt sig s : remembers s (ss_SavePrecommitAction key vt sig s).1.
Proof.
  destruct (ss_SavePrecommitAction key vt sig s) as [s' [e|]] eqn:E; simpl.
  - by eapply sameActions_remembers, ssl_precommit_err.
  - destruct (ssl_precommit_ok _ _ _ _ _ E) as (Hz & _ & Hfr & Hv). split; intros h r x.
    + by rewrite (proj1 (Hv h r)).
    + by rewrite (proj2 (Hv h r)).
    + intros Hx. rewrite Hfr; [done|]. intros [= -> ->]. by rewrite Hx in Hz.
Qed.

(** An action is what the signer made for its height and round, and the store has it. *)
Inductive recorded (st : ST) (h r : Z) : StateMachineRoundAction -> Prop :=
| rec_ph ph : (ph.(ph_Header).(Height) <> 0 -> proposalAt h r st = Some ph) -> recorded st h r (actPH ph)
| rec_prevote sg hash content sig :
    m.(m_signer) = Some sg -> sg_Prevote sg (MkVoteTarget h r hash) = Ok (content, sig) ->
    (sig <> nilHash -> prevoteAt h r st = Some (hash, sig)) ->
    recorded st h r (actPrevote (MkScopedSignature hash content sig))
| rec_precommit sg hash content sig :
    m.(m_signer) = Some sg -> sg_Precommit sg (MkVoteTarget h r hash) = Ok (content, sig) ->
    (sig <> nilHash -> precommitAt h r st = Some (hash, sig)) ->
    recorded st h r (actPrecommit (MkScopedSignature hash content sig)).

Lemma recorded_remembers s s' h r act : remembers s s' -> recorded s h r act -> recorded s' h r act.
Proof.
  intros [Hp Hv Hc] [ph Hph|sg hash c sig Hm Hs Hsig|sg hash c sig Hm Hs Hsig].
  - apply rec_ph. eauto.
  - eapply rec_prevote; eauto.
  - eapply rec_precommit; eauto.
Qed.

Definition actionsRecorded w : Prop :=
  forall h r act, OutAction h r act ∈ w.(sw_log) -> recorded w.(sw_st) h r act.

Lemma actionsRecorded_st w s' : remembers w.(sw_st) s' -> actionsRecorded w ->
  actionsRecorded {| w with sw_st := s' |}.
Proof. intros Hr Hw h r act Hin. eapply recorded_remembers, Hw, Hin. done. Qed.

Lemma actionsRecorded_send act w : actionsRecorded w ->
  recorded w.(sw_st) (rl_H w.(sw_rlc)) (rl_R w.(sw_rlc)) act ->
  swp (sendAction act) w (fun _ => actionsRecorded) (fun _ => actionsRecorded).
Proof.
  intros Hw Hr. unfold sendAction. apply swp_bind, swp_getR. destruct (rl_OutgoingActionsCh _).
  - apply swp_sendS. intros h r a [Hin|[= -> -> ->]%list_elem_of_singleton]%elem_of_app; simpl; auto.
  - by apply swp_blockedS.
Qed.

(** Saving an action, and sending it when it was saved. *)
Lemma actionsRecorded_save (f : ST -> ST * option error) (act : StateMachineRoundAction) w :
  actionsRecorded w -> remembers w.(sw_st) (f w.(sw_st)).1 ->
  (forall s', f w.(sw_st) = (s', None) -> recorded s' (rl_H w.(sw_rlc)) (rl_R w.(sw_rlc)) act) ->
  swp (err ← storeS f; match err with Some _ => mret false | None => _ ← sendAction act; mret true end) w
    (fun _ => actionsRecorded) (fun _ => actionsRecorded).
Proof.
  intros Hw Hrem Hrec. apply swp_bind, swp_storeS. intros s' e E. rewrite E in Hrem. simpl in Hrem.
  pose proof (actionsRecorded_st w s' Hrem Hw) as Hw'. destruct e as [e|]; [done|].
  apply swp_bind. eapply swp_mono; [| |apply (actionsRecorded_send act _ Hw')]; [done|done|].
  simpl. by apply Hrec.
Qed.

Lemma actionsRecorded_proposal p : keeps actionsRecorded (recordProposedHeader (ST := ST) m p).
Proof.
  intros w Hw. unfold recordProposedHeader, derefVRV. apply swp_bind, swp_getR, swp_bind, swp_bind, swp_getR.
  destruct (rl_VRV _) as [vrv|]; [|done]. apply swp_ret. destruct (m_signer m) as [sg|]; [|done].
  destruct (hs_Block _ _); [|done]. destruct (sg_SignProposedHeader _ _); [|done].
  apply actionsRecorded_save; [done|apply remembers_ph|]. intros s' Es. apply rec_ph. intros _.
  apply (ssl_ph_ok _ _ _ Es).
Qed.

Lemma actionsRecorded_prevote hash :
  keeps actionsRecorded (recordVote (P := P) m sg_Prevote ss_SavePrevoteAction actPrevote hash).
Proof.
  intros w Hw. unfold recordVote. apply swp_bind, swp_getR. destruct (isParticipating _ _); [|done].
  destruct (m_signer m) as [sg|] eqn:Em; [|done]. destruct (sg_Prevote _ _) as [[c sig]|] eqn:Es; [|done].
  apply actionsRecorded_save; [done|apply remembers_prevote|]. intros s' E. eapply rec_prevote; [done|done|].
  intros Hs. destruct (ssl_prevote_ok _ _ _ _ _ E) as (_ & Hv & _). simpl in Hv. rewrite Hv.
  unfold signedAs. by destruct (String.eqb_spec sig nilHash).
Qed.

Lemma actionsRecorded_precommit hash :
  keeps actionsRecorded (recordVote (P := P) m sg_Precommit ss_SavePrecommitAction actPrecommit hash).
Proof.
  intros w Hw. unfold recordVote. apply swp_bind, swp_getR. destruct (isParticipating _ _); [|done].
  destruct (m_signer m) as [sg|] eqn:Em; [|done]. destruct (sg_Precommit _ _) as [[c sig]|] eqn:Es; [|done].
  apply actionsRecorded_save; [done|apply remembers_precommit|]. intros s' E. eapply rec_precommit; [done|done|].
  intros Hs. destruct (ssl_precommit_ok _ _ _ _ _ E) as (_ & Hv & _). simpl in Hv. rewrite Hv.
  unfold signedAs. by destruct (String.eqb_spec sig nilHash).
Qed.

Lemma actionsRecorded_resume vrv : keeps actionsRecorded (resumeProposal (ST := ST) m vrv).
Proof.
  intros w Hw. unfold resumeProposal. destruct (m_signer m) as [sg|]; [|done]. destruct (existsb _ _).
  { apply swp_bind, swp_modR. done. }
  apply swp_bind, swp_getR, swp_bind, swp_loadS.
  destruct (ss_LoadActions _ _ _) as [ra|e] eqn:El; [|by destruct (isUnknownRound _ _ _)].
  destruct (ActionStore.ra_ProposedHeader ra) as [ph|] eqn:Eph; [|done]. destruct (_ =? 0); [done|].
  apply swp_bind, swp_modR, swp_bind. eapply swp_mono; [| |apply actionsRecorded_send]; [done|done|done|].
  apply rec_ph. intros _. simpl. unfold proposalAt, actionsAt. by rewrite El.
Qed.

Lemma actionsRecorded_run s s' : rtc (smstep (P := P) m) s s' -> actionsRecorded s.(sy_w) -> actionsRecorded s'.(sy_w).
Proof.
  apply trace_invariant.
  - intros w w' Es El Hw h r act. rewrite El, Es. apply Hw.
  - intros w o Ho Hw h r act [Hin|Hin%list_elem_of_singleton]%elem_of_app; [by apply Hw|by subst].
  - intros w h r. apply actionsRecorded_st, sameActions_remembers, ssl_hr_actions.
  - intros w h r hash vals app. apply actionsRecorded_st, sameActions_remembers, ssl_fin_actions.
  - apply actionsRecorded_proposal.
  - apply actionsRecorded_prevote.
  - apply actionsRecorded_precommit.
  - apply actionsRecorded_resume.
Qed.

Lemma recorded_prevote_eq st h r a b : recorded st h r (actPrevote a) -> recorded st h r (actPrevote b) ->
  a.(sc_Sig) <> nilHash -> b.(sc_Sig) <> nilHash -> a = b.
Proof.
  intros Ha Hb. inversion Ha as [ph _ Ep|sg hash c sig Hm Hs Hst Ep|sg hash c sig Hm Hs Hst Ep]; subst;
    inversion Hb as [ph' _ Ep'|sg' hash' c' sig' Hm' Hs' Hst' Ep'|sg' hash' c' sig' Hm' Hs' Hst' Ep']; subst;
    simpl; try done.
  intros Hn Hn'. rewrite Hst in Hst' by done. specialize (Hst' Hn'). simplify_eq. congruence.
Qed.

Lemma recorded_precommit_eq st h r a b : recorded st h r (actPrecommit a) -> recorded st h r (actPrecommit b) ->
  a.(sc_Sig) <> nilHash -> b.(sc_Sig) <> nilHash -> a = b.
Proof.
  intros Ha Hb. inversion Ha as [ph _ Ep|sg hash c sig Hm Hs Hst Ep|sg hash c sig Hm Hs Hst Ep]; subst;
    inversion Hb as [ph' _ Ep'|sg' hash' c' sig' Hm' Hs' Hst' Ep'|sg' hash' c' sig' Hm' Hs' Hst' Ep']; subst;
    simpl; try done.
  intros Hn Hn'. rewrite Hst in Hst' by done. specialize (Hst' Hn'). simplify_eq. congruence.
Qed.

Lemma recorded_ph_eq st h r a b : recorded st h r (actPH a) -> recorded st h r (actPH b) ->
  a.(ph_Header).(Height) <> 0 -> b.(ph_Header).(Height) <> 0 -> a = b.
Proof.
  intros Ha Hb. inversion Ha as [ph Hph Ep|sg hash c sig Hm Hs Hst Ep|sg hash c sig Hm Hs Hst Ep]; subst;
    inversion Hb as [ph' Hph' Ep'|sg' hash' c' sig' Hm' Hs' Hst' Ep'|sg' hash' c' sig' Hm' Hs' Hst' Ep']; subst;
    simpl; try done.
  intros Hn Hn'. rewrite Hph in Hph' by done. specialize (Hph' Hn'). congruence.
Qed.
End signing.

(** C12: no double signing.  In any run of the state machine, with any number of crashes and restarts on
    the same stores, any answers of the mirror, the strategy and the application, and whatever the stores
    held at first, at most one proposal, one prevote and one precommit with a signature leaves the state
    machine for each height and round. *)
Theorem sm_no_double_sign {P ST : Type} `{SMStoresLaws ST} (m : SMConfig) (st : ST) (s : SMSys P ST) h r :
  rtc (smstep m) (smInit st) s ->
  (forall a b, OutAction h r (actPrevote a) ∈ s.(sy_w).(sw_log) -> OutAction h r (actPrevote b) ∈ s.(sy_w).(sw_log) ->
     a.(sc_Sig) <> nilHash -> b.(sc_Sig) <> nilHash -> a = b) /\
  (forall a b, OutAction h r (actPrecommit a) ∈ s.(sy_w).(sw_log) ->
     OutAction h r (actPrecommit b) ∈ s.(sy_w).(sw_log) ->
     a.(sc_Sig) <> nilHash -> b.(sc_Sig) <> nilHash -> a = b) /\
  (forall a b, OutAction h r (actPH a) ∈ s.(sy_w).(sw_log) -> OutAction h r (actPH b) ∈ s.(sy_w).(sw_log) ->
     a.(ph_Header).(Height) <> 0 -> b.(ph_Header).(Height) <> 0 -> a = b).
Proof.
  intros Hr. pose proof (actionsRecorded_run m _ _ Hr) as Hw. unfold actionsRecorded in Hw. simpl in Hw.
  specialize (Hw ltac:(intros ? ? ? Hin; by apply elem_of_nil in Hin)). split_and!; intros a b Ha Hb.
  - by apply (recorded_prevote_eq m s.(sy_w).(sw_st) h r); apply Hw.
  - by apply (recorded_precommit_eq m s.(sy_w).(sw_st) h r); apply Hw.
  - by apply (recorded_ph_eq m s.(sy_w).(sw_st) h r); apply Hw.
Qed.

(** After a prevote for "x", a restart in which the strategy selects "y" sends nothing more. *)
Lemma sm_no_double_sign_witness :
  rtc (smstep exConfig) (smInit exStores) exSecond /\ exSecond.(sy_mode) = Down /\
  OutAction 1 0 (actPrevote exPrevote) ∈ exSecond.(sy_w).(sw_log) /\
  (forall b, OutAction 1 0 (actPrevote b) ∈ exSecond.(sy_w).(sw_log) -> b.(sc_Sig) <> nilHash -> exPrevote = b).
Proof.
  split; [exact ex_run_second|]. split; [vm_compute; reflexivity|].
  assert (Hin : OutAction 1 0 (actPrevote exPrevote) ∈ exSecond.(sy_w).(sw_log)).
  { apply (list_elem_of_lookup_2 _ 5). vm_compute. reflexivity. }
  split; [exact Hin|]. intros b Hb Hn.
  destruct (sm_no_double_sign exConfig exStores exSecond 1 0 ex_run_second) as (Hpv & _).
  apply (Hpv exPrevote b Hin Hb); [discriminate|exact Hn].
Defined.
