(* ===== verification/StateMachineRefine.v ===== *)
(** Every event the state machine handles is a sequence of transitions of the abstract round protocol
    (StateMachineSpec). *)
From S2P Require Import Prelude.
From S2P Require Import Types.
From S2P Require Import Powers.
From S2P Require Import VoteSummary.
From S2P Require Import RoundView.
From S2P Require Import Stores.
From S2P Require Import Managers.
From S2P Require Import KernelBase.
From S2P Require Import RoundLifecycle.
From S2P Require Import StateMachineBase.
From S2P Require Import StateMachine.
From S2P Require Import StateMachineSpec.
From S2P Require Import StateMachineRun.
From S2P Require Import StateMachineFrames.
From S2P Require Import KernelExample.
From S2P Require Import StateMachineExample.
From stdpp Require Import relations.
Local Open Scope Z_scope.

(** ** Computations that leave the position alone *)

Definition posIs {P ST : Type} (l : list (Answer P)) (p : Pos) (w : SMWorld P ST) : Prop :=
  posOf w.(sw_rlc) = p /\ (forall a, a ∈ w.(sw_answers) -> a ∈ l).

Section still_ops.
Context {P ST : Type} `{!SMStores ST}.
Context (l : list (Answer P)) (p : Pos).
Local Abbreviation still := (keeps (ST := ST) (posIs l p)).

Lemma still_modR f : (forall rlc, posOf (f rlc) = posOf rlc) -> still (modR f).
Proof. intros Hf. apply keeps_modR. intros w [Hp Hl]. split; [simpl; by rewrite Hf|done]. Qed.

Lemma still_answerS {A} (f : Answer P -> option A) : still (answerS f).
Proof.
  intros w [Hp Hl]. apply swp_answerS; [done|]. intros a x l' El _. split; [done|]. simpl.
  intros b Hb. apply Hl. rewrite El. by apply list_elem_of_further.
Qed.

Lemma still_sendS o : still (sendS o).
Proof. by apply keeps_sendS. Qed.
Lemma still_storeS f : still (storeS f).
Proof. by apply keeps_storeS. Qed.
Lemma still_startTimer kind : still (startTimer kind).
Proof. intros w Hw. unfold swp, startTimer. by destruct (sw_timer w). Qed.
Lemma still_stopTimer t : still (stopTimer t).
Proof. by intros w Hw. Qed.
Lemma still_markNew phs reason : still (markNew phs reason).
Proof. by intros w Hw. Qed.
End still_ops.

Create HintDb still discriminated.
#[export] Hint Resolve keeps_ret keeps_getR keeps_loadS keeps_panicS keeps_blockedS keeps_liftS
  still_answerS still_sendS still_storeS still_startTimer still_stopTimer still_markNew : still.

Ltac still_step :=
  first
    [ progress (eauto 1 with still nocore)
    | apply still_modR; reflexivity
    | apply keeps_bind; [|intros ?]
    | match goal with
      | |- keeps _ (match ?x with _ => _ end) => destruct x
      end ].
Ltac still_tac := repeat still_step.

Section still_handlers.
Context {P ST : Type} `{!SMStores ST}.
Context (l : list (Answer P)) (p : Pos).
Local Abbreviation still := (keeps (ST := ST) (posIs l p)).

Lemma still_sendCM req : still (sendCM req).
Proof. unfold sendCM. still_tac. Qed.
Lemma still_sendFinalize hd rd : still (sendFinalize hd rd).
Proof. unfold sendFinalize. still_tac. Qed.
Lemma still_sendAction act : still (sendAction act).
Proof. unfold sendAction. still_tac. Qed.
Lemma still_cancelStepTimer : still cancelStepTimer.
Proof. unfold cancelStepTimer. still_tac. Qed.
Lemma still_derefVRV : still derefVRV.
Proof. unfold derefVRV. still_tac. Qed.
Lemma still_clearConsidered : still clearConsidered.
Proof. unfold clearConsidered. still_tac. Qed.
Lemma still_setVRV vrv : still (setVRV vrv).
Proof. unfold setVRV. still_tac. Qed.
#[local] Hint Resolve still_sendCM still_sendFinalize still_sendAction still_cancelStepTimer still_derefVRV : still.
Lemma still_sendCMTimed req msg : still (sendCMTimed req msg).
Proof. unfold sendCMTimed. still_tac. Qed.
Lemma still_decidePrecommit vrv : still (decidePrecommit vrv).
Proof. unfold decidePrecommit. still_tac. Qed.
Lemma still_considerPHs send phs b : (forall req, still (send req)) -> still (considerPHs send phs b).
Proof. intros. unfold considerPHs. still_tac. Qed.
Lemma still_choosePH send phs : (forall req, still (send req)) -> still (choosePH send phs).
Proof. intros. unfold choosePH. still_tac. Qed.
Lemma still_considerArrived phs ids : still (considerArrived phs ids).
Proof. unfold considerArrived. still_tac. Qed.
Lemma still_cancelIfStep s : still (cancelIfStep s).
Proof. unfold cancelIfStep. still_tac. Qed.
Lemma still_startInitialTimer : still startInitialTimer.
Proof. unfold startInitialTimer. still_tac. Qed.
Lemma still_awaitEntrance : still awaitEntrance.
Proof. unfold awaitEntrance. still_tac. Qed.
Lemma still_enterRound rv : still (enterRound rv).
Proof. unfold enterRound. still_tac. Qed.
Lemma still_handleCommitWaitViewUpdate vrv : still (handleCommitWaitViewUpdate vrv).
Proof. unfold handleCommitWaitViewUpdate. still_tac. Qed.
Lemma still_recordVote m sign save act hash : still (recordVote m sign save act hash).
Proof. unfold recordVote. still_tac. Qed.
Lemma still_recordProposedHeader m q : still (recordProposedHeader m q).
Proof. unfold recordProposedHeader. still_tac. Qed.
End still_handlers.

#[export] Hint Resolve still_sendCM still_sendFinalize still_sendAction still_cancelStepTimer still_derefVRV
  still_clearConsidered still_setVRV still_sendCMTimed still_decidePrecommit still_cancelIfStep
  still_startInitialTimer still_awaitEntrance still_enterRound still_handleCommitWaitViewUpdate
  still_recordVote still_recordProposedHeader still_considerArrived : still.
#[export] Hint Extern 1 (keeps _ (choosePH _ _)) => (apply still_choosePH; intros; still_tac) : still.
#[export] Hint Extern 1 (keeps _ (considerPHs _ _ _)) => (apply still_considerPHs; intros; still_tac) : still.

Section refine.
Context {P ST : Type} `{!SMStores ST}.
Context (m : SMConfig) (i : SMInput P) (l : list (Answer P)).
Implicit Types (w : SMWorld P ST) (vrv : VersionedRoundView P).
Local Abbreviation M := (SM P ST).
Local Abbreviation run := (rtc (rtrans i l)).
Local Abbreviation posIs := (posIs l).

(** ** Computations that follow the protocol *)

(** From the position of [w], the computation makes transitions of the protocol. *)
Definition follows {A} (act : M A) w : Prop :=
  swp act w (fun _ w' => run (posOf w.(sw_rlc)) (posOf w'.(sw_rlc)) /\ (forall a, a ∈ w'.(sw_answers) -> a ∈ l))
    (fun _ _ => True).

(** [follows], once the position was reached by a run from [p0]. *)
Definition reaches {A} (p0 : Pos) (act : M A) w : Prop :=
  swp act w (fun _ w' => run p0 (posOf w'.(sw_rlc)) /\ (forall a, a ∈ w'.(sw_answers) -> a ∈ l)) (fun _ _ => True).

Definition from (p0 : Pos) w : Prop := run p0 (posOf w.(sw_rlc)) /\ (forall a, a ∈ w.(sw_answers) -> a ∈ l).

Lemma reaches_still {A} p0 (act : M A) w : (forall p, keeps (posIs p) act) -> from p0 w -> reaches p0 act w.
Proof.
  intros Hk [Hr Hl]. eapply swp_mono; [| |by apply (Hk (posOf w.(sw_rlc)) w)]; [|done].
  intros a w' [Hp Hl']. split; [by rewrite Hp|done].
Qed.

Lemma reaches_bind {A C} p0 (act : M A) (f : A -> M C) w :
  reaches p0 act w -> (forall a w', from p0 w' -> reaches p0 (f a) w') -> reaches p0 (act ≫= f) w.
Proof.
  intros Ha Hf. apply swp_bind. eapply swp_mono; [| |apply Ha]; [|done]. intros a w' Hw. by apply Hf.
Qed.

(** A computation that leaves the position alone, and then one that knows where it is. *)
Lemma reaches_then {A C} p0 p (act : M A) (f : A -> M C) w :
  keeps (posIs p) act -> posIs p w -> (forall a w', posIs p w' -> reaches p0 (f a) w') -> reaches p0 (act ≫= f) w.
Proof.
  intros Ha Hw Hf. apply swp_bind. eapply swp_mono; [| |by apply Ha]; [|done]. intros a w'. apply Hf.
Qed.

Lemma reaches_getR {C} p0 (f : RoundLifecycle P -> M C) w : reaches p0 (f w.(sw_rlc)) w -> reaches p0 (getR ≫= f) w.
Proof. done. Qed.

Lemma reaches_ret {A} p0 (a : A) w : from p0 w -> reaches p0 (mret a) w.
Proof. done. Qed.

Lemma reaches_stop {A} p0 (act : M A) w : (forall a w', act w <> SRet a w') -> reaches p0 act w.
Proof. intros Hn. unfold reaches, swp. destruct (act w) eqn:E; [|done|done]. by destruct (Hn a w0). Qed.

(** Moving to another step. *)
Lemma setStep_from p0 p s w : posIs p w -> run p0 (MkPos p.(p_H) p.(p_R) s) ->
  reaches p0 (setStep (P := P) (ST := ST) s) w.
Proof. intros [<- Hl] Hr. split; done. Qed.

Lemma reaches_setStep {C} p0 p s (f : unit -> M C) w : posIs p w ->
  (forall w', posIs (MkPos p.(p_H) p.(p_R) s) w' -> reaches p0 (f tt) w') ->
  reaches p0 (setStep s ≫= f) w.
Proof. intros [<- Hl] Hf. apply swp_bind, swp_modR, Hf. split; done. Qed.

(** ** Entering a round *)

(** From a position whose round was just left for the reason of [p0], with the step of [s]. *)
Definition entered (p0 : Pos) (h r : Z) (s : Step) : Prop :=
  forall s', entry s s' -> run p0 (MkPos h r s').

Lemma entered_here p0 h r s w : entered p0 h r s -> posIs (MkPos h r s) w -> from p0 w.
Proof. intros He [Hp Hl]. split; [|done]. rewrite Hp. apply He. by left. Qed.

Lemma posIs_at p0 p w : posIs p w -> run p0 p -> from p0 w.
Proof. intros [Hp Hl] Hr. split; [by rewrite Hp|done]. Qed.

Lemma reaches_settleStep p0 h r s s1 vrv w : entered p0 h r s -> entry s s1 -> posIs (MkPos h r s) w ->
  reaches p0 (settleStep (ST := ST) s1 vrv) w.
Proof.
  intros He Hs [Hp Hl]. unfold settleStep. apply swp_bind, swp_modR.
  apply (reaches_bind p0 startInitialTimer); [|intros ? ?; apply reaches_ret].
  apply reaches_still; [intros; eauto with still|]. injection Hp as Hh Hr _. split; [|done].
  unfold posOf. simpl. rewrite Hh, Hr. by apply He.
Qed.

Lemma reaches_beginCommit p0 h r s vrv w : posIs (MkPos h r s) w -> run p0 (MkPos h r StepCommitWait) ->
  reaches p0 (beginCommit (ST := ST) vrv) w.
Proof.
  intros Hw Hr. unfold beginCommit. eapply reaches_setStep; [done|]. intros w1 Hw1.
  apply reaches_still; [intros; still_tac|]. by eapply posIs_at.
Qed.

Lemma reaches_beginRoundLive p0 h r s (adv : M bool) vrv w :
  entered p0 h r s -> posIs (MkPos h r s) w ->
  (GetStepFromVoteSummary (vSummary vrv) = Ret StepCommitWait ->
   (vSummary vrv).(MostVotedPrecommitHash) = nilHash -> reaches p0 adv w) ->
  reaches p0 (beginRoundLive adv vrv) w.
Proof.
  intros He Hw Hadv. unfold beginRoundLive. apply swp_bind, swp_liftS; [done|]. intros st Est.
  destruct st; try done.
  - eapply (reaches_then p0); [still_tac|exact Hw|]. intros rlc w1 Hw1.
    eapply (reaches_then p0); [still_tac|exact Hw1|]. intros _ w2 Hw2.
    by eapply reaches_settleStep; [|right; left|].
  - eapply (reaches_then p0); [still_tac|exact Hw|]. intros _ w2 Hw2.
    by eapply reaches_settleStep; [|right; right; left|].
  - destruct (String.eqb_spec (MostVotedPrecommitHash (vSummary vrv)) nilHash) as [En|]; [by apply Hadv|].
    apply (reaches_bind p0 (beginCommit vrv)).
    + eapply reaches_beginCommit; [done|]. apply He. by right; right; right.
    + intros ok w1 Hw1. destruct ok; [|by apply reaches_ret]. apply reaches_still; [intros; still_tac|done].
Qed.

(** The mirror's answer is one of those provided. *)
Lemma awaitEntrance_spec p w : posIs p w ->
  swp (awaitEntrance (P := P) (ST := ST)) w (fun r w' => AnsEntrance r ∈ l /\ posIs p w') (fun _ _ => True).
Proof.
  intros [Hp Hl]. unfold awaitEntrance. apply swp_bind, swp_answerS; [done|]. intros a r l' El Ea.
  apply swp_bind, swp_sendS, swp_ret. destruct a; simplify_eq/=.
  split; [apply Hl; rewrite El; apply list_elem_of_here|]. split; [done|]. simpl. intros b Hb. apply Hl.
  rewrite El. by apply list_elem_of_further.
Qed.

Lemma reaches_advance p0 h r s (adv : M bool) h' r' w :
  entered p0 h r s -> posIs (MkPos h r s) w ->
  (forall w', nilEntered l -> posIs (MkPos h r s) w' -> reaches p0 adv w') ->
  reaches p0 (advance m adv h' r') w.
Proof.
  intros He Hw Hadv. unfold advance.
  eapply (reaches_then p0); [still_tac|exact Hw|]. intros rlc w1 Hw1.
  eapply (reaches_then p0); [still_tac|exact Hw1|]. intros _ w2 Hw2.
  apply swp_bind. eapply swp_mono; [| |apply (awaitEntrance_spec _ _ Hw2)]; [|done]. intros rer w3 [Hin Hw3].
  destruct (IsVRV rer) eqn:Ev.
  - eapply (reaches_then p0); [still_tac|exact Hw3|]. intros _ w4 Hw4.
    eapply (reaches_then p0); [still_tac|exact Hw4|]. intros err w5 Hw5. destruct err; [done|].
    eapply reaches_beginRoundLive; [done|exact Hw5|]. intros Es En. apply Hadv; [|done]. by exists rer.
  - apply reaches_still; [intros; still_tac|]. by eapply entered_here.
Qed.

(** Moving to a new position: the step of the old round stays until the new one is entered. *)
Lemma resetRLC_spec p h r w : posIs p w ->
  swp (resetRLC (P := P) (ST := ST) h r) w (fun _ w' => posIs (MkPos h r p.(p_S)) w') (fun _ _ => True).
Proof.
  intros [Hp Hl]. unfold resetRLC. apply swp_bind, swp_getR. apply swp_bind. subst p.
  destruct (rl_CancelTimer _); done.
Qed.

Lemma reaches_moveTo p0 h r s (adv : M bool) h' r' w :
  entered p0 h' r' s -> posIs (MkPos h r s) w ->
  (forall w', nilEntered l -> posIs (MkPos h' r' s) w' -> reaches p0 adv w') ->
  reaches p0 (moveTo m adv h' r') w.
Proof.
  intros He Hw Hadv. unfold moveTo. apply swp_bind.
  eapply swp_mono; [| |apply (resetRLC_spec _ h' r' _ Hw)]; [|done]. simpl. intros _ w1 Hw1.
  eapply (reaches_then p0); [still_tac|exact Hw1|]. intros err w2 Hw2. destruct err.
  - apply reaches_ret. by eapply entered_here.
  - by eapply reaches_advance.
Qed.

Lemma reaches_advanceRoundN p0 n : forall h r s w,
  entered p0 h (u32 (r + 1)) s -> posIs (MkPos h r s) w -> reaches p0 (advanceRoundN m n) w.
Proof.
  induction n as [|n IH]; intros h r s w He Hw; simpl; [done|]. unfold advanceRoundBody.
  apply reaches_getR. pose proof Hw as [Hp _]. injection Hp as Eh Er Es. rewrite Eh, Er.
  eapply reaches_moveTo; [exact He|exact Hw|]. intros w' Hnil Hw'. refine (IH _ _ _ _ _ Hw').
  intros s' Hs'. apply (rtc_r _ (MkPos h (u32 (r + 1)) s)); [apply He; by left|].
  apply (rt_round i l (MkPos h (u32 (r + 1)) s)); [by left|done].
Qed.

(** Leaving the round of [p] for a reason the protocol allows. *)
Lemma reaches_advanceRound p0 p w : run p0 p -> roundOver i l p -> posIs p w -> reaches p0 (advanceRound m) w.
Proof.
  intros Hr Ho Hw. destruct p as [h r s]. eapply reaches_advanceRoundN; [|exact Hw].
  intros s' Hs'. eapply rtc_r; [exact Hr|]. by apply (rt_round i l (MkPos h r s)).
Qed.

Lemma reaches_advanceHeight p0 p w : run p0 p -> heightOver i p -> posIs p w -> reaches p0 (advanceHeight m) w.
Proof.
  intros Hr Ho Hw. destruct p as [h r s]. unfold advanceHeight.
  eapply (reaches_then p0); [still_tac|exact Hw|]. intros _ w1 Hw1. apply reaches_getR.
  pose proof Hw1 as [Hp _]. injection Hp as Eh Er Es. rewrite Eh.
  assert (He : entered p0 (u64 (h + 1)) 0 s).
  { intros s' Hs'. eapply rtc_r; [exact Hr|]. by apply (rt_height i l (MkPos h r s)). }
  eapply reaches_moveTo; [exact He|exact Hw1|]. intros w' Hnil Hw'.
  apply (reaches_advanceRoundN _ _ (u64 (h + 1)) 0 s); [|done].
  intros s' Hs'. apply (rtc_r _ (MkPos (u64 (h + 1)) 0 s)); [apply He; by left|].
  apply (rt_round i l (MkPos (u64 (h + 1)) 0 s)); [by left|done].
Qed.
End refine.

(** ** View updates *)
Section views.
Context {P ST : Type} `{!SMStores ST}.
Context (m : SMConfig) (v : StateMachineRoundView P) (l : list (Answer P)).
Implicit Types (w : SMWorld P ST).
Local Abbreviation vrv := v.(smrv_VRV).
Local Abbreviation i := (InView v).
Local Abbreviation vs := (vSummary vrv).
Local Abbreviation run := (rtc (rtrans i l)).
Local Abbreviation posIs := (posIs l).
Local Abbreviation reaches := (reaches i l).

Context (h r maj min : Z) (Hh : vHeight vrv = h) (Hrd : vRound vrv = r).
Context (Hmaj : ByzantineMajority vs.(AvailablePower) = Ret maj).
Context (Hmin : ByzantineMinority vs.(AvailablePower) = Ret min).

(** A step the votes justify. *)
Lemma view_moves s s' : viewStep vs maj min s s' -> run (MkPos h r s) (MkPos h r s').
Proof.
  intros Hs. apply rtc_once, (rt_step i l (MkPos h r s)). exists maj, min. by split.
Qed.

Lemma view_ends s : viewEnds vs maj s -> roundOver i l (MkPos h r s).
Proof. intros He. right. left. exists maj, min. by split. Qed.

Lemma reaches_ignore p0 (act : SM P ST bool) w : reaches p0 act w -> reaches p0 (ignore act) w.
Proof. intros Ha. unfold ignore. apply (reaches_bind i l p0 act); [done|]. intros ok w' Hw'. by apply reaches_ret. Qed.

(** The step move, and then what leaves the position alone. *)
Lemma reaches_view_step {A} s s' (rest : SM P ST A) w :
  viewStep vs maj min s s' -> posIs (MkPos h r s) w -> (forall p, keeps (posIs p) rest) ->
  reaches (MkPos h r s) (_ ← setStep s'; rest) w.
Proof.
  intros Hs Hw Hk. eapply reaches_setStep; [exact Hw|]. intros w' Hw'. apply reaches_still; [done|].
  eapply posIs_at; [exact Hw'|]. by apply view_moves.
Qed.

Lemma reaches_onPrecommitMajority s w : voting s -> posIs (MkPos h r s) w -> maj <= vs.(TotalPrecommitPower) ->
  reaches (MkPos h r s) (onPrecommitMajority m maj vrv) w.
Proof.
  intros Hs Hw Ht. unfold onPrecommitMajority. destruct (Z.leb_spec maj (precommitPow vs)) as [Hp|Hp].
  - destruct (String.eqb_spec vs.(MostVotedPrecommitHash) nilHash) as [En|Hn]; apply reaches_ignore.
    + eapply reaches_advanceRound; [reflexivity| |exact Hw]. apply view_ends. split; [done|]. split; [done|]. by left.
    + eapply reaches_beginCommit; [exact Hw|]. apply view_moves. by apply vs_commit.
  - apply reaches_view_step; [by apply vs_precommits_split|done|]. intros p. still_tac.
Qed.

Ltac stay := apply reaches_still; [intros; still_tac|eapply posIs_at; [eassumption|reflexivity]].
Ltac skip := eapply reaches_then; [still_tac|eassumption|]; intros ? ? ?.

Lemma reaches_handleProposalViewUpdate w : posIs (MkPos h r StepAwaitingProposal) w ->
  reaches (MkPos h r StepAwaitingProposal) (handleProposalViewUpdate m vrv) w.
Proof.
  intros Hw. unfold handleProposalViewUpdate. rewrite Hmin, Hmaj.
  apply swp_bind, swp_liftS; [done|]. intros ? [= <-]. apply swp_bind, swp_liftS; [done|]. intros ? [= <-].
  destruct (Z.leb_spec maj vs.(TotalPrecommitPower)) as [Hc|Hc].
  { skip. by apply reaches_onPrecommitMajority. }
  destruct (Z.leb_spec min vs.(TotalPrecommitPower)) as [Hm|Hm].
  { skip. apply reaches_view_step; [by constructor|done|]. intros p. still_tac. }
  destruct (Z.leb_spec maj vs.(TotalPrevotePower)) as [Hv|Hv]; [|stay].
  skip. skip. destruct (Z.leb_spec maj (prevotePow vs)).
  - apply reaches_view_step; [apply vs_prevotes_agree; auto|done|]. intros p. still_tac.
  - apply reaches_view_step; [apply vs_prevotes_split; auto|done|]. intros p. still_tac.
Qed.

Lemma reaches_handlePrevoteViewUpdate s w : s = StepAwaitingPrevotes \/ s = StepPrevoteDelay ->
  posIs (MkPos h r s) w -> reaches (MkPos h r s) (handlePrevoteViewUpdate m vrv) w.
Proof.
  intros Hs Hw. unfold handlePrevoteViewUpdate. rewrite Hmaj. apply swp_bind, swp_liftS; [done|]. intros ? [= <-].
  destruct (Z.leb_spec maj vs.(TotalPrecommitPower)) as [Hc|Hc].
  { skip. apply reaches_onPrecommitMajority; [by destruct Hs as [->| ->]|done|done]. }
  destruct (Z.leb_spec maj vs.(TotalPrevotePower)) as [Hv|Hv]; [|stay].
  destruct (Z.leb_spec maj (prevotePow vs)).
  - skip. apply reaches_view_step; [apply vs_prevotes_agree; naive_solver|done|]. intros p. still_tac.
  - apply reaches_getR. case_bool_decide as Es; [|stay].
    assert (s = StepAwaitingPrevotes) as -> by (destruct Hw as [[=] _]; congruence).
    apply reaches_view_step; [apply vs_prevotes_split; auto|done|]. intros p. still_tac.
Qed.

Lemma reaches_handlePrecommitViewUpdate s w : s = StepAwaitingPrecommits \/ s = StepPrecommitDelay ->
  posIs (MkPos h r s) w -> reaches (MkPos h r s) (handlePrecommitViewUpdate m vrv) w.
Proof.
  intros Hs Hw. assert (Hvs : voting s) by (by destruct Hs as [->| ->]).
  unfold handlePrecommitViewUpdate. rewrite Hmaj. apply swp_bind, swp_liftS; [done|]. intros ? [= <-].
  destruct (Z.leb_spec maj vs.(TotalPrecommitPower)) as [Hc|Hc]; [|stay].
  destruct (Z.leb_spec maj (precommitPow vs)) as [Hp|Hp].
  - destruct (String.eqb_spec vs.(MostVotedPrecommitHash) nilHash) as [En|Hn].
    + apply reaches_ignore. eapply reaches_advanceRound; [reflexivity| |exact Hw].
      apply view_ends. split; [done|]. split; [done|]. by left.
    + skip. apply reaches_ignore. eapply reaches_beginCommit; [eassumption|]. apply view_moves. by apply vs_commit.
  - destruct (Z.eqb_spec vs.(TotalPrecommitPower) vs.(AvailablePower)) as [Ef|Hf].
    + apply reaches_ignore. eapply reaches_advanceRound; [reflexivity| |exact Hw].
      apply view_ends. split; [done|]. split; [done|]. by right.
    + apply reaches_getR. case_bool_decide as Es; [|stay].
      apply reaches_view_step; [by apply vs_precommits_split|done|]. intros p. still_tac.
Qed.

Lemma reaches_followView s w : posIs (MkPos h r s) w -> reaches (MkPos h r s) (followView m vrv) w.
Proof.
  intros Hw. unfold followView. apply reaches_getR.
  assert (Es : (sw_rlc w).(rl_S) = s) by (by destruct Hw as [[=] _]). rewrite Es.
  destruct s; try done.
  - by apply reaches_handleProposalViewUpdate.
  - apply reaches_handlePrevoteViewUpdate; auto.
  - apply reaches_handlePrevoteViewUpdate; auto.
  - apply reaches_handlePrecommitViewUpdate; auto.
  - apply reaches_handlePrecommitViewUpdate; auto.
  - unfold handleCommitWaitViewUpdate. stay.
  - unfold handleCommitWaitViewUpdate. stay.
Qed.
End views.

(** ** The other events *)
Section events.
Context {P ST : Type} `{!SMStores ST}.
Context (m : SMConfig).
Implicit Types (w : SMWorld P ST).

Lemma from_posIs i l p0 w : from i l p0 w -> exists p, posIs l p w /\ rtc (rtrans i l) p0 p.
Proof. intros [Hr Hl]. by exists (posOf w.(sw_rlc)). Qed.

(** Without available power a threshold panics; the commit wait does not look at it. *)
Lemma reaches_followView_any v l p w : posIs l p w -> vHeight v.(smrv_VRV) = p.(p_H) ->
  vRound v.(smrv_VRV) = p.(p_R) -> reaches (InView v) l p (followView m v.(smrv_VRV)) w.
Proof.
  intros Hw Hh Hr. destruct p as [h r s]. simpl in *.
  destruct (ByzantineMajority (AvailablePower (vSummary (smrv_VRV v)))) as [maj|] eqn:Emaj;
    destruct (ByzantineMinority (AvailablePower (vSummary (smrv_VRV v)))) as [min|] eqn:Emin.
  - by eapply reaches_followView.
  - unfold ByzantineMinority, ByzantineMajority in *. destruct (_ =? 0); [done|]. by destruct (_ =? 0).
  - unfold ByzantineMinority, ByzantineMajority in *. destruct (_ =? 0); [done|]. by destruct (_ <? 2).
  - unfold followView. apply reaches_getR.
    destruct (rl_S (sw_rlc w)); try done; unfold handleProposalViewUpdate, handlePrevoteViewUpdate,
      handlePrecommitViewUpdate; rewrite ?Emaj, ?Emin; try done.
    + apply reaches_still; [intros; still_tac|]. by eapply posIs_at.
    + apply reaches_still; [intros; still_tac|]. by eapply posIs_at.
Qed.

Lemma reaches_handleJumpAhead v l p0 j w : from (InView v) l p0 w -> v.(JumpAheadRoundView) = Some j ->
  reaches (InView v) l p0 (handleJumpAhead m j) w.
Proof.
  intros (p & Hw & Hr)%from_posIs Hj. unfold handleJumpAhead. apply reaches_getR.
  destruct (Z.eqb_spec (vHeight j) (rl_H (sw_rlc w))) as [Eh|]; [|done]. simpl.
  destruct (Z.leb_spec (vRound j) (rl_R (sw_rlc w))) as [|Er]; [done|]. apply reaches_ignore.
  eapply reaches_advanceRound; [exact Hr| |exact Hw]. right. right. exists j.
  destruct Hw as [<- _]. done.
Qed.

Lemma reaches_handleViewUpdate v l p w : posIs l p w -> reaches (InView v) l p (handleViewUpdate m v) w.
Proof.
  intros Hw. assert (Hp : from (InView v) l p w) by (by eapply posIs_at).
  unfold handleViewUpdate. destruct (vHeight (smrv_VRV v) =? 0).
  { destruct (JumpAheadRoundView v) eqn:Ej; [|done]. by apply reaches_handleJumpAhead. }
  apply reaches_getR. destruct (Z.eqb_spec (vHeight (smrv_VRV v)) (rl_H (sw_rlc w))) as [Eh|]; [|by apply reaches_ret].
  destruct (Z.eqb_spec (vRound (smrv_VRV v)) (rl_R (sw_rlc w))) as [Er|]; [|by apply reaches_ret]. simpl.
  eapply reaches_then; [still_tac|exact Hw|]. intros cur w1 Hw1.
  destruct (Version _ <=? Version cur); [apply reaches_still; [intros; still_tac|by eapply posIs_at]|].
  apply reaches_bind.
  { apply reaches_followView_any; [exact Hw1|by destruct Hw as [<- _]..]. }
  intros _ w2 Hw2. apply reaches_bind; [apply reaches_still; [intros; still_tac|done]|].
  intros cur' w3 Hw3. apply reaches_bind; [apply reaches_still; [intros; still_tac|done]|].
  intros _ w4 Hw4. destruct (JumpAheadRoundView v) eqn:Ej; [|by apply reaches_ret].
  by apply reaches_handleJumpAhead.
Qed.

Ltac skip := eapply reaches_then; [still_tac|eassumption|]; intros ? ? ?.
Ltac stay := apply reaches_still; [intros; still_tac|eapply posIs_at; [eassumption|reflexivity]].

Lemma reaches_commitWaitOver i l h r w : posIs l (MkPos h r StepCommitWait) w ->
  (exists t, i = InTimer t) \/ (exists c, i = InHeightCommitted c) ->
  reaches i l (MkPos h r StepCommitWait) (commitWaitOver m) w.
Proof.
  intros Hw Hi. unfold commitWaitOver. apply reaches_getR. destruct (Validators _).
  - eapply reaches_setStep; [exact Hw|]. intros w' Hw'. apply reaches_ret. eapply posIs_at; [exact Hw'|].
    apply rtc_once, (rt_step i l (MkPos h r StepCommitWait)).
    destruct Hi as [[t ->]|[c ->]]; simpl; auto.
  - eapply reaches_advanceHeight; [reflexivity| |exact Hw]. by destruct Hi as [[t ->]|[c ->]].
Qed.

Lemma reaches_handleTimerElapsed t l p w : posIs l p w ->
  reaches (InTimer t) l p (handleTimerElapsed m) w.
Proof.
  intros Hw. unfold handleTimerElapsed. apply reaches_getR. destruct p as [h r s].
  assert (Es : (sw_rlc w).(rl_S) = s) by (by destruct Hw as [[=] _]). rewrite Es.
  assert (Hstep : forall s', stepMove (P := P) (InTimer t) (MkPos h r s) s' ->
    rtc (rtrans (InTimer t) l) (MkPos h r s) (MkPos h r s')).
  { intros s' Hs'. by apply rtc_once, (rt_step (InTimer t) l (MkPos h r s)). }
  destruct s; try done.
  - skip. skip. skip. eapply reaches_setStep; [eassumption|]. intros w4 Hw4.
    apply reaches_still; [intros; still_tac|]. eapply posIs_at; [exact Hw4|]. apply Hstep. simpl. auto.
  - skip. skip. eapply reaches_setStep; [eassumption|]. intros w4 Hw4.
    apply reaches_still; [intros; still_tac|]. eapply posIs_at; [exact Hw4|]. apply Hstep. simpl. auto.
  - skip. eapply reaches_advanceRound; [reflexivity| |eassumption]. by right.
  - skip. skip. apply reaches_commitWaitOver; [done|]. left. by eexists.
Qed.

Lemma reaches_handleHeightCommitted c l p w : posIs l p w ->
  reaches (InHeightCommitted c) l p (handleHeightCommitted m) w.
Proof.
  intros Hw. unfold handleHeightCommitted. skip. apply reaches_getR.
  destruct p as [h r s]. assert (Es : rl_S (sw_rlc w') = s) by (by destruct H as [[=] _]).
  skip. skip. rewrite Es. destruct s; try done; [|by stay].
  apply reaches_commitWaitOver; [done|]. right. by eexists.
Qed.

Lemma reaches_handleFinalization c resp l p w : posIs l p w ->
  reaches (InFinalization c resp) l p (handleFinalization m resp) w.
Proof.
  intros Hw. unfold handleFinalization. destruct (fp_Validators resp); [done|].
  destruct (NewValidatorSet _ _) as [vals|]; [|by stay]. skip. apply reaches_getR.
  destruct (Z.eqb_spec (fp_Height resp) (rl_H (sw_rlc w'))) as [Eh|]; [|done].
  destruct (Z.eqb_spec (fp_Round resp) (rl_R (sw_rlc w'))) as [Er|]; [|done]. simpl.
  skip. destruct a0; [by stay|]. case_bool_decide as Es; [|by stay].
  eapply reaches_advanceHeight; [reflexivity| |eassumption]. destruct H as [<- _]. done.
Qed.

Lemma reaches_onPrevote c he l p w : posIs l p w ->
  reaches (InPrevoteHash c he) l p (onSelection he (recordPrevote m) (fun rlc => {| rlc with rl_PrevoteHashCh := None |})) w.
Proof.
  intros Hw. unfold onSelection. destruct (hs_Err he); [by stay|].
  apply reaches_bind; [|intros ok w' Hw'; apply reaches_still; [intros; still_tac|done]].
  unfold recordPrevote. skip. destruct a; [|by stay]. apply reaches_getR. case_bool_decide as Es; [|by stay].
  apply reaches_bind; [|intros ? ? ?; by apply reaches_ret].
  eapply reaches_setStep; [eassumption|]. intros w2 Hw2. apply reaches_still; [intros; still_tac|].
  eapply posIs_at; [exact Hw2|]. destruct p as [h r s]. apply rtc_once, (rt_step _ l (MkPos h r s)).
  destruct H as [[= Hh Hr Hs] _]. by rewrite <- Hs.
Qed.

Lemma reaches_handleLiveEvent i l p w : posIs l p w -> reaches i l p (handleLiveEvent m i) w.
Proof.
  intros Hw. destruct i as [v|c q|c he|c he|c resp|t|c|a]; simpl.
  - apply reaches_bind; [by apply reaches_handleViewUpdate|]. intros _ w' Hw'. by apply reaches_ret.
  - by stay.
  - by apply reaches_onPrevote.
  - unfold onSelection, recordPrecommit. by stay.
  - by apply reaches_handleFinalization.
  - by apply reaches_handleTimerElapsed.
  - by apply reaches_handleHeightCommitted.
  - unfold handleBlockDataArrival. by stay.
Qed.
End events.

(** C13: the state machine implements the round protocol.  Whatever it receives and from whatever state,
    if the handler returns then the height, round and step moved by a sequence of transitions of the
    abstract protocol: the step only advances on the votes, selection or timer that justify it, the round
    only ends by nil precommits, a full split, the precommit delay or a jump, and the height only after a
    commit wait or a finalization of this very height and round. *)
Theorem sm_refines_rounds {P ST : Type} `{!SMStores ST} (m : SMConfig) (i : SMInput P) (l : list (Answer P))
  (w w' : SMWorld P ST) ok :
  handleLiveEvent m i (provide l w) = SRet ok w' ->
  rtc (rtrans i l) (posOf w.(sw_rlc)) (posOf w'.(sw_rlc)).
Proof.
  intros Hh. assert (Hw : posIs l (posOf w.(sw_rlc)) (provide l w)) by done.
  pose proof (reaches_handleLiveEvent m i _ _ _ Hw) as Hr. unfold reaches, swp in Hr. rewrite Hh in Hr. apply Hr.
Qed.

(** Three precommits of four for "x" arrive while waiting for prevotes. *)
Definition exCommitInput : SMInput TP :=
  exUpdate (exView 1 0 3 [exPH 1 0 "x"] (exSummary [("x", 3)] [("x", 3)] "x" "x")).
Definition exCommitted : exSys := live exConfig exCommitInput [] exPrevoted.(sy_w).

Lemma sm_refines_rounds_witness :
  exCommitted.(sy_w).(sw_rlc).(rl_S) = StepCommitWait /\
  rtc (rtrans exCommitInput []) (posOf exPrevoted.(sy_w).(sw_rlc)) (posOf exCommitted.(sy_w).(sw_rlc)).
Proof.
  split; [vm_compute; reflexivity|].
  apply (sm_refines_rounds exConfig exCommitInput [] exPrevoted.(sy_w) exCommitted.(sy_w) true).
  vm_compute. reflexivity.
Defined.
