(* ===== verification/StateMachineChannels.v ===== *)
(** Every vote the state machine sends answers a request it made for the same height and round: a late
    answer to an earlier round is never taken for a vote of the current one. *)
From S2P Require Import Prelude.
From S2P Require Import Types.
From S2P Require Import VoteSummary.
From S2P Require Import RoundView.
From S2P Require Import Stores.
From S2P Require Import Managers.
From S2P Require Import KernelBase.
From S2P Require Import RoundLifecycle.
From S2P Require Import StateMachineBase.
From S2P Require Import StateMachine.
From S2P Require Import StateMachineRun.
From S2P Require Import StateMachineFrames.
From S2P Require Import KernelExample.
From S2P Require Import StateMachineExample.
From stdpp Require Import relations.
Local Open Scope Z_scope.

(** The three channels on which the consensus strategy answers. *)
Inductive ChanKind := KProposal | KPrevote | KPrecommit.

Definition kindOf {P} (req : CMRequest P) : ChanKind :=
  match req with
  | EnterRoundRequest _ _ => KProposal
  | ConsiderProposedBlocksRequest _ _ _ | ChooseProposedBlockRequest _ _ => KPrevote
  | DecidePrecommitRequest _ _ => KPrecommit
  end.

Definition resultOf {P} (req : CMRequest P) : Chan :=
  match req with
  | EnterRoundRequest _ c | ConsiderProposedBlocksRequest _ _ c | ChooseProposedBlockRequest _ c
  | DecidePrecommitRequest _ c => c
  end.

Definition chanOf {P} (rlc : RoundLifecycle P) (k : ChanKind) : Chan :=
  match k with
  | KProposal => rlc.(rl_ProposalCh) | KPrevote => rlc.(rl_PrevoteHashCh) | KPrecommit => rlc.(rl_PrecommitHashCh)
  end.

Lemma cmHandle_result {P} ans (req : CMRequest P) c he : cmHandle ans req = Some (c, he) ->
  resultOf req = c /\ he = MkSelection ans.1 ans.2 /\ kindOf req <> KProposal.
Proof. destruct req; simpl; try case_bool_decide; intros [=]; subst; done. Qed.

(** The input that brings an answer on a channel of a kind of vote. *)
Definition answerOn {P} (k : ChanKind) (c : nat) (he : HashSelection) : SMInput P :=
  match k with KPrevote => InPrevoteHash c he | _ => InPrecommitHash c he end.

Section channels.
Context {P ST : Type} `{!SMStores ST}.
Context (m : SMConfig).
Implicit Types (w : SMWorld P ST).

(** The handler of [i] receives [hash], without an error, from the channel of kind [k] of the round the
    state machine is in, and a request of that kind for this very round was sent with that channel. *)
Definition receives w (i : SMInput P) (h r : Z) (k : ChanKind) (hash : bytes) : Prop :=
  exists c req, i = answerOn k c (MkSelection hash None) /\ k <> KProposal /\
    h = w.(sw_rlc).(rl_H) /\ r = w.(sw_rlc).(rl_R) /\ chanOf w.(sw_rlc) k = Some c /\
    OutRequest h r req ∈ w.(sw_log) /\ kindOf req = k /\ resultOf req = Some c.

(** The vote is what the signer makes of its hash, for this height and round. *)
Definition signOf (k : ChanKind) : Signer -> VoteTarget -> result (bytes * bytes) :=
  match k with KPrevote => sg_Prevote | _ => sg_Precommit end.
Definition signs (h r : Z) (k : ChanKind) (sg : ScopedSignature) : Prop :=
  exists s, m.(m_signer) = Some s /\
    signOf k s (MkVoteTarget h r sg.(TargetHash)) = Ok (sg.(SignContent), sg.(sc_Sig)).

(** The votes [A] whose hash was received for their height, round and kind. *)
Context (A : Z -> Z -> ChanKind -> ScopedSignature -> Prop).

Inductive answered (h r : Z) : StateMachineRoundAction -> Prop :=
| an_ph ph : answered h r (actPH ph)
| an_prevote sg : A h r KPrevote sg -> answered h r (actPrevote sg)
| an_precommit sg : A h r KPrecommit sg -> answered h r (actPrecommit sg).

(** Channels are never reused, and those of the current round only occur in its own requests. *)
Record chanInv w : Prop := {
  ci_old h r req c : OutRequest h r req ∈ w.(sw_log) -> resultOf req = Some c -> (c < w.(sw_next))%nat;
  ci_cur k c : chanOf w.(sw_rlc) k = Some c -> (c < w.(sw_next))%nat;
  ci_inj k k' c : chanOf w.(sw_rlc) k = Some c -> chanOf w.(sw_rlc) k' = Some c -> k = k';
  ci_now h r req c k : OutRequest h r req ∈ w.(sw_log) -> resultOf req = Some c ->
    chanOf w.(sw_rlc) k = Some c -> h = w.(sw_rlc).(rl_H) /\ r = w.(sw_rlc).(rl_R) /\ kindOf req = k;
  ci_acts h r act : OutAction h r act ∈ w.(sw_log) -> answered h r act
}.

Lemma samePlace_chan (rlc rlc' : RoundLifecycle P) k c : samePlace rlc rlc' -> chanOf rlc' k = Some c ->
  chanOf rlc k = Some c.
Proof.
  intros [_ _ Hp Hv Hc _]. unfold dropped in *.
  destruct k; simpl; [destruct Hp|destruct Hv|destruct Hc]; congruence.
Qed.

Lemma chan_ext w w' : w'.(sw_log) = w.(sw_log) -> samePlace w.(sw_rlc) w'.(sw_rlc) ->
  (w.(sw_next) <= w'.(sw_next))%nat -> chanInv w -> chanInv w'.
Proof.
  intros El Hs Hn [Ho Hc Hi Hw Ha]. pose proof Hs as [Hh Hr _ _ _ _].
  split; rewrite ?El, ?Hh, ?Hr; intros *.
  - intros Hin Hres. specialize (Ho _ _ _ _ Hin Hres). lia.
  - intros Hk%(samePlace_chan _ _ _ _ Hs). specialize (Hc _ _ Hk). lia.
  - intros Hk%(samePlace_chan _ _ _ _ Hs) Hk'%(samePlace_chan _ _ _ _ Hs). by eapply Hi.
  - intros Hin Hres Hk%(samePlace_chan _ _ _ _ Hs). by eapply Hw.
  - apply Ha.
Qed.

Lemma elem_of_snoc {X} (l : list X) x y : x ∈ l ++ [y] <-> x ∈ l \/ x = y.
Proof. rewrite elem_of_app, list_elem_of_singleton. done. Qed.

Lemma chan_log w o : (forall h r req, o <> OutRequest h r req) ->
  (forall h r act, o = OutAction h r act -> answered h r act) ->
  chanInv w -> chanInv {| w with sw_log := w.(sw_log) ++ [o] |}.
Proof.
  intros Hq Hact [Ho Hc Hi Hw Ha]. split; simpl; intros *.
  - intros [Hin|Hin]%elem_of_snoc; [by eapply Ho|by destruct (Hq h r req)].
  - apply Hc.
  - apply Hi.
  - intros [Hin|Hin]%elem_of_snoc; [by eapply Hw|by destruct (Hq h r req)].
  - intros [Hin|Hin]%elem_of_snoc; auto.
Qed.

(** A request on the channel of its kind. *)
Lemma chan_request w req k : kindOf req = k -> resultOf req = chanOf w.(sw_rlc) k -> chanInv w ->
  chanInv {| w with sw_log := w.(sw_log) ++ [OutRequest w.(sw_rlc).(rl_H) w.(sw_rlc).(rl_R) req] |}.
Proof.
  intros Hk Hr [Ho Hc Hi Hw Ha]. split; simpl; intros *; try done.
  - intros [Hin|[= -> -> ->]]%elem_of_snoc Hres; [by eapply Ho|]. rewrite Hr in Hres. by eapply Hc.
  - apply Hc.
  - apply Hi.
  - intros [Hin|[= -> -> ->]]%elem_of_snoc Hres Hk'; [by eapply Hw|]. split; [done|]. split; [done|].
    rewrite Hr in Hres. rewrite Hk. exact (Hi _ _ _ Hres Hk').
  - intros [Hin|[=]]%elem_of_snoc. auto.
Qed.

Lemma chan_reset w h r : chanInv w ->
  chanInv {| w with sw_rlc := RLC_Reset h r w.(sw_next) w.(sw_rlc); sw_next := (w.(sw_next) + resetChans)%nat |}.
Proof.
  unfold resetChans. intros [Ho Hc Hi Hw Ha]. split; simpl; intros *; try done.
  - intros Hin Hres. specialize (Ho _ _ _ _ Hin Hres). lia.
  - destruct k; simpl; intros [= <-]; lia.
  - destruct k, k'; simpl; intros [= <-] [=]; try done; lia.
  - intros Hin Hres Hk. specialize (Ho _ _ _ _ Hin Hres). destruct k; simpl in Hk; simplify_eq; lia.
  - apply Ha.
Qed.

Lemma ch_ext w w' : w'.(sw_st) = w.(sw_st) -> w'.(sw_log) = w.(sw_log) ->
  samePlace w.(sw_rlc) w'.(sw_rlc) -> (w.(sw_next) <= w'.(sw_next))%nat -> chanInv w -> chanInv w'.
Proof. intros _. apply chan_ext. Qed.

Lemma ch_core w w' : w'.(sw_st) = w.(sw_st) -> w'.(sw_log) = w.(sw_log) ->
  sameCore w.(sw_rlc) w'.(sw_rlc) -> (w.(sw_next) <= w'.(sw_next))%nat -> chanInv w -> chanInv w'.
Proof. intros _ El Hc%sameCore_samePlace. by apply chan_ext. Qed.

Lemma ch_log w o : quiet o = true -> chanInv w -> chanInv {| w with sw_log := w.(sw_log) ++ [o] |}.
Proof. intros Hq. apply chan_log; intros; by destruct o. Qed.

Lemma ch_st w st : chanInv w -> chanInv {| w with sw_st := st |}.
Proof. apply chan_ext; simpl; try done; same_core. Qed.

(** ** Requests *)
Lemma ch_sendCM req k w : kindOf req = k -> resultOf req = chanOf w.(sw_rlc) k -> chanInv w ->
  swp (sendCM (ST := ST) req) w (fun _ => chanInv) (fun _ => chanInv).
Proof. intros Hk Hr Hw. unfold sendCM. apply swp_bind, swp_getR, swp_sendS. by eapply chan_request. Qed.

Lemma ch_send send req k w : isSend send -> kindOf req = k -> resultOf req = chanOf w.(sw_rlc) k -> chanInv w ->
  swp (send req : SM P ST unit) w (fun _ => chanInv) (fun _ => chanInv).
Proof.
  intros [|msg] Hk Hr Hw; [by eapply ch_sendCM|]. unfold sendCMTimed. apply swp_bind, swp_answerS; [done|].
  intros a x l _ _. assert (Hw' : chanInv {| w with sw_answers := l |}) by (eapply chan_ext, Hw; try done; same_core).
  destruct x; [by eapply ch_sendCM|done].
Qed.

Lemma ch_decide vrv : keeps chanInv (decidePrecommit (ST := ST) vrv).
Proof. intros w Hw. unfold decidePrecommit. apply swp_bind, swp_getR. by apply (ch_sendCM _ KPrecommit). Qed.

Lemma ch_consider send phs b : isSend send -> keeps chanInv (considerPHs (ST := ST) (P := P) send phs b).
Proof.
  intros Hs w Hw. unfold considerPHs. apply swp_bind. unfold markNew.
  assert (Hw' : chanInv {| w with sw_rlc := (MarkReasonNewHashes phs ConsiderReason_zero w.(sw_rlc)).2 |})
    by (eapply chan_ext, Hw; try done; same_core).
  apply swp_bind, swp_getR. by apply (ch_send _ _ KPrevote).
Qed.

Lemma ch_choose send phs : isSend send -> keeps chanInv (choosePH (ST := ST) (P := P) send phs).
Proof. intros Hs w Hw. unfold choosePH. apply swp_bind, swp_getR. by apply (ch_send _ _ KPrevote). Qed.

Lemma ch_arrived phs ids : keeps chanInv (considerArrived (ST := ST) (P := P) phs ids).
Proof. intros w Hw. unfold considerArrived. apply swp_bind, swp_getR. by apply (ch_sendCM _ KPrevote). Qed.

Lemma ch_enter rv : keeps chanInv (enterRound (ST := ST) (P := P) rv).
Proof.
  intros w Hw. unfold enterRound. apply swp_bind, swp_getR, swp_bind.
  eapply swp_mono; [| |by apply (ch_sendCM _ KProposal)]; [|done].
  intros ? w' Hw'. by apply (fr_answerS chanInv ch_core).
Qed.

Lemma ch_finalize hd rd : keeps chanInv (sendFinalize (ST := ST) (P := P) hd rd).
Proof. intros w Hw. unfold sendFinalize. apply swp_bind, swp_getR, swp_sendS. by apply chan_log. Qed.

(** ** Actions *)
Lemma ch_sendAction act w : chanInv w -> answered w.(sw_rlc).(rl_H) w.(sw_rlc).(rl_R) act ->
  swp (sendAction (ST := ST) act) w (fun _ => chanInv) (fun _ => chanInv).
Proof.
  intros Hw Ha. unfold sendAction. apply swp_bind, swp_getR. destruct (rl_OutgoingActionsCh _); [|done].
  apply swp_sendS. apply chan_log; [done| |done]. by intros h r act' [= <- <- <-].
Qed.

Lemma ch_resume vrv : keeps chanInv (resumeProposal (ST := ST) (P := P) m vrv).
Proof.
  intros w Hw. unfold resumeProposal. destruct (m_signer m) as [sg|]; [|done].
  assert (Hw' : chanInv {| w with sw_rlc := {| w.(sw_rlc) with rl_ProposalCh := None |} |})
    by (eapply chan_ext, Hw; try done; same_core).
  destruct (existsb _ _); [done|]. apply swp_bind, swp_getR, swp_bind, swp_loadS.
  destruct (ss_LoadActions _ _ _) as [ra|e]; [|by destruct (isUnknownRound _ _ _)].
  destruct (ActionStore.ra_ProposedHeader ra) as [ph|]; [|done]. destruct (_ =? 0); [done|].
  apply swp_bind, swp_modR, swp_bind. eapply swp_mono; [| |apply ch_sendAction; [exact Hw'|constructor]]; done.
Qed.

Lemma ch_proposal p : keeps chanInv (recordProposedHeader (ST := ST) (P := P) m p).
Proof.
  intros w Hw. unfold recordProposedHeader, derefVRV. apply swp_bind, swp_getR, swp_bind, swp_bind, swp_getR.
  destruct (rl_VRV _) as [vrv|]; [|done]. apply swp_ret. destruct (m_signer m) as [sg|]; [|done].
  destruct (hs_Block _ _); [|done]. destruct (sg_SignProposedHeader _ _); [|done].
  apply swp_bind, swp_storeS. intros st e _. pose proof (ch_st _ st Hw). destruct e; [done|].
  apply swp_bind. eapply swp_mono; [| |apply ch_sendAction; [done|constructor]]; done.
Qed.

Lemma ch_recordVote sign save act hash w : chanInv w ->
  (forall s content sig, m.(m_signer) = Some s ->
     sign s (MkVoteTarget w.(sw_rlc).(rl_H) w.(sw_rlc).(rl_R) hash) = Ok (content, sig) ->
     answered w.(sw_rlc).(rl_H) w.(sw_rlc).(rl_R) (act (MkScopedSignature hash content sig))) ->
  swp (recordVote (ST := ST) (P := P) m sign save act hash) w (fun _ => chanInv) (fun _ => chanInv).
Proof.
  intros Hw Ha. unfold recordVote. apply swp_bind, swp_getR. destruct (isParticipating _ _); [|done].
  destruct (m_signer m) as [sg|] eqn:Em; [|done]. destruct (sign sg _) as [[content sig]|] eqn:Es; [|done].
  apply swp_bind, swp_storeS. intros st e _. pose proof (ch_st _ st Hw) as Hw'. destruct e; [done|].
  apply swp_bind. eapply swp_mono; [| |apply (ch_sendAction _ _ Hw'), (Ha sg content sig eq_refl Es)]; done.
Qed.

(** ** Runs *)
Ltac ch :=
  first [ exact ch_ext | exact ch_core | exact ch_log | exact chan_reset | exact ch_decide | exact ch_consider
        | exact ch_choose | exact ch_arrived | exact ch_enter | exact ch_finalize | exact ch_resume
        | intros; first [by apply ch_st | by apply chan_reset] ].

Lemma ch_over : keeps chanInv (commitWaitOver (ST := ST) (P := P) m).
Proof. apply pl_commitWaitOver; ch. Qed.

(** The answers on the vote channels were asked for in this round. *)
Lemma receives_now w he c k : chanInv w -> chanOf w.(sw_rlc) k = Some c -> k <> KProposal ->
  (exists h r req ans, OutRequest h r req ∈ w.(sw_log) /\ cmHandle ans req = Some (Some c, he)) ->
  he.(hs_Err) = None -> receives w (answerOn k c he) w.(sw_rlc).(rl_H) w.(sw_rlc).(rl_R) k he.(hs_Hash).
Proof.
  intros Hw Hc Hp (h & r & req & ans & Hin & Ha) He. destruct (cmHandle_result _ _ _ _ Ha) as (Hres & _ & _).
  destruct (ci_now _ Hw _ _ _ _ _ Hin Hres Hc) as (-> & -> & Hk). exists c, req.
  destruct he as [hash err]. simpl in *. by subst.
Qed.

Lemma ch_onPrevote c he w : chanInv w -> smReady w.(sw_rlc) (InPrevoteHash c he) ->
  solicited w.(sw_log) (InPrevoteHash c he) ->
  (forall h r k sg, receives w (InPrevoteHash c he) h r k sg.(TargetHash) -> signs h r k sg -> A h r k sg) ->
  swp (handleLiveEvent m (InPrevoteHash c he)) w (fun _ => chanInv) (fun _ => chanInv).
Proof.
  intros Hw Hc Hs HA. simpl. unfold onSelection. destruct (hs_Err he) eqn:He; [done|].
  assert (Ha : forall s content sig, m.(m_signer) = Some s ->
      sg_Prevote s (MkVoteTarget w.(sw_rlc).(rl_H) w.(sw_rlc).(rl_R) he.(hs_Hash)) = Ok (content, sig) ->
      A w.(sw_rlc).(rl_H) w.(sw_rlc).(rl_R) KPrevote (MkScopedSignature he.(hs_Hash) content sig))
    by (intros s content sig Hm Hsg; apply HA; [by apply (receives_now w he c KPrevote)|by exists s]). apply keeps_then.
  - unfold recordPrevote. apply keeps_then; [apply ch_recordVote; [exact Hw|intros; constructor; by eapply Ha]|].
    intros [|]; [|apply keeps_ret]. apply keeps_bind; [apply keeps_getR|]. intros rlc.
    apply keeps_bind; [|intros; apply keeps_ret]. destruct (bool_decide _); [|apply keeps_ret].
    apply keeps_bind; [apply fr_setStep; ch|intros; apply fr_cancelStepTimer; ch].
  - intros [|]; [|apply keeps_ret]. apply keeps_bind; [|intros; apply keeps_ret].
    apply fr_modR; [ch|]. intros; same_core.
Qed.

Lemma ch_onPrecommit c he w : chanInv w -> smReady w.(sw_rlc) (InPrecommitHash c he) ->
  solicited w.(sw_log) (InPrecommitHash c he) ->
  (forall h r k sg, receives w (InPrecommitHash c he) h r k sg.(TargetHash) -> signs h r k sg -> A h r k sg) ->
  swp (handleLiveEvent m (InPrecommitHash c he)) w (fun _ => chanInv) (fun _ => chanInv).
Proof.
  intros Hw Hc Hs HA. simpl. unfold onSelection. destruct (hs_Err he) eqn:He; [done|].
  assert (Ha : forall s content sig, m.(m_signer) = Some s ->
      sg_Precommit s (MkVoteTarget w.(sw_rlc).(rl_H) w.(sw_rlc).(rl_R) he.(hs_Hash)) = Ok (content, sig) ->
      A w.(sw_rlc).(rl_H) w.(sw_rlc).(rl_R) KPrecommit (MkScopedSignature he.(hs_Hash) content sig))
    by (intros s content sig Hm Hsg; apply HA; [by apply (receives_now w he c KPrecommit)|by exists s]). apply keeps_then.
  - unfold recordPrecommit. apply ch_recordVote; [exact Hw|intros; constructor; by eapply Ha].
  - intros [|]; [|apply keeps_ret]. apply keeps_bind; [|intros; apply keeps_ret].
    apply fr_modR; [ch|]. intros; same_core.
Qed.

Lemma chan_live i w : chanInv w -> smReady w.(sw_rlc) i -> solicited w.(sw_log) i ->
  (forall h r k sg, receives w i h r k sg.(TargetHash) -> signs h r k sg -> A h r k sg) ->
  swp (handleLiveEvent m i) w (fun _ => chanInv) (fun _ => chanInv).
Proof.
  intros Hw Hrd Hs HA. destruct i as [v|c p|c he|c he|c resp|t|c|a];
    [|clear Hrd Hs HA; revert w Hw; apply keeps_bind; [apply ch_proposal|]|by apply ch_onPrevote
     |by apply ch_onPrecommit|clear Hrd Hs HA; revert w Hw; apply pl_handleFinalization; ch|..].
  - clear Hrd Hs HA. revert w Hw. intros w Hw. apply keeps_then; [|intros; apply keeps_ret].
    apply fr_handleViewUpdate; try ch. done.
  - intros [|]; [|apply keeps_ret]. apply keeps_bind; [|intros; apply keeps_ret].
    apply fr_modR; [ch|]. intros; same_core.
  - apply fr_handleTimerElapsed; try ch; [apply ch_over|done].
  - apply fr_handleHeightCommitted; try ch; [apply ch_over|done].
  - apply fr_handleBlockDataArrival; try ch. done.
Qed.

Lemma ch_init g : keeps chanInv (initializeRLC (ST := ST) (P := P) (withGenesis g m)).
Proof. apply pl_initializeRLC; first [ch|exact ch_resume]. Qed.

Lemma ch_catchup resp : keeps chanInv (handleCatchupEvent (ST := ST) (P := P) m resp).
Proof. apply pl_handleCatchupEvent; ch. Qed.
End channels.

(** ** Runs *)
Section runs.
Context {P ST : Type} `{!SMStores ST}.
Context (m : SMConfig).
Implicit Types (w : SMWorld P ST) (s : SMSys P ST).

Lemma chanInv_mono (A A' : Z -> Z -> ChanKind -> ScopedSignature -> Prop) w :
  (forall h r k sg, A h r k sg -> A' h r k sg) -> chanInv A w -> chanInv A' w.
Proof. intros HA [Ho Hc Hi Hw Ha]. split; [done..|]. intros h r act [ph|sg H|sg H]%Ha; constructor; auto. Qed.

Lemma chan_crashed A w : chanInv A w -> chanInv A (crashed w).
Proof. intros [Ho Hc Hi Hw Ha]. split; simpl; auto; intros *; destruct k; done. Qed.

Lemma chan_provide A l w : chanInv A w -> chanInv A (provide l w).
Proof. apply ch_core; try done. same_core. Qed.

Lemma chan_elapsed A i w : chanInv A w -> chanInv A (elapsed i w).
Proof. destruct i; apply ch_core; try done; same_core. Qed.

Lemma receives_handed i l w h r k hash :
  receives (provide l (elapsed i w)) i h r k hash -> receives w i h r k hash.
Proof. by destruct i. Qed.

(** [s'] is where the handler of an input leaves a running state machine [s], and the input brings [hash]
    for a vote of kind [k] in the height and round [s] is in. *)
Definition stepReceives s s' (h r : Z) (k : ChanKind) (hash : bytes) : Prop :=
  exists i l, s.(sy_mode) = LiveLoop /\ receives s.(sy_w) i h r k hash /\ s' = live m i l s.(sy_w).

Lemma chan_step A s s' : smstep m s s' -> chanInv A s.(sy_w) ->
  chanInv (fun h r k sg => A h r k sg \/ stepReceives s s' h r k sg.(TargetHash) /\ signs m h r k sg) s'.(sy_w).
Proof.
  intros Hstep Hw. set (A' := fun h r k sg => _).
  apply (chanInv_mono A A') in Hw; [|intros; by left].
  destruct Hstep as [md w l g _ _|w i l _ Hrd Hsol|w c resp l _ _ _|md w]; simpl in *.
  - apply (keeps_finish (chanInv A')), ch_init. by apply chan_provide, chan_crashed.
  - apply (keeps_finish (chanInv A')), chan_live; [by apply chan_provide, chan_elapsed|by destruct i..|].
    intros h r k sg Hrc%receives_handed Hsg. right. split; [by exists i, l|done].
  - apply (keeps_finish (chanInv A')), ch_catchup. by apply chan_provide.
  - revert Hw. apply ch_core; try done. same_core.
Qed.

Definition voteAct (k : ChanKind) (sg : ScopedSignature) : StateMachineRoundAction :=
  match k with KPrevote => actPrevote sg | _ => actPrecommit sg end.

(** The vote is signed for its height and round; a step of the run received its hash, and the vote was out when that
    step ended. *)
Definition voteAnswered s0 s (h r : Z) (k : ChanKind) (sg : ScopedSignature) : Prop :=
  signs m h r k sg /\ exists s1 s2, rtc (smstep m) s0 s1 /\ smstep m s1 s2 /\ stepReceives s1 s2 h r k sg.(TargetHash) /\
    OutAction h r (voteAct k sg) ∈ s2.(sy_w).(sw_log) /\ rtc (smstep m) s2 s.

Lemma votes_run s0 s : chanInv (voteAnswered s0 s0) s0.(sy_w) -> rtc (smstep m) s0 s ->
  chanInv (voteAnswered s0 s) s.(sy_w).
Proof.
  intros H0. revert s. apply (rtc_ind_r (fun s => chanInv (voteAnswered s0 s) s.(sy_w))); [done|].
  intros s s' Hr Hstep IH.
  apply (chan_step _ _ _ Hstep) in IH. destruct IH as [Ho Hc Hi Hw Ha]. split; [done..|].
  intros h r act Hin. assert (Hmono : forall k sg, act = voteAct k sg ->
    voteAnswered s0 s h r k sg \/ stepReceives s s' h r k sg.(TargetHash) /\ signs m h r k sg ->
    voteAnswered s0 s' h r k sg).
  { intros k sg -> [(Hsg & s1 & s2 & H1 & H2 & H3 & H4 & H5)|[Hs Hsg]];
      (split; [done|]); [exists s1, s2|exists s, s']; split_and?; try done. by eapply rtc_r. }
  destruct (Ha _ _ _ Hin) as [ph|sg H|sg H]; constructor; by apply Hmono.
Qed.
End runs.

(** C14: votes answer requests.  In every run, with any number of restarts, take a signed prevote or
    precommit that left the state machine for a height and a round.  It is what the node's signer signs for
    its hash in that height and round, as a vote of its kind.  And some step of the run has received the
    hash of the vote: at that step the main loop is in that height and round, it takes the hash, without an
    error, from the channel of its round on which answers for this kind of vote come, and a request of the
    kind for the very height and round was sent to the consensus strategy with that channel.  The vote was
    out when the step ended.  So an answer that comes late, for a round that was left, is never signed for
    another round, a prevote answer is never signed as a precommit, and no other hash is signed. *)
Theorem sm_votes_answer_requests {P ST : Type} `{!SMStores ST} (m : SMConfig) (st : ST) (s : SMSys P ST) h r sg :
  rtc (smstep m) (smInit st) s -> sg.(sc_Sig) <> nilHash ->
  (OutAction h r (actPrevote sg) ∈ s.(sy_w).(sw_log) -> voteAnswered m (smInit st) s h r KPrevote sg) /\
  (OutAction h r (actPrecommit sg) ∈ s.(sy_w).(sw_log) -> voteAnswered m (smInit st) s h r KPrecommit sg).
Proof.
  intros Hr Hn. assert (Hw : chanInv (voteAnswered m (smInit st) s) s.(sy_w)).
  { apply votes_run; [|done]. split; simpl; intros *; try (by intros ?%elem_of_nil); by destruct k. }
  assert (Hz : sg <> ScopedSignature_zero) by (intros ->; done).
  split; intros Hin%(ci_acts _ _ Hw); inversion Hin; subst; done.
Qed.

(** The prevote of the example answers the consideration sent before it. *)
Lemma sm_votes_answer_requests_witness :
  OutAction 1 0 (actPrevote exPrevote) ∈ exPrevoted.(sy_w).(sw_log) /\
  voteAnswered exConfig (smInit exStores) exPrevoted 1 0 KPrevote exPrevote.
Proof.
  assert (Hin : OutAction 1 0 (actPrevote exPrevote) ∈ exPrevoted.(sy_w).(sw_log)).
  { apply (list_elem_of_lookup_2 _ 5). vm_compute. reflexivity. }
  assert (Hn : sc_Sig exPrevote <> nilHash) by discriminate.
  split; [exact Hin|].
  exact (proj1 (sm_votes_answer_requests exConfig exStores exPrevoted 1 0 exPrevote ex_run_prevoted Hn) Hin).
Defined.
