(* ===== verification/StateMachinePipeline.v ===== *)
(** What the state machine builds its proposals on: the finalizations of the two previous heights, across
    rounds, heights and restarts. *)
From S2P Require Import Prelude.
From S2P Require Import Types.
From S2P Require Import Powers.
From S2P Require Import VoteSummary.
From S2P Require Import RoundView.
From S2P Require Import Stores.
From S2P Require Import Managers.
From S2P Require Import KernelBase.
From S2P Require Import RoundLifecycle.
From S2P Require Import StateMachineBase.
From S2P Require Import StateMachine.
From S2P Require Import StateMachineRun.
From S2P Require Import StateMachineFrames.
From S2P Require Import KernelExample.
From S2P Require Import StateMachineExample.
From stdpp Require Import relations.
Local Open Scope Z_scope.

Section pipeline.
Context {P ST : Type} `{SMStoresLaws ST} `{!SMPositionLaws ST}.
Context (m : SMConfig).
Implicit Types (w : SMWorld P ST) (st : ST).
Local Abbreviation g := m.(m_genesis).

(** ** What a height builds on *)

(** The finalization of the height before. *)
Definition previousIs st (h : Z) (hash : bytes) (next : ValidatorSet) (app : bytes) : Prop :=
  exists r, finAt (u64 (h - 1)) st = Some (r, hash, next, app).

(** The validators are those the finalization two heights before named, or the initial ones. *)
Definition validatorsFor st (h : Z) (vals : ValidatorSet) : Prop :=
  (h = g.(g_InitialHeight) /\ vals = g.(g_ValidatorSet)) \/
  (exists r hash app, finAt (u64 (h - 2)) st = Some (r, hash, vals, app)).

(** A proposed header of the height links to them. *)
Record linked st (h r : Z) (ph : ProposedHeader) : Prop := {
  lk_height : ph.(ph_Header).(Height) = h;
  lk_round : ph.(ph_Round) = r;
  lk_previous : previousIs st h ph.(ph_Header).(PrevBlockHash) ph.(ph_Header).(NextValidatorSet)
                  ph.(ph_Header).(PrevAppStateHash);
  lk_validators : validatorsFor st h ph.(ph_Header).(hd_ValidatorSet)
}.

(** What the engine stored when it initialized the chain. *)
Definition genesisStored st : Prop :=
  exists b, Genesis_Header g m.(m_hashScheme) = (b, None) /\
    previousIs st g.(g_InitialHeight) b.(Hash) g.(g_ValidatorSet) g.(g_CurrentAppStateHash).

Definition isHeight (h : Z) : Prop := 0 <= h < two64.

(** The last height of all was finalized: the next one wraps around. *)
Definition lastFinalized st : Prop := finAt (two64 - 1) st <> None.

Definition reached st (h : Z) : Prop := isHeight h /\ (h = 0 -> lastFinalized st).

Definition storedPosition st : Prop :=
  forall h r, ss_StateMachineHeightRound st = Ok (h, r) -> reached st h.

(** ** The invariant of the stores and the trace *)
Record linksOK w : Prop := {
  ok_log h r ph : OutAction h r (actPH ph) ∈ w.(sw_log) -> ph.(ph_Header).(Height) <> 0 -> linked w.(sw_st) h r ph;
  ok_store h r ph : proposalAt h r w.(sw_st) = Some ph -> ph.(ph_Header).(Height) <> 0 -> linked w.(sw_st) h r ph;
  ok_genesis : genesisStored w.(sw_st);
  ok_position : storedPosition w.(sw_st)
}.

(** Finalizations are only added. *)
Definition finsKept (s s' : ST) : Prop := forall h f, finAt h s = Some f -> finAt h s' = Some f.

Lemma finsKept_linked s s' h r ph : finsKept s s' -> linked s h r ph -> linked s' h r ph.
Proof.
  intros Hk [Hh Hr [r1 Hp] Hv]. split; [done|done|exists r1; by apply Hk|].
  destruct Hv as [Hv|(r2 & b & a & Hv)]; [by left|]. right. exists r2, b, a. by apply Hk.
Qed.

Lemma finsKept_genesis s s' : finsKept s s' -> genesisStored s -> genesisStored s'.
Proof. intros Hk (b & Hb & r & Hr). exists b. split; [done|]. exists r. by apply Hk. Qed.

Lemma sameFins_kept s s' : sameFins s s' -> finsKept s s'.
Proof. intros Hs h f. by rewrite Hs. Qed.

Lemma saveFin_kept h r hash vals app s : finsKept s (ss_SaveFinalization h r hash vals app s).1.
Proof.
  destruct (ss_SaveFinalization h r hash vals app s) as [s' [e|]] eqn:E; simpl.
  - by eapply sameFins_kept, ssl_fin_err.
  - destruct (ssl_fin_ok _ _ _ _ _ _ _ E) as (Hn & _ & Hf). intros h' f Hh'. rewrite Hf; [done|].
    intros ->. by rewrite Hn in Hh'.
Qed.

Lemma finsKept_last s s' : finsKept s s' -> lastFinalized s -> lastFinalized s'.
Proof.
  unfold lastFinalized. intros Hk Hs. destruct (finAt (two64 - 1) s) as [f|] eqn:E; [|done]. by rewrite (Hk _ _ E).
Qed.

Lemma finsKept_reached s s' h : finsKept s s' -> reached s h -> reached s' h.
Proof. intros Hk [Hh Hl]. split; [done|]. intros Hz. by eapply finsKept_last, Hl. Qed.

Lemma finsKept_position s s' : finsKept s s' ->
  (forall h r, ss_StateMachineHeightRound s' = Ok (h, r) -> ss_StateMachineHeightRound s = Ok (h, r)) ->
  storedPosition s -> storedPosition s'.
Proof. intros Hk Hp Hs h r Hr. eapply finsKept_reached, Hs, Hp, Hr. done. Qed.

(** A save that touches no proposal. *)
Lemma linksOK_st w s' : finsKept w.(sw_st) s' -> (forall h r, proposalAt h r s' = proposalAt h r w.(sw_st)) ->
  storedPosition s' -> linksOK w -> linksOK {| w with sw_st := s' |}.
Proof.
  intros Hk Hp Hpos [Hl Hs Hg _]. split; simpl.
  - intros h r ph Hin Hn. eapply finsKept_linked, Hl; done.
  - intros h r ph. rewrite Hp. intros Hin Hn. eapply finsKept_linked, Hs; done.
  - by eapply finsKept_genesis.
  - done.
Qed.

Lemma linksOK_ext w w' : w'.(sw_st) = w.(sw_st) -> w'.(sw_log) = w.(sw_log) -> linksOK w -> linksOK w'.
Proof. intros Es El [Hl Hs Hg Hp]. split; rewrite ?Es, ?El; done. Qed.

Lemma linksOK_log w o : (forall h r ph, o = OutAction h r (actPH ph) -> ph.(ph_Header).(Height) <> 0 ->
    linked w.(sw_st) h r ph) -> linksOK w -> linksOK {| w with sw_log := w.(sw_log) ++ [o] |}.
Proof.
  intros Ho [Hl Hs Hg Hp]. split; simpl; try done. intros h r ph [Hin|Hin%list_elem_of_singleton]%elem_of_app; auto.
Qed.

Lemma linksOK_position w h r : reached w.(sw_st) h -> linksOK w ->
  linksOK {| w with sw_st := (ss_SetStateMachineHeightRound h r w.(sw_st)).1 |}.
Proof.
  intros Hh Hw. pose proof (sameFins_kept _ _ (ssl_hr_fin h r w.(sw_st))) as Hk.
  apply linksOK_st; [done|apply ssl_hr_actions| |done].
  intros h' r' Hp. eapply finsKept_reached; [exact Hk|]. destruct (ssl_pos_set _ _ _ _ _ Hp) as [[= -> ->]|Hold]; [done|].
  by eapply Hw.
Qed.

Lemma linksOK_fin w h r hash vals app : linksOK w ->
  linksOK {| w with sw_st := (ss_SaveFinalization h r hash vals app w.(sw_st)).1 |}.
Proof.
  intros Hw. apply linksOK_st; [apply saveFin_kept|apply ssl_fin_actions| |done].
  eapply finsKept_position, Hw; [apply saveFin_kept|]. intros h' r'. by rewrite ssl_pos_fin.
Qed.

(** Saving a linked proposal. *)
Lemma linksOK_proposal w ph : linksOK w ->
  (ph.(ph_Header).(Height) <> 0 -> linked w.(sw_st) ph.(ph_Header).(Height) ph.(ph_Round) ph) ->
  linksOK {| w with sw_st := (ss_SaveProposedHeaderAction ph w.(sw_st)).1 |}.
Proof.
  intros [Hl Hs Hg Hp] Hph. pose proof (sameFins_kept _ _ (ssl_ph_fin ph w.(sw_st))) as Hk. split; simpl.
  - intros h r x Hin Hn. eapply finsKept_linked, Hl; done.
  - intros h r x Hx Hn. apply (finsKept_linked _ _ _ _ _ Hk).
    destruct (ss_SaveProposedHeaderAction ph w.(sw_st)) as [s' [e|]] eqn:E; simpl in *.
    + destruct (ssl_ph_err _ _ _ _ E) as [Hsame _ _]. rewrite Hsame in Hx. by apply Hs.
    + destruct (ssl_ph_ok _ _ _ E) as (_ & Hnew & Hold & _).
      destruct (decide ((h, r) = (ph.(ph_Header).(Height), ph.(ph_Round)))) as [[= -> ->]|Hne].
      * rewrite Hnew in Hx. injection Hx as <-. by apply Hph.
      * rewrite Hold in Hx by done. by apply Hs.
  - by eapply finsKept_genesis.
  - eapply finsKept_position, Hp; [done|]. intros h r. by rewrite ssl_pos_ph.
Qed.

(** The finalization of the current height, as it was stored. *)
Definition finalized w : Prop :=
  exists r, finAt w.(sw_rlc).(rl_H) w.(sw_st) = Some (r, w.(sw_rlc).(rl_FinalizedBlockHash),
    w.(sw_rlc).(rl_FinalizedValSet), w.(sw_rlc).(rl_FinalizedAppStateHash)).

(** ** The invariant of a live round *)
Record piped w : Prop := {
  pp_links : linksOK w;
  pp_height : reached w.(sw_st) w.(sw_rlc).(rl_H);
  pp_previous : previousIs w.(sw_st) w.(sw_rlc).(rl_H) w.(sw_rlc).(rl_PrevBlockHash)
                  w.(sw_rlc).(rl_PrevFinNextValSet) w.(sw_rlc).(rl_PrevFinAppStateHash);
  pp_validators : validatorsFor w.(sw_st) w.(sw_rlc).(rl_H) w.(sw_rlc).(rl_CurValSet);
  pp_final : w.(sw_rlc).(rl_FinalizedValSet).(Validators) <> [] -> finalized w
}.

Lemma finsKept_previous s s' h b n a : finsKept s s' -> previousIs s h b n a -> previousIs s' h b n a.
Proof. intros Hk [r Hr]. exists r. by apply Hk. Qed.

Lemma finsKept_validators s s' h v : finsKept s s' -> validatorsFor s h v -> validatorsFor s' h v.
Proof. intros Hk [Hv|(r & b & a & Hv)]; [by left|]. right. exists r, b, a. by apply Hk. Qed.

(** The same round, with finalizations added. *)
Lemma piped_core w w' : linksOK w' -> finsKept w.(sw_st) w'.(sw_st) -> sameCore w.(sw_rlc) w'.(sw_rlc) ->
  piped w -> piped w'.
Proof.
  intros Hl Hk [Hh Hr Hc Hb Hn Ha Hfv Hfa Hfb _ _ _ _] [_ Ph Pp Pv Pf]. split; rewrite ?Hh, ?Hb, ?Hn, ?Ha, ?Hc; try done.
  - by eapply finsKept_reached.
  - by eapply finsKept_previous.
  - by eapply finsKept_validators.
  - rewrite Hfv. intros [r Hf]%Pf. exists r. rewrite Hh, Hfv, Hfb, Hfa. by apply Hk.
Qed.

Lemma finsKept_refl s : finsKept s s.
Proof. by intros h f. Qed.

Lemma piped_ext w w' : w'.(sw_st) = w.(sw_st) -> w'.(sw_log) = w.(sw_log) ->
  sameCore w.(sw_rlc) w'.(sw_rlc) -> (w.(sw_next) <= w'.(sw_next))%nat -> piped w -> piped w'.
Proof.
  intros Es El Hc _ Hw. eapply piped_core, Hw; [|rewrite Es; apply finsKept_refl|done].
  eapply linksOK_ext, Hw; done.
Qed.

Lemma piped_log w o : isAction o = false -> piped w -> piped {| w with sw_log := w.(sw_log) ++ [o] |}.
Proof.
  intros Ho Hw. eapply piped_core, Hw; [|apply finsKept_refl|same_core].
  apply linksOK_log; [|apply Hw]. intros. by subst.
Qed.

Lemma piped_quiet w o : quiet o = true -> piped w -> piped {| w with sw_log := w.(sw_log) ++ [o] |}.
Proof. intros Ho. apply piped_log. by destruct o. Qed.

Lemma piped_position w r : piped w ->
  piped {| w with sw_st := (ss_SetStateMachineHeightRound w.(sw_rlc).(rl_H) r w.(sw_st)).1 |}.
Proof.
  intros Hw. eapply piped_core, Hw; [|apply sameFins_kept, ssl_hr_fin|same_core].
  apply linksOK_position; apply Hw.
Qed.

Lemma piped_reset w r : piped w ->
  piped {| w with sw_rlc := RLC_Reset w.(sw_rlc).(rl_H) r w.(sw_next) w.(sw_rlc);
                  sw_next := (w.(sw_next) + resetChans)%nat |}.
Proof. intros [Hl Hh Hp Hv Hf]. split; try done. by eapply linksOK_ext, Hl. Qed.

Ltac pp :=
  first [ exact piped_ext | exact piped_quiet | exact piped_position | exact piped_reset
        | requests piped_ext piped_log ].

(** ** Moving to the next height *)
Lemma u64_height h : isHeight (u64 h).
Proof. unfold isHeight, u64, two64. apply Z.mod_pos_bound. done. Qed.

Lemma u64_next_previous h : isHeight h -> u64 (u64 (h + 1) - 1) = h.
Proof.
  intros Hh. unfold u64. rewrite Zminus_mod_idemp_l. replace (h + 1 - 1) with h by lia. by apply Z.mod_small.
Qed.

Lemma u64_next_two h : u64 (u64 (h + 1) - 2) = u64 (h - 1).
Proof. unfold u64. rewrite Zminus_mod_idemp_l. f_equal. lia. Qed.

Lemma finalized_reached w : finalized w -> reached w.(sw_st) w.(sw_rlc).(rl_H) ->
  reached w.(sw_st) (u64 (w.(sw_rlc).(rl_H) + 1)).
Proof.
  intros [r Hr] [Hh _]. split; [apply u64_height|]. intros Hz. unfold lastFinalized.
  assert (Hlast : w.(sw_rlc).(rl_H) = two64 - 1).
  { rewrite <- (u64_next_previous _ Hh), Hz. reflexivity. }
  by rewrite <- Hlast, Hr.
Qed.

Lemma piped_next w n t : piped w -> finalized w ->
  piped (MkSMWorld (RLC_Reset (u64 (w.(sw_rlc).(rl_H) + 1)) 0 w.(sw_next) (CycleFinalization w.(sw_rlc)))
           w.(sw_st) n t w.(sw_answers) w.(sw_log)).
Proof.
  intros [Hl Hh [r Hp] Hv _] Hfin. pose proof (finalized_reached w Hfin Hh) as Hnext. destruct Hfin as [r' Hr'].
  split; simpl; [by eapply linksOK_ext, Hl|done| | |done].
  - exists r'. by rewrite u64_next_previous by apply Hh.
  - right. rewrite u64_next_two. by eexists _, _, _.
Qed.

Lemma piped_advanceHeight w : piped w -> finalized w -> swp (advanceHeight m) w (fun _ => piped) (fun _ => piped).
Proof. intros Hw Hf. apply fr_advanceHeight; try pp. intros n t. by apply piped_next. Qed.

Lemma piped_over : keeps piped (commitWaitOver (ST := ST) (P := P) m).
Proof.
  intros w Hw. unfold commitWaitOver. apply swp_bind, swp_getR.
  destruct (Validators (rl_FinalizedValSet (sw_rlc w))) eqn:E.
  - revert w Hw E. intros w Hw _. apply keeps_then; [|intros; apply keeps_ret]. by apply fr_setStep; [pp|].
  - apply piped_advanceHeight, Hw; [done|]. by rewrite E.
Qed.

(** ** Actions *)
Lemma piped_st w s' : piped w -> finsKept w.(sw_st) s' -> (forall h r, proposalAt h r s' = proposalAt h r w.(sw_st)) ->
  ss_StateMachineHeightRound s' = ss_StateMachineHeightRound w.(sw_st) -> piped {| w with sw_st := s' |}.
Proof.
  intros Hw Hk Hp Hpos. eapply piped_core, Hw; [|done|same_core]. apply linksOK_st; [done|done| |apply Hw].
  eapply finsKept_position, Hw; [done|]. intros h r. by rewrite Hpos.
Qed.

Lemma piped_sendAction act w : piped w ->
  (forall ph, act = actPH ph -> ph.(ph_Header).(Height) <> 0 ->
     linked w.(sw_st) w.(sw_rlc).(rl_H) w.(sw_rlc).(rl_R) ph) ->
  swp (sendAction (ST := ST) act) w (fun _ => piped) (fun _ => piped).
Proof.
  intros Hw Ha. unfold sendAction. apply swp_bind, swp_getR. destruct (rl_OutgoingActionsCh _); [|done].
  apply swp_sendS. eapply piped_core, Hw; [|apply finsKept_refl|same_core].
  apply linksOK_log; [|apply Hw]. intros h r ph [= <- <- Hact]. by apply Ha.
Qed.

(** Votes are no proposals, and saving one leaves the proposals alone. *)
Lemma piped_recordVote sign save act hash :
  (forall key vt sig s, sameFins s (save key vt sig s).1) ->
  (forall key vt sig s h r, proposalAt h r (save key vt sig s).1 = proposalAt h r s) ->
  (forall key vt sig s, ss_StateMachineHeightRound (save key vt sig s).1 = ss_StateMachineHeightRound s) ->
  (forall sg ph, act sg = actPH ph -> ph = ProposedHeader_zero) ->
  keeps piped (recordVote (ST := ST) (P := P) m sign save act hash).
Proof.
  intros Hf Hp Hpos Ha w Hw. unfold recordVote. apply swp_bind, swp_getR. destruct (isParticipating _ _); [|done].
  destruct (m_signer m) as [sg|]; [|done]. destruct (sign sg _) as [[content sig]|]; [|done].
  apply swp_bind, swp_storeS. intros st e Es.
  assert (Hw' : piped {| w with sw_st := st |}).
  { replace st with (save (sg_PubKey sg) (MkVoteTarget w.(sw_rlc).(rl_H) w.(sw_rlc).(rl_R) hash) sig w.(sw_st)).1
      by (by rewrite Es). by apply piped_st; [|apply sameFins_kept| |]. }
  destruct e; [done|]. apply swp_bind. eapply swp_mono; [| |apply (piped_sendAction _ _ Hw')]; [done|done|].
  intros ph Hph. by rewrite (Ha _ _ Hph).
Qed.

Lemma piped_prevote hash : keeps piped (recordVote (ST := ST) (P := P) m sg_Prevote ss_SavePrevoteAction actPrevote hash).
Proof.
  apply piped_recordVote; [apply ssl_prevote_fin| |apply ssl_pos_prevote|by intros sg ph [=]].
  intros key vt sig s h r. destruct (ss_SavePrevoteAction key vt sig s) as [s' [e|]] eqn:E; simpl.
  - by destruct (ssl_prevote_err _ _ _ _ _ _ E).
  - apply (ssl_prevote_ok _ _ _ _ _ E).
Qed.

Lemma piped_precommit hash :
  keeps piped (recordVote (ST := ST) (P := P) m sg_Precommit ss_SavePrecommitAction actPrecommit hash).
Proof.
  apply piped_recordVote; [apply ssl_precommit_fin| |apply ssl_pos_precommit|by intros sg ph [=]].
  intros key vt sig s h r. destruct (ss_SavePrecommitAction key vt sig s) as [s' [e|]] eqn:E; simpl.
  - by destruct (ssl_precommit_err _ _ _ _ _ _ E).
  - apply (ssl_precommit_ok _ _ _ _ _ E).
Qed.

Lemma piped_proposal p : keeps piped (recordProposedHeader (ST := ST) (P := P) m p).
Proof.
  intros w Hw. unfold recordProposedHeader, derefVRV. apply swp_bind, swp_getR, swp_bind, swp_bind, swp_getR.
  destruct (rl_VRV _) as [vrv|]; [|done]. apply swp_ret. destruct (m_signer m) as [sg|]; [|done].
  destruct (hs_Block _ _) as [hash|]; [|done]. destruct (sg_SignProposedHeader _ _) as [sig|]; [|done].
  match goal with |- swp (storeS (ss_SaveProposedHeaderAction ?x) ≫= _) _ _ _ => set (ph := x) end.
  assert (Hl : linked w.(sw_st) w.(sw_rlc).(rl_H) w.(sw_rlc).(rl_R) ph) by (split; try done; apply Hw).
  pose proof (sameFins_kept _ _ (ssl_ph_fin ph w.(sw_st))) as Hk.
  apply swp_bind, swp_storeS. intros st e Es.
  assert (Hst : st = (ss_SaveProposedHeaderAction ph w.(sw_st)).1) by (by rewrite Es). rewrite <- Hst in Hk.
  assert (Hw' : piped {| w with sw_st := st |}).
  { eapply piped_core, Hw; [|done|same_core]. rewrite Hst. by apply linksOK_proposal; [apply Hw|]. }
  destruct e; [done|]. apply swp_bind. eapply swp_mono; [| |apply (piped_sendAction _ _ Hw')]; [done|done|].
  intros ph' [= <-] _. by eapply finsKept_linked.
Qed.

Lemma piped_resume vrv : keeps piped (resumeProposal (ST := ST) (P := P) m vrv).
Proof.
  intros w Hw. unfold resumeProposal. destruct (m_signer m) as [sg|]; [|done].
  assert (Hw' : piped {| w with sw_rlc := {| w.(sw_rlc) with rl_ProposalCh := None |} |})
    by (eapply piped_ext, Hw; try done; same_core).
  destruct (existsb _ _); [done|]. apply swp_bind, swp_getR, swp_bind, swp_loadS.
  destruct (ss_LoadActions _ _ _) as [ra|e] eqn:El; [|by destruct (isUnknownRound _ _ _)].
  destruct (ActionStore.ra_ProposedHeader ra) as [ph|] eqn:Eph; [|done]. destruct (_ =? 0); [done|].
  apply swp_bind, swp_modR, swp_bind.
  eapply swp_mono; [| |apply (piped_sendAction _ _ Hw')]; [done|done|].
  intros ph' [= <-] Hn. apply (ok_store _ (pp_links _ Hw)); [|done]. unfold proposalAt, actionsAt. simpl. by rewrite El.
Qed.

(** ** Live events *)
Definition afterFinal (ok : bool) w : Prop := linksOK w /\ (ok = true -> piped w).

Lemma piped_finalization resp w : piped w ->
  swp (handleFinalization m resp) w afterFinal (fun _ => linksOK).
Proof.
  intros Hw. pose proof (pp_links _ Hw) as Hl. unfold handleFinalization. destruct (fp_Validators resp); [done|].
  destruct (NewValidatorSet _ _) as [vals|]; [|by split]. apply swp_bind, swp_modR, swp_bind, swp_getR. simpl.
  set (w1 := {| w with sw_rlc := _ |}). assert (Hl1 : linksOK w1) by (by eapply linksOK_ext, Hl).
  destruct (_ || _); [done|]. apply swp_bind, swp_storeS. intros st e Es. simpl in Es.
  assert (Hl2 : linksOK {| w1 with sw_st := st |}).
  { replace st with (ss_SaveFinalization (rl_H (sw_rlc w)) (rl_R (sw_rlc w)) (fp_BlockHash resp) vals
      (fp_AppStateHash resp) (sw_st w)).1 by (by rewrite Es). by apply (linksOK_fin w1). }
  destruct e; [by split|]. destruct (ssl_fin_ok _ _ _ _ _ _ _ Es) as (_ & Hnew & Hold).
  assert (Hk : finsKept w.(sw_st) st).
  { pose proof (saveFin_kept (rl_H (sw_rlc w)) (rl_R (sw_rlc w)) (fp_BlockHash resp) vals (fp_AppStateHash resp)
      (sw_st w)) as Hk. by rewrite Es in Hk. }
  assert (Hw2 : piped {| w1 with sw_st := st |}).
  { destruct Hw as [_ Hh Hp Hv _]. split; simpl; try done.
    - by eapply finsKept_reached.
    - by eapply finsKept_previous.
    - by eapply finsKept_validators.
    - intros _. by eexists. }
  case_bool_decide; [|by split]. eapply swp_mono; [| |apply (piped_advanceHeight _ Hw2); by eexists].
  - intros ok w' Hw'. split; [apply Hw'|done].
  - intros e w' Hw'. apply Hw'.
Qed.

Lemma piped_live i w : piped w -> swp (handleLiveEvent m i) w afterFinal (fun _ => linksOK).
Proof.
  intros Hw. destruct i as [v|c p|c he|c he|c resp|t|c|a]; [| | | |by apply piped_finalization|..];
    (eapply swp_mono; [| |apply fr_handleLiveEvent; try pp; try done];
     [by intros ok w' Hw'; split; [apply Hw'|]|by intros e w' Hw'; apply Hw'|..];
     first [exact piped_over|exact piped_proposal|exact piped_prevote|exact piped_precommit]).
Qed.

(** ** Starting *)

(** Before the round is entered there is no view and no finalization. *)
Record starting w : Prop := {
  sg_links : linksOK w;
  sg_view : w.(sw_rlc).(rl_VRV) = None;
  sg_final : w.(sw_rlc).(rl_FinalizedValSet) = ValidatorSet_zero
}.

Lemma starting_ext w w' : w'.(sw_st) = w.(sw_st) -> w'.(sw_log) = w.(sw_log) ->
  w'.(sw_rlc).(rl_VRV) = w.(sw_rlc).(rl_VRV) ->
  w'.(sw_rlc).(rl_FinalizedValSet) = w.(sw_rlc).(rl_FinalizedValSet) -> starting w -> starting w'.
Proof. intros Es El Ev Ef [Hl Hv Hf]. split; [by eapply linksOK_ext, Hl|congruence|congruence]. Qed.

Lemma starting_log w o : isAction o = false -> starting w -> starting {| w with sw_log := w.(sw_log) ++ [o] |}.
Proof. intros Ho [Hl Hv Hf]. split; [|done|done]. apply linksOK_log; [|done]. intros. by subst. Qed.

(** The validators of the height were loaded. *)
Definition seated (h : Z) w : Prop := starting w /\ validatorsFor w.(sw_st) h w.(sw_rlc).(rl_CurValSet).

(** The engine gives the process the genesis, or a zero one when the chain was initialized before. *)
Context (g0 : Genesis) (Hg0 : g0 = g \/ g0 = Genesis_zero).
Context (Hinitial : g.(g_InitialHeight) = 1).
Local Abbreviation m0 := (withGenesis g0 m).

Lemma nextHeight_reached st h : ~ lastFinalized st -> isHeight h -> finAt h st <> None ->
  isHeight (u64 (h + 1)) /\ u64 (h + 1) <> 0.
Proof.
  intros Hlast Hh Hf. split; [apply u64_height|]. intros Hz. apply Hlast. unfold lastFinalized.
  replace (two64 - 1) with h; [done|]. by rewrite <- (u64_next_previous _ Hh), Hz.
Qed.

Lemma startPosition_height w h r : starting w -> ~ lastFinalized w.(sw_st) ->
  startPosition m0 w.(sw_st) = Ok (h, r) -> isHeight h /\ h <> 0.
Proof.
  intros [[_ _ (b & _ & rg & Hgen) Hp] _ _] Hlast. rewrite Hinitial in Hgen. change (u64 (1 - 1)) with 0 in Hgen.
  assert (Hload : forall x y hr, (match ss_LoadFinalizationByHeight x (sw_st w) with
    | Ok _ => Ok (u64 (x + 1), 0) | Err _ => Ok (x, y) end) = Ok hr -> isHeight x -> x <> 0 \/ x = 0 ->
    (x = 0 -> finAt 0 (sw_st w) <> None) -> isHeight hr.1 /\ hr.1 <> 0).
  { intros x y hr Hl Hx _ Hz. unfold finAt in Hz.
    destruct (ss_LoadFinalizationByHeight x (sw_st w)) as [f|] eqn:E; injection Hl as <-; simpl.
    - apply (nextHeight_reached (sw_st w)); [done|done|]. unfold finAt. by rewrite E.
    - split; [done|]. intros ->. rewrite E in Hz. by apply Hz. }
  assert (Hz : 0 = 0 -> finAt 0 (sw_st w) <> None) by (by rewrite Hgen).
  unfold startPosition. destruct (ss_StateMachineHeightRound (sw_st w)) as [[h' r']|e] eqn:E.
  - intros Hl. destruct (Hp _ _ E) as [Hh Hn]. apply (Hload _ _ _ Hl Hh).
    + destruct (decide (h' = 0)); auto.
    + intros Hz'. by destruct (Hlast (Hn Hz')).
  - destruct (bool_decide _); [|done]. simpl. intros Hl. destruct Hg0 as [->| ->]; simpl in Hl.
    + rewrite Hinitial in Hl. apply (Hload _ _ _ Hl); [by unfold isHeight|by left|done].
    + apply (Hload _ _ _ Hl); [by unfold isHeight|by right|done].
Qed.

Lemma loaded_fin st h r hash vals app : ss_LoadFinalizationByHeight h st = Ok (r, hash, vals, app) ->
  finAt h st = Some (r, hash, vals, app).
Proof. intros E. unfold finAt. by rewrite E. Qed.

(** Only the first process ever takes the genesis for its height. *)
Lemma isGenesis_height h r : h <> 0 -> isGenesis m0 h r = true -> g0 = g /\ h = g.(g_InitialHeight).
Proof.
  unfold isGenesis. intros Hz [Hh _]%andb_prop. apply Z.eqb_eq in Hh. simpl in Hh.
  destruct Hg0 as [->| ->]; [done|]. by simpl in Hh.
Qed.

Lemma starting_loadValSets h r w : h <> 0 -> starting w ->
  swp (loadValSets m0 h r) w (fun ok w' => starting w' /\ (ok = true -> seated h w')) (fun _ _ => False).
Proof.
  intros Hz Hw. unfold loadValSets, loadFin. destruct (isGenesis m0 h r) eqn:Eg.
  { destruct (isGenesis_height _ _ Hz Eg) as [Eg0 Eh]. simpl. rewrite Eg0. apply swp_bind, swp_modR, swp_ret.
    assert (Hw' : starting {| w with sw_rlc := {| w.(sw_rlc) with rl_CurValSet := g.(g_ValidatorSet);
      rl_PrevValSet := g.(g_ValidatorSet) |} |}) by (by eapply starting_ext, Hw).
    split; [done|]. intros _. split; [done|]. by left. }
  apply swp_bind, swp_loadS. destruct (ss_LoadFinalizationByHeight (u64 (h - 2)) _) as [[[[r2 b2] vals] a2]|] eqn:E2;
    [|by apply swp_ret].
  apply loaded_fin in E2. apply swp_bind, swp_modR.
  set (w1 := {| w with sw_rlc := _ |}). assert (Hw1 : seated h w1).
  { split; [by eapply starting_ext, Hw|]. right. by eexists _, _, _. }
  assert (Hset : forall pv, seated h {| w1 with sw_rlc := {| w1.(sw_rlc) with rl_PrevValSet := pv |} |}).
  { intros pv. split; [by eapply starting_ext, Hw1|apply Hw1]. }
  destruct (_ <? _).
  - apply swp_bind, swp_loadS. destruct (ss_LoadFinalizationByHeight _ _) as [[[[r3 b3] pvals] a3]|].
    + apply swp_bind, swp_modR, swp_ret. split; [apply Hset|]. intros _. apply Hset.
    + apply swp_ret. split; [apply Hw1|done].
  - apply swp_bind, swp_modR, swp_ret. split; [apply Hset|]. intros _. apply Hset.
Qed.

(** The round lifecycle is at the height, with its validators. *)
Definition placed (h : Z) w : Prop := seated h w /\ w.(sw_rlc).(rl_H) = h.

Lemma piped_loadPrevious h r vrv w : isHeight h -> h <> 0 -> placed h w ->
  swp (loadPrevious m0 h r vrv) w (fun ok w' => linksOK w' /\ (ok = true -> piped w')) (fun _ => linksOK).
Proof.
  intros Hh Hz [[[Hl Hv Hf] Hvals] Eh]. assert (Hre : reached w.(sw_st) h) by done.
  unfold loadPrevious, loadFin. destruct (isGenesis m0 h r) eqn:Eg.
  { destruct (isGenesis_height _ _ Hz Eg) as [Eg0 Egh]. simpl. rewrite Eg0. apply swp_bind, swp_modR. destruct (ok_genesis _ Hl) as (b & Hb & Hprev).
    rewrite Hb. apply swp_bind, swp_modR, swp_ret.
    assert (Hl' : linksOK {| w with sw_rlc := {| w.(sw_rlc) with rl_PrevFinNextValSet := g.(g_ValidatorSet);
      rl_PrevFinAppStateHash := g.(g_CurrentAppStateHash); rl_PrevBlockHash := b.(Hash) |} |})
      by (by eapply linksOK_ext, Hl).
    split; [done|]. intros _. split; simpl; [done|by rewrite Eh|by rewrite Eh, Egh|by rewrite Eh|by rewrite Hf]. }
  apply swp_bind, swp_loadS. destruct (ss_LoadFinalizationByHeight (u64 (h - 1)) _) as [[[[r1 b1] vals] a1]|] eqn:E1;
    [|by apply swp_ret].
  apply loaded_fin in E1. apply swp_bind, swp_modR, swp_ret.
  split; [by eapply linksOK_ext, Hl|]. intros _.
  split; simpl; [by eapply linksOK_ext, Hl|by rewrite Eh|rewrite Eh; by exists r1|by rewrite Eh|by rewrite Hf].
Qed.

Lemma seated_ext h w w' : w'.(sw_st) = w.(sw_st) -> w'.(sw_log) = w.(sw_log) ->
  w'.(sw_rlc).(rl_VRV) = w.(sw_rlc).(rl_VRV) ->
  w'.(sw_rlc).(rl_FinalizedValSet) = w.(sw_rlc).(rl_FinalizedValSet) ->
  w'.(sw_rlc).(rl_CurValSet) = w.(sw_rlc).(rl_CurValSet) -> seated h w -> seated h w'.
Proof.
  intros Es El Ev Ef Ec [Hs Hv]. split; [by eapply starting_ext, Hs|]. by rewrite Es, Ec.
Qed.

Lemma seated_log h w o : isAction o = false -> seated h w -> seated h {| w with sw_log := w.(sw_log) ++ [o] |}.
Proof. intros Ho [Hs Hv]. split; [by apply starting_log|done]. Qed.

Lemma seated_entrance h w : seated h w -> swp (awaitEntrance (P := P) (ST := ST)) w (fun _ => seated h) (fun _ => seated h).
Proof.
  intros Hw. unfold awaitEntrance. apply swp_bind, swp_answerS; [done|]. intros a x l _ _.
  apply swp_bind, swp_sendS, swp_ret. apply (seated_log h {| w with sw_answers := l |}); [done|].
  by eapply seated_ext, Hw.
Qed.

Lemma seated_reset h r w : seated h w -> swp (resetRLC (P := P) (ST := ST) h r) w (fun _ => placed h) (fun _ _ => False).
Proof.
  intros Hw. unfold resetRLC. apply swp_bind, swp_getR, swp_bind.
  destruct (rl_CancelTimer _); (split; [by eapply seated_ext, Hw|done]).
Qed.

(** What the startup sends and loads. *)
Definition afterInitial (su : option (RoundEntranceResponse P)) w : Prop :=
  linksOK w /\ match su with
               | None => True
               | Some rer => (IsVRV rer = true -> piped w) /\
                   (IsVRV rer = false -> reached w.(sw_st) w.(sw_rlc).(rl_H) /\ w.(sw_rlc).(rl_VRV) = None)
               end.

Lemma swp_newChan w (Q : nat -> SMWorld P ST -> Prop) (E : option string -> SMWorld P ST -> Prop) :
  Q w.(sw_next) {| w with sw_next := S w.(sw_next) |} -> swp newChan w Q E.
Proof. done. Qed.

Lemma afterInitial_spec w : starting w -> ~ lastFinalized w.(sw_st) ->
  swp (sendInitialActionSet m0) w afterInitial (fun _ => linksOK).
Proof.
  intros Hw Hlast. unfold sendInitialActionSet. apply swp_bind, swp_newChan.
  set (w1 := {| w with sw_next := S w.(sw_next) |}). assert (Hw1 : starting w1) by (by eapply starting_ext, Hw).
  apply swp_bind, swp_loadS. destruct (startPosition m0 (sw_st w1)) as [[h r]|e] eqn:Ep; [|by split; [apply Hw1|]].
  destruct (startPosition_height _ _ _ Hw1 Hlast Ep) as [Hh Hz].
  apply swp_bind. eapply swp_mono; [| |apply (starting_loadValSets h r _ Hz Hw1)]; [|done].
  intros ok w2 [Hw2 Hok]. destruct ok; simpl; [|by split; [apply Hw2|]]. specialize (Hok eq_refl).
  apply swp_bind, swp_getR, swp_bind, swp_sendS, swp_bind.
  eapply swp_mono; [| |apply seated_entrance, seated_log; [|exact Hok]]; [|intros e w' Hw'; apply Hw'|done].
  intros rer w3 Hw3. apply swp_bind. eapply swp_mono; [| |apply (seated_reset h r _ Hw3)]; [|done].
  intros ? w4 Hw4. apply swp_bind, swp_modR. set (w5 := {| w4 with sw_rlc := _ |}).
  assert (Hw5 : placed h w5) by (split; [eapply seated_ext, Hw4; done|apply Hw4]).
  destruct (IsVRV rer) eqn:Ev.
  - apply swp_bind, swp_modR, swp_bind. eapply swp_mono; [| |apply piped_loadPrevious; [exact Hh|exact Hz|]]; [|done|].
    + intros ok w6 [Hl6 Hp6]. destruct ok; simpl; [|by split]. apply swp_bind, swp_getR, swp_ret.
      split; [done|]. split; [by intros _; apply Hp6|]. intros Hn. change (IsVRV rer = false) in Hn. congruence.
    + split; [eapply seated_ext, Hw5; done|apply Hw5].
  - apply swp_bind. unfold sendFinalize. apply swp_bind, swp_getR, swp_sendS, swp_ret.
    split; [apply linksOK_log; [done|apply Hw5]|]. split; [by rewrite Ev|]. intros _.
    destruct Hw5 as [Hse Eh]. split; [by simpl in *; rewrite Eh; split|apply Hse].
Qed.

(** A round that is entered live builds on the finalizations. *)
Definition afterStart (ok : bool) w : Prop :=
  linksOK w /\ (ok = true -> reached w.(sw_st) w.(sw_rlc).(rl_H) /\ (loopMode w.(sw_rlc) = LiveLoop -> piped w)).

Lemma afterStart_spec w : starting w -> ~ lastFinalized w.(sw_st) ->
  swp (initializeRLC m0) w afterStart (fun _ => linksOK).
Proof.
  intros Hw Hlast. unfold initializeRLC. apply swp_bind.
  eapply swp_mono; [| |by apply afterInitial_spec]; [|done]. intros [rer|] w1 [Hl1 Hs]; [|by split].
  destruct Hs as [Hv Hr]. destruct (IsVRV rer); simpl.
  - specialize (Hv eq_refl). assert (Hgo : keeps piped (resumed ← resumeProposal m0 rer.(rer_VRV);
      match resumed with None => mret false | Some vrv => err ← enterRound vrv.(vrv_RV);
        match err with Some _ => mret false | None => beginRoundLive (advanceRound m0) vrv end end)).
    { apply keeps_bind; [apply piped_resume|]. intros [vrv|]; [|apply keeps_ret].
      apply keeps_bind; [pp|]. intros [e|]; [apply keeps_ret|]. apply fr_beginRoundLive; try pp.
      apply fr_advanceRound; pp. }
    eapply swp_mono; [| |exact (Hgo w1 Hv)]; [|intros e w' Hw'; apply Hw'].
    intros ok w' Hw'. split; [apply Hw'|]. intros _. split; [apply Hw'|done].
  - destruct (Hr eq_refl) as [Hh En]. split; [done|]. intros _. split; [done|]. unfold loopMode, IsReplaying. by rewrite En.
Qed.

(** ** Replays

    They only need to know that the height was reached. *)
Definition sited w : Prop := linksOK w /\ reached w.(sw_st) w.(sw_rlc).(rl_H).

Lemma sited_ext w w' : w'.(sw_st) = w.(sw_st) -> w'.(sw_log) = w.(sw_log) ->
  sameCore w.(sw_rlc) w'.(sw_rlc) -> (w.(sw_next) <= w'.(sw_next))%nat -> sited w -> sited w'.
Proof.
  intros Es El Hc _ [Hl Hh]. split; [by eapply linksOK_ext, Hl|]. rewrite Es. by destruct Hc as [-> _].
Qed.

Lemma sited_log w o : isAction o = false -> sited w -> sited {| w with sw_log := w.(sw_log) ++ [o] |}.
Proof. intros Ho [Hl Hh]. split; [|done]. apply linksOK_log; [|done]. intros. by subst. Qed.

Lemma sited_quiet w o : quiet o = true -> sited w -> sited {| w with sw_log := w.(sw_log) ++ [o] |}.
Proof. intros Ho. apply sited_log. by destruct o. Qed.

Lemma sited_position w r : sited w ->
  sited {| w with sw_st := (ss_SetStateMachineHeightRound w.(sw_rlc).(rl_H) r w.(sw_st)).1 |}.
Proof.
  intros [Hl Hh]. split; [by apply linksOK_position|]. eapply finsKept_reached, Hh. apply sameFins_kept, ssl_hr_fin.
Qed.

Lemma sited_reset w r : sited w ->
  sited {| w with sw_rlc := RLC_Reset w.(sw_rlc).(rl_H) r w.(sw_next) w.(sw_rlc);
                  sw_next := (w.(sw_next) + resetChans)%nat |}.
Proof. intros [Hl Hh]. split; [by eapply linksOK_ext, Hl|done]. Qed.

Ltac ss :=
  first [ exact sited_ext | exact sited_quiet | exact sited_position | exact sited_reset
        | requests sited_ext sited_log ].

Lemma sited_finalization resp : keeps sited (handleFinalization (ST := ST) (P := P) m resp).
Proof.
  intros w [Hl Hh]. unfold handleFinalization. destruct (fp_Validators resp); [done|].
  destruct (NewValidatorSet _ _) as [vals|]; [|done]. apply swp_bind, swp_modR, swp_bind, swp_getR. simpl.
  set (w1 := {| w with sw_rlc := _ |}). assert (Hl1 : linksOK w1) by (by eapply linksOK_ext, Hl).
  destruct (_ || _); [done|]. apply swp_bind, swp_storeS. intros st e Es. simpl in Es.
  pose proof (linksOK_fin w1 (rl_H (sw_rlc w)) (rl_R (sw_rlc w)) (fp_BlockHash resp) vals (fp_AppStateHash resp) Hl1) as Hl2.
  pose proof (saveFin_kept (rl_H (sw_rlc w)) (rl_R (sw_rlc w)) (fp_BlockHash resp) vals (fp_AppStateHash resp) (sw_st w)) as Hk.
  simpl in Hl2. rewrite Es in Hl2, Hk. simpl in Hl2, Hk. apply (finsKept_reached _ _ _ Hk) in Hh.
  destruct e; [by split|]. case_bool_decide; [|by split]. destruct (ssl_fin_ok _ _ _ _ _ _ _ Es) as (_ & Hnew & _).
  apply fr_advanceHeight; try ss. intros n t. split; [by eapply linksOK_ext, Hl2|].
  apply (finalized_reached {| w1 with sw_st := st |}); [by eexists|done].
Qed.

Lemma sited_catchup resp : keeps sited (handleCatchupEvent (ST := ST) (P := P) m resp).
Proof. unfold handleCatchupEvent. apply keeps_bind; [by apply fr_setStep; ss|]. intros _. apply sited_finalization. Qed.
End pipeline.

Section runs.
Context {P ST : Type} `{SMStoresLaws ST} `{!SMPositionLaws ST}.
Context (m : SMConfig) (Hinitial : m.(m_genesis).(g_InitialHeight) = 1).
Implicit Types (w : SMWorld P ST).

(** Finalizations are only added, in every run. *)
Lemma fins_store (L : ST) f : (forall s, finsKept s (f s).1) -> keeps (fun w => finsKept L w.(sw_st)) (storeS (P := P) f).
Proof. intros Hf. apply keeps_storeS. intros w Hw h x Hx. simpl. by apply Hf, Hw. Qed.

Lemma fins_run s s' : rtc (smstep (P := P) m) s s' -> finsKept s.(sy_w).(sw_st) s'.(sy_w).(sw_st).
Proof.
  intros Hr. set (L := s.(sy_w).(sw_st)).
  assert (Hpv : forall key vt sig, keeps (fun w : SMWorld P ST => finsKept L w.(sw_st)) (storeS (ss_SavePrevoteAction key vt sig)))
    by (intros; apply fins_store; intros; apply sameFins_kept, ssl_prevote_fin).
  assert (Hpc : forall key vt sig, keeps (fun w : SMWorld P ST => finsKept L w.(sw_st)) (storeS (ss_SavePrecommitAction key vt sig)))
    by (intros; apply fins_store; intros; apply sameFins_kept, ssl_precommit_fin).
  assert (Hph : forall ph, keeps (fun w : SMWorld P ST => finsKept L w.(sw_st)) (storeS (ss_SaveProposedHeaderAction ph)))
    by (intros; apply fins_store; intros; apply sameFins_kept, ssl_ph_fin).
  assert (Hsend : forall o, keeps (fun w : SMWorld P ST => finsKept L w.(sw_st)) (sendS o)) by (intros; by apply keeps_sendS).
  assert (Hmod : forall f, keeps (fun w : SMWorld P ST => finsKept L w.(sw_st)) (modR f)) by (intros; by apply keeps_modR).
  apply (trace_invariant m (fun w => finsKept L w.(sw_st))) with (s := s); try done.
  - by intros w w' ->.
  - intros w h r Hw k x Hx. simpl. by apply (sameFins_kept _ _ (ssl_hr_fin h r _)), Hw.
  - intros w h r hash vals app Hw k x Hx. simpl. by apply (saveFin_kept h r hash vals app), Hw.
  - intros p. unfold recordProposedHeader, derefVRV, sendAction. keeps_tac; auto.
  - intros hash. unfold recordVote, sendAction. keeps_tac; auto.
  - intros hash. unfold recordVote, sendAction. keeps_tac; auto.
  - intros vrv. unfold resumeProposal, sendAction. keeps_tac; auto.
  - by intros h f.
Qed.

Record pipeInv (s : SMSys P ST) : Prop := {
  pi_links : linksOK m s.(sy_w);
  pi_height : s.(sy_mode) <> Down -> reached s.(sy_w).(sw_st) s.(sy_w).(sw_rlc).(rl_H);
  pi_live : s.(sy_mode) = LiveLoop -> piped m s.(sy_w)
}.

Lemma pipeInv_down w : linksOK m w -> pipeInv (MkSys Down w).
Proof. by intros. Qed.

Lemma pipeInv_start g w l : g = m.(m_genesis) \/ g = Genesis_zero -> ~ lastFinalized w.(sw_st) -> linksOK m w ->
  pipeInv (start (withGenesis g m) l w).
Proof.
  intros Hg Hlast Hl. unfold start.
  assert (Hw : starting m (provide l (crashed w))) by (split; [by eapply linksOK_ext, Hl|done|done]).
  pose proof (afterStart_spec m g Hg Hinitial (provide l (crashed w)) Hw Hlast) as Hs.
  unfold swp in Hs. destruct (initializeRLC _ _) as [[] w'|msg w'|w']; simpl in *.
  - destruct Hs as [Hl' Hok]. destruct (Hok eq_refl) as [Hh Hp]. by split.
  - apply pipeInv_down. exact (proj1 Hs).
  - apply pipeInv_down. exact Hs.
  - apply pipeInv_down. exact Hs.
Qed.

Lemma pipeInv_live i l w : piped m w -> pipeInv (live m i l w).
Proof.
  intros Hp. assert (Hw : piped m (provide l (elapsed i w))) by (eapply piped_ext, Hp; destruct i; try done; same_core).
  unfold live. pose proof (piped_live m i _ Hw) as Hs. unfold swp in Hs.
  destruct (handleLiveEvent m i _) as [[] w'|msg w'|w']; simpl in *.
  - destruct Hs as [Hl' Hok]. specialize (Hok eq_refl). split; [done|intros _; apply Hok|done].
  - apply pipeInv_down. exact (proj1 Hs).
  - apply pipeInv_down. exact Hs.
  - apply pipeInv_down. exact Hs.
Qed.

Lemma pipeInv_catchup resp l w : sited m w -> pipeInv (catchup m resp l w).
Proof.
  intros Hp. assert (Hw : sited m (provide l w)) by (eapply sited_ext, Hp; try done; same_core).
  unfold catchup. pose proof (sited_catchup m resp _ Hw) as Hs. unfold swp in Hs.
  destruct (handleCatchupEvent m resp _) as [[] w'|msg w'|w']; simpl in *;
    [|apply pipeInv_down; exact (proj1 Hs)..].
  destruct Hs as [Hl' Hh]. by split.
Qed.

Lemma pipe_run s s' : ~ lastFinalized s'.(sy_w).(sw_st) -> rtc (smstep m) s s' -> pipeInv s -> pipeInv s'.
Proof.
  intros Hlast Hr Hs. induction Hr as [s|s1 s2 s3 Hstep Hr IH]; [done|]. apply IH; [done|].
  assert (Hlast1 : ~ lastFinalized s1.(sy_w).(sw_st)).
  { intros Hf. apply Hlast. apply (finsKept_last s1.(sy_w).(sw_st)); [|done]. apply fins_run. by eapply rtc_l. }
  clear IH Hr. destruct Hs as [Hl Hh Hp].
  destruct Hstep as [md w l g Hg _|w i l _ _ _|w c resp l _ _ _|md w]; simpl in *.
  - by apply pipeInv_start.
  - by apply pipeInv_live, Hp.
  - apply pipeInv_catchup. split; [done|]. by apply Hh.
  - split; simpl; [by eapply linksOK_ext, Hl|done|]. intros Hm. eapply piped_ext, Hp; try done; same_core.
Qed.
End runs.


(** Height 1 is committed and finalized, and the node proposes in height 2. *)
Definition exFast : exSys :=
  live exConfig (exUpdate (exView 1 0 2 [exPH 1 0 "x"] (exSummary [("x", 3)] [("x", 3)] "x" "x"))) [] exStart.(sy_w).
Definition exFinChan : nat := match exFast.(sy_w).(sw_rlc).(rl_FinalizeRespCh) with Some c => c | None => 0%nat end.
Definition exFinal : exSys :=
  live exConfig (InFinalization exFinChan (MkFinResp 1 0 "x" toyValSet.(Validators) "app1")) [] exFast.(sy_w).
Definition exTimerChan : nat := match exFinal.(sy_w).(sw_rlc).(rl_StepTimer) with Some c => c | None => 0%nat end.
Definition exNext : exSys := live exConfig (InTimer exTimerChan) (exEnter (exView 2 0 1 [] exNoVotes)) exFinal.(sy_w).
Definition exProposeChan : nat := match exNext.(sy_w).(sw_rlc).(rl_ProposalCh) with Some c => c | None => 0%nat end.
Definition exOwn : exSys :=
  live exConfig (InProposal exProposeChan (MkProposal "data" (MkAnnotations nilHash nilHash) (MkAnnotations nilHash nilHash)))
    [] exNext.(sy_w).

Lemma ex_run_own : rtc (smstep exConfig) (smInit exStores) exOwn.
Proof.
  apply (rtc_l _ _ exStart); [apply step_start|].
  apply (rtc_l _ _ exFast); [apply step_live; [vm_compute; reflexivity|exact I|exact I]|].
  apply (rtc_l _ _ exFinal).
  { apply step_live; [vm_compute; reflexivity|vm_compute; reflexivity|].
    exists 1, 0, (ph_Header (exPH 1 0 "x")), 0. apply (list_elem_of_lookup_2 _ 5). vm_compute. reflexivity. }
  apply (rtc_l _ _ exNext); [apply step_live; [vm_compute; reflexivity|vm_compute; reflexivity|exact I]|].
  apply (rtc_l _ _ exOwn); [|apply rtc_refl].
  apply step_live; [vm_compute; reflexivity|vm_compute; reflexivity|].
  exists 2, 0, (vrv_RV (exView 2 0 1 [] exNoVotes)). apply (list_elem_of_lookup_2 _ 8). vm_compute. reflexivity.
Qed.

Definition exOwnPH : ProposedHeader :=
  match exOwn.(sy_w).(sw_log) !! 10%nat with Some (OutAction _ _ act) => act.(act_PH) | _ => ProposedHeader_zero end.

Lemma exNoPosition : ss_StateMachineHeightRound exStores = Err ErrStoreUninitialized.
Proof. reflexivity. Qed.

Lemma exNoProposal h r : proposalAt h r exStores = None.
Proof. unfold proposalAt. rewrite mem_actionsAt. simpl. by rewrite lookup_empty. Qed.

