(* ===== verification/StateMachineSafety.v ===== *)
(** The state machine does not panic on its own: in runs where the mirror answers round entrances with views
    it can enter, its timers never overlap, it never cancels a timer it does not have, and every panic names
    a fault of the mirror, the strategy or the application. *)
From S2P Require Import Prelude.
From S2P Require Import Types.
From S2P Require Import Powers.
From S2P Require Import VoteSummary.
From S2P Require Import RoundView.
From S2P Require Import Stores.
From S2P Require Import Managers.
From S2P Require Import KernelBase.
From S2P Require Import RoundLifecycle.
From S2P Require Import StateMachineBase.
From S2P Require Import StateMachine.
From S2P Require Import StateMachineRun.
From S2P Require Import KernelExample.
From S2P Require Import StateMachineExample.
From stdpp Require Import relations.
Local Open Scope Z_scope.

(** The panics another component provokes: views without power, a strategy that takes no request within
    100ms or fails to enter a round, view updates the mirror must not send, a height committed signal outside
    the commit wait, finalizations without validators or for another round, and a failing hash scheme. *)
Definition externalFaults : list string :=
  [ "ByzantineMajority: n must be positive"; "ByzantineMinority: n must be positive";
    "TODO: handle blocked send to ChooseProposedBlockRequests";
    "TODO: handle blocked send to ConsiderProposedBlocksRequests";
    "FATAL: error when calling ConsensusStrategy.EnterRound while advancing height";
    "BUG: received view update with empty VRV and nil JumpAheadRoundView";
    "BUG: attempted to jump ahead to another height"; "BUG: attempted to jump ahead to an earlier round";
    "BUG: expected to be on step commit wait";
    "BUG: application did not set validators in finalization response";
    "BUG: driver sent height/round differing from current";
    "FATAL: failed to generate genesis block hash" ].

(** The steps that have a timer. *)
Definition timed (s : Step) : bool :=
  match s with
  | StepAwaitingProposal | StepPrevoteDelay | StepPrecommitDelay | StepCommitWait => true
  | _ => false
  end.

Section safety.
Context {P ST : Type} `{!SMStores ST}.
Context (m : SMConfig).
Implicit Types (w : SMWorld P ST).
Local Abbreviation M := (SM P ST).

(** The mirror answers with a live view whose votes are not split and whose committed header is there. *)
Definition enterable (a : Answer P) : Prop :=
  match a with
  | AnsEntrance r =>
      IsVRV r = true /\
      match GetStepFromVoteSummary (vSummary r.(rer_VRV)) with
      | Ret StepCommitWait => (vSummary r.(rer_VRV)).(MostVotedPrecommitHash) = nilHash \/
          headerFor (vSummary r.(rer_VRV)).(MostVotedPrecommitHash) (vPHs r.(rer_VRV)) <> None
      | Ret StepPrevoteDelay | Ret StepPrecommitDelay => False
      | _ => True
      end
  | _ => True
  end.

(** The step, whether there is a timer, and whether there is a view.  Only the lifecycle's timer can run. *)
Record placedAt (v : bool) (s : Step) (b : bool) w : Prop := {
  pa_step : w.(sw_rlc).(rl_S) = s;
  pa_same : w.(sw_rlc).(rl_StepTimer) = w.(sw_rlc).(rl_CancelTimer);
  pa_timer : if b then w.(sw_rlc).(rl_CancelTimer) <> None else w.(sw_rlc).(rl_CancelTimer) = None;
  pa_running t : w.(sw_timer) = Some t -> w.(sw_rlc).(rl_CancelTimer) = Some t;
  pa_view : v = true -> w.(sw_rlc).(rl_VRV) <> None;
  pa_answers : Forall enterable w.(sw_answers)
}.

(** Between two events of the live loop. *)
Definition settled w : Prop := exists s, s <> StepInvalid /\ placedAt true s (timed s) w.

Definition external (e : option string) w : Prop :=
  match e with Some msg => msg ∈ externalFaults | None => True end.

(** From [J], the computation returns in [K] or fails for an external reason. *)
Definition safe {A} (J : SMWorld P ST -> Prop) (act : M A) (K : A -> SMWorld P ST -> Prop) : Prop :=
  forall w, J w -> swp act w K external.
Definition calm {A} (J : SMWorld P ST -> Prop) (act : M A) : Prop := safe J act (fun _ => J).

Lemma safe_ret {A} J (a : A) (K : A -> SMWorld P ST -> Prop) : (forall w, J w -> K a w) -> safe J (mret a) K.
Proof. intros HK w Hw. by apply swp_ret, HK. Qed.

Lemma safe_bind {A C} J (act : M A) (f : A -> M C) K L :
  safe J act K -> (forall a, safe (K a) (f a) L) -> safe J (act ≫= f) L.
Proof.
  intros Ha Hf w Hw. apply swp_bind. eapply swp_mono; [| |by apply Ha]; [|done]. intros a w'. apply Hf.
Qed.

Lemma safe_post {A} J (act : M A) (K L : A -> SMWorld P ST -> Prop) :
  safe J act K -> (forall a w, K a w -> L a w) -> safe J act L.
Proof. intros Ha HK w Hw. eapply swp_mono; [exact HK|done|by apply Ha]. Qed.

Lemma safe_panic {A} J msg (K : A -> SMWorld P ST -> Prop) : msg ∈ externalFaults -> safe J (panicS msg) K.
Proof. intros Hm w _. by apply swp_panicS. Qed.

Lemma safe_liftS {A} J (o : outcome A) (K : A -> SMWorld P ST -> Prop) :
  (forall msg, o = Panic msg -> msg ∈ externalFaults) -> (forall a w, o = Ret a -> J w -> K a w) -> safe J (liftS o) K.
Proof. intros Hp HK w Hw. apply swp_liftS; auto. Qed.

Lemma safe_lifted {A C} J (a : A) (f : A -> M C) K : safe J (f a) K -> safe J (liftS (Ret a) ≫= f) K.
Proof. done. Qed.

Lemma safe_fact {A} J (phi : Prop) (act : M A) K : (phi -> safe J act K) -> safe (fun w => J w /\ phi) act K.
Proof. intros Ha w [Hw Hphi]. by apply Ha. Qed.

(** The lifecycle, known while the computation goes on. *)
Lemma safe_getR {C} J (f : RoundLifecycle P -> M C) K :
  (forall rlc, safe (fun w => J w /\ w.(sw_rlc) = rlc) (f rlc) K) -> safe J (getR ≫= f) K.
Proof. intros Hf w Hw. apply swp_bind, swp_getR. by apply Hf. Qed.

Lemma safe_pre {A} (J J' : SMWorld P ST -> Prop) (act : M A) K : (forall w, J w -> J' w) -> safe J' act K -> safe J act K.
Proof. intros HJ Ha w Hw. by apply Ha, HJ. Qed.

(** ** Computations that stay where they are *)
Lemma placedAt_ext v s b w w' : w'.(sw_rlc).(rl_S) = w.(sw_rlc).(rl_S) ->
  w'.(sw_rlc).(rl_StepTimer) = w.(sw_rlc).(rl_StepTimer) ->
  w'.(sw_rlc).(rl_CancelTimer) = w.(sw_rlc).(rl_CancelTimer) -> w'.(sw_rlc).(rl_VRV) = w.(sw_rlc).(rl_VRV) ->
  w'.(sw_timer) = w.(sw_timer) -> w'.(sw_answers) = w.(sw_answers) -> placedAt v s b w -> placedAt v s b w'.
Proof. intros Es Et Ec Ev Er Ea [Hs Ht Hb Hr Hv Ha]. split; rewrite ?Es, ?Et, ?Ec, ?Ev, ?Er, ?Ea; done. Qed.

Lemma calm_modR v s b (f : RoundLifecycle P -> RoundLifecycle P) :
  (forall rlc, rl_S (f rlc) = rl_S rlc /\ rl_StepTimer (f rlc) = rl_StepTimer rlc /\
     rl_CancelTimer (f rlc) = rl_CancelTimer rlc /\ rl_VRV (f rlc) = rl_VRV rlc) -> calm (placedAt v s b) (modR f).
Proof.
  intros Hf w Hw. apply swp_modR. destruct (Hf w.(sw_rlc)) as (Es & Et & Ec & Ev). by eapply placedAt_ext, Hw.
Qed.

Lemma calm_bind {A C} J (act : M A) (f : A -> M C) : calm J act -> (forall a, calm J (f a)) -> calm J (act ≫= f).
Proof. apply safe_bind. Qed.

Lemma calm_ret {A} J (a : A) : calm J (mret a).
Proof. by apply safe_ret. Qed.
Lemma calm_getR J : calm J getR.
Proof. by intros w Hw. Qed.
Lemma calm_loadS {A} J (f : ST -> A) : calm J (loadS f).
Proof. by intros w Hw. Qed.
Lemma calm_blockedS {A} J : calm (A := A) J blockedS.
Proof. by intros w Hw. Qed.
Lemma calm_sendS v s b o : calm (placedAt v s b) (sendS o).
Proof. intros w Hw. apply swp_sendS. by eapply placedAt_ext, Hw. Qed.
Lemma calm_storeS v s b f : calm (placedAt v s b) (storeS f).
Proof. intros w Hw. apply swp_storeS. intros st e _. by eapply placedAt_ext, Hw. Qed.
Lemma calm_markNew v s b phs reason : calm (placedAt v s b) (markNew phs reason).
Proof. intros w Hw. by eapply placedAt_ext, Hw. Qed.

(** The answer taken is one of those provided. *)
Lemma safe_answerS {A} v s b (f : Answer P -> option A) :
  safe (placedAt v s b) (answerS f)
    (fun x w => placedAt v s b w /\ exists a, f a = Some x /\ enterable a).
Proof.
  intros w Hw. apply swp_answerS; [done|]. intros a x l El Ef. destruct Hw as [Hs Ht Hb Hr Hv Ha].
  rewrite El in Ha. apply Forall_cons in Ha as [Ha Hl]. split; [by split|by exists a].
Qed.

Lemma calm_answerS {A} v s b (f : Answer P -> option A) : calm (placedAt v s b) (answerS f).
Proof. eapply safe_post; [apply safe_answerS|]. by intros a w [Hw _]. Qed.
End safety.

Create HintDb calm discriminated.
#[export] Hint Resolve calm_ret calm_getR calm_loadS calm_blockedS calm_sendS calm_storeS calm_markNew calm_answerS : calm.
#[export] Hint Extern 1 (calm _ (modR _)) => (apply calm_modR; intros; split_and!; reflexivity) : calm.

Ltac calm_step :=
  first
    [ progress (eauto 1 with calm nocore)
    | apply calm_bind; [|intros ?]
    | match goal with
      | |- calm _ (match ?x with _ => _ end) => destruct x
      end ].
Ltac calm_tac := repeat calm_step.
Ltac fault := apply safe_panic; unfold externalFaults; set_solver.

Section handlers.
Context {P ST : Type} `{!SMStores ST}.
Context (m : SMConfig).
Implicit Types (w : SMWorld P ST).
Local Abbreviation M := (SM P ST).

Lemma calm_sendCM v s b req : calm (P := P) (ST := ST) (placedAt v s b) (sendCM req).
Proof. unfold sendCM. calm_tac. Qed.
#[local] Hint Resolve calm_sendCM : calm.
Lemma calm_sendCMTimed v s b req msg : msg ∈ externalFaults -> calm (P := P) (ST := ST) (placedAt v s b) (sendCMTimed req msg).
Proof. intros Hm. unfold sendCMTimed. calm_tac. by apply safe_panic. Qed.
Lemma calm_sendFinalize v s b hd rd : calm (P := P) (ST := ST) (placedAt v s b) (sendFinalize hd rd).
Proof. unfold sendFinalize. calm_tac. Qed.
Lemma calm_sendAction v s b act : calm (P := P) (ST := ST) (placedAt v s b) (sendAction act).
Proof. unfold sendAction. calm_tac. Qed.
Lemma calm_decide v s b vrv : calm (P := P) (ST := ST) (placedAt v s b) (decidePrecommit vrv).
Proof. unfold decidePrecommit. calm_tac. Qed.
Lemma calm_consider v s b send phs mj : (forall req, calm (P := P) (ST := ST) (placedAt v s b) (send req)) ->
  calm (placedAt v s b) (considerPHs send phs mj).
Proof. intros. unfold considerPHs. calm_tac. Qed.
Lemma calm_choose v s b send phs : (forall req, calm (P := P) (ST := ST) (placedAt v s b) (send req)) ->
  calm (placedAt v s b) (choosePH send phs).
Proof. intros. unfold choosePH. calm_tac. Qed.
Lemma calm_arrived v s b phs ids : calm (P := P) (ST := ST) (placedAt v s b) (considerArrived phs ids).
Proof. unfold considerArrived. calm_tac. Qed.
Lemma calm_clear v s b : calm (P := P) (ST := ST) (placedAt v s b) clearConsidered.
Proof. unfold clearConsidered. calm_tac. Qed.
Lemma calm_enterRound v s b rv : calm (P := P) (ST := ST) (placedAt v s b) (enterRound rv).
Proof. unfold enterRound. calm_tac. Qed.

(** ** Moving *)
Lemma safe_setStep v s b s' : safe (P := P) (ST := ST) (placedAt v s b) (setStep s') (fun _ => placedAt v s' b).
Proof. intros w [Hs Ht Hb Hr Hv Ha]. apply swp_modR. by split. Qed.

Lemma safe_setVRV v s b vrv : safe (P := P) (ST := ST) (placedAt v s b) (setVRV vrv) (fun _ => placedAt true s b).
Proof. intros w [Hs Ht Hb Hr Hv Ha]. apply swp_modR. by split. Qed.

Lemma safe_startTimer v s kind : safe (P := P) (ST := ST) (placedAt v s false) (startTimer kind) (fun _ => placedAt v s true).
Proof.
  intros w [Hs Ht Hb Hr Hv Ha]. unfold swp, startTimer. destruct (sw_timer w) as [t|] eqn:E.
  - specialize (Hr _ eq_refl). congruence.
  - by split.
Qed.

Lemma safe_cancelStepTimer v s : safe (P := P) (ST := ST) (placedAt v s true) cancelStepTimer (fun _ => placedAt v s false).
Proof.
  intros w [Hs Ht Hb Hr Hv Ha]. unfold cancelStepTimer. apply swp_bind, swp_getR.
  destruct (rl_CancelTimer (sw_rlc w)) as [t|] eqn:Ec; [|done]. unfold swp; simpl.
  split; simpl; try done. intros t'. case_bool_decide as Ht'; [done|]. intros E. specialize (Hr _ E). congruence.
Qed.

Lemma safe_resetRLC v s b h r : safe (P := P) (ST := ST) (placedAt v s b) (resetRLC h r) (fun _ => placedAt v s false).
Proof.
  intros w [Hs Ht Hb Hr Hv Ha]. unfold resetRLC. apply swp_bind, swp_getR, swp_bind.
  destruct (rl_CancelTimer (sw_rlc w)) as [t|] eqn:Ec; unfold swp; simpl; (split; simpl; rewrite ?Ec; try done).
  intros t'. case_bool_decide as Ht'; [done|]. intros E. specialize (Hr _ E). congruence.
Qed.

(** Entering a round: [ok] is reported when the committed header is there, and the round is settled. *)
Definition enteredIf (here : Prop) (ok : bool) w : Prop := (ok = true -> settled w) /\ (here -> ok = true).

Lemma settled_at s w : s <> StepInvalid -> placedAt true s (timed s) w -> settled (P := P) (ST := ST) w.
Proof. intros Hs Hw. by exists s. Qed.

Lemma safe_beginCommit v s vrv : safe (P := P) (ST := ST) (placedAt v s false) (beginCommit vrv)
  (fun ok w => placedAt v StepCommitWait true w /\
     (headerFor (vSummary vrv).(MostVotedPrecommitHash) (vPHs vrv) <> None -> ok = true)).
Proof.
  unfold beginCommit. eapply safe_bind; [apply safe_setStep|]. intros ?.
  eapply safe_bind; [apply safe_startTimer|]. intros ?. destruct (headerFor _ _).
  - eapply safe_bind; [apply calm_sendFinalize|]. intros ?. by apply safe_ret.
  - by apply safe_ret.
Qed.

Lemma safe_settleStep v s s' vrv : s' = StepAwaitingProposal \/ s' = StepAwaitingPrecommits ->
  safe (P := P) (ST := ST) (placedAt v s false) (settleStep s' vrv) (enteredIf True).
Proof.
  intros Hs'. unfold settleStep.
  eapply (safe_bind _ _ _ (fun _ => placedAt true s' false)).
  { intros w [Hs Ht Hb Hr Hv Ha]. apply swp_modR. by split. }
  intros _. eapply (safe_bind _ _ _ (fun _ => placedAt true s' (timed s'))).
  - unfold startInitialTimer. apply safe_getR. intros rlc w [Hw <-]. pose proof (pa_step _ _ _ _ Hw) as ->.
    destruct Hs' as [->| ->]; [by apply safe_startTimer|by apply calm_ret].
  - intros _. apply safe_ret. intros w Hw. split; [|done]. intros _. apply (settled_at s'); [by destruct Hs' as [->| ->]|done].
Qed.

(** The header is there, for a round that is already committed. *)
Definition headerHere (vrv : VersionedRoundView P) : Prop :=
  match GetStepFromVoteSummary (vSummary vrv) with
  | Ret StepCommitWait => (vSummary vrv).(MostVotedPrecommitHash) = nilHash \/
      headerFor (vSummary vrv).(MostVotedPrecommitHash) (vPHs vrv) <> None
  | _ => True
  end.

Definition unsplit (vrv : VersionedRoundView P) : Prop :=
  match GetStepFromVoteSummary (vSummary vrv) with
  | Ret StepPrevoteDelay | Ret StepPrecommitDelay => False
  | _ => True
  end.

Lemma majority_fault n msg : ByzantineMajority n = Panic msg -> msg ∈ externalFaults.
Proof.
  unfold ByzantineMajority, externalFaults. destruct (n =? 0); [|by destruct (_ <? 2)]. intros [= <-]. set_solver.
Qed.

Lemma minority_fault n msg : ByzantineMinority n = Panic msg -> msg ∈ externalFaults.
Proof.
  unfold ByzantineMinority, externalFaults. destruct (n =? 0); [|by destruct (_ =? 0)]. intros [= <-]. set_solver.
Qed.

Lemma GetStep_result vs : match GetStepFromVoteSummary vs with
  | Ret s => s <> StepAwaitingPrevotes /\ s <> StepInvalid /\ s <> StepAwaitingFinalization
  | Panic msg => msg ∈ externalFaults
  end.
Proof.
  unfold GetStepFromVoteSummary. destruct (ByzantineMajority _) eqn:E; [|by eapply majority_fault]. simpl.
  destruct (ByzantineMinority _) eqn:E'; [|by eapply minority_fault]. simpl. by repeat destruct (_ <=? _).
Qed.

Lemma safe_beginRoundLive (adv : M bool) v s vrv : unsplit vrv -> safe (placedAt v s false) adv (enteredIf True) ->
  safe (placedAt v s false) (beginRoundLive adv vrv) (enteredIf (headerHere vrv)).
Proof.
  intros Hu Hadv. pose proof (GetStep_result (vSummary vrv)) as Hg. unfold beginRoundLive, headerHere, unsplit in *.
  destruct (GetStepFromVoteSummary (vSummary vrv)) as [st|msg]; [|intros w _; exact Hg].
  apply safe_lifted. destruct Hg as (Hg1 & Hg2 & Hg3), st; try done; simpl.
  - eapply (safe_bind _ _ _ (fun _ => placedAt v s false)); [apply calm_getR|]. intros rlc.
    eapply (safe_bind _ _ _ (fun _ => placedAt v s false)); [|intros ?; apply safe_settleStep; auto].
    destruct (rejectMismatchedProposedHeaders _ _); [apply calm_ret|]. apply calm_consider. intros. apply calm_sendCM.
  - eapply safe_bind; [apply calm_decide|]. intros ?. apply safe_settleStep. auto.
  - destruct (String.eqb_spec (MostVotedPrecommitHash (vSummary vrv)) nilHash) as [En|En].
    + eapply safe_post; [exact Hadv|]. intros ok w [H1 H2]. split; [done|]. intros _. by apply H2.
    + eapply safe_bind; [apply safe_beginCommit|]. intros ok.
      assert (Hset : safe (placedAt v StepCommitWait true) (setVRV (P := P) (ST := ST) vrv) (fun _ => settled)).
      { eapply safe_post; [apply safe_setVRV|]. intros ? w Hw. by apply (settled_at StepCommitWait). }
      destruct ok.
      * eapply safe_bind; [eapply safe_pre, Hset; by intros w [Hw _]|]. intros ?. by apply safe_ret.
      * apply safe_ret. intros w [_ Hok]. split; [done|]. intros [?|Hh]; [done|]. by apply Hok.
Qed.

Lemma safe_awaitEntrance v s b : safe (P := P) (ST := ST) (placedAt v s b) awaitEntrance
  (fun r w => placedAt v s b w /\ enterable (AnsEntrance r)).
Proof.
  unfold awaitEntrance. eapply safe_bind; [apply safe_answerS|]. intros r. simpl. apply safe_fact.
  intros (a & Ea & Hr). destruct a; simplify_eq/=. eapply safe_bind; [apply calm_sendS|]. intros ?. by apply safe_ret.
Qed.

Lemma safe_enter_result v s b (err : option error) (act : M bool) K :
  (err = None -> safe (P := P) (ST := ST) (placedAt v s b) act K) ->
  safe (placedAt v s b) (match err with
    | Some _ => panicS "FATAL: error when calling ConsensusStrategy.EnterRound while advancing height"
    | None => act end) K.
Proof. intros Ha. destruct err; [fault|auto]. Qed.

Lemma safe_advance (adv : M bool) v s h r : safe (placedAt v s false) adv (enteredIf True) ->
  safe (placedAt v s false) (advance m adv h r) (enteredIf True).
Proof.
  intros Hadv. unfold advance. eapply safe_bind; [apply calm_getR|]. intros rlc.
  eapply safe_bind; [apply calm_sendS|]. intros ?. eapply safe_bind; [apply safe_awaitEntrance|]. intros rer.
  simpl. apply safe_fact. intros [Ev Hg]. rewrite Ev.
  eapply safe_bind; [apply calm_modR; intros; split_and!; reflexivity|]. intros ?.
  eapply safe_bind; [apply calm_enterRound|]. intros err. apply safe_enter_result. intros _.
  eapply safe_post; [apply safe_beginRoundLive; [|exact Hadv]|].
  - unfold unsplit. destruct (GetStepFromVoteSummary _) as [[]|]; done.
  - intros ok w [H1 H2]. split; [done|]. intros _. apply H2. unfold headerHere.
    destruct (GetStepFromVoteSummary _) as [[]|]; done.
Qed.

(** The store takes every position. *)
Context (positions : forall h r (s : ST), (ss_SetStateMachineHeightRound h r s).2 = None).

Lemma safe_moveTo (adv : M bool) v s b h r : safe (placedAt v s false) adv (enteredIf True) ->
  safe (placedAt v s b) (moveTo m adv h r) (enteredIf True).
Proof.
  intros Hadv. unfold moveTo. eapply safe_bind; [apply safe_resetRLC|]. intros ?.
  eapply (safe_bind _ _ _ (fun e w => placedAt v s false w /\ e = None)).
  { intros w Hw. apply swp_storeS. intros st e Es. split; [by eapply placedAt_ext, Hw|].
    pose proof (positions h r w.(sw_st)) as Hp. by rewrite Es in Hp. }
  intros e. apply safe_fact. intros ->. by apply safe_advance.
Qed.

Lemma safe_advanceRoundN n v s b : safe (placedAt v s b) (advanceRoundN m n) (enteredIf True).
Proof.
  revert b. induction n as [|n IH]; intros b; simpl; [by intros w _|]. unfold advanceRoundBody.
  eapply safe_bind; [apply calm_getR|]. intros rlc. by apply safe_moveTo.
Qed.

Lemma safe_advanceRound v s b : safe (placedAt v s b) (advanceRound m) (enteredIf True).
Proof. intros w. apply safe_advanceRoundN. Qed.

Lemma safe_advanceHeight v s b : safe (placedAt v s b) (advanceHeight m) (enteredIf True).
Proof.
  unfold advanceHeight. eapply safe_bind; [apply calm_modR; intros; split_and!; reflexivity|]. intros ?.
  eapply safe_bind; [apply calm_getR|]. intros rlc. apply safe_moveTo, safe_advanceRound.
Qed.

(** ** View updates *)
Local Abbreviation rest s := (placedAt (P := P) (ST := ST) true s (timed s)).
Local Abbreviation toSettled J act := (safe (P := P) (ST := ST) J act (fun _ => settled)).

Lemma safe_derefVRV s b : calm (P := P) (ST := ST) (placedAt true s b) derefVRV.
Proof.
  unfold derefVRV. apply safe_getR. intros rlc w [Hw <-].
  destruct (rl_VRV (sw_rlc w)) eqn:E; [done|]. by apply (pa_view _ _ _ _ Hw) in E.
Qed.

(** A computation that stays in a settled place. *)
Lemma settled_calm s {A} (act : M A) : s <> StepInvalid -> calm (rest s) act -> toSettled (rest s) act.
Proof. intros Hs Ha. eapply safe_post; [exact Ha|]. intros ? w. by apply settled_at. Qed.

Lemma settled_ret s {A} (a : A) : s <> StepInvalid -> toSettled (rest s) (mret a).
Proof. intros Hs. apply settled_calm; [done|apply calm_ret]. Qed.

Lemma safe_ignoreRound s b : toSettled (placedAt true s b) (ignore (advanceRound m)).
Proof.
  unfold ignore. eapply safe_bind; [apply safe_advanceRound|]. intros ok. apply safe_ret. intros w [H1 H2]. by apply H1, H2.
Qed.

Lemma safe_ignoreCommit s vrv : toSettled (placedAt true s false) (ignore (beginCommit vrv)).
Proof.
  unfold ignore. eapply safe_bind; [apply safe_beginCommit|]. intros ok. apply safe_ret. intros w [Hw _].
  by apply (settled_at StepCommitWait).
Qed.

(** Moving to a step with a timer, and to one without. *)
Lemma safe_delay s s' kind (act : M unit) : timed s' = true -> s' <> StepInvalid ->
  calm (rest s') act -> toSettled (placedAt true s false) (_ ← setStep s'; _ ← startTimer kind; act).
Proof.
  intros Ht Hs Ha. eapply safe_bind; [apply safe_setStep|]. intros ?. eapply safe_bind; [apply safe_startTimer|].
  intros ?. pose proof (settled_calm s' act Hs Ha) as Hgo. by rewrite Ht in Hgo.
Qed.

Lemma safe_next s s' (act : M unit) : timed s' = false -> s' <> StepInvalid ->
  calm (rest s') act -> toSettled (placedAt true s false) (_ ← setStep s'; act).
Proof.
  intros Ht Hs Ha. eapply safe_bind; [apply safe_setStep|]. intros ?.
  pose proof (settled_calm s' act Hs Ha) as Hgo. by rewrite Ht in Hgo.
Qed.

Lemma safe_onPrecommitMajority s maj vrv : toSettled (placedAt true s false) (onPrecommitMajority m maj vrv).
Proof.
  unfold onPrecommitMajority. destruct (maj <=? _).
  - destruct (String.eqb _ _); [apply safe_ignoreRound|apply safe_ignoreCommit].
  - apply safe_delay; [done|done|apply calm_decide].
Qed.

(** Reading the lifecycle tells the step. *)
Lemma safe_at {C} v s b (f : RoundLifecycle P -> M C) K : (forall rlc, rl_S rlc = s -> safe (placedAt v s b) (f rlc) K) ->
  safe (placedAt v s b) (getR ≫= f) K.
Proof. intros Hf w Hw. apply swp_bind, swp_getR. apply Hf; [apply Hw|done]. Qed.

(** The timer of a step that has one is cancelled, and the step has none otherwise. *)
Lemma safe_cancelIfStep s s' : timed s' = true -> (s <> s' -> timed s = false) ->
  safe (P := P) (ST := ST) (rest s) (cancelIfStep s') (fun _ => placedAt true s false).
Proof.
  intros Ht Hn. unfold cancelIfStep. apply safe_getR. intros rlc w [Hw <-].
  pose proof (pa_step _ _ _ _ Hw) as ->. case_bool_decide as Es.
  - subst s'. rewrite Ht in Hw. by apply safe_cancelStepTimer.
  - rewrite Hn in Hw by done. by apply calm_ret.
Qed.

Lemma safe_threshold s {C} (f : Z -> M C) (o : outcome Z) K : (forall msg, o = Panic msg -> msg ∈ externalFaults) ->
  (forall n, safe (rest s) (f n) K) -> safe (rest s) (liftS o ≫= f) K.
Proof. intros Hp Hf. destruct o; [by apply Hf|]. intros w _. by apply Hp. Qed.

Lemma timedMsg : "TODO: handle blocked send to ChooseProposedBlockRequests" ∈ externalFaults /\
  "TODO: handle blocked send to ConsiderProposedBlocksRequests" ∈ externalFaults.
Proof. unfold externalFaults. set_solver. Qed.

Lemma safe_proposalView vrv : toSettled (rest StepAwaitingProposal) (handleProposalViewUpdate m vrv).
Proof.
  destruct timedMsg as [Hch Hco].
  unfold handleProposalViewUpdate. apply safe_threshold; [apply minority_fault|]. intros min.
  apply safe_threshold; [apply majority_fault|]. intros maj. destruct (maj <=? _).
  { eapply safe_bind; [apply safe_cancelStepTimer|]. intros ?. apply safe_onPrecommitMajority. }
  destruct (min <=? _).
  { eapply safe_bind; [apply safe_cancelStepTimer|]. intros ?. apply safe_next; [done|done|apply calm_decide]. }
  destruct (maj <=? _).
  - eapply safe_bind; [apply safe_cancelStepTimer|]. intros ?. eapply safe_bind; [apply calm_getR|]. intros rlc.
    destruct (maj <=? _).
    + apply safe_next; [done|done|]. apply calm_bind; [|intros ?; apply calm_clear].
      apply calm_choose. intros. by apply calm_sendCMTimed.
    + apply safe_delay; [done|done|]. destruct (rejectMismatchedProposedHeaders _ _); [apply calm_ret|].
      apply calm_consider. intros. by apply calm_sendCMTimed.
  - apply settled_calm; [done|]. apply calm_bind; [apply safe_derefVRV|]. intros cur.
    destruct (bool_decide _); [|apply calm_ret]. apply calm_bind; [apply calm_getR|]. intros rlc. simpl.
    destruct (bool_decide _); [apply calm_ret|]. apply calm_consider. intros. by apply calm_sendCMTimed.
Qed.

Lemma safe_prevoteView s vrv : s = StepAwaitingPrevotes \/ s = StepPrevoteDelay ->
  toSettled (rest s) (handlePrevoteViewUpdate m vrv).
Proof.
  intros Hs. assert (Hn : s <> StepInvalid) by (by destruct Hs as [->| ->]).
  assert (Hc : s <> StepPrevoteDelay -> timed s = false) by (by destruct Hs as [->| ->]).
  unfold handlePrevoteViewUpdate. apply safe_threshold; [apply majority_fault|]. intros maj. destruct (maj <=? _).
  { eapply safe_bind; [by apply safe_cancelIfStep|]. intros ?. apply safe_onPrecommitMajority. }
  destruct (maj <=? _); [|by apply settled_ret]. destruct (maj <=? _).
  - eapply safe_bind; [by apply safe_cancelIfStep|]. intros ?. apply safe_next; [done|done|apply calm_decide].
  - apply safe_getR. intros rlc w [Hw <-]. pose proof (pa_step _ _ _ _ Hw) as ->.
    case_bool_decide as Es; [|by eapply settled_ret]. subst s. revert w Hw.
    change (toSettled (placedAt true StepAwaitingPrevotes false) (_ ← setStep StepPrevoteDelay; startTimer PrevoteDelayTimer)).
    eapply safe_bind; [apply safe_setStep|]. intros ?. eapply safe_post; [apply safe_startTimer|].
    intros ? w Hw. by apply (settled_at StepPrevoteDelay).
Qed.

Lemma safe_precommitView s vrv : s = StepAwaitingPrecommits \/ s = StepPrecommitDelay ->
  toSettled (rest s) (handlePrecommitViewUpdate m vrv).
Proof.
  intros Hs. assert (Hn : s <> StepInvalid) by (by destruct Hs as [->| ->]).
  assert (Hc : s <> StepPrecommitDelay -> timed s = false) by (by destruct Hs as [->| ->]).
  unfold handlePrecommitViewUpdate. apply safe_threshold; [apply majority_fault|]. intros maj.
  destruct (maj <=? _); [|by apply settled_ret]. destruct (maj <=? _).
  - destruct (String.eqb _ _); [apply safe_ignoreRound|].
    eapply safe_bind; [by apply safe_cancelIfStep|]. intros ?. apply safe_ignoreCommit.
  - destruct (_ =? _); [apply safe_ignoreRound|].
    apply safe_getR. intros rlc w [Hw <-]. pose proof (pa_step _ _ _ _ Hw) as ->.
    case_bool_decide as Es; [|by eapply settled_ret]. subst s. revert w Hw.
    change (toSettled (placedAt true StepAwaitingPrecommits false) (_ ← setStep StepPrecommitDelay; startTimer PrecommitDelayTimer)).
    eapply safe_bind; [apply safe_setStep|]. intros ?. eapply safe_post; [apply safe_startTimer|].
    intros ? w Hw. by apply (settled_at StepPrecommitDelay).
Qed.

#[local] Hint Resolve safe_derefVRV calm_sendFinalize : calm.
Lemma calm_commitWaitView s b vrv : calm (placedAt true s b) (handleCommitWaitViewUpdate (P := P) (ST := ST) vrv).
Proof.
  unfold handleCommitWaitViewUpdate. calm_tac.
Qed.

Lemma safe_settled {A} (act : M A) K : (forall s, s <> StepInvalid -> safe (rest s) act K) -> safe settled act K.
Proof. intros Ha w (s & Hs & Hw). by apply (Ha s). Qed.

Lemma safe_handleJumpAhead j : toSettled settled (handleJumpAhead m j).
Proof.
  apply safe_settled. intros s Hs. unfold handleJumpAhead. eapply safe_bind; [apply calm_getR|]. intros rlc.
  destruct (negb _); [fault|]. destruct (_ <=? _); [fault|]. apply safe_ignoreRound.
Qed.

Lemma safe_followView vrv : toSettled settled (followView m vrv).
Proof.
  apply safe_settled. intros s Hs. unfold followView. apply safe_getR. intros rlc w [Hw <-].
  pose proof (pa_step _ _ _ _ Hw) as ->. destruct s; try done.
  - by apply safe_proposalView.
  - by apply (safe_prevoteView StepAwaitingPrevotes); [left|].
  - by apply (safe_prevoteView StepPrevoteDelay); [right|].
  - by apply (safe_precommitView StepAwaitingPrecommits); [left|].
  - by apply (safe_precommitView StepPrecommitDelay); [right|].
  - by apply (settled_calm StepCommitWait); [|apply calm_commitWaitView|].
  - by apply (settled_calm StepAwaitingFinalization); [|apply calm_commitWaitView|].
Qed.

Lemma settled_deref : calm settled (derefVRV (P := P) (ST := ST)).
Proof. apply safe_settled. intros s Hs. apply settled_calm; [done|apply safe_derefVRV]. Qed.

Lemma settled_setVRV vrv : calm settled (setVRV (P := P) (ST := ST) vrv).
Proof.
  apply safe_settled. intros s Hs. eapply safe_post; [apply safe_setVRV|]. intros ? w. by apply settled_at.
Qed.

Lemma safe_handleViewUpdate v : toSettled settled (handleViewUpdate m v).
Proof.
  unfold handleViewUpdate. destruct (_ =? 0).
  { destruct (JumpAheadRoundView v); [apply safe_handleJumpAhead|fault]. }
  apply calm_bind; [apply calm_getR|]. intros rlc. destruct (_ || _); [apply calm_ret|].
  apply calm_bind; [apply settled_deref|]. intros cur. destruct (_ <=? _).
  { apply safe_settled. intros s Hs. apply settled_calm; [done|apply calm_sendS]. }
  apply calm_bind; [apply safe_followView|]. intros ?. apply calm_bind; [apply settled_deref|]. intros cur'.
  apply calm_bind; [destruct (_ && _); [apply settled_setVRV|apply calm_ret]|]. intros ?.
  destruct (JumpAheadRoundView v); [apply safe_handleJumpAhead|apply calm_ret].
Qed.

(** ** The other events *)

(** What a handler leaves: when it reports true, a settled state. *)
Definition goesOn (ok : bool) w : Prop := ok = true -> settled w.

Lemma goesOn_calm s (act : M bool) : s <> StepInvalid -> calm (rest s) act -> safe (rest s) act goesOn.
Proof. intros Hs Ha. eapply safe_post; [exact Ha|]. intros ok w Hw _. by apply (settled_at s). Qed.

Lemma safe_height s b : safe (placedAt true s b) (advanceHeight m) goesOn.
Proof. eapply safe_post; [apply safe_advanceHeight|]. by intros ok w [Hok _]. Qed.

Lemma safe_round s b : safe (placedAt true s b) (advanceRound m) goesOn.
Proof. eapply safe_post; [apply safe_advanceRound|]. by intros ok w [Hok _]. Qed.

Lemma safe_commitWaitOver s : safe (placedAt true s false) (commitWaitOver m) goesOn.
Proof.
  unfold commitWaitOver. eapply safe_bind; [apply calm_getR|]. intros rlc. destruct (Validators _).
  - eapply safe_bind; [apply safe_setStep|]. intros ?. apply safe_ret. intros w Hw _.
    by apply (settled_at StepAwaitingFinalization).
  - apply safe_height.
Qed.

Lemma safe_handleFinalization resp : safe settled (handleFinalization m resp) goesOn.
Proof.
  apply safe_settled. intros s Hs. unfold handleFinalization. destruct (fp_Validators resp); [fault|].
  destruct (NewValidatorSet _ _); [|by apply safe_ret].
  eapply safe_bind; [apply calm_modR; intros; split_and!; reflexivity|]. intros ?.
  eapply safe_bind; [apply calm_getR|]. intros rlc. destruct (_ || _); [fault|].
  eapply safe_bind; [apply calm_storeS|]. intros [e|]; [by apply safe_ret|].
  destruct (bool_decide _); [apply safe_height|]. apply goesOn_calm; [done|apply calm_ret].
Qed.

Lemma safe_handleTimerElapsed s : timed s = true -> safe (rest s) (handleTimerElapsed m) goesOn.
Proof.
  intros Ht. unfold handleTimerElapsed. apply safe_at. intros rlc ->. rewrite Ht. destruct s; try done.
  - eapply safe_bind; [apply safe_derefVRV|]. intros vrv.
    eapply safe_bind; [apply calm_choose; intros; apply calm_sendCM|]. intros ?.
    eapply safe_bind; [apply calm_clear|]. intros ?. eapply safe_bind; [apply safe_setStep|]. intros ?.
    eapply safe_bind; [apply safe_cancelStepTimer|]. intros ?. apply safe_ret. intros w Hw _.
    by apply (settled_at StepAwaitingPrevotes).
  - eapply safe_bind; [apply safe_derefVRV|]. intros vrv. eapply safe_bind; [apply calm_decide|]. intros ?.
    eapply safe_bind; [apply safe_setStep|]. intros ?. eapply safe_bind; [apply safe_cancelStepTimer|]. intros ?.
    apply safe_ret. intros w Hw _. by apply (settled_at StepAwaitingPrecommits).
  - eapply safe_bind; [apply safe_cancelStepTimer|]. intros ?. apply safe_round.
  - eapply safe_bind; [apply calm_modR; intros; split_and!; reflexivity|]. intros ?.
    eapply safe_bind; [apply safe_cancelStepTimer|]. intros ?. apply safe_commitWaitOver.
Qed.

(** Clearing the timer, whether there is one or not. *)
Lemma safe_clearTimer {C} v s b (act : M C) K : safe (placedAt v s false) act K ->
  safe (placedAt v s b) (rlc ← getR;
    _ ← match rlc.(rl_CancelTimer) with Some t => stopTimer t | None => mret tt end;
    _ ← modR (fun rlc => {| rlc with rl_StepTimer := None; rl_CancelTimer := None |}); act) K.
Proof.
  intros Ha w [Hs Ht Hb Hr Hv Hg]. apply swp_bind, swp_getR, swp_bind.
  destruct (rl_CancelTimer (sw_rlc w)) as [t|] eqn:Ec; apply swp_bind, swp_modR, Ha;
    (split; simpl; try done; intros t').
  case_bool_decide as Ht'; [done|]. intros E. specialize (Hr _ E). congruence.
Qed.

Lemma safe_handleHeightCommitted : safe settled (handleHeightCommitted m) goesOn.
Proof.
  apply safe_settled. intros s Hs. unfold handleHeightCommitted.
  eapply safe_bind; [apply calm_modR; intros; split_and!; reflexivity|]. intros ?. simpl.
  intros w Hw. pose proof (pa_step _ _ _ _ Hw) as Es. apply swp_bind, swp_getR. rewrite Es.
  refine (safe_clearTimer true s (timed s) (match s with
    | StepCommitWait => commitWaitOver m | StepAwaitingFinalization => mret true
    | _ => panicS "BUG: expected to be on step commit wait" end) goesOn _ w Hw).
  destruct s; try fault; [apply safe_commitWaitOver|]. apply safe_ret. intros w' Hw' _.
  by apply (settled_at StepAwaitingFinalization).
Qed.

Lemma calm_arrival s b a : calm (placedAt true s b) (handleBlockDataArrival (P := P) (ST := ST) a).
Proof. unfold handleBlockDataArrival. calm_tac. Qed.

Lemma calm_recordVote v s b sign save act hash : calm (placedAt v s b) (recordVote (P := P) (ST := ST) m sign save act hash).
Proof. unfold recordVote. calm_tac. Qed.

Lemma calm_recordProposedHeader s b p : m.(m_signer) <> None ->
  calm (placedAt true s b) (recordProposedHeader (P := P) (ST := ST) m p).
Proof.
  intros Hm. unfold recordProposedHeader. calm_tac. done.
Qed.

Lemma safe_recordPrevote hash : safe settled (recordPrevote m hash) goesOn.
Proof.
  apply safe_settled. intros s Hs. unfold recordPrevote. eapply safe_bind; [apply calm_recordVote|]. intros [|];
    [|by apply safe_ret]. apply safe_at. intros rlc ->. case_bool_decide as Es.
  - subst s. eapply (safe_bind _ _ _ (fun _ => placedAt true StepAwaitingPrevotes false)).
    { eapply safe_bind; [apply safe_setStep|]. intros ?. apply safe_cancelStepTimer. }
    intros ?. apply safe_ret. intros w Hw _. by apply (settled_at StepAwaitingPrevotes).
  - eapply safe_bind; [apply calm_ret|]. intros ?. apply goesOn_calm; [done|apply calm_ret].
Qed.

(** Receiving a selection, and closing its channel. *)
Lemma safe_onSelection he record close : (forall hash, safe settled (record hash) goesOn) ->
  (forall rlc : RoundLifecycle P, rl_S (close rlc) = rl_S rlc /\ rl_StepTimer (close rlc) = rl_StepTimer rlc /\
     rl_CancelTimer (close rlc) = rl_CancelTimer rlc /\ rl_VRV (close rlc) = rl_VRV rlc) ->
  safe settled (onSelection he record close) goesOn.
Proof.
  intros Hr Hc. unfold onSelection. destruct (hs_Err he); [by apply safe_ret|].
  eapply safe_bind; [apply Hr|]. intros [|]; [|by apply safe_ret]. eapply (safe_bind _ _ _ (fun _ => settled)).
  - apply (safe_pre _ settled); [by intros w Hw; apply Hw|]. apply safe_settled. intros s Hs.
    apply settled_calm; [done|]. by apply calm_modR.
  - intros ?. apply safe_ret. by intros w Hw _.
Qed.

(** Every event the live loop can receive. *)
Lemma safe_live i w : m.(m_signer) <> None -> settled w -> smReady w.(sw_rlc) i ->
  swp (handleLiveEvent m i) w goesOn external.
Proof.
  intros Hm Hw Hi. destruct i as [v|c p|c he|c he|c resp|t|c|a]; simpl in *.
  - clear Hi. revert w Hw. eapply safe_bind; [apply safe_handleViewUpdate|]. intros ?. apply safe_ret. by intros w Hw _.
  - clear Hi. revert w Hw. apply safe_settled. intros s Hs. apply goesOn_calm; [done|].
    apply calm_bind; [by apply calm_recordProposedHeader|]. intros [|]; calm_tac.
  - clear Hi. revert w Hw. apply safe_onSelection; [apply safe_recordPrevote|]. intros. by split_and!.
  - clear Hi. revert w Hw. apply safe_onSelection; [|by intros; split_and!]. intros hash.
    apply safe_settled. intros s Hs. apply goesOn_calm; [done|]. apply calm_recordVote.
  - clear Hi. revert w Hw. apply safe_handleFinalization.
  - destruct Hw as (s & Hs & Hw). destruct (timed s) eqn:Et.
    + apply (safe_handleTimerElapsed s); [done|]. by rewrite Et.
    + pose proof (pa_timer _ _ _ _ Hw) as Hn. pose proof (pa_same _ _ _ _ Hw). simpl in Hn. congruence.
  - clear Hi. revert w Hw. apply safe_handleHeightCommitted.
  - clear Hi. revert w Hw. apply safe_settled. intros s Hs. apply goesOn_calm; [done|]. apply calm_arrival.
Qed.

(** ** Starting *)
Lemma calm_modView s b (f : RoundLifecycle P -> RoundLifecycle P) :
  (forall rlc, rl_S (f rlc) = rl_S rlc /\ rl_StepTimer (f rlc) = rl_StepTimer rlc /\
     rl_CancelTimer (f rlc) = rl_CancelTimer rlc) -> calm (ST := ST) (placedAt false s b) (modR f).
Proof.
  intros Hf w [Hs Ht Hb Hr Hv Ha]. apply swp_modR. destruct (Hf w.(sw_rlc)) as (Es & Et & Ec).
  split; simpl; rewrite ?Es, ?Et, ?Ec; done.
Qed.

Lemma calm_newChan v s b : calm (P := P) (ST := ST) (placedAt v s b) newChan.
Proof. intros w Hw. by eapply placedAt_ext, Hw. Qed.

Lemma calm_loadValSets v s b h r : calm (P := P) (ST := ST) (placedAt v s b) (loadValSets m h r).
Proof. unfold loadValSets, loadFin. calm_tac. Qed.

Lemma calm_loadPrevious s b h r vrv : calm (P := P) (ST := ST) (placedAt false s b) (loadPrevious m h r vrv).
Proof.
  unfold loadPrevious, loadFin. calm_tac; [fault|]. apply calm_modView. by intros.
Qed.

(** The mirror's answer, up to the headers the state machine filters out. *)
Definition answeredBy (su : option (RoundEntranceResponse P)) : Prop :=
  match su with None => True | Some rer => IsVRV rer = true /\ unsplit rer.(rer_VRV) end.

Lemma safe_sendInitialActionSet s : safe (placedAt false s false) (sendInitialActionSet m)
  (fun su w => placedAt false s false w /\ answeredBy su).
Proof.
  unfold sendInitialActionSet. eapply safe_bind; [apply calm_newChan|]. intros hc. simpl.
  eapply safe_bind; [apply calm_loadS|]. intros [[h r]|e]; [|by apply safe_ret].
  eapply safe_bind; [apply calm_loadValSets|]. intros [|]; simpl; [|by apply safe_ret].
  eapply safe_bind; [apply calm_getR|]. intros rlc. eapply safe_bind; [apply calm_sendS|]. intros ?.
  eapply safe_bind; [apply safe_awaitEntrance|]. intros rer. simpl. apply safe_fact. intros [Ev Hg].
  eapply safe_bind; [apply safe_resetRLC|]. intros ?.
  eapply safe_bind; [apply calm_modR; intros; split_and!; reflexivity|]. intros ?. rewrite Ev.
  eapply safe_bind; [apply calm_modR; intros; split_and!; reflexivity|]. intros ?.
  eapply safe_bind; [apply calm_loadPrevious|]. intros [|]; simpl; [|by apply safe_ret].
  eapply safe_bind; [apply calm_getR|]. intros rlc'. apply safe_ret. intros w Hw. split; [done|]. split; [done|].
  change (unsplit rer.(rer_VRV)). unfold unsplit. destruct (GetStepFromVoteSummary _) as [[]|]; done.
Qed.

(** Resuming changes the proposed headers of the view only. *)
Lemma safe_resumeProposal s b vrv : safe (placedAt false s b) (resumeProposal (P := P) (ST := ST) m vrv)
  (fun x w => placedAt false s b w /\ match x with Some v => vSummary v = vSummary vrv | None => True end).
Proof.
  unfold resumeProposal. destruct (m_signer m) as [sg|]; [|by apply safe_ret]. destruct (existsb _ _).
  { eapply safe_bind; [apply calm_modR; intros; split_and!; reflexivity|]. intros ?. by apply safe_ret. }
  eapply safe_bind; [apply calm_getR|]. intros rlc. eapply safe_bind; [apply calm_loadS|]. intros [ra|e].
  - destruct (ActionStore.ra_ProposedHeader ra) as [ph|]; [|by apply safe_ret]. destruct (_ =? 0); [by apply safe_ret|].
    eapply safe_bind; [apply calm_modR; intros; split_and!; reflexivity|]. intros ?.
    eapply safe_bind; [apply calm_sendAction|]. intros ?. by apply safe_ret.
  - destruct (isUnknownRound _ _ _); by apply safe_ret.
Qed.

Lemma safe_initializeRLC s : safe (placedAt false s false) (initializeRLC m) goesOn.
Proof.
  unfold initializeRLC. eapply safe_bind; [apply safe_sendInitialActionSet|]. intros su. simpl. apply safe_fact.
  intros Hsu. destruct su as [rer|]; [|by apply safe_ret]. destruct Hsu as [Ev Hu]. rewrite Ev. simpl.
  eapply safe_bind; [apply safe_resumeProposal|]. intros x. simpl. apply safe_fact. intros Hx.
  destruct x as [vrv|]; [|by apply safe_ret]. eapply safe_bind; [apply calm_enterRound|].
  intros [e|]; [by apply safe_ret|]. eapply safe_post; [apply safe_beginRoundLive; [|apply safe_advanceRound]|].
  - unfold unsplit in *. by rewrite Hx.
  - by intros ok w [Hok _].
Qed.

(** ** Runs *)
Definition safeInv (s : SMSys P ST) : Prop := s.(sy_mode) = LiveLoop -> settled {| s.(sy_w) with sw_answers := [] |}.

Lemma settled_provide w l : settled {| w with sw_answers := [] |} -> Forall enterable l -> settled (provide l w).
Proof. intros (s & Hs & [H1 H2 H3 H4 H5 _]) Hl. by exists s. Qed.

Lemma settled_elapsed w i : settled w -> settled (elapsed i w).
Proof.
  intros (s & Hs & [H1 H2 H3 H4 H5 H6]). exists s. split; [done|]. destruct i; try done. split; try done.
  simpl. intros t'. case_bool_decide; [done|]. apply H4.
Qed.

Lemma settled_answers w l : settled w -> Forall enterable l -> settled {| w with sw_answers := l |}.
Proof. intros (s & Hs & [H1 H2 H3 H4 H5 _]) Hl. by exists s. Qed.

Lemma safeInv_finish (next : RoundLifecycle P -> Mode) (act : M bool) w : swp act w goesOn external ->
  safeInv (finish next (act w)).
Proof.
  unfold swp, safeInv. destruct (act w) as [[] w'|msg w'|w']; simpl; try done.
  intros Hok _. by apply settled_answers; [apply Hok|].
Qed.

Lemma started_safe w l : Forall enterable l -> swp (initializeRLC m) (provide l (crashed w)) goesOn external.
Proof. intros Hl. apply (safe_initializeRLC StepInvalid). by split. Qed.

Lemma live_safe w i l : m.(m_signer) <> None -> settled {| w with sw_answers := [] |} -> smReady w.(sw_rlc) i ->
  Forall enterable l -> swp (handleLiveEvent m i) (provide l (elapsed i w)) goesOn external.
Proof.
  intros Hm Hw Hi Hl. apply safe_live; [done| |by destruct i]. apply settled_provide; [|done].
  apply (settled_elapsed _ i) in Hw. destruct i; exact Hw.
Qed.

End handlers.

Lemma safe_run {P ST : Type} `{!SMStores ST} (m : SMConfig) (s s' : SMSys P ST) :
  (forall h r (s : ST), (ss_SetStateMachineHeightRound h r s).2 = None) -> m.(m_signer) <> None ->
  rtc (answeredStep m enterable) s s' -> safeInv s -> safeInv s'.
Proof.
  intros Hpos Hm Hr Hs. induction Hr as [s|s1 s2 s3 Hstep _ IH]; [done|]. apply IH.
  destruct Hstep as [md w l g _ Hl|w i l Hl Hi _|w c resp l Hl _ _|md w]; simpl in *.
  - apply safeInv_finish. by apply (started_safe (withGenesis g m)).
  - apply safeInv_finish. apply live_safe; [done|done|by apply Hs|done|done].
  - unfold safeInv, catchup, finish. by destruct (handleCatchupEvent m resp _) as [[]| |].
  - intros Hmd. destruct (Hs Hmd) as (st & Hst & [H1 H2 H3 H4 H5 H6]). by exists st.
Qed.

(** C16: which panics the state machine can reach.  Take a signer that is there, and a store that takes every position.  In
    any run, with any number of restarts, in which every round entrance is answered with a live view (so that nothing is
    replayed) that the state machine can enter (its votes are not split, and if they committed a block, its header is
    there), a start and a handler of the live loop panic, if they do, with one of the messages of [externalFaults].
    These are: a view without voting power; the strategy taking no request within 100ms, for which the code panics with
    a TODO of its own, or failing to enter a round; a view update that the mirror must not send (empty, or jumping to
    another height or back); the signal that a height is committed outside of the commit wait; a finalization without
    validators or for another round; and a hash scheme that fails for the genesis.  So none of its other panics can
    happen: timers never overlap, no timer is cancelled that is not there, no view is missing and no step is
    unexpected. *)
Theorem sm_panics_are_external {P ST : Type} `{!SMStores ST} (m : SMConfig) (st : ST) (s : SMSys P ST) :
  m.(m_signer) <> None -> (forall h r (s : ST), (ss_SetStateMachineHeightRound h r s).2 = None) ->
  rtc (answeredStep m enterable) (smInit st) s ->
  (forall g l msg w', Forall enterable l ->
     initializeRLC (withGenesis g m) (provide l (crashed s.(sy_w))) = SPanic msg w' -> msg ∈ externalFaults) /\
  (forall i l msg w', s.(sy_mode) = LiveLoop -> smReady s.(sy_w).(sw_rlc) i -> Forall enterable l ->
     handleLiveEvent m i (provide l (elapsed i s.(sy_w))) = SPanic msg w' -> msg ∈ externalFaults).
Proof.
  intros Hm Hpos Hr. assert (Hs : safeInv s) by (by eapply safe_run).
  split.
  - intros g l msg w' Hl E. pose proof (started_safe (withGenesis g m) Hpos s.(sy_w) l Hl) as Hsafe. unfold swp in Hsafe.
    by rewrite E in Hsafe.
  - intros i l msg w' Hmd Hi Hl E. pose proof (live_safe m Hpos s.(sy_w) i l Hm (Hs Hmd) Hi Hl) as Hsafe.
    unfold swp in Hsafe. by rewrite E in Hsafe.
Qed.

(** A view update without a view is the mirror's fault. *)
Definition exEmptyUpdate : SMInput TP := InView (MkSMRV VRV_zero None).

Lemma sm_panics_are_external_witness :
  exStart.(sy_mode) = LiveLoop /\
  (exists w', handleLiveEvent exConfig exEmptyUpdate (provide [] (elapsed exEmptyUpdate exStart.(sy_w))) =
     SPanic "BUG: received view update with empty VRV and nil JumpAheadRoundView" w') /\
  "BUG: received view update with empty VRV and nil JumpAheadRoundView" ∈ externalFaults.
Proof.
  assert (Hrun : rtc (answeredStep exConfig enterable) (smInit exStores) exStart).
  { apply (rtc_l _ _ exStart); [|apply rtc_refl]. apply (smstep_start exConfig enterable Down _ _ exGenesis);
      [left; reflexivity|]. constructor; [|constructor; [exact I|constructor]].
    split; [reflexivity|exact I]. }
  assert (E : exists w', handleLiveEvent exConfig exEmptyUpdate (provide [] (elapsed exEmptyUpdate exStart.(sy_w))) =
     SPanic "BUG: received view update with empty VRV and nil JumpAheadRoundView" w').
  { eexists. vm_compute. reflexivity. }
  split; [vm_compute; reflexivity|]. split; [exact E|]. destruct E as [w' E].
  assert (Hm : m_signer exConfig <> None) by discriminate.
  assert (Hp : forall h r (s : MemSMStores), (ss_SetStateMachineHeightRound h r s).2 = None) by reflexivity.
  destruct (sm_panics_are_external exConfig exStores exStart Hm Hp Hrun) as [_ Hlive].
  apply (Hlive exEmptyUpdate [] _ w'); [vm_compute; reflexivity|exact I|constructor|exact E].
Defined.
