(* ===== verification/StateMachineReplay.v ===== *)
(** A node that starts behind the mirror: the catchup loop finalizes replayed headers, and never goes back to
    the live loop. *)
From S2P Require Import Prelude.
From S2P Require Import Types.
From S2P Require Import VoteSummary.
From S2P Require Import RoundView.
From S2P Require Import Stores.
From S2P Require Import Managers.
From S2P Require Import KernelBase.
From S2P Require Import RoundLifecycle.
From S2P Require Import StateMachineBase.
From S2P Require Import StateMachine.
From S2P Require Import StateMachineRun.
From S2P Require Import StateMachineFrames.
From S2P Require Import KernelExample.
From S2P Require Import StateMachineExample.
Local Open Scope Z_scope.

Section replay.
Context {P ST : Type} `{!SMStores ST}.
Context (m : SMConfig).
Implicit Types (w : SMWorld P ST).

(** The finalizations a catching up state machine receives, with the answers to what each makes it ask. *)
Fixpoint catchups (evs : list (FinalizeBlockResponse * list (Answer P))) (s : SMSys P ST) : SMSys P ST :=
  match evs with
  | [] => s
  | (resp, l) :: evs =>
      match s.(sy_mode) with
      | CatchupLoop => catchups evs (catchup m resp l s.(sy_w))
      | _ => s
      end
  end.

Definition actionsOf (log : list (SMOut P)) : list (SMOut P) := List.filter isAction log.

Definition actionsAre (L : list (SMOut P)) w : Prop := actionsOf w.(sw_log) = L.

Lemma actionsAre_log L w o : isAction o = false -> actionsAre L w -> actionsAre L {| w with sw_log := w.(sw_log) ++ [o] |}.
Proof. unfold actionsAre, actionsOf. simpl. rewrite List.filter_app. simpl. intros -> ->. apply app_nil_r. Qed.

Lemma actionsAre_ext L w w' : w'.(sw_log) = w.(sw_log) -> actionsAre L w -> actionsAre L w'.
Proof. unfold actionsAre. by intros ->. Qed.

Lemma actionsAre_place L w w' : w'.(sw_st) = w.(sw_st) -> w'.(sw_log) = w.(sw_log) ->
  samePlace w.(sw_rlc) w'.(sw_rlc) -> (w.(sw_next) <= w'.(sw_next))%nat -> actionsAre L w -> actionsAre L w'.
Proof. intros _ El _ _. by apply actionsAre_ext. Qed.

Lemma actionsAre_core L w w' : w'.(sw_st) = w.(sw_st) -> w'.(sw_log) = w.(sw_log) ->
  sameCore w.(sw_rlc) w'.(sw_rlc) -> (w.(sw_next) <= w'.(sw_next))%nat -> actionsAre L w -> actionsAre L w'.
Proof. intros _ El _ _. by apply actionsAre_ext. Qed.

Lemma actionsAre_catchup L resp : keeps (actionsAre L) (handleCatchupEvent m resp).
Proof.
  apply pl_handleCatchupEvent;
    first [ apply actionsAre_place | requests (actionsAre_core L) (actionsAre_log L)
          | by intros w o Ho; apply actionsAre_log; destruct o | intros; by eapply actionsAre_ext ].
Qed.

Lemma catchups_quiet evs s : s.(sy_mode) <> LiveLoop ->
  (catchups evs s).(sy_mode) <> LiveLoop /\
  actionsOf (catchups evs s).(sy_w).(sw_log) = actionsOf s.(sy_w).(sw_log).
Proof.
  revert s. induction evs as [|[resp l] evs IH]; intros s Hs; simpl; [done|].
  destruct (sy_mode s) eqn:Em; [by rewrite Em|done|].
  assert (Hc : (catchup m resp l s.(sy_w)).(sy_mode) <> LiveLoop).
  { unfold catchup, finish. by destruct (handleCatchupEvent m resp _) as [[]| |]. }
  destruct (IH _ Hc) as [Hm Ha]. split; [done|]. rewrite Ha.
  assert (Hk : actionsAre (actionsOf s.(sy_w).(sw_log)) (catchup m resp l s.(sy_w)).(sy_w)); [|exact Hk].
  unfold catchup. apply (keeps_finish (actionsAre _)). by apply actionsAre_catchup.
Qed.
End replay.

(** C17: a node that starts by replaying never acts again.  When the mirror answers the first round entrance
    of a process with a committed header, then whatever is finalized and whatever the mirror answers
    afterwards, live views included, the state machine is never back in the loop that reads views, votes and
    timers, and no proposal or vote leaves it until the process restarts. *)
Theorem replaying_node_never_acts {P ST : Type} `{!SMStores ST} (m : SMConfig) (w : SMWorld P ST)
  (l : list (Answer P)) (evs : list (FinalizeBlockResponse * list (Answer P))) :
  (start m l w).(sy_mode) = CatchupLoop ->
  (catchups m evs (start m l w)).(sy_mode) <> LiveLoop /\
  actionsOf (catchups m evs (start m l w)).(sy_w).(sw_log) = actionsOf (start m l w).(sy_w).(sw_log).
Proof. intros Hs. apply catchups_quiet. by rewrite Hs. Qed.

(** The mirror replays height 1 and then answers with a live view of height 2: the strategy enters the round,
    with a channel to propose on, and the step is awaiting the proposal. *)
Definition exBehind : exSys := start exConfig (exReplay 1 0 "x") (smInit exStores).(sy_w).
Definition exCaughtUp : list (FinalizeBlockResponse * list (Answer TP)) :=
  [(MkFinResp 1 0 "x" toyValSet.(Validators) "app1", exEnter (exView 2 0 1 [] exNoVotes))].
Definition exStuck : exSys := catchups exConfig exCaughtUp exBehind.

Lemma replaying_node_never_acts_witness :
  (exStuck.(sy_w).(sw_rlc).(rl_H), exStuck.(sy_w).(sw_rlc).(rl_S)) = (2, StepAwaitingProposal) /\
  IsReplaying exStuck.(sy_w).(sw_rlc) = false /\ exStuck.(sy_mode) <> LiveLoop /\
  actionsOf exStuck.(sy_w).(sw_log) = [].
Proof.
  split; [vm_compute; reflexivity|]. split; [vm_compute; reflexivity|].
  assert (Hs : (start exConfig (exReplay 1 0 "x") (smInit exStores).(sy_w)).(sy_mode) = CatchupLoop)
    by (vm_compute; reflexivity).
  destruct (replaying_node_never_acts exConfig (smInit exStores).(sy_w) (exReplay 1 0 "x") exCaughtUp Hs) as [Hm Ha].
  split; [exact Hm|]. transitivity (actionsOf exBehind.(sy_w).(sw_log)); [exact Ha|vm_compute; reflexivity].
Defined.
