(* ===== verification/StateMachineActions.v ===== *)
(** What a handler of the state machine sends to the mirror, in order: round entrances, and actions that are signed for
    the round entered last.  The mirror gets a vote without its height and round and files it under the last entrance,
    so this is what makes it file votes where they belong. *)
From S2P Require Import Prelude Types Powers VoteSummary RoundView Stores Managers KernelBase.
From S2P Require Import RoundLifecycle StateMachineBase StateMachine StateMachineRun StateMachineFrames.
From S2P Require Import KernelExample StateMachineExample.
Local Open Scope Z_scope.

(** The height and round entered last. *)
Definition Position : Type := option (Z * Z).

Section traces.
Context {P : Type} (signer : option Signer).
Implicit Types (l : list (SMOut P)) (p : Position).

(** A proposal, or what the signer signs for a vote of the height and round. *)
Inductive signedFor (h r : Z) : StateMachineRoundAction -> Prop :=
| sf_proposal ph : signedFor h r (actPH ph)
| sf_prevote sg hash content sig : signer = Some sg -> sg_Prevote sg (MkVoteTarget h r hash) = Ok (content, sig) ->
    signedFor h r (actPrevote (MkScopedSignature hash content sig))
| sf_precommit sg hash content sig : signer = Some sg -> sg_Precommit sg (MkVoteTarget h r hash) = Ok (content, sig) ->
    signedFor h r (actPrecommit (MkScopedSignature hash content sig)).

Definition entered p (o : SMOut P) : Position :=
  match o with OutEntrance re => Some (re.(re_H), re.(re_R)) | _ => p end.
Definition position p l : Position := foldl entered p l.

(** An entrance carries the signer's key; an action follows an entrance and is signed for the round entered. *)
Definition fits p (o : SMOut P) : Prop :=
  match o with
  | OutEntrance re => re.(re_PubKey) = sg_PubKey <$> signer
  | OutAction h r act => p = Some (h, r) /\ signedFor h r act
  | _ => True
  end.
Fixpoint placed p l : Prop :=
  match l with [] => True | o :: l => fits p o /\ placed (entered p o) l end.

Lemma placed_snoc p l o : placed p l -> fits (position p l) o -> placed p (l ++ [o]).
Proof. revert p. induction l as [|x l IH]; intros p; simpl; [done|]. intros [? ?] ?. split; [done|]. by apply IH. Qed.

Lemma position_snoc p l o : position p (l ++ [o]) = entered (position p l) o.
Proof. apply foldl_snoc. Qed.

(** What holds without an entrance holds after any. *)
Lemma placed_mono p l : placed None l -> placed p l.
Proof.
  revert p. induction l as [|o l IH]; intros p; [done|]. simpl. intros [Ho Hl].
  destruct o; simpl in *; try (split; [done|by apply IH]); by destruct Ho.
Qed.

End traces.

Section actions.
Context {P ST : Type} `{!SMStores ST}.
Context (m : SMConfig).
Implicit Types (w : SMWorld P ST) (l : list (SMOut P)) (p : Position).
Local Abbreviation placed := (placed m.(m_signer)).
Local Abbreviation fits := (fits m.(m_signer)).
Local Abbreviation signedFor := (signedFor m.(m_signer)).

(** * The handlers *)

(** The trace grew by what fits, and the state machine is in the round it entered last. *)
Definition sent (log0 : list (SMOut P)) p w : Prop := exists l, w.(sw_log) = log0 ++ l /\ placed p l.
Definition atPosition (log0 : list (SMOut P)) p w : Prop :=
  exists l, w.(sw_log) = log0 ++ l /\ placed p l /\ position p l = Some (w.(sw_rlc).(rl_H), w.(sw_rlc).(rl_R)).

Section sends.
Context (log0 : list (SMOut P)) (p : Position).
Local Abbreviation J := (atPosition log0 p).

Lemma at_sent w : J w -> sent log0 p w.
Proof. intros (l & ? & ? & _). by exists l. Qed.

Lemma at_same w w' : w'.(sw_log) = w.(sw_log) -> w'.(sw_rlc).(rl_H) = w.(sw_rlc).(rl_H) ->
  w'.(sw_rlc).(rl_R) = w.(sw_rlc).(rl_R) -> J w -> J w'.
Proof. intros El EH ER (l & Hl & Hp & Hpos). exists l. by rewrite El, EH, ER. Qed.

Lemma at_core w w' : w'.(sw_st) = w.(sw_st) -> w'.(sw_log) = w.(sw_log) ->
  sameCore w.(sw_rlc) w'.(sw_rlc) -> (w.(sw_next) <= w'.(sw_next))%nat -> J w -> J w'.
Proof. intros _ El [] _. by apply at_same. Qed.

Lemma at_log w o : (forall q, entered q o = q) -> fits (Some (w.(sw_rlc).(rl_H), w.(sw_rlc).(rl_R))) o -> J w ->
  J {| w with sw_log := w.(sw_log) ++ [o] |}.
Proof.
  intros Hsame Hfit (l & Hl & Hp & Hpos). exists (l ++ [o]). simpl. rewrite Hl, (assoc_L (++)), position_snoc, Hsame.
  split; [done|]. split; [|done]. apply placed_snoc; [done|]. by rewrite Hpos.
Qed.

Lemma at_still w o : still o = true -> J w -> J {| w with sw_log := w.(sw_log) ++ [o] |}.
Proof. intros Ho. apply at_log; by destruct o. Qed.
Lemma at_request w o : isRequest o = true -> J w -> J {| w with sw_log := w.(sw_log) ++ [o] |}.
Proof. intros Ho. apply at_log; by destruct o. Qed.

Lemma at_modR f : (forall rlc, (f rlc).(rl_H) = rlc.(rl_H) /\ (f rlc).(rl_R) = rlc.(rl_R)) -> keeps J (modR (ST := ST) f).
Proof. intros Hf. apply keeps_modR. intros w. destruct (Hf w.(sw_rlc)). by apply at_same. Qed.

Lemma at_storeS f : keeps J (storeS (P := P) f).
Proof. apply keeps_storeS. intros w. by apply at_same. Qed.

Ltac at_tac := first [exact at_core | exact at_still | requests at_core at_request | assumption].

(** ** Votes and proposals *)
Lemma at_sendAction act w : J w -> signedFor w.(sw_rlc).(rl_H) w.(sw_rlc).(rl_R) act ->
  swp (sendAction (ST := ST) act) w (fun _ => J) (fun _ => J).
Proof.
  intros Hw Ha. unfold sendAction. apply swp_bind, swp_getR. destruct (rl_OutgoingActionsCh _); [|done].
  apply swp_sendS. by apply at_log.
Qed.

Lemma at_recordVote sign save act hash : 
  (forall h r sg content sig, m.(m_signer) = Some sg -> sign sg (MkVoteTarget h r hash) = Ok (content, sig) ->
     signedFor h r (act (MkScopedSignature hash content sig))) ->
  keeps J (recordVote (ST := ST) m sign save act hash).
Proof.
  intros Ha w Hw. unfold recordVote. apply swp_bind, swp_getR. destruct (isParticipating _ _); [|done].
  destruct (m_signer m) as [sg|] eqn:Em; [|done]. destruct (sign sg _) as [[content sig]|] eqn:Es; [|done].
  apply swp_bind, swp_storeS. intros st e _. assert (Hw' : J {| w with sw_st := st |}) by (by eapply at_same; [..|exact Hw]).
  destruct e; [done|]. apply swp_bind. eapply swp_mono; [| |apply (at_sendAction _ _ Hw'); rewrite Em; by eapply Ha]; done.
Qed.

Lemma at_prevote hash : keeps J (recordVote (ST := ST) m sg_Prevote ss_SavePrevoteAction actPrevote hash).
Proof. apply at_recordVote. intros. by eapply sf_prevote. Qed.
Lemma at_precommit hash : keeps J (recordVote (ST := ST) m sg_Precommit ss_SavePrecommitAction actPrecommit hash).
Proof. apply at_recordVote. intros. by eapply sf_precommit. Qed.

Lemma at_sendPH ph : keeps J (sendAction (P := P) (ST := ST) (actPH ph)).
Proof. intros w Hw. apply at_sendAction; [done|constructor]. Qed.
#[local] Hint Resolve at_storeS at_sendPH : keeps.
#[local] Hint Extern 1 (keeps J (modR _)) => (apply at_modR; done) : keeps.

Lemma at_proposal ph : keeps J (recordProposedHeader (ST := ST) m ph).
Proof. unfold recordProposedHeader, derefVRV. keeps_tac. Qed.
Lemma at_resume vrv : keeps J (resumeProposal (ST := ST) m vrv).
Proof. unfold resumeProposal. keeps_tac. Qed.

(** ** Entering rounds *)
Definition reaches {A} (act : SM P ST A) w : Prop := swp act w (fun _ => J) (fun _ => J).

(** Once the entrance is sent the position is that of the new round. *)
Lemma at_entrance w re : sent log0 p w -> re.(re_PubKey) = sg_PubKey <$> m.(m_signer) ->
  re.(re_H) = w.(sw_rlc).(rl_H) -> re.(re_R) = w.(sw_rlc).(rl_R) ->
  J {| w with sw_log := w.(sw_log) ++ [OutEntrance re] |}.
Proof.
  intros (l & Hl & Hp) Hk HH HR. exists (l ++ [OutEntrance re]). simpl. rewrite Hl, (assoc_L (++)), position_snoc.
  split; [done|]. split; [by apply placed_snoc|]. simpl. by rewrite HH, HR.
Qed.

Lemma at_awaitEntrance : keeps J (awaitEntrance (ST := ST)).
Proof. apply fo_awaitEntrance; at_tac. Qed.
Lemma at_enterRound rv : keeps J (enterRound (P := P) (ST := ST) rv).
Proof. at_tac. Qed.
Lemma at_finalize hd rd : keeps J (sendFinalize (P := P) (ST := ST) hd rd).
Proof. at_tac. Qed.
Lemma at_beginRoundLive adv vrv : keeps J adv -> keeps J (beginRoundLive (P := P) (ST := ST) adv vrv).
Proof. apply fo_beginRoundLive; at_tac. Qed.
#[local] Hint Resolve at_awaitEntrance at_enterRound at_finalize at_beginRoundLive : keeps.

Lemma at_advance adv w : keeps J adv -> sent log0 p w -> reaches (advance m adv w.(sw_rlc).(rl_H) w.(sw_rlc).(rl_R)) w.
Proof.
  intros Hadv Hw. unfold reaches, advance. apply swp_bind, swp_getR, swp_bind, swp_sendS.
  match goal with |- swp _ ?w1 _ _ => assert (Hw1 : J w1) by (by apply at_entrance) end.
  revert Hw1. generalize ({| w with sw_log := sw_log w ++ [OutEntrance (MkEntrance (rl_H (sw_rlc w)) (rl_R (sw_rlc w))
    (sg_PubKey <$> m_signer m) (isParticipating m (sw_rlc w)) (rl_HeightCommitted (sw_rlc w)))] |}).
  match goal with |- forall w1, J w1 -> swp ?act w1 _ _ => change (keeps J act) end.
  keeps_tac.
Qed.

Context (Hpos : forall h r st, (ss_SetStateMachineHeightRound h r st).2 = None).

Lemma at_moveTo adv h r w : keeps J adv -> sent log0 p w -> reaches (moveTo m adv h r) w.
Proof.
  intros Hadv Hw. unfold reaches, moveTo, resetRLC. apply swp_bind, swp_bind, swp_getR, swp_bind.
  assert (Hgo : forall t, swp (makeChans h r) {| w with sw_timer := t |}
    (fun _ w' => swp (err ← storeS (ss_SetStateMachineHeightRound h r);
       match err with Some _ => mret false | None => advance m adv h r end) w' (fun _ => J) (fun _ => J)) (fun _ => J)).
  { intros t. unfold swp at 1, makeChans. apply swp_bind, swp_storeS. intros st e Es.
    pose proof (Hpos h r w.(sw_st)) as He. simpl in Es. rewrite Es in He. simpl in He. subst e.
    match goal with |- swp (advance _ _ _ _) ?w1 _ _ => apply (at_advance adv w1 Hadv) end. exact Hw. }
  destruct (rl_CancelTimer (sw_rlc w)) as [t|]; [exact (Hgo (if bool_decide (sw_timer w = Some t) then None else sw_timer w))|].
  destruct w. exact (Hgo sw_timer).
Qed.

Lemma at_advanceRoundN n : keeps J (advanceRoundN (ST := ST) m n).
Proof.
  induction n as [|n IH]; simpl; [apply keeps_blockedS|]. intros w Hw. unfold advanceRoundBody. apply swp_bind, swp_getR.
  apply at_moveTo; [done|]. by apply at_sent.
Qed.
Lemma at_advanceRound : keeps J (advanceRound (ST := ST) m).
Proof. intros w. apply at_advanceRoundN. Qed.

Lemma at_advanceHeight : keeps J (advanceHeight (ST := ST) m).
Proof.
  unfold advanceHeight. apply keeps_bind; [by apply at_modR|]. intros _. apply keeps_bind; [apply keeps_getR|].
  intros rlc w Hw. apply at_moveTo; [apply at_advanceRound|by apply at_sent].
Qed.
#[local] Hint Resolve at_advanceRound at_advanceHeight : keeps.

Lemma at_commitWaitOver : keeps J (commitWaitOver (ST := ST) m).
Proof. unfold commitWaitOver, setStep. keeps_tac. Qed.
Lemma at_handleFinalization resp : keeps J (handleFinalization (ST := ST) m resp).
Proof. unfold handleFinalization. keeps_tac. Qed.
#[local] Hint Resolve at_handleFinalization : keeps.
Lemma at_handleCatchupEvent resp : keeps J (handleCatchupEvent (ST := ST) m resp).
Proof. unfold handleCatchupEvent, setStep. keeps_tac. Qed.

Lemma at_handleLiveEvent i : keeps J (handleLiveEvent (ST := ST) m i).
Proof.
  destruct i; [..|simpl; apply at_handleFinalization| | |];
    (apply fo_handleLiveEvent; first [at_tac | apply at_advanceRound | apply at_commitWaitOver | apply at_proposal
       | apply at_prevote | apply at_precommit | exact I]).
Qed.

(** ** Starting *)
Lemma at_loadPrevious h r vrv : keeps J (loadPrevious (P := P) (ST := ST) m h r vrv).
Proof. unfold loadPrevious, loadFin. keeps_tac. Qed.
#[local] Hint Resolve at_loadPrevious at_resume : keeps.

(** The trace grew by what fits, and the last entrance was for this round. *)
Definition headed h r w : Prop :=
  exists l, w.(sw_log) = log0 ++ l /\ placed p l /\ position p l = Some (h, r).

Lemma headed_sent h r w : headed h r w -> sent log0 p w.
Proof. intros (l & ? & ? & _). by exists l. Qed.

(** Both depend on the trace alone. *)
Lemma sent_loadValSets h r : keeps (sent log0 p) (loadValSets (P := P) (ST := ST) m h r).
Proof.
  assert (Hmod : forall f, keeps (sent log0 p) (modR (ST := ST) f)) by (intros; by apply keeps_modR).
  unfold loadValSets, loadFin. keeps_tac.
Qed.

Lemma headed_reset h r : keeps (headed h r) (resetRLC (P := P) (ST := ST) h r).
Proof.
  assert (Hstop : forall t, keeps (headed h r) (stopTimer (P := P) (ST := ST) t)) by (by intros t w).
  assert (Hmake : keeps (headed h r) (makeChans (P := P) (ST := ST) h r)) by (by intros w).
  unfold resetRLC. keeps_tac.
Qed.

Lemma reset_position h r w : swp (resetRLC (P := P) (ST := ST) h r) w
  (fun _ w' => w'.(sw_rlc).(rl_H) = h /\ w'.(sw_rlc).(rl_R) = r) (fun _ _ => True).
Proof. unfold resetRLC. apply swp_bind, swp_getR, swp_bind. by destruct (rl_CancelTimer _). Qed.

Lemma at_reset h r w : headed h r w -> swp (resetRLC (P := P) (ST := ST) h r) w (fun _ => J) (fun _ => headed h r).
Proof.
  intros Hw. eapply swp_mono; [| |exact (swp_conj _ _ _ _ _ _ (headed_reset h r w Hw) (reset_position h r w))]; simpl.
  - intros _ w' [(l & Hl & Hp & Hpo) [HH HR]]. exists l. by rewrite HH, HR.
  - by intros e w' [? _].
Qed.

Lemma headed_await h r w : headed h r w -> swp (awaitEntrance (P := P) (ST := ST)) w (fun _ => headed h r) (fun _ => headed h r).
Proof.
  revert w. change (keeps (headed h r) (awaitEntrance (P := P) (ST := ST))). unfold awaitEntrance.
  apply keeps_bind; [|intros rer; apply keeps_bind; [|intros; apply keeps_ret]].
  - intros w Hw. apply swp_answerS; [exact Hw|]. by intros.
  - apply keeps_sendS. intros w (l & Hl & Hp & Hpo). exists (l ++ [GotEntrance rer]). simpl.
    rewrite Hl, (assoc_L (++)), position_snoc. split; [done|]. split; [by apply placed_snoc|done].
Qed.

Lemma keeps_sent {A} (act : SM P ST A) w : keeps J act -> J w -> swp act w (fun _ => J) (fun _ => sent log0 p).
Proof. intros Hk Hw. eapply swp_mono; [| |exact (Hk w Hw)]; [done|]. intros e w'. apply at_sent. Qed.

Lemma at_sendInitialActionSet w : sent log0 p w ->
  swp (sendInitialActionSet (ST := ST) m) w (fun o w' => sent log0 p w' /\ (is_Some o -> J w')) (fun _ => sent log0 p).
Proof.
  intros Hw. unfold sendInitialActionSet. apply swp_bind. unfold swp at 1, newChan. apply swp_bind, swp_loadS.
  destruct (startPosition m _) as [[h r]|e]; [|split; [exact Hw|by intros []]].
  apply swp_bind. match goal with |- swp _ ?w1 _ _ => assert (Hw1 : sent log0 p w1) by exact Hw end.
  eapply swp_mono; [| |exact (sent_loadValSets h r _ Hw1)]; [|done]. clear Hw1. intros ok w1 Hw1.
  destruct ok; simpl; [|split; [exact Hw1|by intros []]]. apply swp_bind, swp_getR, swp_bind, swp_sendS.
  match goal with |- swp _ ?w2 _ _ => assert (Hw2 : headed h r w2) end.
  { destruct Hw1 as (l & Hl & Hp). eexists (l ++ [_]). simpl. rewrite Hl, <- (assoc_L (++)). split; [reflexivity|].
    rewrite position_snoc. split; [by apply placed_snoc|done]. }
  apply swp_bind. eapply swp_mono; [| |exact (headed_await h r _ Hw2)]; [|intros ?; apply headed_sent].
  clear Hw2. intros rer w2 Hw2. apply swp_bind.
  eapply swp_mono; [| |exact (at_reset h r w2 Hw2)]; [|intros ?; apply headed_sent]. intros ? w3 Hw3.
  match goal with |- swp ?act w3 _ _ => assert (Hk : keeps J act) by keeps_tac end.
  eapply swp_mono; [| |exact (keeps_sent _ w3 Hk Hw3)]; [|done]. intros ? w4 Hw4. split; [by eapply at_sent|by intros].
Qed.

Lemma at_initializeRLC w : sent log0 p w ->
  swp (initializeRLC (ST := ST) m) w (fun ok w' => sent log0 p w' /\ (ok = true -> J w')) (fun _ => sent log0 p).
Proof.
  intros Hw. unfold initializeRLC. apply swp_bind. eapply swp_mono; [| |exact (at_sendInitialActionSet w Hw)]; [|done].
  intros [rer|] w1 [Hs Hw1]; [|by split]. specialize (Hw1 (mk_is_Some _ _ eq_refl)).
  match goal with |- swp ?act w1 _ _ => assert (Hk : keeps J act) by keeps_tac end.
  eapply swp_mono; [| |exact (keeps_sent _ w1 Hk Hw1)]; [|done]. intros ? w2 Hw2. split; [by eapply at_sent|by intros].
Qed.
End sends.

(** * Steps

    What a step of the state machine appended to the trace, and where it is if it is still running. *)
Context (Hpos : forall h r st, (ss_SetStateMachineHeightRound h r st).2 = None).

Record appended (log0 : list (SMOut P)) p (s : SMSys P ST) (l : list (SMOut P)) : Prop := {
  ap_log : s.(sy_w).(sw_log) = log0 ++ l;
  ap_placed : placed p l;
  ap_position : s.(sy_mode) <> Down -> position p l = Some (s.(sy_w).(sw_rlc).(rl_H), s.(sy_w).(sw_rlc).(rl_R))
}.

Lemma finish_appended log0 p next (act : SM P ST bool) w :
  swp act w (fun ok w' => sent log0 p w' /\ (ok = true -> atPosition log0 p w')) (fun _ => sent log0 p) ->
  exists l, appended log0 p (finish next (act w)) l.
Proof.
  unfold swp. destruct (act w) as [[] w'|msg w'|w']; simpl.
  - intros [_ Hat]. destruct (Hat eq_refl) as (l & Hl & Hp & Hpo). exists l. by split.
  - intros [(l & Hl & Hp) _]. exists l. by split.
  - intros (l & Hl & Hp). exists l. by split.
  - intros (l & Hl & Hp). exists l. by split.
Qed.

Lemma keeps_appended next (act : SM P ST bool) w :
  keeps (atPosition w.(sw_log) (Some (w.(sw_rlc).(rl_H), w.(sw_rlc).(rl_R)))) act ->
  exists l, appended w.(sw_log) (Some (w.(sw_rlc).(rl_H), w.(sw_rlc).(rl_R))) (finish next (act w)) l.
Proof.
  intros Hk. apply finish_appended. eapply swp_mono; [| |apply (Hk w)].
  - intros ok w' Hw'. split; [by eapply at_sent|done].
  - intros e w'. apply at_sent.
  - exists []. by rewrite app_nil_r.
Qed.

Lemma start_appended (ans : list (Answer P)) w : exists l', appended w.(sw_log) None (start m ans w) l'.
Proof. apply finish_appended, at_initializeRLC; [exact Hpos|]. exists []. by rewrite app_nil_r. Qed.

Lemma live_appended i (ans : list (Answer P)) w :
  exists l', appended w.(sw_log) (Some (w.(sw_rlc).(rl_H), w.(sw_rlc).(rl_R))) (live m i ans w) l'.
Proof.
  assert (E : (provide ans (elapsed i w)).(sw_log) = w.(sw_log) /\ (provide ans (elapsed i w)).(sw_rlc) = w.(sw_rlc)) by (by destruct i).
  destruct E as [El Er]. rewrite <- El, <- Er. apply keeps_appended, at_handleLiveEvent, Hpos.
Qed.

Lemma catchup_appended resp (ans : list (Answer P)) w :
  exists l', appended w.(sw_log) (Some (w.(sw_rlc).(rl_H), w.(sw_rlc).(rl_R))) (catchup m resp ans w) l'.
Proof. apply (keeps_appended _ _ (provide ans w)), at_handleCatchupEvent, Hpos. Qed.
End actions.
