(* ===== verification/DebugChecks.v ===== *)
(** The assertions that debug builds make of the kernel's answers to replays (kernel_debug.go) and of the
    finalization that the state machine moves to the previous height (roundlifecycle_debug.go). *)
From S2P Require Import Prelude Types BitSets Powers SigProof SimpleProofs VoteSummary RoundView.
From S2P Require Import Stores Managers KState KernelBase Kernel KernelHandlers KernelLoop KernelExample KernelCommit.
From S2P Require Import RoundLifecycle StateMachineBase StateMachine.
Local Open Scope Z_scope.

(** What HandleAssertionFailure is given, if the rule is enabled and the assertion fails. *)
Definition invariantReplayedHeaderResponse (enabled : bool) (err : option error) : option error :=
  if negb enabled then None
  else match err with
       | None | Some (ReplayedHeaderValidationError _) | Some (ReplayedHeaderOutOfSyncError _ _)
       | Some (ReplayedHeaderInternalError _) => None
       | Some e => Some (ErrWrap "illegal error type returned in response to replayed header" e)
       end.

Definition joinErrors (err : option error) (e : error) : option error :=
  Some (match err with None => ErrJoin1 e | Some e0 => ErrJoin e0 e end).

Definition invariantCycleFinalization {P : Type} (enabled : bool) (rlc : RoundLifecycle P) : option error :=
  if negb enabled then None
  else
    let err := if bool_decide (rlc.(rl_FinalizedValSet).(Validators) = [])
               then Some (ErrOther "rlc.FinalizedValidators is empty") else None in
    let err := if String.eqb rlc.(rl_FinalizedAppStateHash) ""
               then joinErrors err (ErrOther "rlc.FinalizedAppStateHash is empty") else err in
    let err := if String.eqb rlc.(rl_FinalizedBlockHash) ""
               then joinErrors err (ErrOther "rlc.FinalizedBlockHash is empty") else err in
    ErrWrap "invariant for CycleFinalization failed" <$> err.

(** * Replays *)
Section replays.
Context {P B ST : Type} `{BitSet B, !CMSP P B, !CMSPScheme P, !KernelStores ST}.
Context (k : Kernel).
Implicit Types (w : World P ST).

(** The assertion holds of an answer. *)
Definition legal (e : option error) : Prop := invariantReplayedHeaderResponse true e = None.

Lemma wp_replayFailed e w : wp (P := P) (ST := ST) (replayFailed e) w (fun e _ => legal e).
Proof. unfold wp, legal. destruct e; reflexivity. Qed.

Definition legalResult {A} (res : result A) : Prop := match res with Err e => legal (Some e) | Ok _ => True end.

Lemma replaySteps_legal s header r l :
  okay (foldO (replayStep k s header r) (Ok ∅) l) legalResult.
Proof.
  apply foldO_okay_inv; [|done]. intros x acc _ Hacc. unfold replayStep. destruct acc as [temp|e]; [|exact Hacc].
  assert (Hmerge : forall p, okay (m ← cmsp_MergeSparse (MkSparseSignatureProof header.(hd_ValidatorSet).(PubKeyHash) x.2) p;
    if negb m.2.(AllValidSignatures)
    then Ret (Err (ReplayedHeaderValidationError (ErrOther "invalid signature received for block hash")))
    else Ret (Ok (<[x.1 := m.1]> temp))) legalResult).
  { intros p. apply okay_bind, okay_intro. intros m _. by destruct (negb _). }
  apply okay_bind. unfold replayBase.
  destruct (gm_get _ _); [apply Hmerge|]. destruct (PrecommitSignBytes _ _); [|done]. case_bool_decide; [done|].
  destruct (scheme_New _ _ _); [apply Hmerge|done].
Qed.

Lemma wp_legal {A C} (m : K P ST A) (f : A -> K P ST C) w (Q : C -> World P ST -> Prop) :
  (forall a w', wp (f a) w' Q) -> wp (m ≫= f) w Q.
Proof. intros Hf. apply wp_bind, wp_intro. intros a w' _. apply Hf. Qed.

Lemma replayApply_legal header proof temp w : wp (replayApply header proof temp) w (fun e _ => legal e).
Proof.
  unfold replayApply. apply wp_legal. intros s w1. apply wp_legal. intros [e|] w2; [apply wp_replayFailed|].
  destruct (temp !! _); [|done]. apply wp_legal. intros maj w3. destruct (_ <? _); [done|].
  do 4 (apply wp_legal; intros ? ?). apply wp_legal. intros [e|] w4; [apply wp_replayFailed|].
  apply wp_legal. intros e w5. apply wp_replayFailed.
Qed.

Lemma handleReplayed_legal header proof w : wp (handleReplayedHeader k header proof) w (fun e _ => legal e).
Proof.
  unfold handleReplayedHeader. apply wp_legal. intros s w1. destruct (negb _); [done|]. destruct (_ <? _); [done|].
  apply wp_legal. intros [e|] w2; [apply wp_replayFailed|]. destruct (hs_Block _ _); [|done]. destruct (negb _); [done|].
  apply wp_legal. intros s' w3. apply wp_bind, wp_liftO_eq. intros temp Ht.
  pose proof (replaySteps_legal s' header (cp_Round proof) (gm_entries (cp_Proofs proof))) as Hl.
  rewrite Ht in Hl. destruct temp as [temp|e]; [apply replayApply_legal|exact Hl].
Qed.
End replays.

(** The assertion about replays never fires: whatever header and proof a replay carries, and whatever the stores
    answer, the response is nil or one of the three error types. *)
Theorem replay_assertion_holds {P B ST : Type} `{BitSet B, !CMSP P B, !CMSPScheme P, !KernelStores ST}
  (k : Kernel) (enabled : bool) (header : Header) (proof : CommitProof) (w w' : World P ST) (err : option error) :
  handleReplayedHeader k header proof w = Ret (err, w') -> invariantReplayedHeaderResponse enabled err = None.
Proof. intros Hr. destruct enabled; [|done]. exact (wp_run _ _ _ _ _ (handleReplayed_legal k header proof w) Hr). Qed.

Lemma replay_assertion_holds_witness :
  invariantReplayedHeaderResponse true (Some (ReplayedHeaderOutOfSyncError 1 7)) = None /\
  invariantReplayedHeaderResponse true (Some (ErrOther "other")) <> None.
Proof.
  split; [|vm_compute; discriminate].
  apply (replay_assertion_holds toyKernel true (toyHeader 7 "x" "" (MkCommitProof 0 nilHash gm_make))
    (MkCommitProof 0 nilHash gm_make) startWorld startWorld). vm_compute. reflexivity.
Defined.

(** * Finalizations *)

(** The assertion about finalizations blames the application only: with the finalization that an answer of the
    application sets, it fails exactly when the answer has an empty application state hash or block hash. *)
Lemma finalization_assertion {P : Type} (hs : HashScheme) (resp : FinalizeBlockResponse) (vals : ValidatorSet)
  (rlc : RoundLifecycle P) : resp.(fp_Validators) <> [] -> NewValidatorSet resp.(fp_Validators) hs = Ok vals ->
  invariantCycleFinalization true {| rlc with rl_FinalizedValSet := vals; rl_FinalizedAppStateHash := resp.(fp_AppStateHash);
    rl_FinalizedBlockHash := resp.(fp_BlockHash); rl_FinalizeRespCh := None |} = None <->
  resp.(fp_AppStateHash) <> "" /\ resp.(fp_BlockHash) <> "".
Proof.
  intros Hne Hv. assert (Hvals : vals.(Validators) <> []).
  { unfold NewValidatorSet in Hv. repeat case_match; try done. by injection Hv as <-. }
  unfold invariantCycleFinalization. simpl. rewrite bool_decide_eq_false_2 by done.
  destruct (String.eqb_spec (fp_AppStateHash resp) ""), (String.eqb_spec (fp_BlockHash resp) ""); naive_solver.
Qed.
