(* ===== verification/Engine.v ===== *)
(** Assembling an engine (tm/tmengine/engine.go, opts.go, mirror.go): its options, their validation, the
    initialization of the chain, and the configurations the mirror and the state machine get.

    A setting that is only tested for nil is a boolean.  The goroutines that are started, the metrics
    collector and the context are left out. *)
From S2P Require Import Prelude.
From S2P Require Import Types.
From S2P Require Import Powers.
From S2P Require Import VoteSummary.
From S2P Require Import RoundView.
From S2P Require Import Stores.
From S2P Require Import Managers.
From S2P Require Import KernelBase.
From S2P Require Import RoundLifecycle.
From S2P Require Import StateMachineBase.
From S2P Require Import StateMachine.
From S2P Require Import StateMachineRun.
From S2P Require Import StateMachinePipeline.
From S2P Require Import KernelExample.
From S2P Require Import StateMachineExample.
Local Open Scope Z_scope.

(** * Settings *)

Record ExternalGenesis := MkExternalGenesis {
  eg_ChainID : bytes; eg_InitialHeight : Z; eg_InitialAppState : bytes; eg_GenesisValidatorSet : ValidatorSet
}.

(** A channel given to an option: its capacity and the number of values in it. *)
Record ChanArg := MkChanArg { ch_cap : Z; ch_len : Z }.

(** The fields of Engine, its mirror configuration, and the state machine configuration. *)
Record Settings := MkSettings {
  es_genesis : option ExternalGenesis;
  es_gs : bool;
  es_hashScheme : option HashScheme;
  es_sigScheme : bool;
  es_cmspScheme : bool;
  es_initChainCh : bool;
  es_metricsCh : bool;
  es_watchdog : bool;
  mc_Store : bool;
  mc_CommittedHeaderStore : bool;
  mc_RoundStore : bool;
  mc_ValidatorStore : bool;
  mc_LagStateOut : bool;
  mc_ReplayedHeadersIn : bool;
  smc_Signer : option Signer;
  smc_ActionStore : bool;
  smc_FinalizationStore : bool;
  smc_StateMachineStore : bool;
  smc_RoundTimer : bool;
  smc_ConsensusStrategy : bool;
  smc_BlockDataArrivalCh : bool;
  smc_FinalizeBlockRequestCh : bool
}.

Definition Settings_zero : Settings :=
  MkSettings None false None false false false false false false false false false false false None false false false
    false false false false.

(** * Options (opts.go) *)

(** An option is applied to the settings and to a state machine configuration that NewMirror leaves nil. *)
Definition Opt : Type := bool -> Settings -> outcome (Settings * option error).

(** An option that sets fields of the engine, and one that sets a field of the state machine configuration. *)
Definition setting (f : Settings -> Settings) : Opt := fun _ s => Ret (f s, None).
Definition smSetting (f : Settings -> Settings) : Opt := fun smc s => if smc then Ret (f s, None) else Panic nilDeref.

Definition WithConsensusStrategy (cs : bool) : Opt := smSetting (fun s => {| s with smc_ConsensusStrategy := cs |}).
Definition WithGossipStrategy (gs : bool) : Opt := setting (fun s => {| s with es_gs := gs |}).
Definition WithActionStore (b : bool) : Opt := smSetting (fun s => {| s with smc_ActionStore := b |}).
Definition WithCommittedHeaderStore (b : bool) : Opt := setting (fun s => {| s with mc_CommittedHeaderStore := b |}).
Definition WithFinalizationStore (b : bool) : Opt := smSetting (fun s => {| s with smc_FinalizationStore := b |}).
Definition WithMirrorStore (b : bool) : Opt := setting (fun s => {| s with mc_Store := b |}).
Definition WithRoundStore (b : bool) : Opt := setting (fun s => {| s with mc_RoundStore := b |}).
Definition WithStateMachineStore (b : bool) : Opt := smSetting (fun s => {| s with smc_StateMachineStore := b |}).
Definition WithValidatorStore (b : bool) : Opt := setting (fun s => {| s with mc_ValidatorStore := b |}).
Definition WithSignatureScheme (b : bool) : Opt := setting (fun s => {| s with es_sigScheme := b |}).
Definition WithHashScheme (h : option HashScheme) : Opt := smSetting (fun s => {| s with es_hashScheme := h |}).
Definition WithCommonMessageSignatureProofScheme (b : bool) : Opt := setting (fun s => {| s with es_cmspScheme := b |}).
Definition WithSigner (sg : option Signer) : Opt := smSetting (fun s => {| s with smc_Signer := sg |}).
Definition WithGenesis (g : option ExternalGenesis) : Opt := setting (fun s => {| s with es_genesis := g |}).
Definition WithInitChainChannel (b : bool) : Opt := setting (fun s => {| s with es_initChainCh := b |}).
Definition WithBlockFinalizationChannel (b : bool) : Opt := smSetting (fun s => {| s with smc_FinalizeBlockRequestCh := b |}).
Definition WithBlockDataArrivalChannel (b : bool) : Opt := smSetting (fun s => {| s with smc_BlockDataArrivalCh := b |}).
Definition WithReplayedHeaderRequestChannel (b : bool) : Opt := setting (fun s => {| s with mc_ReplayedHeadersIn := b |}).
Definition WithInternalRoundTimer (b : bool) : Opt := smSetting (fun s => {| s with smc_RoundTimer := b |}).
(** NewStandardRoundTimer is never nil. *)
Definition WithTimeoutStrategy : Opt := WithInternalRoundTimer true.
Definition WithWatchdog (b : bool) : Opt := smSetting (fun s => {| s with es_watchdog := b |}).

(** The capacity of the lag state channel must be zero, which that of a nil channel is. *)
Definition WithLagStateChannel (ch : option ChanArg) : Opt :=
  fun _ s => Ret
    (if negb (match ch with Some c => ch_cap c | None => 0 end =? 0)
    then (s, Some (ErrOther "WithLagStateChannel: capacity of channel must be zero"))
    else ({| s with mc_LagStateOut := bool_decide (ch <> None) |}, None)).

(** The metrics channel must be unbuffered, but what is tested is its length. *)
Definition WithMetricsChannel (ch : option ChanArg) : Opt :=
  fun _ s => Ret
    (if negb (match ch with Some c => ch_len c | None => 0 end =? 0)
    then (s, Some (ErrOther "WithMetricsChannel: ch must be unbuffered"))
    else ({| s with es_metricsCh := bool_decide (ch <> None) |}, None)).

(** The options of the package (WithAssertEnv sets what only debug builds read). *)
Inductive isOption : Opt -> Prop :=
| OptConsensusStrategy b : isOption (WithConsensusStrategy b)
| OptGossipStrategy b : isOption (WithGossipStrategy b)
| OptActionStore b : isOption (WithActionStore b)
| OptCommittedHeaderStore b : isOption (WithCommittedHeaderStore b)
| OptFinalizationStore b : isOption (WithFinalizationStore b)
| OptMirrorStore b : isOption (WithMirrorStore b)
| OptRoundStore b : isOption (WithRoundStore b)
| OptStateMachineStore b : isOption (WithStateMachineStore b)
| OptValidatorStore b : isOption (WithValidatorStore b)
| OptSignatureScheme b : isOption (WithSignatureScheme b)
| OptHashScheme h : isOption (WithHashScheme h)
| OptCMSPScheme b : isOption (WithCommonMessageSignatureProofScheme b)
| OptSigner sg : isOption (WithSigner sg)
| OptGenesis g : isOption (WithGenesis g)
| OptInitChainChannel b : isOption (WithInitChainChannel b)
| OptBlockFinalizationChannel b : isOption (WithBlockFinalizationChannel b)
| OptBlockDataArrivalChannel b : isOption (WithBlockDataArrivalChannel b)
| OptReplayedHeaderRequestChannel b : isOption (WithReplayedHeaderRequestChannel b)
| OptInternalRoundTimer b : isOption (WithInternalRoundTimer b)
| OptTimeoutStrategy : isOption WithTimeoutStrategy
| OptWatchdog b : isOption (WithWatchdog b)
| OptLagStateChannel ch : isOption (WithLagStateChannel ch)
| OptMetricsChannel ch : isOption (WithMetricsChannel ch).

(** The loop over the options: each result replaces the error so far. *)
Definition applyOpt (smc : bool) (acc : Settings * option error) (opt : Opt) : outcome (Settings * option error) :=
  match opt smc acc.1 with Ret (s, e) => Ret (s, ErrJoin1 <$> e) | Panic msg => Panic msg end.
Definition applyOpts (smc : bool) (opts : list Opt) : outcome (Settings * option error) :=
  foldO (applyOpt smc) (Settings_zero, None) opts.

(** errors.Join of the error so far and a new one. *)
Definition joined (err : option error) (msg : string) : option error :=
  Some (match err with None => ErrJoin1 (ErrOther msg) | Some e => ErrJoin e (ErrOther msg) end).
Definition requires (err : option error) (need : bool * string) : option error :=
  if need.1 then err else joined err need.2.

Definition isSome {A} (o : option A) : bool := match o with Some _ => true | None => false end.

(** validateSettings: the requirements in the order of the code. *)
Definition validateSettings (s : Settings) : option error :=
  foldl requires None
    [ (isSome s.(es_genesis), "no genesis set (use tmengine.WithGenesis)");
      (isSome s.(es_hashScheme), "no hash scheme set (use tmengine.WithHashScheme)");
      (s.(es_sigScheme), "no signature scheme set (use tmengine.WithSignatureScheme)");
      (s.(es_cmspScheme), "no common message signature proof scheme set (use tmengine.WithCommonMessageSignatureProofScheme)");
      (s.(es_gs), "no gossip strategy set (use tmengine.WithGossipStrategy)");
      (s.(smc_ActionStore) || negb (isSome s.(smc_Signer)), "no action store set (use tmengine.WithActionStore)");
      (s.(smc_FinalizationStore), "no finalization store set (use tmengine.WithFinalizationStore)");
      (s.(mc_Store), "no mirror store set (use tmengine.WithMirrorStore)");
      (s.(mc_RoundStore), "no round store set (use tmengine.WithRoundStore)");
      (s.(smc_StateMachineStore), "no state machine store set (use tmengine.WithStateMachineStore)");
      (s.(mc_ValidatorStore), "no validator store set (use tmengine.WithValidatorStore)");
      (s.(es_watchdog), "no watchdog set (use tmengine.WithWatchdog)");
      (s.(smc_ConsensusStrategy), "no consensus strategy set (use tmengine.WithConsensusStrategy)");
      (s.(smc_FinalizeBlockRequestCh), "no block finalization channel set (use tmengine.WithBlockFinalizationChannel)");
      (s.(smc_RoundTimer), "no timeout strategy set (use tmengine.WithTimeoutStrategy)") ].

(** validateMirrorSettings, for a mirror without an engine. *)
Definition validateMirrorSettings (s : Settings) : option error :=
  foldl requires None
    [ (s.(mc_Store), "no mirror store set (use tmengine.WithMirrorStore)");
      (s.(mc_CommittedHeaderStore), "no committed header store set (use tmengine.WithCommittedHeaderStore)");
      (s.(mc_RoundStore), "no round store set (use tmengine.WithRoundStore)");
      (s.(mc_ValidatorStore), "no validator store set (use tmengine.WithValidatorStore)");
      (isSome s.(es_hashScheme), "no hash scheme set (use tmengine.WithHashScheme)");
      (s.(es_sigScheme), "no signature scheme set (use tmengine.WithSignatureScheme)");
      (s.(es_cmspScheme), "no common message signature proof scheme set (use tmengine.WithCommonMessageSignatureProofScheme)") ].

(** NewMirror of the package, a mirror without an engine, up to the creation of the mirror: the settings, the
    initial height and the validators.  The genesis is read before the settings are validated. *)
Definition NewMirror (opts : list Opt) : outcome (result (Settings * Z * ValidatorSet)) :=
  x ← applyOpts false opts;
  match x with
  | (_, Some e) => Ret (Err e)
  | (s, None) =>
      match s.(es_genesis) with
      | None => Panic nilDeref
      | Some eg =>
          match validateMirrorSettings s with
          | Some e => Ret (Err e)
          | None => Ret (Ok (s, eg.(eg_InitialHeight), eg.(eg_GenesisValidatorSet)))
          end
      end
  end.

(** * Initializing the chain *)

Record InitChainResponse := MkInitChainResponse { ic_AppStateHash : bytes; ic_Validators : list Validator }.

(** What happens on the init chain channel. *)
Inductive InitEvent := InitClosed | InitRequested (g : ExternalGenesis).

Section engine.
Context {ST : Type} `{!SMStores ST}.
Implicit Types (st : ST).

(** The request to the application, its response, and the finalization of the genesis.  [resp] is None when
    the context is cancelled first. *)
Definition initChain (eg : ExternalGenesis) (hs : HashScheme) (resp : option InitChainResponse) st : ST * result Genesis :=
  match resp with
  | None => (st, Err (ErrOther "context cancelled while initializing chain"))
  | Some resp =>
      match (match resp.(ic_Validators) with
             | [] => Ok eg.(eg_GenesisValidatorSet)
             | _ :: _ => NewValidatorSet resp.(ic_Validators) hs
             end) with
      | Err e => (st, Err (ErrWrap "failed to build validator set from init genesis response" e))
      | Ok valSet =>
          let updated := MkGenesis eg.(eg_ChainID) eg.(eg_InitialHeight) resp.(ic_AppStateHash) valSet in
          match Genesis_Header updated hs with
          | (_, Some e) => (st, Err (ErrWrap "failure building genesis header" e))
          | (b, None) =>
              match ss_SaveFinalization (u64 (eg.(eg_InitialHeight) - 1)) 0 b.(Hash) valSet resp.(ic_AppStateHash) st with
              | (st, Some e) => (st, Err (ErrWrap "failure saving genesis finalization" e))
              | (st, None) => (st, Ok updated)
              end
          end
      end
  end.

(** [nhr] is what the mirror store returns. *)
Definition maybeInitializeChain (eg : ExternalGenesis) (hs : HashScheme) (initCh : bool)
  (nhr : result NetworkHeightRound) (resp : option InitChainResponse) st : ST * result Genesis * list InitEvent :=
  match nhr with
  | Ok _ => (st, Ok Genesis_zero, if initCh then [InitClosed] else [])
  | Err e =>
      if negb (bool_decide (e = ErrStoreUninitialized))
      then (st, Err (ErrWrap "unexpected error checking network height-round before for chain initialization" e), [])
      else
        let initFinHeight := u64 (eg.(eg_InitialHeight) - 1) in
        match ss_LoadFinalizationByHeight initFinHeight st with
        | Ok _ => (st, Ok Genesis_zero, [])
        | Err e =>
            if negb (errAs (fun x => bool_decide (x = HeightUnknownError initFinHeight)) e)
            then (st, Err (ErrWrap "unexpected error checking pre-genesis finalization for chain initialization" e), [])
            else if negb initCh
            then (st, Err (ErrOther "chain is uninitialized and no init chain channel provided (use tmengine.WithInitChainChannel)"), [])
            else (initChain eg hs resp st, [InitRequested eg])
        end
  end.

(** What the mirror and the state machine are started with. *)
Record EngineParts := MkParts {
  ep_InitialHeight : Z; ep_InitialValidatorSet : ValidatorSet; ep_stateMachine : SMConfig
}.

(** The initial validators of the mirror: those of the genesis, if there is one, or those of its finalization. *)
Definition startParts (s : Settings) (eg : ExternalGenesis) (hs : HashScheme) (g : Genesis) st : result EngineParts :=
  let parts vals := MkParts eg.(eg_InitialHeight) vals (MkSMConfig s.(smc_Signer) hs g) in
  match g.(g_ValidatorSet).(Validators) with
  | _ :: _ => Ok (parts g.(g_ValidatorSet))
  | [] =>
      match ss_LoadFinalizationByHeight (u64 (eg.(eg_InitialHeight) - 1)) st with
      | Err e => Err (ErrWrap "failed to load initial validator set from finalization store" e)
      | Ok (_, _, vals, _) => Ok (parts vals)
      end
  end.

(** New, up to the creation of the mirror and the state machine. *)
Definition New (opts : list Opt) (nhr : result NetworkHeightRound) (resp : option InitChainResponse) st :
  outcome (ST * result EngineParts * list InitEvent) :=
  x ← applyOpts true opts;
  match x with
  | (_, Some e) => Ret (st, Err e, [])
  | (s, None) =>
      match validateSettings s with
      | Some e => Ret (st, Err e, [])
      | None =>
          match s.(es_genesis), s.(es_hashScheme) with
          | Some eg, Some hs =>
              match maybeInitializeChain eg hs s.(es_initChainCh) nhr resp st with
              | (st, Err e, evs) => Ret (st, Err e, evs)
              | (st, Ok g, evs) => Ret (st, startParts s eg hs g st, evs)
              end
          | _, _ => Panic nilDeref
          end
      end
  end.
End engine.

(** * What the engine starts *)
Section starts.
Context {P ST : Type} `{SMStoresLaws ST}.

(** The options that were given decide the settings; New goes on only when they are complete. *)
Lemma New_parts opts nhr resp (st st' : ST) parts evs : New opts nhr resp st = Ret (st', Ok parts, evs) ->
  exists s eg hs g, applyOpts true opts = Ret (s, None) /\ validateSettings s = None /\
    s.(es_genesis) = Some eg /\ s.(es_hashScheme) = Some hs /\
    maybeInitializeChain eg hs s.(es_initChainCh) nhr resp st = (st', Ok g, evs) /\
    startParts s eg hs g st' = Ok parts.
Proof.
  unfold New. destruct (applyOpts true opts) as [[s [e|]]|msg] eqn:Eo; [done| |done]. simpl.
  destruct (validateSettings s) as [e|] eqn:Ev; [done|].
  destruct (es_genesis s) as [eg|] eqn:Eg; [|done]. destruct (es_hashScheme s) as [hs|] eqn:Eh; [|done].
  destruct (maybeInitializeChain eg hs (es_initChainCh s) nhr resp st) as [[st1 [g|e]] evs1] eqn:Ei; [|done].
  intros [= <- Hp <-]. by exists s, eg, hs, g.
Qed.

(** On a restart the state machine gets a zero genesis and the stores are left alone. *)
Lemma restart_parts opts nhr resp (st st' : ST) parts evs : New opts (Ok nhr) resp st = Ret (st', Ok parts, evs) ->
  st' = st /\ parts.(ep_stateMachine).(m_genesis) = Genesis_zero /\
  finAt (u64 (parts.(ep_InitialHeight) - 1)) st <> None.
Proof.
  intros (s & eg & hs & g & _ & _ & _ & _ & Hi & Hp)%New_parts. injection Hi as <- <- _.
  unfold startParts in Hp. simpl in Hp. unfold finAt.
  destruct (ss_LoadFinalizationByHeight (u64 (eg_InitialHeight eg - 1)) st) as [[[[r b] vals] a]|e] eqn:El; [|done].
  injection Hp as <-. simpl. by rewrite El.
Qed.

Lemma load_None h (st : ST) : finAt h st = None -> exists e, ss_LoadFinalizationByHeight h st = Err e.
Proof. unfold finAt. destruct (ss_LoadFinalizationByHeight h st) as [f|e]; [done|]. by exists e. Qed.

Lemma load_Some h (st : ST) : finAt h st <> None -> exists f, ss_LoadFinalizationByHeight h st = Ok f.
Proof. unfold finAt. destruct (ss_LoadFinalizationByHeight h st) as [f|e]; [by exists f|done]. Qed.

(** Without a genesis and without the finalization two heights before, a start ends before it sends
    anything. *)
Lemma start_without_validators (m : SMConfig) (w : SMWorld P ST) l h r :
  m.(m_genesis) = Genesis_zero -> h <> 0 -> startPosition m w.(sw_st) = Ok (h, r) ->
  finAt (u64 (h - 2)) w.(sw_st) = None ->
  (start m l w).(sy_mode) = Down /\ (start m l w).(sy_w).(sw_log) = w.(sw_log) /\
  (start m l w).(sy_w).(sw_st) = w.(sw_st).
Proof.
  intros Hg Hh Hp [e He]%load_None.
  set (w' := {| (crashed w) with sw_answers := l; sw_next := S w.(sw_next) |}).
  assert (Hrun : initializeRLC m (provide l (crashed w)) = SRet false w'); [|unfold start; by rewrite Hrun].
  unfold initializeRLC, sendInitialActionSet. unfold mbind, SM_bind, newChan, loadS. simpl. rewrite Hp.
  unfold loadValSets, isGenesis. rewrite Hg. simpl. destruct (Z.eqb_spec h 0) as [|_]; [done|]. simpl.
  unfold mbind, SM_bind, loadFin, loadS. simpl. by rewrite He.
Qed.
End starts.


(** The example node restarts after its prevote at height 1: live at its first start, down at its second. *)
Definition exExternalGenesis : ExternalGenesis := MkExternalGenesis "chain" 1 nilHash toyValSet.
Definition exOpts : list Opt :=
  [ WithGenesis (Some exExternalGenesis); WithHashScheme (Some toyHashScheme); WithSignatureScheme true;
    WithCommonMessageSignatureProofScheme true; WithGossipStrategy true; WithActionStore true;
    WithSigner (Some exSigner); WithFinalizationStore true; WithMirrorStore true; WithRoundStore true;
    WithStateMachineStore true; WithValidatorStore true; WithWatchdog true; WithConsensusStrategy true;
    WithBlockFinalizationChannel true; WithTimeoutStrategy ].
Definition exParts : EngineParts := MkParts 1 toyValSet (MkSMConfig (Some exSigner) toyHashScheme Genesis_zero).


(** * A mirror without an engine *)

(** What NewMirror leaves of the settings: an option either panics or does not touch the hash scheme. *)
Lemma option_without_smc opt s x : isOption opt -> opt false s = Ret x -> x.1.(es_hashScheme) = s.(es_hashScheme).
Proof.
  intros Ho Hx. destruct Ho; try discriminate Hx; try (injection Hx as <-; reflexivity).
  - injection Hx as <-. by destruct (negb _).
  - injection Hx as <-. by destruct (negb _).
Qed.

Lemma options_without_smc opts : Forall isOption opts ->
  okay (applyOpts false opts) (fun x => x.1.(es_hashScheme) = None).
Proof.
  intros Hall. apply (foldO_okay_inv _ (fun x : Settings * option error => x.1.(es_hashScheme) = None)); [|done].
  intros opt [s e] Hin Hs. unfold applyOpt. simpl. destruct (opt false s) as [[s' e']|msg] eqn:Hx; [|done]. simpl.
  pose proof (option_without_smc _ _ _ (proj1 (Forall_forall _ _) Hall _ Hin) Hx) as Ho. simpl in *. congruence.
Qed.

(** A requirement that is not met leaves an error. *)
Lemma requires_keeps needs e : foldl requires (Some e) needs <> None.
Proof. revert e. induction needs as [|[[] msg] needs IH]; intros e; simpl; [done|apply IH|apply IH]. Qed.

Lemma requires_fails needs err msg : (false, msg) ∈ needs -> foldl requires err needs <> None.
Proof.
  revert err. induction needs as [|need needs IH]; intros err; [by intros ?%not_elem_of_nil|].
  intros [<-|Hin]%elem_of_cons; simpl; [|by apply IH]. destruct err; apply requires_keeps.
Qed.

(** A mirror cannot be run without an engine.  Whatever options of the package NewMirror is given, it
    panics or returns an error: the hash scheme is required, and the option that sets it, like every option
    that sets a field of the state machine configuration, dereferences the nil configuration NewMirror passes. *)
Theorem standalone_mirror_never_starts opts : Forall isOption opts -> forall m, NewMirror opts <> Ret (Ok m).
Proof.
  intros Hall m. pose proof (options_without_smc opts Hall) as Hh. unfold NewMirror.
  destruct (applyOpts false opts) as [[s [e|]]|msg]; [done| |done]. simpl in *.
  destruct (es_genesis s) as [eg|]; [|done].
  destruct (validateMirrorSettings s) as [e|] eqn:Hv; [done|]. exfalso. revert Hv.
  apply (requires_fails _ _ "no hash scheme set (use tmengine.WithHashScheme)"). rewrite Hh. simpl. set_solver.
Qed.

Lemma standalone_mirror_never_starts_witness :
  NewMirror [WithGenesis (Some exExternalGenesis); WithHashScheme (Some toyHashScheme)] = Panic nilDeref /\
  forall m, NewMirror [WithGenesis (Some exExternalGenesis); WithMirrorStore true] <> Ret (Ok m).
Proof.
  split; [vm_compute; reflexivity|].
  apply (standalone_mirror_never_starts [WithGenesis (Some exExternalGenesis); WithMirrorStore true]).
  repeat constructor.
Defined.
