(* ===== verification/NetDag.v ===== *)
(** The fixed tree of gnetdag/fixedtree.go: which index of a slice is the parent and which the first child of
    an index, when the slice is read as a tree in which every node has [BranchFactor] children.

    An int is a Z reduced to 64 bits after each operation.  Each loop has fuel; a result None is a loop that
    did not end within it. *)
From S2P Require Import Prelude.
Local Open Scope Z_scope.

Record FixedTree := MkFixedTree { BranchFactor : Z }.

(** Addition, subtraction and multiplication of the int type. *)
Definition iadd (a b : Z) : Z := i64 (a + b).
Definition isub (a b : Z) : Z := i64 (a - b).
Definition imul (a b : Z) : Z := i64 (a * b).

Section tree.
Context (t : FixedTree).
Notation bf := (t.(BranchFactor)).

(** The loop of Layer. *)
Fixpoint layerLoop (fuel : nat) (entryIdx layer layerWidth entriesSoFar : Z) : option Z :=
  match fuel with
  | O => None
  | S fuel =>
      if entryIdx <? entriesSoFar then Some layer
      else
        let layerWidth := imul layerWidth bf in
        layerLoop fuel entryIdx (iadd layer 1) layerWidth (iadd entriesSoFar layerWidth)
  end.

Definition Layer (fuel : nat) (entryIdx : Z) : option Z :=
  if entryIdx =? 0 then Some 0 else layerLoop fuel entryIdx 1 bf (iadd 1 bf).

(** The loop of Parent that counts the entries before the parent's layer: [n] iterations. *)
Fixpoint ancestors (n : nat) (ancestorWidth ancestorEntries : Z) : Z * Z :=
  match n with
  | O => (ancestorWidth, ancestorEntries)
  | S n => let ancestorWidth := imul ancestorWidth bf in ancestors n ancestorWidth (iadd ancestorEntries ancestorWidth)
  end.

Definition Parent (fuel : nat) (entryIdx : Z) : option Z :=
  if entryIdx =? 0 then Some (-1)
  else if entryIdx <=? bf then Some 0
  else
    curLayer ← Layer fuel entryIdx;
    let parentLayer := isub curLayer 1 in
    let '(ancestorWidth, ancestorEntries) := ancestors (Z.to_nat (isub parentLayer 1)) 1 1 in
    let parentLayerWidth := imul ancestorWidth bf in
    let parentOffset := Z.quot (isub (isub entryIdx parentLayerWidth) ancestorEntries) bf in
    Some (iadd ancestorEntries parentOffset).

(** The loop of FirstChild. *)
Fixpoint childLoop (fuel : nat) (entryIdx curLayerWidth entriesBeforeCurLayer : Z) : option Z :=
  match fuel with
  | O => None
  | S fuel =>
      if entryIdx <=? iadd entriesBeforeCurLayer curLayerWidth then
        let entryLayerOffset := isub entryIdx entriesBeforeCurLayer in
        Some (iadd (iadd entriesBeforeCurLayer curLayerWidth) (imul entryLayerOffset bf))
      else childLoop fuel entryIdx (imul curLayerWidth bf) (iadd entriesBeforeCurLayer curLayerWidth)
  end.

Definition FirstChild (fuel : nat) (entryIdx : Z) : option Z :=
  if entryIdx =? 0 then Some 1 else childLoop fuel entryIdx bf 1.
End tree.

(** * Layers

    [before b l] entries come before layer [l]: the sum of the powers of [b] below [l]. *)
Fixpoint before (b : Z) (l : nat) : Z := match l with O => 0 | S l => before b l + b ^ Z.of_nat l end.

Arguments before : simpl never.

Lemma before_S b l : before b (S l) = before b l + b ^ Z.of_nat l.
Proof. done. Qed.

Lemma before_next b l : before b (S l) = b * before b l + 1.
Proof.
  induction l as [|l IH]; [rewrite before_S; simpl; unfold before; lia|].
  rewrite (before_S b (S l)). rewrite IH at 1. rewrite (before_S b l), Nat2Z.inj_succ, Z.pow_succ_r by lia. lia.
Qed.

Lemma before_grows b l : 1 <= b -> Z.of_nat l <= before b l.
Proof.
  intros Hb. induction l as [|l IH]; [done|]. rewrite before_S. pose proof (Z.pow_pos_nonneg b (Z.of_nat l)). lia.
Qed.

Lemma before_mono b l k : 1 <= b -> (l <= k)%nat -> before b l <= before b k.
Proof.
  intros Hb. induction 1 as [|k _ IH]; [done|]. rewrite before_S. pose proof (Z.pow_pos_nonneg b (Z.of_nat k)). lia.
Qed.

(** The layer of an index: how many parents it has above it, where the parent of i > 0 is (i-1)/b. *)
Inductive atLayer (b : Z) : Z -> nat -> Prop :=
| atLayer_root : atLayer b 0 0
| atLayer_child i l : 0 < i -> atLayer b ((i - 1) / b) l -> atLayer b i (S l).

Lemma atLayer_before b i l : 1 <= b -> before b l <= i < before b (S l) -> atLayer b i l.
Proof.
  intros Hb. revert i. induction l as [|l IH]; intros i Hi.
  - unfold before in Hi. simpl in Hi. assert (i = 0) as -> by lia. constructor.
  - rewrite (before_next b l) in Hi at 1. rewrite (before_next b (S l)) in Hi.
    pose proof (before_grows b l Hb). constructor; [nia|]. apply IH.
    split; [apply Z.div_le_lower_bound; lia|]. apply Z.div_lt_upper_bound; lia.
Qed.

(** Every intermediate value fits in an int. *)
Definition fits (b i : Z) : Prop := 1 <= b /\ 0 <= i /\ (i + 1) * (b + 1) < two63.

Section fits.
Context (b i : Z) (Hfits : fits b i).
Notation t := (MkFixedTree b).

(** The width of a layer that does not start after [i], and what comes before the next one. *)
Lemma layer_fits l : before b l <= i ->
  is_i64 (b ^ Z.of_nat l) /\ 0 < b ^ Z.of_nat l /\ is_i64 (before b (S l)) /\ 0 <= before b l /\ Z.of_nat l <= i /\ is_i64 (Z.of_nat l + 1).
Proof.
  intros Hl. destruct Hfits as (Hb & Hi & Hf). pose proof (before_grows b l Hb) as Hg.
  assert (Hpow : 0 < b ^ Z.of_nat l) by (apply Z.pow_pos_nonneg; lia).
  assert (Hw : b ^ Z.of_nat l <= i * b + 1).
  { destruct l as [|l]; [simpl; nia|]. rewrite before_S in Hl. pose proof (before_grows b l Hb).
    rewrite Nat2Z.inj_succ, Z.pow_succ_r by lia. nia. }
  rewrite before_S. assert (i * b + 1 + i < two63) by lia. assert (i <= i * b) by nia. unfold is_i64, two63 in *. split_and!; lia.
Qed.

Ltac fit l := destruct (layer_fits l ltac:(assumption)) as (? & ? & ? & ? & ? & ?).

(** The width of the next layer and what comes before the one after it, as the loops compute them. *)
Lemma width_next l : before b (S l) <= i -> imul (b ^ Z.of_nat l) b = b ^ Z.of_nat (S l).
Proof. intros Hl. fit (S l). unfold imul. rewrite Z.mul_comm, <- Z.pow_succ_r, <- Nat2Z.inj_succ by lia. by apply i64_small. Qed.

Lemma before_add l : before b l <= i -> iadd (before b l) (b ^ Z.of_nat l) = before b (S l).
Proof. intros Hl. fit l. unfold iadd. rewrite <- before_S. by apply i64_small. Qed.

(** The loop of Layer from layer [l] on. *)
Lemma layerLoop_spec fuel l : before b l <= i -> (Z.to_nat i - l < fuel)%nat ->
  exists k, before b k <= i < before b (S k) /\ (l <= k)%nat /\
    layerLoop t fuel i (Z.of_nat l) (b ^ Z.of_nat l) (before b (S l)) = Some (Z.of_nat k).
Proof.
  revert l. induction fuel as [|fuel IH]; intros l Hl Hfuel; [lia|]. fit l. simpl.
  destruct (Z.ltb_spec i (before b (S l))) as [Hlt|Hge]; [by exists l|]. fit (S l).
  destruct (IH (S l)) as (k & Hk & Hlk & Heq); [done|lia|]. exists k. split; [done|]. split; [lia|].
  rewrite width_next, before_add by done. rewrite <- Heq. f_equal. unfold iadd. rewrite i64_small by done. lia.
Qed.

(** The loop of Parent from layer [l] on. *)
Lemma ancestors_spec n l : before b (n + l) <= i ->
  ancestors t n (b ^ Z.of_nat l) (before b (S l)) = (b ^ Z.of_nat (n + l), before b (S (n + l))).
Proof.
  revert l. induction n as [|n IH]; intros l Hl; [done|]. simpl.
  assert (Hle : before b (S l) <= i) by (pose proof (before_mono b (S l) (S n + l)); destruct Hfits; lia).
  rewrite width_next, before_add, IH, Nat.add_succ_r by (done || by rewrite Nat.add_succ_r). done.
Qed.

(** The loop of FirstChild from layer [l] on. *)
Lemma childLoop_spec fuel l : before b l <= i -> (Z.to_nat i - l < fuel)%nat ->
  childLoop t fuel i (b ^ Z.of_nat l) (before b l) = Some (b * i + 1).
Proof.
  revert l. induction fuel as [|fuel IH]; intros l Hl Hfuel; [lia|]. fit l. simpl. rewrite before_add by done.
  destruct (Z.leb_spec i (before b (S l))) as [Hle|Hgt].
  - f_equal. unfold iadd, isub, imul. pose proof (before_next b l). destruct Hfits as (Hb & Hi & Hf).
    rewrite (i64_small (i - _)) by (unfold is_i64, two63 in *; lia).
    assert (0 <= (i - before b l) * b <= i * b) by nia.
    rewrite (i64_small (_ * b)) by (unfold is_i64, two63 in *; nia).
    rewrite i64_small; unfold is_i64, two63 in *; nia.
  - assert (before b (S l) <= i) by lia. rewrite width_next by done. fit (S l). apply IH; [done|lia].
Qed.

(** ** The methods *)
Definition enough : nat := S (Z.to_nat i).

Lemma before_1 : before b 1 = 1.
Proof. done. Qed.

Lemma Layer_spec : exists k, Layer t enough i = Some (Z.of_nat k) /\ before b k <= i < before b (S k).
Proof.
  destruct Hfits as (Hb & Hi & Hf). unfold Layer. destruct (Z.eqb_spec i 0) as [->|Hne]; [by exists 0%nat|].
  assert (Hl : before b 1 <= i) by (rewrite before_1; lia).
  destruct (layerLoop_spec enough 1 Hl) as (k & Hk & _ & Heq); [unfold enough; lia|].
  exists k. split; [|done]. rewrite <- Heq, <- (before_add 1 Hl), before_1, Z.pow_1_r. done.
Qed.

Lemma Parent_spec : 0 < i -> Parent t enough i = Some ((i - 1) / b).
Proof.
  destruct Hfits as (Hb & Hi & Hf). intros Hpos. unfold Parent. destruct (Z.eqb_spec i 0); [lia|].
  destruct (Z.leb_spec i (BranchFactor t)) as [Hle|Hgt]; simpl in *.
  { f_equal. symmetry. apply Z.div_small. lia. }
  destruct Layer_spec as (k & -> & Hk). simpl.
  assert (Hb2 : before b 2 = b + 1) by (rewrite (before_S b 1), before_1, Z.pow_1_r; lia).
  destruct k as [|[|k]]; [rewrite before_1 in Hk; lia|lia|].
  assert (Hl : before b (S k) <= i) by (pose proof (before_mono b (S k) (S (S k)) Hb); lia). fit (S k).
  replace (isub (isub (Z.of_nat (S (S k))) 1) 1) with (Z.of_nat k).
  2: { unfold isub. rewrite (i64_small (Z.of_nat (S (S k)) - 1)), i64_small; unfold is_i64, two63 in *; lia. }
  pose proof (ancestors_spec k 0) as Ha. rewrite before_1, Z.pow_0_r, Nat2Z.id, Nat.add_0_r in *.
  assert (Hl0 : before b k <= i) by (pose proof (before_mono b k (S k) Hb); lia).
  rewrite Ha by done. rewrite width_next by done. fit k. destruct Hk as [Hk Hk']. fit (S (S k)).
  pose proof (before_next b (S k)) as Hn. rewrite (before_S b (S k)) in Hn, Hk.
  f_equal. unfold iadd, isub.
  rewrite (i64_small (i - _)), (i64_small (i - _ - _)) by (unfold is_i64, two63 in *; lia).
  rewrite Z.quot_div_nonneg by lia.
  replace (i - b ^ Z.of_nat (S k) - before b (S k)) with (i - 1 + (- before b (S k)) * b) by lia.
  rewrite Z.div_add by lia. rewrite i64_small; [lia|].
  assert (0 <= (i - 1) / b <= i) by (split; [apply Z.div_pos; lia|apply Z.div_le_upper_bound; nia]).
  unfold is_i64, two63 in *. lia.
Qed.

Lemma FirstChild_spec : FirstChild t enough i = Some (b * i + 1).
Proof.
  destruct Hfits as (Hb & Hi & Hf). unfold FirstChild. destruct (Z.eqb_spec i 0) as [->|Hne]; [f_equal; lia|].
  pose proof (childLoop_spec enough 1) as Hc. rewrite before_1, Z.pow_1_r in Hc. apply Hc; unfold enough; lia.
Qed.
End fits.

(** The layers of the fixed tree are those of the b-ary heap.  For every branch factor and index for which
    nothing overflows, the three methods return: FirstChild the index b*i+1, Parent the index (i-1)/b, or -1
    for the root, and Layer the number of parents above.  So the children FirstChild starts are exactly the
    indices whose Parent is i, and they lie one layer further down. *)
Theorem fixed_tree_is_heap (b i : Z) : fits b i ->
  let t := MkFixedTree b in
  FirstChild t (enough i) i = Some (b * i + 1) /\
  Parent t (enough i) i = Some (if i =? 0 then -1 else (i - 1) / b) /\
  (exists l, Layer t (enough i) i = Some (Z.of_nat l) /\ atLayer b i l) /\
  (forall j, fits b j -> Parent t (enough j) j = Some i <-> b * i + 1 <= j <= b * i + b) /\
  (forall j l, atLayer b i l -> b * i + 1 <= j <= b * i + b -> atLayer b j (S l)).
Proof.
  intros Hf t. subst t. pose proof Hf as (Hb & Hi & _).
  assert (Hch : forall j, b * i + 1 <= j <= b * i + b <-> 0 < j /\ (j - 1) / b = i).
  { intros j. split.
    - intros Hj. split; [nia|]. symmetry. apply (Z.div_unique _ _ _ (j - 1 - b * i)); lia.
    - intros [Hj <-]. pose proof (Z.div_mod (j - 1) b). pose proof (Z.mod_pos_bound (j - 1) b). lia. }
  split_and!.
  - by apply FirstChild_spec.
  - destruct (Z.eqb_spec i 0) as [->|Hne]; [done|]. apply Parent_spec; [done|lia].
  - destruct (Layer_spec b i Hf) as (k & Hk & Hl). exists k. split; [done|]. by apply atLayer_before.
  - intros j Hj. rewrite Hch. destruct (Z.eq_dec j 0) as [->|Hne].
    + split; [|lia]. unfold Parent. simpl. intros [= <-]. lia.
    + destruct Hj as (Hj1 & Hj2 & Hj3). rewrite Parent_spec by (done || lia). split; [intros [= <-]; lia|by intros [_ ->]].
  - intros j l Hl [Hj <-]%Hch. by constructor.
Qed.

(** The tree of the package's documentation. *)
Lemma fixed_tree_is_heap_witness :
  fits 3 4 /\ FirstChild (MkFixedTree 3) (enough 4) 4 = Some 13 /\ Parent (MkFixedTree 3) (enough 4) 4 = Some 1.
Proof.
  assert (Hf : fits 3 4) by (unfold fits, two63; lia). split; [exact Hf|].
  destruct (fixed_tree_is_heap 3 4 Hf) as (Hc & Hp & _). split; [exact Hc|exact Hp].
Defined.
