(* ===== verification/TxBuffer.v ===== *)
(** The validator-local transaction buffer of gdriver/gtxbuf (errors.go, workingstate.go, txbuffer.go): the
    working state, its three requests and the goroutine that serves them. *)
From S2P Require Import Prelude.

(** The errors of an addTxFunc: TxInvalidError, an error without a chain, or one that wraps another. *)
Inductive TxError :=
| TxInvalidError (err : TxError)
| PlainError (msg : string)
| WrappedError (msg : string) (err : TxError).

(** errors.As with a TxInvalidError target. *)
Fixpoint asTxInvalid (e : TxError) : bool :=
  match e with
  | TxInvalidError _ => true
  | PlainError _ => false
  | WrappedError _ err => asTxInvalid err
  end.

Section buffer.
Context {S T : Type}.

(** The user's functions: the state after a transaction or the error, and whether a transaction is to be
    deleted when a list of them is rejected. *)
Context (addTx : S -> T -> S + TxError) (txDeleter : list T -> T -> bool).

Record workingState := MkWorking { BaseState : S; curState : S; isUpdated : bool; Txs : list T }.
Implicit Types w : workingState.

(** The state the next transaction is applied to. *)
Definition current w : S := if w.(isUpdated) then w.(curState) else w.(BaseState).

Definition CheckAddTx (tx : T) w : workingState * option TxError :=
  match addTx (current w) tx with
  | inr err => (w, Some err)
  | inl newState => ({| w with curState := newState; isUpdated := true; Txs := w.(Txs) ++ [tx] |}, None)
  end.

Definition Buffered (dst : list T) w : list T := dst ++ w.(Txs).

(** slices.DeleteFunc. *)
Definition deleteFunc (del : T -> bool) (l : list T) : list T := List.filter (fun tx => negb (del tx)) l.

(** The loop of Rebase: the state it leaves, the transactions it found invalid, and the error that ended it. *)
Fixpoint rebaseLoop (txs : list T) (invalidated : list T) w : workingState * list T * option TxError :=
  match txs with
  | [] => (w, invalidated, None)
  | tx :: txs =>
      match addTx w.(curState) tx with
      | inr err =>
          if asTxInvalid err then rebaseLoop txs (invalidated ++ [tx]) w else (w, invalidated, Some err)
      | inl newState => rebaseLoop txs invalidated {| w with curState := newState; isUpdated := true |}
      end
  end.

Definition Rebase (newBase : S) (applied : list T) w : workingState * (list T * option TxError) :=
  let w := {| w with BaseState := newBase; curState := newBase; isUpdated := false |} in
  match w.(Txs) with
  | [] => (w, ([], None))
  | _ :: _ =>
      let w := match applied with
               | [] => w
               | _ :: _ => {| w with Txs := deleteFunc (txDeleter applied) w.(Txs) |}
               end in
      match rebaseLoop w.(Txs) [] w with
      | (w, _, Some err) => (w, ([], Some err))
      | (w, invalidated, None) =>
          let w := match invalidated with
                   | [] => w
                   | _ :: _ => {| w with Txs := deleteFunc (txDeleter invalidated) w.(Txs) |}
                   end in
          (w, (invalidated, None))
      end
  end.

(** ** The goroutine *)

Inductive Request := AddTx (tx : T) | GetBuffered (dst : list T) | DoRebase (newBase : S) (applied : list T).
Inductive Response := AddTxResp (err : option TxError) | BufferedResp (out : list T) | RebaseResp (invalidated : list T) (err : option TxError).

(** One iteration of the main loop: handleAddTx, handleBuffered, handleRebase. *)
Definition serve (req : Request) w : workingState * Response :=
  match req with
  | AddTx tx => let '(w, err) := CheckAddTx tx w in (w, AddTxResp err)
  | GetBuffered dst => (w, BufferedResp (Buffered dst w))
  | DoRebase newBase applied => let '(w, (inv, err)) := Rebase newBase applied w in (w, RebaseResp inv err)
  end.

(** Before Initialize the kernel waits for the initial state and no request is received.  Initialize finds
    its channel cleared when it is called a second time. *)
Inductive BufferState := WaitingForState | Serving (w : workingState).

Definition Initialize (zero initialState : S) (b : BufferState) : outcome BufferState :=
  match b with
  | WaitingForState => Ret (Serving (MkWorking initialState zero false []))
  | Serving _ => Panic "BUG: (*gtxbuf.Buffer).Initialize called twice"
  end.

(** The requests a buffer serves one after the other, with their responses. *)
Fixpoint serveAll (reqs : list Request) w : workingState * list (Request * Response) :=
  match reqs with
  | [] => (w, [])
  | req :: reqs =>
      let '(w, resp) := serve req w in
      let '(w, h) := serveAll reqs w in (w, (req, resp) :: h)
  end.

(** * What the buffer promises *)

(** Applying transactions one after the other. *)
Fixpoint replay (s : S) (txs : list T) : option S :=
  match txs with
  | [] => Some s
  | tx :: txs => match addTx s tx with inl s' => replay s' txs | inr _ => None end
  end.

(** The transactions pending after a request and its response, and the base state: what the documentation
    of the methods says, without states or errors of the transactions. *)
Definition pendingStep (p : S * list T) (e : Request * Response) : S * list T :=
  match e with
  | (AddTx tx, AddTxResp None) => (p.1, p.2 ++ [tx])
  | (DoRebase newBase applied, RebaseResp inv None) =>
      (newBase, deleteFunc (txDeleter inv) (deleteFunc (txDeleter applied) p.2))
  | _ => p
  end.

(** No rebase of the run ended with an error that is not a TxInvalidError. *)
Definition notFatal (e : Request * Response) : Prop :=
  match e.2 with RebaseResp _ (Some _) => False | _ => True end.

Lemma replay_app s l1 l2 : replay s (l1 ++ l2) = s' ← replay s l1; replay s' l2.
Proof. revert s. induction l1 as [|tx l1 IH]; intros s; simpl; [done|]. by destruct (addTx s tx). Qed.

Lemma replay_snoc s l tx s' s'' : replay s l = Some s' -> addTx s' tx = inl s'' -> replay s (l ++ [tx]) = Some s''.
Proof. intros Hl Ht. rewrite replay_app, Hl. simpl. by rewrite Ht. Qed.

(** The deleter reports the members of the list it is given, as the documentation suggests. *)
Context (Hdel : forall l tx, txDeleter l tx = true <-> tx ∈ l).

(** No transaction was accepted while an equal one was pending. *)
Fixpoint addedApart (p : S * list T) (h : list (Request * Response)) : Prop :=
  match h with
  | [] => True
  | e :: h =>
      match e with (AddTx tx, AddTxResp None) => tx ∉ p.2 | _ => True end /\ addedApart (pendingStep p e) h
  end.

Lemma elem_of_deleteFunc l del tx : tx ∈ deleteFunc del l <-> tx ∈ l /\ del tx = false.
Proof. unfold deleteFunc. by rewrite !list_elem_of_In, filter_In, negb_true_iff. Qed.

Lemma deleteFunc_nil l : deleteFunc (txDeleter []) l = l.
Proof.
  unfold deleteFunc. induction l as [|tx l IH]; simpl; [done|].
  destruct (txDeleter [] tx) eqn:E; [by apply Hdel, not_elem_of_nil in E|]. simpl. by rewrite IH.
Qed.

Lemma deleteFunc_app del l1 l2 : deleteFunc del (l1 ++ l2) = deleteFunc del l1 ++ deleteFunc del l2.
Proof. apply List.filter_app. Qed.

(** What every state of the buffer satisfies: its transactions apply one after the other to its base, and
    give the state it checks the next one against. *)
Definition consistent w : Prop := replay w.(BaseState) w.(Txs) = Some (current w).

Lemma CheckAddTx_pending tx w w' err : CheckAddTx tx w = (w', err) ->
  w'.(BaseState) = w.(BaseState) /\ w'.(Txs) = match err with None => w.(Txs) ++ [tx] | Some _ => w.(Txs) end /\
  (consistent w -> consistent w').
Proof.
  unfold CheckAddTx. destruct (addTx (current w) tx) as [s|e] eqn:Ea; intros [= <- <-]; [|done].
  split_and!; [done..|]. unfold consistent. simpl. intros Hc. by eapply replay_snoc.
Qed.

(** What the loop of Rebase leaves alone. *)
Lemma rebaseLoop_pending txs inv w w' inv' err : rebaseLoop txs inv w = (w', inv', err) ->
  w'.(BaseState) = w.(BaseState) /\ w'.(Txs) = w.(Txs).
Proof.
  revert inv w. induction txs as [|tx txs IH]; intros inv w; simpl; [by intros [= <- <- <-]|].
  destruct (addTx (curState w) tx) as [s|e]; [intros Hl; by apply IH in Hl|].
  destruct (asTxInvalid e); [apply IH|by intros [= <- <- <-]].
Qed.

(** The loop of Rebase sorts the transactions into those that apply, which it keeps in order, and those
    that do not. *)
Lemma rebaseLoop_spec txs inv w w' inv' kept : rebaseLoop txs inv w = (w', inv', None) ->
  NoDup txs -> replay w.(BaseState) kept = Some w.(curState) -> (w.(isUpdated) = false -> kept = []) ->
  exists bad, inv' = inv ++ bad /\ w'.(BaseState) = w.(BaseState) /\ w'.(Txs) = w.(Txs) /\
    let kept' := kept ++ deleteFunc (txDeleter bad) txs in
    replay w.(BaseState) kept' = Some w'.(curState) /\ (w'.(isUpdated) = false -> kept' = []) /\
    (forall tx, tx ∈ bad -> tx ∈ txs).
Proof.
  revert inv w kept. induction txs as [|tx txs IH]; intros inv w kept Hl Hnd Hk Hu.
  { injection Hl as <- <-. exists []. simpl. rewrite !app_nil_r. split_and!; done. }
  apply NoDup_cons in Hnd as [Hnew Hnd]. simpl in Hl. destruct (addTx (curState w) tx) as [s|e] eqn:Ea.
  - destruct (IH _ _ (kept ++ [tx]) Hl Hnd) as (bad & -> & Hb & Ht & Hr & Hu' & Hbad); simpl in *; [by eapply replay_snoc|done|].
    assert (Hgood : txDeleter bad tx = false) by (apply not_true_is_false; intros Hin%Hdel; auto).
    exists bad. unfold deleteFunc in *. simpl. rewrite Hgood. simpl. rewrite <- app_assoc in Hr, Hu'.
    split_and!; [done..|]. intros tx' Hin. right. by apply Hbad.
  - destruct (asTxInvalid e); [|done].
    destruct (IH _ _ kept Hl Hnd Hk Hu) as (bad & -> & Hb & Ht & Hr & Hu' & Hbad).
    assert (Heq : deleteFunc (txDeleter ([tx] ++ bad)) (tx :: txs) = deleteFunc (txDeleter bad) txs).
    { unfold deleteFunc. simpl. rewrite (proj2 (Hdel (tx :: bad) tx) ltac:(by left)). simpl.
      apply filter_ext_in. intros tx' Hin%list_elem_of_In. f_equal. apply eq_bool_prop_intro. rewrite !Is_true_true, !Hdel.
      rewrite elem_of_cons. split; [|by right]. intros [->|?]; [by destruct Hnew|done]. }
    exists ([tx] ++ bad). cbv zeta in *. rewrite Heq, <- app_assoc. split_and!; [done..|].
    intros tx' [->|Hin]%elem_of_cons; [by left|right; by apply Hbad].
Qed.

Lemma deleteFunc_NoDup del l : NoDup l -> NoDup (deleteFunc del l).
Proof. rewrite !NoDup_ListNoDup. apply List.NoDup_filter. Qed.

(** Rebase, when it is not fatal: the working state its loop starts from, and what remains of the transactions. *)
Lemma Rebase_loop newBase applied w w' inv : Rebase newBase applied w = (w', (inv, None)) ->
  let rest := deleteFunc (txDeleter applied) w.(Txs) in
  exists w2, rebaseLoop rest [] (MkWorking newBase newBase false rest) = (w2, inv, None) /\
    w' = {| w2 with Txs := deleteFunc (txDeleter inv) rest |}.
Proof.
  unfold Rebase. simpl. destruct (Txs w) as [|tx0 txs0] eqn:Et; intros Hr.
  { injection Hr as <- <-. by eexists. }
  rewrite <- Et in *. clear Et tx0 txs0.
  set (w1 := match applied with [] => _ | _ :: _ => _ end) in Hr.
  assert (Hw1 : w1 = MkWorking newBase newBase false (deleteFunc (txDeleter applied) w.(Txs))).
  { subst w1. destruct applied; [|done]. by rewrite deleteFunc_nil. }
  clearbody w1. subst w1. simpl in Hr.
  destruct (rebaseLoop _ _ _) as [[w2 inv2] [e|]] eqn:El; [done|].
  destruct (rebaseLoop_pending _ _ _ _ _ _ El) as [_ Ht]. simpl in Ht.
  injection Hr as Hw' <-. exists w2. split; [done|]. rewrite <- Hw'.
  destruct inv2; simpl; [|by rewrite Ht]. rewrite deleteFunc_nil, <- Ht. by destruct w2.
Qed.

Lemma Rebase_pending newBase applied w w' inv : Rebase newBase applied w = (w', (inv, None)) ->
  w'.(BaseState) = newBase /\ w'.(Txs) = deleteFunc (txDeleter inv) (deleteFunc (txDeleter applied) w.(Txs)).
Proof. intros (w2 & [Hb _]%rebaseLoop_pending & ->)%Rebase_loop. done. Qed.

Lemma Rebase_consistent newBase applied w w' inv : Rebase newBase applied w = (w', (inv, None)) -> NoDup w.(Txs) ->
  consistent w'.
Proof.
  intros (w2 & El & ->)%Rebase_loop Hnd.
  destruct (rebaseLoop_spec _ _ _ _ _ [] El) as (bad & -> & Hb & Ht & Hrep & Hu & Hbad); simpl in *;
    [by apply deleteFunc_NoDup|done|done|].
  unfold consistent, current. simpl. rewrite Hb. destruct (isUpdated w2); [done|]. by rewrite Hu.
Qed.

(** One request, unless a rebase ends with a fatal error. *)
Lemma serve_pending req w w' resp : serve req w = (w', resp) -> notFatal (req, resp) ->
  (w'.(BaseState), w'.(Txs)) = pendingStep (w.(BaseState), w.(Txs)) (req, resp) /\
  (consistent w -> NoDup w.(Txs) -> consistent w').
Proof.
  intros Hs Hnf. destruct req as [tx|dst|newBase applied]; simpl in *.
  - destruct (CheckAddTx tx w) as [w1 err] eqn:Ea. destruct (CheckAddTx_pending _ _ _ _ Ea) as (Hb & Ht & Hc).
    injection Hs as <- <-. split; [|auto]. rewrite Hb, Ht. by destruct err.
  - by injection Hs as <- <-.
  - destruct (Rebase newBase applied w) as [w1 [inv err]] eqn:Er. injection Hs as <- <-. destruct err as [err|]; [done|].
    destruct (Rebase_pending _ _ _ _ _ Er) as [Hb Ht]. split; [by rewrite Hb, Ht|]. intros _. by eapply Rebase_consistent.
Qed.

Lemma pendingStep_NoDup p e : NoDup p.2 ->
  match e with (AddTx tx, AddTxResp None) => tx ∉ p.2 | _ => True end -> NoDup (pendingStep p e).2.
Proof.
  intros Hn Hx. destruct e as [[tx|dst|nb ap] [[err|]|out|inv [err|]]]; simpl; try done.
  - apply NoDup_app. split_and!; [done| |by apply NoDup_singleton]. by intros t Ht ->%list_elem_of_singleton.
  - by do 2 apply deleteFunc_NoDup.
Qed.

Lemma serveAll_pending reqs w0 w h : serveAll reqs w0 = (w, h) -> Forall notFatal h ->
  (w.(BaseState), w.(Txs)) = foldl pendingStep (w0.(BaseState), w0.(Txs)) h /\
  (addedApart (w0.(BaseState), w0.(Txs)) h -> consistent w0 -> NoDup w0.(Txs) -> consistent w /\ NoDup w.(Txs)).
Proof.
  revert w0 w h. induction reqs as [|req reqs IH]; intros w0 w h Hs Hnf; simpl in Hs; [by injection Hs as <- <-|].
  destruct (serve req w0) as [w1 resp] eqn:E1. destruct (serveAll reqs w1) as [w2 h2] eqn:E2. injection Hs as <- <-.
  apply Forall_cons in Hnf as [Hn Hnf]. destruct (serve_pending _ _ _ _ E1 Hn) as [Hp Hc].
  destruct (IH _ _ _ E2 Hnf) as [Hf Hrest]. cbn [foldl addedApart]. rewrite <- Hp. split; [done|].
  intros [Hx Ha] Hc0 Hnd. apply Hrest; [done|by apply Hc|].
  change (NoDup (BaseState w1, Txs w1).2). rewrite Hp. by apply pendingStep_NoDup.
Qed.
End buffer.

Arguments Request : clear implicits.
Arguments Response : clear implicits.
Arguments workingState : clear implicits.

(** C36: the buffer keeps exactly the pending transactions, and they apply.  Let the deleter that is made for a list
    report the members of the list, as the documentation of New says it will in most cases.  Take any requests served
    since Initialize, of which no rebase ended with an error other than TxInvalidError.  Then the base state is the
    one last set, and the buffered transactions are exactly those added without an error and neither applied nor
    reported invalid by a later rebase, in the order they were added.  If moreover no transaction was accepted while
    an equal one was pending, they apply one after the other to the base state, and give the state against which the
    next transaction is checked.  (Without that condition they need not: see equal_transactions_dropped.) *)
Theorem buffer_pending_exact {S T : Type} (addTx : S -> T -> S + TxError) (txDeleter : list T -> T -> bool)
  (zero s0 : S) (reqs : list (Request S T)) (h : list (Request S T * Response T)) (w0 w : workingState S T) :
  (forall l tx, txDeleter l tx = true <-> tx ∈ l) ->
  Initialize zero s0 WaitingForState = Ret (Serving w0) ->
  serveAll addTx txDeleter reqs w0 = (w, h) -> Forall notFatal h ->
  (w.(BaseState), w.(Txs)) = foldl (pendingStep txDeleter) (s0, []) h /\
  (addedApart txDeleter (s0, []) h ->
   replay addTx w.(BaseState) w.(Txs) = Some (current w) /\ NoDup w.(Txs)).
Proof.
  intros Hdel [= <-] Hrun Hnf. destruct (serveAll_pending _ _ Hdel _ _ _ _ Hrun Hnf) as [Hp Hc].
  split; [done|]. intros Ha. apply Hc; [done|done|apply NoDup_nil_2].
Qed.

(** With two equal transactions pending a rebase may drop one that still applies: the deleter is handed the
    invalid one and deletes every equal one, but the state keeps the effect of the first. *)
Definition spend (balance amount : nat) : nat + TxError :=
  if bool_decide (amount <= balance)%nat then inl (balance - amount)%nat else inr (TxInvalidError (PlainError "too much")).
Definition memberDeleter (l : list nat) (tx : nat) : bool := bool_decide (tx ∈ l).

Lemma equal_transactions_dropped :
  let w0 := MkWorking 10%nat 0%nat false [] in
  let w1 := (CheckAddTx spend 5%nat (CheckAddTx spend 5%nat w0).1).1 in
  let w2 := (Rebase spend memberDeleter 5%nat [] w1).1 in
  w1.(Txs) = [5; 5]%nat /\ w2.(Txs) = [] /\ current w2 = 0%nat /\ replay spend w2.(BaseState) w2.(Txs) = Some 5%nat.
Proof. split_and!; vm_compute; reflexivity. Qed.

(** ** The functions of txbuffer_test.go *)

(** CounterState and AddCounterTx. *)
Record CounterState := MkCounter { Version : Z; Total : Z }.
Definition AddCounterTx (s : CounterState) (add : Z) : CounterState + TxError :=
  if (add =? 0)%Z then inr (PlainError "illegal transaction: add 0")
  else if (add <? 0)%Z then inr (TxInvalidError (PlainError "add must be positive"))
  else inl (MkCounter (s.(Version) + 1) (s.(Total) + add)).
Definition CounterDeleter (reject : list Z) (n : Z) : bool := bool_decide (n ∈ reject).

(** TestBuffer_Rebase, with a transaction that is refused, and one that is added again after it was applied. *)
Definition exRequests : list (Request CounterState Z) :=
  [AddTx 1%Z; AddTx 2%Z; AddTx (-1)%Z; AddTx 3%Z; DoRebase (MkCounter 1 6) [2%Z; 4%Z]; AddTx 2%Z].

Lemma buffer_pending_exact_witness :
  let r := serveAll AddCounterTx CounterDeleter exRequests (MkWorking (MkCounter 0 0) (MkCounter 0 0) false []) in
  r.1.(Txs) = [1; 3; 2]%Z /\
  (r.1.(BaseState), r.1.(Txs)) = foldl (pendingStep CounterDeleter) (MkCounter 0 0, []) r.2 /\
  replay AddCounterTx r.1.(BaseState) r.1.(Txs) = Some (MkCounter 4 12) /\ NoDup r.1.(Txs).
Proof.
  intros r. split; [vm_compute; reflexivity|].
  destruct (buffer_pending_exact AddCounterTx CounterDeleter (MkCounter 0 0) (MkCounter 0 0) exRequests r.2
    (MkWorking (MkCounter 0 0) (MkCounter 0 0) false []) r.1) as [Hp Hc].
  - intros l tx. unfold CounterDeleter. apply bool_decide_eq_true.
  - reflexivity.
  - apply surjective_pairing.
  - vm_compute. repeat constructor.
  - split; [exact Hp|].
    destruct Hc as [Hr Hn].
    + unfold r. vm_compute. split_and!; try exact I;
        (intros H; repeat (apply elem_of_cons in H as [H|H]; [discriminate|]); by apply elem_of_nil in H).
    + split; [|exact Hn]. rewrite Hr. vm_compute. reflexivity.
Defined.
