(* ===== verification/RoundTimer.v ===== *)
(** The standard round timer (tm/tmengine/internal/tmstate/roundtimer.go) and the linear timeouts it runs for
    (tm/tmengine/timeoutstrategy.go).

    The timer is one goroutine that answers start requests; it is modelled as a step relation in which its
    select statements, the caller and the clock interleave.  Cancellation of the context is left out: it
    only ends the goroutine. *)
From S2P Require Import Prelude.
From stdpp Require Import gmap.
Local Open Scope Z_scope.

(** * Timeouts *)

(** time.Duration is an int64 of nanoseconds. *)
Definition millisecond : Z := 1000000.
Definition second : Z := 1000 * millisecond.

Record LinearTimeoutStrategy := MkLinear {
  ProposalBase : Z; ProposalIncrement : Z;
  PrevoteDelayBase : Z; PrevoteDelayIncrement : Z;
  PrecommitDelayBase : Z; PrecommitDelayIncrement : Z;
  CommitWaitBase : Z; CommitWaitIncrement : Z
}.

Definition linear (base defaultBase inc defaultInc round : Z) : Z :=
  let b := if base =? 0 then defaultBase else base in
  let i := if inc =? 0 then defaultInc else inc in
  i64 (b + i64 (round * i)).

Definition ProposalTimeout (s : LinearTimeoutStrategy) (round : Z) : Z :=
  linear s.(ProposalBase) (5 * second) s.(ProposalIncrement) (500 * millisecond) round.
Definition PrevoteDelayTimeout (s : LinearTimeoutStrategy) (round : Z) : Z :=
  linear s.(PrevoteDelayBase) (5 * second) s.(PrevoteDelayIncrement) (500 * millisecond) round.
Definition PrecommitDelayTimeout (s : LinearTimeoutStrategy) (round : Z) : Z :=
  linear s.(PrecommitDelayBase) (5 * second) s.(PrecommitDelayIncrement) (500 * millisecond) round.
Definition CommitWaitTimeout (s : LinearTimeoutStrategy) (round : Z) : Z :=
  linear s.(CommitWaitBase) (2 * second) s.(CommitWaitIncrement) (500 * millisecond) round.

(** Durations that are not negative and, at the last round, do not overflow, whichever of them is the default. *)
Definition saneDurations (base inc : Z) : Prop :=
  0 <= base /\ 0 <= inc /\ base + 5 * second + two32 * (inc + 500 * millisecond) < two63.

Lemma linear_grows base db inc di r r' : saneDurations base inc -> 0 < db <= 5 * second -> 0 < di <= 500 * millisecond ->
  0 <= r < r' -> r' < two32 -> 0 < linear base db inc di r < linear base db inc di r'.
Proof.
  intros (Hb & Hi & Hmax) Hdb Hdi Hr Hr'. unfold linear.
  set (b := if base =? 0 then db else base). set (i := if inc =? 0 then di else inc).
  assert (Hb' : 0 < b) by (subst b; destruct (Z.eqb_spec base 0); lia).
  assert (Hi' : 0 < i) by (subst i; destruct (Z.eqb_spec inc 0); lia).
  assert (Hm : b + two32 * i < two63).
  { subst b i. unfold two32, two63, second, millisecond in *.
    destruct (Z.eqb_spec base 0), (Z.eqb_spec inc 0); subst; lia. }
  assert (0 <= r * i < r' * i) by nia. assert (r' * i <= two32 * i) by nia.
  rewrite (i64_small (r * i)), (i64_small (r' * i)) by (unfold is_i64, two63 in *; lia).
  rewrite !i64_small by (unfold is_i64, two63 in *; lia). lia.
Qed.

(** * The goroutine *)

(** time.Timer: stopped, armed, or expired with the time waiting in its channel.  Stop reports whether it had
    to do anything, and takes back a time that was not received. *)
Inductive Timer := Stopped | Armed (dur : Z) | Expired.
Definition Stop (t : Timer) : bool * Timer := match t with Stopped => (false, Stopped) | _ => (true, Stopped) end.

(** Where the goroutine is: at the select that waits for a start request, or at the one that waits for the end
    of timer [c]; [c] stands for its Elapsed and cancel channels. *)
Inductive Routine := Idle | Running (c : nat) | Crashed.

Record TimerSys := MkTimerSys {
  ts_routine : Routine;
  ts_timer : Timer;
  ts_next : nat;
  ts_elapsed : gset nat;
  ts_cancelled : gset nat
}.

(** The state after NewStandardRoundTimer: the long timer was stopped before it fired. *)
Definition NewStandardRoundTimer : TimerSys := MkTimerSys Idle (Stop (Armed (3600 * second))).2 0 ∅ ∅.

(** What can be observed of a step. *)
Inductive TEvent := EStart (c : nat) (dur : Z) | ECancel (c : nat) | EExpire | EElapsed (c : nat) | EStopped (c : nat) | ERefused.

Inductive timerStep : TimerSys -> TEvent -> TimerSys -> Prop :=
| ts_start timer n el ca dur :
    timerStep (MkTimerSys Idle timer n el ca) (EStart n dur) (MkTimerSys (Running n) (Armed dur) (S n) el ca)
| ts_refused c timer n el ca :
    timerStep (MkTimerSys (Running c) timer n el ca) ERefused (MkTimerSys Crashed timer n el ca)
| ts_cancel r timer n el ca c : r <> Crashed -> (c < n)%nat ->
    timerStep (MkTimerSys r timer n el ca) (ECancel c) (MkTimerSys r timer n el ({[c]} ∪ ca))
| ts_expire r dur n el ca : r <> Crashed ->
    timerStep (MkTimerSys r (Armed dur) n el ca) EExpire (MkTimerSys r Expired n el ca)
| ts_elapse c n el ca :
    timerStep (MkTimerSys (Running c) Expired n el ca) (EElapsed c) (MkTimerSys Idle Stopped n ({[c]} ∪ el) ca)
| ts_stop c timer n el ca : c ∈ ca -> (Stop timer).1 = true ->
    timerStep (MkTimerSys (Running c) timer n el ca) (EStopped c) (MkTimerSys Idle (Stop timer).2 n el ca).

Inductive timerRun : list TEvent -> TimerSys -> Prop :=
| timerRun_new : timerRun [] NewStandardRoundTimer
| timerRun_step h e s s' : timerRun h s -> timerStep s e s' -> timerRun (h ++ [e]) s'.

(** * What the state machine relies on

    The abstract timer: which timer runs.  This is the timer of the state machine's model: a start needs
    that none runs, a cancel takes effect at once, and the running one may elapse. *)
Definition abstractStep (a : option nat) (e : TEvent) : option nat :=
  match e with
  | EStart c _ => Some c
  | ECancel c | EElapsed c => if bool_decide (a = Some c) then None else a
  | EExpire | EStopped _ | ERefused => a
  end.
Definition abstractTimer (h : list TEvent) : option nat := foldl abstractStep None h.

(** A caller that starts a timer only when the one before elapsed or was cancelled. *)
Inductive disciplined : list TEvent -> Prop :=
| disciplined_nil : disciplined []
| disciplined_start h c dur : disciplined h -> abstractTimer h = None -> disciplined (h ++ [EStart c dur])
| disciplined_refused h : disciplined h -> abstractTimer h = None -> disciplined (h ++ [ERefused])
| disciplined_other h e : disciplined h -> match e with EStart _ _ | ERefused => False | _ => True end -> disciplined (h ++ [e]).

Lemma abstractTimer_snoc h e : abstractTimer (h ++ [e]) = abstractStep (abstractTimer h) e.
Proof. unfold abstractTimer. by rewrite foldl_app. Qed.

Lemma disciplined_snoc h e : disciplined (h ++ [e]) -> disciplined h /\
  match e with EStart _ _ | ERefused => abstractTimer h = None | _ => True end.
Proof.
  intros Hd. inversion Hd as [He|h' c dur ? ? Heq|h' ? ? Heq|h' e' ? ? Heq]; [by destruct h|..];
    apply app_inj_tail in Heq as [-> <-]; [done|done|by destruct e'].
Qed.

(** Timer [c] was started and, if [expired], it expired after that. *)
Definition startedThen (h : list TEvent) (c : nat) (expired : Prop) : Prop :=
  exists h1 h2 dur, h = h1 ++ EStart c dur :: h2 /\ (expired -> EExpire ∈ h2).

Lemma startedThen_in h c P : startedThen h c P -> exists dur, EStart c dur ∈ h.
Proof. intros (h1 & h2 & dur & -> & _). exists dur. set_solver. Qed.

Lemma startedThen_snoc h c (P Q : Prop) e : startedThen h c P -> (Q -> P \/ e = EExpire) -> startedThen (h ++ [e]) c Q.
Proof.
  intros (h1 & h2 & dur & -> & Hx) HQ. exists h1, (h2 ++ [e]), dur. split; [by rewrite <- app_assoc|].
  intros [?| ->]%HQ; set_solver.
Qed.

(** The invariant of disciplined runs. *)
Record timerInv (h : list TEvent) (s : TimerSys) : Prop := {
  ti_running c : abstractTimer h = Some c -> s.(ts_routine) = Running c /\ c ∉ s.(ts_cancelled);
  ti_routine c : s.(ts_routine) = Running c -> startedThen h c (s.(ts_timer) = Expired) /\ c ∉ s.(ts_elapsed) /\
    s.(ts_timer) <> Stopped /\
    (abstractTimer h = Some c \/ c ∈ s.(ts_cancelled)) /\ EStopped c ∉ h;
  ti_elapsed c : c ∈ s.(ts_elapsed) <-> EElapsed c ∈ h;
  ti_cancelled c : c ∈ s.(ts_cancelled) <-> ECancel c ∈ h;
  ti_next c : (exists dur, EStart c dur ∈ h) \/ EElapsed c ∈ h \/ EStopped c ∈ h \/ ECancel c ∈ h -> (c < s.(ts_next))%nat
}.

Lemma elem_snoc {A} (x e : A) h : x ∈ h ++ [e] <-> x ∈ h \/ x = e.
Proof. by rewrite elem_of_app, list_elem_of_singleton. Qed.

Ltac snoc := repeat setoid_rewrite elem_snoc; rewrite ?abstractTimer_snoc; simpl.

Lemma timerInv_new : timerInv [] NewStandardRoundTimer.
Proof. split; simpl; try done; set_solver. Qed.

Lemma timerInv_step h s e s' : timerInv h s -> timerStep s e s' -> disciplined (h ++ [e]) -> timerInv (h ++ [e]) s'.
Proof.
  intros [Hr Hg He Hc Hn] Hs [_ Hd]%disciplined_snoc.
  destruct Hs as [timer n el ca dur|c timer n el ca|r timer n el ca c Hr0 Hlt|r dur n el ca Hr0|c n el ca|c timer n el ca Hin Hstop]; simpl in *.
  - (* start *) assert (Hnew : forall c', c' ∈ el \/ EStopped c' ∈ h -> c' <> n).
    { intros c' Hc' ->. assert ((n < n)%nat); [|lia]. apply Hn. rewrite <- He. tauto. }
    split; simpl; snoc; intros c.
    + intros [= ->]. split; [done|]. intros Hin%Hc. assert ((c < c)%nat); [|lia]. apply Hn. tauto.
    + intros [= <-]. split_and!; [by exists h, [], dur|naive_solver|done|by left|naive_solver].
    + rewrite He. naive_solver.
    + rewrite Hc. naive_solver.
    + intros Hx. assert (c = n \/ (c < n)%nat); [|lia]. naive_solver.
  - (* refused *) split; simpl; snoc; intros c'; rewrite ?He, ?Hc; naive_solver.
  - (* cancel *) split; simpl; snoc; intros c'.
    + case_bool_decide as Hab; [done|]. intros Ha. destruct (Hr _ Ha). split; [done|]. set_solver.
    + intros Hrun. destruct (Hg _ Hrun) as (Hst & Hel & Ht & Ha & Hsp).
      split_and!; [eapply startedThen_snoc; [done|by left]|done|done| |naive_solver]. case_bool_decide; [|set_solver].
      right. set_solver.
    + rewrite He. naive_solver.
    + rewrite elem_of_union, elem_of_singleton, Hc. naive_solver.
    + intros Hx. assert (c' = c \/ (c' < n)%nat); [|destruct H; subst; lia]. naive_solver.
  - (* expire *) split; simpl; snoc; intros c'.
    + apply Hr.
    + intros Hrun. destruct (Hg _ Hrun) as (Hst & Hel & Ht & Ha & Hsp).
      split_and!; [eapply startedThen_snoc; [done|by right]|done|done|done|]. by intros [?|?].
    + rewrite He. split; [by left|by intros [?|?]].
    + rewrite Hc. split; [by left|by intros [?|?]].
    + intros Hx. apply Hn. clear -Hx. naive_solver.
  - (* elapse *) destruct (Hg c eq_refl) as (Hst & Hel & Ht & Ha & Hsp). split; simpl; snoc; intros c'.
    + case_bool_decide as Hab; [done|]. intros Ha'. destruct (Hr _ Ha'). congruence.
    + done.
    + rewrite elem_of_union, elem_of_singleton, He. naive_solver.
    + rewrite Hc. naive_solver.
    + intros Hx'. destruct (decide (c' = c)) as [->|]; [apply Hn; left; by eapply startedThen_in|]. apply Hn. naive_solver.
  - (* stop *) destruct (Hg c eq_refl) as (Hst & Hel & Ht & Ha & Hsp). split; simpl; snoc; intros c'.
    + intros Ha'. destruct (Hr _ Ha') as [[= ->] ?]. done.
    + done.
    + rewrite He. naive_solver.
    + rewrite Hc. naive_solver.
    + intros Hx'. destruct (decide (c' = c)) as [->|]; [apply Hn; left; by eapply startedThen_in|]. apply Hn. naive_solver.
Qed.

Lemma timerRun_inv h s : timerRun h s -> disciplined h -> timerInv h s.
Proof.
  induction 1 as [|h e s s' Hrun IH Hs]; intros Hd; [apply timerInv_new|].
  pose proof Hd as [Hd' _]%disciplined_snoc. by eapply timerInv_step; [apply IH| |].
Qed.

Lemma timerRun_prefix h1 e h2 s : timerRun (h1 ++ e :: h2) s -> exists s1 s2, timerRun h1 s1 /\ timerStep s1 e s2.
Proof.
  revert s. induction h2 as [|e2 h2 IH] using rev_ind; intros s Hr.
  - inversion Hr as [Heq|h e' s1 s2 H1 H2 Heq]; [by destruct h1|]. apply app_inj_tail in Heq as [-> ->]. by eexists _, _.
  - inversion Hr as [Heq|h e' s1 s2 H1 H2 Heq]; [by destruct h1|].
    rewrite app_comm_cons, app_assoc in Heq. apply app_inj_tail in Heq as [-> ->]. by eapply IH.
Qed.

Lemma disciplined_prefix h1 h2 : disciplined (h1 ++ h2) -> disciplined h1.
Proof.
  induction h2 as [|e h2 IH] using rev_ind; [by rewrite app_nil_r|].
  rewrite app_assoc. intros [Hd _]%disciplined_snoc. by apply IH.
Qed.

(** C34: the timer reports what it was asked for.  In every run of the goroutine with a caller that starts a timer
    only when the one before elapsed or was cancelled: the timer that runs for the caller is the one the goroutine
    waits for; a timer is reported at most once, after it was started and its time then ran out, never after the
    goroutine stopped it, and, if the caller cancelled it, only because it ran out before the goroutine saw that; and
    a start is refused, with the panic that ends the process, only when the timer before was cancelled and the
    goroutine has not yet seen that. *)
Theorem round_timer_faithful h s : timerRun h s -> disciplined h ->
  (forall c, abstractTimer h = Some c -> s.(ts_routine) = Running c) /\
  (forall h1 c h2, h = h1 ++ EElapsed c :: h2 ->
    startedThen h1 c True /\ EElapsed c ∉ h1 /\ EStopped c ∉ h1 /\ (abstractTimer h1 = Some c \/ ECancel c ∈ h1)) /\
  (forall h1 h2, h = h1 ++ ERefused :: h2 ->
    exists c, startedThen h1 c False /\ ECancel c ∈ h1 /\ EStopped c ∉ h1 /\ EElapsed c ∉ h1).
Proof.
  intros Hrun Hd. split; [|split].
  - intros c Hc. by apply (timerRun_inv _ _ Hrun Hd).
  - intros h1 c h2 ->. destruct (timerRun_prefix _ _ _ _ Hrun) as (s1 & s2 & H1 & Hs).
    destruct (timerRun_inv _ _ H1 (disciplined_prefix _ _ Hd)) as [_ Hg He Hc _]. inversion Hs; subst; simpl in *.
    destruct (Hg c eq_refl) as (Hst & Hel & _ & Ha & Hsp). rewrite He in Hel. rewrite Hc in Ha. split_and!; try done.
    destruct Hst as (g1 & g2 & dur & Heq & Hx). exists g1, g2, dur. split; [done|]. intros _. by apply Hx.
  - intros h1 h2 ->. destruct (timerRun_prefix _ _ _ _ Hrun) as (s1 & s2 & H1 & Hs).
    pose proof (disciplined_prefix _ _ Hd) as Hd1.
    assert (Hnone : abstractTimer h1 = None).
    { rewrite cons_middle, app_assoc in Hd. apply disciplined_prefix in Hd. by apply disciplined_snoc in Hd as [_ ?]. }
    destruct (timerRun_inv _ _ H1 Hd1) as [_ Hg He Hc _]. inversion Hs; subst; simpl in *.
    destruct (Hg c eq_refl) as (Hst & Hel & _ & Ha & Hsp). rewrite He in Hel. rewrite Hc in Ha.
    exists c. split_and!; try done; [|destruct Ha; [congruence|done]].
    destruct Hst as (g1 & g2 & dur & Heq & Hx). by exists g1, g2, dur.
Qed.

(** The refusal is reachable: cancel and start again before the goroutine gets to its select. *)
Definition cancelThenStart : list TEvent := [EStart 0 (5 * second); ECancel 0; ERefused].

Lemma cancelThenStart_run : exists s, timerRun cancelThenStart s /\ s.(ts_routine) = Crashed.
Proof.
  eexists. split.
  - eapply (timerRun_step [EStart 0 _; ECancel 0] ERefused).
    + eapply (timerRun_step [EStart 0 _] (ECancel 0)).
      * eapply (timerRun_step [] (EStart 0 _)); [apply timerRun_new|apply ts_start].
      * apply ts_cancel; [done|lia].
    + apply ts_refused.
  - done.
Qed.

Lemma cancelThenStart_disciplined : disciplined cancelThenStart.
Proof.
  apply (disciplined_refused [EStart 0 _; ECancel 0]); [|reflexivity].
  apply (disciplined_other [EStart 0 _] (ECancel 0)); [|exact I].
  apply (disciplined_start []); [constructor|reflexivity].
Qed.

Lemma round_timer_faithful_witness : exists c, ECancel c ∈ [EStart 0 (5 * second); ECancel 0] /\
  EStopped c ∉ [EStart 0 (5 * second); ECancel 0].
Proof.
  destruct cancelThenStart_run as (s & Hrun & _).
  destruct (round_timer_faithful _ _ Hrun cancelThenStart_disciplined) as (_ & _ & Href).
  destruct (Href [EStart 0 (5 * second); ECancel 0] [] eq_refl) as (c & _ & Hc & Hs & _). exists c. split; [exact Hc|exact Hs].
Defined.
