(* ===== verification/Registry.v ===== *)
(** The registry of public key types (gcrypto/registry.go) and the two key types that register themselves
    (gcrypto/ed25519.go, gcrypto/gblsminsig/bls.go).

    A reflect.Type is identified by the TypeName its values report.  What a byte slice has in its array beyond its
    length, up to its capacity, matters where the code slices past the end: it is a second argument there. *)
From S2P Require Import Prelude.
From S2P Require Import Types.
Local Open Scope Z_scope.

Definition prefixSize : nat := 8.

(** NewPubKeyFunc: the key of some bytes, or an error. *)
Definition NewPubKeyFunc : Type := bytes -> result PubKey.

Record Registry := MkRegistry { byType : gomap bytes; byPrefix : gomap NewPubKeyFunc }.

(** new(Registry). *)
Definition Registry_zero : Registry := MkRegistry None None.

(** The assignments make a nil map first, so they do not panic. *)
Definition putMap {V} (k : bytes) (v : V) (m : gomap V) : gomap V := Some (<[k := v]> (gm_map m)).

Definition Register (name : bytes) (instType : bytes) (newFn : NewPubKeyFunc) (r : Registry) : Registry :=
  MkRegistry (putMap instType name r.(byType)) (putMap name newFn r.(byPrefix)).

(** ** Bytes *)
Definition NUL : ascii := Ascii.zero.

Fixpoint zeros (n : nat) : bytes := match n with O => EmptyString | S n => String NUL (zeros n) end.

(** copy into an array of [n] zero bytes. *)
Fixpoint copyInto (n : nat) (b : bytes) : bytes :=
  match n, b with
  | O, _ => EmptyString
  | S n, String c b => String c (copyInto n b)
  | S n, EmptyString => zeros (S n)
  end.

(** bytes.TrimRight with a cutset of the NUL byte. *)
Fixpoint trimRight (b : bytes) : bytes :=
  match b with
  | EmptyString => EmptyString
  | String c b =>
      match trimRight b with
      | EmptyString => if Ascii.eqb c NUL then EmptyString else String c EmptyString
      | t => String c t
      end
  end.

(** b[:n] and b[n:]. *)
Fixpoint splitAt (n : nat) (b : bytes) : option (bytes * bytes) :=
  match n, b with
  | O, _ => Some (EmptyString, b)
  | S n, String c b => '(h, t) ← splitAt n b; Some (String c h, t)
  | S n, EmptyString => None
  end.

Definition Marshal (pubKey : PubKey) (r : Registry) : outcome bytes :=
  match gm_get r.(byType) pubKey.(pk_TypeName) with
  | None => Panic "BUG: attempted to Marshal a public key that was never registered"
  | Some prefix => Ret (copyInto prefixSize prefix +:+ pubKey.(pk_PubKeyBytes))
  end.

(** b[:prefixSize] may reach into [spare], the bytes of the array of [b] beyond its length; b[prefixSize:] ends
    at the length. *)
Definition Unmarshal (b spare : bytes) (r : Registry) : outcome (result PubKey) :=
  match splitAt prefixSize (b +:+ spare) with
  | None => Panic "runtime error: slice bounds out of range"
  | Some (header, _) =>
      match gm_get r.(byPrefix) (trimRight header) with
      | None => Ret (Err (ErrOther "no registered public key type for prefix"))
      | Some fn =>
          match splitAt prefixSize b with
          | None => Panic "runtime error: slice bounds out of range"
          | Some (_, rest) => Ret (fn rest)
          end
      end
  end.

(** The array encoding/json allocates for a byte slice has three bytes for each four of its base64 text, which
    is padded; those that are not decoded to are zero. *)
Definition base64Spare (b : bytes) : bytes := zeros ((3 - String.length b mod 3) mod 3).

Definition Decode (typeName b : bytes) (r : Registry) : result PubKey :=
  match gm_get r.(byPrefix) typeName with
  | None => Err (ErrOther "no registered public key type for name")
  | Some fn => fn b
  end.

(** ** The registered key types *)
Definition ed25519TypeName : bytes := "ed25519".
Definition NewEd25519PubKey (b : bytes) : result PubKey := Ok (MkPubKey ed25519TypeName b).
Definition RegisterEd25519 (r : Registry) : Registry := Register ed25519TypeName ed25519TypeName NewEd25519PubKey r.

Section bls.
(** Uncompressing and validating a point is done by the pairing library; a valid point compresses to the bytes
    it came from. *)
Context (validPoint : bytes -> bool).

Definition keyTypeName : bytes := "bls-minsig".
Definition NewBLSPubKey (b : bytes) : result PubKey :=
  if negb (String.length b =? 96)%nat then Err (ErrOther "expected 96 compressed bytes")
  else if validPoint b then Ok (MkPubKey keyTypeName b) else Err (ErrOther "input key failed validation").
Definition RegisterBLS (r : Registry) : Registry := Register keyTypeName keyTypeName NewBLSPubKey r.
End bls.

(** * Round trips *)

(** A name that the fixed prefix holds and that comes back out of it. *)
Definition fitsPrefix (name : bytes) : Prop := (String.length name <= prefixSize)%nat /\ trimRight name = name.

Lemma copyInto_length n b : String.length (copyInto n b) = n.
Proof.
  revert b. induction n as [|n IH]; intros b; [done|]. destruct b as [|c b]; simpl.
  - clear IH. f_equal. induction n as [|n IH]; simpl; [done|]. by rewrite IH.
  - by rewrite IH.
Qed.

Lemma splitAt_app h t : splitAt (String.length h) (h +:+ t) = Some (h, t).
Proof. induction h as [|c h IH]; simpl; [done|]. by rewrite IH. Qed.

Lemma splitAt_None n b : splitAt n b = None <-> (String.length b < n)%nat.
Proof.
  revert b. induction n as [|n IH]; intros b; simpl; [split; [done|lia]|]. destruct b as [|c b]; simpl; [split; [lia|done]|].
  destruct (splitAt n b) as [[h t]|] eqn:E; simpl.
  - split; [done|]. intros Hl. assert (splitAt n b = None) by (apply IH; lia). congruence.
  - split; [|done]. intros _. apply IH in E. lia.
Qed.

Lemma trimRight_zeros n : trimRight (zeros n) = EmptyString.
Proof. induction n as [|n IH]; simpl; [done|]. by rewrite IH. Qed.

(** The prefix of a name that does not fit is the name cut to its first bytes. *)
Lemma trimRight_copyInto n b : (String.length b <= n)%nat -> trimRight (copyInto n b) = trimRight b.
Proof.
  revert b. induction n as [|n IH]; intros b Hl; [by destruct b; [|simpl in Hl; lia]|].
  destruct b as [|c b]; simpl in *; [by rewrite trimRight_zeros|]. by rewrite IH by lia.
Qed.

Lemma Unmarshal_Marshal r k name b : gm_get r.(byType) k.(pk_TypeName) = Some name -> Marshal k r = Ret b ->
  forall spare, Unmarshal b spare r = Ret (match gm_get r.(byPrefix) (trimRight (copyInto prefixSize name)) with
                       | Some fn => fn k.(pk_PubKeyBytes)
                       | None => Err (ErrOther "no registered public key type for prefix")
                       end).
Proof.
  unfold Marshal. intros -> Hb spare. assert (b = copyInto prefixSize name +:+ k.(pk_PubKeyBytes)) as -> by congruence.
  unfold Unmarshal.
  pose proof (fun t => splitAt_app (copyInto prefixSize name) t) as Hs. rewrite copyInto_length in Hs.
  rewrite append_assoc, !Hs. by destruct (gm_get _ _).
Qed.

(** A key the registry can write and read again. *)
Definition registered (r : Registry) (k : PubKey) : Prop :=
  exists name fn, gm_get r.(byType) k.(pk_TypeName) = Some name /\ gm_get r.(byPrefix) name = Some fn /\
    fitsPrefix name /\ fn k.(pk_PubKeyBytes) = Ok k.

Lemma registered_roundtrip r k : registered r k -> exists b, Marshal k r = Ret b /\
  forall spare, Unmarshal b spare r = Ret (Ok k).
Proof.
  intros (name & fn & Ht & Hp & [Hl Htrim] & Hfn). assert (Hm : exists b, Marshal k r = Ret b).
  { unfold Marshal. rewrite Ht. by eexists. }
  destruct Hm as [b Hm]. exists b. split; [done|]. intros spare. rewrite (Unmarshal_Marshal _ _ _ _ Ht Hm).
  by rewrite trimRight_copyInto, Htrim, Hp, Hfn by done.
Qed.

Lemma ed25519_registered r b : registered (RegisterEd25519 r) (MkPubKey ed25519TypeName b).
Proof.
  exists ed25519TypeName, NewEd25519PubKey. unfold gm_get, RegisterEd25519, Register. simpl.
  rewrite !lookup_insert_eq. repeat split; vm_compute; lia.
Qed.

(** When unmarshalling panics: with fewer than eight bytes in the array, or with fewer in the slice and the
    name of a registered type in the first eight of the array. *)
Lemma Unmarshal_panics b spare r : (exists msg, Unmarshal b spare r = Panic msg) <->
  (String.length b + String.length spare < 8)%nat \/
  (String.length b < 8)%nat /\ exists header rest, splitAt 8 (b +:+ spare) = Some (header, rest) /\
    is_Some (gm_get r.(byPrefix) (trimRight header)).
Proof.
  rewrite <- append_length, <- !splitAt_None. unfold Unmarshal, prefixSize.
  destruct (splitAt 8 (b +:+ spare)) as [[h t]|] eqn:E; [|split; [by left|intros _; by eexists]].
  destruct (gm_get (byPrefix r) (trimRight h)) as [fn|] eqn:Ef.
  - destruct (splitAt 8 b) as [[h' t']|]; split; [intros [msg [=]]|naive_solver|intros _; right|intros _; by eexists].
    split; [done|]. exists h, t. split; [done|]. by rewrite Ef.
  - split; [intros [msg [=]]|]. intros [|(_ & h1 & t1 & [= <- <-] & [fn Hfn])]; [done|congruence].
Qed.

(** BLS keys never come back.  With both key types registered, on top of whatever other names were registered
    before but for the first eight bytes of the name of the BLS keys: an ed25519 key is unmarshalled from its
    marshalled bytes, while every marshalled BLS key is refused, since it is written with the type name cut to
    eight bytes; whatever the arrays hold beyond the slices. *)
Theorem registry_loses_bls_keys (validPoint : bytes -> bool) (r : Registry) :
  gm_get r.(byPrefix) "bls-mins" = None ->
  let r' := RegisterBLS validPoint (RegisterEd25519 r) in
  (forall b, exists m, Marshal (MkPubKey ed25519TypeName b) r' = Ret m /\
    forall spare, Unmarshal m spare r' = Ret (Ok (MkPubKey ed25519TypeName b))) /\
  (forall b, exists m, Marshal (MkPubKey keyTypeName b) r' = Ret m /\
    forall spare, Unmarshal m spare r' = Ret (Err (ErrOther "no registered public key type for prefix"))).
Proof.
  intros Hfree r'. split.
  - intros b. apply registered_roundtrip. exists ed25519TypeName, NewEd25519PubKey. unfold gm_get. simpl.
    split_and!; [by rewrite lookup_insert_ne, lookup_insert_eq..| |done]. split; vm_compute; [lia|done].
  - intros b. assert (Ht : gm_get r'.(byType) keyTypeName = Some keyTypeName) by (unfold gm_get; simpl; apply lookup_insert_eq).
    eexists. split; [unfold Marshal; cbn [pk_TypeName]; rewrite Ht; reflexivity|]. intros spare.
    rewrite (Unmarshal_Marshal r' (MkPubKey keyTypeName b) keyTypeName _ Ht); [|unfold Marshal; cbn [pk_TypeName]; by rewrite Ht].
    change (trimRight (copyInto prefixSize keyTypeName)) with ("bls-mins" : bytes).
    unfold gm_get in *. simpl. by rewrite !lookup_insert_ne, Hfree.
Qed.

Lemma registry_loses_bls_keys_witness :
  exists m, Marshal (MkPubKey keyTypeName "point") (RegisterBLS (fun _ => true) (RegisterEd25519 Registry_zero)) = Ret m /\
    Unmarshal m EmptyString (RegisterBLS (fun _ => true) (RegisterEd25519 Registry_zero)) =
    Ret (Err (ErrOther "no registered public key type for prefix")).
Proof.
  destruct (registry_loses_bls_keys (fun _ => true) Registry_zero eq_refl) as (_ & Hb).
  destruct (Hb "point") as (m & Hm & Hu). exists m. split; [exact Hm|exact (Hu EmptyString)].
Defined.
