(* ===== verification/Codec.v ===== *)
(** The JSON codec of the consensus messages (tm/tmcodec/tmjson/json.go, codec.go): the structs that are written
    as JSON, the translations from and to the tmconsensus values, and the methods of MarshalCodec.

    encoding/json is an interface (JSON): what it writes for one of these structs it reads back.  A byte slice
    field is an option where the code tests it for nil.  The order in which a map is iterated is an argument, and so
    is what the array of a byte slice that was read holds beyond it. *)
From S2P Require Import Prelude.
From S2P Require Import Types.
From S2P Require Import VoteSummary.
From S2P Require Import RoundView.
From S2P Require Import Registry.
Local Open Scope Z_scope.

(** json.Marshal and json.Unmarshal at a type whose exported fields hold all of a value; its numbers are in the
    range of their Go types. *)
Class JSON (Text A : Type) := {
  json_Marshal : A -> Text;
  json_Unmarshal : Text -> result A;
  json_roundtrip a : json_Unmarshal (json_Marshal a) = Ok a
}.

(** * The JSON structs *)

Record jsonProofEntry := MkProofEntry { jpe_BlockHash : bytes; jpe_Signatures : list SparseSignature }.

Record jsonCommitProof := MkJCommitProof {
  jcp_Round : Z; jcp_PubKeyHash : option bytes; jcp_Commits : list jsonProofEntry
}.

Record jsonValidator := MkJValidator { jv_PubKey : bytes; jv_Power : Z }.

Record jsonValidatorSet := MkJValidatorSet {
  jvs_Validators : list jsonValidator; jvs_PubKeyHash : bytes; jvs_VotePowerHash : bytes
}.

Record jsonHeader := MkJHeader {
  jh_Hash : bytes; jh_PrevBlockHash : bytes; jh_Height : Z; jh_PrevCommitProof : jsonCommitProof;
  jh_ValidatorSet : jsonValidatorSet; jh_NextValidatorSet : jsonValidatorSet;
  jh_DataID : bytes; jh_PrevAppStateHash : bytes; jh_UserAnnotation : bytes; jh_DriverAnnotation : bytes
}.

Record jsonProposedHeader := MkJProposedHeader {
  jph_Header : jsonHeader; jph_Round : Z; jph_ProposerPubKey : option bytes; jph_Signature : bytes;
  jph_UserAnnotation : bytes; jph_DriverAnnotation : bytes
}.

Record jsonCommittedHeader := MkJCommittedHeader { jch_Header : jsonHeader; jch_Proof : jsonCommitProof }.

Record jsonSparseProof := MkJSparseProof {
  jsp_Height : Z; jsp_Round : Z; jsp_PubKeyHash : bytes; jsp_Proofs : list jsonProofEntry
}.

(** Each field is raw JSON, or absent. *)
Record jsonConsensusMessage (Text : Type) := MkJMessage {
  jcm_ProposedHeader : option Text; jcm_PrevoteProof : option Text; jcm_PrecommitProof : option Text
}.
Arguments MkJMessage {Text}.
Arguments jcm_ProposedHeader {Text}.
Arguments jcm_PrevoteProof {Text}.
Arguments jcm_PrecommitProof {Text}.

(** tmcodec.ConsensusMessage. *)
Record ConsensusMessage := MkMessage {
  cm_ProposedHeader : option ProposedHeader;
  cm_PrevoteProof : option PrevoteSparseProof;
  cm_PrecommitProof : option PrecommitSparseProof
}.

(** A call that may panic, followed by the rest when it returns no error. *)
Definition orFail {A B} (wrap : error -> error) (m : outcome (result A)) (f : A -> outcome (result B)) : outcome (result B) :=
  match m with
  | Panic msg => Panic msg
  | Ret (Err e) => Ret (Err (wrap e))
  | Ret (Ok a) => f a
  end.

(** The iteration order of a Go map: any order of its entries. *)
Definition Order : Type := gmap bytes (list SparseSignature) -> list (bytes * list SparseSignature).
Definition isOrder (ord : Order) : Prop := forall m, ord m ≡ₚ map_to_list m.

Section translate.
Context (reg : Registry) (ord : Order).

(** * Writing *)

Definition entries (m : gomap (list SparseSignature)) : list jsonProofEntry :=
  map (fun e => MkProofEntry e.1 e.2) (ord (gm_map m)).

Definition toJSONCommitProof (p : CommitProof) : jsonCommitProof :=
  MkJCommitProof p.(cp_Round) (Some p.(cp_PubKeyHash)) (entries p.(cp_Proofs)).

Definition toJSONValidator (v : Validator) : outcome jsonValidator :=
  pubKeyBytes ← Marshal v.(val_PubKey) reg; Ret (MkJValidator pubKeyBytes v.(val_Power)).

Fixpoint toJSONValidators (vs : list Validator) : outcome (list jsonValidator) :=
  match vs with
  | [] => Ret []
  | v :: vs => jv ← toJSONValidator v; jvs ← toJSONValidators vs; Ret (jv :: jvs)
  end.

Definition toJSONHeader (b : Header) : outcome jsonHeader :=
  jValidators ← toJSONValidators b.(hd_ValidatorSet).(Validators);
  jNextValidators ← toJSONValidators b.(NextValidatorSet).(Validators);
  Ret (MkJHeader b.(Hash) b.(PrevBlockHash) b.(Height) (toJSONCommitProof b.(PrevCommitProof))
         (MkJValidatorSet jValidators b.(hd_ValidatorSet).(PubKeyHash) b.(hd_ValidatorSet).(VotePowerHash))
         (MkJValidatorSet jNextValidators b.(NextValidatorSet).(PubKeyHash) b.(NextValidatorSet).(VotePowerHash))
         b.(DataID) b.(PrevAppStateHash) b.(hd_Annotations).(ann_User) b.(hd_Annotations).(ann_Driver)).

Definition toJSONProposedHeader (ph : ProposedHeader) : outcome jsonProposedHeader :=
  jh ← toJSONHeader ph.(ph_Header);
  key ← match ph.(ph_ProposerPubKey) with
        | None => Ret None
        | Some k => b ← Marshal k reg; Ret (Some b)
        end;
  Ret (MkJProposedHeader jh ph.(ph_Round) key ph.(ph_Signature) ph.(ph_Annotations).(ann_User) ph.(ph_Annotations).(ann_Driver)).

Definition toJSONCommittedHeader (ch : CommittedHeader) : outcome jsonCommittedHeader :=
  jh ← toJSONHeader ch.(ch_Header); Ret (MkJCommittedHeader jh (toJSONCommitProof ch.(ch_Proof))).

(** * Reading *)

(** What the arrays of the byte slices that encoding/json read hold beyond them. *)
Context (spare : bytes -> bytes).

(** The loop that fills a Proofs map: a later entry for a hash overwrites an earlier one. *)
Definition readEntries (l : list jsonProofEntry) : gmap bytes (list SparseSignature) :=
  foldl (fun m e => <[e.(jpe_BlockHash) := e.(jpe_Signatures)]> m) ∅ l.

Definition ToCommitProof (jcp : jsonCommitProof) : CommitProof :=
  MkCommitProof jcp.(jcp_Round) (default nilHash jcp.(jcp_PubKeyHash)) (Some (readEntries jcp.(jcp_Commits))).

Definition ToValidator (jv : jsonValidator) : outcome (result Validator) :=
  orFail (ErrWrap "failed to unmarshal public key") (Unmarshal jv.(jv_PubKey) (spare jv.(jv_PubKey)) reg)
    (fun pubKey => Ret (Ok (MkValidator pubKey jv.(jv_Power)))).

Fixpoint ToValidators (msg : string) (jvs : list jsonValidator) : outcome (result (list Validator)) :=
  match jvs with
  | [] => Ret (Ok [])
  | jv :: jvs => orFail (ErrWrap msg) (ToValidator jv) (fun v => orFail id (ToValidators msg jvs) (fun vs => Ret (Ok (v :: vs))))
  end.

Definition ToHeader (jh : jsonHeader) : outcome (result Header) :=
  orFail id (ToValidators "failed to unmarshal to validator" jh.(jh_ValidatorSet).(jvs_Validators)) (fun validators =>
  orFail id (ToValidators "failed to unmarshal to NextValidator" jh.(jh_NextValidatorSet).(jvs_Validators)) (fun nextValidators =>
  let proof := match jh.(jh_PrevCommitProof).(jcp_PubKeyHash) with
               | None => CommitProof_zero
               | Some _ => ToCommitProof jh.(jh_PrevCommitProof)
               end in
  Ret (Ok (MkHeader jh.(jh_Hash) jh.(jh_PrevBlockHash) jh.(jh_Height) proof
             (MkValidatorSet validators jh.(jh_ValidatorSet).(jvs_PubKeyHash) jh.(jh_ValidatorSet).(jvs_VotePowerHash))
             (MkValidatorSet nextValidators jh.(jh_NextValidatorSet).(jvs_PubKeyHash) jh.(jh_NextValidatorSet).(jvs_VotePowerHash))
             jh.(jh_DataID) jh.(jh_PrevAppStateHash) (MkAnnotations jh.(jh_UserAnnotation) jh.(jh_DriverAnnotation)))))).

Definition ToProposedHeader (jph : jsonProposedHeader) : outcome (result ProposedHeader) :=
  orFail (ErrWrap "failed to unmarshal proposed header") (ToHeader jph.(jph_Header)) (fun h =>
  orFail (ErrWrap "failed to unmarshal proposer pubkey")
    match jph.(jph_ProposerPubKey) with
    | None => Ret (Ok None)
    | Some b => orFail id (Unmarshal b (spare b) reg) (fun k => Ret (Ok (Some k)))
    end (fun pubKey =>
  Ret (Ok (MkProposedHeader h jph.(jph_Round) pubKey (MkAnnotations jph.(jph_UserAnnotation) jph.(jph_DriverAnnotation))
             jph.(jph_Signature))))).

Definition ToCommittedHeader (jch : jsonCommittedHeader) : outcome (result CommittedHeader) :=
  orFail (ErrWrap "failed to unmarshal committed header") (ToHeader jch.(jch_Header)) (fun h =>
  Ret (Ok (MkCommittedHeader h (ToCommitProof jch.(jch_Proof))))).
End translate.

(** The entries of a vote proof are sorted by block hash. *)
Definition entryLe (a b : jsonProofEntry) : Prop := bytesLe a.(jpe_BlockHash) b.(jpe_BlockHash).
#[export] Instance entryLe_dec : RelDecision entryLe.
Proof. intros a b. unfold entryLe, bytesLe. apply _. Defined.
#[export] Instance entryLe_trans : Transitive entryLe.
Proof. intros a b c. unfold entryLe. apply transitivity. Qed.
#[export] Instance entryLe_total : Total entryLe.
Proof.
  intros a b. destruct (decide (entryLe a b)) as [|Hn]; [by left|].
  right. apply bytesLe_ltb. by apply not_false_is_true.
Qed.

(** * MarshalCodec *)
Section codec.
Context {Text : Type} `{!JSON Text jsonHeader, !JSON Text jsonProposedHeader, !JSON Text jsonCommittedHeader,
  !JSON Text jsonSparseProof, !JSON Text (jsonConsensusMessage Text)}.
Context (reg : Registry) (ord : Order) (spare : bytes -> bytes).

Definition MarshalHeader (b : Header) : outcome Text := jh ← toJSONHeader reg ord b; Ret (json_Marshal jh).
Definition UnmarshalHeader (b : Text) : outcome (result Header) := orFail id (Ret (json_Unmarshal b)) (ToHeader reg spare).

Definition MarshalProposedHeader (ph : ProposedHeader) : outcome Text :=
  jph ← toJSONProposedHeader reg ord ph; Ret (json_Marshal jph).
Definition UnmarshalProposedHeader (b : Text) : outcome (result ProposedHeader) :=
  orFail id (Ret (json_Unmarshal b)) (ToProposedHeader reg spare).

Definition MarshalCommittedHeader (ch : CommittedHeader) : outcome Text :=
  jch ← toJSONCommittedHeader reg ord ch; Ret (json_Marshal jch).
Definition UnmarshalCommittedHeader (b : Text) : outcome (result CommittedHeader) :=
  orFail id (Ret (json_Unmarshal b)) (ToCommittedHeader reg spare).

Definition MarshalPrevoteProof (p : PrevoteSparseProof) : Text :=
  json_Marshal (MkJSparseProof p.(pvs_Height) p.(pvs_Round) p.(pvs_PubKeyHash) (merge_sort entryLe (entries ord p.(pvs_Proofs)))).
Definition UnmarshalPrevoteProof (b : Text) : result PrevoteSparseProof :=
  match json_Unmarshal b with
  | Err e => Err e
  | Ok jsp => Ok (MkPrevoteSparse jsp.(jsp_Height) jsp.(jsp_Round) jsp.(jsp_PubKeyHash) (Some (readEntries jsp.(jsp_Proofs))))
  end.

Definition MarshalPrecommitProof (p : PrecommitSparseProof) : Text :=
  json_Marshal (MkJSparseProof p.(pcs_Height) p.(pcs_Round) p.(pcs_PubKeyHash) (merge_sort entryLe (entries ord p.(pcs_Proofs)))).
Definition UnmarshalPrecommitProof (b : Text) : result PrecommitSparseProof :=
  match json_Unmarshal b with
  | Err e => Err e
  | Ok jsp => Ok (MkPrecommitSparse jsp.(jsp_Height) jsp.(jsp_Round) jsp.(jsp_PubKeyHash) (Some (readEntries jsp.(jsp_Proofs))))
  end.

Definition MarshalConsensusMessage (m : ConsensusMessage) : outcome Text :=
  jcm ← match m.(cm_ProposedHeader), m.(cm_PrevoteProof), m.(cm_PrecommitProof) with
        | Some ph, _, _ => b ← MarshalProposedHeader ph; Ret (MkJMessage (Some b) None None)
        | None, Some p, _ => Ret (MkJMessage None (Some (MarshalPrevoteProof p)) None)
        | None, None, Some p => Ret (MkJMessage None None (Some (MarshalPrecommitProof p)))
        | None, None, None => Ret (MkJMessage None None None)
        end;
  Ret (json_Marshal jcm).

(** Into an empty message. *)
Definition UnmarshalConsensusMessage (b : Text) : outcome (result ConsensusMessage) :=
  orFail id (Ret (json_Unmarshal b)) (fun jcm =>
    match jcm.(jcm_ProposedHeader), jcm.(jcm_PrevoteProof), jcm.(jcm_PrecommitProof) with
    | Some b, _, _ => orFail id (UnmarshalProposedHeader b) (fun ph => Ret (Ok (MkMessage (Some ph) None None)))
    | None, Some b, _ => orFail id (Ret (UnmarshalPrevoteProof b)) (fun p => Ret (Ok (MkMessage None (Some p) None)))
    | None, None, Some b => orFail id (Ret (UnmarshalPrecommitProof b)) (fun p => Ret (Ok (MkMessage None None (Some p))))
    | None, None, None => Ret (Ok (MkMessage None None None))
    end).
End codec.

(** * Round trips *)

Definition pairOf (e : jsonProofEntry) : bytes * list SparseSignature := (e.(jpe_BlockHash), e.(jpe_Signatures)).

Lemma readEntries_list l : readEntries l = list_to_map (reverse (map pairOf l)).
Proof.
  unfold readEntries. induction l as [|e l IH] using rev_ind; [done|].
  rewrite foldl_app, map_app, reverse_app. simpl. by rewrite IH.
Qed.

(** Reading any arrangement of the entries of a map gives the map. *)
Lemma readEntries_perm l m : map pairOf l ≡ₚ map_to_list m -> readEntries l = m.
Proof.
  intros Hp. rewrite readEntries_list. symmetry. apply list_to_map_flip. by rewrite reverse_Permutation.
Qed.

Lemma entries_pairs ord m : isOrder ord -> map pairOf (entries ord m) ≡ₚ map_to_list (gm_map m).
Proof.
  intros Ho. unfold entries. rewrite map_map, <- (Ho (gm_map m)). unfold pairOf. simpl.
  rewrite (map_ext _ id); [by rewrite map_id|]. by intros [].
Qed.

Lemma readEntries_entries ord m : isOrder ord -> readEntries (entries ord m) = gm_map m.
Proof. intros Ho. by apply readEntries_perm, entries_pairs. Qed.

Lemma readEntries_sorted ord m : isOrder ord -> readEntries (merge_sort entryLe (entries ord m)) = gm_map m.
Proof. intros Ho. apply readEntries_perm. rewrite merge_sort_Permutation. by apply entries_pairs. Qed.

(** The sorted entries do not depend on the iteration order. *)
Lemma sorted_entries_unique ord ord' m : isOrder ord -> isOrder ord' ->
  merge_sort entryLe (entries ord m) = merge_sort entryLe (entries ord' m).
Proof.
  intros Ho Ho'.
  assert (Hin : forall o, isOrder o -> forall e, e ∈ merge_sort entryLe (entries o m) ->
    gm_map m !! e.(jpe_BlockHash) = Some e.(jpe_Signatures)).
  { intros o Hoo e He. rewrite merge_sort_Permutation in He. apply elem_of_map_to_list.
    rewrite <- (entries_pairs _ _ Hoo). apply (list_elem_of_fmap_2 pairOf), He. }
  apply (StronglySorted_unique_strong entryLe); [|apply StronglySorted_merge_sort; apply _..|].
  - intros [h1 s1] [h2 s2] H1%(Hin _ Ho) H2%(Hin _ Ho') Hle Hge. simpl in *.
    assert (h1 = h2) as -> by (by apply (anti_symm bytesLe)). congruence.
  - rewrite !merge_sort_Permutation. unfold entries. by rewrite (Ho (gm_map m)), (Ho' (gm_map m)).
Qed.

(** What comes back: the same value, with a nil map of proofs replaced by an empty one. *)
Definition wholeProof (p : CommitProof) : CommitProof := {| p with cp_Proofs := Some (gm_map p.(cp_Proofs)) |}.
Definition wholeHeader (h : Header) : Header := {| h with PrevCommitProof := wholeProof h.(PrevCommitProof) |}.
Definition wholeMessage (m : ConsensusMessage) : ConsensusMessage :=
  match m.(cm_ProposedHeader), m.(cm_PrevoteProof), m.(cm_PrecommitProof) with
  | Some ph, _, _ => MkMessage (Some {| ph with ph_Header := wholeHeader ph.(ph_Header) |}) None None
  | None, Some p, _ => MkMessage None (Some {| p with pvs_Proofs := Some (gm_map p.(pvs_Proofs)) |}) None
  | None, None, Some p => MkMessage None None (Some {| p with pcs_Proofs := Some (gm_map p.(pcs_Proofs)) |})
  | None, None, None => m
  end.

(** The keys of a value are of registered types. *)
Definition knownValidators (reg : Registry) (s : ValidatorSet) : Prop :=
  Forall (fun v => registered reg v.(val_PubKey)) s.(Validators).
Definition knownHeader (reg : Registry) (h : Header) : Prop :=
  knownValidators reg h.(hd_ValidatorSet) /\ knownValidators reg h.(NextValidatorSet).
Definition knownMessage (reg : Registry) (m : ConsensusMessage) : Prop :=
  match m.(cm_ProposedHeader) with
  | None => True
  | Some ph => knownHeader reg ph.(ph_Header) /\ match ph.(ph_ProposerPubKey) with None => True | Some k => registered reg k end
  end.

Section roundtrip.
Context (reg : Registry) (ord : Order) (Hord : isOrder ord) (spare : bytes -> bytes).

Lemma ToCommitProof_toJSON p : ToCommitProof (toJSONCommitProof ord p) = wholeProof p.
Proof. unfold ToCommitProof, toJSONCommitProof, wholeProof. simpl. by rewrite readEntries_entries. Qed.

Lemma validators_roundtrip vs : Forall (fun v => registered reg v.(val_PubKey)) vs ->
  exists jvs, toJSONValidators reg vs = Ret jvs /\ forall msg, ToValidators reg spare msg jvs = Ret (Ok vs).
Proof.
  induction 1 as [|v vs Hv _ (jvs & Hm & Hu)]; [by exists []|].
  destruct (registered_roundtrip _ _ Hv) as (b & Hb & Hk). simpl. unfold toJSONValidator. rewrite Hb. simpl. rewrite Hm. simpl.
  eexists. split; [done|]. intros msg. simpl. unfold ToValidator. simpl. rewrite Hk. simpl. rewrite Hu. by destruct v.
Qed.

Lemma header_roundtrip h : knownHeader reg h ->
  exists jh, toJSONHeader reg ord h = Ret jh /\ ToHeader reg spare jh = Ret (Ok (wholeHeader h)).
Proof.
  intros [(jvs & Hm & Hu)%validators_roundtrip (jns & Hn & Hnu)%validators_roundtrip].
  unfold toJSONHeader. rewrite Hm. simpl. rewrite Hn. simpl. eexists. split; [done|].
  unfold ToHeader. simpl. rewrite Hu. simpl. rewrite Hnu. cbn [orFail]. rewrite ToCommitProof_toJSON.
  by destruct h as [? ? ? ? [] [] ? ? []].
Qed.

Lemma proposed_roundtrip ph : knownHeader reg ph.(ph_Header) ->
  match ph.(ph_ProposerPubKey) with None => True | Some k => registered reg k end ->
  exists jph, toJSONProposedHeader reg ord ph = Ret jph /\
    ToProposedHeader reg spare jph = Ret (Ok {| ph with ph_Header := wholeHeader ph.(ph_Header) |}).
Proof.
  intros (jh & Hm & Hu)%header_roundtrip Hk. unfold toJSONProposedHeader. rewrite Hm. simpl.
  destruct ph as [h r [k|] [] sg]; simpl in *.
  - destruct (registered_roundtrip _ _ Hk) as (b & Hb & Hkb). rewrite Hb. simpl. eexists. split; [done|].
    unfold ToProposedHeader. simpl. rewrite Hu. simpl. by rewrite Hkb.
  - eexists. split; [done|]. unfold ToProposedHeader. simpl. by rewrite Hu.
Qed.

Lemma committed_roundtrip ch : knownHeader reg ch.(ch_Header) ->
  exists jch, toJSONCommittedHeader reg ord ch = Ret jch /\
    ToCommittedHeader reg spare jch = Ret (Ok (MkCommittedHeader (wholeHeader ch.(ch_Header)) (wholeProof ch.(ch_Proof)))).
Proof.
  intros (jh & Hm & Hu)%header_roundtrip. unfold toJSONCommittedHeader. rewrite Hm. simpl. eexists. split; [done|].
  unfold ToCommittedHeader. simpl. rewrite Hu. simpl. by rewrite ToCommitProof_toJSON.
Qed.
End roundtrip.

Lemma message_roundtrip {Text : Type} `{!JSON Text jsonProposedHeader, !JSON Text jsonSparseProof, !JSON Text (jsonConsensusMessage Text)}
  (reg : Registry) (ord : Order) m : isOrder ord -> knownMessage reg m ->
  exists t, MarshalConsensusMessage reg ord m = Ret t /\
    forall spare, UnmarshalConsensusMessage reg spare t = Ret (Ok (wholeMessage m)).
Proof.
  intros Hord Hm. unfold MarshalConsensusMessage, UnmarshalConsensusMessage, wholeMessage.
  destruct m as [[ph|] [pv|] [pc|]]; simpl in *;
    try (destruct Hm as [Hh Hk]; destruct (proposed_roundtrip _ _ Hord (fun b => b) _ Hh Hk) as (jph & Hw & _);
         assert (Hr : forall spare, ToProposedHeader reg spare jph = Ret (Ok {| ph with ph_Header := wholeHeader ph.(ph_Header) |}))
           by (intros spare; destruct (proposed_roundtrip _ _ Hord spare _ Hh Hk) as (jph' & Hw' & Hr'); congruence);
         unfold MarshalProposedHeader; rewrite Hw; simpl);
    eexists; (split; [done|]); intros spare; rewrite json_roundtrip; simpl;
    unfold UnmarshalProposedHeader, UnmarshalPrevoteProof, UnmarshalPrecommitProof, MarshalPrevoteProof, MarshalPrecommitProof;
    rewrite ?json_roundtrip; simpl; rewrite ?Hr, ?readEntries_sorted by done; done.
Qed.

(** C32: what the codec writes it reads back, when it knows the keys.  Take a consensus message, a header or a
    committed header all of whose keys, those of the validators and of the proposer, can be registered keys: their
    type is registered under a name of at most eight bytes that does not end in a NUL byte, and the constructor
    registered for it makes the key of its bytes.  (This leaves out the BLS keys of gblsminsig, whose name has ten
    bytes, see registry_loses_bls_keys.  Vote messages have no keys.)  Then, whatever the order in which maps are
    iterated, marshalling it succeeds, and unmarshalling the result, whatever is left in the arrays of the byte
    slices read, gives the value back, up to two things: a nil map of proofs comes back as an empty one, and of a
    message with several fields set only the first, in the order header, prevotes, precommits, comes back.  The text
    of a vote message does not depend on the iteration order. *)
Theorem codec_roundtrip {Text : Type} `{!JSON Text jsonHeader, !JSON Text jsonProposedHeader, !JSON Text jsonCommittedHeader,
  !JSON Text jsonSparseProof, !JSON Text (jsonConsensusMessage Text)} (reg : Registry) (ord : Order) (spare : bytes -> bytes) : isOrder ord ->
  (forall m, knownMessage reg m -> exists t, MarshalConsensusMessage reg ord m = Ret t /\
    UnmarshalConsensusMessage reg spare t = Ret (Ok (wholeMessage m))) /\
  (forall h, knownHeader reg h -> exists t, MarshalHeader reg ord h = Ret t /\ UnmarshalHeader reg spare t = Ret (Ok (wholeHeader h))) /\
  (forall ch, knownHeader reg ch.(ch_Header) -> exists t, MarshalCommittedHeader reg ord ch = Ret t /\
    UnmarshalCommittedHeader reg spare t = Ret (Ok (MkCommittedHeader (wholeHeader ch.(ch_Header)) (wholeProof ch.(ch_Proof))))) /\
  (forall ord' pv pc, isOrder ord' -> MarshalPrevoteProof ord pv = MarshalPrevoteProof ord' pv /\
    MarshalPrecommitProof ord pc = MarshalPrecommitProof ord' pc).
Proof.
  intros Hord. split_and!.
  - intros m Hm. destruct (message_roundtrip reg ord m Hord Hm) as (t & Ht & Hu). by exists t.
  - intros h (jh & Hw & Hr)%(header_roundtrip _ _ Hord spare). unfold MarshalHeader, UnmarshalHeader. rewrite Hw. simpl.
    eexists. split; [done|]. by rewrite json_roundtrip.
  - intros ch (jch & Hw & Hr)%(committed_roundtrip _ _ Hord spare). unfold MarshalCommittedHeader, UnmarshalCommittedHeader.
    rewrite Hw. simpl. eexists. split; [done|]. by rewrite json_roundtrip.
  - intros ord' pv pc Ho. unfold MarshalPrevoteProof, MarshalPrecommitProof.
    by rewrite !(sorted_entries_unique ord ord').
Qed.

(** A concrete text: the structs themselves. *)
Inductive toyText :=
| ToyHeader (jh : jsonHeader)
| ToyProposed (jph : jsonProposedHeader)
| ToyCommitted (jch : jsonCommittedHeader)
| ToySparse (jsp : jsonSparseProof)
| ToyMessage (jcm : jsonConsensusMessage toyText).

Definition toyError {A} : result A := Err (ErrOther "json: cannot unmarshal").

#[local] Instance toyHeaderJSON : JSON toyText jsonHeader :=
  {| json_Marshal := ToyHeader; json_Unmarshal t := match t with ToyHeader a => Ok a | _ => toyError end; json_roundtrip _ := eq_refl |}.
#[local] Instance toyProposedJSON : JSON toyText jsonProposedHeader :=
  {| json_Marshal := ToyProposed; json_Unmarshal t := match t with ToyProposed a => Ok a | _ => toyError end; json_roundtrip _ := eq_refl |}.
#[local] Instance toyCommittedJSON : JSON toyText jsonCommittedHeader :=
  {| json_Marshal := ToyCommitted; json_Unmarshal t := match t with ToyCommitted a => Ok a | _ => toyError end; json_roundtrip _ := eq_refl |}.
#[local] Instance toySparseJSON : JSON toyText jsonSparseProof :=
  {| json_Marshal := ToySparse; json_Unmarshal t := match t with ToySparse a => Ok a | _ => toyError end; json_roundtrip _ := eq_refl |}.
#[local] Instance toyMessageJSON : JSON toyText (jsonConsensusMessage toyText) :=
  {| json_Marshal := ToyMessage; json_Unmarshal t := match t with ToyMessage a => Ok a | _ => toyError end; json_roundtrip _ := eq_refl |}.

Definition toyOrder : Order := map_to_list.

Definition codecHeader : Header :=
  {| Header_zero with Hash := "x"; Height := 1;
     hd_ValidatorSet := MkValidatorSet [MkValidator (MkPubKey ed25519TypeName "a") 1] "h" "p";
     PrevCommitProof := MkCommitProof 0 "h" (Some {["y" := [MkSparseSignature "01" "s"]; "z" := []]}) |}.
Definition codecMessage : ConsensusMessage :=
  MkMessage (Some (MkProposedHeader codecHeader 0 (Some (MkPubKey ed25519TypeName "a")) (MkAnnotations "u" "d") "sig")) None None.

Lemma codec_roundtrip_witness :
  exists t, MarshalConsensusMessage (RegisterEd25519 Registry_zero) toyOrder codecMessage = Ret t /\
    UnmarshalConsensusMessage (RegisterEd25519 Registry_zero) base64Spare t = Ret (Ok (wholeMessage codecMessage)).
Proof.
  refine (proj1 (codec_roundtrip (Text := toyText) (RegisterEd25519 Registry_zero) toyOrder base64Spare (fun m => reflexivity _)) codecMessage _).
  split; [split|].
  - constructor; [exact (ed25519_registered Registry_zero "a")|constructor].
  - constructor.
  - exact (ed25519_registered Registry_zero "a").
Defined.

(** A header is not: its previous commit proof is written in iteration order. *)
Lemma header_text_varies :
  isOrder toyOrder /\ isOrder (fun m => reverse (toyOrder m)) /\
  MarshalHeader (Text := toyText) (RegisterEd25519 Registry_zero) toyOrder codecHeader <>
  MarshalHeader (RegisterEd25519 Registry_zero) (fun m => reverse (toyOrder m)) codecHeader.
Proof.
  split; [by intros m|]. split; [intros m; apply reverse_Permutation|]. vm_compute. discriminate.
Qed.
