(* ===== verification/SigTree.v ===== *)
(** The tree of aggregated keys and signatures (gcrypto/gblsminsig/internal/sigtree/tree.go), in its array layout:
    the leaves first, then layer after layer to the root.

    The points and their arithmetic belong to the pairing library and are an interface (Blst).  Loops that only
    end by the arithmetic of the layout have fuel; the lemmas show that the one given suffices. *)
From S2P Require Import Prelude.
From S2P Require Import Types.
From S2P Require Import BitSets.
Local Open Scope nat_scope.

(** What the code uses of the library: points of keys and of signatures, the zero value of each (the point at
    infinity), addition, compression, validation and verification.  Equals is also called with a nil point. *)
Class Blst (K G : Type) := {
  k_zero : K; g_zero : G;
  k_add : K -> K -> K; g_add : G -> G -> G;
  k_Compress : K -> bytes; k_Uncompress : bytes -> option K;
  g_Compress : G -> bytes; g_Uncompress : bytes -> option G;
  g_SigValidate : G -> bool;
  g_Verify : K -> bytes -> G -> bool;
  g_Equals : option G -> option G -> outcome bool;
  #[global] k_eq_dec :: EqDecision K; #[global] g_eq_dec :: EqDecision G
}.

(** Its documented behaviour: aggregates of signatures verify for aggregates of keys, the point at infinity is
    refused as a key and verifies as no signature, and a message has one signature for a key. *)
Class BlstLaws (K G : Type) `{!Blst K G} := {
  blst_nonzero k m s : g_Verify k m s = true -> k <> k_zero /\ s <> g_zero;
  blst_Verify_add a b m s t : g_Verify a m s = true -> g_Verify b m t = true -> k_add a b <> k_zero ->
    g_Verify (k_add a b) m (g_add s t) = true;
  blst_Validate_add s t : g_SigValidate s = true -> g_SigValidate t = true -> g_SigValidate (g_add s t) = true;
  blst_add_comm s t : g_add s t = g_add t s;
  blst_unique k m s t : g_Verify k m s = true -> g_Verify k m t = true -> s = t;
  blst_Compress s : g_Uncompress (g_Compress s) = Some s;
  blst_key_Compress k : k_Uncompress (k_Compress k) = Some k;
  blst_Equals a b : g_Equals (Some a) (Some b) = Ret (bool_decide (a = b))
}.

(** SetAll of the bit set library, with the size the set was made with. *)
Class BitSetAll (B : Type) := bs_SetAll : nat -> B -> B.
Class BitSetAllLaws (B : Type) `{BitSetLaws B, !BitSetAll B} :=
  bs_elems_SetAll n b : bs_elems (bs_SetAll n b) = set_seq 0 n ∪ bs_elems b.

#[export] Instance gset_BitSetAll : BitSetAll (gset nat) := fun n b => set_seq 0 n ∪ b.
#[export] Instance gset_BitSetAllLaws : BitSetAllLaws (gset nat).
Proof. intros n b. done. Qed.

(** bits.Len16 of a positive number. *)
Definition Len16 (n : nat) : nat := S (Nat.log2 n).

(** The number of leaves: a power of two, by the test the code repeats. *)
Definition leavesWidth (nKeys : nat) : nat :=
  if Nat.land nKeys (nKeys - 1) =? 0 then nKeys else Nat.shiftl 1 (Len16 nKeys).

Record Tree (K G B : Type) := MkTree {
  t_keys : list K; t_sigs : list G; SigBits : B; t_nKeys : nat
}.
Arguments MkTree {K G B}.
Arguments t_keys {K G B}.
Arguments t_sigs {K G B}.
Arguments SigBits {K G B}.
Arguments t_nKeys {K G B}.

Section tree.
Context {K G B : Type} `{!Blst K G, !BitSet B, !BitSetAll B}.
Implicit Types t : Tree K G B.

(** Reading a slice; the code reads within it. *)
Definition keyOf (l : list K) (i : nat) : K := default k_zero (l !! i).
Definition sigOf (l : list G) (i : nat) : G := default g_zero (l !! i).

Definition aggregateKeys (a b : K) : K := if bool_decide (b = k_zero) then a else k_add a b.

(** ** New *)

(** The inner loop: the keys of one layer from those of the layer before it. *)
Definition aggregateLayer (readOffset layerWidth : nat) (keys : list K) : list K :=
  foldl (fun keys j => <[readOffset + layerWidth + j :=
           aggregateKeys (keyOf keys (readOffset + j * 2)) (keyOf keys (readOffset + j * 2 + 1))]> keys)
    keys (seq 0 (Nat.shiftr layerWidth 1)).

(** The outer loop. *)
Fixpoint aggregateLayers (fuel nNodes readOffset layerWidth : nat) (keys : list K) : list K :=
  match fuel with
  | O => keys
  | S fuel =>
      if readOffset <? nNodes
      then aggregateLayers fuel nNodes (readOffset + layerWidth) (Nat.shiftr layerWidth 1)
             (aggregateLayer readOffset layerWidth keys)
      else keys
  end.

(** New, called with as many keys as it is told. *)
Definition NewTree (keys : list K) : outcome (Tree K G B) :=
  let nKeys := length keys in
  if (nKeys <? 1) || (65535 <? nKeys)
  then Panic "BUG: nKeys must be > 1 and < 65535"
  else
    let nNodes := 2 * leavesWidth nKeys - 1 in
    Ret (MkTree (aggregateLayers (S nNodes) nNodes 0 (leavesWidth nKeys) (keys ++ replicate (nNodes - nKeys) k_zero))
           (replicate nNodes g_zero) (bs_New nKeys) nKeys).

(** Index of the first key equal to [k]; None stands for -1. *)
Fixpoint indexOf (i : nat) (l : list K) (k : K) : option nat :=
  match l with
  | [] => None
  | tk :: l => if bool_decide (tk = k) then Some i else indexOf (S i) l k
  end.
Definition Index t (k : K) : option nat := indexOf 0 t.(t_keys) k.

(** The key and the signature at an index; None when it is out of range. *)
Definition Get t (idx : nat) : option (K * G) :=
  if idx <? length t.(t_keys) then Some (keyOf t.(t_keys) idx, sigOf t.(t_sigs) idx) else None.

(** ** AddSignature *)

(** The loop that finds the layer of an index: where it starts, its width, the leaves under each of its nodes. *)
Fixpoint findLayer (fuel idx layerStart layerWidth nLeaves : nat) : nat * nat * nat :=
  match fuel with
  | O => (layerStart, layerWidth, nLeaves)
  | S fuel =>
      if layerStart + layerWidth <=? idx
      then findLayer fuel idx (layerStart + layerWidth) (Nat.shiftr layerWidth 1) (Nat.shiftl nLeaves 1)
      else (layerStart, layerWidth, nLeaves)
  end.

(** Setting the bits from [i] below [e]. *)
Definition setRange (i e : nat) (b : B) : B := foldl (fun b j => bs_Set j b) b (seq i (e - i)).

(** The body that AGAIN labels; [addedSigBits] tells whether the bits were set. *)
Fixpoint addLoop (fuel idx : nat) (sig : G) (addedSigBits : bool) t : Tree K G B :=
  match fuel with
  | O => t
  | S fuel =>
      let t := {| t with t_sigs := <[idx := sig]> t.(t_sigs) |} in
      if idx =? length t.(t_sigs) - 1 then {| t with SigBits := bs_SetAll t.(t_nKeys) t.(SigBits) |}
      else
        let '(layerStart, layerWidth, nLeaves) := findLayer (S idx) idx 0 (leavesWidth t.(t_nKeys)) 1 in
        let offset := idx - layerStart in
        let t := if addedSigBits then t
                 else let startLeaf := offset * nLeaves in
                      {| t with SigBits := setRange startLeaf (Nat.min (startLeaf + nLeaves) t.(t_nKeys)) t.(SigBits) |} in
        let parentIdx := layerStart + layerWidth + offset / 2 in
        if negb (bool_decide (sigOf t.(t_sigs) parentIdx = g_zero)) then t
        else
          let neighbor := if Nat.even idx then idx + 1 else idx - 1 in
          if negb (bool_decide (keyOf t.(t_keys) neighbor = k_zero)) then
            let neighborSig := sigOf t.(t_sigs) neighbor in
            if bool_decide (neighborSig = g_zero) then t
            else addLoop fuel parentIdx (g_add sig neighborSig) true t
          else addLoop fuel parentIdx sig true t
  end.

Definition AddSignature (idx : nat) (sig : G) t : outcome (Tree K G B) :=
  if idx <? length t.(t_sigs) then Ret (addLoop (length t.(t_sigs)) idx sig false t)
  else Panic "runtime error: index out of range".

(** ** SparseIndices *)

Definition skipped (skipCheck : list bool) (i : nat) : bool := default false (skipCheck !! i).

(** One row: the nodes with a signature that no ancestor covers. *)
Definition sparseRow t (rowStart rowWidth : nat) (acc : list nat * list bool) : list nat * list bool :=
  foldl (fun acc i =>
    let '(dst, skipCheck) := acc in
    if skipped skipCheck (i - rowStart) then acc
    else if bool_decide (sigOf t.(t_sigs) i = g_zero) then acc
    else (dst ++ [i], <[i - rowStart := true]> skipCheck)) acc (seq rowStart rowWidth).

(** The marks of the next row, set from the last one down. *)
Definition doubleSkip (rowWidth : nat) (skipCheck : list bool) : list bool :=
  foldl (fun s i => let s := <[2 * i + 1 := skipped s i]> s in <[2 * i := skipped s i]> s) skipCheck (reverse (seq 0 rowWidth)).

(** The row of the leaves. *)
Definition sparseLeaves t (dst : list nat) (skipCheck : list bool) : list nat :=
  foldl (fun dst i =>
    if skipped skipCheck i then dst
    else if bool_decide (sigOf t.(t_sigs) i = g_zero) then dst
    else dst ++ [i]) dst (seq 0 t.(t_nKeys)).

(** The rows between the root and the leaves; the last one starts at the width of the leaves. *)
Fixpoint sparseRows (fuel : nat) t (rowStart rowWidth : nat) (acc : list nat * list bool) : list nat * list bool :=
  match fuel with
  | O => acc
  | S fuel =>
      if 0 <? rowStart then
        let '(dst, skipCheck) := sparseRow t rowStart rowWidth acc in
        sparseRows fuel t (rowStart - rowWidth * 2) (rowWidth * 2) (dst, doubleSkip rowWidth skipCheck)
      else acc
  end.

Definition SparseIndices t : list nat :=
  let n := length t.(t_sigs) in
  if negb (bool_decide (sigOf t.(t_sigs) (n - 1) = g_zero)) then [n - 1]
  else
    let '(dst, skipCheck) := sparseRows n t (n - 3) 2 ([], replicate (leavesWidth t.(t_nKeys)) false) in
    sparseLeaves t dst skipCheck.

(** ** Copies *)

(** ClearSignatures leaves the bits. *)
Definition ClearSignatures t : Tree K G B := {| t with t_sigs := replicate (length t.(t_sigs)) g_zero |}.

(** Clone shares nothing that is mutated, so it is the value itself; Derive keeps the keys. *)
Definition Clone t : Tree K G B := t.
Definition Derive t : Tree K G B :=
  MkTree t.(t_keys) (replicate (length t.(t_keys)) g_zero) (bs_New t.(t_nKeys)) t.(t_nKeys).
End tree.
