(* ===== verification/SigTreeLayout.v ===== *)
(** The array layout of the signature tree: layers and offsets against indices, and the aggregated keys New
    computes. *)
From S2P Require Import Prelude.
From S2P Require Import Types.
From S2P Require Import BitSets.
From S2P Require Import SigTree.
Local Open Scope nat_scope.

(** * Powers of two *)

Lemma pow2_pos n : 0 < 2 ^ n.
Proof. apply Nat.neq_0_lt_0, Nat.pow_nonzero. lia. Qed.

Lemma pow2_S n : 2 ^ S n = 2 * 2 ^ n.
Proof. apply Nat.pow_succ_r'. Qed.

Lemma pow2_half k d : k < d -> 2 ^ (d - k) = 2 * 2 ^ (d - S k).
Proof. intros Hk. replace (d - k) with (S (d - S k)) by lia. apply pow2_S. Qed.

Lemma shiftr_half k d : k < d -> Nat.shiftr (2 ^ (d - k)) 1 = 2 ^ (d - S k).
Proof.
  intros Hk. rewrite Nat.shiftr_div_pow2, (pow2_half _ _ Hk), (Nat.mul_comm 2). change (2 ^ 1) with 2. by apply Nat.div_mul.
Qed.

Lemma shiftl_double k : Nat.shiftl (2 ^ k) 1 = 2 ^ S k.
Proof. rewrite Nat.shiftl_mul_pow2, (pow2_S k). change (2 ^ 1) with 2. lia. Qed.

(** The test for a power of two. *)
Lemma land_pred_pow2 n : 0 < n -> Nat.land n (n - 1) = 0 -> n = 2 ^ Nat.log2 n.
Proof.
  intros Hn Hland. pose proof (Nat.log2_spec n Hn) as [Hlo Hhi].
  destruct (Nat.eq_dec n (2 ^ Nat.log2 n)) as [|Hne]; [done|]. exfalso.
  pose proof (pow2_pos (Nat.log2 n)) as Hp.
  assert (Hlog : Nat.log2 (n - 1) = Nat.log2 n) by (apply Nat.log2_unique; lia).
  assert (Hbit : Nat.testbit (Nat.land n (n - 1)) (Nat.log2 n) = true).
  { rewrite Nat.land_spec, Nat.bit_log2 by lia. rewrite <- Hlog. apply Nat.bit_log2. lia. }
  by rewrite Hland, Nat.bits_0 in Hbit.
Qed.

Lemma leavesWidth_spec n : 0 < n -> exists d, leavesWidth n = 2 ^ d /\ n <= 2 ^ d.
Proof.
  intros Hn. unfold leavesWidth. destruct (Nat.eqb_spec (Nat.land n (n - 1)) 0) as [Hz|].
  - exists (Nat.log2 n). pose proof (land_pred_pow2 n Hn Hz). lia.
  - exists (Len16 n). rewrite Nat.shiftl_1_l. split; [done|]. apply Nat.lt_le_incl, Nat.log2_spec, Hn.
Qed.

(** * Nodes

    [d] is the layer of the root; layer [l] has [2 ^ (d - l)] nodes. *)
Section layout.
Context (d : nat).

Fixpoint layerStart (l : nat) : nat := match l with O => 0 | S l => layerStart l + 2 ^ (d - l) end.
Definition node (l o : nat) : nat := layerStart l + o.
Definition valid (l o : nat) : Prop := l <= d /\ o < 2 ^ (d - l).
Definition nNodes : nat := 2 ^ S d - 1.

Lemma layerStart_sum l : l <= d -> layerStart l + 2 * 2 ^ (d - l) = 2 ^ S d.
Proof.
  induction l as [|l IH]; intros Hl; [by rewrite Nat.sub_0_r, pow2_S|]. simpl layerStart.
  rewrite <- (pow2_half l d) by lia. specialize (IH ltac:(lia)). lia.
Qed.

Lemma layerStart_mono l k : l < k -> layerStart l + 2 ^ (d - l) <= layerStart k.
Proof. intros Hlk. induction Hlk as [|k Hlk IH]; [done|]. simpl. lia. Qed.

Lemma layerStart_ge l : l <= layerStart l.
Proof. induction l as [|l IH]; [done|]. simpl. pose proof (pow2_pos (d - l)). lia. Qed.

Lemma node_root : node d 0 = nNodes - 1.
Proof. pose proof (layerStart_sum d). rewrite Nat.sub_diag in H. unfold node, nNodes. simpl in *. lia. Qed.

Lemma node_lt l o : valid l o -> node l o < nNodes.
Proof.
  intros [Hl Ho]. pose proof (layerStart_sum l Hl). pose proof (pow2_pos (d - l)). unfold node, nNodes. lia.
Qed.

Lemma node_inj l o l' o' : valid l o -> valid l' o' -> node l o = node l' o' -> l = l' /\ o = o'.
Proof.
  intros [Hl Ho] [Hl' Ho'] Heq. unfold node in Heq.
  destruct (Nat.lt_total l l') as [Hlt|[->|Hlt]]; [pose proof (layerStart_mono _ _ Hlt); lia|lia|].
  pose proof (layerStart_mono _ _ Hlt). lia.
Qed.

Lemma node_exists idx : idx < nNodes -> exists l o, valid l o /\ idx = node l o.
Proof.
  intros Hidx. assert (Hk : forall k, k <= d -> idx < layerStart k + 2 ^ (d - k) -> exists l o, valid l o /\ idx = node l o).
  { induction k as [|k IH]; intros Hk Hlt.
    - exists 0, idx. unfold node. simpl in *. split; [|done]. split; lia.
    - destruct (Nat.lt_ge_cases idx (layerStart (S k))) as [Hs|Hs]; [apply IH; simpl in *; lia|].
      exists (S k), (idx - layerStart (S k)). split; [split; lia|]. unfold node. lia. }
  apply (Hk d); [done|]. pose proof node_root as Hr. unfold node in Hr. rewrite Nat.sub_diag. simpl (2 ^ 0).
  unfold nNodes in *. pose proof (pow2_pos d). rewrite pow2_S in *. lia.
Qed.

Lemma node_is_root l o : valid l o -> node l o = nNodes - 1 <-> l = d.
Proof.
  intros Hv. rewrite <- node_root. split; [intros [-> _]%node_inj; [done|done|]|].
  - split; [done|apply pow2_pos].
  - intros ->. destruct Hv as [_ Ho]. rewrite Nat.sub_diag in Ho. simpl in Ho. f_equal. lia.
Qed.

Lemma node_even l o : l <= d -> Nat.even (node l o) = Nat.even o.
Proof.
  intros Hl. pose proof (layerStart_sum l Hl) as Hs. rewrite pow2_S in Hs. unfold node.
  replace (layerStart l) with (2 * (2 ^ d - 2 ^ (d - l))) by lia. by rewrite Nat.even_add, Nat.even_mul; destruct (Nat.even o).
Qed.

Lemma valid_parent l o : l < d -> valid l o -> valid (S l) (o / 2).
Proof.
  intros Hl [_ Ho]. split; [done|]. rewrite (pow2_half l d Hl) in Ho. apply Nat.Div0.div_lt_upper_bound. lia.
Qed.

Lemma valid_children l o : valid (S l) o -> valid l (2 * o) /\ valid l (2 * o + 1).
Proof. intros [Hl Ho]. pose proof (pow2_half l d Hl). split; split; lia. Qed.

Lemma findLayer_spec fuel l o k : valid l o -> k <= l -> l - k < fuel ->
  findLayer fuel (node l o) (layerStart k) (2 ^ (d - k)) (2 ^ k) = (layerStart l, 2 ^ (d - l), 2 ^ l).
Proof.
  intros Hv. revert k. induction fuel as [|fuel IH]; intros k Hk Hf; [lia|]. cbn [findLayer].
  destruct Hv as [Hl Ho]. destruct (decide (k = l)) as [->|Hne].
  - destruct (Nat.leb_spec (layerStart l + 2 ^ (d - l)) (node l o)); [unfold node in *; lia|done].
  - assert (Hlt : k < l) by lia. pose proof (layerStart_mono k l Hlt).
    destruct (Nat.leb_spec (layerStart k + 2 ^ (d - k)) (node l o)); [|unfold node in *; lia].
    rewrite shiftr_half, shiftl_double by lia. apply (IH (S k)); lia.
Qed.
End layout.

(** * The keys of a new tree *)
Section keys.
Context {K G B : Type} `{!Blst K G, !BitSet B, !BitSetAll B}.

(** The key of node [o] of layer [l]: the aggregate of the leaf keys under it, pairwise. *)
Fixpoint aggKey (leaves : list K) (l o : nat) : K :=
  match l with
  | O => keyOf leaves o
  | S l => aggregateKeys (aggKey leaves l (2 * o)) (aggKey leaves l (2 * o + 1))
  end.

(** A list of keys laid out as the tree of [leaves], up to some layer. *)
Definition layersDone (leaves : list K) (d k : nat) (keys : list K) : Prop :=
  length keys = nNodes d /\ forall l o, l <= k -> valid d l o -> keyOf keys (node d l o) = aggKey leaves l o.

Lemma keyOf_insert (keys : list K) i j x : i < length keys -> keyOf (<[i := x]> keys) j = if decide (j = i) then x else keyOf keys j.
Proof.
  intros Hi. unfold keyOf. case_decide as Hj; [by subst; rewrite list_lookup_insert_eq|by rewrite list_lookup_insert_ne].
Qed.

Lemma aggregateLayer_done leaves d k keys : k < d -> layersDone leaves d k keys ->
  layersDone leaves d (S k) (aggregateLayer (layerStart d k) (2 ^ (d - k)) keys).
Proof.
  intros Hk [Hlen Hdone]. unfold aggregateLayer. rewrite shiftr_half by done.
  assert (Hm : forall m, m <= 2 ^ (d - S k) ->
    let keys' := foldl (fun keys j => <[layerStart d k + 2 ^ (d - k) + j :=
           aggregateKeys (keyOf keys (layerStart d k + j * 2)) (keyOf keys (layerStart d k + j * 2 + 1))]> keys) keys (seq 0 m) in
    layersDone leaves d k keys' /\ forall o, o < m -> keyOf keys' (node d (S k) o) = aggKey leaves (S k) o).
  { induction m as [|m IH]; intros Hm; [split; [done|lia]|]. destruct (IH ltac:(lia)) as [[Hl Hd] Ho]. clear IH.
    rewrite seq_S, foldl_app, Nat.add_0_l. cbn [foldl]. set (keys' := foldl _ _ _) in *.
    assert (Hv : valid d (S k) m) by (split; lia). pose proof (node_lt d _ _ Hv) as Hlt.
    destruct (valid_children d k m Hv) as [Hv1 Hv2].
    change (layerStart d k + 2 ^ (d - k) + m) with (node d (S k) m). split; [split|].
    - by rewrite length_insert.
    - intros l o Hle Hvo. rewrite keyOf_insert by lia. case_decide as Heq; [|by apply Hd].
      apply (node_inj d) in Heq as [-> _]; [lia|done|done].
    - intros o Hom. rewrite keyOf_insert by lia. case_decide as Heq.
      + apply (node_inj d) in Heq as [_ ->]; [|split; lia|done]. cbn [aggKey].
        rewrite <- (Hd k (2 * m)), <- (Hd k (2 * m + 1)) by done. unfold node. f_equal; f_equal; lia.
      + apply Ho. destruct (decide (o = m)) as [->|]; [done|lia]. }
  destruct (Hm (2 ^ (d - S k)) ltac:(done)) as [[Hl Hd] Ho]. split; [done|].
  intros l o Hle Hv. destruct (decide (l = S k)) as [->|]; [|apply Hd; [lia|done]]. apply Ho, Hv.
Qed.

Lemma aggregateLayers_done leaves d fuel k keys : k <= d -> d - k < fuel -> layersDone leaves d k keys ->
  layersDone leaves d d (aggregateLayers fuel (nNodes d) (layerStart d k) (2 ^ (d - k)) keys).
Proof.
  revert k keys. induction fuel as [|fuel IH]; intros k keys Hk Hf Hdone; [lia|]. cbn [aggregateLayers].
  pose proof (layerStart_sum d k Hk) as Hs. pose proof (pow2_pos (d - k)).
  destruct (Nat.ltb_spec (layerStart d k) (nNodes d)); [|unfold nNodes in *; lia].
  destruct (decide (k = d)) as [->|Hne].
  - rewrite Nat.sub_diag in *. change (2 ^ 0) with 1 in *. change (Nat.shiftr 1 1) with 0.
    change (aggregateLayer (layerStart d d) 1 keys) with keys. destruct fuel as [|fuel]; [done|]. cbn [aggregateLayers].
    destruct (Nat.ltb_spec (layerStart d d + 1) (nNodes d)); [unfold nNodes in *; lia|done].
  - rewrite shiftr_half by lia. apply (IH (S k)); [lia|lia|]. apply aggregateLayer_done; [lia|done].
Qed.

(** What New makes of at least one and at most 65535 keys. *)
Lemma NewTree_spec (leaves : list K) (t : Tree K G B) : NewTree leaves = Ret t ->
  exists d, leavesWidth (length leaves) = 2 ^ d /\ 0 < length leaves <= 2 ^ d /\ t.(t_nKeys) = length leaves /\
    layersDone leaves d d t.(t_keys) /\ t.(t_sigs) = replicate (nNodes d) g_zero /\ t.(SigBits) = bs_New (length leaves).
Proof.
  unfold NewTree. destruct (_ || _) eqn:Hrange; [discriminate|]. intros Ht.
  apply orb_false_iff in Hrange as [Hmin%Nat.ltb_ge _].
  destruct (leavesWidth_spec (length leaves)) as (d & Hd & Hle); [lia|]. exists d. rewrite Hd in Ht.
  replace (2 * 2 ^ d - 1) with (nNodes d) in Ht by (unfold nNodes; by rewrite pow2_S).
  assert (Hn : 2 ^ d <= nNodes d) by (unfold nNodes; rewrite pow2_S; pose proof (pow2_pos d); lia).
  assert (Hfirst : layersDone leaves d 0 (leaves ++ replicate (nNodes d - length leaves) k_zero)).
  { split; [rewrite length_app, length_replicate; lia|]. intros l o Hl [_ Ho]. assert (l = 0) as -> by lia.
    unfold node. simpl. rewrite Nat.sub_0_r in Ho. unfold keyOf. destruct (decide (o < length leaves)).
    - by rewrite lookup_app_l.
    - rewrite lookup_app_r, lookup_replicate_2 by lia. by rewrite lookup_ge_None_2 by lia. }
  pose proof (aggregateLayers_done leaves d (S (nNodes d)) 0 _ ltac:(lia) ltac:(unfold nNodes; pose proof (Nat.pow_gt_lin_r 2 (S d)); lia) Hfirst) as Hall.
  rewrite Nat.sub_0_r in Hall. injection Ht as <-.
  exact (conj Hd (conj (conj Hmin Hle) (conj eq_refl (conj Hall (conj eq_refl eq_refl))))).
Qed.
End keys.
