(* ===== verification/SigTreeProofs.v ===== *)
(** What the operations of the signature tree preserve: the stored signatures verify for the aggregated keys of
    their nodes, the bits are the leaves below them, and complete pairs are aggregated; and what SparseIndices
    selects. *)
From S2P Require Import Prelude.
From S2P Require Import Types.
From S2P Require Import BitSets.
From S2P Require Import SigTree.
From S2P Require Import SigTreeLayout.
Local Open Scope nat_scope.

Lemma div_pow2_S i l : i / 2 ^ S l = i / 2 ^ l / 2.
Proof. rewrite Nat.Div0.div_div, pow2_S. f_equal. lia. Qed.

Lemma div_pow2_spec i l o : i / 2 ^ l = o <-> o * 2 ^ l <= i < (o + 1) * 2 ^ l.
Proof.
  pose proof (pow2_pos l). split.
  - intros <-. pose proof (Nat.div_mod i (2 ^ l)). pose proof (Nat.mod_upper_bound i (2 ^ l)). lia.
  - intros Hi. symmetry. apply (Nat.div_unique _ _ _ (i - o * 2 ^ l)); lia.
Qed.

Lemma half_cases o : Nat.even o = true /\ o = 2 * (o / 2) \/ Nat.even o = false /\ o = 2 * (o / 2) + 1.
Proof.
  pose proof (Nat.div_mod o 2). destruct (Nat.even o) eqn:E.
  - left. split; [done|]. apply Nat.even_spec in E as [k ->]. rewrite (Nat.mul_comm 2 k), Nat.div_mul; lia.
  - right. split; [done|]. rewrite <- Nat.negb_odd, negb_false_iff in E. apply Nat.odd_spec in E as [k ->].
    rewrite (Nat.mul_comm 2 k), Nat.div_add_l by lia. simpl. lia.
Qed.

Section tree.
Context {K G B : Type} `{!Blst K G, !BlstLaws K G, BitSetLaws B, !BitSetAll B, !BitSetAllLaws B}.
Implicit Types t : Tree K G B.

(** A signature of a key over a message, as PubKey.Verify accepts it. *)
Definition signed (msg : bytes) (k : K) (s : G) : Prop := g_SigValidate s = true /\ g_Verify k msg s = true.

(** The keys of the tree: no aggregate of actual keys cancels out. *)
Definition proper (leaves : list K) : Prop := forall l o, o * 2 ^ l < length leaves -> aggKey leaves l o <> k_zero.

Lemma aggKey_padding leaves l o : length leaves <= o * 2 ^ l -> aggKey leaves l o = k_zero.
Proof.
  revert o. induction l as [|l IH]; intros o Ho; cbn [aggKey].
  - unfold keyOf. rewrite lookup_ge_None_2; [done|]. simpl in Ho. lia.
  - rewrite pow2_S in Ho. rewrite !IH by lia. unfold aggregateKeys. by rewrite bool_decide_eq_true_2.
Qed.

Lemma Index_spec t k idx : Index t k = Some idx -> t.(t_keys) !! idx = Some k.
Proof.
  unfold Index. assert (Hi : forall l i, indexOf i l k = Some idx -> i <= idx /\ l !! (idx - i) = Some k).
  { induction l as [|tk l IH]; intros i; simpl; [done|]. case_bool_decide as Hk.
    - intros [= ->]. rewrite Nat.sub_diag. subst. split; [lia|done].
    - intros Hl%IH. destruct Hl as [Hle Hl]. split; [lia|]. by replace (idx - i) with (S (idx - S i)) by lia. }
  intros Hl%Hi. rewrite Nat.sub_0_r in Hl. apply Hl.
Qed.

Section fixed.
Context (leaves : list K) (d : nat) (msg : bytes) (Hproper : proper leaves).

Lemma aggKey_zero l o : aggKey leaves l o = k_zero <-> length leaves <= o * 2 ^ l.
Proof.
  split; [|apply aggKey_padding]. intros Hz. destruct (Nat.lt_ge_cases (o * 2 ^ l) (length leaves)) as [Hlt|]; [|done].
  by apply Hproper in Hlt.
Qed.

Definition hasSig t (l o : nat) : Prop := sigOf t.(t_sigs) (node d l o) <> g_zero.
Definition covered t (i : nat) : Prop := exists l, l <= d /\ hasSig t l (i / 2 ^ l).

(** The static part. *)
Record shaped t : Prop := {
  sh_n : t.(t_nKeys) = length leaves;
  sh_width : leavesWidth (length leaves) = 2 ^ d;
  sh_le : 0 < length leaves <= 2 ^ d;
  sh_keys : layersDone leaves d d t.(t_keys);
  sh_sigs : length t.(t_sigs) = nNodes d
}.

(** A node whose children are complete has a signature. *)
Definition closedAt t (l o : nat) : Prop :=
  hasSig t l (2 * o) -> aggKey leaves l (2 * o + 1) = k_zero \/ hasSig t l (2 * o + 1) -> hasSig t (S l) o.

Record backed t : Prop := {
  bk_shaped : shaped t;
  bk_signed l o : valid d l o -> hasSig t l o -> signed msg (aggKey leaves l o) (sigOf t.(t_sigs) (node d l o));
  bk_bits i : i ∈ bs_elems t.(SigBits) <-> i < length leaves /\ covered t i
}.

Definition complete t : Prop := forall l o, valid d (S l) o -> closedAt t l o.

Lemma signed_nonzero k s : signed msg k s -> k <> k_zero /\ s <> g_zero.
Proof. intros [_ Hv]. by eapply blst_nonzero. Qed.

Lemma signed_add a b s s' : signed msg a s -> signed msg b s' -> k_add a b <> k_zero -> signed msg (k_add a b) (g_add s s').
Proof. intros [Ha Hva] [Hb Hvb] Hne. split; [by apply blst_Validate_add|by apply blst_Verify_add]. Qed.

Lemma shaped_key t l o : shaped t -> valid d l o -> keyOf t.(t_keys) (node d l o) = aggKey leaves l o.
Proof. intros [_ _ _ [_ Hk] _] Hv. apply Hk; [apply Hv|done]. Qed.

(** The nodes of a tree in which one more signature is stored. *)
Lemma hasSig_insert t l o sig l' o' : shaped t -> valid d l o -> valid d l' o' -> sig <> g_zero ->
  hasSig {| t with t_sigs := <[node d l o := sig]> t.(t_sigs) |} l' o' <-> hasSig t l' o' \/ (l' = l /\ o' = o).
Proof.
  intros Hs Hv Hv' Hsig. unfold hasSig, sigOf. simpl. pose proof (node_lt d _ _ Hv). pose proof (sh_sigs _ Hs).
  destruct (decide (node d l' o' = node d l o)) as [Heq|Hne].
  - rewrite Heq, list_lookup_insert_eq by lia. apply (node_inj d) in Heq; [|done..]. naive_solver.
  - rewrite list_lookup_insert_ne by done. split; [by left|]. intros [?|[-> ->]]; done.
Qed.

Lemma elem_of_setRange i e (b : B) j : j ∈ bs_elems (setRange i e b) <-> j ∈ bs_elems b \/ i <= j < e.
Proof.
  unfold setRange. assert (Hn : forall n b, j ∈ bs_elems (foldl (fun b j => bs_Set j b) b (seq i n)) <-> j ∈ bs_elems b \/ i <= j < i + n).
  { induction n as [|n IH]; intros b'; [simpl; split; [by left|intros [?|?]; [done|lia]]|].
    rewrite seq_S, foldl_app. cbn [foldl]. rewrite bs_elems_Set, elem_of_union, elem_of_singleton, IH. intuition lia. }
  rewrite Hn. intuition lia.
Qed.
(** ** AddSignature *)

Definition store t l o sig (b : B) : Tree K G B :=
  MkTree t.(t_keys) (<[node d l o := sig]> t.(t_sigs)) b t.(t_nKeys).

(** The bits of a set and those of the leaves under a node. *)
Definition withBlock (b b' : B) l o : Prop :=
  forall i, i ∈ bs_elems b' <-> i ∈ bs_elems b \/ i < length leaves /\ i / 2 ^ l = o.

Lemma hasSig_store t l o sig b l' o' : shaped t -> valid d l o -> valid d l' o' -> sig <> g_zero ->
  hasSig (store t l o sig b) l' o' <-> hasSig t l' o' \/ (l' = l /\ o' = o).
Proof. apply hasSig_insert. Qed.

Lemma store_shaped t l o sig b : shaped t -> shaped (store t l o sig b).
Proof. intros []. split; simpl; try done. by rewrite length_insert. Qed.

(** A leaf is under a node of every layer. *)
Lemma valid_above t i l : shaped t -> i < length leaves -> l <= d -> valid d l (i / 2 ^ l).
Proof.
  intros Hs Hi Hl. split; [done|]. apply Nat.Div0.div_lt_upper_bound. rewrite <- Nat.pow_add_r.
  replace (l + (d - l)) with d by lia. pose proof (sh_le _ Hs). lia.
Qed.

Lemma store_backed t l o sig b : backed t -> valid d l o -> signed msg (aggKey leaves l o) sig ->
  withBlock t.(SigBits) b l o -> backed (store t l o sig b).
Proof.
  intros [Hs Hsg Hb] Hv Hsig Hblock. destruct (signed_nonzero _ _ Hsig) as [_ Hne]. split.
  - by apply store_shaped.
  - intros l' o' Hv' [Hh|[-> ->]]%(hasSig_store t l o sig b); [|unfold store; simpl|done..].
    + unfold store, sigOf. simpl. destruct (decide (node d l' o' = node d l o)) as [Heq|Hn].
      * apply (node_inj d) in Heq as [-> ->]; [|done..].
        rewrite list_lookup_insert_eq; [done|]. rewrite (sh_sigs _ Hs). by apply node_lt.
      * rewrite list_lookup_insert_ne by done. by apply Hsg.
    + unfold sigOf. rewrite list_lookup_insert_eq; [done|]. rewrite (sh_sigs _ Hs). by apply node_lt.
  - intros i. simpl. rewrite (Hblock i), Hb. split.
    + intros [[Hi (k & Hk & Hh)]|[Hi Ho]]; (split; [done|]).
      * exists k. split; [done|]. apply hasSig_store; [done|done|by eapply valid_above|done|by left].
      * exists l. split; [apply Hv|]. rewrite Ho. apply hasSig_store; try done. by right.
    + intros [Hi (k & Hk & Hh)]. apply hasSig_store in Hh; [|done|done|by eapply valid_above|done].
      destruct Hh as [Hh|[-> Ho]]; [left|by right]. split; [done|]. by exists k.
Qed.

(** Every complete pair but the one of node [l], [o] is aggregated. *)
Definition completeBut t l o : Prop := forall l' o', valid d (S l') o' -> ~ (S l' = l /\ o' = o) -> closedAt t l' o'.

Lemma store_completeBut t l o sig b : shaped t -> completeBut t l o -> valid d l o -> sig <> g_zero ->
  completeBut (store t l o sig b) (S l) (o / 2).
Proof.
  intros Hs Hc Hv Hne l' o' Hv' Hnot. destruct (valid_children d l' o' Hv') as [Hv1 Hv2]. unfold closedAt.
  rewrite !hasSig_store by done. destruct (decide (S l' = l /\ o' = o)) as [[<- ->]|Hother]; [tauto|].
  assert (H2 : forall k, k = 2 * o' \/ k = 2 * o' + 1 -> ~ (l' = l /\ k = o)).
  { intros k Hk [-> ->]. apply Hnot. split; [done|]. pose proof (half_cases o). lia. }
  intros [Hl|[-> Heq]]; [|by destruct (H2 (2 * o') (or_introl eq_refl))].
  intros Hr. left. apply (Hc l' o' Hv' Hother Hl). destruct Hr as [?|[?|[-> Heq]]]; [by left|by right|].
  by destruct (H2 (2 * o' + 1) (or_intror eq_refl)).
Qed.

(** The last step of AddSignature for a node that is not the root: nothing to aggregate, or the parent has it. *)
Lemma completeBut_parent t l o : completeBut t (S l) o -> (valid d (S l) o -> closedAt t l o) -> complete t.
Proof.
  intros Hc Hp l' o' Hv. destruct (decide (S l' = S l /\ o' = o)) as [[[= ->] ->]|Hne]; [by apply Hp|by apply Hc].
Qed.

(** What a call of the loop promises. *)
Record added t t' l o : Prop := {
  ad_backed : backed t';
  ad_complete : complete t';
  ad_bits : withBlock t.(SigBits) t'.(SigBits) l o;
  ad_mono l' o' : valid d l' o' -> hasSig t l' o' -> hasSig t' l' o'
}.
Lemma root_added t sig : backed t -> completeBut t d 0 -> signed msg (aggKey leaves d 0) sig ->
  added t (store t d 0 sig (bs_SetAll t.(t_nKeys) t.(SigBits))) d 0.
Proof.
  intros Hb Hc Hsig. destruct (signed_nonzero _ _ Hsig) as [_ Hne]. pose proof (bk_shaped _ Hb) as Hs.
  assert (Hv : valid d d 0) by (split; [done|apply pow2_pos]).
  assert (Hblock : withBlock t.(SigBits) (bs_SetAll t.(t_nKeys) t.(SigBits)) d 0).
  { intros i. rewrite bs_elems_SetAll, elem_of_union, elem_of_set_seq, (sh_n _ Hs). pose proof (sh_le _ Hs).
    split; [intros [Hi|?]; [right|by left]|intros [?|[? _]]; [by right|left; lia]].
    split; [lia|]. apply Nat.div_small. lia. }
  split; [by apply store_backed| |done|intros; apply hasSig_store; auto].
  apply (completeBut_parent _ d (0 / 2)); [by apply store_completeBut|]. intros [Hl _]. lia.
Qed.

Definition blockBits t l o : B := setRange (o * 2 ^ l) (Nat.min (o * 2 ^ l + 2 ^ l) t.(t_nKeys)) t.(SigBits).

Lemma blockBits_spec t l o : shaped t -> withBlock t.(SigBits) (blockBits t l o) l o.
Proof. intros Hs i. unfold blockBits. rewrite elem_of_setRange, div_pow2_spec, (sh_n _ Hs). intuition lia. Qed.

(** One pass of the loop below the root. *)
Lemma addLoop_step fuel l o sig seen t : l < d -> valid d l o -> shaped t ->
  addLoop (S fuel) (node d l o) sig seen t =
  let t1 := store t l o sig (if seen then t.(SigBits) else blockBits t l o) in
  let sibling := if Nat.even o then o + 1 else o - 1 in
  if negb (bool_decide (sigOf t1.(t_sigs) (node d (S l) (o / 2)) = g_zero)) then t1
  else if negb (bool_decide (aggKey leaves l sibling = k_zero)) then
    if bool_decide (sigOf t1.(t_sigs) (node d l sibling) = g_zero) then t1
    else addLoop fuel (node d (S l) (o / 2)) (g_add sig (sigOf t1.(t_sigs) (node d l sibling))) true t1
  else addLoop fuel (node d (S l) (o / 2)) sig true t1.
Proof.
  intros Hl Hv Hs. cbn [addLoop t_sigs t_keys t_nKeys SigBits]. rewrite length_insert, (sh_sigs _ Hs).
  destruct (Nat.eqb_spec (node d l o) (nNodes d - 1)) as [Hr|_]; [apply (node_is_root d l o Hv) in Hr; lia|].
  rewrite (sh_n _ Hs), (sh_width _ Hs) at 1.
  pose proof (findLayer_spec d (S (node d l o)) l o 0 Hv) as Hf. simpl layerStart in Hf. rewrite !Nat.sub_0_r in Hf.
  change (2 ^ 0) with 1 in Hf. rewrite Hf; [|lia|]; [|pose proof (layerStart_ge d l); destruct Hv; unfold node; lia].
  assert (Hoff : node d l o - layerStart d l = o) by (unfold node; lia). rewrite Hoff.
  change (layerStart d l + 2 ^ (d - l) + o / 2) with (node d (S l) (o / 2)).
  assert (Hsib : (if Nat.even (node d l o) then node d l o + 1 else node d l o - 1) =
    node d l (if Nat.even o then o + 1 else o - 1) /\ valid d l (if Nat.even o then o + 1 else o - 1)).
  { rewrite node_even by apply Hv. destruct Hv as [_ Ho]. pose proof (pow2_half l d Hl).
    destruct (half_cases o) as [[-> He]|[-> He]]; unfold node, valid; split; try split; lia. }
  destruct Hsib as [Hsib Hvs]. rewrite Hsib. rewrite <- (shaped_key t l _ Hs Hvs). unfold store, blockBits. by destruct seen.
Qed.
(** The sibling of a node with an actual key, and the key of their parent. *)
Lemma sibling_spec l o k : l < d -> valid d l o -> k = (if Nat.even o then o + 1 else o - 1) ->
  aggKey leaves l o <> k_zero ->
  valid d l k /\ k <> o /\ (forall i, i / 2 ^ S l = o / 2 <-> i / 2 ^ l = o \/ i / 2 ^ l = k) /\
  (aggKey leaves l k = k_zero -> Nat.even o = true /\ aggKey leaves (S l) (o / 2) = aggKey leaves l o) /\
  (forall s s', aggKey leaves l k <> k_zero -> signed msg (aggKey leaves l o) s -> signed msg (aggKey leaves l k) s' ->
    signed msg (aggKey leaves (S l) (o / 2)) (g_add s s')).
Proof.
  intros Hl Hv -> Hkey. pose proof (pow2_half l d Hl) as Hp. destruct Hv as [Hld Ho].
  assert (Hpar : aggKey leaves (S l) (o / 2) <> k_zero).
  { rewrite aggKey_zero in *. rewrite pow2_S. destruct (half_cases o) as [[_ He]|[_ He]]; nia. }
  destruct (half_cases o) as [[-> He]|[-> He]]; cbn [aggKey] in *; rewrite <- He in *.
  - replace (2 * (o / 2) + 1) with (o + 1) in * by lia. split_and!; [split; lia|lia| | |].
    + intros i. rewrite div_pow2_S. pose proof (half_cases (i / 2 ^ l)). lia.
    + intros Hz. split; [done|]. unfold aggregateKeys. by rewrite bool_decide_eq_true_2.
    + intros s s' Hk Hs Hs'. unfold aggregateKeys in *. rewrite bool_decide_eq_false_2 in * by done. by apply signed_add.
  - replace (o - 1) with (2 * (o / 2)) in * by lia. split_and!; [split; lia|lia| | |].
    + intros i. rewrite div_pow2_S. pose proof (half_cases (i / 2 ^ l)). lia.
    + intros Hz. rewrite aggKey_zero in *. nia.
    + intros s s' Hk Hs Hs'. unfold aggregateKeys in *. rewrite bool_decide_eq_false_2 in * by done.
      rewrite blst_add_comm. by apply signed_add.
Qed.

(** The pass for the parent sets no new bits. *)
Lemma added_absorb t t1 t' l o : backed t1 -> withBlock t.(SigBits) t1.(SigBits) l o ->
  (forall l' o', valid d l' o' -> hasSig t l' o' -> hasSig t1 l' o') ->
  (forall i, i < length leaves -> i / 2 ^ S l = o / 2 -> i ∈ bs_elems t1.(SigBits)) ->
  added t1 t' (S l) (o / 2) -> added t t' l o.
Proof.
  intros Hb1 Hblock Hmono Hold [Hb Hc Hbits Hm]. split; [done|done| |auto].
  intros i. rewrite (Hbits i), (Hblock i). split; [|tauto]. intros [?|[Hi Ho]]; [done|]. apply (Hblock i). by apply Hold.
Qed.

Lemma addLoop_added fuel l o sig seen t : d - l < fuel -> valid d l o -> backed t -> completeBut t l o ->
  signed msg (aggKey leaves l o) sig -> (seen = true -> forall i, i < length leaves -> i / 2 ^ l = o -> i ∈ bs_elems t.(SigBits)) ->
  added t (addLoop fuel (node d l o) sig seen t) l o.
Proof.
  revert l o sig seen t. induction fuel as [|fuel IH]; intros l o sig seen t Hf Hv Hb Hc Hsig Hseen; [lia|].
  pose proof (bk_shaped _ Hb) as Hs. destruct (signed_nonzero _ _ Hsig) as [Hkey Hne].
  destruct (decide (l = d)) as [->|Hl].
  { assert (o = 0) as -> by (destruct Hv as [_ Ho]; rewrite Nat.sub_diag in Ho; simpl in Ho; lia).
    cbn [addLoop t_sigs t_keys t_nKeys SigBits]. rewrite length_insert, (sh_sigs _ Hs), node_root, Nat.eqb_refl. rewrite <- node_root. by apply root_added. }
  assert (Hld : l < d) by (destruct Hv; lia). rewrite (addLoop_step _ _ _ _ _ _ Hld Hv Hs). cbv zeta.
  set (b := if seen then _ else _). set (t1 := store t l o sig b).
  assert (Hblock : withBlock t.(SigBits) b l o).
  { subst b. destruct seen; [|by apply blockBits_spec]. intros i. split; [by left|]. intros [?|[? ?]]; auto. }
  assert (Hb1 : backed t1) by (by apply store_backed).
  assert (Hc1 : completeBut t1 (S l) (o / 2)) by (by apply store_completeBut).
  assert (Hmono : forall l' o', valid d l' o' -> hasSig t l' o' -> hasSig t1 l' o') by (intros; apply hasSig_store; auto).
  assert (Hdone : (valid d (S l) (o / 2) -> closedAt t1 l (o / 2)) -> added t t1 l o).
  { intros Hp. split; [done|by eapply completeBut_parent|done|done]. }
  pose proof (valid_parent d l o Hld Hv) as Hvp.
  case_bool_decide as Hparent; simpl; [|apply Hdone; by intros _ _ _].
  destruct (sibling_spec l o _ Hld Hv eq_refl Hkey) as (Hvk & Hko & Hleaves & Hpad & Hpair).
  set (k := if Nat.even o then o + 1 else o - 1) in *.
  case_bool_decide as Hk; simpl.
  - destruct (Hpad Hk) as [_ Hsame]. apply aggKey_zero in Hk.
    assert (Hold : forall i, i < length leaves -> i / 2 ^ S l = o / 2 -> i ∈ bs_elems b).
    { intros i Hi [Ho|Ho%div_pow2_spec]%Hleaves; [|lia]. apply (Hblock i). by right. }
    apply (added_absorb t t1); [done..|]. apply IH; [lia|done|done|done|by rewrite Hsame|by intros _].
  - case_bool_decide as Hsk.
    + apply Hdone. intros _ Hleft Hright. exfalso. destruct (half_cases o) as [[He Ho]|[He Ho]]; unfold k in *; rewrite He in *.
      * replace (2 * (o / 2) + 1) with (o + 1) in Hright by lia. by destruct Hright.
      * by replace (2 * (o / 2)) with (o - 1) in Hleft by lia.
    + assert (Hold : forall i, i < length leaves -> i / 2 ^ S l = o / 2 -> i ∈ bs_elems b).
      { intros i Hi [Ho|Ho]%Hleaves; [apply (Hblock i); by right|]. apply (bk_bits _ Hb1). split; [done|].
        exists l. rewrite Ho. split; [lia|done]. }
      apply (added_absorb t t1); [done..|]. apply IH; [lia|done|done|done| |by intros _].
      apply Hpair; [done|done|]. by apply (bk_signed _ Hb1).
Qed.
(** AddSignature with a signature that was verified for the key of the index. *)
Lemma AddSignature_added t l o sig : backed t -> complete t -> valid d l o -> signed msg (aggKey leaves l o) sig ->
  exists t', AddSignature (node d l o) sig t = Ret t' /\ added t t' l o.
Proof.
  intros Hb Hc Hv Hsig. pose proof (bk_shaped _ Hb) as Hs. unfold AddSignature.
  pose proof (node_lt d l o Hv) as Hlt. rewrite (sh_sigs _ Hs), (proj2 (Nat.ltb_lt _ _) Hlt).
  eexists. split; [done|]. apply addLoop_added; [|done|done|by intros ? ? ? _; apply Hc|done|done].
  unfold nNodes. pose proof (Nat.pow_gt_lin_r 2 (S d)). lia.
Qed.

(** ** Trees without signatures *)
Lemma sigOf_replicate n i : sigOf (replicate n g_zero) i = g_zero (K := K).
Proof.
  unfold sigOf. destruct (replicate n g_zero !! i) as [s|] eqn:E; [|done]. by apply lookup_replicate in E as [-> _].
Qed.

Lemma empty_backed t : shaped t -> t.(t_sigs) = replicate (nNodes d) g_zero -> bs_elems t.(SigBits) = ∅ -> backed t /\ complete t.
Proof.
  intros Hs Hsig Hbits. assert (Hno : forall l o, ~ hasSig t l o).
  { intros l o Hh. apply Hh. rewrite Hsig. apply sigOf_replicate. }
  split; [split; [done| |]|].
  - intros l o _ Hh. by apply Hno in Hh.
  - intros i. rewrite Hbits. split; [set_solver|]. intros (_ & l & _ & Hh). by apply Hno in Hh.
  - intros l o _ Hh. by apply Hno in Hh.
Qed.

Lemma Derive_backed t : shaped t -> backed (Derive t) /\ complete (Derive t).
Proof.
  intros Hs. pose proof Hs as [Hn Hw Hle Hk Hl]. apply empty_backed.
  - split; simpl; try done. rewrite length_replicate. apply Hk.
  - simpl. by rewrite (proj1 Hk).
  - simpl. apply bs_elems_New.
Qed.

(** ** SparseIndices *)

(** A list of indices covers a leaf when it holds a node above it. *)
Definition covers (dst : list nat) (i : nat) : Prop := exists l, l <= d /\ node d l (i / 2 ^ l) ∈ dst.

Lemma covers_app dst dst' i : covers dst i -> covers (dst ++ dst') i.
Proof. intros (l & Hl & Hin). exists l. set_solver. Qed.

(** What is selected when the rows from the root down to row [k], exclusive, are done. *)
Record selected t (k : nat) (acc : list nat * list bool) : Prop := {
  sl_len : length acc.2 = 2 ^ d;
  sl_nodes idx : idx ∈ acc.1 -> exists l o, valid d l o /\ idx = node d l o /\ hasSig t l o;
  sl_above i l : i < 2 ^ d -> k < l <= d -> hasSig t l (i / 2 ^ l) -> covers acc.1 i;
  sl_skip i : i < 2 ^ d -> skipped acc.2 (i / 2 ^ k) = true -> covers acc.1 i
}.

Lemma skipped_insert s j i x : j < length s -> skipped (<[j := x]> s) i = if decide (i = j) then x else skipped s i.
Proof.
  intros Hj. unfold skipped. case_decide; [subst; by rewrite list_lookup_insert_eq|by rewrite list_lookup_insert_ne].
Qed.

Lemma leaf_offset i k : i < 2 ^ d -> k <= d -> i / 2 ^ k < 2 ^ (d - k).
Proof.
  intros Hi Hk. apply Nat.Div0.div_lt_upper_bound. rewrite <- Nat.pow_add_r. by replace (k + (d - k)) with d by lia.
Qed.

Lemma sparseRow_selected t k acc : k <= d -> selected t k acc ->
  selected t k (sparseRow t (layerStart d k) (2 ^ (d - k)) acc) /\
  forall i, i < 2 ^ d -> hasSig t k (i / 2 ^ k) -> covers (sparseRow t (layerStart d k) (2 ^ (d - k)) acc).1 i.
Proof.
  intros Hk Hsel. assert (Hw : 2 ^ (d - k) <= 2 ^ d) by (apply Nat.pow_le_mono_r; lia).
  assert (Hm : forall m, m <= 2 ^ (d - k) -> let acc' := sparseRow t (layerStart d k) m acc in
    selected t k acc' /\ forall i, i < 2 ^ d -> i / 2 ^ k < m -> hasSig t k (i / 2 ^ k) -> covers acc'.1 i).
  { induction m as [|m IH]; intros Hm; [split; [done|lia]|]. destruct (IH ltac:(lia)) as [Hs Hc]. clear IH.
    unfold sparseRow in *. rewrite seq_S, foldl_app. cbn [foldl]. destruct (foldl _ _ _) as [dst skip]. cbn [fst snd] in *.
    replace (layerStart d k + m - layerStart d k) with m by lia. destruct (skipped skip m) eqn:Eskip.
    { split; [done|]. intros i Hi Him Hh. destruct (decide (i / 2 ^ k = m)) as [Hio|]; [|apply Hc; [done|lia|done]].
      apply (sl_skip _ _ _ Hs i Hi). by rewrite Hio. }
    case_bool_decide as Hz.
    { split; [done|]. intros i Hi Him Hh. destruct (decide (i / 2 ^ k = m)) as [Hio|]; [|apply Hc; [done|lia|done]].
      rewrite Hio in Hh. by destruct Hh. }
    assert (Hthis : forall i, i / 2 ^ k = m -> covers (dst ++ [layerStart d k + m]) i).
    { intros i Hi. exists k. split; [done|]. rewrite Hi. unfold node. set_solver. }
    destruct Hs as [Hlen Hnodes Habove Hskip]. simpl in *. split; [split; cbn [fst snd]|].
    - by rewrite length_insert.
    - intros idx [?| ->%list_elem_of_singleton]%elem_of_app; [auto|]. exists k, m. split; [split; lia|done].
    - intros i l Hi Hl Hh. apply covers_app. by eapply Habove.
    - intros i Hi. rewrite skipped_insert by lia. case_decide; [auto|]. intros. apply covers_app. auto.
    - intros i Hi Him Hh. destruct (decide (i / 2 ^ k = m)); [auto|]. apply covers_app, Hc; [done|lia|done]. }
  destruct (Hm (2 ^ (d - k)) ltac:(done)) as [Hs Hc]. split; [done|]. intros i Hi Hh. apply Hc; [done|by apply leaf_offset|done].
Qed.

Lemma doubleSkip_spec m (s : list bool) : 2 * m <= length s ->
  length (doubleSkip m s) = length s /\
  (forall o, o < 2 * m -> skipped (doubleSkip m s) o = skipped s (o / 2)) /\
  (forall o, 2 * m <= o -> skipped (doubleSkip m s) o = skipped s o).
Proof.
  unfold doubleSkip. revert s. induction m as [|m IH]; intros s Hl; [split; [done|split; [lia|done]]|].
  rewrite seq_S, Nat.add_0_l, reverse_snoc. cbn [foldl]. set (s1 := <[2 * m := _]> _).
  assert (Hl1 : length s1 = length s) by (subst s1; by rewrite !length_insert).
  assert (Hs1 : forall o, skipped s1 o = if decide (o = 2 * m \/ o = 2 * m + 1) then skipped s m else skipped s o).
  { intros o. subst s1. rewrite !skipped_insert by (rewrite ?length_insert; lia).
    repeat case_decide; try done; lia. }
  clearbody s1. destruct (IH s1 ltac:(lia)) as (Hlen & Hlow & Hhigh). split_and!.
  - by rewrite Hlen.
  - intros o Ho. pose proof (half_cases o) as Hh. destruct (decide (o < 2 * m)) as [Hlt|Hge].
    + rewrite Hlow, Hs1 by done. case_decide; [lia|done].
    + rewrite Hhigh, Hs1 by lia. rewrite decide_True by lia. f_equal. lia.
  - intros o Ho. rewrite Hhigh, Hs1 by lia. by rewrite decide_False by lia.
Qed.

Lemma sparseRows_selected t k fuel acc : k < d -> k < fuel -> selected t k acc ->
  selected t 0 (sparseRows fuel t (layerStart d k) (2 ^ (d - k)) acc).
Proof.
  revert fuel acc. induction k as [|k IH]; intros fuel acc Hk Hf Hsel; (destruct fuel as [|fuel]; [lia|]); [done|].
  cbn [sparseRows]. pose proof (layerStart_ge d (S k)).
  destruct (Nat.ltb_spec 0 (layerStart d (S k))) as [_|]; [|lia].
  destruct (sparseRow_selected t (S k) acc ltac:(lia) Hsel) as [Hrow Hcov].
  destruct (sparseRow _ _ _ _) as [dst skip]. pose proof (pow2_half k d ltac:(lia)) as Hw.
  replace (layerStart d (S k) - 2 ^ (d - S k) * 2) with (layerStart d k) by (simpl; lia).
  replace (2 ^ (d - S k) * 2) with (2 ^ (d - k)) by lia. apply IH; [lia|lia|].
  destruct Hrow as [Hlen Hnodes Habove Hskip]. cbn [fst snd] in *.
  assert (Hle : 2 * 2 ^ (d - S k) <= length skip) by (rewrite Hlen, <- Hw; apply Nat.pow_le_mono_r; lia).
  destruct (doubleSkip_spec (2 ^ (d - S k)) skip Hle) as (Hlen' & Hlow & _). split; cbn [fst snd].
  - by rewrite Hlen'.
  - done.
  - intros i l Hi Hl Hh. destruct (decide (l = S k)) as [->|]; [by apply Hcov|apply (Habove i l); [done|lia|done]].
  - intros i Hi. rewrite Hlow by (rewrite <- Hw; apply leaf_offset; [done|lia]). rewrite <- div_pow2_S. by apply Hskip.
Qed.

(** The rows start below the root; a tree of one node has none. *)
Lemma sparseRows_start t acc : selected t (d - 1) acc -> selected t 0 (sparseRows (nNodes d) t (nNodes d - 3) 2 acc).
Proof.
  intros Hsel. destruct (decide (d = 0)) as [Hd|Hd].
  - unfold nNodes. rewrite Hd in Hsel |- *. exact Hsel.
  - pose proof (layerStart_sum d (d - 1) ltac:(lia)) as Hsum. pose proof (pow2_pos d). pose proof (Nat.pow_gt_lin_r 2 (S d)).
    replace (d - (d - 1)) with 1 in Hsum by lia. change (2 * 2 ^ 1) with 4 in Hsum.
    replace (nNodes d - 3) with (layerStart d (d - 1)) by (unfold nNodes; lia).
    replace (sparseRows (nNodes d) t (layerStart d (d - 1)) 2 acc)
      with (sparseRows (nNodes d) t (layerStart d (d - 1)) (2 ^ (d - (d - 1))) acc)
      by (by replace (d - (d - 1)) with 1 by lia).
    apply sparseRows_selected; [lia|unfold nNodes; lia|done].
Qed.

Lemma sparseLeaves_spec t dst skip : shaped t -> selected t 0 (dst, skip) ->
  (forall idx, idx ∈ sparseLeaves t dst skip -> exists l o, valid d l o /\ idx = node d l o /\ hasSig t l o) /\
  forall i, i < length leaves -> covered t i -> covers (sparseLeaves t dst skip) i.
Proof.
  intros Hs [Hlen Hnodes Habove Hskip]. cbn [fst snd] in *. pose proof (sh_le _ Hs) as Hle. unfold sparseLeaves. rewrite (sh_n _ Hs).
  assert (Hm : forall m, m <= length leaves ->
    let dst' := foldl (fun dst i => if skipped skip i then dst
      else if bool_decide (sigOf t.(t_sigs) i = g_zero) then dst else dst ++ [i]) dst (seq 0 m) in
    (forall idx, idx ∈ dst' -> exists l o, valid d l o /\ idx = node d l o /\ hasSig t l o) /\
    (forall i, covers dst i -> covers dst' i) /\ forall i, i < m -> hasSig t 0 i -> covers dst' i).
  { induction m as [|m IH]; intros Hm; [split_and!; [done|done|lia]|]. destruct (IH ltac:(lia)) as (Hn & Hc & Ho). clear IH.
    rewrite seq_S, foldl_app, Nat.add_0_l. cbn [foldl]. cbv zeta. set (dst' := foldl _ _ _) in *. clearbody dst'.
    destruct (skipped skip m) eqn:Eskip; [|case_bool_decide as Hz].
    - split_and!; [done|done|]. intros i Hi Hh. destruct (decide (i = m)) as [->|]; [|apply Ho; [lia|done]].
      apply Hc, Hskip; [lia|]. by rewrite Nat.div_1_r.
    - split_and!; [done|done|]. intros i Hi Hh. destruct (decide (i = m)) as [->|]; [|apply Ho; [lia|done]]. by destruct Hh.
    - split_and!.
      + intros idx [?| ->%list_elem_of_singleton]%elem_of_app; [auto|]. exists 0, m. split; [|done].
        split; [lia|]. rewrite Nat.sub_0_r. lia.
      + intros i Hi. by apply covers_app, Hc.
      + intros i Hi Hh. destruct (decide (i = m)) as [->|]; [|apply covers_app, Ho; [lia|done]].
        exists 0. split; [lia|]. simpl (2 ^ 0). rewrite Nat.div_1_r. unfold node. simpl. set_solver. }
  destruct (Hm (length leaves) ltac:(done)) as (Hn & Hc & Ho). split; [done|]. intros i Hi (l & Hl & Hh).
  destruct l as [|l]; [apply Ho; [done|]; simpl (2 ^ 0) in Hh; by rewrite Nat.div_1_r in Hh|].
  apply Hc, (Habove i (S l)); [lia|lia|done].
Qed.

(** The selected indices are nodes with a signature, and they stand for every bit. *)
Lemma SparseIndices_spec t : backed t ->
  (forall idx, idx ∈ SparseIndices t -> exists l o, valid d l o /\ idx = node d l o /\ hasSig t l o) /\
  forall i, i ∈ bs_elems t.(SigBits) <-> i < length leaves /\ covers (SparseIndices t) i.
Proof.
  intros Hb. pose proof (bk_shaped _ Hb) as Hs.
  assert (Hspec : (forall idx, idx ∈ SparseIndices t -> exists l o, valid d l o /\ idx = node d l o /\ hasSig t l o) /\
    forall i, i < length leaves -> covered t i -> covers (SparseIndices t) i).
  { unfold SparseIndices. rewrite (sh_sigs _ Hs), <- node_root.
    assert (Hvr : valid d d 0) by (split; [done|apply pow2_pos]). pose proof (sh_le _ Hs) as Hle.
    case_bool_decide as Hroot; simpl negb; cbv iota.
    - assert (Hinit : selected t (d - 1) ([], replicate (leavesWidth t.(t_nKeys)) false)).
      { split; cbn [fst snd].
        - by rewrite length_replicate, (sh_n _ Hs), (sh_width _ Hs).
        - set_solver.
        - intros i l Hi Hl Hh. assert (l = d) as -> by lia. rewrite Nat.div_small in Hh by done. by destruct Hh.
        - intros i Hi. unfold skipped. destruct (replicate _ _ !! _) as [c|] eqn:E; [|done].
          by apply lookup_replicate in E as [-> _]. }
      pose proof (sparseRows_start t _ Hinit) as Hrows.
      destruct (sparseRows _ _ _ _ _) as [dst skip]. by apply sparseLeaves_spec.
    - split.
      + intros idx ->%list_elem_of_singleton. by exists d, 0.
      + intros i Hi _. exists d. rewrite Nat.div_small by lia. split; [done|]. set_solver. }
  destruct Hspec as [Hn Hc]. split; [done|]. intros i. rewrite (bk_bits _ Hb). split; intros [Hi Hx]; (split; [done|]); [by apply Hc|].
  destruct Hx as (l & Hl & Hin). destruct (Hn _ Hin) as (l' & o & Hv & Heq & Hh).
  exists l. split; [done|]. apply (node_inj d) in Heq as [-> ->]; [done|by eapply valid_above|done].
Qed.
End fixed.
End tree.
