(* ===== verification/BLSProof.v ===== *)
(** Signature proofs with aggregated signatures (gcrypto/gblsminsig/signatureproof.go, and Verify of bls.go), over
    the signature tree. *)
From S2P Require Import Prelude.
From S2P Require Import Types.
From S2P Require Import BitSets.
From S2P Require Import SigProof.
From S2P Require Import SimpleProofs.
From S2P Require Import Registry.
From S2P Require Import SigTree.
From S2P Require Import SigTreeLayout.
From S2P Require Import SigTreeProofs.
Local Open Scope nat_scope.

Record SignatureProof (K G B : Type) := MkBLSProof {
  bp_msg : bytes; bp_sigTree : Tree K G B; bp_keyHash : bytes
}.
Arguments MkBLSProof {K G B}.
Arguments bp_msg {K G B}.
Arguments bp_sigTree {K G B}.
Arguments bp_keyHash {K G B}.

Section proof.
Context {K G B : Type} `{!Blst K G, BitSetLaws B, !BitSetAll B}.
Implicit Types p o : SignatureProof K G B.

(** Verify of a key. *)
Definition BLS_Verify (k : K) (msg sig : bytes) : bool :=
  match g_Uncompress sig with
  | None => false
  | Some p1a => if negb (g_SigValidate p1a) then false else g_Verify k msg p1a
  end.

(** The type assertion to this package's PubKey, which wraps a point. *)
Definition asBLS (key : PubKey) : option K :=
  if bool_decide (key.(pk_TypeName) = keyTypeName) then k_Uncompress key.(pk_PubKeyBytes) else None.

Definition NewSignatureProof (msg : bytes) (trustedKeys : list K) (pubKeyHash : bytes) : outcome (result (SignatureProof K G B)) :=
  t ← NewTree trustedKeys; Ret (Ok (MkBLSProof msg t pubKeyHash)).

Definition withTree (t : Tree K G B) p : SignatureProof K G B := {| p with bp_sigTree := t |}.

(** AddSignature of a proof; a point that verified is not nil. *)
Definition BLS_AddSignature (sig : bytes) (key : PubKey) p : outcome (result (SignatureProof K G B)) :=
  match asBLS key with
  | None => Ret (Err (ErrOther "expected type gblsminsig.PubKey"))
  | Some pk =>
      match Index p.(bp_sigTree) pk with
      | None => Ret (Err (ErrOther "unknown key"))
      | Some idx =>
          let gotSig := g_Uncompress sig in
          let haveSig := match Get p.(bp_sigTree) idx with Some (_, s) => s | None => g_zero end in
          if negb (bool_decide (haveSig = g_zero)) then
            same ← g_Equals gotSig (Some haveSig);
            if negb same then Ret (Err (ErrOther "incoming signature differed from previously verified signature"))
            else Ret (Ok p)
          else if negb (BLS_Verify pk p.(bp_msg) sig) then Ret (Err (ErrOther "signature verification failed"))
          else match gotSig with
               | None => Panic "runtime error: invalid memory address or nil pointer dereference"
               | Some s => t ← AddSignature idx s p.(bp_sigTree); Ret (Ok (withTree t p))
               end
      end
  end.

Definition BLS_Matches p o : bool := String.eqb p.(bp_msg) o.(bp_msg) && String.eqb p.(bp_keyHash) o.(bp_keyHash).

(** One incoming signature of Merge: the tree, AllValidSignatures, IncreasedSignatures. *)
Definition blsMergeStep (msg : bytes) (other : Tree K G B) (acc : Tree K G B * bool * bool) (oID : nat) : outcome (Tree K G B * bool * bool) :=
  let '(t, allValid, increased) := acc in
  let otherSig := match Get other oID with Some (_, s) => s | None => g_zero end in
  let '(haveKey, haveSig) := default (k_zero, g_zero) (Get t oID) in
  if bool_decide (haveSig = g_zero) then
    if negb (BLS_Verify haveKey msg (g_Compress otherSig)) then Ret (t, false, increased)
    else
      t' ← AddSignature oID otherSig t;
      Ret (t', allValid, increased || (bs_Count t.(SigBits) <? bs_Count t'.(SigBits)))
  else
    same ← g_Equals (Some haveSig) (Some otherSig);
    Ret (t, allValid && same, increased).

Definition BLS_Merge p o : outcome (SignatureProof K G B * SignatureProofMergeResult) :=
  if negb (BLS_Matches p o) then Ret (p, MergeResult_zero)
  else
    let ob := o.(bp_sigTree).(SigBits) in let pb := p.(bp_sigTree).(SigBits) in
    let looksLikeStrictSuperset := (bs_None ob && bs_None pb) || bs_IsStrictSuperSet ob pb in
    acc ← foldO (blsMergeStep p.(bp_msg) o.(bp_sigTree)) (p.(bp_sigTree), true, false) (SparseIndices o.(bp_sigTree));
    let '(t, allValid, increased) := acc in
    Ret (withTree t p, {| AllValidSignatures := allValid; IncreasedSignatures := increased;
                          WasStrictSuperset := looksLikeStrictSuperset && allValid |}).

(** One entry of MergeSparse; what the loop puts into IncreasedSignatures is overwritten after it. *)
Definition blsSparseStep (msg : bytes) (acc : Tree K G B * bool) (ss : SparseSignature) : outcome (Tree K G B * bool) :=
  let '(t, allValid) := acc in
  if negb (String.length ss.(ss_KeyID) =? 2) then Ret (t, false)
  else
    id ← beUint16 ss.(ss_KeyID);
    match Get t id with
    | None => Ret (t, false)
    | Some (haveKey, haveSig) =>
        if bool_decide (haveSig = g_zero) then
          if negb (BLS_Verify haveKey msg ss.(ss_Sig)) then Ret (t, false)
          else match g_Uncompress ss.(ss_Sig) with
               | None => Panic "runtime error: invalid memory address or nil pointer dereference"
               | Some s => t' ← AddSignature id s t; Ret (t', allValid)
               end
        else
          same ← g_Equals (Some haveSig) (g_Uncompress ss.(ss_Sig));
          Ret (t, allValid && same)
    end.

Definition BLS_MergeSparse (s : SparseSignatureProof) p : outcome (SignatureProof K G B * SignatureProofMergeResult) :=
  if negb (String.eqb s.(ssp_PubKeyHash) p.(bp_keyHash)) then Ret (p, MergeResult_zero)
  else
    acc ← foldO (blsSparseStep p.(bp_msg)) (p.(bp_sigTree), true) s.(ssp_Signatures);
    let '(t, allValid) := acc in
    Ret (withTree t p, {| AllValidSignatures := allValid;
                          IncreasedSignatures := bs_Count p.(bp_sigTree).(SigBits) <? bs_Count t.(SigBits);
                          WasStrictSuperset := false |}).

Definition BLS_HasSparseKeyID (keyID : bytes) p : outcome (bool * bool) :=
  if negb (String.length keyID =? 2) then Ret (false, false)
  else
    id ← beUint16 keyID;
    match Get p.(bp_sigTree) id with
    | None => Ret (false, false)
    | Some (_, sig) => Ret (negb (bool_decide (sig = g_zero)), true)
    end.

Definition sparseEntry (t : Tree K G B) (id : nat) : SparseSignature :=
  MkSparseSignature (putUint16 id) (g_Compress (match Get t id with Some (_, s) => s | None => g_zero end)).

Definition BLS_AsSparse p : SparseSignatureProof :=
  MkSparseSignatureProof p.(bp_keyHash) (map (sparseEntry p.(bp_sigTree)) (SparseIndices p.(bp_sigTree))).

Definition BLS_Clone p : SignatureProof K G B := MkBLSProof p.(bp_msg) (Clone p.(bp_sigTree)) p.(bp_keyHash).
Definition BLS_Derive p : SignatureProof K G B := MkBLSProof p.(bp_msg) (Derive p.(bp_sigTree)) p.(bp_keyHash).
Definition BLS_SignatureBitSet p : B := p.(bp_sigTree).(SigBits).

(** ** What a proof of the trusted keys may have gone through, with arguments from anywhere *)
Inductive blsReach (msg hash : bytes) (keys : list K) : SignatureProof K G B -> Prop :=
| blsReach_new p : NewSignatureProof msg keys hash = Ret (Ok p) -> blsReach msg hash keys p
| blsReach_add p p' sig key : blsReach msg hash keys p -> BLS_AddSignature sig key p = Ret (Ok p') -> blsReach msg hash keys p'
| blsReach_merge p p' o r : blsReach msg hash keys p -> BLS_Merge p o = Ret (p', r) -> blsReach msg hash keys p'
| blsReach_sparse p p' s r : blsReach msg hash keys p -> BLS_MergeSparse s p = Ret (p', r) -> blsReach msg hash keys p'
| blsReach_derive p : blsReach msg hash keys p -> blsReach msg hash keys (BLS_Derive p).
End proof.

(** * Soundness *)
Section sound.
Context {K G B : Type} `{!Blst K G, !BlstLaws K G, BitSetLaws B, !BitSetAll B, !BitSetAllLaws B}.
Context (msg hash : bytes) (keys : list K) (Hproper : proper keys).
Implicit Types (p : SignatureProof K G B) (t : Tree K G B).

Lemma Verify_signed k sig : BLS_Verify k msg sig = true -> exists s, g_Uncompress sig = Some s /\ signed msg k s.
Proof.
  unfold BLS_Verify. destruct (g_Uncompress sig) as [s|]; [|done]. destruct (g_SigValidate s) eqn:Ev; [|done].
  intros Hv. by exists s.
Qed.

Lemma signed_Verify k s : signed msg k s -> BLS_Verify k msg (g_Compress s) = true.
Proof. intros [Hv Hs]. unfold BLS_Verify. by rewrite blst_Compress, Hv. Qed.

(** A tree that the operations keep in order. *)
Definition sound d t : Prop := backed keys d msg t /\ complete keys d t.

Lemma Get_sound d t idx : sound d t -> match Get t idx with
  | None => nNodes d <= idx
  | Some (k, s) => exists l o, valid d l o /\ idx = node d l o /\ k = aggKey keys l o /\ s = sigOf t.(t_sigs) (node d l o)
  end.
Proof.
  intros [Hb _]. pose proof (bk_shaped _ _ _ _ Hb) as Hs. unfold Get. rewrite (proj1 (sh_keys _ _ _ Hs)).
  destruct (Nat.ltb_spec idx (nNodes d)) as [Hlt|]; [|done]. destruct (node_exists d idx Hlt) as (l & o & Hv & ->).
  exists l, o. split_and!; [apply Hv..|done| |done]. by eapply shaped_key.
Qed.

(** Adding a signature that verified keeps the tree sound and adds the leaves below its node. *)
Lemma add_sound d t l o s : sound d t -> valid d l o -> signed msg (aggKey keys l o) s ->
  exists t', AddSignature (node d l o) s t = Ret t' /\ sound d t' /\
    (forall i, i ∈ bs_elems t'.(SigBits) <-> i ∈ bs_elems t.(SigBits) \/ i < length keys /\ i / 2 ^ l = o).
Proof.
  intros [Hb Hc] Hv Hs. destruct (AddSignature_added keys d msg Hproper t l o s Hb Hc Hv Hs) as (t' & Ha & [Hb' Hc' Hbits _]).
  by exists t'.
Qed.

Definition bitsGrow t t' : Prop := bs_elems t.(SigBits) ⊆ bs_elems t'.(SigBits).

Lemma bitsGrow_refl t : bitsGrow t t.
Proof. by unfold bitsGrow. Qed.

Lemma bitsGrow_trans t1 t2 t3 : bitsGrow t1 t2 -> bitsGrow t2 t3 -> bitsGrow t1 t3.
Proof. unfold bitsGrow. apply transitivity. Qed.

Local Hint Resolve bitsGrow_refl : core.

Lemma add_grows d t l o s : sound d t -> valid d l o -> signed msg (aggKey keys l o) s ->
  okay (AddSignature (node d l o) s t) (fun t' => sound d t' /\ bitsGrow t t').
Proof.
  intros Ht Hv Hs. destruct (add_sound d t l o s Ht Hv Hs) as (t' & -> & Hs' & Hb). split; [done|].
  intros i Hi. apply Hb. by left.
Qed.

Lemma sparseStep_sound d acc ss : sound d acc.1 ->
  okay (blsSparseStep msg acc ss) (fun acc' => sound d acc'.1 /\ bitsGrow acc.1 acc'.1).
Proof.
  destruct acc as [t av]. simpl. intros Ht. unfold blsSparseStep. destruct (negb _); [by split|].
  destruct (beUint16 (ss_KeyID ss)) as [id|]; [|done]. simpl. pose proof (Get_sound d t id Ht) as Hget.
  destruct (Get t id) as [[k s]|]; [|by split]. destruct Hget as (l & o & Hv & -> & -> & ->).
  case_bool_decide.
  - destruct (BLS_Verify (aggKey keys l o) msg (ss_Sig ss)) eqn:Ever; simpl; [|by split].
    apply Verify_signed in Ever as (s & -> & Hs). apply okay_bind. by apply add_grows.
  - destruct (g_Equals _ _); simpl; [by split|done].
Qed.

Lemma blsMergeStep_sound d other acc oID : sound d acc.1.1 ->
  okay (blsMergeStep msg other acc oID) (fun acc' => sound d acc'.1.1 /\ bitsGrow acc.1.1 acc'.1.1).
Proof.
  destruct acc as [[t av] inc]. simpl. intros Ht. unfold blsMergeStep.
  set (os := match Get other oID with Some (_, s) => s | None => g_zero end). clearbody os.
  pose proof (Get_sound d t oID Ht) as Hget. destruct (Get t oID) as [[k s]|]; cbn [default].
  - destruct Hget as (l & o & Hv & -> & -> & ->). simpl. case_bool_decide.
    + destruct (BLS_Verify (aggKey keys l o) msg (g_Compress os)) eqn:Ever; simpl; [|by split].
      apply Verify_signed in Ever as (s & Hu & Hs). rewrite blst_Compress in Hu. injection Hu as ->.
      apply okay_bind. by apply add_grows.
    + destruct (g_Equals _ _); simpl; [by split|done].
  - simpl. rewrite bool_decide_eq_true_2 by done. destruct (BLS_Verify k_zero msg (g_Compress os)) eqn:Ever; simpl; [|by split].
    apply Verify_signed in Ever as (s & _ & Hs). by apply signed_nonzero in Hs as [? _].
Qed.

(** The proof of trusted keys: its message, its key hash and a sound tree. *)
Definition soundProof d p : Prop := p.(bp_msg) = msg /\ p.(bp_keyHash) = hash /\ sound d p.(bp_sigTree).

Lemma withTree_sound d p t : soundProof d p -> sound d t -> soundProof d (withTree t p).
Proof. by intros (Hm & Hh & _) Ht. Qed.

Lemma AddSignature_sound d sig key p : soundProof d p ->
  okay (BLS_AddSignature sig key p) (fun r => match r with
    | Ok p' => soundProof d p' /\ bitsGrow p.(bp_sigTree) p'.(bp_sigTree)
    | Err _ => True
    end).
Proof.
  intros Hp. pose proof Hp as (Hm & Hh & Ht). unfold BLS_AddSignature. destruct (asBLS key) as [pk|]; [|done].
  destruct (Index (bp_sigTree p) pk) as [idx|] eqn:Ei; [|done]. apply Index_spec in Ei.
  pose proof (Get_sound d _ idx Ht) as Hget. destruct (Get (bp_sigTree p) idx) as [[k s]|] eqn:Eg.
  - destruct Hget as (l & o & Hv & -> & -> & ->). case_bool_decide; simpl.
    + rewrite Hm. destruct (BLS_Verify pk msg sig) eqn:Ever; simpl; [|done]. apply Verify_signed in Ever as (s & -> & Hs).
      apply okay_bind. pose proof (shaped_key keys d _ _ _ (bk_shaped _ _ _ _ (proj1 Ht)) Hv) as Hk.
      unfold keyOf in Hk. rewrite Ei in Hk. simpl in Hk. subst pk.
      eapply okay_mono; [|by apply (add_grows d)]. intros t' [? ?]. by apply conj; [apply withTree_sound|].
    + destruct (g_Equals _ _) as [same|]; simpl; [|done]. destruct same; [by apply conj|done].
  - apply lookup_lt_Some in Ei. rewrite (proj1 (sh_keys _ _ _ (bk_shaped _ _ _ _ (proj1 Ht)))) in Ei. lia.
Qed.

Lemma MergeSparse_sound d s p : soundProof d p ->
  okay (BLS_MergeSparse s p) (fun x => soundProof d x.1 /\ bitsGrow p.(bp_sigTree) x.1.(bp_sigTree)).
Proof.
  intros Hp. unfold BLS_MergeSparse. destruct (negb _); [by split|]. apply okay_bind. pose proof Hp as (Hm & Hh & Ht). rewrite Hm.
  eapply okay_mono; [|apply (foldO_okay_inv _ (fun acc => sound d acc.1 /\ bitsGrow p.(bp_sigTree) acc.1))]; [| |by split].
  - intros [t av] [Ht' Hg]. by apply conj; [apply withTree_sound|].
  - intros ss acc _ [Ha Hg]. eapply okay_mono; [|by apply (sparseStep_sound d)]. intros acc' [? Hg']. split; [done|].
    by eapply bitsGrow_trans.
Qed.

Lemma Merge_sound d o p : soundProof d p ->
  okay (BLS_Merge p o) (fun x => soundProof d x.1 /\ bitsGrow p.(bp_sigTree) x.1.(bp_sigTree)).
Proof.
  intros Hp. unfold BLS_Merge. destruct (negb _); [by split|]. apply okay_bind. pose proof Hp as (Hm & Hh & Ht). rewrite Hm.
  eapply okay_mono; [|apply (foldO_okay_inv _ (fun acc => sound d acc.1.1 /\ bitsGrow p.(bp_sigTree) acc.1.1))]; [| |by split].
  - intros [[t av] inc] [Ht' Hg]. by apply conj; [apply withTree_sound|].
  - intros oID acc _ [Ha Hg]. eapply okay_mono; [|by apply (blsMergeStep_sound d)]. intros acc' [? Hg']. split; [done|].
    by eapply bitsGrow_trans.
Qed.

Lemma New_sound p : NewSignatureProof msg keys hash = Ret (Ok p) -> exists d, soundProof d p /\ leavesWidth (length keys) = 2 ^ d.
Proof.
  unfold NewSignatureProof. destruct (NewTree keys) as [t|] eqn:Et; [|done]. intros [= <-].
  destruct (NewTree_spec _ _ Et) as (d & Hw & Hle & Hn & Hk & Hs & Hb). exists d. split; [|done]. split_and!; [done|done|].
  simpl. destruct (empty_backed keys d msg Hproper t) as [? ?]; [|done|by rewrite Hb, bs_elems_New|by split].
  split; try done. by rewrite Hs, length_replicate.
Qed.

Lemma reach_sound p : blsReach msg hash keys p -> exists d, soundProof d p /\ leavesWidth (length keys) = 2 ^ d.
Proof.
  induction 1 as [p Hn|p p' sig key _ (d & Hp & Hw) Ha|p p' o r _ (d & Hp & Hw) Ha|p p' s r _ (d & Hp & Hw) Ha|p _ (d & Hp & Hw)].
  - by apply New_sound.
  - exists d. split; [|done]. apply (AddSignature_sound d sig key) in Hp. rewrite Ha in Hp. apply Hp.
  - exists d. split; [|done]. apply (Merge_sound d o) in Hp. rewrite Ha in Hp. apply Hp.
  - exists d. split; [|done]. apply (MergeSparse_sound d s) in Hp. rewrite Ha in Hp. apply Hp.
  - exists d. split; [|done]. destruct Hp as (Hm & Hh & [Hb _]). split_and!; [done|done|].
    exact (Derive_backed keys d msg Hproper _ (bk_shaped _ _ _ _ Hb)).
Qed.

(** ** Sending a proof and merging it into a fresh one *)

Lemma Get_node d t l o : sound d t -> valid d l o ->
  Get t (node d l o) = Some (aggKey keys l o, sigOf t.(t_sigs) (node d l o)).
Proof.
  intros [Hb _] Hv. pose proof (bk_shaped _ _ _ _ Hb) as Hs. unfold Get. rewrite (proj1 (sh_keys _ _ _ Hs)).
  rewrite (proj2 (Nat.ltb_lt _ _) (node_lt d l o Hv)). by rewrite (shaped_key keys d t l o Hs Hv).
Qed.

(** A selected node of one tree, merged into another of the same keys. *)
Lemma sparseStep_own d t t' l o : sound d t -> sound d t' -> valid d l o -> hasSig d t l o ->
  (N.of_nat (node d l o) < 65536)%N ->
  exists t'', blsSparseStep msg (t', true) (sparseEntry t (node d l o)) = Ret (t'', true) /\ sound d t'' /\
    forall i, i ∈ bs_elems t''.(SigBits) <-> i ∈ bs_elems t'.(SigBits) \/ i < length keys /\ i / 2 ^ l = o.
Proof.
  intros Ht Ht' Hv Hh H16. unfold blsSparseStep, sparseEntry. cbn [ss_KeyID ss_Sig].
  rewrite (beUint16_putUint16 _ H16), (Get_node d t l o Ht Hv). cbn [String.length Nat.eqb negb outcome_bind putUint16].
  change (String.length (putUint16 (node d l o))) with 2. cbn [Nat.eqb negb]. cbn.
  rewrite (Get_node d t' l o Ht' Hv). pose proof (bk_signed _ _ _ _ (proj1 Ht) l o Hv Hh) as Hsig.
  case_bool_decide as Hz; cbn.
  - rewrite (signed_Verify _ _ Hsig), blst_Compress. cbn.
    destruct (add_sound d t' l o _ Ht' Hv Hsig) as (t'' & -> & Hs & Hbits). by exists t''.
  - pose proof (bk_signed _ _ _ _ (proj1 Ht') l o Hv Hz) as Hsig'.
    rewrite blst_Compress, blst_Equals, (blst_unique _ _ _ _ (proj2 Hsig') (proj2 Hsig)), bool_decide_eq_true_2 by done.
    exists t'. split; [done|]. split; [done|]. intros i. split; [by left|]. intros [?|[Hi Ho]]; [done|].
    apply (bk_bits _ _ _ _ (proj1 Ht')). split; [done|]. exists l. split; [apply Hv|]. by rewrite Ho.
Qed.

(** The loop over selected nodes ends with the bits below them. *)
Lemma sparseLoop_own d t l t' : sound d t -> sound d t' -> (N.of_nat (nNodes d) <= 65536)%N ->
  (forall idx, idx ∈ l -> exists k o, valid d k o /\ idx = node d k o /\ hasSig d t k o) ->
  exists t'', foldO (blsSparseStep msg) (t', true) (map (sparseEntry t) l) = Ret (t'', true) /\ sound d t'' /\
    forall i, i ∈ bs_elems t''.(SigBits) <-> i ∈ bs_elems t'.(SigBits) \/ i < length keys /\ covers d l i.
Proof.
  intros Ht Ht' H16. revert t' Ht'. induction l as [|idx l IH]; intros t' Ht' Hl.
  - exists t'. split; [done|]. split; [done|]. intros i. split; [by left|]. intros [?|(_ & k & _ & Hin)]; [done|by apply not_elem_of_nil in Hin].
  - destruct (Hl idx) as (k & o & Hv & -> & Hh); [by left|]. pose proof (node_lt d k o Hv) as Hlt.
    destruct (sparseStep_own d t t' k o Ht Ht' Hv Hh ltac:(lia)) as (t1 & Hstep & Ht1 & Hb1).
    destruct (IH t1 Ht1) as (t2 & Hloop & Ht2 & Hb2); [by intros idx Hi; apply Hl; right|].
    exists t2. cbn [map foldO]. rewrite Hstep. split; [done|]. split; [done|]. intros i. rewrite Hb2, Hb1. unfold covers. split.
    + intros [[?|[Hi <-]]|(Hi & k' & Hk & Hin)]; [by left| |].
      * right. split; [done|]. exists k. split; [apply Hv|by left].
      * right. split; [done|]. exists k'. split; [done|by right].
    + intros [?|(Hi & k' & Hk & [Heq|Hin]%elem_of_cons)]; [by left; left| |].
      * left. right. split; [done|]. apply (node_inj d) in Heq as [-> ?]; [done| |done].
        by apply (valid_above keys d t), Hk; [apply (bk_shaped _ _ _ _ (proj1 Ht))|].
      * right. split; [done|]. by exists k'.
Qed.
End sound.

(** Trees of at most [2 ^ k] keys have at most [2 ^ S k - 1] nodes. *)
Lemma leavesWidth_bound n d k : 0 < n -> leavesWidth n = 2 ^ d -> n <= 2 ^ k -> d <= k.
Proof.
  intros Hn Hd Hle. unfold leavesWidth in Hd. destruct (Nat.eqb_spec (Nat.land n (n - 1)) 0) as [|Hz].
  - subst n. by apply (Nat.pow_le_mono_r_iff 2); [lia|].
  - rewrite Nat.shiftl_1_l in Hd. apply Nat.pow_inj_r in Hd; [|lia]. subst d. unfold Len16.
    enough (Nat.log2 n < k) by lia. apply (Nat.log2_lt_pow2 n k Hn). destruct (Nat.eq_dec n (2 ^ k)) as [->|]; [|lia]. destruct Hz.
    rewrite Nat.sub_1_r, <- Nat.ones_equiv, Nat.land_ones. apply Nat.Div0.mod_same.
Qed.

Lemma nNodes_16 n d : 0 < n -> leavesWidth n = 2 ^ d -> n <= 2 ^ 15 -> (N.of_nat (nNodes d) <= 65536)%N.
Proof.
  intros Hn Hd Hle. pose proof (leavesWidth_bound n d 15 Hn Hd Hle) as Hb.
  assert (Hp : 2 ^ S d <= 2 ^ 16) by (apply Nat.pow_le_mono_r; lia). unfold nNodes. clear Hle Hd.
  assert (H16 : N.of_nat (2 ^ 16) = 65536%N) by (rewrite Nat2N.inj_pow; reflexivity). lia.
Qed.

(** Beyond that the conversion to uint16 gives two nodes one key ID. *)
Lemma putUint16_wraps n m : N.of_nat m = (N.of_nat n + 65536)%N -> putUint16 m = putUint16 n.
Proof. intros Hm. unfold putUint16. rewrite Hm. by rewrite <- N.Div0.add_mod_idemp_r, N.Div0.mod_same, N.add_0_r. Qed.

Section theorems.
Context {K G B : Type} `{!Blst K G, !BlstLaws K G, BitSetLaws B, !BitSetAll B, !BitSetAllLaws B}.

(** C30: what a BLS proof holds.  Take trusted keys of which no aggregate, of those below a node of the tree, is the
    zero key (with keys that cancel out, like k and -k, the code sets bits that no signature stands for).  Whatever a
    proof of these keys goes through (signatures added with any key, proofs and sparse proofs merged from anywhere),
    its message and its key hash stay; every signature it holds, at whichever node of the tree, verifies over its
    message for the key of the node, which is the aggregate of the trusted keys below the node, of which there is at
    least one; and its bit set is exactly the trusted keys below the nodes that hold a signature. *)
Theorem bls_proof_sound (msg hash : bytes) (keys : list K) (p : SignatureProof K G B)
  (Hproper : proper keys) (Hreach : blsReach msg hash keys p) :
  p.(bp_msg) = msg /\ p.(bp_keyHash) = hash /\ exists d, leavesWidth (length keys) = 2 ^ d /\
    (forall idx key sig, Get p.(bp_sigTree) idx = Some (key, sig) -> sig <> g_zero ->
      BLS_Verify key msg (g_Compress sig) = true /\
      exists l o, valid d l o /\ o * 2 ^ l < length keys /\ idx = node d l o /\ key = aggKey keys l o) /\
    forall i, i ∈ bs_elems (BLS_SignatureBitSet p) <-> i < length keys /\ exists l key sig, l <= d /\
      Get p.(bp_sigTree) (node d l (i / 2 ^ l)) = Some (key, sig) /\ sig <> g_zero.
Proof.
  destruct (reach_sound msg hash keys Hproper p Hreach) as (d & (Hm & Hh & Ht) & Hw).
  split; [done|]. split; [done|]. exists d. split; [done|]. pose proof Ht as [Hb _]. split.
  - intros idx key sig Hget Hne. pose proof (Get_sound msg keys d _ idx Ht) as Hs. rewrite Hget in Hs.
    destruct Hs as (l & o & Hv & -> & -> & ->). pose proof (bk_signed _ _ _ _ Hb l o Hv Hne) as Hsig.
    split; [by apply signed_Verify|]. exists l, o. split; [done|]. split; [|done].
    destruct (Nat.lt_ge_cases (o * 2 ^ l) (length keys)) as [|Hge]; [done|].
    apply signed_nonzero in Hsig as [Hk _]. by apply aggKey_padding in Hge.
  - intros i. unfold BLS_SignatureBitSet. rewrite (bk_bits _ _ _ _ Hb). split.
    + intros (Hi & l & Hl & Hsig). split; [done|]. assert (Hv := valid_above keys d _ i l (bk_shaped _ _ _ _ Hb) Hi Hl).
      eexists l, _, _. split; [done|]. split; [by apply (Get_node msg keys)|done].
    + intros (Hi & l & key & sig & Hl & Hget & Hne). split; [done|]. exists l. split; [done|].
      assert (Hv := valid_above keys d _ i l (bk_shaped _ _ _ _ Hb) Hi Hl).
      rewrite (Get_node msg keys d _ l _ Ht Hv) in Hget. injection Hget as _ Hsig. unfold hasSig. by rewrite Hsig.
Qed.

(** C31: a proof of at most 32768 keys survives being sent: its sparse form, merged into the derived (empty) proof,
    is accepted with every signature valid, restores exactly the bits of the original, and reports an increase
    just when there was a bit to gain. *)
Theorem bls_sparse_roundtrip (msg hash : bytes) (keys : list K) (p : SignatureProof K G B)
  (Hproper : proper keys) (Hreach : blsReach msg hash keys p) (Hkeys : length keys <= 2 ^ 15) :
  exists p' r, BLS_MergeSparse (BLS_AsSparse p) (BLS_Derive p) = Ret (p', r) /\
    bs_elems (BLS_SignatureBitSet p') = bs_elems (BLS_SignatureBitSet p) /\ BLS_Matches p' p = true /\
    r.(AllValidSignatures) = true /\ r.(IncreasedSignatures) = negb (bs_None (BLS_SignatureBitSet p)).
Proof.
  destruct (reach_sound msg hash keys Hproper p Hreach) as (d & (Hm & Hh & Ht) & Hw).
  pose proof Ht as [Hb _]. pose proof (bk_shaped _ _ _ _ Hb) as Hs.
  destruct (SparseIndices_spec keys d msg Hproper _ Hb) as [Hidx Hbits].
  destruct (sparseLoop_own msg keys Hproper d (bp_sigTree p) (SparseIndices (bp_sigTree p)) (Derive (bp_sigTree p)) Ht) as (t' & Hloop & Ht' & Hb').
  { exact (Derive_backed keys d msg Hproper _ Hs). }
  { exact (nNodes_16 (length keys) d (proj1 (sh_le _ _ _ Hs)) Hw Hkeys). }
  { exact Hidx. }
  clear Hkeys.
  assert (Helems : bs_elems t'.(SigBits) = bs_elems p.(bp_sigTree).(SigBits)).
  { apply set_eq. intros i. rewrite Hb', Hbits. simpl. rewrite bs_elems_New. set_solver. }
  unfold BLS_MergeSparse, BLS_AsSparse, BLS_Derive, BLS_SignatureBitSet. cbn [ssp_PubKeyHash bp_keyHash bp_msg bp_sigTree ssp_Signatures].
  rewrite String.eqb_refl, Hm, Hloop. eexists _, _. split; [reflexivity|]. cbn [withTree bp_sigTree AllValidSignatures IncreasedSignatures].
  split; [done|]. split; [unfold BLS_Matches; cbn; by rewrite !String.eqb_refl, <- Hm, String.eqb_refl|]. split; [done|].
  rewrite bs_None_spec, !bs_Count_spec, Helems. simpl. rewrite bs_elems_New, size_empty.
  case_bool_decide as He; [by rewrite He, size_empty|]. apply Nat.ltb_lt. enough (size (bs_elems p.(bp_sigTree).(SigBits)) <> 0) by lia. apply size_non_empty_iff. by intros ?%leibniz_equiv.
Qed.
End theorems.

(** ** Numbers as points: a key [k] signs a message as [k] times its length plus one *)
Fixpoint units (n : nat) : bytes := match n with O => "" | S n => String "1" (units n) end.

Lemma length_units n : String.length (units n) = n.
Proof. induction n as [|n IH]; [done|]. simpl. by f_equal. Qed.

#[local] Instance toyBlst : Blst nat nat := {
  k_zero := 0; g_zero := 0; k_add := Nat.add; g_add := Nat.add;
  k_Compress := units; k_Uncompress b := Some (String.length b);
  g_Compress := units; g_Uncompress b := Some (String.length b);
  g_SigValidate _ := true;
  g_Verify k m s := negb (k =? 0) && (s =? k * S (String.length m));
  g_Equals a b := match a, b with Some a, Some b => Ret (bool_decide (a = b)) | _, _ => Panic "nil point" end
}.

#[local] Instance toyBlstLaws : BlstLaws nat nat.
Proof.
  split; cbn.
  - intros k m s [Hk%negb_true_iff%Nat.eqb_neq ->%Nat.eqb_eq]%andb_true_iff. lia.
  - intros a b m s t [Ha%negb_true_iff%Nat.eqb_neq ->%Nat.eqb_eq]%andb_true_iff [_ ->%Nat.eqb_eq]%andb_true_iff Hne.
    apply andb_true_iff. split; [by apply negb_true_iff, Nat.eqb_neq|apply Nat.eqb_eq; lia].
  - done.
  - apply Nat.add_comm.
  - by intros k m s t [_ ->%Nat.eqb_eq]%andb_true_iff [_ ->%Nat.eqb_eq]%andb_true_iff.
  - intros s. by rewrite length_units.
  - intros k. by rewrite length_units.
  - done.
Qed.

Lemma toy_proper keys : Forall (fun k => 0 < k) keys -> proper keys.
Proof.
  intros Hkeys. assert (Ha : forall l o, o * 2 ^ l < length keys -> 0 < aggKey keys l o).
  { induction l as [|l IH]; intros o Ho; cbn [aggKey].
    - rewrite Nat.mul_1_r in Ho. destruct (lookup_lt_is_Some_2 keys o Ho) as [k Hk]. unfold keyOf. rewrite Hk.
      by eapply Forall_lookup in Hkeys.
    - rewrite pow2_S in Ho. specialize (IH (2 * o) ltac:(lia)). unfold aggregateKeys. case_bool_decide; [done|]. by apply Nat.add_pos_l. }
  intros l o Ho. apply Ha in Ho. cbn. lia.
Qed.

(** Three keys, of which the first and the last sign; what they say is merged into a fresh proof. *)
Definition toyKeys : list nat := [2; 3; 5].
Definition toyFresh : SignatureProof nat nat (gset nat) :=
  match NewSignatureProof "vote" toyKeys "hash" with Ret (Ok p) => p | _ => MkBLSProof "" (MkTree [] [] ∅ 0) "" end.
Definition toyAdd (k : nat) (p : SignatureProof nat nat (gset nat)) : SignatureProof nat nat (gset nat) :=
  match BLS_AddSignature (units (k * 5)) (MkPubKey keyTypeName (units k)) p with Ret (Ok p') => p' | _ => p end.
Definition toySigned : SignatureProof nat nat (gset nat) := toyAdd 5 (toyAdd 2 toyFresh).
Definition toyMerged : SignatureProof nat nat (gset nat) :=
  match BLS_Merge toyFresh toySigned with Ret (p, _) => p | _ => toyFresh end.

Lemma toy_reach : blsReach "vote" "hash" toyKeys toyMerged.
Proof.
  assert (H0 : blsReach "vote" "hash" toyKeys toyFresh) by (apply blsReach_new; vm_compute; reflexivity).
  eapply (blsReach_merge _ _ _ toyFresh _ toySigned); [exact H0|vm_compute; reflexivity].
Qed.

Lemma toyKeys_proper : proper toyKeys.
Proof. apply toy_proper. repeat constructor; lia. Qed.

(** The two signers of three are the bits; the node above the last one, whose neighbour is padding, holds a signature
    that verifies. *)
Lemma bls_proof_sound_witness :
  toyMerged.(bp_msg) = "vote" /\ bs_elems (BLS_SignatureBitSet toyMerged) = {[0; 2]} /\
  Get toyMerged.(bp_sigTree) 5 = Some (5, 25) /\ BLS_Verify 5 "vote" (g_Compress 25) = true /\
  exists l key sig, Get toyMerged.(bp_sigTree) (node 2 l (2 / 2 ^ l)) = Some (key, sig) /\ sig <> g_zero.
Proof.
  destruct (bls_proof_sound "vote" "hash" toyKeys toyMerged toyKeys_proper toy_reach) as (Hm & Hh & d & Hw & Hs & Hi).
  assert (Hb : bs_elems (BLS_SignatureBitSet toyMerged) = {[0; 2]}) by (vm_compute; reflexivity).
  assert (Hg : Get toyMerged.(bp_sigTree) 5 = Some (5, 25)) by (vm_compute; reflexivity).
  assert (Hd : d = 2) by (apply (Nat.pow_inj_r 2); [lia|]; rewrite <- Hw; reflexivity).
  split; [exact Hm|]. split; [exact Hb|]. split; [exact Hg|]. split.
  - refine (proj1 (Hs 5 5 25 Hg _)). discriminate.
  - assert (H2 : 2 ∈ bs_elems (BLS_SignatureBitSet toyMerged)) by (rewrite Hb; apply elem_of_union_r, elem_of_singleton; reflexivity).
    destruct (proj1 (Hi 2) H2) as (_ & l & key & sig & _ & Hk & Hn). rewrite Hd in Hk. exists l, key, sig. split; [exact Hk|exact Hn].
Defined.

Lemma bls_sparse_roundtrip_witness :
  exists p' r, BLS_MergeSparse (BLS_AsSparse toyMerged) (BLS_Derive toyMerged) = Ret (p', r) /\
    bs_elems (BLS_SignatureBitSet p') = {[0; 2]} /\ r.(AllValidSignatures) = true /\ r.(IncreasedSignatures) = true.
Proof.
  assert (Hk : length toyKeys <= 2 ^ 15) by (apply Nat.leb_le; vm_compute; reflexivity).
  destruct (bls_sparse_roundtrip "vote" "hash" toyKeys toyMerged toyKeys_proper toy_reach Hk) as (p' & r & Hr & Hb & _ & Hv & Hi).
  exists p', r. split; [exact Hr|]. split; [rewrite Hb; vm_compute; reflexivity|]. split; [exact Hv|]. rewrite Hi. vm_compute. reflexivity.
Defined.
