(* ===== verification/Gossip.v ===== *)
(** The gossip strategy of tm/tmgossip/chattystrategy.go: what it broadcasts of the network view updates that
    the mirror's gossip view manager sends it (Managers.v). *)
From S2P Require Import Prelude.
From S2P Require Import Types.
From S2P Require Import BitSets.
From S2P Require Import SigProof.
From S2P Require Import SimpleProofs.
From S2P Require Import RoundView.
From S2P Require Import Managers.
Local Open Scope Z_scope.

(** InPlaceUnion of the bit set library. *)
Class BitSetUnion (B : Type) := bs_InPlaceUnion : B -> B -> B.
Class BitSetUnionLaws (B : Type) `{BitSetLaws B, !BitSetUnion B} :=
  bs_elems_InPlaceUnion a b : bs_elems (bs_InPlaceUnion a b) = bs_elems a ∪ bs_elems b.

#[export] Instance gset_BitSetUnion : BitSetUnion (gset nat) := fun a b => a ∪ b.
#[export] Instance gset_BitSetUnionLaws : BitSetUnionLaws (gset nat).
Proof. intros a b. done. Qed.

(** What goes out over the channels of the ConsensusBroadcaster. *)
Inductive Broadcast :=
| OutgoingProposedHeader (ph : ProposedHeader)
| OutgoingPrevoteProof (p : PrevoteSparseProof)
| OutgoingPrecommitProof (p : PrecommitSparseProof).

(** What was broadcast, and how many more sends complete before the context is cancelled; None when it never is. *)
Record Wire := MkWire { sent : list Broadcast; room : option nat }.

(** A step of the strategy: the wire after it, and whether to continue. *)
Definition Sending : Type := Wire -> Wire * bool.

Definition done_ : Sending := fun w => (w, true).
Definition quit : Sending := fun w => (w, false).
Definition andThen (a b : Sending) : Sending := fun w => let '(w, ok) := a w in if ok : bool then b w else (w, false).
Notation "a &> b" := (andThen a b) (at level 42, right associativity).

(** gchan.SendC. *)
Definition SendC (b : Broadcast) : Sending := fun w =>
  match w.(room) with
  | Some O => (w, false)
  | Some (S n) => (MkWire (w.(sent) ++ [b]) (Some n), true)
  | None => (MkWire (w.(sent) ++ [b]) None, true)
  end.

Section strategy.
Context {P B : Type} `{BitSet B, !BitSetUnion B, !CMSP P B, !CMSPScheme P}.
Notation VRV := (VersionedRoundView P).

Fixpoint sendHeaders (phs : list ProposedHeader) : Sending :=
  match phs with
  | [] => done_
  | ph :: phs => SendC (OutgoingProposedHeader ph) &> sendHeaders phs
  end.
Definition broadcastProposedBlocks (view : VRV) : Sending := sendHeaders view.(vrv_RV).(rv_ProposedHeaders).

Definition broadcastPrevotes (view : VRV) : Sending :=
  if (gm_len view.(vrv_RV).(rv_PrevoteProofs) =? 0)%nat then done_
  else
    match PrevoteProof_AsSparse (MkPrevoteProof view.(vrv_RV).(rv_Height) view.(vrv_RV).(rv_Round) view.(vrv_RV).(rv_PrevoteProofs)) with
    | (_, Some _) => quit
    | (sparse, None) => SendC (OutgoingPrevoteProof sparse)
    end.

Definition broadcastPrecommits (view : VRV) : Sending :=
  if (gm_len view.(vrv_RV).(rv_PrecommitProofs) =? 0)%nat then done_
  else
    match PrecommitProof_AsSparse (MkPrecommitProof view.(vrv_RV).(rv_Height) view.(vrv_RV).(rv_Round) view.(vrv_RV).(rv_PrecommitProofs)) with
    | (_, Some _) => quit
    | (sparse, None) => SendC (OutgoingPrecommitProof sparse)
    end.

Definition broadcastAll (view : VRV) : Sending :=
  broadcastProposedBlocks view &> broadcastPrevotes view &> broadcastPrecommits view.

(** The bits set in any proof of a map. *)
Definition unionOf (proofs : gomap P) : B :=
  foldl (fun bs e => bs_InPlaceUnion bs (cmsp_SignatureBitSet e.2)) (bs_New 0) (gm_entries proofs).

Definition broadcastUpdatesOnly (prev cur : VRV) : Sending :=
  (if (length cur.(vrv_RV).(rv_ProposedHeaders) =? length prev.(vrv_RV).(rv_ProposedHeaders))%nat then done_
   else broadcastProposedBlocks cur) &>
  (if (bs_Count (unionOf cur.(vrv_RV).(rv_PrevoteProofs)) =? bs_Count (unionOf prev.(vrv_RV).(rv_PrevoteProofs)))%nat then done_
   else broadcastPrevotes cur) &>
  (if (bs_Count (unionOf cur.(vrv_RV).(rv_PrecommitProofs)) =? bs_Count (unionOf prev.(vrv_RV).(rv_PrecommitProofs)))%nat then done_
   else broadcastPrecommits cur).

Definition broadcastViewDiff (prev cur : VRV) : Sending :=
  if (cur.(vrv_RV).(rv_Height) =? prev.(vrv_RV).(rv_Height)) && (cur.(vrv_RV).(rv_Round) =? prev.(vrv_RV).(rv_Round))
  then broadcastUpdatesOnly prev cur else broadcastAll cur.

(** The variables of the kernel that remember views. *)
Record Slots := MkSlots { prevVotingView : VRV; prevCommittingView : VRV; prevNextRoundView : VRV }.

Definition onView (view : option VRV) (f : VRV -> Sending) : Sending := match view with None => done_ | Some v => f v end.

(** The assignments after the broadcasts. *)
Definition remember (u : NetworkViewUpdate P) (s : Slots) : Slots :=
  MkSlots (default s.(prevVotingView) u.(nvu_Voting)) (default s.(prevCommittingView) u.(nvu_Committing))
          (default s.(prevNextRoundView) u.(nvu_NextRound)).

(** One update of the main loop. *)
Definition onUpdate (u : NetworkViewUpdate P) (s : Slots) : Sending :=
  onView u.(nvu_Committing) (broadcastViewDiff s.(prevCommittingView)) &>
  onView u.(nvu_NilVotedRound) broadcastPrecommits &>
  onView u.(nvu_Voting) (broadcastViewDiff s.(prevVotingView)) &>
  onView u.(nvu_NextRound) (broadcastViewDiff s.(prevNextRoundView)).

Fixpoint chattyLoop (us : list (NetworkViewUpdate P)) (s : Slots) : Sending :=
  match us with
  | [] => done_
  | u :: us => onUpdate u s &> chattyLoop us (remember u s)
  end.

(** The first update is broadcast whole. *)
Definition chattyKernel (u : NetworkViewUpdate P) (us : list (NetworkViewUpdate P)) (w : Wire) : outcome (Wire * bool) :=
  match u.(nvu_Voting) with
  | None => Panic "TODO: handle nil voting view on first update"
  | Some voting =>
      Ret ((broadcastAll voting &> onView u.(nvu_Committing) broadcastAll &> onView u.(nvu_NextRound) broadcastAll &>
            chattyLoop us (remember u (MkSlots VRV_zero VRV_zero VRV_zero))) w)
  end.
End strategy.

(** * What reaches the network *)
Section covered.
Context {P B : Type} `{BitSetLaws B, !BitSetUnion B, !BitSetUnionLaws B, !CMSP P B, !CMSPScheme P}.
Notation VRV := (VersionedRoundView P).
Implicit Types (m : gomap P) (v prev cur : VRV).

Definition bitsAt m (hash : bytes) (i : nat) : Prop :=
  exists p, gm_get m hash = Some p /\ i ∈ bs_elems (cmsp_SignatureBitSet p).

(** Every vote of [m] is in [m']. *)
Definition votesGrow m m' : Prop := forall hash i, bitsAt m hash i -> bitsAt m' hash i.

(** No validator votes for two hashes. *)
Definition oneVote m : Prop := forall hash hash' i, bitsAt m hash i -> bitsAt m hash' i -> hash = hash'.

(** The proofs of a map name one key set. *)
Definition oneKeySet m : Prop := exists hash, forall k p, gm_get m k = Some p -> cmsp_PubKeyHash p = hash.

(** A vote map is out when it has no votes or one message has all of them. *)
Definition votesOut (out : gomap P -> Prop) m : Prop :=
  (forall hash i, ~ bitsAt m hash i) \/ exists m', out m' /\ votesGrow m m'.

Definition prevoteOut (l : list Broadcast) v m : Prop :=
  OutgoingPrevoteProof (PrevoteProof_AsSparse (MkPrevoteProof v.(vrv_RV).(rv_Height) v.(vrv_RV).(rv_Round) m)).1 ∈ l.
Definition precommitOut (l : list Broadcast) v m : Prop :=
  OutgoingPrecommitProof (PrecommitProof_AsSparse (MkPrecommitProof v.(vrv_RV).(rv_Height) v.(vrv_RV).(rv_Round) m)).1 ∈ l.

Record viewOut (l : list Broadcast) v : Prop := {
  out_headers : forall ph, ph ∈ v.(vrv_RV).(rv_ProposedHeaders) -> OutgoingProposedHeader ph ∈ l;
  out_prevotes : votesOut (prevoteOut l v) v.(vrv_RV).(rv_PrevoteProofs);
  out_precommits : votesOut (precommitOut l v) v.(vrv_RV).(rv_PrecommitProofs)
}.

(** What the mirror sends: views whose proofs name one key set and in which nobody votes twice. *)
Record viewFine v : Prop := {
  fine_prevotes : oneVote v.(vrv_RV).(rv_PrevoteProofs) /\ oneKeySet v.(vrv_RV).(rv_PrevoteProofs);
  fine_precommits : oneVote v.(vrv_RV).(rv_PrecommitProofs) /\ oneKeySet v.(vrv_RV).(rv_PrecommitProofs)
}.

(** A later view of the same round has what the earlier one had. *)
Definition viewGrows prev cur : Prop :=
  cur.(vrv_RV).(rv_Height) = prev.(vrv_RV).(rv_Height) -> cur.(vrv_RV).(rv_Round) = prev.(vrv_RV).(rv_Round) ->
  (exists l, cur.(vrv_RV).(rv_ProposedHeaders) = prev.(vrv_RV).(rv_ProposedHeaders) ++ l) /\
  votesGrow prev.(vrv_RV).(rv_PrevoteProofs) cur.(vrv_RV).(rv_PrevoteProofs) /\
  votesGrow prev.(vrv_RV).(rv_PrecommitProofs) cur.(vrv_RV).(rv_PrecommitProofs).

(** ** Sparse forms and unions *)
Lemma sparseEntries_ok hash (l : list (bytes * P)) g :
  (forall e, e ∈ l -> cmsp_PubKeyHash e.2 = hash) -> (sparseEntries hash g l).2 = None.
Proof.
  revert g. induction l as [|[k p] l IH]; intros g Hl; [done|]. simpl. assert (cmsp_PubKeyHash p = hash) as -> by (apply (Hl (k, p)); by left).
  rewrite String.eqb_refl. apply IH. intros e He. apply Hl. by right.
Qed.

Lemma oneKeySet_sparse m g : oneKeySet m -> (sparseEntries (firstPubKeyHash (gm_entries m)) g (gm_entries m)).2 = None.
Proof.
  intros [hash Hm]. assert (Hall : forall e, e ∈ gm_entries m -> cmsp_PubKeyHash e.2 = hash).
  { intros [k p] He. apply (Hm k p). unfold gm_entries in He. by apply elem_of_map_to_list in He. }
  apply sparseEntries_ok. intros e He. rewrite (Hall e He). destruct (gm_entries m) as [|[k p] l]; [by apply not_elem_of_nil in He|].
  symmetry. apply (Hall (k, p)). by left.
Qed.

Lemma elem_of_unionOf m i : i ∈ bs_elems (unionOf m) <-> exists hash, bitsAt m hash i.
Proof.
  unfold unionOf. assert (Hf : forall l b, i ∈ bs_elems (foldl (fun bs e => bs_InPlaceUnion bs (cmsp_SignatureBitSet e.2)) b l) <->
    i ∈ bs_elems b \/ exists e, e ∈ l /\ i ∈ bs_elems (cmsp_SignatureBitSet (e : bytes * P).2)).
  { induction l as [|e l IH]; intros b; simpl.
    - split; [by left|]. intros [?|(e & He & _)]; [done|by apply not_elem_of_nil in He].
    - rewrite IH, bs_elems_InPlaceUnion, elem_of_union. set_solver. }
  rewrite Hf, bs_elems_New. unfold bitsAt, gm_entries, gm_get. split.
  - intros [?|([k p] & He & Hi)]; [set_solver|]. apply elem_of_map_to_list in He. by exists k, p.
  - intros (k & p & He & Hi). right. exists (k, p). by rewrite elem_of_map_to_list.
Qed.

(** The comparison of counts: equal counts mean no new vote. *)
Lemma same_count_no_votes m m' : votesGrow m m' -> oneVote m' ->
  bs_Count (unionOf m') = bs_Count (unionOf m) -> votesGrow m' m.
Proof.
  intros Hg Ho. rewrite !bs_Count_spec. intros Hc hash i Hi.
  assert (Hsub : bs_elems (unionOf m) ⊆ bs_elems (unionOf m')).
  { intros j [k Hk]%elem_of_unionOf. apply elem_of_unionOf. exists k. by apply Hg. }
  assert (Hin : i ∈ bs_elems (unionOf m)).
  { rewrite (set_subseteq_size_eq _ _ Hsub) by lia. apply elem_of_unionOf. by exists hash. }
  apply elem_of_unionOf in Hin as [k Hk]. by rewrite (Ho hash k i Hi (Hg k i Hk)).
Qed.

(** ** Runs that are not cancelled *)

(** [a] continues, only adds to what was broadcast, and takes [R] to [Q]. *)
Definition extends (a : Sending) (R Q : list Broadcast -> Prop) : Prop :=
  forall w, w.(room) = None -> R w.(sent) ->
  exists w', a w = (w', true) /\ w'.(room) = None /\ w.(sent) ⊆ w'.(sent) /\ Q w'.(sent).

Definition upward (R : list Broadcast -> Prop) : Prop := forall l l', l ⊆ l' -> R l -> R l'.

Lemma extends_done (R Q : list Broadcast -> Prop) : (forall l, R l -> Q l) -> extends done_ R Q.
Proof. intros HQ w Hr HR. exists w. split; [done|]. split; [done|]. split; [done|]. by apply HQ. Qed.

Lemma extends_then a b (R Q Q' : list Broadcast -> Prop) : upward R -> upward Q ->
  extends a R Q -> extends b (fun l => R l /\ Q l) Q' -> extends (a &> b) R (fun l => Q l /\ Q' l).
Proof.
  intros HR HQ Ha Hb w Hw Hr. destruct (Ha w Hw Hr) as (w1 & E1 & Hw1 & Hs1 & Hq1).
  destruct (Hb w1 Hw1 (conj (HR _ _ Hs1 Hr) Hq1)) as (w2 & E2 & Hw2 & Hs2 & Hq2).
  exists w2. unfold andThen. rewrite E1. split; [done|]. split; [done|]. split; [by transitivity (sent w1)|]. split; [by eapply HQ|done].
Qed.

Lemma extends_mono a (R R' Q Q' : list Broadcast -> Prop) : (forall l, R' l -> R l) -> (forall l, Q l -> Q' l) ->
  extends a R Q -> extends a R' Q'.
Proof. intros HR HQ Ha w Hw Hr. destruct (Ha w Hw (HR _ Hr)) as (w' & ? & ? & ? & ?). exists w'. auto. Qed.

Lemma extends_send b (R : list Broadcast -> Prop) : extends (SendC b) R (fun l => b ∈ l).
Proof.
  intros [l r] Hw _. simpl in Hw. subst r. exists (MkWire (l ++ [b]) None). split; [done|]. split; [done|].
  split; simpl; set_solver.
Qed.

Lemma upward_votesOut (out : list Broadcast -> gomap P -> Prop) m :
  (forall m', upward (fun l => out l m')) -> upward (fun l => votesOut (out l) m).
Proof. intros Ho l l' Hl [Hn|(m' & Hm' & Hg)]; [by left|]. right. exists m'. split; [by eapply Ho|done]. Qed.

Lemma upward_prevoteOut v m : upward (fun l => votesOut (prevoteOut l v) m).
Proof. apply upward_votesOut. intros m' l l' Hl. apply Hl. Qed.

Lemma upward_precommitOut v m : upward (fun l => votesOut (precommitOut l v) m).
Proof. apply upward_votesOut. intros m' l l' Hl. apply Hl. Qed.

Lemma upward_headers (phs : list ProposedHeader) : upward (fun l => forall ph, ph ∈ phs -> OutgoingProposedHeader ph ∈ l).
Proof. intros l l' Hl Hh ph Hph. by apply Hl, Hh. Qed.

Lemma upward_viewOut v : upward (fun l => viewOut l v).
Proof.
  intros l l' Hl [Hh Hp Hc]. split.
  - by eapply upward_headers.
  - by eapply upward_prevoteOut.
  - by eapply upward_precommitOut.
Qed.

Lemma votesOut_grow (out : gomap P -> Prop) m m' : votesGrow m' m -> votesOut out m -> votesOut out m'.
Proof.
  intros Hg [Hn|(m1 & Hm1 & Hg1)].
  - left. intros hash i Hi. by apply (Hn hash i), Hg.
  - right. exists m1. split; [done|]. intros hash i Hi. by apply Hg1, Hg.
Qed.

Lemma no_entries_no_bits m : (gm_len m =? 0)%nat = true -> forall hash i, ~ bitsAt m hash i.
Proof.
  intros Hl hash i (p & Hp & _). apply Nat.eqb_eq in Hl. unfold gm_len in Hl. apply map_size_empty_inv in Hl.
  unfold gm_get in Hp. by rewrite Hl, lookup_empty in Hp.
Qed.

Lemma sends_headers v R : extends (broadcastProposedBlocks v) R
  (fun l => forall ph, ph ∈ v.(vrv_RV).(rv_ProposedHeaders) -> OutgoingProposedHeader ph ∈ l).
Proof.
  eapply (extends_mono _ (fun _ => True)); [done|by intros l Hl; exact Hl|].
  unfold broadcastProposedBlocks. induction (rv_ProposedHeaders (vrv_RV v)) as [|ph phs IH]; simpl.
  - apply extends_done. intros l _ ph Hph. by apply not_elem_of_nil in Hph.
  - eapply (extends_mono _ (fun _ => True)); [done| |apply (extends_then _ _ _ (fun l => OutgoingProposedHeader ph ∈ l)); [done|intros l l' Hl; apply Hl|apply extends_send|]].
    + intros l [Hh Ht] ph' [->|Hin]%elem_of_cons; [exact Hh|exact (Ht _ Hin)].
    + by eapply extends_mono; [| |exact IH].
Qed.

Lemma sends_prevotes v R : oneKeySet v.(vrv_RV).(rv_PrevoteProofs) ->
  extends (broadcastPrevotes v) R (fun l => votesOut (prevoteOut l v) v.(vrv_RV).(rv_PrevoteProofs)).
Proof.
  intros Hk. unfold broadcastPrevotes. destruct (_ =? 0)%nat eqn:El.
  - apply extends_done. intros l _. left. by apply no_entries_no_bits.
  - destruct (PrevoteProof_AsSparse _) as [sparse err] eqn:Es.
    pose proof (oneKeySet_sparse _ ∅ Hk) as Hok. unfold PrevoteProof_AsSparse in Es. cbn [pv_Proofs] in Es.
    destruct (sparseEntries _ _ _) as [g e] eqn:Ee. cbn in Hok. subst e. injection Es as Hs <-.
    eapply extends_mono; [done| |apply extends_send]. intros l Hl. right. eexists. split; [|by intros hash i Hi; exact Hi].
    unfold prevoteOut, PrevoteProof_AsSparse. cbn [pv_Proofs]. rewrite Ee. cbn in *. by rewrite Hs.
Qed.

Lemma sends_precommits v R : oneKeySet v.(vrv_RV).(rv_PrecommitProofs) ->
  extends (broadcastPrecommits v) R (fun l => votesOut (precommitOut l v) v.(vrv_RV).(rv_PrecommitProofs)).
Proof.
  intros Hk. unfold broadcastPrecommits. destruct (_ =? 0)%nat eqn:El.
  - apply extends_done. intros l _. left. by apply no_entries_no_bits.
  - destruct (PrecommitProof_AsSparse _) as [sparse err] eqn:Es.
    pose proof (oneKeySet_sparse _ ∅ Hk) as Hok. unfold PrecommitProof_AsSparse in Es. cbn [pc_Proofs] in Es.
    destruct (sparseEntries _ _ _) as [g e] eqn:Ee. cbn in Hok. subst e. injection Es as Hs <-.
    eapply extends_mono; [done| |apply extends_send]. intros l Hl. right. eexists. split; [|by intros hash i Hi; exact Hi].
    unfold precommitOut, PrecommitProof_AsSparse. cbn [pc_Proofs]. rewrite Ee. cbn in *. by rewrite Hs.
Qed.

(** ** One view *)

Lemma upward_and (R Q : list Broadcast -> Prop) : upward R -> upward Q -> upward (fun l => R l /\ Q l).
Proof. intros HR HQ l l' Hl [Hr Hq]. split; [by eapply HR|by eapply HQ]. Qed.

Lemma upward_True : upward (fun _ => True).
Proof. by intros l l' _ _. Qed.

Local Hint Resolve upward_and upward_True upward_viewOut upward_headers upward_prevoteOut upward_precommitOut : core.

(** The three parts of a view, one after the other. *)
Lemma extends_view a b c v (R : list Broadcast -> Prop) : upward R ->
  (forall R', (forall l, R' l -> R l) -> extends a R' (fun l => forall ph, ph ∈ v.(vrv_RV).(rv_ProposedHeaders) -> OutgoingProposedHeader ph ∈ l)) ->
  (forall R', (forall l, R' l -> R l) -> extends b R' (fun l => votesOut (prevoteOut l v) v.(vrv_RV).(rv_PrevoteProofs))) ->
  (forall R', (forall l, R' l -> R l) -> extends c R' (fun l => votesOut (precommitOut l v) v.(vrv_RV).(rv_PrecommitProofs))) ->
  extends (a &> b &> c) R (fun l => viewOut l v).
Proof.
  intros HR Ha Hb Hc. eapply (extends_mono _ R); [done| |apply extends_then; [done| |by apply Ha|apply extends_then; [| |apply Hb|apply Hc]]]; auto.
  - intros l (Hh & Hp & Hq). by split.
  - by intros l [? _].
  - by intros l [[? _] _].
Qed.

Lemma sends_all v : viewFine v -> forall R, upward R -> extends (broadcastAll v) R (fun l => viewOut l v).
Proof.
  intros [[_ Hp] [_ Hc]] R HR. apply extends_view; [done|..]; intros R' _; [apply sends_headers|by apply sends_prevotes|by apply sends_precommits].
Qed.

Lemma sends_diff prev cur : viewFine cur -> viewGrows prev cur ->
  extends (broadcastViewDiff prev cur) (fun l => viewOut l prev) (fun l => viewOut l cur).
Proof.
  intros Hf Hg. unfold broadcastViewDiff.
  destruct (Z.eqb_spec cur.(vrv_RV).(rv_Height) prev.(vrv_RV).(rv_Height)) as [Hh|]; [|by apply sends_all].
  destruct (Z.eqb_spec cur.(vrv_RV).(rv_Round) prev.(vrv_RV).(rv_Round)) as [Hr|]; [|by apply sends_all].
  destruct (Hg Hh Hr) as ([phs Hphs] & Hgp & Hgc). destruct Hf as [[Hop Hkp] [Hoc Hkc]].
  simpl. unfold broadcastUpdatesOnly. apply extends_view; [auto|..]; intros R' HR'.
  - destruct (Nat.eqb_spec (length (rv_ProposedHeaders (vrv_RV cur))) (length (rv_ProposedHeaders (vrv_RV prev)))) as [Hl|]; [|apply sends_headers].
    apply extends_done. intros l Hl' ph Hph. apply (out_headers _ _ (HR' _ Hl')). rewrite Hphs in Hph, Hl.
    rewrite length_app in Hl. destruct phs; [by rewrite app_nil_r in Hph|simpl in Hl; lia].
  - destruct (Nat.eqb_spec (bs_Count (unionOf (rv_PrevoteProofs (vrv_RV cur)))) (bs_Count (unionOf (rv_PrevoteProofs (vrv_RV prev))))) as [Hl|];
      [|by apply sends_prevotes].
    apply extends_done. intros l Hl'. eapply votesOut_grow; [by eapply same_count_no_votes|].
    unfold prevoteOut. rewrite Hh, Hr. apply (out_prevotes _ _ (HR' _ Hl')).
  - destruct (Nat.eqb_spec (bs_Count (unionOf (rv_PrecommitProofs (vrv_RV cur)))) (bs_Count (unionOf (rv_PrecommitProofs (vrv_RV prev))))) as [Hl|];
      [|by apply sends_precommits].
    apply extends_done. intros l Hl'. eapply votesOut_grow; [by eapply same_count_no_votes|].
    unfold precommitOut. rewrite Hh, Hr. apply (out_precommits _ _ (HR' _ Hl')).
Qed.

(** ** The updates *)

Definition some (P' : VRV -> Prop) (view : option VRV) : Prop := match view with None => True | Some v => P' v end.

Definition slotsOut (l : list Broadcast) (s : Slots (P := P)) : Prop :=
  viewOut l s.(prevCommittingView) /\ viewOut l s.(prevVotingView) /\ viewOut l s.(prevNextRoundView).

Definition nilVotesOut (l : list Broadcast) v : Prop := votesOut (precommitOut l v) v.(vrv_RV).(rv_PrecommitProofs).

(** Everything in an update is out; of a nil voted round, the precommits. *)
Record updateOut (l : list Broadcast) (u : NetworkViewUpdate P) : Prop := {
  uo_committing : some (viewOut l) u.(nvu_Committing);
  uo_voting : some (viewOut l) u.(nvu_Voting);
  uo_nextRound : some (viewOut l) u.(nvu_NextRound);
  uo_nilVoted : some (nilVotesOut l) u.(nvu_NilVotedRound)
}.

(** What the mirror sends in an update that follows remembered views. *)
Record updateFine (s : Slots (P := P)) (u : NetworkViewUpdate P) : Prop := {
  uf_committing : some (fun v => viewFine v /\ viewGrows s.(prevCommittingView) v) u.(nvu_Committing);
  uf_voting : some (fun v => viewFine v /\ viewGrows s.(prevVotingView) v) u.(nvu_Voting);
  uf_nextRound : some (fun v => viewFine v /\ viewGrows s.(prevNextRoundView) v) u.(nvu_NextRound);
  uf_nilVoted : some (fun v => oneKeySet v.(vrv_RV).(rv_PrecommitProofs)) u.(nvu_NilVotedRound)
}.

Fixpoint updatesFine (s : Slots (P := P)) (us : list (NetworkViewUpdate P)) : Prop :=
  match us with [] => True | u :: us => updateFine s u /\ updatesFine (remember u s) us end.

Lemma upward_some (Q : list Broadcast -> VRV -> Prop) view : (forall v, upward (fun l => Q l v)) -> upward (fun l => some (Q l) view).
Proof. intros HQ. destruct view as [v|]; simpl; [apply HQ|apply upward_True]. Qed.

Lemma upward_updateOut u : upward (fun l => updateOut l u).
Proof.
  intros l l' Hl [H1 H2 H3 H4]. split.
  1-3: eapply (upward_some viewOut); [apply upward_viewOut|done|done].
  eapply (upward_some nilVotesOut); [intros v; apply upward_precommitOut|done|done].
Qed.

Lemma upward_slotsOut s : upward (fun l => slotsOut l s).
Proof. intros l l' Hl (H1 & H2 & H3). split; [|split]; by eapply upward_viewOut. Qed.

Lemma sends_slot prev view (R : list Broadcast -> Prop) : (forall l, R l -> viewOut l prev) ->
  some (fun v => viewFine v /\ viewGrows prev v) view ->
  extends (onView view (broadcastViewDiff prev)) R (fun l => some (viewOut l) view).
Proof.
  intros HR Hv. destruct view as [v|]; simpl.
  - eapply (extends_mono _ (fun l => viewOut l prev)); [done|by intros l Hl; exact Hl|]. by apply sends_diff; apply Hv.
  - by apply extends_done.
Qed.

Lemma sends_nil view (R : list Broadcast -> Prop) : some (fun v => oneKeySet v.(vrv_RV).(rv_PrecommitProofs)) view ->
  extends (onView view broadcastPrecommits) R (fun l => some (nilVotesOut l) view).
Proof. intros Hv. destruct view as [v|]; simpl; [by apply sends_precommits|by apply extends_done]. Qed.

Lemma sends_update s u : updateFine s u ->
  extends (onUpdate u s) (fun l => slotsOut l s) (fun l => updateOut l u /\ slotsOut l (remember u s)).
Proof.
  intros [Hc Hv Hn Hnil]. unfold onUpdate.
  pose proof (upward_slotsOut s) as Hs.
  assert (Hview : forall view, upward (fun l => some (viewOut l) view)) by (intros view; apply upward_some, upward_viewOut).
  assert (Hnilu : forall view, upward (fun l => some (nilVotesOut l) view)) by (intros view; apply upward_some; intros v; apply upward_precommitOut).
  intros w Hw Hso.
  assert (Hx : extends (onView (nvu_Committing u) (broadcastViewDiff (prevCommittingView s)) &>
    onView (nvu_NilVotedRound u) broadcastPrecommits &> onView (nvu_Voting u) (broadcastViewDiff (prevVotingView s)) &>
    onView (nvu_NextRound u) (broadcastViewDiff (prevNextRoundView s))) (fun l => slotsOut l s)
    (fun l => some (viewOut l) (nvu_Committing u) /\ some (nilVotesOut l) (nvu_NilVotedRound u) /\
              some (viewOut l) (nvu_Voting u) /\ some (viewOut l) (nvu_NextRound u))).
  { apply extends_then; [auto..| |apply extends_then; [auto..| |apply extends_then; [auto..| |]]].
    - apply sends_slot; [|done]. by intros l (? & _ & _).
    - by apply sends_nil.
    - apply sends_slot; [|done]. by intros l [[(_ & ? & _) _] _].
    - apply sends_slot; [|done]. by intros l [[[(_ & _ & ?) _] _] _]. }
  destruct (Hx w Hw Hso) as (w' & E & Hw' & Hsub & Hout). exists w'. split; [done|]. split; [done|]. split; [done|].
  destruct Hout as (H1 & H2 & H3 & H4). split; [by split|]. pose proof (Hs _ _ Hsub Hso) as (S1 & S2 & S3).
  unfold slotsOut, remember. simpl. split; [|split].
  - by destruct (nvu_Committing u).
  - by destruct (nvu_Voting u).
  - by destruct (nvu_NextRound u).
Qed.

Lemma sends_loop us s : updatesFine s us ->
  extends (chattyLoop us s) (fun l => slotsOut l s) (fun l => forall u, u ∈ us -> updateOut l u).
Proof.
  revert s. induction us as [|u us IH]; intros s Hus.
  - apply extends_done. intros l _ u Hu. by apply not_elem_of_nil in Hu.
  - destruct Hus as [Hu Hus]. eapply (extends_mono _ (fun l => slotsOut l s)); [done| |apply (extends_then _ _ _ (fun l => updateOut l u /\ slotsOut l (remember u s)) (fun l => forall u, u ∈ us -> updateOut l u))].
    + intros l [[Hou _] Hous] u' [->|Hin]%elem_of_cons; [exact Hou|exact (Hous u' Hin)].
    + apply upward_slotsOut.
    + apply upward_and; [apply upward_updateOut|apply upward_slotsOut].
    + by apply sends_update.
    + eapply extends_mono; [| |by apply (IH (remember u s))]; [|done]. by intros l (_ & _ & ?).
Qed.
End covered.

Section theorem.
Context {P B : Type} `{BitSetLaws B, !BitSetUnion B, !BitSetUnionLaws B, !CMSP P B, !CMSPScheme P}.

End theorem.

(** ** A run, and a vote that stays behind *)
Definition votedBy (bits : gset nat) : SimpleProof (gset nat) := MkSimple "m" ∅ [] ∅ "h" bits.
Definition viewWith (votes : gmap bytes (SimpleProof (gset nat))) : VersionedRoundView (SimpleProof (gset nat)) :=
  vrv_upd (fun rv => {| rv with rv_Height := 1; rv_PrevoteProofs := Some votes |}) VRV_zero.
Definition votingUpdate (votes : gmap bytes (SimpleProof (gset nat))) : NetworkViewUpdate (SimpleProof (gset nat)) :=
  MkNVU None (Some (viewWith votes)) None None.
Definition oneVoter : gmap bytes (SimpleProof (gset nat)) := {["x" := votedBy {[0%nat]}]}.
Definition twoVoters : gmap bytes (SimpleProof (gset nat)) := <["y" := votedBy {[1%nat]}]> oneVoter.
Definition doubleVoter : gmap bytes (SimpleProof (gset nat)) := <["y" := votedBy {[0%nat]}]> oneVoter.
#[local] Existing Instance toyVerify.

Definition runOf (us : list (NetworkViewUpdate (SimpleProof (gset nat)))) : Wire :=
  match chattyKernel (votingUpdate oneVoter) us (MkWire [] None) with Ret (w, _) => w | Panic _ => MkWire [] None end.

(** When a validator votes for a second hash the number of voters is the same, and the vote is never sent. *)
Lemma second_vote_not_sent : runOf [votingUpdate doubleVoter] = runOf [] /\ runOf [votingUpdate twoVoters] <> runOf [].
Proof. split; [vm_compute; reflexivity|]. vm_compute. discriminate. Qed.

Lemma oneVoter_bits hash i : bitsAt (Some oneVoter) hash i -> hash = "x" /\ i = 0%nat.
Proof.
  intros (p & Hp & Hi). unfold gm_get, oneVoter in Hp. simpl in Hp. apply lookup_singleton_Some in Hp as [<- <-].
  split; [done|]. cbn in Hi. by apply elem_of_singleton in Hi.
Qed.

Lemma twoVoters_bits hash i : bitsAt (Some twoVoters) hash i -> hash = "x" /\ i = 0%nat \/ hash = "y" /\ i = 1%nat.
Proof.
  intros (p & Hp & Hi). unfold gm_get, twoVoters in Hp. simpl in Hp. apply lookup_insert_Some in Hp as [[<- <-]|[_ Hp]].
  - right. split; [done|]. cbn in Hi. by apply elem_of_singleton in Hi.
  - left. apply oneVoter_bits. by exists p.
Qed.

Lemma none_fine : oneVote (P := SimpleProof (gset nat)) (B := gset nat) None /\ oneKeySet (P := SimpleProof (gset nat)) (B := gset nat) None.
Proof. split; [intros hash hash' i (p & Hp & _); done|exists "h"; intros k p Hp; done]. Qed.

