(* ===== verification/Delivery.v ===== *)
(** Majorities that are delivered commit: the kernel handles a precommit request that completes a majority to the
    end, and the mirror call that carries such precommits finishes by itself. *)
From S2P Require Import Prelude Types BitSets Powers SigProof SimpleProofs VoteSummary RoundView.
From S2P Require Import Stores Managers KState KernelBase Kernel KernelHandlers KernelLoop Mirror.
From S2P Require Import KernelExample KernelSpec KernelRefine KernelSafety KernelTheorems KernelCommit MirrorSystem MirrorProofs.
From S2P Require Import HeaderChecks KernelPrompt.
From stdpp Require Import relations.
Local Open Scope Z_scope.

(** * Total correctness of the kernel's computations *)
Section total.
Context {P ST : Type}.
Implicit Types (w : World P ST).

(** The computation returns, and with a result of [Q]. *)
Definition tp {A} (m : K P ST A) w (Q : A -> World P ST -> Prop) : Prop := sure (m w) (fun r => Q r.1 r.2).

Lemma tp_ret {A} (a : A) w (Q : A -> World P ST -> Prop) : Q a w -> tp (mret a) w Q.
Proof. done. Qed.

Lemma tp_bind {A C} (m : K P ST A) (f : A -> K P ST C) w Q :
  tp m w (fun a w' => tp (f a) w' Q) -> tp (m ≫= f) w Q.
Proof. intros Hm. exact (sure_bind (m w) (fun r => f r.1 r.2) _ Hm). Qed.

Lemma tp_mono {A} (m : K P ST A) w (Q R : A -> World P ST -> Prop) :
  (forall a w', Q a w' -> R a w') -> tp m w Q -> tp m w R.
Proof. intros HQ. apply sure_mono. intros [a w']. apply HQ. Qed.

Lemma tp_liftO {A} (m : outcome A) w a (Q : A -> World P ST -> Prop) : m = Ret a -> Q a w -> tp (liftO m) w Q.
Proof. by intros -> HQ. Qed.

Lemma tp_modKO f w s (Q : unit -> World P ST -> Prop) :
  f w.(w_k) = Ret s -> Q tt {| w with w_k := s |} -> tp (modKO f) w Q.
Proof. intros Hf HQ. unfold tp, modKO. by rewrite Hf. Qed.

Lemma tp_callStore f w (Q : option error -> World P ST -> Prop) :
  (forall st e, Q e {| w with w_st := st |}) -> tp (callStore f) w Q.
Proof. intros HQ. unfold tp, callStore. simpl. apply HQ. Qed.

Lemma tp_forK {A} (f : A -> K P ST unit) l w : (forall a w, tp (f a) w (fun _ _ => True)) ->
  tp (forK f l) w (fun _ _ => True).
Proof.
  intros Hf. revert w. induction l as [|a l IH]; intros w; simpl; [done|].
  apply tp_bind. eapply tp_mono; [|apply Hf]. intros _ w' _. apply IH.
Qed.

(** What holds of every result holds of the one it has. *)
Lemma tp_wp {A} (m : K P ST A) w (Q R : A -> World P ST -> Prop) : tp m w Q -> wp m w R ->
  tp m w (fun a w' => Q a w' /\ R a w').
Proof. unfold tp, wp. destruct (m w) as [[a w']|]; simpl; auto. Qed.

Lemma tp_returns {A} (m : K P ST A) w (Q : A -> World P ST -> Prop) : tp m w Q ->
  exists a w', m w = Ret (a, w') /\ Q a w'.
Proof. unfold tp. destruct (m w) as [[a w']|]; simpl; [|done]. eauto. Qed.
End total.

(** * A majority request is handled to the end *)
Section kernel.
Context {P B ST : Type} `{BitSetLaws B, !CMSP P B, !CMSPScheme P, !KernelStores ST, !KernelStoresLaws ST}.
Context (k : Kernel).
Implicit Types (w : World P ST) (s : kState P).

Lemma available_positive n maj : ByzantineMajority n = Ret maj -> n <> 0.
Proof. by intros Hm ->. Qed.

Lemma ByzantineMinority_of n : n <> 0 -> exists min, ByzantineMinority n = Ret min.
Proof. intros Hn. unfold ByzantineMinority. destruct (Z.eqb_spec n 0); [done|]. case_match; eauto. Qed.

(** The power a distribution finds available. *)
Lemma newVoteDistribution_available (proofs : gomap P) vals :
  (newVoteDistribution proofs vals).(AvailableVotePower) = u64 (totalPowerZ vals).
Proof.
  unfold newVoteDistribution. rewrite <- (SetAvailablePower_spec vals NewVoteSummary). simpl.
  set (d := MkVoteDistribution _ _ _). change (foldl _ 0 vals) with d.(AvailableVotePower). generalize d. clear d.
  induction (gm_entries proofs) as [|e l IH]; intros d; simpl; [done|]. rewrite IH. unfold distStep.
  generalize d. induction (loopBits _ _) as [|i l2 IHi]; intros d'; simpl; [done|]. by rewrite IHi.
Qed.

Lemma tp_tryFetch dist min hash w : tp (tryFetch k dist min hash) w (fun _ _ => True).
Proof. unfold tryFetch. destruct (_ <? _); [done|]. apply tp_bind. unfold tp at 1; simpl. by case_bool_decide. Qed.

Lemma tp_checkMissingPHs proofs w : gm_len proofs <> 0%nat -> u64 (totalPowerZ (vVals w.(w_k).(s_Voting))) <> 0 ->
  tp (checkMissingPHs k proofs) w (fun _ w' => aeq (abs w) (abs w')).
Proof.
  intros Hlen Hpow. eapply (tp_mono _ _ (fun _ w' => True /\ aeq (abs w) (abs w'))); [by intros a w' [_ ?]|].
  apply tp_wp; [|apply frames_checkMissingPHs]. unfold checkMissingPHs. rewrite bool_decide_eq_false_2 by done.
  apply tp_bind. unfold tp at 1; simpl. case_bool_decide; [done|]. apply tp_bind.
  destruct (ByzantineMinority_of _ Hpow) as [min Hmin]. eapply tp_liftO; [by rewrite newVoteDistribution_available|].
  apply tp_forK. intros; apply tp_tryFetch.
Qed.

Lemma tp_respond b r w Q : (forall w', w'.(w_k) = w.(w_k) -> Q tt w') -> tp (respond b r) w Q.
Proof. intros HQ. destruct b; by apply HQ. Qed.

Lemma tp_updateObservers w Q : (forall e w', w'.(w_k) = w.(w_k) -> Q e w') -> tp updateObservers w Q.
Proof.
  intros HQ. unfold updateObservers. apply tp_bind. unfold tp at 1; simpl. apply tp_bind, tp_callStore.
  intros st e. by apply tp_ret, HQ.
Qed.

Lemma tp_save w Q : (forall e w', w'.(w_k) = w.(w_k) -> Q e w') -> tp saveCurrentCommittingHeader w Q.
Proof.
  intros HQ. unfold saveCurrentCommittingHeader. apply tp_bind. unfold tp at 1; simpl. apply tp_bind, tp_callStore.
  intros st e. by apply tp_ret, HQ.
Qed.

Lemma tp_shift nhd w Q :
  (forall s' cleared ch w', ShiftVotingToCommitting nhd w.(w_k) = (s', cleared, ch) -> w'.(w_k) = s' -> Q tt w') ->
  tp (shiftVotingToCommitting nhd) w Q.
Proof.
  intros HQ. unfold shiftVotingToCommitting, tp, getK, mbind, K_bind.
  destruct (ShiftVotingToCommitting nhd (w_k w)) as [[s' cleared] ch] eqn:E. cbn [mbind outcome_bind fst snd].
  rewrite E. destruct ch; simpl; by eapply HQ.
Qed.

(** The view the gossip strategy is given next for the committing height shows [rv]. *)
Definition announces s (rv : RoundView P) : Prop :=
  let v := s.(GossipViewManager).(gvm_Committing).(ov_VRV) in
  vHeight v = rv.(rv_Height) /\ vRound v = rv.(rv_Round) /\
  (forall h, gm_get (vPrevotes v) h = gm_get rv.(rv_PrevoteProofs) h) /\
  (forall h, gm_get (vPrecommits v) h = gm_get rv.(rv_PrecommitProofs) h).

(** The header was committed: it is the committing header, the voting view [rv] is the committing one and is shown
    to the gossip strategy, and the next height is voted on. *)
Definition commits (hd : Header) (rv : RoundView P) s : Prop :=
  s.(CommittingHeader) = hd /\ vHeight s.(s_Voting) = u64 (rv.(rv_Height) + 1) /\ vRound s.(s_Voting) = 0 /\
  s.(s_Voting).(vrv_RV).(rv_ValidatorSet) = hd.(NextValidatorSet) /\
  vHeight s.(s_Committing) = rv.(rv_Height) /\ vRound s.(s_Committing) = rv.(rv_Round) /\
  vPrecommits s.(s_Committing) = rv.(rv_PrecommitProofs) /\ announces s rv.

Lemma gm_get_clone {V} (m : gomap V) h : gm_get (cloneProofMap m) h = gm_get m h.
Proof.
  unfold cloneProofMap. case_bool_decide as Hl; [done|]. unfold gm_get, gm_len in *.
  assert (gm_map m = ∅) as -> by (apply map_size_empty_inv; lia). done.
Qed.

Lemma Shift_announces nhd s s' cleared ch : ShiftVotingToCommitting nhd s = (s', cleared, ch) ->
  announces s' s.(s_Voting).(vrv_RV).
Proof.
  unfold ShiftVotingToCommitting. destruct (HeightCommittedChan _) as [h c]. intros [= <- _ _].
  unfold announces. split_and!; [done..| |]; intros x; apply gm_get_clone.
Qed.

(** A ripe voting view is committed. *)
Lemma tp_commit w maj ph : ByzantineMajority (abs w).(aV).(rv_VoteSummary).(AvailablePower) = Ret maj ->
  maj <= topPrecommitPower (abs w).(aV) -> ph.(ph_Header).(Hash) <> nilHash ->
  (abs w).(aV).(rv_VoteSummary).(MostVotedPrecommitHash) = ph.(ph_Header).(Hash) ->
  findPH ph.(ph_Header).(Hash) (abs w).(aV).(rv_ProposedHeaders) = Some ph ->
  tp checkVotingPrecommitViewShift w (fun _ w' => commits ph.(ph_Header) (abs w).(aV) w'.(w_k)).
Proof.
  intros Hmaj Htop Hnil Hmost Hfind. unfold checkVotingPrecommitViewShift. apply tp_bind. unfold tp at 1.
  cbn [getK sure]. apply tp_bind. cbn [fst snd]. eapply tp_liftO; [exact Hmaj|].
  unfold topPrecommitPower in Htop. change (vSummary (s_Voting (w_k w))) with (rv_VoteSummary (aV (abs w))).
  change (vPHs (s_Voting (w_k w))) with (rv_ProposedHeaders (aV (abs w))).
  rewrite Hmost in *. rewrite (proj2 (Z.ltb_ge _ _) Htop), (proj2 (String.eqb_neq _ _) Hnil), Hfind.
  apply tp_bind, tp_shift. intros s' cleared ch w1 Hshift Hw1.
  destruct (Shift_views _ _ _ _ _ Hshift) as (Hv & _ & Hc & Hh). apply Shift_announces in Hshift as Ha.
  assert (Hcom : commits (ph_Header ph) (aV (abs w)) w1.(w_k)).
  { rewrite Hw1. unfold commits, vHeight, vRound, vPrecommits. rewrite Hv, Hh. destruct Hc as [Ec|Ec]; rewrite Ec; by split_and!. }
  apply tp_bind, tp_save. intros e w2 Hw2. destruct e as [e|].
  - apply tp_ret. by rewrite Hw2.
  - apply tp_updateObservers. intros e w3 Hw3. by rewrite Hw3, Hw2.
Qed.

(** Recording precommits whose proofs have one key hash. *)
Lemma tp_record h r w m hash : vPrecommits w.(w_k).(s_Voting) = Some m -> sameKeyHash hash m ->
  (abs w).(aV).(rv_VoteSummary).(PrecommitBlockPower) <> None ->
  exists vs, SetPrecommitPowers (rvVals (abs w).(aV)) (Some m) (abs w).(aV).(rv_VoteSummary) = Ret vs /\
    tp (recordPrecommits ViewIDVoting h r) w (fun _ w' => (abs w').(aV) = rvWithPrecommits (abs w).(aV) (Some m) vs).
Proof.
  intros Hm Hhash Hblock. destruct (PrecommitBlockPower (rv_VoteSummary (aV (abs w)))) as [g|] eqn:Eg; [|done].
  unfold SetPrecommitPowers. rewrite Eg, tally_ret. eexists. split; [reflexivity|].
  unfold recordPrecommits. apply tp_bind. unfold tp at 1. cbn [gets sure viewOf fst snd]. apply tp_bind.
  eapply tp_liftO.
  { unfold SetPrecommitPowers. change (vSummary (s_Voting (w_k w))) with (rv_VoteSummary (aV (abs w))).
    rewrite Eg, Hm, tally_ret. reflexivity. }
  apply tp_bind. unfold tp at 1. cbn [modK sure fst snd]. apply tp_bind. eapply tp_modKO; [reflexivity|].
  destruct (mapToSparse_spec hash m Hhash) as (h' & Hsp & _). apply tp_bind. eapply tp_liftO; [by rewrite Hm|].
  apply tp_bind, tp_callStore. intros st e. apply tp_ret. unfold rvWithPrecommits.
  unfold vPrecommits in Hm. simpl. unfold vrv_upd. simpl. by rewrite Hm.
Qed.

(** A hash with a majority, when no other one has it, is the most voted one. *)
Lemma majority_most_voted (rv : RoundView P) maj hash p : rv_ok rv -> 0 < maj ->
  gm_get rv.(rv_PrecommitProofs) hash = Some p -> maj <= proofPower (rvVals rv) p ->
  (forall h q, h <> hash -> gm_get rv.(rv_PrecommitProofs) h = Some q -> proofPower (rvVals rv) q < maj) ->
  rv.(rv_VoteSummary).(MostVotedPrecommitHash) = hash /\ maj <= topPrecommitPower rv.
Proof.
  intros Hok Hpos Hp Hpow Hothers. destruct (ro_precommit_tally _ Hok) as [_ Hblock Hmost _ _].
  pose proof (Hmost _ _ Hp) as Htop. unfold topPrecommitPower. fold (rvVals rv) in *. split; [|lia].
  destruct (decide (MostVotedPrecommitHash (rv_VoteSummary rv) = hash)) as [|Hne]; [done|exfalso].
  rewrite Hblock in Htop. unfold gm_getz, gm_get at 1 in Htop. simpl in Htop. rewrite lookup_fmap in Htop.
  change (gm_map (rv_PrecommitProofs rv) !! ?x) with (gm_get (rv_PrecommitProofs rv) x) in Htop.
  destruct (gm_get (rv_PrecommitProofs rv) (MostVotedPrecommitHash (rv_VoteSummary rv))) as [q|] eqn:Eq; simpl in Htop.
  - specialize (Hothers _ _ Hne Eq). lia.
  - lia.
Qed.

(** The precommits after a request whose updates name the current versions. *)
Definition merged (m : gomap P) (ups : gmap bytes (VoteUpdate P)) (h : bytes) : option P :=
  match ups !! h with Some u => Some u.(vu_Proof) | None => gm_get m h end.

(** A request for the voting round whose updates name the current versions, and after which a header of the view
    alone has a majority, is handled to the end and commits that header. *)
Lemma tp_addPrecommit req w maj ph p keyHash :
  let v := w.(w_k).(s_Voting) in let after := merged (vPrecommits v) req.(PrecommitUpdates) in
  let hash := ph.(ph_Header).(Hash) in
  coherent w.(w_k) -> req.(apc_H) = vHeight v -> req.(apc_R) = vRound v ->
  (forall h u, req.(PrecommitUpdates) !! h = Some u -> u.(PrevVersion) = gm_getz 0 v.(PrecommitBlockVersions) h) ->
  is_Some (req.(PrecommitUpdates) !! hash) ->
  (forall h q, after h = Some q -> cmsp_PubKeyHash q = keyHash) ->
  ByzantineMajority (vSummary v).(AvailablePower) = Ret maj ->
  after hash = Some p -> maj <= proofPower (vVals v) p ->
  (forall h q, h <> hash -> after h = Some q -> proofPower (vVals v) q < maj) ->
  hash <> nilHash -> findPH hash (vPHs v) = Some ph ->
  tp (addPrecommit k req) w (fun _ w' => exists rv, commits ph.(ph_Header) rv w'.(w_k) /\
    rv.(rv_Height) = vHeight v /\ rv.(rv_Round) = vRound v /\ forall h, gm_get rv.(rv_PrecommitProofs) h = after h).
Proof.
  intros v after hash Hc HH HR Hups Hin Hkeys Hmaj Hp Hpow Hothers Hnil Hfind.
  pose proof (co_voting _ Hc) as Hok. pose proof (avail_range _ Hok) as Havail. fold v (vSummary v) in Havail.
  pose proof (majority_positive _ _ Havail Hmaj) as Hpos.
  destruct (vPrecommits v) as [g0|] eqn:Eg0; [|by destruct (ro_precommits _ Hok)].
  destruct (applyUpdates_exact g0 v.(PrecommitBlockVersions) req.(PrecommitUpdates))
    as (g & vers & acc & any & Happly & Hg & Hacc & Hany).
  assert (acc = true) as -> by (apply Hacc, Hups).
  assert (any = true) as -> by (apply Hany; destruct Hin as [u Hu]; eauto).
  assert (Hafter : forall h, g !! h = after h).
  { intros h. destruct (Hg h) as [-> _]. unfold after, merged. destruct (_ !! h) as [u|] eqn:Eu; [|done].
    by rewrite (Hups _ _ Eu), Z.eqb_refl. }
  unfold addPrecommit. apply tp_bind. unfold tp at 1. cbn [getK sure fst snd]. apply tp_bind. eapply tp_liftO.
  { unfold FindView. rewrite HH, HR, !Z.eqb_refl. reflexivity. }
  cbv beta iota. rewrite bool_decide_eq_true_2 by done. cbn [negb viewOf]. fold v. apply tp_bind. eapply tp_liftO; [by rewrite Eg0|].
  apply tp_bind. unfold tp at 1. cbn [modK sure fst snd]. apply tp_bind. cbn [setView].
  set (w1 := {| w with w_k := _ |}).
  assert (Hblock : (abs w1).(aV).(rv_VoteSummary).(PrecommitBlockPower) <> None)
    by exact (tallied_block_some _ _ _ _ _ (ro_precommit_tally _ Hok)).
  destruct (tp_record (apc_H req) (apc_R req) w1 g keyHash) as (vs & Hvs & Hrec);
    [done|by intros h q Hq; apply (Hkeys h); rewrite <- Hafter|exact Hblock|].
  eapply tp_mono; [|exact Hrec]. intros [] w2 Hw2. change (rvVals (aV (abs w1))) with (rvVals (aV (abs w))) in Hvs.
  set (rv := rvWithPrecommits (aV (abs w)) (Some g) vs).
  assert (Hrv : (abs w2).(aV) = rv) by exact Hw2.
  assert (Hokrv : rv_ok rv) by (apply rv_ok_withPrecommits; [exact Hok|done|exact Hvs]).
  assert (Hget : forall h, gm_get rv.(rv_PrecommitProofs) h = after h) by exact Hafter.
  destruct (majority_most_voted rv maj hash p) as [Hmost Htop]; [done..|by rewrite Hget|done| |].
  { intros h q Hne Hq. rewrite Hget in Hq. exact (Hothers h q Hne Hq). }
  assert (Hav : rv.(rv_VoteSummary).(AvailablePower) = (vSummary v).(AvailablePower)).
  { rewrite (ro_avail _ Hokrv). symmetry. exact (ro_avail _ Hok). }
  apply tp_bind, tp_respond. intros w3 Hw3.
  assert (Hv3 : (abs w3).(aV) = rv) by (rewrite <- Hrv; simpl; by rewrite Hw3).
  apply tp_bind. eapply tp_mono; [|apply tp_checkMissingPHs].
  - intros [] w4 [Hv4 _ _ _ _]. rewrite Hv3 in Hv4. cbn [bool_decide]. apply tp_bind.
    eapply tp_mono; [|by apply (tp_commit w4 maj ph); rewrite ?Hv4, ?Hav].
    intros e w5 Hw5. apply tp_ret. exists (aV (abs w4)). by rewrite Hv4 in Hw5 |- *.
  - unfold gm_len. simpl. intros Hz%map_size_empty_inv. by rewrite <- Hafter, Hz, lookup_empty in Hp.
  - rewrite Hw3. change (vVals (s_Voting (w_k w2))) with (rvVals (aV (abs w2))). rewrite Hrv.
    intros Hz. apply (available_positive _ _ Hmaj). exact (eq_trans (ro_avail _ Hok) Hz).
Qed.
End kernel.

(** * What a mirror call makes of a message *)
Section request.
Context {B : Type} `{BitSetLaws B, Verifier}.
Local Abbreviation P := (SimpleProof B).
Implicit Types (cur : gomap P) (p : P).

Lemma keyIDValid_long n id : keyIDValid n id = true -> (2 <= String.length id)%nat.
Proof. destruct id as [|a [|b [|c id]]]; simpl; (discriminate || lia). Qed.

Lemma keyIDValid_put n i : (i < n)%nat -> (N.of_nat n < 65536)%N -> keyIDValid n (putUint16 i) = true.
Proof.
  intros Hi Hn. pose proof (beUint16_putUint16 i ltac:(lia)) as Hbe. unfold putUint16 in *. simpl in *.
  injection Hbe as ->. by apply bool_decide_eq_true_2.
Qed.

(** ** The signatures worth adding *)
Lemma getSignaturesToAdd_get cur inc vals h :
  gm_get (getSignaturesToAdd cur inc vals) h =
  match gm_get inc h with
  | Some sigs => match List.filter (sigWanted vals (gm_get cur h)) sigs with [] => None | wanted => Some wanted end
  | None => None
  end.
Proof.
  unfold getSignaturesToAdd. pose proof (gm_entries_NoDup inc) as Hnd.
  assert (Hl : gm_get inc h = (list_to_map (gm_entries inc) : gmap bytes _) !! h)
    by (unfold gm_entries; by rewrite list_to_map_to_list).
  rewrite Hl. clear Hl. cut (forall acc, gm_get (foldl (addWanted cur vals) acc (gm_entries inc)) h =
    match (list_to_map (gm_entries inc) : gmap bytes _) !! h with
    | Some sigs => match List.filter (sigWanted vals (gm_get cur h)) sigs with [] => gm_get acc h | wanted => Some wanted end
    | None => gm_get acc h
    end).
  { intros Hacc. by rewrite Hacc. }
  induction (gm_entries inc) as [|[h' sigs] l IH]; intros acc; simpl; [done|].
  apply NoDup_cons in Hnd as [Hh' Hnd]. rewrite IH by done.
  destruct (decide (h' = h)) as [->|Hne].
  - rewrite not_elem_of_list_to_map_1, lookup_insert_eq by done. unfold addWanted. simpl.
    destruct (List.filter _ sigs) as [|s ss]; [done|]. unfold gm_get. simpl. by rewrite lookup_insert_eq.
  - rewrite lookup_insert_ne by done. unfold addWanted. simpl.
    destruct (List.filter _ sigs) as [|s ss]; [done|]. 
    assert (gm_get (Some (<[h' := s :: ss]> (gm_map acc))) h = gm_get acc h) as ->; [|done].
    unfold gm_get. simpl. by rewrite lookup_insert_ne.
Qed.

(** All of them have a key ID of two bytes, that of a validator. *)
Lemma sigWanted_valid vals (existing : option P) s : sigWanted vals existing s = true -> exists n, keyIDValid n s.(ss_KeyID) = true.
Proof.
  unfold sigWanted. destruct existing as [p|]; simpl; [|eauto]. unfold Simple_HasSparseKeyID.
  destruct (keyIDValid _ _) eqn:E; simpl; [eauto|done].
Qed.

Lemma toAdd_keyIDs cur inc vals h sigs : gm_get (getSignaturesToAdd cur inc vals) h = Some sigs ->
  Forall (fun s => 2 <= String.length s.(ss_KeyID))%nat sigs.
Proof.
  rewrite getSignaturesToAdd_get. destruct (gm_get inc h) as [l|]; [|discriminate].
  destruct (List.filter _ l) as [|s ss] eqn:E; [discriminate|]. intros [= <-]. rewrite <- E. apply List.Forall_forall.
  intros x [_ Hx]%filter_In. apply sigWanted_valid in Hx as [n Hn]. by eapply keyIDValid_long.
Qed.

(** A signature of a validator whose bit is not set is wanted. *)
Lemma sigWanted_new vals cur h i s p : length (ValidatorsToPubKeys vals.(Validators)) = length p.(sp_keys) ->
  gm_get cur h = None \/ gm_get cur h = Some p -> (i < length p.(sp_keys))%nat -> (N.of_nat (length p.(sp_keys)) < 65536)%N ->
  s.(ss_KeyID) = putUint16 i -> i ∉ bs_elems p.(sp_bitset) -> sigWanted vals (gm_get cur h) s = true.
Proof.
  intros Hlen Hcur Hi Hn Hid Hnew. unfold sigWanted. destruct Hcur as [->| ->]; simpl.
  - rewrite Hid, Hlen. by apply keyIDValid_put.
  - unfold Simple_HasSparseKeyID. rewrite Hid, keyIDValid_put, beUint16_putUint16 by (done || lia). simpl.
    rewrite bs_Test_spec. by rewrite bool_decide_eq_false_2.
Qed.

(** ** The updates *)

(** The proof a hash's signatures are merged into. *)
Definition baseFor (mk : bytes -> option P) cur (h : bytes) : option P :=
  match gm_get cur h with Some p => Some p | None => mk h end.

Definition updateFor (mk : bytes -> option P) cur (versions : gomap Z) (h : bytes) (sigs : list SparseSignature) :
  option (VoteUpdate P) :=
  p ← baseFor mk cur h;
  match cmsp_MergeSparse (MkSparseSignatureProof p.(sp_keyHash) sigs) p with
  | Ret r => Some (MkVoteUpdate r.1 (gm_getz 0 versions h))
  | Panic _ => None
  end.

Lemma addVoteUpdates_ret mk cur versions (toAdd : gomap (list SparseSignature)) :
  (forall h sigs, gm_get toAdd h = Some sigs -> Forall (fun s => 2 <= String.length s.(ss_KeyID))%nat sigs) ->
  exists ups, foldO (addVoteUpdate mk cur versions) ∅ (gm_entries toAdd) = Ret ups /\
    forall h, ups !! h = (gm_get toAdd h ≫= updateFor mk cur versions h).
Proof.
  intros Hids. pose proof (gm_entries_NoDup toAdd) as Hnd.
  assert (Hl : forall h, gm_get toAdd h = (list_to_map (gm_entries toAdd) : gmap bytes _) !! h)
    by (intros h; unfold gm_entries; by rewrite list_to_map_to_list).
  setoid_rewrite Hl. assert (Hall : Forall (fun e => Forall (fun s => 2 <= String.length s.(ss_KeyID))%nat e.2) (gm_entries toAdd)).
  { apply Forall_forall. intros [h sigs] He%gm_entries_get. by apply (Hids h). }
  clear Hl Hids. cut (forall acc, (forall h, h ∈ (gm_entries toAdd).*1 -> acc !! h = None) ->
    exists ups, foldO (addVoteUpdate mk cur versions) acc (gm_entries toAdd) = Ret ups /\
    forall h, ups !! h = match (list_to_map (gm_entries toAdd) : gmap bytes _) !! h with
                         | Some sigs => updateFor mk cur versions h sigs | None => acc !! h end).
  { intros Hacc. destruct (Hacc ∅) as (ups & Hr & Hu); [intros; apply lookup_empty|]. exists ups. split; [done|].
    intros h. rewrite Hu. by destruct (_ !! h). }
  induction (gm_entries toAdd) as [|[h' sigs] l IH]; intros acc Hacc; simpl; [by exists acc|].
  apply NoDup_cons in Hnd as [Hh' Hnd]. apply Forall_cons in Hall as [Hs Hall]. specialize (IH Hnd Hall).
  simpl in Hh', Hs. change (match gm_get cur h' with Some p => Some p | None => mk h' end) with (baseFor mk cur h').
  assert (Hstep : exists acc', match baseFor mk cur h' with
      | Some fullProof => r ← Simple_MergeSparse (MkSparseSignatureProof (sp_keyHash fullProof) sigs) fullProof;
          Ret (<[h' := MkVoteUpdate r.1 (gm_getz 0 versions h')]> acc)
      | None => Ret acc end = Ret acc' /\
      acc' !! h' = updateFor mk cur versions h' sigs /\ forall h, h <> h' -> acc' !! h = acc !! h).
  { unfold updateFor. destruct (baseFor mk cur h') as [p|]; simpl.
    - destruct (Simple_MergeSparse_spec p (MkSparseSignatureProof (sp_keyHash p) sigs) eq_refl Hs) as (p' & r & added & Hm & _).
      rewrite Hm. simpl. eexists. split; [reflexivity|]. rewrite lookup_insert_eq. split; [done|].
      intros h Hne. by rewrite lookup_insert_ne.
    - eexists. split; [reflexivity|]. split; [|done]. apply Hacc. by left. }
  destruct Hstep as (acc' & -> & Hhere & Hother). simpl. destruct (IH acc') as (ups & Hr & Hu).
  { intros h Hh. rewrite Hother by (intros ->; done). apply Hacc. by right. }
  exists ups. split; [done|]. intros h. rewrite Hu. destruct (decide (h = h')) as [->|Hne].
  - by rewrite not_elem_of_list_to_map_1, lookup_insert_eq by done.
  - rewrite lookup_insert_ne by done. by rewrite Hother.
Qed.
End request.

(** * Delivered majorities *)
Section delivery.
Context {B ST : Type} `{BitSetLaws B, Verifier, !KernelStores ST, !KernelStoresLaws ST}.
Context (k : Kernel).
Local Abbreviation P := (SimpleProof B).
Implicit Types (w : World P ST) (vals : ValidatorSet) (S : gset nat) (m : PrecommitSparseProof).

(** Validators with distinct keys, few enough for key IDs of two bytes, whose total power is a uint64. *)
Record distinctKeys vals : Prop := {
  dk_nodup : NoDup (map pk_PubKeyBytes (ValidatorsToPubKeys vals.(Validators)));
  dk_few : (N.of_nat (length vals.(Validators)) < 65536)%N;
  dk_powers : powers_ok vals.(Validators)
}.

(** What is known of the precommits of [S] for other hashes: there are none in the votes [cur] of the round, and no
    valid ones in the message. *)
Record votesOnly vals (h r : Z) (hash : bytes) S (cur : gomap P) m : Prop := {
  vo_view : forall other p, other <> hash -> gm_get cur other = Some p -> bs_elems p.(sp_bitset) ∩ S = ∅;
  vo_message : forall other sigs s i v content, other <> hash -> gm_get m.(pcs_Proofs) other = Some sigs -> s ∈ sigs ->
    i ∈ S -> vals.(Validators) !! i = Some v ->
    PrecommitSignBytes (MkVoteTarget h r other) k.(k_sigScheme) = Ok content -> verify v.(val_PubKey) content s.(ss_Sig) = false
}.

(** The message has a valid signature of each validator of [S] for the hash, among whatever else it has. *)
Definition carries m vals (content hash : bytes) S : Prop :=
  forall i, i ∈ S -> exists sigs s v, gm_get m.(pcs_Proofs) hash = Some sigs /\ s ∈ sigs /\
    s.(ss_KeyID) = putUint16 i /\ vals.(Validators) !! i = Some v /\ verify v.(val_PubKey) content s.(ss_Sig) = true.

(** [S] has a majority of the power. *)
Definition hasMajority vals S : Prop :=
  exists maj, ByzantineMajority (totalPowerZ vals.(Validators)) = Ret maj /\ maj <= powerIn vals.(Validators) S 0.

Lemma total_exact vals : powers_ok vals.(Validators) -> u64 (totalPowerZ vals.(Validators)) = totalPowerZ vals.(Validators).
Proof.
  intros Hp. apply u64_small. split; [|apply Hp].
  pose proof (powerIn_nonneg _ ∅ 0 (powers_ok_nonneg _ Hp)). pose proof (powerIn_le_total _ ∅ 0 (powers_ok_nonneg _ Hp)). lia.
Qed.

Lemma keys_lookup vals i key : ValidatorsToPubKeys vals.(Validators) !! i = Some key ->
  exists v, vals.(Validators) !! i = Some v /\ key = v.(val_PubKey).
Proof. unfold ValidatorsToPubKeys. rewrite list_lookup_fmap. intros (v & ? & ->)%fmap_Some. eauto. Qed.

(** A proof without validators of [S] has less than a majority. *)
Lemma others_below vals S maj (q : P) : powers_ok vals.(Validators) ->
  ByzantineMajority (totalPowerZ vals.(Validators)) = Ret maj -> maj <= powerIn vals.(Validators) S 0 ->
  bs_elems q.(sp_bitset) ∩ S = ∅ -> proofPower vals.(Validators) q < maj.
Proof.
  intros Hp Hmaj Hpow Hdis. pose proof (powers_ok_nonneg _ Hp) as Hn.
  unfold proofPower. rewrite sumPower_exact by done. simpl.
  pose proof (powerIn_union_inter (Validators vals) (bs_elems (sp_bitset q)) S 0) as Hu.
  rewrite Hdis, powerIn_empty in Hu. pose proof (powerIn_le_total (Validators vals) (bs_elems (sp_bitset q) ∪ S) 0 Hn).
  pose proof (available_positive _ _ Hmaj). pose proof (powerIn_nonneg _ S 0 Hn). pose proof (powerIn_le_total _ S 0 Hn).
  destruct (ByzantineMajority_ret (totalPowerZ (Validators vals))) as (M & EM & ? & ? & ?); [destruct Hp; lia|].
  rewrite EM in Hmaj. injection Hmaj as ->. lia.
Qed.

(** A proof with the bits of [S] has a majority. *)
Lemma majority_bits vals S maj (p : P) : powers_ok vals.(Validators) -> maj <= powerIn vals.(Validators) S 0 ->
  S ⊆ bs_elems p.(sp_bitset) -> maj <= proofPower vals.(Validators) p.
Proof.
  intros Hp Hpow Hsub. unfold proofPower. rewrite sumPower_exact by done.
  pose proof (powerIn_mono _ _ _ 0 (powers_ok_nonneg _ Hp) Hsub). simpl. lia.
Qed.

(** ** The request *)

(** The proof signatures for the hash are added to. *)
Definition baseOf vals (content : bytes) (p : P) : Prop :=
  simple_sound (ValidatorsToPubKeys vals.(Validators)) p /\ p.(sp_msg) = content.

(** The signature of a validator whose bit is missing is among those to add, and adds it. *)
Lemma wanted_signature vals m content hash S mk (cur : gomap P) p i : distinctKeys vals ->
  carries m vals content hash S -> baseFor mk cur hash = Some p -> baseOf vals content p ->
  i ∈ S -> i ∉ bs_elems p.(sp_bitset) ->
  exists sigs s, gm_get (getSignaturesToAdd cur m.(pcs_Proofs) vals) hash = Some sigs /\ s ∈ sigs /\ contributes p s i.
Proof.
  intros [Hnd Hfew _] Hcar Hbase [Hsound Hmsg] Hi Hnew.
  destruct (Hcar i Hi) as (l & s & v & Hl & Hs & Hid & Hv & Hver).
  assert (Hkey : ValidatorsToPubKeys vals.(Validators) !! i = Some v.(val_PubKey)).
  { unfold ValidatorsToPubKeys. by rewrite list_lookup_fmap, Hv. }
  pose proof (lookup_lt_Some _ _ _ Hv) as Hlt. pose proof (ss_keys _ _ Hsound) as Hkeys.
  assert (Hlen : length p.(sp_keys) = length vals.(Validators)) by (rewrite Hkeys; apply length_map).
  assert (Hin : s ∈ List.filter (sigWanted vals (gm_get cur hash)) l).
  { apply list_elem_of_In, filter_In. split; [by apply list_elem_of_In|].
    apply (sigWanted_new vals cur hash i s p); rewrite ?Hlen; try done; [by unfold ValidatorsToPubKeys; rewrite length_map|].
    unfold baseFor in Hbase. destruct (gm_get cur hash); [by right|by left]. }
  exists (List.filter (sigWanted vals (gm_get cur hash)) l), s. rewrite getSignaturesToAdd_get, Hl. split_and!; [|done|].
  - destruct (List.filter _ l) as [|x xs] eqn:Ef; [by apply not_elem_of_nil in Hin|done].
  - exists i, v.(val_PubKey). rewrite Hid, beUint16_putUint16 by lia. rewrite Hkeys, (ss_idxs _ _ Hsound), Hmsg.
    split_and!; try done. by apply indexKeys_lookup.
Qed.

Lemma updateFor_bits vals m content hash S mk (cur : gomap P) versions p sigs : distinctKeys vals ->
  carries m vals content hash S -> baseFor mk cur hash = Some p -> baseOf vals content p ->
  gm_get (getSignaturesToAdd cur m.(pcs_Proofs) vals) hash = Some sigs ->
  exists u, updateFor mk cur versions hash sigs = Some u /\ S ⊆ bs_elems u.(vu_Proof).(sp_bitset).
Proof.
  intros Hkeys Hcar Hbase Hof Hsigs. pose proof (toAdd_keyIDs _ _ _ _ _ Hsigs) as Hids.
  unfold updateFor. rewrite Hbase. simpl.
  destruct (Simple_MergeSparse_spec p (MkSparseSignatureProof (sp_keyHash p) sigs) eq_refl Hids) as (p' & r & added & Hm & Hinv & _).
  rewrite Hm. eexists. split; [reflexivity|]. simpl. intros i Hi. apply (si_bits _ _ _ Hinv).
  destruct (decide (i ∈ bs_elems p.(sp_bitset))) as [Hold|Hnew]; [by left|right].
  destruct (wanted_signature vals m content hash S mk cur p i) as (sigs' & s & Hsigs' & Hs & Hc); try done.
  rewrite Hsigs in Hsigs'. injection Hsigs' as <-. by exists s.
Qed.

(** The update for another hash has no bits of [S]. *)
Lemma updateFor_others vals m h r hash S mk (cur : gomap P) versions content other p sigs u : distinctKeys vals ->
  votesOnly vals h r hash S cur m -> other <> hash -> baseFor mk cur other = Some p -> baseOf vals content p ->
  (gm_get cur other = None -> bs_elems p.(sp_bitset) = ∅) ->
  PrecommitSignBytes (MkVoteTarget h r other) k.(k_sigScheme) = Ok content ->
  gm_get (getSignaturesToAdd cur m.(pcs_Proofs) vals) other = Some sigs ->
  updateFor mk cur versions other sigs = Some u -> bs_elems u.(vu_Proof).(sp_bitset) ∩ S = ∅.
Proof.
  intros [Hnd _ _] [Hview Hmsg] Hne Hbase [Hsound Hpm] Hnew Hcontent Hsigs Hu. pose proof (toAdd_keyIDs _ _ _ _ _ Hsigs) as Hids.
  unfold updateFor in Hu. rewrite Hbase in Hu. simpl in Hu.
  destruct (Simple_MergeSparse_spec p (MkSparseSignatureProof (sp_keyHash p) sigs) eq_refl Hids) as (p' & x & added & Hm & Hinv & _).
  rewrite Hm in Hu. injection Hu as <-. simpl. apply set_eq. intros i. rewrite elem_of_intersection.
  split; [|set_solver]. intros [Hi HiS]. exfalso. apply (si_bits _ _ _ Hinv) in Hi as [Hi|(s & Hs & n & key & Hn & Hkey & Hidx & Hver)].
  - unfold baseFor in Hbase. destruct (gm_get cur other) as [q|] eqn:Eq.
    + injection Hbase as ->. pose proof (Hview other p Hne Eq). set_solver.
    + rewrite Hnew in Hi by done. set_solver.
  - rewrite (ss_keys _ _ Hsound) in Hkey. rewrite (ss_idxs _ _ Hsound), (indexKeys_lookup _ n) in Hidx by done.
    injection Hidx as ->. apply keys_lookup in Hkey as (v & Hv & ->). rewrite Hpm in Hver.
    rewrite getSignaturesToAdd_get in Hsigs. destruct (gm_get (pcs_Proofs m) other) as [l|] eqn:El; [|discriminate].
    destruct (List.filter _ l) as [|y ys] eqn:Ef; [discriminate|]. injection Hsigs as <-. rewrite <- Ef in Hs.
    apply list_elem_of_In, filter_In in Hs as [Hs _]. apply list_elem_of_In in Hs.
    by rewrite (Hmsg other l s i v content) in Hver.
Qed.

(** A merge keeps the key hash. *)
Lemma Simple_MergeSparse_hash (sp : SparseSignatureProof) (p p' : P) r :
  Simple_MergeSparse sp p = Ret (p', r) -> p'.(sp_keyHash) = p.(sp_keyHash).
Proof.
  unfold Simple_MergeSparse. destruct (negb _); [by intros [= <- _]|]. intros Hm.
  apply bind_Ret_inv in Hm as ([[q b] added] & Hf & [= <- _]).
  cut (okay (foldO mergeSparseStep (p, true, bs_New (length (sp_keys p))) (ssp_Signatures sp))
         (fun acc => acc.1.1.(sp_keyHash) = p.(sp_keyHash))); [by rewrite Hf|]. clear Hf.
  apply foldO_okay_inv; [|done]. intros s [[a x] y] _ Ha. unfold mergeSparseStep. simpl in Ha.
  destruct (beUint16 _) as [n|]; simpl; [|done]. destruct (sp_keys a !! n) as [key|]; [|done].
  destruct (Simple_AddSignature _ key a) as [a'|] eqn:Eadd; [|done].
  apply Simple_AddSignature_Ok in Eadd as (i & _ & _ & ->). done.
Qed.

(** What holds of the voting view of a working node that follows the votes for [ph]: it has the header, its proofs
    are sound and name the view's keys, and there is nothing it should have committed already. *)
Record follows w (ph : ProposedHeader) : Prop := {
  fo_coherent : coherent w.(w_k);
  fo_sound : forall h p, gm_get (vPrecommits w.(w_k).(s_Voting)) h = Some p ->
    precommit_ok k w.(w_k).(s_Voting).(vrv_RV) h p;
  fo_keyHash : forall h p, gm_get (vPrecommits w.(w_k).(s_Voting)) h = Some p ->
    p.(sp_keyHash) = (votingVals w.(w_k)).(PubKeyHash);
  fo_header : findPH ph.(ph_Header).(Hash) (vPHs w.(w_k).(s_Voting)) = Some ph;
  fo_prompt : ripe w.(w_k).(s_Voting).(vrv_RV) = false
}.

(** [S] has a majority, and its precommits for a header sign [content]. *)
Record majorityFor vals (h r : Z) (hd : Header) (content : bytes) S : Prop := {
  mf_keys : distinctKeys vals;
  mf_hash : hd.(Hash) <> nilHash;
  mf_content : PrecommitSignBytes (MkVoteTarget h r hd.(Hash)) k.(k_sigScheme) = Ok content;
  mf_majority : hasMajority vals S
}.

Section call.
Context (w : World P ST) (ph : ProposedHeader) (content : bytes) (S : gset nat) (m : PrecommitSparseProof).
Local Abbreviation v := (s_Voting (w_k w)).
Local Abbreviation hash := (Hash (ph_Header ph)).
Local Abbreviation vals := (votingVals (w_k w)).
Context (Hw : follows w ph) (Hs : majorityFor vals (vHeight v) (vRound v) ph.(ph_Header) content S).
Context (Hcar : carries m vals content hash S).
Context (Honly : votesOnly vals (vHeight v) (vRound v) hash S (vPrecommits v) m).

Lemma sound_for h p : gm_get (vPrecommits v) h = Some p -> soundFor k vals (vHeight v) (vRound v) h p.
Proof. intros Hp. exact (fo_sound _ _ Hw h p Hp). Qed.

Lemma available : (vSummary v).(AvailablePower) = totalPowerZ vals.(Validators).
Proof.
  unfold vSummary. rewrite (ro_avail _ (co_voting _ (fo_coherent _ _ Hw))). apply total_exact, Hs.
Qed.

Lemma maj_positive maj : ByzantineMajority (totalPowerZ vals.(Validators)) = Ret maj -> 0 < maj.
Proof.
  intros Hmaj. apply (majority_positive (totalPowerZ vals.(Validators)) maj); [|done].
  rewrite <- available. exact (avail_range _ (co_voting _ (fo_coherent _ _ Hw))).
Qed.

(** Promptness: the view does not have all of [S] for the hash yet. *)
Lemma missing_vote : exists i, i ∈ S /\ forall p, gm_get (vPrecommits v) hash = Some p -> i ∉ bs_elems p.(sp_bitset).
Proof.
  destruct Hs as [[_ _ Hpow] Hnil _ (maj & Hmaj & Hle)]. pose proof (maj_positive _ Hmaj) as Hpos.
  destruct (gm_get (vPrecommits v) hash) as [p|] eqn:Ep.
  - destruct (decide (S ⊆ bs_elems p.(sp_bitset))) as [Hsub|Hnot].
    + exfalso. assert (Hripe : ripe (vrv_RV v) = true); [|by rewrite (fo_prompt _ _ Hw) in Hripe].
      destruct (majority_most_voted (vrv_RV v) maj hash p) as [Hmost Htop]; [apply (fo_coherent _ _ Hw)|done|done| | |].
      * by apply (majority_bits _ S).
      * intros h q Hne Hq. apply (others_below _ S); [done..|]. exact (vo_view _ _ _ _ _ _ _ Honly h q Hne Hq).
      * unfold ripe. change (rv_VoteSummary (vrv_RV v)) with (vSummary v). rewrite available, Hmaj.
        rewrite (proj2 (Z.leb_le _ _) Htop). change (rv_VoteSummary (vrv_RV v)) with (vSummary v) in Hmost.
        rewrite Hmost, (proj2 (String.eqb_neq _ _) Hnil). simpl.
        change (rv_ProposedHeaders (vrv_RV v)) with (vPHs v). by rewrite (fo_header _ _ Hw).
    + destruct (set_choose_L (S ∖ bs_elems p.(sp_bitset))) as [i Hi].
      { intros He. apply Hnot. intros i Hi. destruct (decide (i ∈ bs_elems p.(sp_bitset))); [done|]. set_solver. }
      exists i. split; [set_solver|]. intros p' [= <-]. set_solver.
  - destruct (set_choose_L S) as [i Hi].
    { intros ->. rewrite powerIn_empty in Hle. lia. }
    by exists i.
Qed.

(** What the lookup gives the call. *)
Definition looked : VersionedRoundView P := copySnapshotView v VRV_zero (Z.lor RVValidators RVPrecommits).

Lemma looked_vals : looked.(vrv_RV).(rv_ValidatorSet) = vals.
Proof. by apply copySnapshot_vals. Qed.

Lemma looked_precommits h : gm_get (vPrecommits looked) h = gm_get (vPrecommits v) h.
Proof. by apply copySnapshot_precommits. Qed.

Definition newProof (h : bytes) : option P := makeNewPrecommitProof k (vHeight v) (vRound v) h vals.

Lemma base_ok h p : baseFor newProof (vPrecommits looked) h = Some p ->
  exists c, PrecommitSignBytes (MkVoteTarget (vHeight v) (vRound v) h) k.(k_sigScheme) = Ok c /\ baseOf vals c p /\
    p.(sp_keyHash) = vals.(PubKeyHash) /\ (gm_get (vPrecommits looked) h = None -> bs_elems p.(sp_bitset) = ∅).
Proof.
  unfold baseFor. rewrite looked_precommits. destruct (gm_get (vPrecommits v) h) as [q|] eqn:Eq.
  - intros [= ->]. destruct (sound_for h p Eq) as [Hsp Hmp]. exists p.(sp_msg). by split_and!; [|split|apply (fo_keyHash _ _ Hw h)|].
  - unfold newProof, makeNewPrecommitProof. simpl. destruct (PrecommitSignBytes (MkVoteTarget _ _ h) _) as [c|]; [|discriminate].
    intros [= <-]. exists c. split_and!; [done|split; [by eapply NewSimpleProof_sound|done]|done|]. intros _. simpl. apply bs_elems_New.
Qed.

Lemma base_some : exists p, baseFor newProof (vPrecommits looked) hash = Some p.
Proof.
  unfold baseFor. destruct (gm_get _ _) as [p|]; [by eexists|]. unfold newProof, makeNewPrecommitProof.
  rewrite (mf_content _ _ _ _ _ _ Hs). by eexists.
Qed.

(** The request has a proof of [S] for the hash, and no vote of [S] for another one. *)
Record requestFor (req : AddPrecommitRequest P) (u : VoteUpdate P) : Prop := {
  rf_update : req.(PrecommitUpdates) !! hash = Some u;
  rf_bits : S ⊆ bs_elems u.(vu_Proof).(sp_bitset);
  rf_others : forall h x, h <> hash -> req.(PrecommitUpdates) !! h = Some x -> bs_elems x.(vu_Proof).(sp_bitset) ∩ S = ∅;
  rf_keyHash : forall h x, req.(PrecommitUpdates) !! h = Some x -> x.(vu_Proof).(sp_keyHash) = vals.(PubKeyHash)
}.

Lemma request_made : m.(pcs_Height) = vHeight v -> m.(pcs_Round) = vRound v -> m.(pcs_PubKeyHash) = vals.(PubKeyHash) ->
  exists req u, precommitRequest k m (MkViewLookupResponse ViewIDVoting ViewFound) looked = Ret (inr req) /\ requestFor req u.
Proof.
  intros HH HR HK. pose proof (mf_keys _ _ _ _ _ _ Hs) as Hkeys. destruct missing_vote as (i & Hi & Hnew).
  set (toAdd := getSignaturesToAdd (vPrecommits looked) m.(pcs_Proofs) vals). destruct base_some as [p Hbase].
  destruct (base_ok hash p Hbase) as (c & Hc & Hof & _ & Hempty). rewrite (mf_content _ _ _ _ _ _ Hs) in Hc. injection Hc as <-.
  assert (Hip : i ∉ bs_elems p.(sp_bitset)).
  { unfold baseFor in Hbase. rewrite looked_precommits in Hbase, Hempty. destruct (gm_get (vPrecommits v) hash) as [q|].
    - apply Hnew. by injection Hbase as ->.
    - rewrite Hempty by done. set_solver. }
  destruct (wanted_signature vals m content hash S newProof (vPrecommits looked) p i) as (sigs & s & Hsigs & _); try done.
  fold toAdd in Hsigs.
  destruct (updateFor_bits _ _ _ _ _ newProof (vPrecommits looked) looked.(PrecommitBlockVersions) p sigs Hkeys Hcar Hbase Hof Hsigs) as (u & Hu & Hbits).
  destruct (addVoteUpdates_ret newProof (vPrecommits looked) looked.(PrecommitBlockVersions) toAdd) as (ups & Hups & Hget).
  { intros h l Hl. by eapply toAdd_keyIDs. }
  assert (Hin : ups !! hash = Some u) by (by rewrite Hget, Hsigs).
  exists (MkAddPrecommit m.(pcs_Height) m.(pcs_Round) ups true), u. split.
  - unfold precommitRequest. cbn [vlr_Status vlr_ID]. rewrite bool_decide_eq_true_2 by done. cbn [negb].
    rewrite looked_vals, HK, String.eqb_refl. cbn [negb]. fold toAdd. rewrite bool_decide_eq_false_2.
    2:{ intros Hz%map_size_empty_inv. unfold gm_get in Hsigs. by rewrite Hz, lookup_empty in Hsigs. }
    rewrite HH, HR. fold newProof. rewrite Hups. simpl. rewrite bool_decide_eq_false_2; [done|].
    intros Hz%map_size_empty_inv. by rewrite Hz, lookup_empty in Hin.
  - split; [done|done| |]; cbn [PrecommitUpdates].
    + intros h x Hne Hx. rewrite Hget in Hx. destruct (gm_get toAdd h) as [l|] eqn:El; [|discriminate]. simpl in Hx.
      destruct (baseFor newProof (vPrecommits looked) h) as [q|] eqn:Eq; [|by unfold updateFor in Hx; rewrite Eq in Hx].
      destruct (base_ok h q Eq) as (c & Hc & Hofq & _ & Hemptyq).
      eapply (updateFor_others vals m _ _ hash S newProof (vPrecommits looked) _ c h q l); try done.
      split; [intros other y Ho; rewrite looked_precommits; by apply Honly|by apply Honly].
    + eapply (addVoteUpdates_sound (fun _ q => q.(sp_keyHash) = vals.(PubKeyHash))); [| | |exact Hups].
      * intros h q. rewrite looked_precommits. apply (fo_keyHash _ _ Hw).
      * intros h q. unfold newProof, makeNewPrecommitProof. simpl.
        destruct (PrecommitSignBytes (MkVoteTarget _ _ h) _); [|discriminate]. by intros [= <-].
      * intros h q q' sp r Hq Hm. simpl in Hm. by rewrite (Simple_MergeSparse_hash _ _ _ _ Hm).
Qed.

(** A call left alone with the kernel. *)
Fixpoint runCall (n : nat) (c : Call P) : K P ST (Call P) :=
  match n with O => mret c | Datatypes.S n => c' ← callStep k c; runCall n c' end.

Lemma tp_request w1 req u : w1.(w_k) = w.(w_k) -> m.(pcs_Height) = vHeight v -> m.(pcs_Round) = vRound v ->
  precommitRequest k m (MkViewLookupResponse ViewIDVoting ViewFound) looked = Ret (inr req) ->
  requestFor req u ->
  tp (addPrecommit k req) w1 (fun _ w' => w1.(w_out) ++ [EvVote AddVoteAccepted] `prefix_of` w'.(w_out) /\
    exists rv p, commits ph.(ph_Header) rv w'.(w_k) /\ rv.(rv_Height) = vHeight v /\ rv.(rv_Round) = vRound v /\
      gm_get rv.(rv_PrecommitProofs) hash = Some p /\ S ⊆ bs_elems p.(sp_bitset)).
Proof.
  intros Hk HH HR Hreq [Hu Hbits Hothers Hhash]. pose proof (voteRequest_shape_pre k _ _ _ _ Hreq) as (_ & _ & EH & ER & Eresp & Hvers).
  assert (Hcur : forall h u, req.(PrecommitUpdates) !! h = Some u -> u.(PrevVersion) = gm_getz 0 v.(PrecommitBlockVersions) h).
  { intros h x Hx. rewrite (Hvers h x Hx). apply copyVersions_getz. }
  destruct (precommitRequest_sound k m (MkViewLookupResponse ViewIDVoting ViewFound) looked req) as (_ & _ & Hsound); [|exact Hreq|].
  { intros h q. unfold looked. rewrite copySnapshot_precommits, copySnapshot_vals, HH, HR by done. apply sound_for. }
  destruct Hs as [[_ _ Hpow] Hnil Hcontent (maj & Hmaj & Hle)].
  assert (Hafter : forall h q, merged (vPrecommits v) req.(PrecommitUpdates) h = Some q ->
    soundFor k vals (vHeight v) (vRound v) h q /\ q.(sp_keyHash) = vals.(PubKeyHash)).
  { intros h q. unfold merged. destruct (_ !! h) as [x|] eqn:Ex.
    - intros [= <-]. split; [|by apply (Hhash h)]. destruct (Hsound h x Ex) as [Hsx Hmx]. unfold looked in Hsx.
      rewrite copySnapshot_vals in Hsx by done. rewrite HH, HR in Hmx. by split.
    - intros Hq. split; [by apply sound_for|by apply (fo_keyHash _ _ Hw h)]. }
  assert (Hp : merged (vPrecommits v) req.(PrecommitUpdates) hash = Some u.(vu_Proof)) by (unfold merged; by rewrite Hu).
  assert (Hcommit : tp (addPrecommit k req) w1 (fun _ w' => exists rv, commits ph.(ph_Header) rv w'.(w_k) /\
    rv.(rv_Height) = vHeight v /\ rv.(rv_Round) = vRound v /\
    forall h, gm_get rv.(rv_PrecommitProofs) h = merged (vPrecommits v) req.(PrecommitUpdates) h)).
  { pose proof (tp_addPrecommit k req w1 maj ph u.(vu_Proof) vals.(PubKeyHash)) as Hadd. cbv zeta in Hadd. rewrite Hk in Hadd.
    apply Hadd; clear Hadd.
    - apply (fo_coherent _ _ Hw).
    - by rewrite EH.
    - by rewrite ER.
    - exact Hcur.
    - by exists u.
    - intros h q Hq. by apply (Hafter h).
    - by rewrite available.
    - done.
    - by apply (majority_bits _ S).
    - intros h q Hne Hq. apply (others_below _ S); [done..|]. unfold merged in Hq. destruct (_ !! h) as [x|] eqn:Ex.
      + injection Hq as <-. by apply (Hothers h).
      + exact (vo_view _ _ _ _ _ _ _ Honly h q Hne Hq).
    - done.
    - apply (fo_header _ _ Hw). }
  destruct (applyUpdates_current (vPrecommits v) v.(PrecommitBlockVersions) req.(PrecommitUpdates)
    (ro_precommits _ (co_voting _ (fo_coherent _ _ Hw))) Hcur) as (g & vs & any & Hup).
  assert (Hfind : FindView req.(apc_H) req.(apc_R) w1.(w_k) = Ret (ViewIDVoting, ViewFound)).
  { unfold FindView. by rewrite Hk, EH, ER, HH, HR, !Z.eqb_refl. }
  rewrite <- Hk in Hup. eapply tp_mono; [|exact (tp_wp _ _ _ _ Hcommit (addPrecommit_answer k req w1 _ g vs any Hfind Eresp Hup))].
  intros [] w2 [(rv & Hcom & Hrh & Hrr & Hrv) Hpre]. split; [exact Hpre|]. exists rv, u.(vu_Proof).
  by rewrite Hrv.
Qed.

(** The call runs to the end. *)
Lemma runs : m.(pcs_Height) = vHeight v -> m.(pcs_Round) = vRound v -> m.(pcs_PubKeyHash) = vals.(PubKeyHash) ->
  exists w' rv p, runCall 2 (begin (MsgPrecommits m)) w = Ret (CallPrecommits (PCDone HandleVoteProofsAccepted), w') /\
    commits ph.(ph_Header) rv w'.(w_k) /\ rv.(rv_Height) = vHeight v /\ rv.(rv_Round) = vRound v /\
    gm_get rv.(rv_PrecommitProofs) hash = Some p /\ S ⊆ bs_elems p.(sp_bitset).
Proof.
  intros HH HR HK. destruct (request_made HH HR HK) as (req & u & Hreq & Hfor).
  destruct missing_vote as (i & Hi & _). destruct (Hcar i Hi) as (sigs & _ & _ & Hsome & _).
  set (w1 := {| w with w_out := w.(w_out) ++ [EvLookup (MkViewLookupResponse ViewIDVoting ViewFound) looked] |}).
  destruct (tp_returns _ _ _ (tp_request w1 req u eq_refl HH HR Hreq Hfor))
    as ([] & w2 & Hrun & Hpre & rv & p & Hcom & Hrh & Hrr & Hp & Hsub).
  exists w2, rv, p. split; [|by split_and!]. simpl runCall. unfold HandlePrecommitProofs, handlePrecommitProofs.
  rewrite bool_decide_eq_false_2.
  2:{ intros Hz%map_size_empty_inv. unfold gm_get in Hsome. by rewrite Hz, lookup_empty in Hsome. }
  cbn [callStep precommitStep]. unfold mbind, K_bind.
  rewrite (askLookup_ret k (MkViewLookup _ _ _ _ _) w ViewIDVoting ViewFound);
    [|done|unfold FindView; simpl; by rewrite HH, HR, !Z.eqb_refl].
  cbn [outcome_bind mbind fst snd]. rewrite bool_decide_eq_false_2 by done. cbn [vl_VRV vl_Fields viewOf].
  fold looked. unfold liftO at 1. rewrite Hreq. cbn [outcome_bind mbind fst snd mret K_ret]. fold w1.
  cbn [callStep precommitStep]. unfold mbind, K_bind, ask. cbn [handle]. rewrite Hrun. cbn [outcome_bind mbind fst snd].
  by rewrite (firstAnswer_vote _ _ _ Hpre).
Qed.
End call.

Lemma run_steps n c c' (w w' : World P ST) q cs i : cs !! i = Some c -> runCall n c w = Ret (c', w') ->
  nsteps (sysstep k) n (MkSystem w q cs) (MkSystem w' q (<[i := c']> cs)).
Proof.
  revert c w cs. induction n as [|n IH]; intros c w cs Hi Hrun; simpl in Hrun.
  - injection Hrun as -> ->. rewrite list_insert_id by done. constructor.
  - apply bind_Ret_inv in Hrun as ([c1 w1] & Hstep & Hrun). simpl in Hrun.
    eapply nsteps_l; [by eapply sys_call|].
    rewrite <- (list_insert_insert_eq cs i c' c1). apply IH with c1; [|done].
    apply list_lookup_insert_eq. by eapply lookup_lt_Some.
Qed.
End delivery.

(** * Properties *)

(** C6: delivered majorities commit.  Let a node with coherent, sound views vote on a height and round, hold the
    proposed header, and have committed everything it could.  Let a precommit message for that height and round name
    the voting validators and contain, among whatever else, invalid signatures included, a valid signature for the
    header from each validator of a set with a majority of the power, of which neither the message nor the view has
    a valid precommit for another hash.  Then the call that handles the message, with nothing else in between,
    finishes with two requests: no handler panics, nothing is retried, the result is accepted, and the kernel has
    committed the header, votes on the next height with the validators the header names, and shows the precommits of
    the majority to its gossip strategy. *)
Theorem delivered_majority_commits {B ST : Type}
  `{BitSetLaws B, Verifier, !KernelStores ST, !KernelStoresLaws ST} (k : Kernel)
  (w : World (SimpleProof B) ST) (ph : ProposedHeader) (content : bytes) (S : gset nat) (m : PrecommitSparseProof) q cs i :
  follows k w ph -> m.(pcs_Height) = vHeight w.(w_k).(s_Voting) -> m.(pcs_Round) = vRound w.(w_k).(s_Voting) ->
  m.(pcs_PubKeyHash) = (votingVals w.(w_k)).(PubKeyHash) ->
  majorityFor k (votingVals w.(w_k)) m.(pcs_Height) m.(pcs_Round) ph.(ph_Header) content S ->
  carries m (votingVals w.(w_k)) content ph.(ph_Header).(Hash) S ->
  votesOnly k (votingVals w.(w_k)) m.(pcs_Height) m.(pcs_Round) ph.(ph_Header).(Hash) S (vPrecommits w.(w_k).(s_Voting)) m ->
  cs !! i = Some (begin (MsgPrecommits m)) ->
  exists w' rv p, runCall k 2 (begin (MsgPrecommits m)) w = Ret (CallPrecommits (PCDone HandleVoteProofsAccepted), w') /\
    nsteps (sysstep k) 2 (MkSystem w q cs) (MkSystem w' q (<[i := CallPrecommits (PCDone HandleVoteProofsAccepted)]> cs)) /\
    commits ph.(ph_Header) rv w'.(w_k) /\ rv.(rv_Height) = m.(pcs_Height) /\ rv.(rv_Round) = m.(pcs_Round) /\
    gm_get rv.(rv_PrecommitProofs) ph.(ph_Header).(Hash) = Some p /\ S ⊆ bs_elems p.(sp_bitset).
Proof.
  intros Hw HH HR HK Hs Hcar Honly Hi. rewrite HH, HR in Hs, Honly |- *.
  destruct (runs k w ph content S m Hw Hs Hcar Honly HH HR HK) as (w' & rv & p & Hrun & Hrest).
  exists w', rv, p. split; [done|]. split; [by eapply run_steps|done].
Qed.

(** The instance: four validators, the header of height 1 in view, and a message with the precommits of three of
    them for it and of the fourth for nil. *)
Definition carriedHeader : ProposedHeader := toyPH 1 0 "x" "a" (MkCommitProof 0 nilHash gm_make).
Definition trio : gset nat := list_to_set [0; 1; 2]%nat.
Definition carriedContent : bytes := toyContentOf (toyContent "C" (MkVoteTarget 1 0 "x")).

Lemma toy_distinct : distinctKeys toyValSet.
Proof. split; [apply (bool_decide_unpack _); vm_compute; exact I|reflexivity|]. split; [|reflexivity]. repeat constructor; discriminate. Qed.

Lemma trio_majority : majorityFor toyKernel toyValSet 1 0 carriedHeader.(ph_Header) carriedContent trio.
Proof.
  split; [apply toy_distinct|discriminate|reflexivity|]. exists 3. split; [reflexivity|]. vm_compute. discriminate.
Qed.

Lemma proposed_follows : follows toyKernel proposedWorld carriedHeader.
Proof.
  split.
  - apply proposedWorld_coherent.
  - intros h p Hp. vm_compute in Hp. discriminate.
  - intros h p Hp. vm_compute in Hp. discriminate.
  - vm_compute. reflexivity.
  - vm_compute. reflexivity.
Qed.

Lemma trio_cases i : i ∈ trio -> i = 0%nat \/ i = 1%nat \/ i = 2%nat.
Proof. unfold trio. rewrite elem_of_list_to_set. set_solver. Qed.

Lemma trio_carries : carries allPrecommits toyValSet carriedContent "x" trio.
Proof.
  intros i Hi. exists (KernelPrompt.sparseOf (toyProofOf "C" 1 0 "x" ["a"; "b"; "c"])).
  assert (Hsig : forall n key, toyValSet.(Validators) !! n = Some (MkValidator (MkPubKey "toy" key) 1) ->
    MkSparseSignature (putUint16 n) (key +:+ carriedContent) ∈ KernelPrompt.sparseOf (toyProofOf "C" 1 0 "x" ["a"; "b"; "c"]) ->
    exists s v, gm_get allPrecommits.(pcs_Proofs) "x" = Some (KernelPrompt.sparseOf (toyProofOf "C" 1 0 "x" ["a"; "b"; "c"])) /\
      s ∈ KernelPrompt.sparseOf (toyProofOf "C" 1 0 "x" ["a"; "b"; "c"]) /\ s.(ss_KeyID) = putUint16 n /\
      toyValSet.(Validators) !! n = Some v /\ verify v.(val_PubKey) carriedContent s.(ss_Sig) = true).
  { intros n key Hv Hs. eexists _, _. split; [reflexivity|]. split; [exact Hs|]. split; [reflexivity|]. split; [exact Hv|].
    apply String.eqb_refl. }
  destruct (trio_cases i Hi) as [->|[->| ->]];
    [apply (Hsig 0%nat "a")|apply (Hsig 1%nat "b")|apply (Hsig 2%nat "c")]; (reflexivity || (apply (bool_decide_unpack _); vm_compute; exact I)).
Qed.

Lemma trio_only : votesOnly toyKernel toyValSet 1 0 "x" trio (vPrecommits proposedWorld.(w_k).(s_Voting)) allPrecommits.
Proof.
  split.
  - intros other p _ Hp. vm_compute in Hp. discriminate.
  - intros other sigs s i v content Hne Hsigs Hs Hi Hv Hc. unfold gm_get, allPrecommits in Hsigs. simpl in Hsigs.
    apply lookup_insert_Some in Hsigs as [[<- <-]|[_ Hx]]; [|apply lookup_singleton_Some in Hx as [Hx _]; by destruct Hne].
    change (s ∈ [MkSparseSignature (putUint16 3) ("d" +:+ toyContentOf (toyContent "C" (MkVoteTarget 1 0 nilHash)))]) in Hs.
    apply list_elem_of_singleton in Hs as ->. injection Hc as <-.
    destruct (trio_cases i Hi) as [->|[->| ->]]; injection Hv as <-; reflexivity.
Qed.

Lemma delivered_majority_commits_witness :
  exists w' rv p, runCall toyKernel 2 (begin (MsgPrecommits allPrecommits)) proposedWorld =
      Ret (CallPrecommits (PCDone HandleVoteProofsAccepted), w') /\
    nsteps (sysstep toyKernel) 2 (MkSystem proposedWorld [] [begin (MsgPrecommits allPrecommits)])
      (MkSystem w' [] [CallPrecommits (PCDone HandleVoteProofsAccepted)]) /\
    commits carriedHeader.(ph_Header) rv w'.(w_k) /\ rv.(rv_Height) = 1 /\ rv.(rv_Round) = 0 /\
    gm_get rv.(rv_PrecommitProofs) "x" = Some p /\ trio ⊆ bs_elems p.(sp_bitset).
Proof.
  apply (delivered_majority_commits toyKernel proposedWorld carriedHeader carriedContent trio allPrecommits []
    [begin (MsgPrecommits allPrecommits)] 0).
  - apply proposed_follows.
  - vm_compute. reflexivity.
  - vm_compute. reflexivity.
  - vm_compute. reflexivity.
  - apply trio_majority.
  - apply trio_carries.
  - apply trio_only.
  - reflexivity.
Defined.
