(* ===== verification/Spread.v ===== *)
(** How a commit spreads: the view of a committed height that the mirror kernel hands to the gossip strategy makes
    the strategy broadcast the precommits of its majority, and a peer that handles the message commits too. *)
From S2P Require Import Prelude Types BitSets Powers SigProof SimpleProofs VoteSummary RoundView.
From S2P Require Import Stores Managers KState KernelBase Kernel KernelHandlers KernelLoop Mirror.
From S2P Require Import KernelExample KernelSpec KernelTheorems KernelCommit MirrorSystem KernelPrompt Gossip Delivery.
Local Open Scope Z_scope.

(** * From one node to the next *)
Section broadcast.
Context {P B : Type} `{BitSetLaws B, !BitSetUnion B, !BitSetUnionLaws B, !CMSP P B, !CMSPScheme P}.
Notation VRV := (VersionedRoundView P).
Implicit Types (m : gomap P) (v : VRV).

(** Nothing that was broadcast is taken back. *)
Definition keeps (a : Sending) : Prop := forall w, w.(sent) ⊆ (a w).1.(sent).

Lemma keeps_extend a b : keeps a -> keeps b -> keeps (a &> b).
Proof.
  intros Ha Hb w. unfold andThen. specialize (Ha w). destruct (a w) as [w1 ok]. destruct ok; [|exact Ha].
  simpl in Ha. transitivity w1.(sent); [done|apply Hb].
Qed.

Lemma keeps_done : keeps done_.
Proof. by intros w. Qed.

Lemma keeps_send b : keeps (SendC b).
Proof. intros [l [[|n]|]]; simpl; set_solver. Qed.

Lemma keeps_headers v : keeps (broadcastProposedBlocks v).
Proof.
  unfold broadcastProposedBlocks. induction (rv_ProposedHeaders (vrv_RV v)); [apply keeps_done|].
  by apply keeps_extend; [apply keeps_send|].
Qed.

Lemma keeps_prevotes v : keeps (broadcastPrevotes v).
Proof.
  unfold broadcastPrevotes. destruct (_ =? 0)%nat; [apply keeps_done|]. destruct (PrevoteProof_AsSparse _) as [? [e|]]; [by intros w|].
  apply keeps_send.
Qed.

Lemma keeps_precommits v : keeps (broadcastPrecommits v).
Proof.
  unfold broadcastPrecommits. destruct (_ =? 0)%nat; [apply keeps_done|]. destruct (PrecommitProof_AsSparse _) as [? [e|]]; [by intros w|].
  apply keeps_send.
Qed.

Lemma keeps_diff prev v : keeps (broadcastViewDiff prev v).
Proof.
  unfold broadcastViewDiff, broadcastUpdatesOnly, broadcastAll.
  repeat first [apply keeps_extend|apply keeps_done|apply keeps_headers|apply keeps_prevotes|apply keeps_precommits|case_match].
Qed.

Lemma keeps_onView view f : (forall v, keeps (f v)) -> keeps (onView view f).
Proof. intros Hf. destruct view; [apply Hf|apply keeps_done]. Qed.

(** The message made of proofs that name one key set. *)
Lemma sparseEntries_all hash (l : list (bytes * P)) g : (forall e, e ∈ l -> cmsp_PubKeyHash e.2 = hash) ->
  sparseEntries hash g l = (foldl (fun g e => <[e.1 := sparseSigs e.2]> g) g l, None).
Proof.
  revert g. induction l as [|[h p] l IH]; intros g Hl; simpl; [done|].
  assert (cmsp_PubKeyHash p = hash) as -> by (apply (Hl (h, p)); by left). rewrite String.eqb_refl.
  apply IH. intros e He. apply Hl. by right.
Qed.

Lemma AsSparse_all height round m hash : gm_len m <> 0%nat ->
  (forall h p, gm_get m h = Some p -> cmsp_PubKeyHash p = hash) ->
  PrecommitProof_AsSparse (MkPrecommitProof height round m) =
  (MkPrecommitSparse height round hash (Some (sparseSigs <$> gm_map m)), None).
Proof.
  intros Hlen Hm. unfold PrecommitProof_AsSparse. cbn [pc_Proofs pc_Height pc_Round].
  assert (Hall : forall e, e ∈ gm_entries m -> cmsp_PubKeyHash e.2 = hash).
  { intros [h p] He%gm_entries_get. by apply (Hm h). }
  assert (firstPubKeyHash (gm_entries m) = hash) as ->.
  { destruct (gm_entries m) as [|[h p] l] eqn:E; [|apply (Hall (h, p)); by left].
    destruct Hlen. unfold gm_len. by apply map_size_empty_iff, map_to_list_empty_iff. }
  rewrite sparseEntries_all by done. unfold gm_entries. by rewrite foldl_insert_fmap.
Qed.

(** A committing view of another height or round than the last one is sent whole. *)
Lemma sends_committing u s v hash net : u.(nvu_Committing) = Some v -> net.(room) = None ->
  (vHeight s.(prevCommittingView) <> vHeight v \/ vRound s.(prevCommittingView) <> vRound v) ->
  oneKeySet (vPrevotes v) -> gm_len (vPrecommits v) <> 0%nat ->
  (forall h p, gm_get (vPrecommits v) h = Some p -> cmsp_PubKeyHash p = hash) ->
  OutgoingPrecommitProof (MkPrecommitSparse (vHeight v) (vRound v) hash (Some (sparseSigs <$> gm_map (vPrecommits v))))
    ∈ (onUpdate u s net).1.(sent).
Proof.
  intros Hu Hroom Hnew Hone Hlen Hkeys. unfold onUpdate. rewrite Hu.
  set (rest := onView (nvu_NilVotedRound u) _ &> _). assert (Hrest : keeps rest).
  { repeat apply keeps_extend; apply keeps_onView; intros; [apply keeps_precommits|apply keeps_diff..]. }
  assert (Hdiff : broadcastViewDiff s.(prevCommittingView) v = broadcastAll v).
  { unfold broadcastViewDiff. destruct (Z.eqb_spec v.(vrv_RV).(rv_Height) s.(prevCommittingView).(vrv_RV).(rv_Height)); simpl; [|done].
    destruct (Z.eqb_spec v.(vrv_RV).(rv_Round) s.(prevCommittingView).(vrv_RV).(rv_Round)); [|done]. exfalso.
    unfold vHeight, vRound in Hnew. destruct Hnew; congruence. }
  assert (Hall : extends (broadcastAll v) (fun _ => True) (fun l => OutgoingPrecommitProof (MkPrecommitSparse (vHeight v)
    (vRound v) hash (Some (sparseSigs <$> gm_map (vPrecommits v)))) ∈ l)).
  { unfold broadcastAll. intros w Hw _. destruct (sends_headers v (fun _ => True) w Hw I) as (w1 & E1 & Hw1 & _).
    destruct (sends_prevotes v (fun _ => True) Hone w1 Hw1 I) as (w2 & E2 & Hw2 & Hs2 & _).
    destruct (extends_send (OutgoingPrecommitProof (MkPrecommitSparse (vHeight v) (vRound v) hash
      (Some (sparseSigs <$> gm_map (vPrecommits v))))) (fun _ => True) w2 Hw2 I) as (w3 & E3 & Hw3 & Hs3 & Hin).
    exists w3. assert (E : (broadcastProposedBlocks v &> broadcastPrevotes v &> broadcastPrecommits v) w = (w3, true)).
    { unfold andThen. rewrite E1, E2. unfold broadcastPrecommits.
      change (rv_PrecommitProofs (vrv_RV v)) with (vPrecommits v). rewrite (proj2 (Nat.eqb_neq _ _) Hlen).
      change (rv_Height (vrv_RV v)) with (vHeight v). change (rv_Round (vrv_RV v)) with (vRound v).
      by rewrite (AsSparse_all (vHeight v) (vRound v) _ _ Hlen Hkeys). }
    rewrite E. split; [done|]. split; [done|]. split; [|done].
    pose proof (keeps_extend _ _ (keeps_headers v) (keeps_extend _ _ (keeps_prevotes v) (keeps_precommits v)) w) as Hk.
    by rewrite E in Hk. }
  destruct (Hall net Hroom I) as (w' & E & _ & _ & Hin). unfold andThen at 1. cbn [onView]. rewrite Hdiff, E.
  exact (Hrest w' _ Hin).
Qed.
End broadcast.

Section spread.
Context {B ST : Type} `{BitSetLaws B, !BitSetUnion B, !BitSetUnionLaws B, Verifier, !KernelStores ST, !KernelStoresLaws ST}.
Context (k : Kernel).
Local Abbreviation P := (SimpleProof B).
Implicit Types (rv : RoundView P) (S : gset nat) (vals : ValidatorSet) (p : P).

(** A view with the recorded precommits of a majority [S] for a header, and nothing [S] signed for another one. *)
Record certificate vals rv (hd : Header) (content : bytes) S p : Prop := {
  ce_majority : majorityFor k vals rv.(rv_Height) rv.(rv_Round) hd content S;
  ce_proof : gm_get rv.(rv_PrecommitProofs) hd.(Hash) = Some p;
  ce_sound : simple_sound (ValidatorsToPubKeys vals.(Validators)) p;
  ce_content : p.(sp_msg) = content;
  ce_recorded : fully_recorded (ValidatorsToPubKeys vals.(Validators)) p;
  ce_bits : S ⊆ bs_elems p.(sp_bitset);
  ce_keys : forall h q, gm_get rv.(rv_PrecommitProofs) h = Some q -> q.(sp_keyHash) = vals.(PubKeyHash);
  ce_prevotes : oneKeySet rv.(rv_PrevoteProofs);
  ce_only : forall other q sig key i v c, other <> hd.(Hash) -> gm_get rv.(rv_PrecommitProofs) other = Some q ->
    q.(sp_sigs) !! sig = Some key -> i ∈ S -> vals.(Validators) !! i = Some v ->
    PrecommitSignBytes (MkVoteTarget rv.(rv_Height) rv.(rv_Round) other) k.(k_sigScheme) = Ok c ->
    verify v.(val_PubKey) c sig = false
}.

(** The message made of such a view. *)
Definition messageOf vals rv (proofs : gomap P) : PrecommitSparseProof :=
  MkPrecommitSparse rv.(rv_Height) rv.(rv_Round) vals.(PubKeyHash) (Some (sparseSigs <$> gm_map proofs)).

Lemma messageOf_get vals rv proofs h :
  gm_get (messageOf vals rv proofs).(pcs_Proofs) h = sparseSigs <$> gm_get proofs h.
Proof. unfold gm_get. simpl. by rewrite lookup_fmap. Qed.

Lemma message_carries vals rv hd content S p proofs : certificate vals rv hd content S p ->
  (forall h, gm_get proofs h = gm_get rv.(rv_PrecommitProofs) h) ->
  carries (messageOf vals rv proofs) vals content hd.(Hash) S.
Proof.
  intros [[[Hnd Hfew _] _ _ _] Hp Hsound Hmsg Hrec Hbits _ _ _] Hget i Hi. rewrite messageOf_get, Hget, Hp. simpl.
  destruct (proj2 Hrec i (Hbits i Hi)) as (sig & key & Hsig & Hidx).
  assert (Hlen : (N.of_nat (length (ValidatorsToPubKeys vals.(Validators))) < 65536)%N)
    by (unfold ValidatorsToPubKeys; by rewrite length_map).
  destruct (recorded_index _ p Hnd Hlen Hsound Hrec sig key Hsig) as (j & Hj & Hjx & _).
  rewrite (ss_idxs _ _ Hsound), Hidx in Hjx. injection Hjx as <-. apply keys_lookup in Hj as (v & Hv & ->).
  exists (sparseSigs p), (SigProof.sparseOf p (sig, v.(val_PubKey))), v. split_and!; [done| | |done|].
  - apply elem_of_AsSparse. eauto.
  - simpl. by rewrite (ss_idxs _ _ Hsound), Hidx.
  - rewrite <- Hmsg. by apply (ss_sigs _ _ Hsound).
Qed.

Lemma message_only vals rv hd content S p proofs (cur : gomap P) : certificate vals rv hd content S p ->
  (forall h, gm_get proofs h = gm_get rv.(rv_PrecommitProofs) h) ->
  (forall other q, other <> hd.(Hash) -> gm_get cur other = Some q -> bs_elems q.(sp_bitset) ∩ S = ∅) ->
  votesOnly k vals rv.(rv_Height) rv.(rv_Round) hd.(Hash) S cur (messageOf vals rv proofs).
Proof.
  intros Hc Hget Hcur. split; [exact Hcur|]. intros other sigs s i v c Hne Hsigs Hs Hi Hv Hsign.
  rewrite messageOf_get, Hget in Hsigs. apply fmap_Some in Hsigs as (q & Hq & ->).
  apply elem_of_AsSparse in Hs as (sig & key & Hsig & ->). simpl. by eapply (ce_only _ _ _ _ _ _ Hc).
Qed.

Lemma gossip_sent (a : World P ST) : exists a', handle k InGossipSent a = Ret (tt, a') /\
  a'.(w_out) = a.(w_out) ++ [EvGossip (Gossip_Output a.(w_k).(GossipViewManager)).(gso_Val)].
Proof. unfold handle, mbind, K_bind, getK, emit, modK. simpl. eexists. split; reflexivity. Qed.

(** C7: a commit spreads.  Let a node have committed a header, so that its gossip view manager holds the committing
    view with the recorded precommits of a majority for it, not sent yet, and let the strategy, not cancelled, have
    sent a view of another height or round last.  Then the kernel is ready to hand the view over and does so, and the
    strategy broadcasts one message such that every other node that meets the conditions below commits the header
    when it handles that message by itself, no other request interleaving: the call ends accepted, after two requests
    and without a panic, and the committed header is there to be announced in turn.  The conditions on the other node
    are that it votes on the same height and round with the same validators, holds the header, has coherent views
    with sound precommits of the view's key set, has committed everything it could, and knows no precommit for
    another hash of a validator of the majority; on the view of the first node, that the majority signed no precommit
    for another hash there (certificate). *)
Theorem commit_spreads (a : World P ST) (s : Slots (P := P)) net vals rv ph content S p :
  let g := a.(w_k).(GossipViewManager) in
  g.(gvm_out) = true -> announces a.(w_k) rv -> HasBeenSent g.(gvm_Committing) = false ->
  certificate vals rv ph.(ph_Header) content S p ->
  vHeight s.(prevCommittingView) <> rv.(rv_Height) \/ vRound s.(prevCommittingView) <> rv.(rv_Round) -> net.(room) = None ->
  exists u a' msg, ready a.(w_k) InGossipSent = true /\ handle k InGossipSent a = Ret (tt, a') /\
    a'.(w_out) = a.(w_out) ++ [EvGossip u] /\ OutgoingPrecommitProof msg ∈ (onUpdate u s net).1.(sent) /\
    forall b : World P ST, follows k b ph -> votingVals b.(w_k) = vals ->
      vHeight b.(w_k).(s_Voting) = rv.(rv_Height) -> vRound b.(w_k).(s_Voting) = rv.(rv_Round) ->
      (forall other q, other <> ph.(ph_Header).(Hash) -> gm_get (vPrecommits b.(w_k).(s_Voting)) other = Some q ->
         bs_elems q.(sp_bitset) ∩ S = ∅) ->
      exists b' rv', runCall k 2 (begin (MsgPrecommits msg)) b = Ret (CallPrecommits (PCDone HandleVoteProofsAccepted), b') /\
        commits ph.(ph_Header) rv' b'.(w_k) /\ rv'.(rv_Height) = rv.(rv_Height) /\ rv'.(rv_Round) = rv.(rv_Round).
Proof.
  intros g Hout (Hah & Har & Hapv & Hapc) Hsent Hcert Hslot Hroom.
  set (v := g.(gvm_Committing).(ov_VRV)) in *. set (u := (Gossip_Output g).(gso_Val)).
  assert (Hu : u.(nvu_Committing) = Some (VRV_Clone v)) by (unfold u; simpl; unfold unsentClone; by rewrite Hsent).
  assert (Hpc : forall h, gm_get (vPrecommits (VRV_Clone v)) h = gm_get rv.(rv_PrecommitProofs) h).
  { intros h. rewrite <- Hapc. apply gm_get_clone. }
  assert (Hmsg : OutgoingPrecommitProof (messageOf vals rv (vPrecommits (VRV_Clone v))) ∈ (onUpdate u s net).1.(sent)).
  { unfold messageOf. rewrite <- Hah, <- Har. apply (sends_committing u s (VRV_Clone v) vals.(PubKeyHash) net Hu Hroom).
    - destruct Hslot as [Hne|Hne]; [left|right]; [by rewrite <- Hah in Hne|by rewrite <- Har in Hne].
    - destruct (ce_prevotes _ _ _ _ _ _ Hcert) as [kh Hkh]. exists kh. intros h q Hq. apply (Hkh h). rewrite <- Hapv, <- Hq.
      symmetry. apply gm_get_clone.
    - intros Hz%map_size_empty_inv. pose proof (Hpc ph.(ph_Header).(Hash)) as Hx. rewrite (ce_proof _ _ _ _ _ _ Hcert) in Hx.
      unfold gm_get in Hx. by rewrite Hz, lookup_empty in Hx.
    - intros h q Hq. rewrite Hpc in Hq. exact (ce_keys _ _ _ _ _ _ Hcert h q Hq). }
  pose proof (message_carries _ _ _ _ _ _ _ Hcert Hpc) as Hcar.
  destruct (gossip_sent a) as (a' & Ha & Hev). eexists u, a', _. split_and!; [|exact Ha|exact Hev|exact Hmsg|].
  { simpl. fold g. rewrite Hsent, Hout. done. }
  intros b Hb <- Hh Hr Hcur. pose proof (message_only _ _ _ _ _ _ _ _ Hcert Hpc Hcur) as Honly.
  pose proof (ce_majority _ _ _ _ _ _ Hcert) as Hmaj. rewrite <- Hh, <- Hr in Hmaj, Honly.
  destruct (runs k b ph content S _ Hb Hmaj Hcar Honly) as (b' & rv' & q & Hrun & Hcom & Hrh & Hrr & _); [done..|].
  exists b', rv'. split_and!; [exact Hrun|exact Hcom|by rewrite Hrh|by rewrite Hrr].
Qed.
End spread.

(** The instance: the node that committed height 1 in KernelExample, and the node of
    Delivery that has the header. *)
Definition toyP (signers : list bytes) : TP := toyProofOf "C" 1 0 "x" signers.
Definition passedView : RoundView TP := committedWorld.(w_k).(GossipViewManager).(gvm_Committing).(ov_VRV).(vrv_RV).
Definition freshSlots : Slots (P := TP) := MkSlots VRV_zero VRV_zero VRV_zero.

Lemma one_entry {V} (key : bytes) (x : V) h y : gm_get (Some {[key := x]}) h = Some y -> h = key /\ y = x.
Proof. unfold gm_get. simpl. by intros [<- <-]%lookup_singleton_Some. Qed.

Lemma toyP_bits : (toyP ["a"; "b"; "c"]).(sp_bitset) = trio.
Proof. vm_compute. reflexivity. Qed.

Lemma toyP_recorded : fully_recorded (ValidatorsToPubKeys toyValidators) (toyP ["a"; "b"; "c"]).
Proof.
  split.
  - assert (Hall : map_Forall (fun _ key => key ∈ ValidatorsToPubKeys toyValidators) (toyP ["a"; "b"; "c"]).(sp_sigs))
      by (apply (bool_decide_unpack _); vm_compute; exact I).
    intros sig key Hs. exact (Hall sig key Hs).
  - intros i Hi. rewrite toyP_bits in Hi.
    assert (Hsig : forall key, (toyP ["a"; "b"; "c"]).(sp_sigs) !! (key +:+ carriedContent) = Some (MkPubKey "toy" key) ->
      indexKeys (ValidatorsToPubKeys toyValidators) !! key = Some i -> exists sig k, (toyP ["a"; "b"; "c"]).(sp_sigs) !! sig = Some k /\
      indexKeys (ValidatorsToPubKeys toyValidators) !! k.(pk_PubKeyBytes) = Some i).
    { intros key Hk Hx. exists (key +:+ carriedContent), (MkPubKey "toy" key). exact (conj Hk Hx). }
    destruct (trio_cases i Hi) as [->|[->| ->]]; [apply (Hsig "a")|apply (Hsig "b")|apply (Hsig "c")]; vm_compute; reflexivity.
Qed.

Lemma passed_certificate : certificate toyKernel toyValSet passedView carriedHeader.(ph_Header) carriedContent trio (toyP ["a"; "b"; "c"]).
Proof.
  assert (Hproofs : passedView.(rv_PrecommitProofs) = Some {["x" := toyP ["a"; "b"; "c"]]}) by (vm_compute; reflexivity).
  assert (Hget : forall h q, gm_get passedView.(rv_PrecommitProofs) h = Some q -> h = "x" /\ q = toyP ["a"; "b"; "c"]).
  { intros h q. rewrite Hproofs. apply one_entry. }
  assert (Hhas : gm_get passedView.(rv_PrecommitProofs) "x" = Some (toyP ["a"; "b"; "c"])) by (rewrite Hproofs; apply lookup_singleton_eq).
  destruct (toyProofOf_sound "C" 1 0 "x" ["a"; "b"; "c"]) as [Hsound Hmsg]. split.
  - apply trio_majority.
  - exact Hhas.
  - exact Hsound.
  - exact Hmsg.
  - exact toyP_recorded.
  - change (trio ⊆ (toyP ["a"; "b"; "c"]).(sp_bitset)). rewrite toyP_bits. reflexivity.
  - intros h q [_ ->]%Hget. vm_compute. reflexivity.
  - exists nilHash. intros h q Hq. vm_compute in Hq. discriminate.
  - intros other q sig key i v c Hne Hq. apply Hget in Hq as [-> _]. by destruct Hne.
Qed.

Lemma commit_spreads_witness :
  exists u a' msg b' rv', ready committedWorld.(w_k) InGossipSent = true /\
    handle toyKernel InGossipSent committedWorld = Ret (tt, a') /\
    a'.(w_out) = committedWorld.(w_out) ++ [EvGossip u] /\
    OutgoingPrecommitProof msg ∈ (onUpdate u freshSlots (MkWire [] None)).1.(sent) /\
    runCall toyKernel 2 (begin (MsgPrecommits msg)) proposedWorld = Ret (CallPrecommits (PCDone HandleVoteProofsAccepted), b') /\
    commits carriedHeader.(ph_Header) rv' b'.(w_k) /\ rv'.(rv_Height) = passedView.(rv_Height) /\
    rv'.(rv_Round) = passedView.(rv_Round).
Proof.
  destruct (commit_spreads toyKernel committedWorld freshSlots (MkWire [] None) toyValSet passedView carriedHeader
    carriedContent trio (toyP ["a"; "b"; "c"])) as (u & a' & msg & Hr & Ha & Ho & Hm & Hall).
  - vm_compute. reflexivity.
  - split; [reflexivity|split; [reflexivity|split; reflexivity]].
  - vm_compute. reflexivity.
  - exact passed_certificate.
  - left. vm_compute. discriminate.
  - reflexivity.
  - destruct (Hall proposedWorld) as (b' & rv' & Hb).
    + apply proposed_follows.
    + vm_compute. reflexivity.
    + vm_compute. reflexivity.
    + vm_compute. reflexivity.
    + intros other q _ Hq. vm_compute in Hq. discriminate.
    + exists u, a', msg, b', rv'. split; [exact Hr|]. split; [exact Ha|]. split; [exact Ho|]. split; [exact Hm|exact Hb].
Defined.
