(* ===== verification/Fixture.v ===== *)
(** The fixture the repository's tests build chains with (tm/tmconsensus/tmconsensustest/standardfixture.go and
    ed25519validators.go): validators with their private keys, the headers they propose, the votes they sign and the
    proofs made of them; and that the mirror accepts the headers it makes.

    Every error of a scheme or a signer makes the fixture panic.  The contexts are only passed on to signers. *)
From S2P Require Import Prelude Types BitSets Powers SigProof SimpleProofs VoteSummary RoundView.
From S2P Require Import Stores Managers KState KernelBase Kernel KernelHandlers KernelLoop Mirror.
From S2P Require Import KernelExample KernelTheorems MirrorSystem HeaderChecks Delivery.
From stdpp Require Import relations.
Local Open Scope Z_scope.

(** sort.Slice with [validatorLess]; validators of the same power and key are interchangeable. *)
Definition validatorLe (a b : Validator) : Prop := validatorLess b a = false.
#[export] Instance validatorLe_dec : RelDecision validatorLe.
Proof. intros a b. unfold validatorLe. apply _. Defined.
Definition SortValidators (vs : list Validator) : list Validator := merge_sort validatorLe vs.

(** A signer: its public key and how it signs. *)
Record KeySigner := MkKeySigner { ks_PubKey : PubKey; ks_Sign : bytes -> result bytes }.

Record PrivValEd25519 := MkPrivVal { CVal : Validator; pv_Signer : KeySigner }.

Definition PrivVals_Vals (vs : list PrivValEd25519) : list Validator := map CVal vs.
Definition PrivVals_PubKeys (vs : list PrivValEd25519) : list PubKey := map (fun v => v.(pv_Signer).(ks_PubKey)) vs.

(** [signers]: the deterministic signers, by their index. *)
Definition DeterministicValidatorsEd25519 (signers : nat -> KeySigner) (n : nat) : list PrivValEd25519 :=
  map (fun i => MkPrivVal (MkValidator (signers i).(ks_PubKey) (u64 (100000 - Z.of_nat i))) (signers i)) (seq 0 n).

(** The signature proof scheme is the instance of CMSPScheme in use. *)
Record StandardFixture := MkFixture {
  PrivVals : list PrivValEd25519;
  f_SignatureScheme : SignatureScheme;
  f_HashScheme : HashScheme;
  f_Genesis : Genesis;
  prevCommitProof : CommitProof;
  f_prevAppStateHash : bytes;
  prevBlockHash : bytes;
  prevBlockHeight : Z
}.

Definition NewStandardFixture (signers : nat -> KeySigner) (sigScheme : SignatureScheme) (hashScheme : HashScheme)
  (numVals : nat) : StandardFixture :=
  MkFixture (DeterministicValidatorsEd25519 signers numVals) sigScheme hashScheme Genesis_zero
    (MkCommitProof 0 nilHash gm_make) "uninitialized" nilHash 0.

(** What a call returned, or a panic. *)
Definition must {A} (msg : string) (r : result A) : outcome A :=
  match r with Ok a => Ret a | Err _ => Panic msg end.

(** A slice indexed by an int. *)
Definition indexInt {A} (l : list A) (i : Z) : outcome A :=
  match (if i <? 0 then None else l !! Z.to_nat i) with
  | Some a => Ret a
  | None => Panic "runtime error: index out of range"
  end.

(** * Validators, genesis and headers *)
Section fixture.
Implicit Types f : StandardFixture.

Definition Vals f : list Validator := SortValidators (PrivVals_Vals f.(PrivVals)).

Definition ValSet f : outcome ValidatorSet :=
  must "error building new validator set" (NewValidatorSet (Vals f) f.(f_HashScheme)).

Definition ValidatorHashes f : outcome (bytes * bytes) :=
  pubKeyHash ← must "error getting pub key hash" (hs_PubKeys f.(f_HashScheme) (ValidatorsToPubKeys (Vals f)));
  powHash ← must "error getting vote powers hash" (hs_VotePowers f.(f_HashScheme) (ValidatorsToVotePowers (Vals f)));
  Ret (pubKeyHash, powHash).

Definition DefaultGenesis f : outcome (StandardFixture * Genesis) :=
  vs ← ValSet f;
  let g := MkGenesis "my-chain" 1 (String Ascii.zero EmptyString) vs in
  let f := {| f with f_Genesis := g |} in
  hash ← (if String.eqb f.(prevBlockHash) EmptyString then
            match Genesis_Header g f.(f_HashScheme) with
            | (_, Some _) => Panic "(*StandardFixture).DefaultGenesis: error calling (Genesis).Header"
            | (h, None) => Ret h.(Hash)
            end
          else Ret f.(prevBlockHash));
  Ret ({| f with prevBlockHash := hash; f_prevAppStateHash := g.(g_CurrentAppStateHash) |}, g).

Definition RecalculateHash (h : Header) f : outcome Header :=
  newHash ← must "failed to calculate block hash" (hs_Block f.(f_HashScheme) h);
  Ret {| h with Hash := newHash |}.

(** The index of the proposer is not used. *)
Definition NextProposedHeader (appDataID : bytes) (valIdx : Z) f : outcome ProposedHeader :=
  vs ← ValSet f;
  h ← RecalculateHash
        (MkHeader nilHash f.(prevBlockHash) (u64 (f.(prevBlockHeight) + 1)) f.(prevCommitProof) vs vs appDataID
           f.(f_prevAppStateHash) (MkAnnotations nilHash nilHash)) f;
  Ret (MkProposedHeader h 0 None (MkAnnotations nilHash nilHash) nilHash).

Definition SignProposal (ph : ProposedHeader) (valIdx : Z) f : outcome ProposedHeader :=
  v ← indexInt f.(PrivVals) valIdx;
  b ← must "failed to get sign bytes for proposal"
        (ProposalSignBytes ph.(ph_Header) ph.(ph_Round) ph.(ph_Annotations) f.(f_SignatureScheme));
  sig ← must "failed to sign proposal" (v.(pv_Signer).(ks_Sign) b);
  Ret {| ph with ph_Signature := sig; ph_ProposerPubKey := Some v.(CVal).(val_PubKey) |}.

(** * Votes *)

Definition voteSignature (vt : VoteTarget) (valIdx : Z) (signBytesFn : VoteTarget -> SignatureScheme -> result bytes) f :
  outcome bytes :=
  signContent ← must "failed to generate signing content" (signBytesFn vt f.(f_SignatureScheme));
  v ← indexInt f.(PrivVals) valIdx;
  must "failed to sign content" (v.(pv_Signer).(ks_Sign) signContent).

Definition PrevoteSignature (vt : VoteTarget) (valIdx : Z) f : outcome bytes := voteSignature vt valIdx PrevoteSignBytes f.
Definition PrecommitSignature (vt : VoteTarget) (valIdx : Z) f : outcome bytes := voteSignature vt valIdx PrecommitSignBytes f.

Definition ValidatorPubKey (idx : Z) f : outcome PubKey := v ← indexInt f.(PrivVals) idx; Ret v.(CVal).(val_PubKey).
Definition ValidatorPubKeyString (idx : Z) f : outcome bytes := k ← ValidatorPubKey idx f; Ret k.(pk_PubKeyBytes).

Section proofs.
Context {P B : Type} `{BitSet B, !CMSP P B, !CMSPScheme P}.

(** The loop over the indices. *)
Definition addVote (signContent : bytes) f (proof : P) (idx : Z) : outcome P :=
  v ← indexInt f.(PrivVals) idx;
  sigBytes ← must "failed to sign content with validator at index" (v.(pv_Signer).(ks_Sign) signContent);
  must "failed to add signature from validator at index" (cmsp_AddSignature sigBytes v.(pv_Signer).(ks_PubKey) proof).

(** The two methods differ in the content that is signed.  Nil validators are the fixture's. *)
Definition voteProof (content : result bytes) (blockVals : option (list Validator)) (valIdxs : list Z) f : outcome P :=
  signContent ← must "failed to generate signing content" content;
  let pubKeys := ValidatorsToPubKeys (default (Vals f) blockVals) in
  bValPubKeyHash ← must "failed to build validator public key hash" (hs_PubKeys f.(f_HashScheme) pubKeys);
  proof ← must "failed to construct signature proof" (scheme_New signContent pubKeys bValPubKeyHash);
  foldO (addVote signContent f) proof valIdxs.

Definition PrevoteSignatureProof (vt : VoteTarget) (blockVals : option (list Validator)) (valIdxs : list Z) f : outcome P :=
  voteProof (PrevoteSignBytes vt f.(f_SignatureScheme)) blockVals valIdxs f.
Definition PrecommitSignatureProof (vt : VoteTarget) (blockVals : option (list Validator)) (valIdxs : list Z) f : outcome P :=
  voteProof (PrecommitSignBytes vt f.(f_SignatureScheme)) blockVals valIdxs f.

(** The loop over the vote map. *)
Definition putProof (mk : bytes -> list Z -> outcome P) (out : gmap bytes P) (e : bytes * list Z) : outcome (gmap bytes P) :=
  p ← mk e.1 e.2; Ret (<[e.1 := p]> out).

Definition PrevoteProofMap (height round : Z) (voteMap : gomap (list Z)) f : outcome (gmap bytes P) :=
  foldO (putProof (fun hash idxs => PrevoteSignatureProof (MkVoteTarget height round hash) None idxs f)) ∅ (gm_entries voteMap).
Definition PrecommitProofMap (height round : Z) (voteMap : gomap (list Z)) f : outcome (gmap bytes P) :=
  foldO (putProof (fun hash idxs => PrecommitSignatureProof (MkVoteTarget height round hash) None idxs f)) ∅ (gm_entries voteMap).

Definition sparseMap (fullProof : gmap bytes P) : gmap bytes (list SparseSignature) := sparseSigs <$> fullProof.

Definition SparsePrevoteProofMap (height round : Z) (voteMap : gomap (list Z)) f : outcome (gmap bytes (list SparseSignature)) :=
  fullProof ← PrevoteProofMap height round voteMap f; Ret (sparseMap fullProof).
Definition SparsePrecommitProofMap (height round : Z) (voteMap : gomap (list Z)) f : outcome (gmap bytes (list SparseSignature)) :=
  fullProof ← PrecommitProofMap height round voteMap f; Ret (sparseMap fullProof).

Definition collectionOf (fullProof : gmap bytes P) f : outcome SparseSignatureCollection :=
  pubKeyHash ← must "error getting pub key hash" (hs_PubKeys f.(f_HashScheme) (ValidatorsToPubKeys (Vals f)));
  Ret (MkSSC pubKeyHash (Some (sparseMap fullProof))).

Definition SparsePrevoteSignatureCollection (height round : Z) (voteMap : gomap (list Z)) f : outcome SparseSignatureCollection :=
  fullProof ← PrevoteProofMap height round voteMap f; collectionOf fullProof f.
Definition SparsePrecommitSignatureCollection (height round : Z) (voteMap : gomap (list Z)) f : outcome SparseSignatureCollection :=
  fullProof ← PrecommitProofMap height round voteMap f; collectionOf fullProof f.

(** The key hash is that of the first proof with a non-empty one. *)
Definition commitHash (hash : bytes) (e : bytes * P) : bytes :=
  if String.eqb hash EmptyString then cmsp_PubKeyHash e.2 else hash.

Definition CommitBlock (h : Header) (appStateHash : bytes) (round : Z) (commit : gomap P) f : outcome StandardFixture :=
  if (gm_len commit =? 0)%nat then Panic "BUG: cannot commit block with empty commit data"
  else Ret {| f with prevBlockHeight := h.(Height); prevBlockHash := h.(Hash); f_prevAppStateHash := appStateHash;
                     prevCommitProof := MkCommitProof round (foldl commitHash EmptyString (gm_entries commit))
                                          (Some (sparseMap (gm_map commit))) |}.

(** One version per hash is counted up. *)
Definition countVote (versions : gmap bytes Z) (e : bytes * list Z) : gmap bytes Z :=
  <[e.1 := u32 (default 0 (versions !! e.1) + 1)]> versions.

Definition UpdateVRVPrevotes (vrv : VersionedRoundView P) (voteMap : gomap (list Z)) f : outcome (VersionedRoundView P) :=
  let vrv := VRV_Clone vrv in
  prevoteMap ← PrevoteProofMap (vHeight vrv) (vRound vrv) voteMap f;
  vs ← SetPrevotePowers (Vals f) (Some prevoteMap) (vSummary vrv);
  let rv := vrv.(vrv_RV) in
  Ret {| vrv with vrv_RV := {| rv with rv_PrevoteProofs := Some prevoteMap; rv_VoteSummary := vs |};
                  Version := u32 (vrv.(Version) + 1);
                  PrevoteBlockVersions := Some (foldl countVote (gm_map vrv.(PrevoteBlockVersions)) (gm_entries voteMap)) |}.

Definition UpdateVRVPrecommits (vrv : VersionedRoundView P) (voteMap : gomap (list Z)) f : outcome (VersionedRoundView P) :=
  let vrv := VRV_Clone vrv in
  precommitMap ← PrecommitProofMap (vHeight vrv) (vRound vrv) voteMap f;
  vs ← SetPrecommitPowers (Vals f) (Some precommitMap) (vSummary vrv);
  let rv := vrv.(vrv_RV) in
  Ret {| vrv with vrv_RV := {| rv with rv_PrecommitProofs := Some precommitMap; rv_VoteSummary := vs |};
                  Version := u32 (vrv.(Version) + 1);
                  PrecommitBlockVersions := Some (foldl countVote (gm_map vrv.(PrecommitBlockVersions)) (gm_entries voteMap)) |}.
End proofs.
End fixture.


(** * The mirror accepts what the fixture makes *)

(** Signers sign with the key of their validator, and their signatures verify. *)
Definition faithful `{Verifier} (v : PrivValEd25519) : Prop :=
  v.(pv_Signer).(ks_PubKey) = v.(CVal).(val_PubKey) /\
  forall content sig, v.(pv_Signer).(ks_Sign) content = Ok sig -> verify v.(CVal).(val_PubKey) content sig = true.

Section accepted.
Context {B : Type} `{BitSetLaws B, Verifier}.
Context (signers : nat -> KeySigner) (sigScheme : SignatureScheme) (hashScheme : HashScheme) (numVals : nat).

(** The fixtures of a test: a new one, on which DefaultGenesis may be called, and to which headers are committed
    with precommits of its validators. *)
Inductive fixtureMade : StandardFixture -> Prop :=
| fm_new : fixtureMade (NewStandardFixture signers sigScheme hashScheme numVals)
| fm_genesis f f' g : fixtureMade f -> DefaultGenesis f = Ret (f', g) -> fixtureMade f'
| fm_commit f f' (h : Header) appStateHash round votes commit : fixtureMade f -> 0 < h.(Height) < two64 - 1 ->
    PrecommitProofMap (P := SimpleProof B) (B := B) h.(Height) round votes f = Ret commit ->
    CommitBlock (P := SimpleProof B) (B := B) h appStateHash round (Some commit) f = Ret f' -> fixtureMade f'.

Local Abbreviation privVals := (DeterministicValidatorsEd25519 signers numVals).
Local Abbreviation keys := (ValidatorsToPubKeys (SortValidators (PrivVals_Vals privVals))).

Context (Hfaithful : Forall faithful privVals).
Context (Hnodup : NoDup (map pk_PubKeyBytes keys)) (Hlen : (N.of_nat (length keys) < 65536)%N).

(** A proof the fixture made: sound, and signed by its validators only. *)
Record signedProof (content keyHash : bytes) (p : SimpleProof B) : Prop := {
  sg_sound : simple_sound keys p;
  sg_msg : p.(sp_msg) = content;
  sg_hash : p.(sp_keyHash) = keyHash;
  sg_signed sig k : p.(sp_sigs) !! sig = Some k -> k ∈ keys
}.

Lemma signer_key v : v ∈ privVals -> v.(CVal) ∈ SortValidators (PrivVals_Vals privVals).
Proof. intros Hv. unfold SortValidators. rewrite merge_sort_Permutation. by apply list_elem_of_fmap_2. Qed.

Lemma indexInt_elem {A} (l : list A) i a : indexInt l i = Ret a -> a ∈ l.
Proof.
  unfold indexInt. destruct (if i <? 0 then None else l !! Z.to_nat i) as [x|] eqn:E; [|discriminate].
  intros [= ->]. destruct (i <? 0); [discriminate|]. by eapply list_elem_of_lookup_2.
Qed.

Lemma must_Ok {A} msg (r : result A) a : must msg r = Ret a -> r = Ok a.
Proof. by destruct r; intros [= ->]. Qed.

Lemma addVote_signed f content keyHash p idx p' : f.(PrivVals) = privVals -> signedProof content keyHash p ->
  addVote (P := SimpleProof B) (B := B) content f p idx = Ret p' -> signedProof content keyHash p'.
Proof.
  intros Hpv [Hs Hm Hh Hk] Ha. unfold addVote in Ha. apply bind_Ret_inv in Ha as (v & Hv & Ha).
  apply bind_Ret_inv in Ha as (sg & _ & Ha). apply must_Ok in Ha.
  apply indexInt_elem in Hv. rewrite Hpv in Hv.
  rewrite Forall_forall in Hfaithful. destruct (Hfaithful v Hv) as [Hkey _]. rewrite Hkey in Ha.
  destruct (Simple_AddSignature_sound keys _ _ _ _ Ha Hs) as (Hs' & Hm' & _).
  apply Simple_AddSignature_Ok in Ha as (i & _ & _ & ->). simpl in *.
  split; simpl; [exact Hs'|congruence|congruence|]. intros sig k [[_ <-]|[_ Hl]]%lookup_insert_Some; [|by eapply Hk].
  apply list_elem_of_fmap. exists v.(CVal). split; [done|]. by apply signer_key.
Qed.

(** A fixture's precommit proof is signed, over the precommit content of its target. *)
Lemma PrecommitSignatureProof_signed f vt idxs p : f.(PrivVals) = privVals ->
  PrecommitSignatureProof (P := SimpleProof B) (B := B) vt None idxs f = Ret p ->
  exists content keyHash, PrecommitSignBytes vt f.(f_SignatureScheme) = Ok content /\
    hs_PubKeys f.(f_HashScheme) keys = Ok keyHash /\ signedProof content keyHash p.
Proof.
  intros Hpv Hp. unfold PrecommitSignatureProof, voteProof in Hp.
  apply bind_Ret_inv in Hp as (content & Hc & Hp). apply must_Ok in Hc.
  change (default (Vals f) None) with (Vals f) in Hp. unfold Vals in Hp. rewrite Hpv in Hp.
  apply bind_Ret_inv in Hp as (keyHash & Hk & Hp). apply must_Ok in Hk.
  apply bind_Ret_inv in Hp as (proof & Hn & Hp). apply must_Ok in Hn.
  exists content, keyHash. split; [done|]. split; [done|].
  eapply okay_elim; [|exact Hp]. apply foldO_okay_inv.
  - intros idx q _ Hq. apply okay_intro. intros q' Ha. by eapply addVote_signed.
  - simpl in Hn. split; try (unfold NewSimpleProof in Hn; injection Hn as <-; done).
    by eapply NewSimpleProof_sound.
Qed.

(** Sent and merged into a new proof, every signature of it is valid. *)
Lemma signedProof_sent content keyHash p : signedProof content keyHash p ->
  exists q p' r, NewSimpleProof (B := B) content keys keyHash = Ok q /\
    Simple_MergeSparse (MkSparseSignatureProof keyHash (sparseSigs p)) q = Ret (p', r) /\
    r.(AllValidSignatures) = true.
Proof.
  intros [Hs Hm Hh Hk]. eexists.
  destruct (Simple_MergeSparse_spec (Simple_Derive p) (Simple_AsSparse p) eq_refl (AsSparse_keyIDs keys p Hlen))
    as (p' & r & added & Hmerge & Hinv & _). exists p', r.
  split; [reflexivity|]. split.
  - rewrite <- Hmerge. unfold Simple_Derive. rewrite (ss_keys _ _ Hs), (ss_idxs _ _ Hs), Hm. by subst keyHash.
  - apply (si_valid _ _ _ Hinv). apply Forall_forall. intros s (sig & k & Hsig & ->)%elem_of_AsSparse.
    pose proof (Hk _ _ Hsig) as Hin. apply list_elem_of_lookup in Hin as [i Hi].
    pose proof (indexKeys_lookup keys i k Hnodup Hi) as Hidx.
    exists i, i, k. simpl. rewrite (ss_keys _ _ Hs), (ss_idxs _ _ Hs), Hidx. simpl.
    split_and!; [|done|done|by apply (ss_sigs _ _ Hs)].
    apply beUint16_putUint16. apply lookup_lt_Some in Hi. lia.
Qed.

(** * The invariant of the fixtures *)

(** What a header of a fixture says of the commit before it: nothing before the first, and otherwise signed
    proofs over the precommit contents of the committed height, under the hash of the validators' keys. *)
Record sealed (f : StandardFixture) : Prop := {
  se_vals : f.(PrivVals) = privVals;
  se_sigScheme : f.(f_SignatureScheme) = sigScheme;
  se_hashScheme : f.(f_HashScheme) = hashScheme;
  se_height : 0 <= f.(prevBlockHeight) < two64 - 1;
  se_first : f.(prevBlockHeight) = 0 ->
    f.(prevCommitProof).(cp_PubKeyHash) = nilHash /\ gm_map f.(prevCommitProof).(cp_Proofs) = ∅;
  se_later : f.(prevBlockHeight) <> 0 -> hs_PubKeys hashScheme keys = Ok f.(prevCommitProof).(cp_PubKeyHash) /\
    forall hash sigs, gm_get f.(prevCommitProof).(cp_Proofs) hash = Some sigs -> exists content p,
      PrecommitSignBytes (MkVoteTarget f.(prevBlockHeight) f.(prevCommitProof).(cp_Round) hash) sigScheme = Ok content /\
      signedProof content f.(prevCommitProof).(cp_PubKeyHash) p /\ sigs = sparseSigs p
}.

Lemma PrecommitProofMap_signed f height round votes commit hash p : sealed f ->
  PrecommitProofMap (P := SimpleProof B) (B := B) height round votes f = Ret commit -> commit !! hash = Some p ->
  exists content keyHash, PrecommitSignBytes (MkVoteTarget height round hash) sigScheme = Ok content /\
    hs_PubKeys hashScheme keys = Ok keyHash /\ signedProof content keyHash p.
Proof.
  intros Hf Hm. revert hash p. pattern commit. eapply okay_elim; [|exact Hm]. apply foldO_okay_inv; [|by intros ? ? ?%lookup_empty_Some].
  intros [h idxs] out _ IH. unfold putProof. apply okay_intro. intros out' Ho.
  apply bind_Ret_inv in Ho as (q & Hq & [= <-]). simpl in *.
  apply PrecommitSignatureProof_signed in Hq; [|apply Hf].
  rewrite (se_sigScheme _ Hf), (se_hashScheme _ Hf) in Hq.
  intros hash p [[<- <-]|[_ Hl]]%lookup_insert_Some; [done|by apply IH].
Qed.

(** All proofs have the same key hash. *)
Lemma commitHash_all keyHash (l : list (bytes * SimpleProof B)) : (forall e, e ∈ l -> e.2.(sp_keyHash) = keyHash) ->
  l <> [] -> foldl (commitHash (P := SimpleProof B) (B := B)) EmptyString l = keyHash.
Proof.
  assert (Hstep : forall e acc, e.2.(sp_keyHash) = keyHash -> acc = EmptyString \/ acc = keyHash ->
      commitHash (P := SimpleProof B) (B := B) acc e = keyHash).
  { intros e acc He [->| ->]; unfold commitHash; simpl; [done|]. by destruct (String.eqb keyHash EmptyString). }
  destruct l as [|e l]; [done|]. intros Hl _. simpl.
  rewrite (Hstep e) by (auto; apply Hl, elem_of_cons; auto).
  assert (Hl' : forall e, e ∈ l -> e.2.(sp_keyHash) = keyHash) by (intros; apply Hl, elem_of_cons; auto).
  clear Hl. induction l as [|e' l IH]; simpl; [done|].
  rewrite (Hstep e') by (auto; apply Hl', elem_of_cons; auto). apply IH.
  intros. apply Hl', elem_of_cons. auto.
Qed.

Lemma made_sealed f : fixtureMade f -> sealed f.
Proof.
  induction 1 as [|f f' g _ IH Hg|f f' h app round votes commit _ IH Hh Hm Hc].
  - by split.
  - unfold DefaultGenesis in Hg. apply bind_Ret_inv in Hg as (vs & _ & Hg).
    apply bind_Ret_inv in Hg as (hash & _ & [= <- _]). destruct IH. by split.
  - unfold CommitBlock in Hc. destruct (Nat.eqb_spec (gm_len (Some commit)) 0) as [|Hne]; [discriminate|].
    injection Hc as <-. split; simpl; try apply IH; [lia|lia|]. intros _.
    assert (Hs : forall hash p, commit !! hash = Some p -> exists content keyHash,
      PrecommitSignBytes (MkVoteTarget (Height h) round hash) sigScheme = Ok content /\
      hs_PubKeys hashScheme keys = Ok keyHash /\ signedProof content keyHash p)
      by (intros; by eapply PrecommitProofMap_signed).
    destruct (map_choose commit) as (h0 & p0 & H0').
    { intros ->. by apply Hne. }
    destruct (Hs _ _ H0') as (_ & keyHash & _ & Hk & _).
    assert (Hall : forall hash p, commit !! hash = Some p -> sp_keyHash p = keyHash).
    { intros hash p Hp. destruct (Hs _ _ Hp) as (c & kh & _ & Hk' & Hsg). rewrite (sg_hash _ _ _ Hsg). congruence. }
    rewrite (commitHash_all keyHash).
    + split; [done|]. intros hash sigs Hg. unfold gm_get, gm_map, sparseMap in Hg. simpl in Hg.
      rewrite lookup_fmap in Hg. apply fmap_Some in Hg as (p & Hp & ->).
      destruct (Hs _ _ Hp) as (content & kh & Hc & Hk' & Hsg). exists content, p.
      assert (kh = keyHash) as -> by congruence. done.
    + intros [hash p] Hin. by eapply Hall, elem_of_map_to_list.
    + intros Hnil. apply Hne. unfold gm_len, gm_map. simpl. unfold gm_entries, gm_map in Hnil. simpl in Hnil.
      apply map_to_list_empty_iff in Hnil as ->. apply map_size_empty.
Qed.
(** * Acceptance *)
Context {ST : Type} `{!KernelStores ST} (k : Kernel).
Context (Hsig : k.(k_sigScheme) = sigScheme) (Hhash : k.(k_hashScheme) = hashScheme).
Context (Hinit : k.(k_initialHeight) = 1).
(** HashScheme.Block is documented not to consult the header's hash. *)
Context (Hblock : forall h hash, hs_Block hashScheme {| h with Hash := hash |} = hs_Block hashScheme h).

Lemma findProposer_in (v : Validator) vals : v ∈ vals -> findProposer (Some v.(val_PubKey)) vals = Ret (Some v.(val_PubKey)).
Proof.
  induction vals as [|v' vals IH]; [by intros ?%elem_of_nil|]. intros Hin. simpl. unfold pk_Equal.
  case_bool_decide as E; [by rewrite <- E|]. apply IH. apply elem_of_cons in Hin as [->|]; done.
Qed.

Lemma ValSet_spec f vs : sealed f -> ValSet f = Ret vs ->
  vs.(Validators) = SortValidators (PrivVals_Vals privVals) /\ hs_PubKeys hashScheme keys = Ok vs.(PubKeyHash).
Proof.
  intros Hf Hv. unfold ValSet in Hv. apply must_Ok in Hv. unfold NewValidatorSet, Vals in Hv.
  rewrite (se_vals _ Hf), (se_hashScheme _ Hf) in Hv. destruct (hs_PubKeys hashScheme _) as [kh|] eqn:Ek; [|discriminate].
  destruct (hs_VotePowers _ _); [|discriminate]. by injection Hv as <-.
Qed.

(** The proposed header: what it holds, and the signature. *)
Record proposes f vs (v : PrivValEd25519) (ph : ProposedHeader) : Prop := {
  pr_height : ph.(ph_Header).(Height) = f.(prevBlockHeight) + 1;
  pr_round : ph.(ph_Round) = 0;
  pr_pcp : ph.(ph_Header).(PrevCommitProof) = f.(prevCommitProof);
  pr_valSet : ph.(ph_Header).(hd_ValidatorSet) = vs;
  pr_hash : hs_Block hashScheme ph.(ph_Header) = Ok ph.(ph_Header).(Hash);
  pr_key : ph.(ph_ProposerPubKey) = Some v.(CVal).(val_PubKey);
  pr_sig : exists content, ProposalSignBytes ph.(ph_Header) 0 ph.(ph_Annotations) sigScheme = Ok content /\
    verify v.(CVal).(val_PubKey) content ph.(ph_Signature) = true
}.

Lemma proposed f vs data i j ph0 ph : sealed f -> ValSet f = Ret vs ->
  NextProposedHeader data i f = Ret ph0 -> SignProposal ph0 j f = Ret ph ->
  exists v, v ∈ privVals /\ proposes f vs v ph.
Proof.
  intros Hf Hvs Hn Hs. unfold NextProposedHeader in Hn. rewrite Hvs in Hn. simpl in Hn.
  apply bind_Ret_inv in Hn as (h & Hr & [= <-]). unfold RecalculateHash in Hr.
  apply bind_Ret_inv in Hr as (newHash & Hb & [= <-]). apply must_Ok in Hb.
  rewrite (se_hashScheme _ Hf) in Hb. unfold SignProposal in Hs.
  apply bind_Ret_inv in Hs as (v & Hv & Hs). apply bind_Ret_inv in Hs as (content & Hc & Hs).
  apply bind_Ret_inv in Hs as (sig & Hsg & [= <-]). apply must_Ok in Hc, Hsg.
  apply indexInt_elem in Hv. rewrite (se_vals _ Hf) in Hv. exists v. split; [done|].
  rewrite (se_sigScheme _ Hf) in Hc. pose proof (se_height _ Hf) as Hh.
  split; simpl; try done.
  - apply u64_small. unfold is_u64. lia.
  - rewrite <- Hb. apply (Hblock (MkHeader _ _ _ _ _ _ _ _ _)).
  - exists content. split; [done|]. rewrite Forall_forall in Hfaithful. by apply (Hfaithful v Hv).
Qed.

(** The commit in it convinces a mirror that knows the validators. *)
Lemma commit_convinces f vs ph v : sealed f -> f.(prevBlockHeight) <> 0 -> ValSet f = Ret vs -> proposes f vs v ph ->
  foldO (checkPrevCommit (P := SimpleProof B) k ph vs) None (gm_entries f.(prevCommitProof).(cp_Proofs)) = Ret None.
Proof.
  intros Hf Hne Hvs Hp. destruct (ValSet_spec f vs Hf Hvs) as [Hvals Hkh].
  destruct (se_later _ Hf Hne) as [Hpcp Hall]. rewrite Hpcp in Hkh. injection Hkh as Hkh.
  assert (Hl : forall hash sigs, (hash, sigs) ∈ gm_entries f.(prevCommitProof).(cp_Proofs) ->
    gm_get f.(prevCommitProof).(cp_Proofs) hash = Some sigs) by (intros; by apply elem_of_map_to_list).
  induction (gm_entries _) as [|[hash sigs] l IH]; [done|]. cbn [foldO].
  destruct (Hall hash sigs) as (content & p & Hc & Hsg & ->); [apply Hl, elem_of_cons; auto|].
  assert (Hstep : checkPrevCommit (P := SimpleProof B) k ph vs None (hash, sparseSigs p) = Ret None).
  { unfold checkPrevCommit. rewrite (pr_height _ _ _ _ Hp), (pr_pcp _ _ _ _ Hp).
    replace (u64 (prevBlockHeight f + 1 - 1)) with (prevBlockHeight f)
      by (rewrite Z.add_simpl_r; symmetry; apply u64_small; pose proof (se_height _ Hf); unfold is_u64; lia).
    cbn [fst snd]. rewrite Hsig, Hc, Hvals, <- Hkh. destruct (signedProof_sent _ _ _ Hsg) as (q & p' & r & Hq & Hm & Hv).
    change (scheme_New (P := SimpleProof B)) with (NewSimpleProof (B := B)). rewrite Hq.
    change (cmsp_MergeSparse (P := SimpleProof B)) with (Simple_MergeSparse (B := B)). rewrite Hm. simpl. by rewrite Hv. }
  rewrite Hstep. simpl. apply IH. intros. apply Hl, elem_of_cons. auto.
Qed.

(** C24: the mirror accepts a chain made of valid headers and votes.  Take any fixture made by starting one, taking
    its genesis and committing headers with precommits of its validators, whose signatures verify, whose keys are
    distinct and fewer than 65536.  The header it proposes next, signed by any of its validators, gets through all
    the checks of HandleProposedHeader in every mirror that is in the first round of the next height with the same
    validators there and, after the first commit, in the header being committed, and does not have the header. *)
Theorem fixture_header_accepted f vs data i j ph0 ph (w : World (SimpleProof B) ST) :
  fixtureMade f -> ValSet f = Ret vs ->
  NextProposedHeader data i f = Ret ph0 -> SignProposal ph0 j f = Ret ph ->
  vHeight w.(w_k).(s_Committing) < vHeight w.(w_k).(s_Voting) ->
  vHeight w.(w_k).(s_Voting) = f.(prevBlockHeight) + 1 -> vRound w.(w_k).(s_Voting) = 0 ->
  vVals w.(w_k).(s_Voting) = vs.(Validators) ->
  (f.(prevBlockHeight) <> 0 -> w.(w_k).(CommittingHeader).(hd_ValidatorSet) = vs) ->
  existsb (fun have => String.eqb have.(ph_Signature) ph.(ph_Signature)) (vPHs w.(w_k).(s_Voting)) = false ->
  exists w', headerStep k (HandleProposedHeader ph) w = Ret (HAdd ph, w') /\ w'.(w_k) = w.(w_k).
Proof.
  intros Hf%made_sealed Hvs Hn Hs Hlt Hh Hr Hvals Hprev Hnew.
  destruct (proposed f vs data i j ph0 ph Hf Hvs Hn Hs) as (v & Hv & Hp). apply signer_key in Hv.
  destruct (ValSet_spec f vs Hf Hvs) as [Hvl Hkh].
  assert (Hc : exists resp, phCheck k w.(w_k) ph = Ret resp /\ resp.(phc_Status) = PHCheckAcceptable /\
    resp.(phc_ProposerPubKey) = Some v.(CVal).(val_PubKey) /\
    resp.(phc_PrevValidatorSet) = if f.(prevBlockHeight) =? 0 then ValidatorSet_zero else vs).
  { unfold phCheck. rewrite (pr_height _ _ _ _ Hp), (pr_round _ _ _ _ Hp), <- Hh, Hr.
    destruct (Z.ltb_spec (vHeight (s_Voting (w_k w))) (vHeight (s_Committing (w_k w)))); [lia|].
    destruct (Z.eqb_spec (vHeight (s_Voting (w_k w))) (vHeight (s_Committing (w_k w)))); [lia|].
    rewrite Z.eqb_refl. simpl. unfold setPHCheckStatus. rewrite Hnew, (pr_key _ _ _ _ Hp), Hvals, Hvl.
    rewrite (findProposer_in v.(CVal)) by done. simpl. rewrite (pr_height _ _ _ _ Hp), Hinit.
    destruct (Z.eqb_spec (prevBlockHeight f) 0) as [H0'|Hne].
    - rewrite H0'. simpl. by eexists.
    - destruct (Z.eqb_spec (prevBlockHeight f + 1) 1); [lia|]. eexists. split_and!; try done. simpl. by apply Hprev. }
  destruct Hc as (resp & Hck & Hst & Hkey & Hset). eexists. split; [|].
  { simpl. unfold mbind, K_bind. rewrite (askPHCheck_ret k ph w resp Hck) by (by rewrite Hst).
    simpl. unfold liftO, afterCheck. rewrite Hst. unfold validateHeader.
    rewrite Hhash, (pr_hash _ _ _ _ Hp), String.eqb_refl. simpl.
    destruct (pr_sig _ _ _ _ Hp) as (content & Hcontent & Hver).
    rewrite Hsig, (pr_round _ _ _ _ Hp), Hcontent, Hkey, Hver, (pr_pcp _ _ _ _ Hp), Hset. simpl.
    destruct (Z.eqb_spec (prevBlockHeight f) 0) as [H0'|Hne].
    - destruct (se_first _ Hf H0') as [-> Hempty]. simpl. unfold gm_entries. rewrite Hempty. reflexivity.
    - destruct (se_later _ Hf Hne) as [Hpcp _]. rewrite Hpcp in Hkh. injection Hkh as <-.
      rewrite String.eqb_refl. simpl. rewrite (commit_convinces f vs ph v) by done. reflexivity. }
  reflexivity.
Qed.
End accepted.

(** ** The instance: four validators commit a header, and the mirror gets the next. *)
Definition toySigner (n : nat) : KeySigner :=
  let name := nth n ["a"; "b"; "c"; "d"] "a" in MkKeySigner (MkPubKey "toy" name) (fun b => Ok (name +:+ b)).
Definition outcomeOr {A} (d : A) (m : outcome A) : A := match m with Ret a => a | Panic _ => d end.

Definition newFixture : StandardFixture := NewStandardFixture toySigner toySigScheme toyHashScheme 4.
Definition genesisFixture : StandardFixture * Genesis := outcomeOr (newFixture, Genesis_zero) (DefaultGenesis newFixture).
Definition fixtureSet : ValidatorSet := outcomeOr ValidatorSet_zero (ValSet newFixture).
Definition proposal (data : bytes) (i : Z) (f : StandardFixture) : ProposedHeader :=
  outcomeOr farRoundHeader (ph ← NextProposedHeader data i f; SignProposal ph i f).
Definition firstPH : ProposedHeader := proposal "x" 0 genesisFixture.1.
Definition firstCommit : gmap bytes TP :=
  outcomeOr ∅ (PrecommitProofMap (B := gset nat) 1 0 (Some {["x" := [0; 1; 2]]}) genesisFixture.1).
Definition committedFixture : StandardFixture :=
  outcomeOr newFixture (CommitBlock (B := gset nat) firstPH.(ph_Header) "app" 0 (Some firstCommit) genesisFixture.1).
Definition secondPH : ProposedHeader := proposal "y" 1 committedFixture.

Definition fixtureKernel : Kernel := MkKernel toyHashScheme toySigScheme 1 fixtureSet 2.
Definition fixtureWorld : TW :=
  let w := worldOr emptyWorld (NewKernel (B := gset nat) fixtureKernel true true true emptyWorld) in
  let w := worldOr emptyWorld (handle fixtureKernel (InAddPH firstPH) w) in
  worldOr emptyWorld
    (handle fixtureKernel (InAddPrecommit (MkAddPrecommit 1 0 ((fun p => MkVoteUpdate p 0) <$> firstCommit) true)) w).

Lemma toySigners_faithful : Forall faithful (DeterministicValidatorsEd25519 toySigner 4).
Proof.
  repeat constructor; intros content sig [= <-]; apply String.eqb_refl.
Defined.

Lemma committedFixture_made : fixtureMade (B := gset nat) toySigner toySigScheme toyHashScheme 4 committedFixture.
Proof.
  apply (fm_commit _ _ _ _ genesisFixture.1 _ firstPH.(ph_Header) "app" 0 (Some {["x" := [0; 1; 2]]}) firstCommit).
  - apply (fm_genesis _ _ _ _ newFixture _ genesisFixture.2); [constructor|]. vm_compute. reflexivity.
  - split; vm_compute; reflexivity.
  - vm_compute. reflexivity.
  - vm_compute. reflexivity.
Defined.

Lemma fixture_header_accepted_witness :
  exists w', headerStep fixtureKernel (HandleProposedHeader secondPH) fixtureWorld = Ret (HAdd secondPH, w') /\
    w'.(w_k) = fixtureWorld.(w_k).
Proof.
  apply (fixture_header_accepted toySigner toySigScheme toyHashScheme 4 toySigners_faithful) with
    (f := committedFixture) (vs := fixtureSet) (data := "y") (i := 1) (j := 1)
    (ph0 := outcomeOr farRoundHeader (NextProposedHeader "y" 1 committedFixture)).
  - vm_compute. repeat constructor; set_solver.
  - vm_compute. reflexivity.
  - reflexivity.
  - reflexivity.
  - reflexivity.
  - reflexivity.
  - exact committedFixture_made.
  - vm_compute. reflexivity.
  - vm_compute. reflexivity.
  - vm_compute. reflexivity.
  - vm_compute. reflexivity.
  - vm_compute. reflexivity.
  - vm_compute. reflexivity.
  - vm_compute. reflexivity.
  - intros _. vm_compute. reflexivity.
  - vm_compute. reflexivity.
Defined.
