(* ===== verification/Halt.v ===== *)
(** A round whose precommits are split, on a network of mirrors.  When the delay for the missing precommits runs
    out, a state machine enters the next round (statemachine.go, handleTimerElapsed), while the mirrors leave a round
    only when its precommits agree or are complete, or when votes of the next round reach them (kernel.go); and the
    kernel drops the votes of its state machine for the next round (kernel.go, handleStateMachineAction).  Together
    these stop the network, when a validator stays silent. *)
From S2P Require Import Prelude Types BitSets Powers SigProof SimpleProofs VoteSummary RoundView.
From S2P Require Import Stores Managers KState KernelBase Kernel KernelHandlers KernelLoop.
From S2P Require Import KernelExample KernelSpec KernelRefine KernelSafety KernelTheorems KernelPrompt.
From stdpp Require Import relations.
Local Open Scope Z_scope.

Section halt.
Context {P B ST : Type} `{CMSPLaws P B, !KernelStores ST, !KernelStoresLaws ST}.
Context (k : Kernel) (h r : Z) (vals : ValidatorSet).

(** The one precommit of each validator in the round, if it made one. *)
Context (vote : nat -> option bytes).

Definition votersFor (phi : option bytes -> bool) : gset nat :=
  list_to_set (List.filter (fun i => phi (vote i)) (seq 0 (length vals.(Validators)))).
Definition isFor (hash : bytes) (v : option bytes) : bool := bool_decide (v = Some hash).
Definition isVote (v : option bytes) : bool := bool_decide (v <> None).

(** No signed precommit of the round but these exists, no hash has a majority of them, and they are not complete. *)
Record splitVote : Prop := {
  sv_powers : powers_ok vals.(Validators);
  sv_signed hash content i : PrecommitSignBytes (MkVoteTarget h r hash) k.(k_sigScheme) = Ok content ->
    signedBy vals.(Validators) content i -> vote i = Some hash;
  sv_minority hash maj : ByzantineMajority (totalPowerZ vals.(Validators)) = Ret maj ->
    powerIn vals.(Validators) (votersFor (isFor hash)) 0 < maj;
  sv_silent : powerIn vals.(Validators) (votersFor isVote) 0 < totalPowerZ vals.(Validators)
}.
Context (Hsplit : splitVote).

Lemma elem_of_votersFor phi i : i ∈ votersFor phi <-> (i < length vals.(Validators))%nat /\ phi (vote i) = true.
Proof.
  unfold votersFor. rewrite elem_of_list_to_set, list_elem_of_In, filter_In, in_seq. split; intros [? ?]; split; (lia || done).
Qed.

(** A mirror in the round: it holds precommits of the round only, and no votes of the next round. *)
Record halted (a : AState P) : Prop := {
  ha_coherent : a_coherent a;
  ha_height : a.(aV).(rv_Height) = h;
  ha_round : a.(aV).(rv_Round) = r;
  ha_vals : a.(aV).(rv_ValidatorSet) = vals;
  ha_precommits hash p : gm_get a.(aV).(rv_PrecommitProofs) hash = Some p -> precommit_ok k a.(aV) hash p;
  ha_prevotes_next : gm_map a.(aN).(rv_PrevoteProofs) = ∅;
  ha_precommits_next : gm_map a.(aN).(rv_PrecommitProofs) = ∅
}.
Implicit Types (a : AState P) (w : World P ST).

Lemma halted_views a b : b.(aV) = a.(aV) -> b.(aN) = a.(aN) -> halted a -> halted b.
Proof.
  intros Ev En [[Hv Hn Hh Hr Hvs] ? ? ? ? ? ?]. split; rewrite ?Ev, ?En; try done. by split; rewrite ?Ev, ?En.
Qed.

(** ** The votes do not suffice *)
Lemma halted_bits a hash p i : halted a -> gm_get a.(aV).(rv_PrecommitProofs) hash = Some p ->
  i ∈ bs_elems (cmsp_SignatureBitSet p) -> (i < length vals.(Validators))%nat /\ vote i = Some hash.
Proof.
  intros Ha Hp Hi. destruct (ha_precommits _ Ha _ _ Hp) as [Hs Hm].
  destruct (cmsp_sound_bits _ _ _ Hs Hi) as (key & key' & sig & Hk & Hb & Hver).
  unfold rvVals in Hk. rewrite (ha_vals _ Ha) in Hk. unfold ValidatorsToPubKeys in Hk.
  rewrite list_lookup_fmap in Hk. apply fmap_Some in Hk as (v & Hv & ->).
  rewrite (ha_height _ Ha), (ha_round _ Ha) in Hm. split; [by eapply lookup_lt_Some|].
  eapply (sv_signed Hsplit); [exact Hm|]. by exists v, key', sig.
Qed.

Lemma halted_powers : Forall (fun v => 0 <= v.(val_Power)) vals.(Validators) /\ 0 < totalPowerZ vals.(Validators) < two64.
Proof.
  pose proof (powers_ok_nonneg _ (sv_powers Hsplit)) as Hn. split; [done|].
  pose proof (sv_silent Hsplit). pose proof (powerIn_nonneg vals.(Validators) (votersFor isVote) 0 Hn).
  destruct (sv_powers Hsplit). lia.
Qed.

Lemma halted_avail a : halted a -> a.(aV).(rv_VoteSummary).(AvailablePower) = totalPowerZ vals.(Validators).
Proof.
  intros Ha. rewrite (ro_avail _ (ac_voting _ (ha_coherent _ Ha))), (ha_vals _ Ha). apply u64_small.
  pose proof halted_powers. unfold is_u64. lia.
Qed.

Lemma halted_top a maj : halted a -> ByzantineMajority a.(aV).(rv_VoteSummary).(AvailablePower) = Ret maj ->
  topPrecommitPower a.(aV) < maj.
Proof.
  intros Ha Hm. rewrite (halted_avail _ Ha) in Hm. destruct halted_powers as [Hn Hpos].
  pose proof (td_block _ _ _ _ _ (ro_precommit_tally _ (ac_voting _ (ha_coherent _ Ha)))) as Hb.
  unfold topPrecommitPower. rewrite Hb. unfold gm_getz, gm_get. simpl. rewrite lookup_fmap.
  destruct (gm_map _ !! _) as [p|] eqn:Ep; simpl.
  - unfold proofPower. rewrite sumPower_u64, (ha_vals _ Ha). rewrite u64_small.
    + eapply Z.le_lt_trans; [|apply (sv_minority Hsplit (MostVotedPrecommitHash (rv_VoteSummary (aV a)))), Hm].
      apply powerIn_mono; [done|]. intros i Hi. apply elem_of_votersFor.
      destruct (halted_bits a _ p i Ha Ep Hi) as [Hlt Hv]. split; [done|]. unfold isFor. rewrite Hv. by apply bool_decide_eq_true_2.
    + pose proof (powerIn_nonneg vals.(Validators) (bs_elems (cmsp_SignatureBitSet p)) 0 Hn).
      pose proof (powerIn_le_total vals.(Validators) (bs_elems (cmsp_SignatureBitSet p)) 0 Hn). unfold is_u64. lia.
  - apply (majority_positive (totalPowerZ vals.(Validators))); [lia|done].
Qed.

(** The proofs for different hashes name different validators. *)
Lemma halted_entries a l : halted a -> NoDup l.*1 ->
  (forall e, e ∈ l -> gm_get a.(aV).(rv_PrecommitProofs) e.1 = Some e.2) ->
  disjointBits l /\ forall i, i ∈ unionBits l -> (i < length vals.(Validators))%nat /\ exists hash, hash ∈ l.*1 /\ vote i = Some hash.
Proof.
  intros Ha. induction l as [|[hash p] l IH]; intros Hnd Hl; [split; [done|]; intros i; simpl; set_solver|].
  apply NoDup_cons in Hnd as [Hnew Hnd]. destruct IH as [Hd Hu]; [done|intros; apply Hl, elem_of_cons; auto|].
  assert (Hp : gm_get a.(aV).(rv_PrecommitProofs) hash = Some p) by (apply (Hl (hash, p)), elem_of_cons; auto).
  split.
  - split; [|done]. simpl. apply set_eq. intros i. split; [|set_solver]. intros [Hi Hi']%elem_of_intersection.
    destruct (halted_bits a hash p i Ha Hp Hi) as [_ Hv]. destruct (Hu i Hi') as (_ & hash' & Hin & Hv').
    exfalso. apply Hnew. by simplify_eq.
  - intros i. simpl. intros [Hi|Hi]%elem_of_union.
    + destruct (halted_bits a hash p i Ha Hp Hi). split; [done|]. exists hash. split; [apply elem_of_cons; auto|done].
    + destruct (Hu i Hi) as (? & hash' & ? & ?). split; [done|]. exists hash'. split; [apply elem_of_cons; auto|done].
Qed.

Lemma halted_total a : halted a ->
  a.(aV).(rv_VoteSummary).(TotalPrecommitPower) <> a.(aV).(rv_VoteSummary).(AvailablePower).
Proof.
  intros Ha. rewrite (halted_avail _ Ha). destruct halted_powers as [Hn Hpos].
  rewrite (td_total _ _ _ _ _ (ro_precommit_tally _ (ac_voting _ (ha_coherent _ Ha)))), (ha_vals _ Ha).
  destruct (halted_entries a (gm_entries a.(aV).(rv_PrecommitProofs)) Ha) as [Hd Hu].
  { apply NoDup_fst_map_to_list. }
  { intros [hash p] He. by apply elem_of_map_to_list. }
  rewrite sumPowers_disjoint by done.
  assert (Hle : powerIn vals.(Validators) (unionBits (gm_entries a.(aV).(rv_PrecommitProofs))) 0 <=
                powerIn vals.(Validators) (votersFor isVote) 0).
  { apply powerIn_mono; [done|]. intros i Hi. apply elem_of_votersFor. destruct (Hu i Hi) as (Hlt & hash & _ & Hv).
    split; [done|]. unfold isVote. rewrite Hv. by apply bool_decide_eq_true_2. }
  pose proof (powerIn_nonneg vals.(Validators) (unionBits (gm_entries a.(aV).(rv_PrecommitProofs))) 0 Hn).
  pose proof (sv_silent Hsplit). rewrite u64_small by (unfold is_u64; lia). lia.
Qed.

(** ** The handlers *)
Definition halts {A} (m : K P ST A) w : Prop := wp m w (fun _ w' => halted (abs w')).

Lemma halts_same {A} (m : K P ST A) w : halted (abs w) -> sameVN m w -> halts m w.
Proof. intros Hw. apply wp_mono. intros _ w' [Ev En]. by apply (halted_views (abs w)). Qed.

Lemma halts_frame {A} (m : K P ST A) w : halted (abs w) -> frames m w -> halts m w.
Proof. intros Hw Hf. by apply halts_same, frames_sameVN. Qed.

Lemma halts_then {A C} (m : K P ST A) (f : A -> K P ST C) w : halts m w ->
  (forall x w', halted (abs w') -> halts (f x) w') -> halts (m ≫= f) w.
Proof. intros Hm Hf. apply wp_bind. eapply wp_mono; [|exact Hm]. intros x w' Hw. by apply Hf. Qed.

Lemma halts_getK {C} (f : kState P -> K P ST C) w : halts (f w.(w_k)) w -> halts (getK ≫= f) w.
Proof. done. Qed.

Lemma halts_liftO {A C} (m : outcome A) (f : A -> K P ST C) w : (forall x, m = Ret x -> halts (f x) w) -> halts (liftO m ≫= f) w.
Proof. intros Hf. apply wp_bind, wp_liftO_eq. auto. Qed.

(** The voting view is not left. *)
Lemma halts_checkVoting w : halted (abs w) -> halts checkVotingPrecommitViewShift w.
Proof.
  intros Hw. unfold checkVotingPrecommitViewShift. apply halts_getK, halts_liftO. intros maj Hm.
  change (vSummary (s_Voting (w_k w))) with (abs w).(aV).(rv_VoteSummary) in *.
  pose proof (halted_top _ _ Hw Hm) as Htop. unfold topPrecommitPower in Htop.
  rewrite (proj2 (Z.ltb_lt _ _) Htop), (proj2 (Z.eqb_neq _ _) (halted_total _ Hw)). exact Hw.
Qed.

Lemma FindView_pos hh rr (s : kState P) id : FindView hh rr s = Ret (id, ViewFound) ->
  (id = ViewIDVoting -> hh = vHeight s.(s_Voting) /\ rr = vRound s.(s_Voting)) /\
  (id = ViewIDNextRound -> hh = vHeight s.(s_Voting) /\ rr = u32 (vRound s.(s_Voting) + 1)).
Proof.
  unfold FindView. destruct (Z.eqb_spec hh (vHeight (s_Voting s))) as [->|Hne].
  - destruct (Z.eqb_spec rr (vRound (s_Voting s))) as [->|]; [by intros [= <-]|].
    destruct (Z.eqb_spec rr (u32 (vRound (s_Voting s) + 1))) as [->|]; [by intros [= <-]|].
    by destruct (_ <? _).
  - repeat case_match; intros; simplify_eq; done.
Qed.

Lemma halts_recordPrevotes id hh rr proofs versions w : halted (abs w) -> proofs <> None -> id <> ViewIDNextRound ->
  halts (recordPrevotes id hh rr) {| w with w_k := setView id (withPrevotes (viewOf id w.(w_k)) proofs versions) w.(w_k) |}.
Proof.
  intros Hw Hne Hid. unfold halts, recordPrevotes.
  apply wp_bind. unfold wp at 1; simpl. apply wp_bind, wp_liftO_eq. intros vs Hvs.
  apply wp_bind. unfold wp at 1; simpl. apply wp_bind, wp_modKO. intros s' Hs'.
  apply wp_bind, wp_liftO_eq. intros c Hc. apply wp_bind, wp_callStore. intros st e Hst. apply wp_ret. simpl in *.
  destruct id; simpl in Hs'; try discriminate; try done; injection Hs' as <-; simpl in *.
  - destruct Hw as [[Hv Hn Hh Hr Hvs'] ? ? ? ? ? ?]. split; simpl; try done.
    split; simpl; try done. by apply rv_ok_withPrevotes.
  - by apply (halted_views (abs w)).
Qed.

Lemma halts_recordPrecommits id hh rr proofs versions w : halted (abs w) -> proofs <> None -> id <> ViewIDNextRound ->
  (id = ViewIDVoting -> forall hash p, gm_get proofs hash = Some p -> precommit_ok k (abs w).(aV) hash p) ->
  halts (recordPrecommits id hh rr) {| w with w_k := setView id (withPrecommits (viewOf id w.(w_k)) proofs versions) w.(w_k) |}.
Proof.
  intros Hw Hne Hid Hok. unfold halts, recordPrecommits.
  apply wp_bind. unfold wp at 1; simpl. apply wp_bind, wp_liftO_eq. intros vs Hvs.
  apply wp_bind. unfold wp at 1; simpl. apply wp_bind, wp_modKO. intros s' Hs'.
  apply wp_bind, wp_liftO_eq. intros c Hc. apply wp_bind, wp_callStore. intros st e Hst. apply wp_ret. simpl in *.
  destruct id; simpl in Hs'; try discriminate; try done; injection Hs' as <-; simpl in *.
  - destruct Hw as [[Hv Hn Hh Hr Hvs'] ? ? ? ? ? ?]. split; simpl; try done.
    + split; simpl; try done. by apply rv_ok_withPrecommits.
    + intros hash p Hp. by apply (Hok eq_refl).
  - by apply (halted_views (abs w)).
Qed.

(** Votes for the next round, and precommits for the round that nobody made, do not arrive. *)
Definition fedPrevote (req : AddPrevoteRequest P) : Prop :=
  (req.(apv_H), req.(apv_R)) = (h, u32 (r + 1)) -> req.(PrevoteUpdates) = ∅.
Definition fedPrecommit (req : AddPrecommitRequest P) w : Prop :=
  ((req.(apc_H), req.(apc_R)) = (h, u32 (r + 1)) -> req.(PrecommitUpdates) = ∅) /\
  ((req.(apc_H), req.(apc_R)) = (h, r) ->
   forall hash u, req.(PrecommitUpdates) !! hash = Some u -> precommit_ok k (abs w).(aV) hash u.(vu_Proof)).

Lemma halted_next w id hh rr : halted (abs w) -> FindView hh rr w.(w_k) = Ret (id, ViewFound) ->
  (id = ViewIDVoting -> (hh, rr) = (h, r)) /\ (id = ViewIDNextRound -> (hh, rr) = (h, u32 (r + 1))).
Proof.
  intros Hw Hf. destruct (FindView_pos _ _ _ _ Hf) as [Hv Hn].
  assert (Hh : vHeight (s_Voting (w_k w)) = h) by apply (ha_height _ Hw).
  assert (Hr : vRound (s_Voting (w_k w)) = r) by apply (ha_round _ Hw).
  split; intros Hid; [destruct (Hv Hid) as [-> ->]|destruct (Hn Hid) as [-> ->]]; by rewrite Hh, Hr.
Qed.

(** What follows the assignment of the votes, when they are not for the next round. *)
Lemma halts_votes (record : K P ST unit) (any : bool) w w1 : halted (abs w) -> (any = true -> halts record w1) ->
  (any = false -> sameVN (fun w => Ret (tt, w1)) w) -> halts (if any then record else mret tt) w1.
Proof.
  intros Hw Hrec Hsame. destruct any; [by apply Hrec|]. destruct (Hsame eq_refl) as [Ev En]. by apply (halted_views (abs w)).
Qed.

Lemma halts_addPrevote req w : halted (abs w) -> fedPrevote req -> halts (addPrevote k req) w.
Proof.
  intros Hw Hfed. unfold addPrevote. apply halts_getK, halts_liftO. intros [id st] Hf.
  case_bool_decide; simpl; [|by apply halts_frame, frames_voteViewNotFound]. subst st.
  apply halts_liftO. intros [[[proofs versions] acc] any] Hup. destruct (halted_next _ _ _ _ Hw Hf) as [_ Hnext].
  apply wp_bind, wp_modK. destruct (decide (id = ViewIDNextRound)) as [->|Hid].
  - rewrite (Hfed (Hnext eq_refl)) in Hup. unfold applyUpdates in Hup. rewrite map_to_list_empty in Hup.
    injection Hup as <- <- <- <-. pose proof (ha_prevotes_next _ Hw) as Hnone.
    change (rv_PrevoteProofs (aN (abs w))) with (vPrevotes (s_NextRound (w_k w))) in Hnone. simpl viewOf.
    apply wp_bind, wp_ret, wp_bind. unfold respond.
    destruct (apv_Response req); unfold wp at 1; simpl;
      (destruct (vPrevotes (s_NextRound (w_k w))) as [m|]; simpl in Hnone; [rewrite Hnone|]; done).
  - apply applyUpdates_spec in Hup as (_ & Hsome & Hnone).
    apply halts_then.
    { apply (halts_votes _ _ w); [exact Hw|..].
      - intros Ha. apply halts_recordPrevotes; auto.
      - intros Ha. destruct (Hnone Ha) as [-> ->]. exact (frames_sameVN _ _ (frames_setPrevotes_same id _ w)). }
    intros _ w2 Hw2. apply halts_then; [by apply halts_frame, frames_respond|]. intros _ w3 Hw3.
    apply halts_then; [by apply halts_frame, frames_checkMissingPHs|]. intros _ w4 Hw4.
    rewrite (bool_decide_eq_false_2 (id = ViewIDNextRound)), andb_false_r by done. exact Hw4.
Qed.

Lemma halts_addPrecommit req w : halted (abs w) -> fedPrecommit req w -> halts (addPrecommit k req) w.
Proof.
  intros Hw [Hfed Hok]. unfold addPrecommit. apply halts_getK, halts_liftO. intros [id st] Hf.
  case_bool_decide; simpl; [|by apply halts_frame, frames_voteViewNotFound]. subst st.
  apply halts_liftO. intros [[[proofs versions] acc] any] Hup. destruct (halted_next _ _ _ _ Hw Hf) as [Hcur Hnext].
  apply wp_bind, wp_modK. destruct (decide (id = ViewIDNextRound)) as [->|Hid].
  - rewrite (Hfed (Hnext eq_refl)) in Hup. unfold applyUpdates in Hup. rewrite map_to_list_empty in Hup.
    injection Hup as <- <- <- <-. pose proof (ha_precommits_next _ Hw) as Hnone.
    change (rv_PrecommitProofs (aN (abs w))) with (vPrecommits (s_NextRound (w_k w))) in Hnone. simpl viewOf.
    apply wp_bind, wp_ret, wp_bind. unfold respond.
    destruct (apc_Response req); unfold wp at 1; simpl;
      (destruct (vPrecommits (s_NextRound (w_k w))) as [m|]; simpl in Hnone; [rewrite Hnone|]; done).
  - apply applyUpdates_spec in Hup as (Hfrom & Hsome & Hnone).
    apply halts_then.
    { apply (halts_votes _ _ w); [exact Hw|..].
      - intros Ha. apply halts_recordPrecommits; [done|auto|done|]. intros -> hash p Hp.
        destruct (Hfrom _ _ Hp) as [Hold|(u & Hu & ->)]; [by apply (ha_precommits _ Hw)|by eapply Hok; [apply Hcur|]].
      - intros Ha. destruct (Hnone Ha) as [-> ->]. exact (frames_sameVN _ _ (frames_setPrecommits_same id _ w)). }
    intros _ w2 Hw2. apply halts_then; [by apply halts_frame, frames_respond|]. intros _ w3 Hw3.
    apply halts_then; [by apply halts_frame, frames_checkMissingPHs|]. intros _ w4 Hw4.
    destruct (negb _); [exact Hw4|]. destruct id; try done.
    apply halts_then; [by apply halts_checkVoting|done].
Qed.

Lemma halted_header id ph w : halted (abs w) -> id = ViewIDVoting \/ id = ViewIDNextRound \/ id = ViewIDCommitting ->
  halted (abs {| w with w_k := setView id (vrv_upd (appendPH ph) (viewOf id w.(w_k))) w.(w_k) |}).
Proof.
  intros Hw Hid. pose proof Hw as [[Hv Hn Hh Hr Hvs] ? ? ? ? ? ?]. destruct Hid as [->|[->| ->]]; simpl.
  - split; simpl; try done. split; simpl; try done. by apply rv_ok_phs.
  - split; simpl; try done. split; simpl; try done. by apply rv_ok_phs.
  - by apply (halted_views (abs w)).
Qed.

Lemma halts_addProposedHeader ph w : halted (abs w) -> halts (addProposedHeader ph) w.
Proof.
  intros Hw. unfold addProposedHeader. apply halts_then; [by apply halts_frame, frames_cancelFetch|].
  intros _ w1 Hw1. apply halts_getK, halts_liftO. intros [id st] Hf. simpl fst.
  case_bool_decide as Hid; [exact Hw1|]. destruct (existsb _ _); [exact Hw1|].
  destruct (FindView_found _ _ _ _ _ Hf) as (Hst & _ & Hin). specialize (Hin (proj2 Hst Hid)).
  apply wp_bind, wp_modK. pose proof (halted_header id ph w1 Hw1 Hin) as Hw2. revert Hw2.
  generalize ({| w1 with w_k := setView id (vrv_upd (appendPH ph) (viewOf id (w_k w1))) (w_k w1) |}). intros w2 Hw2.
  apply halts_then; [by apply halts_same, sameVN_storeO|]. intros e w3 Hw3.
  apply halts_then; [by apply halts_frame, frames_checkSaveError|]. intros _ w4 Hw4.
  apply halts_then; [by apply halts_frame, frames_modKO, same4_MarkViewUpdated|]. intros _ w5 Hw5.
  destruct (negb _); [exact Hw5|].
  apply halts_then; [by apply halts_frame, frames_modK|]. intros _ w6 Hw6.
  apply halts_then; [by apply halts_same, sameVN_backfill|]. intros _ w7 Hw7.
  apply halts_getK. destruct (_ && _); [|exact Hw7]. apply halts_then; [by apply halts_checkVoting|done].
Qed.

(** The state machine of the node is in the next round. *)
Definition ahead w : Prop :=
  smH w.(w_k).(StateMachineViewManager) = h /\ smR w.(w_k).(StateMachineViewManager) = u32 (r + 1).

Definition isVoteAction (act : StateMachineRoundAction) : Prop :=
  act.(act_PH).(ph_Header).(Hash) = nilHash /\
  (act.(act_Prevote).(sc_Sig) <> nilHash \/ act.(act_Precommit).(sc_Sig) <> nilHash).

Lemma u32_next_ne z : u32 (z + 1) <> z.
Proof. unfold u32, two32. intros E. pose proof (Z.mod_pos_bound (z + 1) 4294967296 eq_refl). rewrite Z.mod_eq in E by lia. lia. Qed.

Lemma FindView_ahead w : halted (abs w) -> ahead w ->
  FindView (smH w.(w_k).(StateMachineViewManager)) (smR w.(w_k).(StateMachineViewManager)) w.(w_k) = Ret (ViewIDNextRound, ViewFound).
Proof.
  intros Hw [-> ->]. unfold FindView.
  assert (Hh : vHeight (s_Voting (w_k w)) = h) by apply (ha_height _ Hw).
  assert (Hr : vRound (s_Voting (w_k w)) = r) by apply (ha_round _ Hw).
  rewrite Hh, Hr, !Z.eqb_refl. by rewrite (proj2 (Z.eqb_neq _ _) (u32_next_ne r)).
Qed.

(** Its votes are dropped. *)
Lemma vote_dropped act w : halted (abs w) -> ahead w -> isVoteAction act ->
  handleStateMachineAction k act w = Ret (tt, w).
Proof.
  intros Hw Hah [Hph Hv]. unfold handleStateMachineAction. unfold nonEmpty at 1 4. rewrite Hph. simpl.
  assert (Hsome : nonEmpty (sc_Sig (act_Prevote act)) || nonEmpty (sc_Sig (act_Precommit act)) = true).
  { unfold nonEmpty. destruct Hv as [Hv|Hv]; rewrite (proj2 (String.eqb_neq _ _) Hv); [done|apply orb_true_r]. }
  rewrite Hsome. simpl. unfold mbind, K_bind, getK, liftO. simpl. by rewrite FindView_ahead.
Qed.

Lemma halts_action act w : halted (abs w) -> ahead w -> halts (handleStateMachineAction k act) w.
Proof.
  intros Hw Hah. unfold handleStateMachineAction. destruct (negb _); [exact I|].
  destruct (nonEmpty (Hash _)); [destruct (_ || _); [exact I|by apply halts_addProposedHeader]|].
  apply halts_getK. rewrite FindView_ahead by done. exact Hw.
Qed.

Lemma halts_replay header proof w : halted (abs w) -> header.(Height) <> h -> halts (replayRequest k header proof) w.
Proof.
  intros Hw Hne. unfold replayRequest, handleReplayedHeader. apply wp_bind, wp_bind. unfold wp at 1; simpl.
  assert (Hh : vHeight (s_Voting (w_k w)) = h) by apply (ha_height _ Hw).
  rewrite Hh, (proj2 (Z.eqb_neq _ _) Hne). simpl. exact Hw.
Qed.

(** ** The network *)

(** Some mirror holds a vote for the hash in the next round. *)
Definition recorded (votes : VersionedRoundView P -> gomap P) (ws : list (World P ST)) (hash : bytes) : Prop :=
  exists w, w ∈ ws /\ is_Some (gm_get (votes w.(w_k).(s_NextRound)) hash).

(** What reaches a mirror: for the next round only votes that some mirror has, for the round only precommits that
    were made, the replay of a height only when it is committed, and the actions of a state machine that is in the
    next round.  Headers, prevotes of the round and requests for other rounds and heights are not restricted. *)
Definition arrives (ws : list (World P ST)) w (i : Input (P := P)) : Prop :=
  match i with
  | InAddPrevote req => (req.(apv_H), req.(apv_R)) = (h, u32 (r + 1)) ->
      forall hash, is_Some (req.(PrevoteUpdates) !! hash) -> recorded vPrevotes ws hash
  | InAddPrecommit req =>
      ((req.(apc_H), req.(apc_R)) = (h, u32 (r + 1)) ->
       forall hash, is_Some (req.(PrecommitUpdates) !! hash) -> recorded vPrecommits ws hash) /\
      ((req.(apc_H), req.(apc_R)) = (h, r) ->
       forall hash u, req.(PrecommitUpdates) !! hash = Some u -> precommit_ok k (abs w).(aV) hash u.(vu_Proof))
  | InReplay header _ => header.(Height) <> h
  | InAction _ => ahead w
  | _ => True
  end.

(** One mirror handles an input, or its fetcher takes a request. *)
Inductive netstep : list (World P ST) -> list (World P ST) -> Prop :=
| net_handle n i w w' ws : ws !! n = Some w -> ready w.(w_k) i = true -> arrives ws w i ->
    handle k i w = Ret (tt, w') -> netstep ws (<[n := w']> ws)
| net_fetch n q fr w ws : ws !! n = Some w -> w.(w_fetchQ) = fr :: q ->
    netstep ws (<[n := {| w with w_fetchQ := q |}]> ws).

Definition allHalted (ws : list (World P ST)) : Prop := Forall (fun w => halted (abs w)) ws.

Lemma none_recorded ws (f : VersionedRoundView P -> gomap P) (ups : gmap bytes (VoteUpdate P)) : allHalted ws ->
  (forall w, halted (abs w) -> gm_map (f w.(w_k).(s_NextRound)) = ∅) ->
  (forall hash, is_Some (ups !! hash) -> recorded f ws hash) -> ups = ∅.
Proof.
  intros Hall Hf Hr. apply map_eq. intros hash. rewrite lookup_empty. apply eq_None_not_Some. intros Hs.
  destruct (Hr _ Hs) as (w & Hw & [p Hp]). unfold allHalted in Hall. rewrite Forall_forall in Hall.
  unfold gm_get in Hp. rewrite (Hf w (Hall w Hw)) in Hp. by rewrite lookup_empty in Hp.
Qed.

Lemma halts_handle ws i w : allHalted ws -> halted (abs w) -> arrives ws w i -> halts (handle k i) w.
Proof.
  intros Hall Hw Ha. destruct i as [req|req|ph|ph|req|req| | | |ph|re|act|header proof]; simpl in *;
    try by apply halts_addProposedHeader.
  - by apply halts_frame, frames_bind; [|apply frames_getK|intros; apply frames_emit].
  - apply halts_frame; [done|]. unfold sendViewLookupResponse. destruct (String.eqb _ _); [apply frames_panic|].
    apply frames_bind; [apply frames_getK|]. intros s w1. apply frames_bind; [apply frames_liftO|].
    intros [id st] w2. apply frames_emit.
  - apply halts_frame; [done|]. unfold sendPHCheckResponse. apply frames_bind; [apply frames_getK|]. intros s w1.
    apply frames_bind; [apply frames_liftO|]. intros resp w2. case_bool_decide; [apply frames_panic|apply frames_emit].
  - apply halts_addPrevote; [done|]. intros Hpos. apply (none_recorded ws vPrevotes); [done| |by apply Ha].
    intros w' Hw'. apply (ha_prevotes_next _ Hw').
  - apply halts_addPrecommit; [done|]. split; [|apply Ha]. intros Hpos.
    apply (none_recorded ws vPrecommits); [done| |by apply Ha]. intros w' Hw'. apply (ha_precommits_next _ Hw').
  - apply halts_frame; [done|]. apply frames_bind; [apply frames_getK|]. intros s w1.
    apply frames_bind; [apply frames_emit|]. intros _ w2. by apply frames_modK.
  - apply halts_frame; [done|]. apply frames_bind; [apply frames_getK|]. intros s w1.
    apply frames_bind; [apply frames_emit|]. intros _ w2. apply frames_modKO.
    intros s1 s' Hs. apply bind_Ret_inv in Hs as (m & _ & Hs). by injection Hs as <-.
  - apply halts_frame; [done|]. apply frames_bind; [apply frames_getK|]. intros s w1.
    apply frames_bind; [apply frames_emit|]. intros _ w2. by apply frames_modK.
  - by apply halts_frame, frames_roundEntrance.
  - by apply halts_action.
  - by apply halts_replay.
Qed.

Lemma netstep_halted ws ws' : netstep ws ws' -> allHalted ws -> allHalted ws'.
Proof.
  intros [n i w w' ws1 Hn _ Ha Hh|n q fr w ws1 Hn _] Hall; pose proof (Forall_lookup_1 _ _ _ _ Hall Hn) as Hw;
    (apply Forall_insert; [exact Hall|]).
  - exact (wp_run _ _ _ _ _ (halts_handle _ _ _ Hall Hw Ha) Hh).
  - exact Hw.
Qed.
End halt.

(** C9: a split round halts the network.  Take a height and a round whose precommits are split: of each validator there is
    at most one signed precommit, no hash has a majority of the power, and some of the power has not precommitted.  Take
    mirrors that vote on this round with these validators, hold sound precommits of it, and have no votes of the next
    round.  Consider any run of their network in which: what reaches a mirror for the next round are votes for hashes
    for which some mirror has votes recorded; precommits of this round are signed ones of the split; no header of this
    height is replayed; and actions of a state machine reach its mirror when that state machine is in the next round,
    where it goes when the delay for the missing precommits runs out (this is assumed of the state machines, not
    derived).  Headers, prevotes of this round and all other inputs are not restricted.  Then every mirror is still in
    this round, has no votes of the next round, and drops every vote that its own state machine, when it is in the next
    round, makes: so none of these votes is ever there for a mirror to pass on, and without them none moves. *)
Theorem split_round_halts_network {P B ST : Type} `{CMSPLaws P B, !KernelStores ST, !KernelStoresLaws ST}
  (k : Kernel) (h r : Z) (vals : ValidatorSet) (vote : nat -> option bytes) (ws ws' : list (World P ST)) :
  splitVote k h r vals vote -> allHalted k h r vals ws -> rtc (netstep k h r) ws ws' ->
  forall w, w ∈ ws' -> vHeight w.(w_k).(s_Voting) = h /\ vRound w.(w_k).(s_Voting) = r /\
    gm_map (vPrevotes w.(w_k).(s_NextRound)) = ∅ /\ gm_map (vPrecommits w.(w_k).(s_NextRound)) = ∅ /\
    forall act, ahead h r w -> isVoteAction act -> handle k (InAction act) w = Ret (tt, w).
Proof.
  intros Hsplit Hall Hrun. assert (Hall' : allHalted k h r vals ws').
  { induction Hrun as [|ws1 ws2 ws3 Hs _ IH]; [done|]. apply IH. by eapply netstep_halted. }
  intros w Hw. unfold allHalted in Hall'. rewrite Forall_forall in Hall'. specialize (Hall' w Hw).
  split; [apply (ha_height _ _ _ _ _ Hall')|]. split; [apply (ha_round _ _ _ _ _ Hall')|].
  split; [apply (ha_prevotes_next _ _ _ _ _ Hall')|]. split; [apply (ha_precommits_next _ _ _ _ _ Hall')|].
  intros act Hah Hact. by apply (vote_dropped k h r vals).
Qed.

(** ** The instance *)

(** Four validators of power one.  Two of them precommitted "x", one precommitted nil and one is silent; no other
    precommit of the round is signed. *)
Definition splitVotes : list (option bytes) := [Some "x"; Some "x"; Some nilHash; None].
Definition splitContent (hash : bytes) : bytes := toyContentOf (toyContent "C" (MkVoteTarget 1 0 hash)).
Definition splitSigned : list (bytes * bytes) := [("a", splitContent "x"); ("b", splitContent "x"); ("c", splitContent nilHash)].
#[local] Instance splitVerify : Verifier := fun key msg sig =>
  String.eqb sig (key.(pk_PubKeyBytes) +:+ msg) && bool_decide ((key.(pk_PubKeyBytes), msg) ∈ splitSigned).

Definition splitSign (content : bytes) (p : TP) (key : bytes) : TP :=
  match cmsp_AddSignature (key +:+ content) (MkPubKey "toy" key) p with Ok p' => p' | Err _ => p end.
Definition splitProof (hash : bytes) (signers : list bytes) : TP :=
  foldl (splitSign (splitContent hash))
    (MkSimple (splitContent hash) ∅ (ValidatorsToPubKeys toyValidators) (indexKeys (ValidatorsToPubKeys toyValidators))
       "a,b,c,d" ∅) signers.

Lemma splitSign_sound keys content (p : TP) key : cmsp_sound (P := TP) keys p ->
  cmsp_sound keys (splitSign content p key) /\ cmsp_Message (splitSign content p key) = cmsp_Message p.
Proof.
  intros Hp. unfold splitSign. destruct (cmsp_AddSignature _ _ _) as [p'|] eqn:E; [|done].
  destruct (cmsp_AddSignature_sound keys _ _ _ _ E Hp) as (? & ? & _). done.
Qed.

Lemma splitProof_sound hash signers : cmsp_sound (P := TP) (ValidatorsToPubKeys toyValidators) (splitProof hash signers) /\
  cmsp_Message (splitProof hash signers) = splitContent hash.
Proof.
  unfold splitProof. set (p0 := MkSimple _ _ _ _ _ _).
  assert (H0 : cmsp_sound (ValidatorsToPubKeys toyValidators) p0 /\ cmsp_Message p0 = splitContent hash).
  { split; [|done]. assert (Hn : scheme_New (splitContent hash) (ValidatorsToPubKeys toyValidators) "a,b,c,d" = Ok p0) by done.
    apply (cmsp_New_sound _ _ _ _ Hn). }
  revert H0. generalize p0. induction signers as [|s l IH]; intros p [Hp Hm]; simpl; [done|]. apply IH.
  destruct (splitSign_sound _ (splitContent hash) p s Hp) as [? Heq]. split; [done|]. by etransitivity; [exact Heq|].
Qed.

(** A mirror that has these precommits, started on empty stores. *)
Definition splitStart : TW := worldOr emptyWorld (NewKernel (B := gset nat) toyKernel true true true emptyWorld).
Definition splitUpdates : AddPrecommitRequest TP := MkAddPrecommit 1 0
  {["x" := MkVoteUpdate (splitProof "x" ["a"; "b"]) 0; nilHash := MkVoteUpdate (splitProof nilHash ["c"]) 0]} true.
Definition splitWorld : TW := worldOr emptyWorld (handle toyKernel (InAddPrecommit splitUpdates) splitStart).

Lemma splitWorld_coherent : a_coherent (abs splitWorld).
Proof.
  eapply (steps_inv toyKernel a_coherent); [apply ac_height|apply a_coherent_step| |].
  - apply rtc_once, (step_handle toyKernel (InAddPrecommit splitUpdates) splitStart splitWorld); [reflexivity|].
    vm_compute. reflexivity.
  - apply abs_coherent. refine (wp_run _ _ _ _ _ (NewKernel_ok toyKernel true true true emptyWorld) _ eq_refl).
    vm_compute. reflexivity.
Qed.

Lemma splitWorld_halted : halted toyKernel 1 0 toyValSet (abs splitWorld).
Proof.
  split; [apply splitWorld_coherent|vm_compute; reflexivity|vm_compute; reflexivity|vm_compute; reflexivity| |vm_compute; reflexivity|vm_compute; reflexivity].
  intros hash p Hp.
  assert (Hpc : (abs splitWorld).(aV).(rv_PrecommitProofs) =
    Some {["x" := splitProof "x" ["a"; "b"]; nilHash := splitProof nilHash ["c"]]}) by (vm_compute; reflexivity).
  rewrite Hpc in Hp. unfold gm_get in Hp. simpl in Hp.
  assert (Hvals : rvVals (abs splitWorld).(aV) = toyValidators) by (vm_compute; reflexivity).
  assert (Hpos : (abs splitWorld).(aV).(rv_Height) = 1 /\ (abs splitWorld).(aV).(rv_Round) = 0) by (vm_compute; by split).
  unfold precommit_ok. rewrite Hvals, (proj1 Hpos), (proj2 Hpos).
  apply lookup_insert_Some in Hp as [[<- <-]|[_ [<- <-]%lookup_singleton_Some]];
    match goal with |- context [splitProof ?x ?l] => destruct (splitProof_sound x l) as [Hs Hm] end;
    (split; [exact Hs|]); rewrite Hm; reflexivity.
Qed.

Lemma split_split : splitVote toyKernel 1 0 toyValSet (fun i => mjoin (splitVotes !! i)).
Proof.
  split.
  - split; [repeat constructor; discriminate|reflexivity].
  - intros hash content i [= <-] (v & key & sig & Hv & Hk & Hver).
    apply andb_true_iff in Hver as [_ Hin]. apply bool_decide_eq_true_1 in Hin. rewrite Hk in Hin. clear Hk.
    assert (Hinj : forall hash', ("C" +:+ String "001" (String "000" hash)) = splitContent hash' -> hash = hash') by (by intros hash' [= ->]).
    assert (Hcase : forall c, v.(val_PubKey).(pk_PubKeyBytes) = c -> toyValidators !! i = Some v ->
      (c = "a" -> i = 0%nat) /\ (c = "b" -> i = 1%nat) /\ (c = "c" -> i = 2%nat)).
    { intros c <- Hi. do 4 (destruct i as [|i]; [injection Hi as <-; simpl; split_and!; by intros|]). by destruct i. }
    destruct (Hcase _ eq_refl Hv) as (Ha & Hb & Hc).
    repeat (apply elem_of_cons in Hin as [[= Hkey Hcontent]|Hin]); [| | |by apply not_elem_of_nil in Hin].
    + rewrite (Ha Hkey). simpl. by rewrite Hcontent.
    + rewrite (Hb Hkey). simpl. by rewrite Hcontent.
    + rewrite (Hc Hkey). simpl. by rewrite Hcontent.
  - intros hash maj [= <-].
    destruct (decide (hash = "x")) as [->|Hx]; [vm_compute; reflexivity|].
    destruct (decide (hash = nilHash)) as [->|Hn]; [vm_compute; reflexivity|].
    assert (Hnone : votersFor toyValSet (fun i => mjoin (splitVotes !! i)) (isFor hash) = ∅).
    { apply set_eq. intros i. rewrite elem_of_votersFor. split; [|set_solver]. intros [_ Hi]. exfalso.
      apply bool_decide_eq_true_1 in Hi. do 4 (destruct i as [|i]; [simpl in Hi; congruence|]). done. }
    rewrite Hnone. vm_compute. reflexivity.
  - vm_compute. reflexivity.
Qed.

(** Validator "a" enters round 1 and prevotes nil. *)
Definition splitEntrance : StateMachineRoundEntrance := MkEntrance 1 1 (Some (MkPubKey "toy" "a")) true None.
Definition splitEntered : TW := worldOr emptyWorld (handle toyKernel (InRoundEntrance splitEntrance) splitWorld).
Definition splitAction : StateMachineRoundAction :=
  let content := toyContentOf (toyContent "V" (MkVoteTarget 1 1 nilHash)) in
  MkAction (MkProposedHeader (toyHeader 0 nilHash nilHash (MkCommitProof 0 nilHash gm_make)) 0 None
      (MkAnnotations nilHash nilHash) nilHash)
    (MkScopedSignature nilHash content ("a" +:+ content)) (MkScopedSignature nilHash nilHash nilHash).

Lemma split_run : rtc (netstep toyKernel 1 0) [splitWorld; splitWorld] [splitEntered; splitWorld].
Proof.
  apply rtc_l with [splitEntered; splitWorld]; [|apply rtc_once].
  - apply (net_handle toyKernel 1 0 0 (InRoundEntrance splitEntrance) splitWorld splitEntered [splitWorld; splitWorld]).
    + reflexivity.
    + vm_compute. reflexivity.
    + exact I.
    + vm_compute. reflexivity.
  - apply (net_handle toyKernel 1 0 0 (InAction splitAction) splitEntered splitEntered [splitEntered; splitWorld]).
    + reflexivity.
    + vm_compute. reflexivity.
    + vm_compute. split; reflexivity.
    + vm_compute. reflexivity.
Qed.

Lemma split_round_halts_network_witness :
  ahead 1 0 splitEntered /\ isVoteAction splitAction /\
  forall w, w ∈ [splitEntered; splitWorld] -> vHeight w.(w_k).(s_Voting) = 1 /\ vRound w.(w_k).(s_Voting) = 0 /\
    gm_map (vPrevotes w.(w_k).(s_NextRound)) = ∅ /\ gm_map (vPrecommits w.(w_k).(s_NextRound)) = ∅ /\
    forall act, ahead 1 0 w -> isVoteAction act -> handle toyKernel (InAction act) w = Ret (tt, w).
Proof.
  split; [vm_compute; by split|]. split; [split; [reflexivity|left; discriminate]|].
  apply (split_round_halts_network toyKernel 1 0 toyValSet (fun i => mjoin (splitVotes !! i)) [splitWorld; splitWorld]).
  - exact split_split.
  - unfold allHalted. rewrite !Forall_cons. split; [|split; [|apply Forall_nil; exact I]]; exact splitWorld_halted.
  - exact split_run.
Defined.
