(* ===== verification/Node.v ===== *)
(** A node: the mirror with its kernel, and the state machine beside it (tm/tmengine/engine.go).  They share three
    channels: round entrances, which the kernel answers with a view; the actions of the round entered; and the views the
    kernel sends on.  A vote crosses without its height and round, so the two have to agree on these. *)
From S2P Require Import Prelude Types BitSets Powers SigProof SimpleProofs VoteSummary RoundView.
From S2P Require Import Stores Managers KState KernelBase Kernel KernelHandlers KernelLoop Mirror.
From S2P Require Import KernelExample KernelSpec KernelRefine KernelSafety KernelTheorems KernelCommit MirrorSystem.
From S2P Require Import RoundLifecycle StateMachineBase StateMachine StateMachineRun StateMachineActions StateMachineExample.
From stdpp Require Import relations.
Local Open Scope Z_scope.

(** * The entrance the kernel knows

    Nothing but a round entrance changes it. *)
Section entrance.
Context {P B ST : Type} `{Verifier, BitSet B, !CMSP P B, !CMSPScheme P, !KernelStores ST}.
Context (k : Kernel).

Definition entranceIn (s : kState P) : StateMachineRoundEntrance := s.(StateMachineViewManager).(roundEntrance).
Definition stays {A} (m : K P ST A) : Prop :=
  forall w, wp m w (fun _ w' => entranceIn w'.(w_k) = entranceIn w.(w_k)).

Lemma stays_ret {A} (a : A) : stays (mret a).
Proof. done. Qed.
Lemma stays_bind {A C} (m : K P ST A) (f : A -> K P ST C) : stays m -> (forall a, stays (f a)) -> stays (m ≫= f).
Proof.
  intros Hm Hf w. apply wp_bind. eapply wp_mono; [|apply Hm]. intros a w' E. rewrite <- E. apply Hf.
Qed.
Lemma stays_getK : stays getK.
Proof. done. Qed.
Lemma stays_getW : stays getW.
Proof. done. Qed.
Lemma stays_gets {A} (f : kState P -> A) : stays (gets f).
Proof. done. Qed.
Lemma stays_getStore {A} (f : ST -> A) : stays (getStore f).
Proof. done. Qed.
Lemma stays_panic {A} msg : stays (@panicK P ST A msg).
Proof. done. Qed.
Lemma stays_emit e : stays (emit e).
Proof. done. Qed.
Lemma stays_pushFetch r : stays (pushFetch r).
Proof. done. Qed.
Lemma stays_modStore f : stays (modStore f).
Proof. done. Qed.
Lemma stays_callStore f : stays (callStore f).
Proof. by intros w; apply wp_callStore. Qed.
Lemma stays_callStoreO f : stays (callStoreO f).
Proof. by intros w; apply wp_callStoreO. Qed.
Lemma stays_liftO {A} (m : outcome A) : stays (liftO m).
Proof. intros w. by apply wp_liftO_eq. Qed.
Lemma stays_modK f : (forall s, entranceIn (f s) = entranceIn s) -> stays (modK f).
Proof. intros Hf w. apply Hf. Qed.
Lemma stays_modKO f : (forall s s', f s = Ret s' -> entranceIn s' = entranceIn s) -> stays (modKO f).
Proof. intros Hf w. apply wp_modKO. intros s' Hs. by apply Hf. Qed.
Lemma stays_forK {A} (f : A -> K P ST unit) l : (forall a, stays (f a)) -> stays (forK f l).
Proof. intros Hf. induction l as [|a l IH]; simpl; [apply stays_ret|by apply stays_bind]. Qed.

Create HintDb stays discriminated.
#[local] Hint Resolve stays_ret stays_getK stays_getW stays_gets stays_getStore stays_panic stays_emit stays_pushFetch
  stays_modStore stays_callStore stays_callStoreO stays_liftO : stays.
#[local] Hint Extern 1 (stays (modK _)) => (apply stays_modK; intros; reflexivity) : stays.
Ltac stays_step :=
  first [ progress (eauto 2 with stays nocore)
        | apply stays_bind; [|intros ?]
        | apply stays_forK; intros ?
        | match goal with |- stays (match ?x with _ => _ end) => destruct x end ].
Ltac stays_tac := repeat stays_step.

(** ** The updates of the kernel's state *)
Lemma setView_entrance id v (s : kState P) : entranceIn (setView id v s) = entranceIn s.
Proof. by destruct id. Qed.
Lemma committing_entrance (s : kState P) : entranceIn (MarkCommittingViewUpdated s) = entranceIn s.
Proof. unfold entranceIn, MarkCommittingViewUpdated. simpl. by repeat case_match. Qed.
Lemma voting_entrance (s : kState P) : entranceIn (MarkVotingViewUpdated s) = entranceIn s.
Proof. unfold entranceIn, MarkVotingViewUpdated. simpl. by case_match. Qed.
Lemma marked_entrance id (s s' : kState P) : MarkViewUpdated id s = Ret s' -> entranceIn s' = entranceIn s.
Proof. destruct id; intros [= <-]; [apply voting_entrance|apply committing_entrance|done]. Qed.
Lemma increment_entrance (s : kState P) : entranceIn (incrementVotingRound s) = entranceIn s.
Proof.
  set (s1 := {| s with s_Voting := s.(s_NextRound); s_NextRound := s.(s_Voting); refVoting := s.(refNextRound);
                       refNextRound := s.(refVoting) |}).
  transitivity (entranceIn (MarkVotingViewUpdated s1)); [reflexivity|exact (voting_entrance s1)].
Qed.
Lemma jump_entrance (s : kState P) : entranceIn (JumpVotingRound s) = entranceIn s.
Proof.
  transitivity (entranceIn (incrementVotingRound s)); [|apply increment_entrance].
  unfold JumpVotingRound. cbv zeta. destruct (_ && _); reflexivity.
Qed.
Lemma advance_entrance (s : kState P) : entranceIn (AdvanceVotingRound s) = entranceIn s.
Proof. unfold AdvanceVotingRound. exact (increment_entrance _). Qed.
Lemma shift_entrance nhd (s s' : kState P) cleared ch : ShiftVotingToCommitting nhd s = (s', cleared, ch) ->
  entranceIn s' = entranceIn s.
Proof.
  unfold ShiftVotingToCommitting. destruct (HeightCommittedChan _) as [h c]. intros [= <- _ _].
  unfold entranceIn. cbn -[u64 newNextRoundView newVotingView VRV_Clone]. by repeat case_match.
Qed.

(** ** The handlers *)
#[local] Hint Extern 1 (stays (modK _)) => (apply stays_modK; intros; first [apply setView_entrance | apply committing_entrance
  | apply voting_entrance | apply jump_entrance | apply advance_entrance]) : stays.
#[local] Hint Extern 1 (stays (modKO (MarkViewUpdated _))) => (apply stays_modKO; intros *; apply marked_entrance) : stays.

Lemma stays_updateObservers : stays updateObservers.
Proof. unfold updateObservers. stays_tac. Qed.
#[local] Hint Resolve stays_updateObservers : stays.
Lemma stays_advance : stays advanceVotingRound.
Proof. unfold advanceVotingRound. stays_tac. Qed.
Lemma stays_jump r : stays (jumpVotingRound r).
Proof. unfold jumpVotingRound. stays_tac. Qed.
Lemma stays_shift nhd : stays (shiftVotingToCommitting nhd).
Proof.
  intros w. unfold shiftVotingToCommitting. apply wp_bind.
  assert (Hget : forall Q : kState P -> World P ST -> Prop, Q (w_k w) w -> wp getK w Q) by done. apply Hget.
  destruct (ShiftVotingToCommitting nhd (w_k w)) as [[s' cleared] ch] eqn:Es. apply shift_entrance in Es.
  apply wp_bind. unfold wp at 1. cbn [okay modK fst snd]. apply wp_bind. unfold wp at 1. cbn [okay modStore fst snd].
  destruct ch; exact Es.
Qed.
Lemma stays_save : stays saveCurrentCommittingHeader.
Proof. unfold saveCurrentCommittingHeader. stays_tac. Qed.
Lemma stays_checkMissing proofs : stays (checkMissingPHs k proofs).
Proof. unfold checkMissingPHs, tryFetch. stays_tac. Qed.
#[local] Hint Resolve stays_advance stays_jump stays_shift stays_save stays_checkMissing : stays.
Lemma stays_checkVoting : stays checkVotingPrecommitViewShift.
Proof. unfold checkVotingPrecommitViewShift. stays_tac. Qed.
Lemma stays_checkNextRound : stays (checkNextRoundPrecommitViewShift k).
Proof. unfold checkNextRoundPrecommitViewShift. stays_tac. Qed.
Lemma stays_checkPrevote id : stays (checkPrevoteViewShift k id).
Proof. unfold checkPrevoteViewShift. stays_tac. Qed.
Lemma stays_recordPrevotes id h r : stays (recordPrevotes id h r).
Proof. unfold recordPrevotes. stays_tac. Qed.
Lemma stays_recordPrecommits id h r : stays (recordPrecommits id h r).
Proof. unfold recordPrecommits. stays_tac. Qed.
#[local] Hint Resolve stays_checkVoting stays_checkNextRound stays_checkPrevote stays_recordPrevotes stays_recordPrecommits : stays.
Lemma stays_addPrevote req : stays (addPrevote k req).
Proof. unfold addPrevote, voteViewNotFound, respond. stays_tac. Qed.
Lemma stays_addPrecommit req : stays (addPrecommit k req).
Proof. unfold addPrecommit, voteViewNotFound, respond. stays_tac. Qed.
Lemma stays_backfill ph : stays (backfillCommit ph).
Proof. unfold backfillCommit. stays_tac. Qed.
#[local] Hint Resolve stays_addPrevote stays_addPrecommit stays_backfill : stays.
Lemma stays_addHeader ph : stays (addProposedHeader ph).
Proof. unfold addProposedHeader, cancelFetch, checkSaveError. stays_tac. Qed.
#[local] Hint Resolve stays_addHeader : stays.
Lemma stays_replay header proof : stays (replayRequest k header proof).
Proof. unfold replayRequest, handleReplayedHeader, replayApply, replayFailed. stays_tac. Qed.
Lemma stays_action act : stays (handleStateMachineAction k act).
Proof. unfold handleStateMachineAction. stays_tac. Qed.

Lemma stays_handle i : match i with InRoundEntrance _ => False | _ => True end -> stays (handle k i).
Proof.
  intros Hi. destruct i; try done; cbn [handle]; try apply stays_addHeader; try apply stays_replay; try apply stays_action;
    try apply stays_addPrevote; try apply stays_addPrecommit;
    unfold sendSnapshotResponse, sendViewLookupResponse, sendPHCheckResponse; stays_tac.
  apply stays_modKO. intros s s' Hs. apply bind_Ret_inv in Hs as (sm & Hm & [= <-]).
  unfold SM_MarkSent in Hm. destruct (smo_m _); [|done]. by injection Hm as <-.
Qed.

Lemma stays_ask {A} i (f : Event P -> option A) : match i with InRoundEntrance _ => False | _ => True end -> stays (ask k i f).
Proof.
  intros Hi w. apply wp_intro. unfold ask. intros a w' Hr. apply bind_Ret_inv in Hr as ([[] w1] & Hh & Hr). simpl in Hr.
  destruct (firstAnswer _ _); [|done]. injection Hr as _ <-. exact (wp_run _ _ _ _ _ (stays_handle i Hi w) Hh).
Qed.
#[local] Hint Extern 1 (stays (ask _ _ _)) => (apply stays_ask; exact I) : stays.

Lemma stays_prevoteStep c : stays (prevoteStep k c).
Proof. unfold prevoteStep. stays_tac. Qed.
Lemma stays_precommitStep c : stays (precommitStep k c).
Proof. unfold precommitStep. stays_tac. Qed.
#[local] Hint Resolve stays_prevoteStep stays_precommitStep : stays.
Lemma stays_callStep (c : Call P) : stays (callStep k c).
Proof. unfold callStep, headerStep. stays_tac. Qed.
End entrance.

(** * The node *)
Section node.
Context {P B KST SST : Type} `{Verifier, BitSet B, !CMSP P B, !CMSPScheme P, !KernelStores KST, !SMStores SST}.
Context (k : Kernel) (m : SMConfig).

(** [nd_pending] is what the state machine has sent and the kernel has yet to see: a handler of the state machine runs
    in one step with the answers it will get, and what it sends then meets the kernel output by output, with anything
    in between; an entrance is only passed when the kernel gives the answer the handler went on with.  [nd_actions] is
    the buffer of the action channel of the last entrance. *)
Record Node := MkNode {
  nd_sys : System P KST;
  nd_sm : SMSys P SST;
  nd_pending : list (SMOut P);
  nd_actions : list StateMachineRoundAction
}.

(** The kernel's other inputs: of replays the same is asked as in MirrorSystem. *)
Definition forMirror (i : Input (P := P)) (s : kState P) : Prop :=
  match i with
  | InRoundEntrance _ | InAction _ | InStateMachineSent => False
  | InReplay _ _ => trusted k i s
  | _ => True
  end.

(** The answer to an entrance is the one the state machine got; when it got none, nothing follows. *)
Definition answeredWith (pend : list (SMOut P)) (w w' : World P KST) : Prop :=
  match pend with GotEntrance r :: _ => w'.(w_out) = w.(w_out) ++ [EvRoundEntrance r] | _ => pend = [] end.

(** Outputs that do not go to the kernel. *)
Definition forOthers (o : SMOut P) : bool :=
  match o with OutEntrance _ | OutAction _ _ _ => false | _ => true end.

(** What the state machine sent since. *)
Definition newOutputs (s s' : SMSys P SST) : list (SMOut P) := drop (length s.(sy_w).(sw_log)) s'.(sy_w).(sw_log).

(** What the state machine receives from elsewhere than the kernel, but for the closed height-committed channel. *)
Definition fromOutside (i : SMInput P) (w : World P KST) : Prop :=
  match i with InView _ => False | InHeightCommitted c => EvHeightCommitted c ∈ w.(w_out) | _ => True end.

Inductive nodestep : Node -> Node -> Prop :=
| nd_mirror sys sys' sm pend q : sysmove k forMirror sys sys' ->
    nodestep (MkNode sys sm pend q) (MkNode sys' sm pend q)
(** The kernel takes an entrance, and gives up the action channel it had. *)
| nd_entrance re w w' phq cs sm pend q : handle k (InRoundEntrance re) w = Ret (tt, w') -> answeredWith pend w w' ->
    nodestep (MkNode (MkSystem w phq cs) sm (OutEntrance re :: pend) q) (MkNode (MkSystem w' phq cs) sm pend [])
(** An action is buffered, and taken. *)
| nd_act h r act sys sm pend q : nodestep (MkNode sys sm (OutAction h r act :: pend) q) (MkNode sys sm pend (q ++ [act]))
| nd_action act w w' phq cs sm pend q : ready w.(w_k) (InAction (P := P) act) = true ->
    handle k (InAction act) w = Ret (tt, w') ->
    nodestep (MkNode (MkSystem w phq cs) sm pend (act :: q)) (MkNode (MkSystem w' phq cs) sm pend q)
| nd_other o sys sm pend q : forOthers o = true -> nodestep (MkNode sys sm (o :: pend) q) (MkNode sys sm pend q)
(** The kernel sends a view, which the state machine handles. *)
| nd_view v ans w w' phq cs sm q : sm.(sy_mode) = LiveLoop -> ready w.(w_k) (InStateMachineSent (P := P)) = true ->
    handle k InStateMachineSent w = Ret (tt, w') -> w'.(w_out) = w.(w_out) ++ [EvStateMachine v] ->
    let sm' := live m (InView v) ans sm.(sy_w) in
    nodestep (MkNode (MkSystem w phq cs) sm [] q) (MkNode (MkSystem w' phq cs) sm' (newOutputs sm sm') q)
(** The state machine handles what it receives from elsewhere. *)
| nd_live i ans sys sm q : sm.(sy_mode) = LiveLoop -> smReady sm.(sy_w).(sw_rlc) i -> solicited sm.(sy_w).(sw_log) i ->
    fromOutside i sys.(sys_w) ->
    let sm' := live m i ans sm.(sy_w) in
    nodestep (MkNode sys sm [] q) (MkNode sys sm' (newOutputs sm sm') q)
| nd_catchup c resp ans sys sm q : sm.(sy_mode) = CatchupLoop -> smReady sm.(sy_w).(sw_rlc) (InFinalization (P := P) c resp) ->
    solicited sm.(sy_w).(sw_log) (InFinalization (P := P) c resp) ->
    let sm' := catchup m resp ans sm.(sy_w) in
    nodestep (MkNode sys sm [] q) (MkNode sys sm' (newOutputs sm sm') q)
| nd_elapse sys md sw pend q :
    nodestep (MkNode sys (MkSys md sw) pend q) (MkNode sys (MkSys md {| sw with sw_timer := None |}) pend q)
(** The state machine starts; the action channel it had is gone with it. *)
| nd_start ans sys sm q : sm.(sy_mode) = Down ->
    let sm' := start m ans sm.(sy_w) in
    nodestep (MkNode sys sm [] q) (MkNode sys sm' (newOutputs sm sm') q).

(** A handler of the kernel panics on what the state machine sent, which ends the process. *)
Inductive crashes : Node -> string -> Prop :=
| cr_entrance re w phq cs sm pend q msg : handle k (InRoundEntrance re) w = Panic msg ->
    crashes (MkNode (MkSystem w phq cs) sm (OutEntrance re :: pend) q) msg
| cr_action act w phq cs sm pend q msg : ready w.(w_k) (InAction (P := P) act) = true ->
    handle k (InAction act) w = Panic msg -> crashes (MkNode (MkSystem w phq cs) sm pend (act :: q)) msg.

(** * Agreement on the position *)
Local Abbreviation key := (sg_PubKey <$> m.(m_signer)).

(** The kernel is told the position [p] and the buffered actions are signed for it; before the first entrance there are
    none. *)
Definition told (p : Position) (w : World P KST) (q : list StateMachineRoundAction) : Prop :=
  match p with
  | None => q = []
  | Some (h, r) => (entranceIn w.(w_k)).(re_H) = h /\ (entranceIn w.(w_k)).(re_R) = r /\
      (entranceIn w.(w_k)).(re_PubKey) = key /\ Forall (signedFor m.(m_signer) h r) q
  end.

(** What is pending fits that position, and leads to the one the state machine is in. *)
Record agrees (nd : Node) : Prop := {
  ag_position : exists p, told p nd.(nd_sys).(sys_w) nd.(nd_actions) /\ placed m.(m_signer) p nd.(nd_pending) /\
    (nd.(nd_sm).(sy_mode) <> Down ->
     position p nd.(nd_pending) = Some (nd.(nd_sm).(sy_w).(sw_rlc).(rl_H), nd.(nd_sm).(sy_w).(sw_rlc).(rl_R)))
}.

Lemma told_same p w w' q : entranceIn w'.(w_k) = entranceIn w.(w_k) -> told p w q -> told p w' q.
Proof. intros E. unfold told. destruct p as [[h r]|]; [|done]. by rewrite E. Qed.

Lemma sysmove_entrance sys sys' : sysmove k forMirror sys sys' ->
  entranceIn sys'.(sys_w).(w_k) = entranceIn sys.(sys_w).(w_k).
Proof.
  intros [msg w q cs|i c c' w w' q cs Hi Hc|i c w q cs Hi|i c c' w w' q cs Hi Hc|i ph w q cs Hi Hlen|ph w w' q cs Hh
    |i w w' q cs Hi Hr Ha Hh|r fq w q cs Hf]; simpl; try done.
  - exact (wp_run _ _ _ _ _ (stays_callStep k c w) Hc).
  - exact (wp_run _ _ _ _ _ (stays_callStep k c w) Hc).
  - exact (wp_run _ _ _ _ _ (stays_handle k (InAddPH ph) I w) Hh).
  - refine (wp_run _ _ _ _ _ (stays_handle k i _ w) Hh). by destruct i.
Qed.

(** A handler of the state machine ran, with nothing pending. *)
Lemma agrees_ran w0 q sm sm' p l phq cs : told p w0 q -> appended m sm.(sy_w).(sw_log) p sm' l ->
  agrees (MkNode (MkSystem w0 phq cs) sm' (newOutputs sm sm') q).
Proof.
  intros Ht [Hl Hp Hpos]. split. exists p. simpl. unfold newOutputs. rewrite Hl, drop_app_length. done.
Qed.

Context (Hset : forall h r st, (ss_SetStateMachineHeightRound h r st).2 = None).

Lemma entrance_told re w w' : handle k (InRoundEntrance re) w = Ret (tt, w') -> entranceIn w'.(w_k) = re.
Proof.
  intros Hh. assert (Hwp : wp (handleStateMachineRoundEntrance re) w (fun _ w' => entranceIn w'.(w_k) = re)).
  { unfold handleStateMachineRoundEntrance. apply wp_bind. unfold wp at 1. cbn [okay modK fst snd].
    match goal with |- wp (getK ≫= ?f) ?w1 _ => assert (Hs : stays (getK ≫= f)) end.
    { apply stays_bind; [apply stays_getK|]. intros s. apply stays_bind; [apply stays_liftO|]. intros [id st].
      case_bool_decide; [case_bool_decide; [|apply stays_panic]|].
      - apply stays_bind; [apply stays_getStore|]. intros [ch|e]; [apply stays_emit|apply stays_panic].
      - apply stays_bind; [apply stays_emit|]. intros _. apply stays_modKO. intros s1 s2 Hs.
        apply bind_Ret_inv in Hs as (sm & Hm & [= <-]). unfold MarkFirstSentVersion in Hm.
        destruct (negb _); [done|]. by injection Hm as <-. }
    eapply wp_mono; [|apply Hs]. intros ? w1 E. exact E. }
  exact (wp_run _ _ _ _ _ Hwp Hh).
Qed.

Lemma position_mono p (l : list (SMOut P)) x : position None l = Some x -> position p l = Some x.
Proof.
  revert p. induction l as [|o l IH] using rev_ind; intros p; [done|]. rewrite !position_snoc.
  destruct o; simpl; auto.
Qed.

Lemma nodestep_agrees nd nd' : nodestep nd nd' -> agrees nd -> agrees nd'.
Proof.
  intros Hst [(p & Ht & Hp & Hpos)]. destruct Hst as
    [sys sys' sm pend q Hs|re w w' phq cs sm pend q Hh Ha|h r act sys sm pend q|act w w' phq cs sm pend q Hr Hh
    |o sys sm pend q Ho|v ans w w' phq cs sm q Hmd Hr Hh Hv sm'|i ans sys sm q Hmd Hr Hs Hf sm'
    |c resp ans sys sm q Hmd Hr Hs sm'|sys md sw pend q|ans sys sm q Hmd sm']; simpl in *.
  - split. exists p. split; [|done]. by eapply told_same, Ht; apply sysmove_entrance.
  - destruct Hp as [Hk Hp]. split. exists (Some (re.(re_H), re.(re_R))). split; [|by split].
    simpl. by rewrite (entrance_told _ _ _ Hh).
  - destruct Hp as [[-> Hs] Hp]. split. exists (Some (h, r)). split; [|done]. simpl in *.
    destruct Ht as (? & ? & ? & Hq). split_and!; try done. apply Forall_app. by split; [|constructor].
  - pose proof (wp_run _ _ _ _ _ (stays_handle k (InAction act) I w) Hh) as E. split. exists p. split; [|done].
    apply (told_same p w); [exact E|]. destruct p as [[h r]|]; simpl in *; [|done].
    destruct Ht as (? & ? & ? & Hq). apply Forall_cons in Hq as [_ Hq]. by split_and!.
  - split. exists p. destruct o; try done; destruct Hp as [_ Hp]; by split.
  - pose proof (wp_run _ _ _ _ _ (stays_handle k InStateMachineSent I w) Hh) as E.
    rewrite Hmd in Hpos. specialize (Hpos ltac:(done)). subst p.
    destruct (live_appended m Hset (InView v) ans sm.(sy_w)) as [l Hl].
    eapply agrees_ran; [|exact Hl]. exact (told_same _ w w' q E Ht).
  - rewrite Hmd in Hpos. specialize (Hpos ltac:(done)). subst p.
    destruct (live_appended m Hset i ans sm.(sy_w)) as [l Hl]. destruct sys. by eapply agrees_ran.
  - rewrite Hmd in Hpos. specialize (Hpos ltac:(done)). subst p.
    destruct (catchup_appended m Hset resp ans sm.(sy_w)) as [l Hl]. destruct sys. by eapply agrees_ran.
  - split. exists p. by split.
  - destruct (start_appended m Hset ans sm.(sy_w)) as [l [Hl Hpl Hposl]]. destruct sys.
    eapply agrees_ran; [exact Ht|]. split; [exact Hl|by apply placed_mono|].
    intros Hmd'. by apply position_mono, Hposl.
Qed.

(** ** The kernel files votes where they were signed *)

(** A vote is signed for the target's height and round under the scheme of the kernel. *)
Definition signedUnder (s : kState P) (act : StateMachineRoundAction) : Prop :=
  let vt hash := MkVoteTarget (smH s.(StateMachineViewManager)) (smR s.(StateMachineViewManager)) hash in
  (nonEmpty act.(act_Prevote).(sc_Sig) = true ->
   PrevoteSignBytes (vt act.(act_Prevote).(TargetHash)) k.(k_sigScheme) = Ok act.(act_Prevote).(SignContent)) /\
  (nonEmpty act.(act_Precommit).(sc_Sig) = true ->
   PrecommitSignBytes (vt act.(act_Precommit).(TargetHash)) k.(k_sigScheme) = Ok act.(act_Precommit).(SignContent)).

(** The signer of the node signs under the kernel's scheme, as NewPassthroughSigner makes one. *)
Definition signerFits : Prop := forall sg vt content sig, m.(m_signer) = Some sg ->
  (sg_Prevote sg vt = Ok (content, sig) -> PrevoteSignBytes vt k.(k_sigScheme) = Ok content) /\
  (sg_Precommit sg vt = Ok (content, sig) -> PrecommitSignBytes vt k.(k_sigScheme) = Ok content).
Context (Hsigner : signerFits).

Lemma told_signed p w act q : told p w (act :: q) -> signedUnder w.(w_k) act.
Proof.
  destruct p as [[h r]|]; [|done]. intros (<- & <- & _ & [Hs _]%Forall_cons).
  destruct Hs as [ph|sg hash content sig Hm Hs|sg hash content sig Hm Hs]; (split; simpl; [|]); try done; intros _;
    by eapply (Hsigner sg).
Qed.

Lemma agrees_signed nd act q : agrees nd -> nd.(nd_actions) = act :: q -> signedUnder nd.(nd_sys).(sys_w).(w_k) act.
Proof. intros [(p & Ht & _)] Hq. rewrite Hq in Ht. by eapply told_signed. Qed.

(** So a step of the node is a step of the mirror with its kernel, or leaves these alone. *)
Lemma nodestep_sysstep nd nd' : nodestep nd nd' -> agrees nd ->
  sysstep k nd.(nd_sys) nd'.(nd_sys) \/ nd'.(nd_sys) = nd.(nd_sys).
Proof.
  intros Hst Hag. destruct Hst as
    [sys sys' sm pend q Hs|re w w' phq cs sm pend q Hh Ha|h r act sys sm pend q|act w w' phq cs sm pend q Hr Hh
    |o sys sm pend q Ho|v ans w w' phq cs sm q Hmd Hr Hh Hv sm'|i ans sys sm q Hmd Hr Hs Hf sm'
    |c resp ans sys sm q Hmd Hr Hs sm'|sys md sw pend q|ans sys sm q Hmd sm']; simpl; auto.
  - left. destruct Hs; try (by econstructor). eapply sys_kernel; try done. by destruct i.
  - left. by apply (sys_kernel k (trusted k) (InRoundEntrance re)).
  - left. apply (sys_kernel k (trusted k) (InAction act)); try done. exact (proj2 (agrees_signed _ act q Hag eq_refl)).
  - left. by apply (sys_kernel k (trusted k) InStateMachineSent).
Qed.

Lemma node_run n nd nd' : nsteps nodestep n nd nd' -> agrees nd ->
  agrees nd' /\ exists n', (n' <= n)%nat /\ nsteps (sysstep k) n' nd.(nd_sys) nd'.(nd_sys).
Proof.
  intros Hr. induction Hr as [nd|n nd nd1 nd2 Hs Hr IH]; intros Hag; [split; [done|]; exists 0%nat; split; [lia|constructor]|].
  destruct (IH (nodestep_agrees _ _ Hs Hag)) as (Hag' & n' & Hle & Hn). split; [done|].
  destruct (nodestep_sysstep _ _ Hs Hag) as [Hs'|E].
  - exists (S n'). split; [lia|by eapply nsteps_l].
  - exists n'. rewrite <- E. split; [lia|done].
Qed.
End node.
Arguments MkNode {P KST SST}.
Arguments Node : clear implicits.

(** NewPassthroughSigner makes a signer that fits. *)
Lemma passthrough_fits (k : Kernel) (m : SMConfig) key Sign :
  m.(m_signer) = Some (PassthroughSigner key Sign k.(k_sigScheme)) -> signerFits k m.
Proof.
  intros Hm sg vt content sig Hsg. rewrite Hm in Hsg. injection Hsg as <-. simpl.
  unfold PassthroughSigner_Prevote, PassthroughSigner_Precommit, signBytesWith.
  split; (destruct (_ vt _) as [c|e]; [|done]); (destruct (Sign c) as [s|e]; [|done]); by intros [= <- <-].
Qed.

(** A node with nothing sent, before its state machine starts. *)
Definition freshNode {P KST SST} (nd : Node P KST SST) : Prop :=
  nd.(nd_sys).(sys_calls) = [] /\ nd.(nd_sm).(sy_mode) = Down /\ nd.(nd_pending) = [] /\ nd.(nd_actions) = [].

Lemma fresh_agrees {P KST SST} (m : SMConfig) (nd : Node P KST SST) : freshNode nd -> agrees m nd.
Proof. intros (_ & Hmd & Hp & Hq). split. exists None. rewrite Hp, Hq, Hmd. by split_and!. Qed.
