(* ===== verification/NodeRun.v ===== *)
(** Runs of a node, executed: moves as data, a function that makes one, and what the node of KernelExample and
    StateMachineExample does. *)
From S2P Require Import Prelude Types BitSets Powers SigProof SimpleProofs VoteSummary RoundView.
From S2P Require Import Stores Managers KState KernelBase Kernel KernelHandlers KernelLoop Mirror.
From S2P Require Import KernelExample KernelSpec KernelRefine KernelSafety KernelTheorems KernelCommit MirrorSystem.
From S2P Require Import RoundLifecycle StateMachineBase StateMachine StateMachineRun StateMachineActions StateMachineExample.
From S2P Require Import Node.
From stdpp Require Import relations.
Local Open Scope Z_scope.

(** Equality of what the kernel answers to an entrance can be decided. *)
#[export] Instance VoteSummary_eq_dec : EqDecision VoteSummary.
Proof. solve_decision. Defined.
#[export] Instance RoundView_eq_dec {P} `{EqDecision P} : EqDecision (RoundView P).
Proof. solve_decision. Defined.
#[export] Instance VersionedRoundView_eq_dec {P} `{EqDecision P} : EqDecision (VersionedRoundView P).
Proof. solve_decision. Defined.
#[export] Instance RoundEntranceResponse_eq_dec {P} `{EqDecision P} : EqDecision (RoundEntranceResponse P).
Proof. solve_decision. Defined.
#[export] Instance SimpleProof_eq_dec {B} `{EqDecision B} : EqDecision (SimpleProof B).
Proof. solve_decision. Defined.

Section moves.
Context {P B KST SST : Type} `{Verifier, BitSet B, !CMSP P B, !CMSPScheme P, !KernelStores KST, !SMStores SST, !EqDecision P}.
Context (k : Kernel) (m : SMConfig).
Local Abbreviation Node := (Node P KST SST).

(** What happens next: a message arrives, a call makes a request or buffers its header, the kernel takes the header or
    another input, or the next pending output, or an action; the state machine handles a view, or something else,
    or starts.  The last three name what the handler waits for. *)
Inductive Move :=
| MvBegin (msg : Message)
| MvCall (i : nat)
| MvBuffer (i : nat)
| MvHeader
| MvKernel (i : Input (P := P))
| MvPass
| MvAction
| MvView (ans : list (Answer P))
| MvLive (i : SMInput P) (ans : list (Answer P))
| MvStart (ans : list (Answer P)).

(** The last event of a handler's run. *)
Definition lastEvent (w w' : World P KST) : option (Event P) :=
  match drop (length w.(w_out)) w'.(w_out) with [e] => Some e | _ => None end.

Definition answeredB (pend : list (SMOut P)) (w w' : World P KST) : bool :=
  match pend with
  | [] => true
  | GotEntrance r :: _ => match lastEvent w w' with Some (EvRoundEntrance r') => bool_decide (r' = r) | _ => false end
  | _ => false
  end.

(** The channel of a request that waits for an answer on [c]. *)
Definition asks (c : nat) (o : SMOut P) : bool :=
  match o with
  | OutRequest _ _ (ConsiderProposedBlocksRequest _ _ (Some c')) | OutRequest _ _ (ChooseProposedBlockRequest _ (Some c'))
  | OutRequest _ _ (DecidePrecommitRequest _ (Some c')) => Nat.eqb c' c
  | _ => false
  end.
Definition finalizes (c : nat) (o : SMOut P) : bool :=
  match o with OutFinalize _ _ fr => bool_decide (fr.(fr_Resp) = Some c) | _ => false end.

(** The state machine can receive the input: a vote the strategy was asked for, a finalization, a timer, or the closed
    height-committed channel. *)
Definition receivable (i : SMInput P) (w : World P KST) (sw : SMWorld P SST) : bool :=
  match i with
  | InPrevoteHash c he => bool_decide (sw.(sw_rlc).(rl_PrevoteHashCh) = Some c) &&
      bool_decide (he.(hs_Err) = None) && existsb (asks c) sw.(sw_log)
  | InPrecommitHash c he => bool_decide (sw.(sw_rlc).(rl_PrecommitHashCh) = Some c) &&
      bool_decide (he.(hs_Err) = None) && existsb (asks c) sw.(sw_log)
  | InFinalization c _ => bool_decide (sw.(sw_rlc).(rl_FinalizeRespCh) = Some c) && existsb (finalizes c) sw.(sw_log)
  | InTimer t => bool_decide (sw.(sw_rlc).(rl_StepTimer) = Some t)
  | InHeightCommitted c => bool_decide (sw.(sw_rlc).(rl_HeightCommitted) = Some c) &&
      existsb (fun e => match e with EvHeightCommitted c' => Nat.eqb c' c | _ => false end) w.(w_out)
  | _ => false
  end.

Definition move (mv : Move) (nd : Node) : option Node :=
  let '(MkNode (MkSystem w phq cs) sm pend q) := nd in
  let run i (next : World P KST -> option Node) := match handle k i w with Ret (_, w') => next w' | Panic _ => None end in
  let ran sm' w' := Some (MkNode (MkSystem w' phq cs) sm' (newOutputs sm sm') q) in
  match mv with
  | MvBegin msg => Some (MkNode (MkSystem w phq (cs ++ [begin msg])) sm pend q)
  | MvCall i =>
      match cs !! i with
      | Some c => match callStep k c w with Ret (c', w') => Some (MkNode (MkSystem w' phq (<[i := c']> cs)) sm pend q) | Panic _ => None end
      | None => None
      end
  | MvBuffer i =>
      match cs !! i with
      | Some (CallHeader (HAdd ph)) =>
          if bool_decide (length phq < addPHCap)%nat
          then Some (MkNode (MkSystem w (phq ++ [ph]) (<[i := CallHeader (HDone HandleProposedHeaderAccepted)]> cs)) sm pend q)
          else None
      | _ => None
      end
  | MvHeader =>
      match phq with
      | ph :: phq' => run (InAddPH ph) (fun w' => Some (MkNode (MkSystem w' phq' cs) sm pend q))
      | [] => None
      end
  | MvKernel i =>
      match i with
      | InSnapshot _ | InGossipSent | InLagSent | InFetchedPH _ =>
          if ready w.(w_k) i then run i (fun w' => Some (MkNode (MkSystem w' phq cs) sm pend q)) else None
      | _ => None
      end
  | MvPass =>
      match pend with
      | OutEntrance re :: pend =>
          run (InRoundEntrance re)
            (fun w' => if answeredB pend w w' then Some (MkNode (MkSystem w' phq cs) sm pend []) else None)
      | OutAction _ _ act :: pend => Some (MkNode (MkSystem w phq cs) sm pend (q ++ [act]))
      | _ :: pend => Some (MkNode (MkSystem w phq cs) sm pend q)
      | [] => None
      end
  | MvAction =>
      match q with
      | act :: q =>
          if ready w.(w_k) (InAction (P := P) act)
          then run (InAction act) (fun w' => Some (MkNode (MkSystem w' phq cs) sm pend q)) else None
      | [] => None
      end
  | MvView ans =>
      match pend, sm.(sy_mode) with
      | [], LiveLoop =>
          if ready w.(w_k) (InStateMachineSent (P := P))
          then run InStateMachineSent (fun w' => match lastEvent w w' with
                 | Some (EvStateMachine v) => ran (live m (InView v) ans sm.(sy_w)) w' | _ => None end)
          else None
      | _, _ => None
      end
  | MvLive i ans =>
      match pend, sm.(sy_mode) with
      | [], LiveLoop => if receivable i w sm.(sy_w) then ran (live m i ans sm.(sy_w)) w else None
      | _, _ => None
      end
  | MvStart ans =>
      match pend, sm.(sy_mode) with [], Down => ran (start m ans sm.(sy_w)) w | _, _ => None end
  end.

(** ** A move is a step *)
Lemma entrance_out re (w w' : World P KST) : handle k (InRoundEntrance re) w = Ret (tt, w') ->
  exists r, w'.(w_out) = w.(w_out) ++ [EvRoundEntrance r].
Proof.
  intros Hh. assert (Hwp : wp (handleStateMachineRoundEntrance re) w
    (fun _ w' => exists r, w'.(w_out) = w.(w_out) ++ [EvRoundEntrance r])).
  { unfold handleStateMachineRoundEntrance. apply wp_bind. unfold wp at 1. cbn [okay modK fst snd].
    apply wp_bind. unfold wp at 1. cbn [okay getK fst snd]. apply wp_bind, wp_liftO_eq. intros [id st] _.
    case_bool_decide; [case_bool_decide; [|done]|].
    - apply wp_bind. unfold wp at 1. cbn [okay getStore fst snd]. destruct (ks_LoadCommittedHeader _ _); [|done].
      unfold wp. simpl. by eexists.
    - apply wp_bind. unfold wp at 1. cbn [okay emit fst snd]. apply wp_modKO. intros. by eexists. }
  exact (wp_run _ _ _ _ _ Hwp Hh).
Qed.

Lemma sent_out (w w' : World P KST) : handle k InStateMachineSent w = Ret (tt, w') ->
  exists v, w'.(w_out) = w.(w_out) ++ [EvStateMachine v].
Proof.
  intros Hh. assert (Hwp : wp (handle k InStateMachineSent) w (fun _ w' => exists v, w'.(w_out) = w.(w_out) ++ [EvStateMachine v])).
  { cbn [handle]. apply wp_bind. unfold wp at 1. cbn [okay getK fst snd]. apply wp_bind. unfold wp at 1.
    cbn [okay emit fst snd]. apply wp_modKO. intros. by eexists. }
  exact (wp_run _ _ _ _ _ Hwp Hh).
Qed.

Lemma lastEvent_app (w w' : World P KST) e : w'.(w_out) = w.(w_out) ++ [e] -> lastEvent w w' = Some e.
Proof. intros E. unfold lastEvent. by rewrite E, drop_app_length. Qed.

Lemma asks_solicited c he (log : list (SMOut P)) : he.(hs_Err) = None -> existsb (asks c) log = true ->
  exists h r req ans, OutRequest h r req ∈ log /\ cmHandle ans req = Some (Some c, he).
Proof.
  intros He (o & Ho & Ha)%existsb_exists. apply list_elem_of_In in Ho. destruct he as [hash err]. simpl in He. subst err.
  destruct o as [| |h r req| | | |]; try done. exists h, r, req, (hash, None). split; [done|].
  destruct req as [| ? ? [c'|] | ? [c'|] | ? [c'|] ]; try done; simpl in Ha; apply Nat.eqb_eq in Ha as ->; done.
Qed.

Lemma receivable_ok i (w : World P KST) (sw : SMWorld P SST) : receivable i w sw = true ->
  smReady sw.(sw_rlc) i /\ solicited sw.(sw_log) i /\ fromOutside i w.
Proof.
  destruct i as [v|c p|c he|c he|c resp|t|c|a]; simpl; try done; rewrite ?andb_true_iff, ?bool_decide_eq_true.
  - intros [[? ?] ?]. split; [done|]. split; [|done]. by apply asks_solicited.
  - intros [[? ?] ?]. split; [done|]. split; [|done]. by apply asks_solicited.
  - intros [? (o & Ho & Hf)%existsb_exists]. split; [done|]. split; [|done]. apply list_elem_of_In in Ho.
    destruct o as [| | | |h r fr| |]; try done. destruct fr as [hd rd rc]. simpl in Hf. apply bool_decide_eq_true in Hf as ->.
    by exists h, r, hd, rd.
  - done.
  - intros [? (e & He & Hc)%existsb_exists]. split; [done|]. split; [done|]. apply list_elem_of_In in He.
    destruct e; try done. by apply Nat.eqb_eq in Hc as ->.
Qed.

Ltac runs_tac :=
  match goal with
  | |- match handle k ?i ?w with Ret _ => _ | Panic _ => _ end = _ -> _ =>
      destruct (handle k i w) as [[[] w']|] eqn:?; [|discriminate]; cbn [fst snd]
  end.

Lemma move_step mv nd nd' : move mv nd = Some nd' -> nodestep k m nd nd'.
Proof.
  destruct nd as [[w phq cs] sm pend q]. destruct mv as [msg|i|i| |i| | |ans|i ans|ans]; cbn [move].
  - intros [= <-]. apply nd_mirror, sys_begin.
  - destruct (cs !! i) as [c|] eqn:Hc; [|done]. destruct (callStep k c w) as [[c' w']|] eqn:Hs; [|done]. intros [= <-].
    apply nd_mirror. by eapply sys_call.
  - destruct (cs !! i) as [[[|?|ph|]|?|?]|] eqn:Hc; try done. case_bool_decide; [|done]. intros [= <-].
    apply nd_mirror. by apply sys_send.
  - destruct phq as [|ph phq]; [done|]. runs_tac. intros [= <-]. apply nd_mirror. by apply sys_header.
  - destruct i; try done; (destruct (ready _ _) eqn:Hr; [|done]); runs_tac; intros [= <-]; apply nd_mirror;
      by (eapply sys_kernel; [|exact Hr|exact I|eassumption]).
  - destruct pend as [|[re| |h r req|h r act|h r fr|h r t|msg] pend]; [done|..]; try (intros [= <-]; by constructor).
    runs_tac. destruct (answeredB pend w w') eqn:Ha; [|done]. intros [= <-]. apply nd_entrance; [done|].
    destruct (entrance_out _ _ _ Heqo) as [r Hr]. unfold answeredB in Ha. rewrite (lastEvent_app _ _ _ Hr) in Ha.
    unfold answeredWith. destruct pend as [|[] ?]; try done. apply bool_decide_eq_true in Ha. by subst.
  - destruct q as [|act q]; [done|]. destruct (ready _ _) eqn:Hr; [|done]. runs_tac. intros [= <-]. by apply nd_action.
  - destruct pend; [|done]. destruct (sy_mode sm) eqn:Hmd; try done. destruct (ready _ _) eqn:Hr; [|done]. runs_tac.
    destruct (sent_out _ _ Heqo) as [v Hv]. rewrite (lastEvent_app _ _ _ Hv). intros [= <-]. by apply nd_view.
  - destruct pend; [|done]. destruct (sy_mode sm) eqn:Hmd; try done. destruct (receivable i w _) eqn:Hr; [|done].
    apply receivable_ok in Hr as (? & ? & ?). intros [= <-]. by apply (nd_live k m i ans (MkSystem w phq cs) sm).
  - destruct pend; [|done]. destruct (sy_mode sm) eqn:Hmd; try done. intros [= <-].
    by apply (nd_start k m ans (MkSystem w phq cs) sm).
Qed.

(** A move may depend on the node, for the answers the kernel is going to give. *)
Fixpoint moves (l : list (Node -> Move)) (nd : Node) : option Node :=
  match l with [] => Some nd | mv :: l => nd' ← move (mv nd) nd; moves l nd' end.

Lemma moves_steps l nd nd' : moves l nd = Some nd' -> nsteps (nodestep k m) (length l) nd nd'.
Proof.
  revert nd. induction l as [|mv l IH]; intros nd; simpl; [intros [= <-]; constructor|].
  destruct (move (mv nd) nd) as [nd1|] eqn:Hm; [|done]. intros Hl. eapply nsteps_l; [by eapply move_step|auto].
Qed.

(** The panic of the kernel on what it is handed next: an entrance, or else an action. *)
Definition crash (nd : Node) : option string :=
  let '(MkNode (MkSystem w _ _) _ pend q) := nd in
  let panic i := match handle k i w with Panic msg => Some msg | Ret _ => None end in
  match pend, q with
  | OutEntrance re :: _, _ => panic (InRoundEntrance re)
  | _, act :: _ => if ready w.(w_k) (InAction (P := P) act) then panic (InAction act) else None
  | _, [] => None
  end.

Lemma crash_crashes nd msg : crash nd = Some msg -> crashes k nd msg.
Proof.
  destruct nd as [[w phq cs] sm pend q].
  assert (Hact : match q with act :: _ => if ready w.(w_k) (InAction (P := P) act)
    then match handle k (InAction act) w with Panic msg => Some msg | Ret _ => None end else None | [] => None end = Some msg ->
    crashes k (MkNode (MkSystem w phq cs) sm pend q) msg).
  { destruct q as [|act q]; [done|]. destruct (ready _ _) eqn:Hr; [|done].
    destruct (handle k (InAction act) w) eqn:Hh; [done|]. intros [= <-]. by apply cr_action. }
  destruct pend as [|[] pend]; try exact Hact. simpl. intros Hc. apply cr_entrance. simpl.
  destruct (handleStateMachineRoundEntrance _ w); [done|]. by injection Hc as <-.
Qed.

(** What the kernel would answer to an entrance. *)
Definition answerTo (h r : Z) (nd : Node) : Answer P :=
  let w := nd.(nd_sys).(sys_w) in
  match handle k (InRoundEntrance (MkEntrance h r None false None)) w with
  | Ret (_, w') => match lastEvent w w' with Some (EvRoundEntrance r) => AnsEntrance r | _ => AnsTaken false end
  | Panic _ => AnsTaken false
  end.
End moves.
Arguments Move : clear implicits.

(** ** The node of the examples: validator "a" on empty stores *)
Definition ExNode : Type := Node TP MemStores MemSMStores.
Definition ExMove : Type := ExNode -> Move TP.
Definition exNode : ExNode := MkNode (MkSystem startWorld [] []) (smInit exStores) [] [].
Definition always (mv : Move TP) : ExMove := fun _ => mv.
Definition pass : ExMove := always MvPass.
Definition nodeOr (o : option ExNode) : ExNode := match o with Some nd => nd | None => exNode end.

(** Votes of validators as messages of the network. *)
Definition netVotes (kind : bytes) (h r : Z) (l : list (bytes * list (nat * bytes))) : gomap (list SparseSignature) :=
  Some (list_to_map (map (fun e => (e.1, map (fun v => MkSparseSignature (putUint16 v.1)
     (v.2 +:+ toyContentOf (toyContent kind (MkVoteTarget h r e.1)))) e.2)) l)).
Definition prevotesFrom (l : list (bytes * list (nat * bytes))) : Message :=
  MsgPrevotes (MkPrevoteSparse 1 0 "a,b,c,d" (netVotes "V" 1 0 l)).
Definition precommitsFrom (l : list (bytes * list (nat * bytes))) : Message :=
  MsgPrecommits (MkPrecommitSparse 1 0 "a,b,c,d" (netVotes "C" 1 0 l)).

(** A proposal of validator "b" that fits the genesis of the example. *)
Definition nodeHeader : ProposedHeader :=
  let ph := exPH 1 0 "x" in {| ph with ph_Signature := "b" +:+ toyContentOf (toyContent "H" (MkVoteTarget 1 0 "x")) |}.

(** The state machine starts and enters the round; the header arrives, and the state machine is shown it. *)
Definition entering : list ExMove :=
  [fun nd => MvStart [answerTo toyKernel 1 0 nd; AnsEntered None]; pass; pass; pass; pass].
Definition proposing : list ExMove := entering ++ map always
  [MvBegin (MsgHeader nodeHeader); MvCall 0; MvBuffer 0; MvHeader; MvView [AnsTaken true]; MvPass].

(** The strategy selects the header; its prevote, and those of "b" and "c", make a majority. *)
Definition prevoting : list ExMove := proposing ++ map always
  [MvLive (InPrevoteHash 2 (MkSelection "x" None)) []; MvPass].
Definition deciding : list ExMove := prevoting ++ map always
  [MvAction; MvView []; MvBegin (prevotesFrom [("x", [(1%nat, "b"); (2%nat, "c")])]); MvCall 1; MvCall 1; MvView []; MvPass].

(** With the precommits of "b" and "c" there, its own one commits the header. *)
Definition precommitting : list ExMove := deciding ++ map always
  [MvBegin (precommitsFrom [("x", [(1%nat, "b"); (2%nat, "c")])]); MvCall 2; MvCall 2; MvView [];
   MvLive (InPrecommitHash 3 (MkSelection "x" None)) []; MvPass].
Definition committing : list ExMove := precommitting ++ map always [MvAction].

Definition exMoved (l : list ExMove) : ExNode := nodeOr (moves toyKernel exConfig l exNode).

Definition possible {A} (o : option A) : bool := match o with Some _ => true | None => false end.
Lemma exMoved_run l : possible (moves toyKernel exConfig l exNode) = true ->
  nsteps (nodestep toyKernel exConfig) (length l) exNode (exMoved l).
Proof. unfold exMoved. destruct (moves _ _ l exNode) eqn:Hm; [|done]. intros _. by apply moves_steps. Qed.

Lemma mem_position_set h r (st : MemSMStores) : (ss_SetStateMachineHeightRound h r st).2 = None.
Proof. reflexivity. Qed.

Lemma ex_signerFits : signerFits toyKernel exConfig.
Proof. exact (passthrough_fits toyKernel exConfig exKey (fun c => Ok ("a" +:+ c)) eq_refl). Qed.
Lemma ex_fresh : freshNode exNode.
Proof. by split_and!. Qed.

Example committing_position :
  let w := (exMoved committing).(nd_sys).(sys_w) in
  vHeight w.(w_k).(s_Voting) = 2 /\ w.(w_k).(CommittingHeader).(Hash) = "x" /\
  (exMoved committing).(nd_sm).(sy_w).(sw_rlc).(rl_S) = StepAwaitingPrecommits.
Proof. vm_compute. by split_and!. Qed.

(** * Properties *)

(** C1: safety of a whole node.  Take any run of [n] steps of a node, from before its state machine starts: mirror calls
    with arbitrary messages from the network, requests of the kernel and handlers of the state machine interleave in any
    way, and the consensus strategy, the application and the timers do what they like.  The replays of old headers are
    restricted: a replayed header names the voting validators and one of the two rounds in view.  The code does not check
    that, and without it the claim is false (replay_commits_foreign_header).  Let the start be as a started kernel is:
    coherent views with sound precommits, headers in view of the voting height, nothing stored above the committing
    header, the committing height below the voting one, [n] below the last 64-bit height, no call running and the state
    machine down.  Let the node's signer sign under the kernel's scheme, and its store save every position.  Then every
    header the node commits is certified: the committing header is linked to the starting one by a chain of headers,
    each signed by validators holding ByzantineMajority of the power of the set its predecessor names; what is stored as
    committed was stored before or is on such a chain; and no stored header was changed.  That the votes of the state
    machine are signed for the round under which the kernel files them is not assumed. *)
Theorem node_commits_certified {P B KST SST : Type} `{CMSPLaws P B, !KernelStores KST, !KernelStoresLaws KST, !SMStores SST}
  (k : Kernel) (m : SMConfig) (n : nat) (nd nd' : Node P KST SST) :
  let w := nd.(nd_sys).(sys_w) in
  let w' := nd'.(nd_sys).(sys_w) in
  let chain := certChain k w.(w_k).(CommittingHeader) (votingVals w.(w_k)) (vHeight w.(w_k).(s_Voting)) in
  freshNode nd -> coherent w.(w_k) -> a_sound k (abs w) -> a_chain (abs w) ->
  0 <= vHeight w.(w_k).(s_Voting) -> vHeight w.(w_k).(s_Voting) + Z.of_nat n < two64 ->
  vHeight w.(w_k).(s_Committing) < vHeight w.(w_k).(s_Voting) ->
  signerFits k m -> (forall h r st, (ss_SetStateMachineHeightRound h r st).2 = None) ->
  nsteps (nodestep k m) n nd nd' ->
  chain w'.(w_k).(CommittingHeader) (votingVals w'.(w_k)) (vHeight w'.(w_k).(s_Voting)) /\
  (forall h hd, committedAt h w'.(w_st) = Some hd ->
     committedAt h w.(w_st) = Some hd \/ (hd.(Height) = h /\ exists vals h', chain hd vals h')) /\
  (forall h hd, committedAt h w.(w_st) = Some hd -> committedAt h w'.(w_st) = Some hd).
Proof.
  intros w w' chain Hfresh Hc Hs Hch Hpos Hn Hb Hsg Hset Hr. pose proof (fresh_agrees m nd Hfresh) as Hag.
  destruct (node_run k m Hset Hsg n nd nd' Hr Hag) as (_ & n' & Hle & Hr'). destruct Hfresh as [Hcs _].
  assert (Hok : sysOK k w.(w_k).(CommittingHeader) (votingVals w.(w_k)) (vHeight w.(w_k).(s_Voting))
    (fun h => committedAt h w.(w_st)) nd.(nd_sys)) by (apply sysOK_start; done).
  destruct (sysOK_run k _ _ _ _ n' _ _ Hr' Hok) as [[[Hcert _ _ _] _] Hlog]; [unfold w in Hn; lia|].
  split; [exact (cert_chain _ _ _ _ _ _ Hcert)|split; [exact (cert_log _ _ _ _ _ _ Hcert)|exact Hlog]].
Qed.

(** The instance: the run in which the node's own precommit completes the majority and commits height 1. *)
Lemma node_commits_certified_witness :
  let w := startWorld in
  let w' := (exMoved committing).(nd_sys).(sys_w) in
  let chain := certChain toyKernel w.(w_k).(CommittingHeader) (votingVals w.(w_k)) (vHeight w.(w_k).(s_Voting)) in
  w'.(w_k).(CommittingHeader).(Hash) = "x" /\
  chain w'.(w_k).(CommittingHeader) (votingVals w'.(w_k)) (vHeight w'.(w_k).(s_Voting)) /\
  (forall h hd, committedAt h w'.(w_st) = Some hd ->
     committedAt h w.(w_st) = Some hd \/ (hd.(Height) = h /\ exists vals h', chain hd vals h')) /\
  (forall h hd, committedAt h w.(w_st) = Some hd -> committedAt h w'.(w_st) = Some hd).
Proof.
  split; [vm_compute; reflexivity|].
  apply (node_commits_certified toyKernel exConfig (length committing) exNode (exMoved committing)).
  - exact ex_fresh.
  - exact startWorld_coherent.
  - exact startWorld_sound.
  - exact startWorld_chain.
  - vm_compute. discriminate.
  - vm_compute. reflexivity.
  - vm_compute. reflexivity.
  - exact ex_signerFits.
  - exact mem_position_set.
  - apply exMoved_run. vm_compute. reflexivity.
Defined.

(** ** A vote that comes too late for its round crashes the node *)

(** The precommits of the round are split, and the delay for the missing one runs out: the state machine enters round 1.
    Then the missing precommit arrives and commits round 0, and the state machine's proposal delay runs out. *)
Definition splitting : list ExMove := deciding ++ map always
  [MvLive (InPrecommitHash 3 (MkSelection "x" None)) []; MvPass; MvAction;
   MvBegin (precommitsFrom [("x", [(1%nat, "b")]); (nilHash, [(2%nat, "c")])]); MvCall 2; MvCall 2; MvView []; MvPass].
Definition advancing : list ExMove := splitting ++
  [fun nd => MvLive (InTimer 7) [answerTo toyKernel 1 1 nd; AnsEntered None]; pass; pass; pass; pass].
Definition lateCommit : list ExMove := advancing ++ map always
  [MvBegin (precommitsFrom [("x", [(3%nat, "d")])]); MvCall 3; MvCall 3].
Definition lateVote : list ExMove := lateCommit ++ map always
  [MvLive (InTimer 13) []; MvPass; MvLive (InPrevoteHash 9 (MkSelection nilHash None)) []; MvPass].

(** C10: a late precommit crashes a node.  When the committed round is the one before the round of the state machine, any
    vote of the state machine makes the kernel panic.  This is reached with no fault and nothing but a delay: the
    precommits of round 0 are split with one missing, the precommit delay runs out and the state machine enters round 1,
    the missing precommit arrives and commits round 0, of which the kernel tells the state machine nothing, and the
    state machine votes in round 1. *)
Theorem late_commit_crashes_node :
  (forall {P B KST SST : Type} `{Verifier, BitSet B, !CMSP P B, !CMSPScheme P, !KernelStores KST, !SMStores SST}
     (k : Kernel) (nd : Node P KST SST) act q,
     let s := nd.(nd_sys).(sys_w).(w_k) in
     nd.(nd_actions) = act :: q -> (entranceIn s).(re_Actions) = true -> act.(act_PH).(ph_Header).(Hash) = nilHash ->
     nonEmpty act.(act_Prevote).(sc_Sig) || nonEmpty act.(act_Precommit).(sc_Sig) = true ->
     (entranceIn s).(re_H) = vHeight s.(s_Committing) -> vRound s.(s_Committing) < (entranceIn s).(re_R) ->
     vHeight s.(s_Committing) < vHeight s.(s_Voting) ->
     crashes k nd "TODO: unhandled attempt to find view") /\
  rtc (nodestep toyKernel exConfig) exNode (exMoved lateVote) /\
  crashes toyKernel (exMoved lateVote) "TODO: unhandled attempt to find view".
Proof.
  split.
  - intros P B KST SST Hv Hb Hp Hs Hks Hst k [[w phq cs] sm pend q0] act q s Hq Ha Hph Hvote HH HR Hlt. simpl in *.
    subst q0. apply cr_action; [exact Ha|]. cbn [handle]. unfold handleStateMachineAction.
    unfold nonEmpty at 1 4. rewrite Hph. cbn [String.eqb negb orb]. rewrite Hvote. cbn [negb].
    unfold mbind, K_bind, getK. cbn [outcome_bind mbind fst snd]. unfold liftO, FindView.
    unfold entranceIn in *. unfold smH, smR. fold s. rewrite HH.
    rewrite (proj2 (Z.eqb_neq _ _)) by lia. rewrite Z.eqb_refl, (proj2 (Z.eqb_neq _ _)) by lia. cbn [andb].
    rewrite (proj2 (Z.ltb_ge _ _)) by lia. rewrite Z.ltb_irrefl. by rewrite (proj2 (Z.ltb_ge _ _)) by lia.
  - split.
    + eapply rtc_nsteps_2, exMoved_run. vm_compute. reflexivity.
    + apply crash_crashes. vm_compute. reflexivity.
Qed.

(** ** A commit that the kernel misses crashes the node *)

(** Two messages with precommits arrive at once: for nil from "d", and the same with a majority for the header.  The
    second call conflicts, and its retry finds nothing new, so the kernel does not commit; but the state machine is shown
    the majority, commits, finalizes, and its commit wait ends. *)
Definition racing : list ExMove := proposing ++ map always
  [MvBegin (precommitsFrom [(nilHash, [(3%nat, "d")])]);
   MvBegin (precommitsFrom [("x", [(0%nat, "a"); (1%nat, "b"); (2%nat, "c")]); (nilHash, [(3%nat, "d")])]);
   MvCall 1; MvCall 2; MvCall 1; MvCall 2; MvCall 2; MvView []; MvPass; MvPass].
Definition stranded : list ExMove := racing ++ map always
  [MvLive (InFinalization 4 (MkFinResp 1 0 "x" toyValidators "app1")) []; MvLive (InTimer 7) []].

(** The node of this run follows the chain without a signer: all the votes are of others. *)
Definition followConfig : SMConfig := MkSMConfig None toyHashScheme exGenesis.
Definition followed (l : list ExMove) : ExNode := nodeOr (moves toyKernel followConfig l exNode).

(** C11: a commit that the kernel misses crashes the node.  An entrance for a height that the kernel does not vote on yet
    makes it panic.  A node that follows without a signer gets there when two messages with precommits, one vote per
    validator, arrive at once: one conflicts with the other, its retry finds no new signatures, and the kernel keeps
    voting on the height although a header of it has a majority (see KernelPrompt); the state machine is shown that
    majority, has the application finalize the header, and enters the next height. *)
Theorem stranded_commit_crashes_node :
  (forall {P B KST SST : Type} `{Verifier, BitSet B, !CMSP P B, !CMSPScheme P, !KernelStores KST, !SMStores SST}
     (k : Kernel) (nd : Node P KST SST) re pend,
     let s := nd.(nd_sys).(sys_w).(w_k) in
     nd.(nd_pending) = OutEntrance re :: pend -> vHeight s.(s_Voting) < re.(re_H) ->
     vHeight s.(s_Committing) < vHeight s.(s_Voting) ->
     crashes k nd "TODO: handle view not found when responding to state machine round update") /\
  rtc (nodestep toyKernel followConfig) exNode (followed stranded) /\
  finAt 1 (followed stranded).(nd_sm).(sy_w).(sw_st) = Some (0, "x", toyValSet, "app1") /\
  vHeight (followed stranded).(nd_sys).(sys_w).(w_k).(s_Voting) = 1 /\
  crashes toyKernel (followed stranded) "TODO: handle view not found when responding to state machine round update".
Proof.
  split; [|split; [|split; [|split]]].
  - intros P B KST SST Hv Hb Hp Hs Hks Hst k [[w phq cs] sm pend0 q] re pend s Hq HH Hlt. simpl in *.
    subst pend0. apply cr_entrance. cbn [handle]. unfold handleStateMachineRoundEntrance.
    unfold mbind, K_bind, modK, getK. cbn [outcome_bind mbind fst snd]. unfold liftO, FindView. cbn [s_Voting s_Committing w_k].
    fold s. rewrite (proj2 (Z.eqb_neq _ _)) by lia. rewrite (proj2 (Z.eqb_neq _ _)) by lia. cbn [andb].
    rewrite (proj2 (Z.ltb_ge _ _)) by lia. by rewrite (proj2 (Z.ltb_lt _ _)) by lia.
  - eapply (rtc_nsteps_2 (length stranded)), (moves_steps toyKernel followConfig). vm_compute. reflexivity.
  - vm_compute. reflexivity.
  - vm_compute. reflexivity.
  - apply crash_crashes. vm_compute. reflexivity.
Qed.
