(* ===== verification/OwnVotes.v ===== *)
(** The votes of a node's own state machine are counted: a prevote that the state machine sends for the round its
    mirror votes on reaches the view (tmi/kernel.go, handleStateMachineAction).  Halt shows that this needs the mirror
    to be in that round. *)
From S2P Require Import Prelude Types BitSets Powers SigProof SimpleProofs VoteSummary RoundView.
From S2P Require Import Stores Managers KState KernelBase Kernel KernelHandlers KernelLoop Mirror.
From S2P Require Import KernelExample KernelSpec KernelRefine KernelSafety KernelTheorems KernelCommit MirrorSystem MirrorProofs.
From S2P Require Import HeaderChecks KernelPrompt Delivery RoundLifecycle StateMachineBase StateMachine StateMachineRun.
From S2P Require Import StateMachineActions StateMachineExample Node NodeRun.
From stdpp Require Import relations.
Local Open Scope Z_scope.

(** * A prevote request is handled to the end *)
Section kernel.
Context {P B ST : Type} `{BitSetLaws B, !CMSP P B, !CMSPScheme P, !KernelStores ST, !KernelStoresLaws ST}.
Context (k : Kernel).
Implicit Types (w : World P ST).

(** Recording prevotes whose proofs have one key hash. *)
Lemma tp_recordPrevotes h r w m hash : vPrevotes w.(w_k).(s_Voting) = Some m -> sameKeyHash hash m ->
  (abs w).(aV).(rv_VoteSummary).(PrevoteBlockPower) <> None ->
  exists vs, SetPrevotePowers (rvVals (abs w).(aV)) (Some m) (abs w).(aV).(rv_VoteSummary) = Ret vs /\
    tp (recordPrevotes ViewIDVoting h r) w (fun _ w' => (abs w').(aV) = rvWithPrevotes (abs w).(aV) (Some m) vs).
Proof.
  intros Hm Hhash Hblock. destruct (PrevoteBlockPower (rv_VoteSummary (aV (abs w)))) as [g|] eqn:Eg; [|done].
  unfold SetPrevotePowers. rewrite Eg, tally_ret. eexists. split; [reflexivity|].
  unfold recordPrevotes. apply tp_bind. unfold tp at 1. cbn [gets sure viewOf fst snd]. apply tp_bind.
  eapply tp_liftO.
  { unfold SetPrevotePowers. change (vSummary (s_Voting (w_k w))) with (rv_VoteSummary (aV (abs w))).
    rewrite Eg, Hm, tally_ret. reflexivity. }
  apply tp_bind. unfold tp at 1. cbn [modK sure fst snd]. apply tp_bind. eapply tp_modKO; [reflexivity|].
  destruct (mapToSparse_spec hash m Hhash) as (h' & Hsp & _). apply tp_bind. eapply tp_liftO; [by rewrite Hm|].
  apply tp_bind, tp_callStore. intros st e. apply tp_ret. unfold rvWithPrevotes.
  unfold vPrevotes in Hm. simpl. unfold vrv_upd. simpl. by rewrite Hm.
Qed.

(** A request for the voting round whose updates name the current versions: the view has the proofs of the request, and
    keeps the others; its summary is that of these proofs. *)
Lemma tp_addPrevote req w keyHash :
  let v := w.(w_k).(s_Voting) in let after := merged (vPrevotes v) req.(PrevoteUpdates) in
  rv_ok v.(vrv_RV) -> req.(apv_H) = vHeight v -> req.(apv_R) = vRound v ->
  (forall h u, req.(PrevoteUpdates) !! h = Some u -> u.(PrevVersion) = gm_getz 0 v.(PrevoteBlockVersions) h) ->
  (exists h, is_Some (req.(PrevoteUpdates) !! h)) ->
  (forall h q, after h = Some q -> cmsp_PubKeyHash q = keyHash) ->
  u64 (totalPowerZ (vVals v)) <> 0 ->
  tp (addPrevote k req) w (fun _ w' => let rv := w'.(w_k).(s_Voting).(vrv_RV) in rv_ok rv /\
    rv.(rv_Height) = vHeight v /\ rv.(rv_Round) = vRound v /\ rv.(rv_ValidatorSet) = v.(vrv_RV).(rv_ValidatorSet) /\
    forall h, gm_get rv.(rv_PrevoteProofs) h = after h).
Proof.
  intros v after Hok HH HR Hups [hash Hin] Hkeys Hpow.
  destruct (vPrevotes v) as [g0|] eqn:Eg0; [|by destruct (ro_prevotes _ Hok)].
  destruct (applyUpdates_exact g0 v.(PrevoteBlockVersions) req.(PrevoteUpdates))
    as (g & vers & acc & any & Happly & Hg & Hacc & Hany).
  assert (acc = true) as -> by (apply Hacc, Hups).
  assert (any = true) as -> by (apply Hany; destruct Hin as [u Hu]; eauto).
  assert (Hafter : forall h, g !! h = after h).
  { intros h. destruct (Hg h) as [-> _]. unfold after, merged. destruct (_ !! h) as [u|] eqn:Eu; [|done].
    by rewrite (Hups _ _ Eu), Z.eqb_refl. }
  unfold addPrevote. apply tp_bind. unfold tp at 1. cbn [getK sure fst snd]. apply tp_bind. eapply tp_liftO.
  { unfold FindView. rewrite HH, HR, !Z.eqb_refl. reflexivity. }
  cbv beta iota. rewrite bool_decide_eq_true_2 by done. cbn [negb viewOf]. fold v. apply tp_bind. eapply tp_liftO; [by rewrite Eg0|].
  apply tp_bind. unfold tp at 1. cbn [modK sure fst snd]. apply tp_bind. cbn [setView].
  set (w1 := {| w with w_k := _ |}).
  assert (Hblock : (abs w1).(aV).(rv_VoteSummary).(PrevoteBlockPower) <> None)
    by exact (tallied_block_some _ _ _ _ _ (ro_prevote_tally _ Hok)).
  destruct (tp_recordPrevotes (apv_H req) (apv_R req) w1 g keyHash) as (vs & Hvs & Hrec);
    [done|by intros h q Hq; apply (Hkeys h); rewrite <- Hafter|exact Hblock|].
  eapply tp_mono; [|exact Hrec]. intros [] w2 Hw2.
  set (rv := rvWithPrevotes (aV (abs w)) (Some g) vs).
  assert (Hrv : (abs w2).(aV) = rv) by exact Hw2.
  assert (Hokrv : rv_ok rv) by (apply rv_ok_withPrevotes; [exact Hok|done|exact Hvs]).
  apply tp_bind, tp_respond. intros w3 Hw3.
  assert (Hv3 : (abs w3).(aV) = rv) by (rewrite <- Hrv; simpl; by rewrite Hw3).
  apply tp_bind. eapply tp_mono; [|apply tp_checkMissingPHs].
  - intros [] w4 [Hv4 _ _ _ _]. rewrite Hv3 in Hv4. cbn [bool_decide]. apply tp_ret.
    change (vrv_RV (s_Voting (w_k w4))) with (aV (abs w4)). cbv zeta. rewrite Hv4. split_and!; done.
  - unfold gm_len. simpl. intros Hz%map_size_empty_inv. destruct Hin as [u Hu].
    pose proof (Hafter hash) as Hh. unfold after, merged in Hh. by rewrite Hz, lookup_empty, Hu in Hh.
  - change (vVals (s_Voting (w_k w3))) with (rvVals (aV (abs w3))). by rewrite Hv3.
Qed.
End kernel.

(** * The vote of the state machine *)
Section own.
Context {B ST : Type} `{BitSetLaws B, Verifier, !KernelStores ST, !KernelStoresLaws ST}.
Context (k : Kernel).
Local Abbreviation P := (SimpleProof B).
Implicit Types (w : World P ST) (vals : ValidatorSet).

(** The prevotes of a view: proofs for the view's keys of the content of the prevote they are filed under. *)
Definition prevotesSound vals (h r : Z) (m : gomap P) : Prop := forall hash p, gm_get m hash = Some p ->
  simple_sound (ValidatorsToPubKeys vals.(Validators)) p /\
  PrevoteSignBytes (MkVoteTarget h r hash) k.(k_sigScheme) = Ok p.(sp_msg) /\ p.(sp_keyHash) = vals.(PubKeyHash).

(** The bits of the proof for a hash, none when there is none. *)
Definition bitsFor (m : gomap P) (hash : bytes) : gset nat :=
  match gm_get m hash with Some p => bs_elems p.(sp_bitset) | None => ∅ end.

(** A valid signature of validator [i] sets its bit in the proof it is added to. *)
Lemma own_signature vals (p : P) content sig i v key : distinctKeys vals -> baseOf vals content p ->
  vals.(Validators) !! i = Some v -> key.(pk_PubKeyBytes) = v.(val_PubKey).(pk_PubKeyBytes) ->
  verify key content sig = true ->
  exists p', Simple_AddSignature sig key p = Ok p' /\ p'.(sp_keyHash) = p.(sp_keyHash) /\ p'.(sp_msg) = content /\
    bs_elems p'.(sp_bitset) = bs_elems p.(sp_bitset) ∪ {[i]}.
Proof.
  intros [Hnd _ _] [Hs Hm] Hv Hkey Hver. unfold Simple_AddSignature. rewrite (ss_idxs _ _ Hs), Hkey.
  assert (Hi : indexKeys (ValidatorsToPubKeys vals.(Validators)) !! v.(val_PubKey).(pk_PubKeyBytes) = Some i).
  { apply indexKeys_lookup; [done|]. unfold ValidatorsToPubKeys. by rewrite list_lookup_fmap, Hv. }
  rewrite Hi, Hm, Hver. eexists. split; [reflexivity|]. simpl. rewrite bs_elems_Set. split_and!; [done..|]. set_solver.
Qed.

(** What the kernel makes of a prevote of its state machine in the voting round. *)
Lemma own_prevote w act vals content i v key : let s := w.(w_k) in let rv := s.(s_Voting).(vrv_RV) in
  let hash := act.(act_Prevote).(TargetHash) in
  rv_ok rv -> rv.(rv_ValidatorSet) = vals -> distinctKeys vals -> 0 < totalPowerZ vals.(Validators) ->
  prevotesSound vals rv.(rv_Height) rv.(rv_Round) rv.(rv_PrevoteProofs) ->
  (entranceIn s).(re_H) = rv.(rv_Height) -> (entranceIn s).(re_R) = rv.(rv_Round) -> (entranceIn s).(re_PubKey) = Some key ->
  vals.(Validators) !! i = Some v -> key.(pk_PubKeyBytes) = v.(val_PubKey).(pk_PubKeyBytes) ->
  act.(act_PH).(ph_Header).(Hash) = nilHash -> nonEmpty act.(act_Precommit).(sc_Sig) = false ->
  nonEmpty act.(act_Prevote).(sc_Sig) = true -> act.(act_Prevote).(SignContent) = content ->
  PrevoteSignBytes (MkVoteTarget rv.(rv_Height) rv.(rv_Round) hash) k.(k_sigScheme) = Ok content ->
  verify key content act.(act_Prevote).(sc_Sig) = true ->
  tp (handleStateMachineAction k act) w (fun _ w' => let rv' := w'.(w_k).(s_Voting).(vrv_RV) in
    rv_ok rv' /\ rv'.(rv_Height) = rv.(rv_Height) /\ rv'.(rv_Round) = rv.(rv_Round) /\ rv'.(rv_ValidatorSet) = vals /\
    bitsFor rv'.(rv_PrevoteProofs) hash = bitsFor rv.(rv_PrevoteProofs) hash ∪ {[i]} /\
    forall h, h <> hash -> gm_get rv'.(rv_PrevoteProofs) h = gm_get rv.(rv_PrevoteProofs) h).
Proof.
  intros s rv hash Hok Hvals Hd Hpos Hsound HH HR Hkey Hv Hk Hph Hpc Hpv Hc Hcontent Hver.
  assert (Hn : nonEmpty act.(act_PH).(ph_Header).(Hash) = false) by (by rewrite Hph).
  unfold handleStateMachineAction. rewrite Hpc, Hpv, Hn. cbn [negb orb].
  apply tp_bind. unfold tp at 1. cbn [getK sure fst snd]. apply tp_bind. eapply tp_liftO.
  { unfold FindView, smH, smR. fold (entranceIn (w_k w)). fold s. rewrite HH, HR. unfold vHeight, vRound.
    fold s rv. rewrite !Z.eqb_refl. reflexivity. }
  cbn [fst viewOf]. rewrite bool_decide_eq_true_2 by done. cbn [orb negb]. fold hash. rewrite Hc.
  assert (Hbase : exists base, voteBase s (gm_get rv.(rv_PrevoteProofs) hash) content = Ok base /\ baseOf vals content base /\
    base.(sp_keyHash) = vals.(PubKeyHash) /\ bs_elems base.(sp_bitset) = bitsFor rv.(rv_PrevoteProofs) hash).
  { unfold voteBase, bitsFor. destruct (gm_get _ hash) as [p|] eqn:Ep.
    - destruct (Hsound _ _ Ep) as (Hs & Hm & Hh). rewrite Hcontent in Hm. injection Hm as Hm. exists p. split_and!; try done.
    - fold rv. rewrite Hvals. eexists. split; [reflexivity|]. split_and!; simpl; [split|done|apply bs_elems_New].
      + by eapply NewSimpleProof_sound.
      + done. }
  destruct Hbase as (base & Hb & Hof & Hbh & Hbits). unfold vPrevotes. fold s rv. rewrite Hb.
  destruct (own_signature vals base content (sc_Sig (act_Prevote act)) i v key) as (p & Hp & Hph' & _ & Hpb); try done.
  apply tp_bind. eapply tp_liftO.
  { unfold addOwnSignature, smPubKey. fold (entranceIn s). rewrite Hkey. simpl. by rewrite Hp. }
  unfold smH, smR. fold (entranceIn s). rewrite HH, HR.
  eapply tp_mono; [|apply (tp_addPrevote k _ w vals.(PubKeyHash))]; simpl; fold s rv; try done.
  - cbn beta. intros [] w' (Hok' & HH' & HR' & Hvs' & Hget). split_and!; [done..|by rewrite Hvs'| |].
    + unfold bitsFor at 1. rewrite Hget. unfold merged. rewrite lookup_singleton_eq. simpl. by rewrite Hpb, Hbits.
    + intros h Hne. rewrite Hget. unfold merged. by rewrite lookup_singleton_ne by done.
  - intros h u [<- <-]%lookup_singleton_Some. done.
  - exists hash. rewrite lookup_singleton_eq. by eexists.
  - intros h q. unfold merged. destruct (decide (h = hash)) as [->|Hne].
    + rewrite lookup_singleton_eq. intros [= <-]. simpl. by rewrite Hph'.
    + rewrite lookup_singleton_ne by done. intros Hq. by destruct (Hsound _ _ Hq) as (_ & _ & ?).
  - unfold vVals. fold rv. rewrite Hvals, (total_exact vals) by apply Hd. lia.
Qed.
End own.

(** * Properties *)

(** C8: a node counts its own prevotes.  In any run of a node from before its state machine starts, with a signer under
    the kernel's scheme whose signatures verify and a store that saves positions: when a prevote is the next action
    buffered, for the round the mirror votes on, and the signer's key is that of validator [i] of the voting set, the
    kernel takes it without a panic, and the view's proof for its hash has the bits it had and [i], while the proofs for
    other hashes and the round stay; the power the view's summary gives the hash is the power of these validators. *)
Theorem own_prevote_counted {B KST SST : Type} `{BitSetLaws B, Verifier, !KernelStores KST, !KernelStoresLaws KST, !SMStores SST}
  (k : Kernel) (m : SMConfig) (n : nat) (nd nd' : Node (SimpleProof B) KST SST) act q sg i v :
  let w := nd'.(nd_sys).(sys_w) in
  let rv := w.(w_k).(s_Voting).(vrv_RV) in
  let vals := rv.(rv_ValidatorSet) in
  let hash := act.(act_Prevote).(TargetHash) in
  freshNode nd -> signerFits k m -> m.(m_signer) = Some sg ->
  (forall vt content sig, sg_Prevote sg vt = Ok (content, sig) -> verify sg.(sg_PubKey) content sig = true) ->
  (forall h r st, (ss_SetStateMachineHeightRound h r st).2 = None) ->
  nsteps (nodestep k m) n nd nd' ->
  nd'.(nd_actions) = act :: q -> ready w.(w_k) (InAction (P := SimpleProof B) act) = true ->
  nonEmpty act.(act_Prevote).(sc_Sig) = true ->
  (entranceIn w.(w_k)).(re_H) = rv.(rv_Height) -> (entranceIn w.(w_k)).(re_R) = rv.(rv_Round) ->
  a_coherent (abs w) -> prevotesSound k vals rv.(rv_Height) rv.(rv_Round) rv.(rv_PrevoteProofs) ->
  distinctKeys vals -> 0 < totalPowerZ vals.(Validators) ->
  vals.(Validators) !! i = Some v -> sg.(sg_PubKey).(pk_PubKeyBytes) = v.(val_PubKey).(pk_PubKeyBytes) ->
  exists w', let rv' := w'.(w_k).(s_Voting).(vrv_RV) in
    nodestep k m nd' (MkNode (MkSystem w' nd'.(nd_sys).(sys_phQ) nd'.(nd_sys).(sys_calls)) nd'.(nd_sm) nd'.(nd_pending) q) /\
    handle k (InAction act) w = Ret (tt, w') /\
    rv'.(rv_Height) = rv.(rv_Height) /\ rv'.(rv_Round) = rv.(rv_Round) /\ rv'.(rv_ValidatorSet) = vals /\
    bitsFor rv'.(rv_PrevoteProofs) hash = bitsFor rv.(rv_PrevoteProofs) hash ∪ {[i]} /\
    (forall h, h <> hash -> gm_get rv'.(rv_PrevoteProofs) h = gm_get rv.(rv_PrevoteProofs) h) /\
    gm_getz 0 rv'.(rv_VoteSummary).(PrevoteBlockPower) hash =
      powerIn vals.(Validators) (bitsFor rv.(rv_PrevoteProofs) hash ∪ {[i]}) 0.
Proof.
  intros w rv vals hash Hfresh Hfits Hm Hverify Hset Hrun Hq Hready Hsig HH HR Hc Hsound Hd Hpos Hv Hk.
  destruct (node_run k m Hset Hfits n nd nd' Hrun (fresh_agrees m nd Hfresh)) as [[(p & Ht & _)] _].
  rewrite Hq in Ht. destruct p as [[h r]|]; [|done].
  destruct Ht as (Eh & Er & Ek & [Hs _]%Forall_cons). rewrite Hm in Ek. simpl in Ek.
  assert (Hact : act.(act_PH).(ph_Header).(Hash) = nilHash /\ nonEmpty act.(act_Precommit).(sc_Sig) = false /\
    sg_Prevote sg (MkVoteTarget h r hash) = Ok (act.(act_Prevote).(SignContent), act.(act_Prevote).(sc_Sig))).
  { destruct Hs as [ph|sg' hash' content sig Hm' Hs|sg' hash' content sig Hm' Hs]; simpl in *; try done.
    rewrite Hm in Hm'. injection Hm' as <-. by split_and!. }
  destruct Hact as (Hph & Hpc & Hsg). rewrite <- Eh, <- Er in Hsg. fold w in Hsg. rewrite HH, HR in Hsg.
  pose proof (proj1 (Hfits sg _ _ _ Hm) Hsg) as Hcontent.
  pose proof (own_prevote k w act vals _ i v sg.(sg_PubKey) (ac_voting _ Hc) eq_refl Hd Hpos Hsound HH HR Ek Hv Hk Hph Hpc Hsig
    eq_refl Hcontent (Hverify _ _ _ Hsg)) as Htp.
  apply tp_returns in Htp as ([] & w' & Hh & Hok & HH' & HR' & Hvs & Hbits & Hothers). exists w'. split_and!; try done.
  - destruct nd' as [[w0 phq cs] sm pend q0]. simpl in *. subst q0. by apply nd_action.
  - destruct (ro_prevote_tally _ Hok) as [_ Hblock _ _ _]. rewrite Hblock. unfold bitsFor in *.
    unfold gm_getz, gm_get at 1. simpl. rewrite lookup_fmap. change (gm_map ?x !! hash) with (gm_get x hash).
    fold hash in Hbits. destruct (gm_get (rv_PrevoteProofs (vrv_RV (s_Voting (w_k w')))) hash) as [p'|] eqn:Ep; simpl.
    + fold w rv in Hbits. rewrite <- Hbits, Hvs. fold vals. unfold proofPower. by rewrite sumPower_exact by apply Hd.
    + set_solver.
Qed.

(** The instance: the state machine of the example node prevotes, and the kernel takes its vote. *)
Lemma exMoved_coherent l : possible (moves toyKernel exConfig l exNode) = true -> Z.of_nat (length l) < 1000 ->
  a_coherent (abs (exMoved l).(nd_sys).(sys_w)).
Proof.
  intros Hl Hlen. apply exMoved_run in Hl.
  destruct (node_run toyKernel exConfig mem_position_set ex_signerFits _ _ _ Hl (fresh_agrees exConfig _ ex_fresh))
    as (_ & n' & Hle & Hr).
  destruct (sysOK_run toyKernel _ _ _ _ n' _ _ Hr
    (sysOK_start toyKernel exNode.(nd_sys) startWorld_coherent startWorld_sound startWorld_chain ltac:(vm_compute; discriminate)
       ltac:(vm_compute; reflexivity) eq_refl)) as [[[Hcert _ _ _] _] _].
  - assert (Hv : vHeight exNode.(nd_sys).(sys_w).(w_k).(s_Voting) = 1) by (vm_compute; reflexivity). rewrite Hv. unfold two64. lia.
  - exact (cert_coherent _ _ _ _ _ _ Hcert).
Qed.

Lemma prefix_verifies (key content : bytes) : @verify toyVerify (MkPubKey "toy" key) content (key +:+ content) = true.
Proof. apply String.eqb_refl. Qed.

Definition ownPrevote : StateMachineRoundAction :=
  let content := toyContentOf (toyContent "V" (MkVoteTarget 1 0 "x")) in actPrevote (MkScopedSignature "x" content ("a" +:+ content)).

Lemma own_prevote_counted_witness :
  let nd := exMoved prevoting in
  exists w', nodestep toyKernel exConfig nd
      (MkNode (MkSystem w' nd.(nd_sys).(sys_phQ) nd.(nd_sys).(sys_calls)) nd.(nd_sm) nd.(nd_pending) []) /\
    bitsFor w'.(w_k).(s_Voting).(vrv_RV).(rv_PrevoteProofs) "x" = {[0%nat]}.
Proof.
  destruct (own_prevote_counted (KST := MemStores) toyKernel exConfig (length prevoting) exNode (exMoved prevoting) ownPrevote [] exSigner
    0 (MkValidator (MkPubKey "toy" "a") 1)) as (w' & Hst & _ & _ & _ & _ & Hb & _).
  - exact ex_fresh.
  - exact ex_signerFits.
  - reflexivity.
  - intros vt content sig. simpl. unfold PassthroughSigner_Prevote, signBytesWith.
    destruct (_ vt _) as [c|e]; [|discriminate]. intros [= <- <-]. apply prefix_verifies.
  - exact mem_position_set.
  - apply exMoved_run. vm_compute. reflexivity.
  - vm_compute. reflexivity.
  - vm_compute. reflexivity.
  - reflexivity.
  - vm_compute. reflexivity.
  - vm_compute. reflexivity.
  - apply exMoved_coherent; vm_compute; reflexivity.
  - intros hash p Hp. exfalso.
    assert (He : (exMoved prevoting).(nd_sys).(sys_w).(w_k).(s_Voting).(vrv_RV).(rv_PrevoteProofs) = Some ∅)
      by (vm_compute; reflexivity).
    pose proof (eq_trans (eq_sym (f_equal (fun m => gm_get m hash) He)) Hp) as Hn. discriminate Hn.
  - assert (Ev : rv_ValidatorSet (vrv_RV (s_Voting (w_k (sys_w (nd_sys (exMoved prevoting)))))) = toyValSet) by (vm_compute; reflexivity).
    exact (eq_ind_r distinctKeys toy_distinct Ev).
  - vm_compute. reflexivity.
  - vm_compute. reflexivity.
  - reflexivity.
  - exists w'. split; [exact Hst|]. rewrite <- (union_empty_l_L {[0%nat]}). etransitivity; [exact Hb|]. reflexivity.
Defined.
