(* ===== verification/P2P.v ===== *)
(** The libp2p connection of tm/tmp2p/tmlibp2p/connection.go: the background loop that publishes what the engine
    sends and swaps the consensus handler, and the validator that decides about each message of the topic.

    libp2p itself (the host, the topic, the peers) is outside: a published message is recorded, and the judgement
    of a message is a function of the peer it came from and its data. *)
From S2P Require Import Prelude.
From S2P Require Import Types.
From S2P Require Import RoundView.
From S2P Require Import Feedback.
From S2P Require Import Registry.
From S2P Require Import Codec.
Local Open Scope Z_scope.

(** tmcodec.MarshalCodec, as far as the connection uses it, and what it relies on. *)
Class MarshalCodec (Text : Type) := {
  mc_MarshalConsensusMessage : ConsensusMessage -> outcome (result Text);
  mc_UnmarshalConsensusMessage : Text -> outcome (result ConsensusMessage)
}.
Class MarshalCodecLaws (Text : Type) `{!MarshalCodec Text} := {
  mc_known : ConsensusMessage -> Prop;
  mc_norm : ConsensusMessage -> ConsensusMessage;
  mc_roundtrip m : mc_known m -> exists t, mc_MarshalConsensusMessage m = Ret (Ok t) /\
    mc_UnmarshalConsensusMessage t = Ret (Ok (mc_norm m))
}.

(** tmconsensus.ConsensusHandler; [St] is what a handler may change. *)
Record ConsensusHandler (St : Type) := MkHandler {
  h_HandleProposedHeader : ProposedHeader -> St -> outcome (Feedback * St);
  h_HandlePrevoteProofs : PrevoteSparseProof -> St -> outcome (Feedback * St);
  h_HandlePrecommitProofs : PrecommitSparseProof -> St -> outcome (Feedback * St)
}.
Arguments MkHandler {St}.
Arguments h_HandleProposedHeader {St}.
Arguments h_HandlePrevoteProofs {St}.
Arguments h_HandlePrecommitProofs {St}.

(** pubsub.ValidationResult. *)
Inductive ValidationResult := ValidationAccept | ValidationReject | ValidationIgnore.

Definition exchangeFeedbackToLibp2p (f : Feedback) : ValidationResult :=
  match f with
  | FeedbackAccepted => ValidationAccept
  | FeedbackRejected => ValidationReject
  | FeedbackIgnored => ValidationIgnore
  | _ => ValidationIgnore
  end.

Section connection.
Context {Text St : Type} `{!MarshalCodec Text}.

Definition verdict (r : outcome (Feedback * St)) : outcome (ValidationResult * St) :=
  '(f, st) ← r; Ret (exchangeFeedbackToLibp2p f, st).

(** The function libp2pConsensusMessageValidator returns; [h] may be nil. *)
Definition libp2pConsensusMessageValidator (selfID : bytes) (h : option (ConsensusHandler St)) (id : bytes) (data : Text) (st : St) :
  outcome (ValidationResult * St) :=
  if String.eqb id selfID then Ret (ValidationAccept, st)
  else
    cm ← mc_UnmarshalConsensusMessage data;
    match cm with
    | Err _ => Ret (ValidationIgnore, st)
    | Ok cm =>
        match cm.(cm_ProposedHeader), cm.(cm_PrevoteProof), cm.(cm_PrecommitProof), h with
        | Some ph, _, _, Some h => verdict (h.(h_HandleProposedHeader) ph st)
        | _, Some p, _, Some h => verdict (h.(h_HandlePrevoteProofs) p st)
        | _, _, Some p, Some h => verdict (h.(h_HandlePrecommitProofs) p st)
        | _, _, _, _ => verdict (Ret (FeedbackRejected, st))
        end
    end.

(** A registered topic validator: ignoreMessage, or the one of a handler. *)
Inductive TopicValidator := IgnoreMessage | ForHandler (h : ConsensusHandler St).

Definition validate (tv : TopicValidator) (selfID id : bytes) (data : Text) (st : St) : outcome (ValidationResult * St) :=
  match tv with
  | IgnoreMessage => Ret (ValidationIgnore, st)
  | ForHandler h => libp2pConsensusMessageValidator selfID (Some h) id data st
  end.

(** ** The connection

    The channels have room for one value.  [registering] is the validator the background loop is about to register,
    during which none is registered; [published] is what was handed to the topic. *)
Record Connection := MkConnection {
  outgoingProposals : list ProposedHeader;
  outgoingPrevoteProofs : list PrevoteSparseProof;
  outgoingPrecommitProofs : list PrecommitSparseProof;
  setConsensusHandlerRequests : list (option (ConsensusHandler St));
  registering : option TopicValidator;
  topicValidator : option TopicValidator;
  published : list Text
}.

(** NewConnection; the background goroutine first registers the validator that ignores. *)
Definition NewConnection : Connection := MkConnection [] [] [] [] (Some IgnoreMessage) None [].

Definition requestedValidator (h : option (ConsensusHandler St)) : TopicValidator :=
  match h with None => IgnoreMessage | Some h => ForHandler h end.

(** What happens: sends on the channels, and the cases of the background loop; [ok] tells whether Publish
    succeeded. *)
Inductive ConnEvent :=
| SendProposal (ph : ProposedHeader) | SendPrevotes (p : PrevoteSparseProof) | SendPrecommits (p : PrecommitSparseProof)
| RequestHandler (h : option (ConsensusHandler St))
| TakeProposal (ok : bool) | TakePrevotes (ok : bool) | TakePrecommits (ok : bool)
| TakeRequest | RegisterValidator.

Definition publishMessage (m : ConsensusMessage) (ok : bool) (c : Connection) : outcome Connection :=
  b ← mc_MarshalConsensusMessage m;
  match b with
  | Err _ => Ret c
  | Ok b => Ret (if ok then {| c with published := c.(published) ++ [b] |} else c)
  end.

(** The loop is at its select. *)
Definition atSelect (c : Connection) : bool := match c.(registering) with None => true | Some _ => false end.

(** The state after an event; None when it cannot happen: a send that blocks, a case that is not ready. *)
Definition connStep (e : ConnEvent) (c : Connection) : option (outcome Connection) :=
  match e with
  | SendProposal ph => match c.(outgoingProposals) with [] => Some (Ret {| c with outgoingProposals := [ph] |}) | _ => None end
  | SendPrevotes p => match c.(outgoingPrevoteProofs) with [] => Some (Ret {| c with outgoingPrevoteProofs := [p] |}) | _ => None end
  | SendPrecommits p => match c.(outgoingPrecommitProofs) with [] => Some (Ret {| c with outgoingPrecommitProofs := [p] |}) | _ => None end
  | RequestHandler h =>
      match c.(setConsensusHandlerRequests) with [] => Some (Ret {| c with setConsensusHandlerRequests := [h] |}) | _ => None end
  | TakeProposal ok =>
      match atSelect c, c.(outgoingProposals) with
      | true, ph :: l => Some (publishMessage (MkMessage (Some ph) None None) ok {| c with outgoingProposals := l |})
      | _, _ => None
      end
  | TakePrevotes ok =>
      match atSelect c, c.(outgoingPrevoteProofs) with
      | true, p :: l => Some (publishMessage (MkMessage None (Some p) None) ok {| c with outgoingPrevoteProofs := l |})
      | _, _ => None
      end
  | TakePrecommits ok =>
      match atSelect c, c.(outgoingPrecommitProofs) with
      | true, p :: l => Some (publishMessage (MkMessage None None (Some p)) ok {| c with outgoingPrecommitProofs := l |})
      | _, _ => None
      end
  | TakeRequest =>
      match atSelect c, c.(setConsensusHandlerRequests) with
      | true, h :: l => Some (Ret {| c with setConsensusHandlerRequests := l; topicValidator := None; registering := Some (requestedValidator h) |})
      | _, _ => None
      end
  | RegisterValidator =>
      match c.(registering) with
      | Some tv => Some (Ret {| c with topicValidator := Some tv; registering := None |})
      | None => None
      end
  end.

Inductive connRun : list ConnEvent -> Connection -> Prop :=
| connRun_new : connRun [] NewConnection
| connRun_step h e c c' : connRun h c -> connStep e c = Some (Ret c') -> connRun (h ++ [e]) c'.

(** Runs of given events, computed. *)
Fixpoint runEvents (es : list ConnEvent) (c : Connection) : option Connection :=
  match es with
  | [] => Some c
  | e :: es => match connStep e c with Some (Ret c') => runEvents es c' | _ => None end
  end.

Lemma runEvents_run es h c c' : connRun h c -> runEvents es c = Some c' -> connRun (h ++ es) c'.
Proof.
  revert h c. induction es as [|e es IH]; intros h c Hr; cbn [runEvents].
  - intros [= <-]. by rewrite app_nil_r.
  - destruct (connStep e c) as [[c1|]|] eqn:Es; [|done..]. intros He. rewrite cons_middle, app_assoc. eapply IH; [|done].
    by eapply connRun_step.
Qed.
End connection.
Arguments TopicValidator : clear implicits.
Arguments Connection : clear implicits.
Arguments ConnEvent : clear implicits.

(** * From one connection to another *)
Section delivery.
Context {Text St : Type} `{!MarshalCodec Text, !MarshalCodecLaws Text}.
Notation Event := (ConnEvent St).
Notation Conn := (Connection Text St).

(** The handler's method for the kind of message, and its feedback translated. *)
Definition handled (h : ConsensusHandler St) (m : ConsensusMessage) (st : St) : outcome (ValidationResult * St) :=
  match m with
  | MkMessage (Some ph) _ _ => verdict (h.(h_HandleProposedHeader) ph st)
  | MkMessage None (Some p) _ => verdict (h.(h_HandlePrevoteProofs) p st)
  | MkMessage None None (Some p) => verdict (h.(h_HandlePrecommitProofs) p st)
  | MkMessage None None None => Ret (ValidationReject, st)
  end.

(** The text of a message: any other connection with a handler hands it the message, in the form [norm] in which
    the codec reads it back. *)
Definition delivers (norm : ConsensusMessage -> ConsensusMessage) (m : ConsensusMessage) (t : Text) : Prop :=
  mc_MarshalConsensusMessage m = Ret (Ok t) /\
  forall selfID h id st, id <> selfID -> validate (ForHandler h) selfID id t st = handled h (norm m) st.

Lemma known_delivers m : mc_known m -> exists t, mc_MarshalConsensusMessage m = Ret (Ok t) /\ delivers mc_norm m t.
Proof.
  intros (t & Hm & Hu)%mc_roundtrip. exists t. split; [done|]. split; [done|]. intros selfID h id st Hid.
  unfold validate, libp2pConsensusMessageValidator. rewrite (proj2 (String.eqb_neq _ _) Hid), Hu. simpl.
  by destruct (mc_norm m) as [[ph|] [p|] [q|]].
Qed.

(** What was sent on each channel. *)
Definition proposalSent (e : Event) : option ProposedHeader := match e with SendProposal ph => Some ph | _ => None end.
Definition prevotesSent (e : Event) : option PrevoteSparseProof := match e with SendPrevotes p => Some p | _ => None end.
Definition precommitsSent (e : Event) : option PrecommitSparseProof := match e with SendPrecommits p => Some p | _ => None end.

(** The engine sends what the codec can write. *)
Definition writable (known : ConsensusMessage -> Prop) (e : Event) : Prop :=
  match e with
  | SendProposal ph => known (MkMessage (Some ph) None None)
  | SendPrevotes p => known (MkMessage None (Some p) None)
  | SendPrecommits p => known (MkMessage None None (Some p))
  | _ => True
  end.

(** What the loop took from its channels: the kind of the message, and whether Publish succeeded. *)
Definition isTake (e : Event) : bool :=
  match e with TakeProposal _ | TakePrevotes _ | TakePrecommits _ => true | _ => false end.
Definition takes (e : Event) (x : ConsensusMessage * bool) : Prop :=
  match e, x.1 with
  | TakeProposal ok, MkMessage (Some _) None None | TakePrevotes ok, MkMessage None (Some _) None
  | TakePrecommits ok, MkMessage None None (Some _) => ok = x.2
  | _, _ => False
  end.
Definition succeeded (x : ConsensusMessage * bool) : option ConsensusMessage := if x.2 then Some x.1 else None.

(** The messages taken so far are, channel by channel, those sent and no longer waiting, and those for which
    Publish succeeded are published. *)
Record inOrder (h : list Event) (c : Conn) (ms : list (ConsensusMessage * bool)) : Prop := {
  io_takes : Forall2 takes (List.filter isTake h) ms;
  io_texts : Forall2 (delivers mc_norm) (omap succeeded ms) c.(published);
  io_proposals : omap proposalSent h = omap cm_ProposedHeader (map fst ms) ++ c.(outgoingProposals);
  io_prevotes : omap prevotesSent h = omap cm_PrevoteProof (map fst ms) ++ c.(outgoingPrevoteProofs);
  io_precommits : omap precommitsSent h = omap cm_PrecommitProof (map fst ms) ++ c.(outgoingPrecommitProofs)
}.

(** Everything waiting can be written. *)
Definition waitingKnown (c : Conn) : Prop :=
  Forall (fun ph => mc_known (MkMessage (Some ph) None None)) c.(outgoingProposals) /\
  Forall (fun p => mc_known (MkMessage None (Some p) None)) c.(outgoingPrevoteProofs) /\
  Forall (fun p => mc_known (MkMessage None None (Some p))) c.(outgoingPrecommitProofs).

Lemma publish_known m ok (c c' : Conn) : mc_known m -> publishMessage m ok c = Ret c' ->
  exists t, delivers mc_norm m t /\ c' = {| c with published := c.(published) ++ (if ok then [t] else []) |}.
Proof.
  intros (t & Hm & Hd)%known_delivers. unfold publishMessage. rewrite Hm. simpl.
  intros [= <-]. exists t. split; [done|]. destruct ok; [done|]. destruct c. by rewrite app_nil_r.
Qed.

(** An event that sends and takes nothing. *)
Lemma inOrder_idle h e (c c' : Conn) ms : isTake e = false -> proposalSent e = None -> prevotesSent e = None ->
  precommitsSent e = None -> outgoingProposals c' = outgoingProposals c ->
  outgoingPrevoteProofs c' = outgoingPrevoteProofs c -> outgoingPrecommitProofs c' = outgoingPrecommitProofs c ->
  published c' = published c -> inOrder h c ms -> inOrder (h ++ [e]) c' ms.
Proof.
  intros E0 E1 E2 E3 H1 H2 H3 H4 [K T P1 P2 P3].
  split; rewrite ?H1, ?H2, ?H3, ?H4, ?omap_app, ?List.filter_app; simpl; rewrite ?E0, ?E1, ?E2, ?E3, ?app_nil_r; done.
Qed.

(** The message [m] is taken by [e]; [q] says what was sent and is still waiting. *)
Lemma takes_snoc h e ms m ok (pub : list Text) t : Forall2 takes (List.filter isTake h) ms -> isTake e = true -> takes e (m, ok) ->
  Forall2 (delivers mc_norm) (omap succeeded ms) pub -> delivers mc_norm m t ->
  Forall2 takes (List.filter isTake (h ++ [e])) (ms ++ [(m, ok)]) /\
  Forall2 (delivers mc_norm) (omap succeeded (ms ++ [(m, ok)])) (pub ++ if ok then [t] else []).
Proof.
  intros K E Ht T Hd. rewrite List.filter_app, omap_app. simpl. rewrite E. split; apply Forall2_app; try done; [by constructor|].
  unfold succeeded. simpl. destruct ok; [by constructor|by apply Forall2_nil_2].
Qed.

Lemma connStep_inOrder h e c c' ms : writable mc_known e -> waitingKnown c -> inOrder h c ms -> connStep e c = Some (Ret c') ->
  waitingKnown c' /\ exists ms', inOrder (h ++ [e]) c' ms'.
Proof.
  intros He (W1 & W2 & W3) Hio Hs. unfold waitingKnown. pose proof Hio as [K T P1 P2 P3].
  destruct c as [op opv opc reqs reg tv pub].
  destruct e as [ph|p|p|hd|ok|ok|ok| |]; cbn [connStep writable outgoingProposals outgoingPrevoteProofs outgoingPrecommitProofs published] in *.
  - destruct op; [|done]. injection Hs as <-. simpl. split; [by split; [constructor|]|]. exists ms.
    split; simpl; rewrite ?omap_app, ?List.filter_app, ?P1, ?P2, ?P3; simpl; rewrite ?app_nil_r; done.
  - destruct opv; [|done]. injection Hs as <-. simpl. split; [by split; [|split; [constructor|]]|]. exists ms.
    split; simpl; rewrite ?omap_app, ?List.filter_app, ?P1, ?P2, ?P3; simpl; rewrite ?app_nil_r; done.
  - destruct opc; [|done]. injection Hs as <-. simpl. split; [by split; [|split; [|constructor]]|]. exists ms.
    split; simpl; rewrite ?omap_app, ?List.filter_app, ?P1, ?P2, ?P3; simpl; rewrite ?app_nil_r; done.
  - cbn in Hs. destruct reqs; [|done]. injection Hs as <-. split; [done|]. exists ms. by eapply inOrder_idle, Hio.
  - destruct reg; [done|]. destruct op as [|ph op]; [done|]. injection Hs as Hs. apply Forall_cons in W1 as [K1 W1].
    apply (publish_known _ _ _ _ K1) in Hs as (t & Ht & ->). simpl in *. split; [done|].
    destruct (takes_snoc h (TakeProposal ok) ms (MkMessage (Some ph) None None) ok pub t K eq_refl eq_refl T Ht) as [K' T'].
    eexists. split; [exact K'|exact T'|..]; simpl; rewrite ?map_app, ?omap_app; simpl; rewrite ?P1, ?P2, ?P3, ?app_nil_r, <- ?app_assoc; done.
  - destruct reg; [done|]. destruct opv as [|p opv]; [done|]. injection Hs as Hs. apply Forall_cons in W2 as [K2 W2].
    apply (publish_known _ _ _ _ K2) in Hs as (t & Ht & ->). simpl in *. split; [done|].
    destruct (takes_snoc h (TakePrevotes ok) ms (MkMessage None (Some p) None) ok pub t K eq_refl eq_refl T Ht) as [K' T'].
    eexists. split; [exact K'|exact T'|..]; simpl; rewrite ?map_app, ?omap_app; simpl; rewrite ?P1, ?P2, ?P3, ?app_nil_r, <- ?app_assoc; done.
  - destruct reg; [done|]. destruct opc as [|p opc]; [done|]. injection Hs as Hs. apply Forall_cons in W3 as [K3 W3].
    apply (publish_known _ _ _ _ K3) in Hs as (t & Ht & ->). simpl in *. split; [done|].
    destruct (takes_snoc h (TakePrecommits ok) ms (MkMessage None None (Some p)) ok pub t K eq_refl eq_refl T Ht) as [K' T'].
    eexists. split; [exact K'|exact T'|..]; simpl; rewrite ?map_app, ?omap_app; simpl; rewrite ?P1, ?P2, ?P3, ?app_nil_r, <- ?app_assoc; done.
  - destruct reg; [done|]. cbn in Hs. destruct reqs; [done|]. injection Hs as <-. split; [done|]. exists ms. by eapply inOrder_idle, Hio.
  - cbn in Hs. destruct reg; [|done]. injection Hs as <-. split; [done|]. exists ms. by eapply inOrder_idle, Hio.
Qed.

Lemma connRun_inOrder h c : connRun h c -> Forall (writable mc_known) h -> waitingKnown c /\ exists ms, inOrder h c ms.
Proof.
  induction 1 as [|h e c c' _ IH Hs]; intros Hf.
  - split; [repeat split; apply Forall_nil_2|]. exists []. split; [apply Forall2_nil_2..|reflexivity|reflexivity|reflexivity].
  - apply Forall_app in Hf as [Hf He]. rewrite Forall_singleton in He. destruct (IH Hf) as [Hw [ms Hms]].
    exact (connStep_inOrder h e c c' ms He Hw Hms Hs).
Qed.
End delivery.

(** * The JSON codec on the wire *)
Section json.
Context {Text : Type} `{!JSON Text jsonProposedHeader, !JSON Text jsonSparseProof, !JSON Text (jsonConsensusMessage Text)}.
Context (reg : Registry) (ord : Order).

(** The arrays of the byte slices read are those encoding/json allocates; there are no line breaks in the base64
    text of a key, which would make its array longer. *)
#[local] Instance jsonCodec : MarshalCodec Text := {
  mc_MarshalConsensusMessage m := t ← MarshalConsensusMessage reg ord m; Ret (Ok t);
  mc_UnmarshalConsensusMessage := UnmarshalConsensusMessage reg base64Spare
}.

Context (Hord : isOrder ord).
Lemma jsonCodec_roundtrip m : knownMessage reg m -> exists t, mc_MarshalConsensusMessage m = Ret (Ok t) /\
  mc_UnmarshalConsensusMessage t = Ret (Ok (wholeMessage m)).
Proof. intros Hm. destruct (message_roundtrip reg ord m Hord Hm) as (t & Ht & Hu). exists t. simpl. by rewrite Ht, Hu. Qed.

Definition jsonCodecLaws : MarshalCodecLaws Text :=
  {| mc_known := knownMessage reg; mc_norm := wholeMessage; mc_roundtrip := jsonCodec_roundtrip |}.

(** A proposed header that only names a proposer key. *)
Definition keyOnly (key : bytes) : jsonProposedHeader :=
  let noProof := MkJCommitProof 0 None [] in let noSet := MkJValidatorSet [] nilHash nilHash in
  MkJProposedHeader (MkJHeader nilHash nilHash 0 noProof noSet noSet nilHash nilHash nilHash nilHash) 0 (Some key) nilHash nilHash nilHash.

(** A key that is too short to be unmarshalled: its array is too short for a prefix, or the seven bytes it has
    are, with the NUL byte that follows them, the prefix of a registered type. *)
Definition shortKey (key : bytes) : Prop :=
  (String.length key < 7)%nat \/ String.length key = 7%nat /\ is_Some (gm_get reg.(byPrefix) (trimRight key)).

Lemma trimRight_NUL b : trimRight (b +:+ String NUL EmptyString) = trimRight b.
Proof. induction b as [|c b IH]; [done|]. change (trimRight (String c (b +:+ String NUL EmptyString)) = trimRight (String c b)). cbn [trimRight]. by rewrite IH. Qed.

Lemma shortKey_panics key : shortKey key ->
  Unmarshal key (base64Spare key) reg = Panic "runtime error: slice bounds out of range".
Proof.
  intros Hk. unfold Unmarshal. assert (Hl : (String.length key < 8)%nat) by (destruct Hk as [|[]]; lia).
  rewrite (proj2 (splitAt_None prefixSize key) Hl). destruct Hk as [Hk|[Hk [fn Hfn]]].
  - rewrite (proj2 (splitAt_None _ _)); [done|]. rewrite append_length. unfold base64Spare, prefixSize.
    do 7 (destruct key as [|? key]; [vm_compute; lia|]). simpl in Hk. lia.
  - assert (Hs : splitAt prefixSize (key +:+ base64Spare key) = Some (key +:+ String NUL EmptyString, String NUL EmptyString)).
    { unfold base64Spare. rewrite Hk. change (zeros _) with (String NUL EmptyString +:+ String NUL EmptyString).
      rewrite <- append_assoc. replace prefixSize with (String.length (key +:+ String NUL EmptyString)) by (rewrite append_length, Hk; done).
      apply splitAt_app. }
    rewrite Hs, trimRight_NUL, Hfn. done.
Qed.

Lemma keyOnly_panics key : shortKey key ->
  ToProposedHeader reg base64Spare (keyOnly key) = Panic "runtime error: slice bounds out of range".
Proof. intros Hk. unfold ToProposedHeader. simpl. by rewrite shortKey_panics. Qed.

End json.

(** C33: what is sent arrives.  In every run of a connection with the JSON codec whose engine sends proposed headers
    only with keys of registered types (of names of at most eight bytes), whatever the order in which the channels are
    served and the handler is swapped, and whichever calls of Publish fail: there is one message for each time the
    loop took something from a channel, of the channel's kind, and channel by channel these are what was sent, in
    order, all but the values still waiting.  The texts published are exactly those of the messages for which Publish
    succeeded, in the order they were taken.  And on any other connection with a handler, the validator decodes such a
    text to that very message (a nil map of proofs comes as an empty one), hands it to the handler's method for its
    kind, and answers with the translated feedback of that method. *)
Theorem published_message_delivered {Text St : Type}
  `{!JSON Text jsonProposedHeader, !JSON Text jsonSparseProof, !JSON Text (jsonConsensusMessage Text)}
  (reg : Registry) (ord : Order) (h : list (ConnEvent St)) (c : Connection Text St) :
  isOrder ord -> connRun (MarshalCodec0 := jsonCodec reg ord) h c -> Forall (writable (knownMessage reg)) h ->
  exists ms : list (ConsensusMessage * bool),
    Forall2 takes (List.filter isTake h) ms /\
    omap proposalSent h = omap cm_ProposedHeader (map fst ms) ++ c.(outgoingProposals) /\
    omap prevotesSent h = omap cm_PrevoteProof (map fst ms) ++ c.(outgoingPrevoteProofs) /\
    omap precommitsSent h = omap cm_PrecommitProof (map fst ms) ++ c.(outgoingPrecommitProofs) /\
    Forall2 (fun m t => MarshalConsensusMessage reg ord m = Ret t /\
      forall selfID id (hd : ConsensusHandler St) st, id <> selfID ->
        validate (MarshalCodec0 := jsonCodec reg ord) (ForHandler hd) selfID id t st = handled hd (wholeMessage m) st)
      (omap succeeded ms) c.(published).
Proof.
  intros Hord Hrun Hf. pose (laws := jsonCodecLaws (Text := Text) reg ord Hord).
  destruct (connRun_inOrder (MarshalCodecLaws0 := laws) h c Hrun Hf) as [_ [ms [? T ? ? ?]]]. exists ms. split_and!; try done.
  eapply Forall2_impl; [exact T|]. intros m t [Hm Hd]. simpl in Hm. split; [|intros; by apply Hd].
  destruct (MarshalConsensusMessage reg ord m); [|done]. simpl in Hm. by injection Hm as ->.
Qed.

(** ** A run *)
#[local] Existing Instance toyHeaderJSON.
#[local] Existing Instance toyProposedJSON.
#[local] Existing Instance toySparseJSON.
#[local] Existing Instance toyMessageJSON.


Lemma toyOrder_isOrder : isOrder toyOrder.
Proof. intros m. reflexivity. Qed.

Definition wireHeader : ProposedHeader :=
  MkProposedHeader codecHeader 0 (Some (MkPubKey ed25519TypeName "a")) (MkAnnotations "u" "d") "sig".
Definition wirePrevotes (h : bytes) : PrevoteSparseProof := MkPrevoteSparse 1 0 "h" (Some {[h := [MkSparseSignature "01" "s"]]}).
(** The first prevotes are lost. *)
Definition wireEvents : list (ConnEvent nat) :=
  [SendProposal wireHeader; RegisterValidator; SendPrevotes (wirePrevotes "x"); TakePrevotes false; TakeProposal true;
   SendPrevotes (wirePrevotes "y"); TakePrevotes true; SendPrevotes (wirePrevotes "z")].
Definition wireConn : Connection toyText nat :=
  default NewConnection (runEvents (MarshalCodec0 := jsonCodec (RegisterEd25519 Registry_zero) toyOrder) wireEvents NewConnection).

Lemma published_message_delivered_witness :
  length wireConn.(published) = 2%nat /\ exists ms : list (ConsensusMessage * bool), length ms = 3%nat /\
    [wirePrevotes "x"; wirePrevotes "y"; wirePrevotes "z"] = omap cm_PrevoteProof (map fst ms) ++ [wirePrevotes "z"] /\
    length (omap succeeded ms) = 2%nat.
Proof.
  pose (wireCodec := jsonCodec (Text := toyText) (RegisterEd25519 Registry_zero) toyOrder).
  assert (Hrun : connRun (MarshalCodec0 := wireCodec) wireEvents wireConn).
  { apply (runEvents_run (MarshalCodec0 := wireCodec) wireEvents [] NewConnection); [apply connRun_new|reflexivity]. }
  assert (Hf : Forall (writable (knownMessage (RegisterEd25519 Registry_zero))) wireEvents).
  { repeat constructor; try exact I; try exact (ed25519_registered Registry_zero "a"). }
  destruct (published_message_delivered (RegisterEd25519 Registry_zero) toyOrder wireEvents wireConn toyOrder_isOrder Hrun Hf)
    as (ms & Ht & _ & Hp & _ & Hd).
  split; [vm_compute; reflexivity|]. exists ms. split; [exact (eq_sym (Forall2_length _ _ _ Ht))|]. split; [exact Hp|].
  exact (Forall2_length _ _ _ Hd).
Defined.
