(* ===== verification/Agreement.v ===== *)
(** Forks: what two nodes that commit different headers leave behind.  Every header a mirror commits is certified:
    validators with ByzantineMajority of the power signed a precommit for it in one round (KernelCommit.v).  Here the
    chains of two mirrors are compared: as long as they agree on the headers so far they have the same validators, so
    the two majorities behind a first difference have a third of the power in common.  No lock is kept by the mirror
    or the state machine; two runs that disagree across rounds, with no validator signing twice in one, are at the
    end. *)
From S2P Require Import Prelude Types BitSets Powers SigProof SimpleProofs VoteSummary RoundView.
From S2P Require Import Stores Managers KState KernelBase Kernel KernelHandlers KernelLoop Mirror.
From S2P Require Import KernelExample KernelSpec KernelRefine KernelSafety KernelTheorems KernelCommit MirrorSystem.
From stdpp Require Import relations.
Local Open Scope Z_scope.

Section votes.
Context {P B : Type} `{CMSPLaws P B} (k : Kernel) (vals : ValidatorSet) (h : Z).

(** Validator [i] signed a prevote or a precommit for a block hash in a round of height [h]. *)
Definition prevoted (i : nat) (r : Z) (x : bytes) : Prop :=
  exists c, PrevoteSignBytes (MkVoteTarget h r x) k.(k_sigScheme) = Ok c /\ signedBy vals.(Validators) c i.
Definition precommitted (i : nat) (r : Z) (x : bytes) : Prop :=
  exists c, PrecommitSignBytes (MkVoteTarget h r x) k.(k_sigScheme) = Ok c /\ signedBy vals.(Validators) c i.

Definition majorityOf (Q : nat -> Prop) : Prop :=
  exists maj (S : gset nat), ByzantineMajority (u64 (totalPowerZ vals.(Validators))) = Ret maj /\
    maj <= u64 (powerIn vals.(Validators) S 0) /\ forall i, i ∈ S -> Q i.

(** Two majorities have ByzantineMinority of the power in common. *)
Lemma majorities_overlap (Q R : nat -> Prop) : powers_ok vals.(Validators) -> majorityOf Q -> majorityOf R ->
  exists min (D : gset nat), ByzantineMinority (totalPowerZ vals.(Validators)) = Ret min /\
    min <= powerIn vals.(Validators) D 0 /\ forall i, i ∈ D -> Q i /\ R i.
Proof.
  intros Hok (maj & S1 & HM & Hp1 & HQ) (maj2 & S2 & HM2 & Hp2 & HR). assert (maj2 = maj) as -> by congruence.
  pose proof (powers_ok_nonneg _ Hok) as Hn. pose proof (proj2 Hok) as Hlt.
  pose proof (powerIn_nonneg vals.(Validators) S1 0 Hn). pose proof (powerIn_nonneg vals.(Validators) S2 0 Hn).
  pose proof (powerIn_le_total vals.(Validators) S1 0 Hn). pose proof (powerIn_le_total vals.(Validators) S2 0 Hn).
  pose proof (powerIn_le_total vals.(Validators) (S1 ∪ S2) 0 Hn).
  rewrite u64_small in HM, Hp1, Hp2 by (unfold is_u64; lia).
  assert (Hne : 0 < totalPowerZ vals.(Validators)).
  { unfold ByzantineMajority in HM. destruct (Z.eqb_spec (totalPowerZ vals.(Validators)) 0); [discriminate|lia]. }
  destruct (ByzantineMinority_ret _ (conj Hne Hlt)) as (min & Hmin & _). exists min, (S1 ∩ S2). split; [done|].
  pose proof (two_majorities _ _ _ (conj Hne Hlt) HM Hmin) as Htwo.
  pose proof (powerIn_union_inter vals.(Validators) S1 S2 0) as Hui. split; [lia|set_solver].
Qed.

Lemma certified_majority r hd : certifiedBy k vals r hd -> hd.(Height) = h ->
  majorityOf (fun i => precommitted i r hd.(Hash)).
Proof.
  intros (Hne & c & maj & S & Hc & HM & Hp & Hs) Hh. exists maj, S. split; [done|]. split; [done|].
  intros i Hi. exists c. split; [by rewrite <- Hh|by apply Hs].
Qed.
End votes.

(** * Two chains *)
Section chains.
Context {P B ST : Type} `{CMSPLaws P B, !KernelStores ST, !KernelStoresLaws ST} (k : Kernel).

(** The certificates of consecutive headers, each a round and a header, from the validators [vals] of height [h] to
    the validators [vals'] of height [h']. *)
Fixpoint certificates (vals : ValidatorSet) (h : Z) (l : list (Z * Header)) (vals' : ValidatorSet) (h' : Z) : Prop :=
  match l with
  | [] => vals' = vals /\ h' = h
  | (r, hd) :: l =>
      hd.(Height) = h /\ certifiedBy k vals r hd /\ certificates hd.(NextValidatorSet) (u64 (h + 1)) l vals' h'
  end.

Lemma certificates_snoc vals h l vals' h' r hd : certificates vals h l vals' h' -> hd.(Height) = h' ->
  certifiedBy k vals' r hd -> certificates vals h (l ++ [(r, hd)]) hd.(NextValidatorSet) (u64 (h' + 1)).
Proof.
  revert vals h. induction l as [|[r0 hd0] l IH]; intros vals h; simpl.
  - by intros [-> ->] Hh Hc.
  - intros (Hh0 & Hc0 & Hl) Hh Hc. split_and!; [done..|by apply IH].
Qed.

Lemma certificates_height vals h l vals' h' : certificates vals h l vals' h' -> 0 <= h ->
  h + Z.of_nat (length l) < two64 -> h' = h + Z.of_nat (length l).
Proof.
  revert vals h. induction l as [|[r hd] l IH]; intros vals h; simpl.
  - intros [_ ->]. lia.
  - intros (_ & _ & Hl) Hh Hlt. rewrite u64_small in Hl by (unfold is_u64; lia). rewrite (IH _ _ Hl); lia.
Qed.

(** The hashes of a chain, and the validators it names for the header at an index. *)
Definition hashes (l : list (Z * Header)) : list bytes := map (fun c => c.2.(Hash)) l.
Definition namedVals (vals0 : ValidatorSet) (l : list (Z * Header)) (i : nat) : option ValidatorSet :=
  match i with O => Some vals0 | S j => NextValidatorSet ∘ snd <$> l !! j end.

(** The first place where two chains differ: there the hashes differ, and the validators of both are the same; or the
    hashes are the same, of headers that name different validators. *)
Definition differAt (vals0 : ValidatorSet) (l1 l2 : list (Z * Header)) (i : nat) (c1 c2 : Z * Header) : Prop :=
  l1 !! i = Some c1 /\ l2 !! i = Some c2 /\ hashes (take i l1) = hashes (take i l2) /\ c1.2.(Height) = c2.2.(Height) /\
  exists vals, namedVals vals0 l1 i = Some vals /\ namedVals vals0 l2 i = Some vals /\
    certifiedBy k vals c1.1 c1.2 /\ certifiedBy k vals c2.1 c2.2.

Lemma chains_differ vals0 h0 l1 l2 vals1 hh1 vals2 hh2 :
  certificates vals0 h0 l1 vals1 hh1 -> certificates vals0 h0 l2 vals2 hh2 ->
  hashes l1 `prefix_of` hashes l2 \/ hashes l2 `prefix_of` hashes l1 \/
  exists i c1 c2, differAt vals0 l1 l2 i c1 c2 /\
    (c1.2.(Hash) <> c2.2.(Hash) \/ c1.2.(Hash) = c2.2.(Hash) /\ c1.2.(NextValidatorSet) <> c2.2.(NextValidatorSet)).
Proof.
  revert vals0 h0 l2. induction l1 as [|[r1 hd1] l1 IH]; intros vals0 h0 l2 Hl1 Hl2; [left; apply prefix_nil|].
  destruct l2 as [|[r2 hd2] l2]; [right; left; apply prefix_nil|].
  destruct Hl1 as (Hh1 & Hc1 & Hl1), Hl2 as (Hh2 & Hc2 & Hl2).
  assert (Hd : differAt vals0 ((r1, hd1) :: l1) ((r2, hd2) :: l2) 0 (r1, hd1) (r2, hd2)).
  { split_and!; [done..|simpl; congruence|]. by exists vals0. }
  destruct (decide (hd1.(Hash) = hd2.(Hash))) as [Eh|Hne]; [|right; right; exists 0%nat, (r1, hd1), (r2, hd2); auto].
  destruct (decide (hd1.(NextValidatorSet) = hd2.(NextValidatorSet))) as [En|Hne];
    [|right; right; exists 0%nat, (r1, hd1), (r2, hd2); auto].
  rewrite <- En in Hl2.
  destruct (IH _ _ _ Hl1 Hl2) as [Hp|[Hp|(i & c1 & c2 & (E1 & E2 & Ht & Hh & vals & N1 & N2 & Hc) & Hx)]].
  - left. simpl. rewrite Eh. by apply prefix_cons.
  - right; left. simpl. rewrite Eh. by apply prefix_cons.
  - right; right. exists (S i), c1, c2. split; [|done]. split_and!; [done|done|simpl; by rewrite Eh, Ht|done|].
    exists vals. destruct i as [|i]; simpl in *; [|done]. by rewrite <- En.
Qed.

(** A mirror at the start of a run of [n] steps: a kernel with coherent views and sound precommits, no call running,
    and [n] heights to go. *)
Record startsAt (n : nat) (sys : System P ST) (hd0 : Header) (vals0 : ValidatorSet) (h0 : Z) : Prop := {
  st_coherent : coherent sys.(sys_w).(w_k);
  st_sound : a_sound k (abs sys.(sys_w));
  st_chain : a_chain (abs sys.(sys_w));
  st_header : sys.(sys_w).(w_k).(CommittingHeader) = hd0;
  st_vals : votingVals sys.(sys_w).(w_k) = vals0;
  st_height : vHeight sys.(sys_w).(w_k).(s_Voting) = h0;
  st_range : 0 <= h0 /\ h0 + Z.of_nat n < two64;
  st_below : vHeight sys.(sys_w).(w_k).(s_Committing) < h0;
  st_calls : sys.(sys_calls) = []
}.

(** What a mirror has committed since: the certificates of one header for each height between the start and the
    voting height, the last of which is the committing header. *)
Definition listed (hd0 : Header) (vals0 : ValidatorSet) (h0 : Z) (a : AState P) (l : list (Z * Header)) : Prop :=
  certificates vals0 h0 l a.(aV).(rv_ValidatorSet) a.(aV).(rv_Height) /\ last (hd0 :: map snd l) = Some a.(aCH).
Definition committedChain (hd0 : Header) (vals0 : ValidatorSet) (h0 : Z) (w : World P ST) (l : list (Z * Header)) : Prop :=
  certificates vals0 h0 l (votingVals w.(w_k)) (vHeight w.(w_k).(s_Voting)) /\
  last (hd0 :: map snd l) = Some w.(w_k).(CommittingHeader) /\
  vHeight w.(w_k).(s_Voting) = h0 + Z.of_nat (length l).

Section run.
Context (hd0 : Header) (vals0 : ValidatorSet) (h0 : Z) (log0 : Z -> option Header).
Notation certified := (a_certified k hd0 vals0 h0 log0).
Notation listed := (listed hd0 vals0 h0).

Lemma astep_listed lb a b l : astep (precommit_ok k) lb a b -> certified a -> listed a l ->
  exists l', listed b (l ++ l') /\ (length l' <= match lb with LCommit => 1 | _ => 0 end)%nat.
Proof.
  intros Hst [Hc Hs Hh _ _] [Hl Hlast]. pose proof (ac_vals _ Hc) as Hv. pose proof (ac_height _ Hc) as Hht.
  destruct Hst as
    [a b [Ev En Ec Ech El]|ph a Hph|ph a Hph|proofs vs a Hne Hp|proofs vs a Hne Hp|
     proofs vs a Hne Hnew Hp|proofs vs a Hne Hnew Hp|c a|a Hreason|r a Hlt|ph c n a Hg _ _ _ _ _|
     b a Ev En Ec Ech Hsv Hfr];
    try (exists []; rewrite app_nil_r; split; [|simpl; lia]; split; simpl; rewrite ?Ev, ?Ech, ?Hv, ?Hht; done).
  exists [(a.(aV).(rv_Round), ph.(ph_Header))]. split; [|simpl; lia]. split.
  - simpl. eapply certificates_snoc; [exact Hl| |by apply commit_certified; [apply Hc|..]].
    apply Hh. left. apply Hg.
  - rewrite map_app. simpl. by rewrite app_comm_cons, last_snoc.
Qed.

Lemma crun_listed j n a b l : crun (precommit_ok k) j n a b -> certified a -> listed a l ->
  exists l', listed b (l ++ l') /\ (length l' <= n)%nat.
Proof.
  intros Hr. revert l. induction Hr as [n a|lb n a b c Hs _ Hne _ IH|n a b c Hs _ IH]; intros l Hc Hl.
  - exists []. rewrite app_nil_r. split; [done|simpl; lia].
  - destruct (astep_listed _ _ _ _ Hs Hc Hl) as (l1 & Hl1 & Hn1).
    destruct (IH _ (a_certified_step _ _ _ _ _ _ _ _ Hs Hc) Hl1) as (l2 & Hl2 & Hn2).
    rewrite <- app_assoc in Hl2. exists (l1 ++ l2). split; [done|]. rewrite length_app. destruct lb; [lia..|done].
  - destruct (astep_listed _ _ _ _ Hs Hc Hl) as (l1 & Hl1 & Hn1).
    destruct (IH _ (a_certified_step _ _ _ _ _ _ _ _ Hs Hc) Hl1) as (l2 & Hl2 & Hn2).
    rewrite <- app_assoc in Hl2. exists (l1 ++ l2). split; [done|]. rewrite length_app. lia.
Qed.

Lemma run_listed n sys sys' l : nsteps (sysstep k) n sys sys' -> sysOK k hd0 vals0 h0 log0 sys ->
  vHeight sys.(sys_w).(w_k).(s_Voting) + Z.of_nat n < two64 -> listed (abs sys.(sys_w)) l ->
  exists l', listed (abs sys'.(sys_w)) (l ++ l') /\ (length l' <= n)%nat.
Proof.
  intros Hr. revert l. induction Hr as [sys|n sys sys1 sys' Hs Hr IH]; intros l Hok Hn Hl.
  { exists []. rewrite app_nil_r. split; [done|simpl; lia]. }
  destruct (sysstep_ok k _ _ _ _ sys sys1 Hs Hok ltac:(lia)) as (Hok1 & Hle & _).
  assert (Hone : exists l1, listed (abs sys1.(sys_w)) (l ++ l1) /\ (length l1 <= 1)%nat).
  { destruct (sysstep_moved k _ _ _ _ sys sys1 Hs Hok) as [Hg|<-]; [|exists []; rewrite app_nil_r; split; [done|simpl; lia]].
    pose proof (wo_certified _ _ _ _ _ _ (so_world _ _ _ _ _ _ Hok)) as Hcert.
    destruct (gstep_refines k _ _ _ (precommit_ok_headers k) (ac_height _ (cert_coherent _ _ _ _ _ _ Hcert)) Hg) as [j Hj].
    exact (crun_listed _ _ _ _ _ Hj Hcert Hl). }
  destruct Hone as (l1 & Hl1 & Hn1). destruct (IH _ Hok1 ltac:(lia) Hl1) as (l2 & Hl2 & Hn2).
  rewrite <- app_assoc in Hl2. exists (l1 ++ l2). split; [done|]. rewrite length_app. lia.
Qed.
End run.

Lemma run_chain n sys sys' hd0 vals0 h0 : startsAt n sys hd0 vals0 h0 -> nsteps (sysstep k) n sys sys' ->
  exists l, committedChain hd0 vals0 h0 sys'.(sys_w) l.
Proof.
  intros [Hc Hs Hch <- <- <- [Hpos Hn] Hb Hcs] Hr. pose proof (sysOK_start k sys Hc Hs Hch Hpos Hb Hcs) as Hok.
  destruct (run_listed _ _ _ _ n sys sys' [] Hr Hok Hn) as (l & [Hl Hlast] & Hlen); [split; done|].
  exists l. split; [exact Hl|]. split; [exact Hlast|]. apply (certificates_height _ _ _ _ _ Hl Hpos). simpl. lia.
Qed.

(** C3: A fork leaves evidence.  Take two mirrors that start from the same committed header, validators and height,
    each with coherent views, sound precommits and no call running, and any run of each: calls with arbitrary messages
    of the network, interleaved with cancellations and with the kernel's own inputs; of these, precommits of the state
    machine are signed for the kernel's round and replayed headers name the voting validators and a round in view.
    Each has then committed a chain of certified headers that leads from the start to its committing header.  Either
    the hashes of one chain are a prefix of those of the other; or there is a first place where the chains differ,
    with the same hashes before it and the same validators for it.  If the hashes differ there, and the powers of
    these validators are uint64 numbers with a total below 2^64, then validators with at least ByzantineMinority of
    the power signed a precommit for the one header in the round of its certificate and a precommit for the other in
    the round of its own.  Otherwise two headers that name different next validators have one hash. *)
Theorem forks_leave_evidence (n1 n2 : nat) (sys1 sys1' sys2 sys2' : System P ST) hd0 vals0 h0 :
  startsAt n1 sys1 hd0 vals0 h0 -> startsAt n2 sys2 hd0 vals0 h0 ->
  nsteps (sysstep k) n1 sys1 sys1' -> nsteps (sysstep k) n2 sys2 sys2' ->
  exists l1 l2, committedChain hd0 vals0 h0 sys1'.(sys_w) l1 /\ committedChain hd0 vals0 h0 sys2'.(sys_w) l2 /\
    (hashes l1 `prefix_of` hashes l2 \/ hashes l2 `prefix_of` hashes l1 \/
     exists i r1 hd1 r2 hd2 vals, l1 !! i = Some (r1, hd1) /\ l2 !! i = Some (r2, hd2) /\
       hashes (take i l1) = hashes (take i l2) /\ hd1.(Height) = hd2.(Height) /\
       namedVals vals0 l1 i = Some vals /\ namedVals vals0 l2 i = Some vals /\
       ((hd1.(Hash) <> hd2.(Hash) /\
         (powers_ok vals.(Validators) -> exists min (D : gset nat),
            ByzantineMinority (totalPowerZ vals.(Validators)) = Ret min /\ min <= powerIn vals.(Validators) D 0 /\
            forall j, j ∈ D -> precommitted k vals hd1.(Height) j r1 hd1.(Hash) /\
                               precommitted k vals hd1.(Height) j r2 hd2.(Hash))) \/
        (hd1.(Hash) = hd2.(Hash) /\ hd1.(NextValidatorSet) <> hd2.(NextValidatorSet)))).
Proof.
  intros S1 S2 R1 R2. destruct (run_chain _ _ _ _ _ _ S1 R1) as (l1 & Hl1), (run_chain _ _ _ _ _ _ S2 R2) as (l2 & Hl2).
  exists l1, l2. split; [done|]. split; [done|].
  destruct (chains_differ _ _ _ _ _ _ _ _ (proj1 Hl1) (proj1 Hl2)) as [Hp|[Hp|(i & [r1 hd1] & [r2 hd2] & Hd & Hx)]]; auto.
  right; right. destruct Hd as (E1 & E2 & Ht & Hh & vals & N1 & N2 & Hc1 & Hc2). simpl in *.
  exists i, r1, hd1, r2, hd2, vals. split_and!; try done. destruct Hx as [Hne|Hx]; [left|by right]. split; [done|].
  intros Hok. apply majorities_overlap; [done|by apply certified_majority..].
Qed.
End chains.

(** ** Without locks *)

(** Another mirror that does not see the first round: it gets the header and the precommits of round 1. *)
Definition secondHeader : Input (P := TP) := InAddPH (toyPH 1 1 "y" "b" (MkCommitProof 0 nilHash gm_make)).
Definition secondWorld : TW := worldOr emptyWorld (handle toyKernel secondHeader startWorld).
Definition jumpInput : Input := InAddPrecommit (toyPrecommits 1 1 "y" ["a"; "b"] 0).
Definition jumpWorld : TW := worldOr emptyWorld (handle toyKernel jumpInput secondWorld).
Definition forkInput : Input := InAddPrecommit (toyPrecommits 1 1 "y" ["a"; "b"; "c"] 1).
Definition forkWorld : TW := worldOr emptyWorld (handle toyKernel forkInput jumpWorld).

(** Precommits the toy validators signed are sound in a view of their round. *)
Lemma toyPrecommits_good (w : TW) id r hash signers prev :
  FindView 1 r w.(w_k) = Ret (id, ViewFound) ->
  rvVals (viewOf id w.(w_k)).(vrv_RV) = toyValidators ->
  (viewOf id w.(w_k)).(vrv_RV).(rv_Height) = 1 -> (viewOf id w.(w_k)).(vrv_RV).(rv_Round) = r ->
  goodInput toyKernel (precommit_ok toyKernel) (InAddPrecommit (toyPrecommits 1 r hash signers prev)) w.(w_k).
Proof.
  intros Hfind Hvals Hh Hr id' hash' u Hf _ Hu. unfold toyPrecommits in Hu. cbn [PrecommitUpdates] in Hu.
  apply lookup_singleton_Some in Hu as [<- <-]. change (FindView 1 r w.(w_k) = Ret (id', ViewFound)) in Hf.
  assert (id' = id) as -> by congruence. destruct (toyProofOf_sound "C" 1 r hash signers) as [Hs Hm].
  split; [rewrite Hvals; exact Hs|]. rewrite Hh, Hr. cbn [vu_Proof]. rewrite Hm. reflexivity.
Qed.

Lemma second_run : rtc (gstep toyKernel (precommit_ok toyKernel)) startWorld forkWorld.
Proof.
  apply rtc_l with secondWorld; [|apply rtc_l with jumpWorld; [|apply rtc_once]].
  - apply (gs_handle toyKernel _ secondHeader); [reflexivity|exact I|vm_compute; reflexivity].
  - apply (gs_handle toyKernel _ jumpInput); [reflexivity| |vm_compute; reflexivity].
    apply (toyPrecommits_good _ ViewIDNextRound); vm_compute; reflexivity.
  - apply (gs_handle toyKernel _ forkInput); [reflexivity| |vm_compute; reflexivity].
    apply (toyPrecommits_good _ ViewIDVoting); vm_compute; reflexivity.
Qed.

Definition firstHeader : Input (P := TP) := InAddPH (toyPH 1 0 "x" "a" (MkCommitProof 0 nilHash gm_make)).
Lemma first_run : rtc (gstep toyKernel (precommit_ok toyKernel)) startWorld committedWorld.
Proof.
  apply rtc_l with proposedWorld; [|apply rtc_once].
  - apply (gs_handle toyKernel _ firstHeader); [reflexivity|exact I|vm_compute; reflexivity].
  - apply (gs_handle toyKernel _ commitInput); [reflexivity|exact commitInput_good|vm_compute; reflexivity].
Qed.

(** The hashes that have a precommit proof, with the bits of each. *)
Definition precommitBits (v : VersionedRoundView TP) : list (bytes * list nat) :=
  map (fun e => (e.1, elements (cmsp_SignatureBitSet e.2))) (gm_entries v.(vrv_RV).(rv_PrecommitProofs)).

(** The kernel alone does not give agreement.  From one starting state, two mirrors of the same four validators,
    given only sound votes, commit different headers at height 1: one gets the precommits of a, b and c for the
    first block in round 0, the other their precommits for the second block in round 1.  Nobody signs twice in a
    round, so a fork across rounds leaves no validator to blame. *)
Lemma fork_across_rounds :
  rtc (gstep toyKernel (precommit_ok toyKernel)) startWorld committedWorld /\
  rtc (gstep toyKernel (precommit_ok toyKernel)) startWorld forkWorld /\
  committedWorld.(w_k).(CommittingHeader).(Height) = 1 /\ forkWorld.(w_k).(CommittingHeader).(Height) = 1 /\
  committedWorld.(w_k).(CommittingHeader).(Hash) = "x" /\ forkWorld.(w_k).(CommittingHeader).(Hash) = "y" /\
  vRound committedWorld.(w_k).(s_Committing) = 0 /\ precommitBits committedWorld.(w_k).(s_Committing) = [("x", [2; 1; 0]%nat)] /\
  vRound forkWorld.(w_k).(s_Committing) = 1 /\ precommitBits forkWorld.(w_k).(s_Committing) = [("y", [2; 1; 0]%nat)].
Proof.
  split; [exact first_run|]. split; [exact second_run|].
  split; [vm_compute; reflexivity|]. split; [vm_compute; reflexivity|]. split; [vm_compute; reflexivity|].
  split; [vm_compute; reflexivity|]. split; [vm_compute; reflexivity|]. split; [vm_compute; reflexivity|].
  split; [vm_compute; reflexivity|]. vm_compute; reflexivity.
Qed.

(** ** Two mirrors of four validators: one gets the precommits of a, b and c for "x", the other those of b, c and d
    for "y", in the same round *)
Definition forkHeader (hash : bytes) : ProposedHeader :=
  let ph := toyPH 1 0 hash "a" (MkCommitProof 0 nilHash gm_make) in
  {| ph with ph_Signature := "a" +:+ toyContentOf (toyContent "H" (MkVoteTarget 1 0 hash)) |}.
Definition forkPrecommits (hash : bytes) (l : list (nat * bytes)) : PrecommitSparseProof :=
  MkPrecommitSparse 1 0 "a,b,c,d" (Some {[hash := map (fun e => MkSparseSignature (putUint16 e.1)
    (e.2 +:+ toyContentOf (toyContent "C" (MkVoteTarget 1 0 hash)))) l]}).

(** The header arrives and is accepted, and then the precommits. *)
Definition fork1 ph : Call TP * TW := callOr (callStep toyKernel (begin (MsgHeader ph)) startWorld).
Definition fork2 ph : TW := worldOr emptyWorld (handle toyKernel (InAddPH ph) (fork1 ph).2).
Definition fork3 ph p : Call TP * TW := callOr (callStep toyKernel (begin (MsgPrecommits p)) (fork2 ph)).
Definition fork4 ph p : Call TP * TW := callOr (callStep toyKernel (fork3 ph p).1 (fork3 ph p).2).
Definition forkDone : list (Call TP) :=
  [CallHeader (HDone HandleProposedHeaderAccepted); CallPrecommits (PCDone HandleVoteProofsAccepted)].
Definition forkSystem ph p : System TP MemStores := MkSystem (fork4 ph p).2 [] forkDone.
Definition forkStart : System TP MemStores := MkSystem startWorld [] [].

Definition headerX : ProposedHeader := forkHeader "x".
Definition headerY : ProposedHeader := forkHeader "y".
Definition precommitsX : PrecommitSparseProof := forkPrecommits "x" [(0%nat, "a"); (1%nat, "b"); (2%nat, "c")].
Definition precommitsY : PrecommitSparseProof := forkPrecommits "y" [(1%nat, "b"); (2%nat, "c"); (3%nat, "d")].

Lemma fork_run ph p : callStep toyKernel (begin (MsgHeader ph)) startWorld = Ret (CallHeader (HAdd ph), (fork1 ph).2) ->
  handle toyKernel (InAddPH ph) (fork1 ph).2 = Ret (tt, fork2 ph) ->
  callStep toyKernel (begin (MsgPrecommits p)) (fork2 ph) = Ret ((fork3 ph p).1, (fork3 ph p).2) ->
  callStep toyKernel (fork3 ph p).1 (fork3 ph p).2 = Ret (CallPrecommits (PCDone HandleVoteProofsAccepted), (fork4 ph p).2) ->
  nsteps (sysstep toyKernel) 7 forkStart (forkSystem ph p).
Proof.
  intros E1 E2 E3 E4.
  eapply nsteps_l; [apply (sys_begin _ _ (MsgHeader ph))|].
  eapply nsteps_l; [apply (sys_call _ _ 0 (begin (MsgHeader ph)) (CallHeader (HAdd ph)) _ (fork1 ph).2); [reflexivity|exact E1]|].
  eapply nsteps_l; [apply (sys_send _ _ 0 ph); [reflexivity|vm_compute; lia]|].
  eapply nsteps_l; [apply (sys_header _ _ ph _ (fork2 ph)); exact E2|].
  eapply nsteps_l; [apply (sys_begin _ _ (MsgPrecommits p))|].
  eapply nsteps_l; [apply (sys_call _ _ 1 (begin (MsgPrecommits p)) (fork3 ph p).1 _ (fork3 ph p).2); [reflexivity|exact E3]|].
  apply nsteps_once, (sys_call _ _ 1 (fork3 ph p).1 (CallPrecommits (PCDone HandleVoteProofsAccepted)) _ (fork4 ph p).2);
    [reflexivity|exact E4].
Qed.

Lemma fork_starts : startsAt toyKernel 7 forkStart startWorld.(w_k).(CommittingHeader) toyValSet 1.
Proof.
  split; [apply startWorld_coherent|exact startWorld_sound|apply startWorld_chain|reflexivity|vm_compute; reflexivity|
    vm_compute; reflexivity|split; vm_compute; congruence|vm_compute; reflexivity|reflexivity].
Qed.

Lemma runX : nsteps (sysstep toyKernel) 7 forkStart (forkSystem headerX precommitsX).
Proof. apply fork_run; vm_compute; reflexivity. Qed.
Lemma runY : nsteps (sysstep toyKernel) 7 forkStart (forkSystem headerY precommitsY).
Proof. apply fork_run; vm_compute; reflexivity. Qed.

(** A chain to height 2 has one header. *)
Lemma one_committed ph p l hash : committedChain toyKernel startWorld.(w_k).(CommittingHeader) toyValSet 1 (fork4 ph p).2 l ->
  vHeight (fork4 ph p).2.(w_k).(s_Voting) = 2 -> (fork4 ph p).2.(w_k).(CommittingHeader).(Hash) = hash ->
  exists r hd, l = [(r, hd)] /\ hd.(Hash) = hash /\ hd.(Height) = 1.
Proof.
  intros (Hl & Hlast & Hlen) H2 Hh. rewrite H2 in Hlen. destruct l as [|[r hd] [|c l]]; simpl in *; [lia| |lia].
  injection Hlast as Heq. exists r, hd. rewrite Heq in Hl |- *. by destruct Hl.
Qed.

(** Two of the validators, half of the power, signed for both blocks. *)
Lemma forks_leave_evidence_witness :
  nsteps (sysstep toyKernel) 7 forkStart (forkSystem headerX precommitsX) /\
  nsteps (sysstep toyKernel) 7 forkStart (forkSystem headerY precommitsY) /\
  exists (D : gset nat) r1 r2, 2 <= powerIn toyValidators D 0 /\
    forall j, j ∈ D -> precommitted toyKernel toyValSet 1 j r1 "x" /\ precommitted toyKernel toyValSet 1 j r2 "y".
Proof.
  split; [exact runX|]. split; [exact runY|].
  destruct (forks_leave_evidence toyKernel 7 7 forkStart (forkSystem headerX precommitsX) forkStart (forkSystem headerY precommitsY)
    startWorld.(w_k).(CommittingHeader) toyValSet 1 fork_starts fork_starts runX runY) as (l1 & l2 & H1 & H2 & Hx).
  apply (one_committed headerX precommitsX l1 "x") in H1 as (s1 & x & -> & Ex & Eh); [|vm_compute; reflexivity|vm_compute; reflexivity].
  apply (one_committed headerY precommitsY l2 "y") in H2 as (s2 & y & -> & Ey & _); [|vm_compute; reflexivity|vm_compute; reflexivity].
  unfold hashes in Hx. cbn [map snd] in Hx. rewrite Ex, Ey in Hx.
  destruct Hx as [Hp|[Hp|(i & r1 & hd1 & r2 & hd2 & vals & E1 & E2 & _ & _ & Ev & _ & Hx)]];
    [apply prefix_cons_inv_1 in Hp; discriminate|apply prefix_cons_inv_1 in Hp; discriminate|].
  destruct i as [|i]; [|discriminate]. injection E1 as <- <-. injection E2 as <- <-. injection Ev as <-.
  destruct Hx as [[_ Hev]|[Hc _]]; [|rewrite Ex, Ey in Hc; discriminate].
  destruct Hev as (min & D & Hmin & Hle & Hall).
  - split; [repeat constructor; vm_compute; try discriminate; reflexivity|vm_compute; reflexivity].
  - injection Hmin as <-. exists D, s1, s2. split; [exact Hle|]. intros j Hj. rewrite <- Ex, <- Ey, <- Eh. exact (Hall j Hj).
Defined.
