(* ===== verification/EchoApp.v ===== *)
(** The demonstration application and consensus strategy of cmd/internal/gcmd/echoapp.go, which the commands run on
    top of the engine: an application whose state is the hash of height and round, and a strategy that takes turns.

    The logging, the mutex (each method runs under it) and the channels around the application are left out. *)
From S2P Require Import Prelude Types BitSets Powers SigProof VoteSummary RoundView.
From S2P Require Import Stores Managers KState KernelBase Kernel KernelHandlers KernelLoop.
From S2P Require Import SimpleProofs KernelExample KernelSpec KernelSafety KernelTheorems KernelCommit.
From S2P Require Import RoundLifecycle StateMachineBase StateMachine StateMachineRun Engine Agreement.
From stdpp Require Import pretty.
Local Open Scope Z_scope.

Section echo.
Context {P : Type} (sha256 : bytes -> bytes).

(** fmt.Sprintf of unsigned integers. *)
Definition blockData (h r : Z) : bytes := "Height: " +:+ pretty (Z.to_N h) +:+ "; Round: " +:+ pretty (Z.to_N r).
Definition dataHash (h r : Z) : bytes := sha256 (blockData h r).

(** ** EchoApp *)
Definition handleInitChain (genesisValidators : ValidatorSet) : InitChainResponse := MkInitChainResponse (sha256 nilHash) [].
Definition handleFinalizeBlock (req : FinalizeBlockRequest) : FinalizeBlockResponse :=
  MkFinResp req.(fr_Header).(Height) req.(fr_Round) req.(fr_Header).(Hash)
    req.(fr_Header).(NextValidatorSet).(Validators) (dataHash req.(fr_Header).(Height) req.(fr_Round)).

(** ** EchoConsensusStrategy *)
Record EchoConsensusStrategy := MkEcho {
  es_pubKey : option PubKey; expProposerPubKey : option PubKey; curH : Z; curR : Z
}.
Definition NewEchoConsensusStrategy (pubKey : option PubKey) : EchoConsensusStrategy := MkEcho pubKey None 0 0.
Implicit Types s : EchoConsensusStrategy.

(** The Equal method of a key, on an interface that may be nil. *)
Definition keyEqual (a : PubKey) (other : option PubKey) : bool := match other with None => false | Some b => pk_Equal a b end.

(** The state after EnterRound, and the proposal it sends. *)
Definition EnterRound (rv : RoundView P) s : outcome (EchoConsensusStrategy * option Proposal) :=
  let s := {| s with curH := rv.(rv_Height); curR := rv.(rv_Round) |} in
  let vals := rv.(rv_ValidatorSet).(Validators) in
  if (length vals =? 0)%nat then Panic "runtime error: integer divide by zero"
  else
    let expProposerIndex := Z.rem (i64 (i64 rv.(rv_Height) + i64 rv.(rv_Round))) (Z.of_nat (length vals)) in
    if expProposerIndex <? 0 then Panic "runtime error: index out of range"
    else
      match vals !! Z.to_nat expProposerIndex with
      | None => Panic "runtime error: index out of range"
      | Some v =>
          let s := {| s with expProposerPubKey := Some v.(val_PubKey) |} in
          Ret (s, if keyEqual v.(val_PubKey) s.(es_pubKey)
                  then Some (MkProposal (dataHash s.(curH) s.(curR)) (MkAnnotations nilHash nilHash) (MkAnnotations nilHash nilHash))
                  else None)
      end.

(** The loop over the headers. *)
Fixpoint considerLoop (phs : list ProposedHeader) s : outcome (bytes * option error) :=
  match phs with
  | [] => Ret (nilHash, Some ErrProposedBlockChoiceNotReady)
  | ph :: phs =>
      match s.(expProposerPubKey) with
      | None => Panic "runtime error: invalid memory address or nil pointer dereference"
      | Some exp =>
          if negb (keyEqual exp ph.(ph_ProposerPubKey)) then considerLoop phs s
          else if negb (String.eqb ph.(ph_Header).(DataID) (dataHash s.(curH) s.(curR))) then Ret (nilHash, None)
          else Ret (ph.(ph_Header).(Hash), None)
      end
  end.

Definition ConsiderProposedBlocks (phs : list ProposedHeader) (_ : ConsiderReason) s : outcome (bytes * option error) := considerLoop phs s.

Definition ChooseProposedBlock (phs : list ProposedHeader) s : outcome (bytes * option error) :=
  '(hash, err) ← ConsiderProposedBlocks phs ConsiderReason_zero s;
  if bool_decide (err = Some ErrProposedBlockChoiceNotReady) then Ret (nilHash, None) else Ret (hash, err).

Definition DecidePrecommit (vs : VoteSummary) s : outcome (bytes * option error) :=
  maj ← ByzantineMajority vs.(AvailablePower);
  if maj <=? gm_getz 0 vs.(PrevoteBlockPower) vs.(MostVotedPrevoteHash) then Ret (vs.(MostVotedPrevoteHash), None)
  else Ret (nilHash, None).

(** ** Turns *)

(** The validator whose turn it is. *)
Definition turn (h r : Z) (n : nat) : nat := Z.to_nat ((h + r) mod Z.of_nat n).

(** What every node makes of the headers it is shown. *)
Definition choice (exp : PubKey) (h r : Z) (phs : list ProposedHeader) : option bytes :=
  match List.filter (fun ph => keyEqual exp ph.(ph_ProposerPubKey)) phs with
  | [] => None
  | ph :: _ => Some (if String.eqb ph.(ph_Header).(DataID) (dataHash h r) then ph.(ph_Header).(Hash) else nilHash)
  end.

Lemma considerLoop_choice exp phs s : s.(expProposerPubKey) = Some exp ->
  considerLoop phs s = Ret (match choice exp s.(curH) s.(curR) phs with
    | None => (nilHash, Some ErrProposedBlockChoiceNotReady)
    | Some x => (x, None)
    end).
Proof.
  intros He. unfold choice. induction phs as [|ph phs IH]; simpl; [done|]. rewrite He.
  destruct (keyEqual exp (ph_ProposerPubKey ph)); simpl; [by destruct (String.eqb _ _)|exact IH].
Qed.
End echo.

(** All nodes agree on whose turn it is and on what to vote for.  For every round view with validators whose height
    and round add up without overflow, one validator has the turn, found from height, round and the number of
    validators alone.  EnterRound returns on every node whatever it did before, and makes the node propose just when
    that validator's key is its own; after it the vote only depends on the headers shown: nothing yet while none is
    from that validator (nil, when asked to choose), nil when the first one from it has other data than the hash of
    height and round, and that header's hash otherwise.  Nothing of an earlier round matters, so no lock is kept. *)
Theorem echo_nodes_agree {P : Type} (sha256 : bytes -> bytes) (rv : RoundView P) :
  rv.(rv_ValidatorSet).(Validators) <> [] -> 0 <= rv.(rv_Height) -> 0 <= rv.(rv_Round) -> rv.(rv_Height) + rv.(rv_Round) < two63 ->
  exists v, rv.(rv_ValidatorSet).(Validators) !! turn rv.(rv_Height) rv.(rv_Round) (length rv.(rv_ValidatorSet).(Validators)) = Some v /\
  forall s, exists s' prop, EnterRound sha256 rv s = Ret (s', prop) /\ (is_Some prop <-> s.(es_pubKey) = Some v.(val_PubKey)) /\
    forall phs reason,
      let x := choice sha256 v.(val_PubKey) rv.(rv_Height) rv.(rv_Round) phs in
      ConsiderProposedBlocks sha256 phs reason s' =
        Ret (match x with None => (nilHash, Some ErrProposedBlockChoiceNotReady) | Some x => (x, None) end) /\
      ChooseProposedBlock sha256 phs s' = Ret (default nilHash x, None) /\
      (forall y, x = Some y -> y <> nilHash -> exists ph, ph ∈ phs /\ ph.(ph_ProposerPubKey) = Some v.(val_PubKey) /\
         ph.(ph_Header).(DataID) = dataHash sha256 rv.(rv_Height) rv.(rv_Round) /\ ph.(ph_Header).(Hash) = y).
Proof.
  intros Hne Hh Hr Hsum. set (vals := Validators (rv_ValidatorSet rv)) in *. unfold two63 in Hsum.
  assert (Hlen : 0 < Z.of_nat (length vals)) by (destruct vals; [done|simpl; lia]).
  pose proof (Z.mod_pos_bound (rv.(rv_Height) + rv.(rv_Round)) _ Hlen) as Hb.
  assert (Hturn : (turn rv.(rv_Height) rv.(rv_Round) (length vals) < length vals)%nat) by (unfold turn; lia).
  destruct (lookup_lt_is_Some_2 vals _ Hturn) as [v Hv]. exists v. split; [done|]. intros s.
  unfold EnterRound. cbn [curH curR]. fold vals. rewrite (proj2 (Nat.eqb_neq _ _)) by lia.
  rewrite (i64_small rv.(rv_Height)), (i64_small rv.(rv_Round)), i64_small by (unfold is_i64, two63; lia).
  rewrite Z.rem_mod_nonneg by lia. rewrite (proj2 (Z.ltb_ge _ _)) by lia. fold (turn rv.(rv_Height) rv.(rv_Round) (length vals)).
  rewrite Hv. eexists _, _. split; [reflexivity|]. split.
  { cbn [es_pubKey]. unfold keyEqual. destruct (es_pubKey s) as [k|]; [|split; [intros [? ?]; discriminate|discriminate]].
    unfold pk_Equal. case_bool_decide as Hk; [by subst|]. split; [intros [? ?]; discriminate|congruence]. }
  intros phs reason. unfold ChooseProposedBlock, ConsiderProposedBlocks. rewrite (considerLoop_choice sha256 v.(val_PubKey)) by done.
  cbn [curH curR]. split; [done|]. split; [by destruct (choice _ _ _ _ _)|].
  intros y Hy Hny. unfold choice in Hy. destruct (List.filter _ _) as [|ph l] eqn:Ef; [done|].
  assert (Hin : ph ∈ phs /\ keyEqual v.(val_PubKey) ph.(ph_ProposerPubKey) = true).
  { assert (Hi : In ph (List.filter (fun ph => keyEqual (val_PubKey v) (ph_ProposerPubKey ph)) phs)) by (rewrite Ef; by left).
    apply filter_In in Hi as [Hi ?]. by rewrite <- list_elem_of_In in Hi. }
  destruct Hin as [Hin Hk]. exists ph. split; [done|]. destruct (String.eqb_spec ph.(ph_Header).(DataID) (dataHash sha256 rv.(rv_Height) rv.(rv_Round))) as [Hd|].
  - injection Hy as <-. split; [|done]. unfold keyEqual, pk_Equal in Hk. destruct (ph_ProposerPubKey ph); [|done]. apply bool_decide_eq_true in Hk. by subst.
  - injection Hy as <-. done.
Qed.

(** A precommit of the strategy is justified.  When the vote summary it is given is the tally of sound prevote proofs of
    the round, a precommit for a block means that validators with ByzantineMajority of the power signed a prevote for
    that block in that round: what agreement asks of a validator that is not faulty, apart from the lock. *)
Theorem echo_precommits_justified {P B : Type} `{CMSPLaws P B} (k : Kernel) (vals : ValidatorSet) (h r : Z) (proofs : gomap P)
  (vs : VoteSummary) (s : EchoConsensusStrategy) (x : bytes) :
  vs.(AvailablePower) = u64 (totalPowerZ vals.(Validators)) ->
  tallied vals.(Validators) proofs vs.(TotalPrevotePower) vs.(PrevoteBlockPower) vs.(MostVotedPrevoteHash) ->
  (forall y p, gm_get proofs y = Some p -> cmsp_sound (ValidatorsToPubKeys vals.(Validators)) p /\
     PrevoteSignBytes (MkVoteTarget h r y) k.(k_sigScheme) = Ok (cmsp_Message p)) ->
  DecidePrecommit vs s = Ret (x, None) -> x <> nilHash ->
  majorityOf vals (fun i => prevoted k vals h i r x).
Proof.
  intros Hav Ht Hsound Hd Hx. unfold DecidePrecommit in Hd. rewrite Hav in Hd.
  destruct (ByzantineMajority (u64 (totalPowerZ (Validators vals)))) as [maj|] eqn:EM; [|done]. simpl in Hd.
  destruct (Z.leb_spec maj (gm_getz 0 vs.(PrevoteBlockPower) vs.(MostVotedPrevoteHash))) as [Hle|]; [|by injection Hd as <-].
  injection Hd as Heq. rewrite Heq in Hle.
  destruct (td_most_in _ _ _ _ _ Ht) as [Hn|[p Hp]]; [by rewrite Heq in Hn|]. rewrite Heq in Hp.
  destruct (Hsound x p Hp) as [Hps Hpm]. exists maj, (bs_elems (cmsp_SignatureBitSet p)). split; [done|]. split.
  - rewrite (td_block _ _ _ _ _ Ht) in Hle. unfold gm_getz, gm_get in *.
    change (gm_map (Some (proofPower (Validators vals) <$> gm_map proofs))) with (proofPower (Validators vals) <$> gm_map proofs) in Hle.
    rewrite lookup_fmap, Hp in Hle. cbn [fmap option_fmap option_map default from_option id] in Hle.
    unfold proofPower in Hle. by rewrite sumPower_u64 in Hle.
  - intros i Hi. exists (cmsp_Message p). split; [done|].
    destruct (cmsp_sound_bits _ _ _ Hps Hi) as (key0 & key & sig & Hk & Hb & Hver).
    unfold ValidatorsToPubKeys in Hk. rewrite list_lookup_fmap in Hk. apply fmap_Some in Hk as (v & Hvi & ->). by exists v, key, sig.
Qed.

(** ** Witnesses *)
Definition echoView : RoundView TP := MkRoundView 1 0 toyValSet (MkCommitProof 0 nilHash gm_make) [] gm_make gm_make VoteSummary_zero.

Lemma echo_nodes_agree_witness :
  exists v, toyValidators !! turn 1 0 4 = Some v /\ v.(val_PubKey) = MkPubKey "toy" "b".
Proof.
  destruct (echo_nodes_agree (fun x => x) echoView) as (v & Hv & _); [discriminate|vm_compute; discriminate..|vm_compute; reflexivity|].
  exists v. split; [exact Hv|]. vm_compute in Hv. by injection Hv as <-.
Defined.

(** Three of the four toy validators prevoted "x" at height 1, round 0. *)
Definition echoProofs : gomap TP := Some {["x" := toyProofOf "V" 1 0 "x" ["a"; "b"; "c"]]}.
Definition echoSummary : VoteSummary := MkVoteSummary 4 3 0 (Some {["x" := 3]}) (Some ∅) "x" nilHash.

Lemma echoProofs_only y p : gm_get echoProofs y = Some p -> y = "x" /\ p = toyProofOf "V" 1 0 "x" ["a"; "b"; "c"].
Proof.
  intros Hy. unfold gm_get, echoProofs in Hy. change (gm_map (Some ?g)) with g in Hy.
  by apply lookup_singleton_Some in Hy as [<- <-].
Qed.

Lemma echoProofs_tallied : tallied toyValidators echoProofs 3 (Some {["x" := 3]}) "x".
Proof.
  split.
  - vm_compute. reflexivity.
  - vm_compute. reflexivity.
  - intros y p [-> ->]%echoProofs_only. vm_compute. discriminate.
  - intros y p [-> ->]%echoProofs_only _. unfold bytesLe. vm_compute. done.
  - right. vm_compute. by eexists.
Qed.

Lemma echo_precommits_justified_witness :
  DecidePrecommit echoSummary (NewEchoConsensusStrategy None) = Ret ("x", None) /\
  majorityOf toyValSet (fun i => prevoted toyKernel toyValSet 1 i 0 "x").
Proof.
  split; [vm_compute; reflexivity|].
  apply (echo_precommits_justified toyKernel toyValSet 1 0 echoProofs echoSummary (NewEchoConsensusStrategy None)).
  - vm_compute. reflexivity.
  - exact echoProofs_tallied.
  - intros y p [-> ->]%echoProofs_only.
    destruct (toyProofOf_sound "V" 1 0 "x" ["a"; "b"; "c"]) as [Hs Hm]. split; [exact Hs|]. rewrite Hm. reflexivity.
  - vm_compute. reflexivity.
  - discriminate.
Defined.
