(* ===== verification/IntegrationApps.v ===== *)
(** The two applications of the integration tests (tm/tmintegration/identityapp.go, valshuffleapp.go) and their
    consensus strategies: one keeps the validators of the genesis, the other picks some of them anew for every height.

    Logging, the mutexes (each method runs under one), cancellation and the channel to the test are left out. *)
From S2P Require Import Prelude Types BitSets Powers SigProof VoteSummary RoundView Stores Managers KState KernelBase RoundLifecycle.
From S2P Require Import StateMachineBase StateMachine StateMachineRun Engine EchoApp.
From stdpp Require Import pretty.
Local Open Scope Z_scope.

(** * What the strategies share *)

(** The proposer of a round: its index, found by modulo, and its key. *)
Definition expectedProposer {P} (rv : RoundView P) : outcome (Z * PubKey) :=
  let vals := rv.(rv_ValidatorSet).(Validators) in
  if (length vals =? 0)%nat then Panic "runtime error: integer divide by zero"
  else
    let i := Z.rem (i64 (i64 rv.(rv_Height) + i64 rv.(rv_Round))) (Z.of_nat (length vals)) in
    if i <? 0 then Panic "runtime error: index out of range"
    else match vals !! Z.to_nat i with
         | None => Panic "runtime error: index out of range"
         | Some v => Ret (i, v.(val_PubKey))
         end.

(** The loop of ConsiderProposedBlocks: headers of other proposers are skipped, and the first of the expected one is
    judged. *)
Fixpoint considerWith (judge : ProposedHeader -> bytes * option error) (exp : option PubKey) (phs : list ProposedHeader) :
  outcome (bytes * option error) :=
  match phs with
  | [] => Ret (nilHash, Some ErrProposedBlockChoiceNotReady)
  | ph :: phs =>
      match exp with
      | None => Panic "runtime error: invalid memory address or nil pointer dereference"
      | Some key => if negb (keyEqual key ph.(ph_ProposerPubKey)) then considerWith judge exp phs else Ret (judge ph)
      end
  end.

(** ChooseProposedBlock: what was not ready is a vote for nil. *)
Definition chooseFrom (considered : outcome (bytes * option error)) : outcome (bytes * option error) :=
  '(hash, err) ← considered;
  if bool_decide (err = Some ErrProposedBlockChoiceNotReady) then Ret (nilHash, None) else Ret (hash, err).

Definition decidePrecommitFor (vs : VoteSummary) : outcome (bytes * option error) :=
  maj ← ByzantineMajority vs.(AvailablePower);
  let pow := gm_getz 0 vs.(PrevoteBlockPower) vs.(MostVotedPrevoteHash) in
  if maj <=? pow then Ret (vs.(MostVotedPrevoteHash), None) else Ret (nilHash, None).

(** * The identity application *)
Module Identity.
Section identity.
Context (sha256 : bytes -> bytes).

(** The validators it holds on to, and its answers. *)
Definition answerInitChain (genesisValidators : ValidatorSet) : list Validator * InitChainResponse :=
  (genesisValidators.(Validators), MkInitChainResponse (sha256 nilHash) []).
Definition finalizeBlock (vals : list Validator) (req : FinalizeBlockRequest) : FinalizeBlockResponse :=
  MkFinResp req.(fr_Header).(Height) req.(fr_Round) req.(fr_Header).(Hash) vals req.(fr_Header).(DataID).

Record Strategy := MkStrategy {
  is_PubKey : option PubKey; is_expProposerPubKey : option PubKey; is_expProposerIndex : Z; is_curH : Z; is_curR : Z
}.
Implicit Types s : Strategy.

(** strconv.AppendInt in base ten. *)
Definition appendInt (b : bytes) (i : Z) : bytes := b +:+ pretty i.
Definition appDataID (h r : Z) : bytes := sha256 ("Height: " +:+ pretty (Z.to_N h) +:+ "; Round: " +:+ pretty (Z.to_N r)).
Definition driverOnly (b : bytes) : Annotations := MkAnnotations nilHash b.

Definition EnterRound {P} (rv : RoundView P) s : outcome (Strategy * option Proposal) :=
  '(i, key) ← expectedProposer rv;
  let s := MkStrategy s.(is_PubKey) (Some key) i rv.(rv_Height) rv.(rv_Round) in
  Ret (s, if keyEqual key s.(is_PubKey)
          then Some (MkProposal (appDataID s.(is_curH) s.(is_curR)) (driverOnly (appendInt "p" i)) (driverOnly (appendInt "b" i)))
          else None).

(** A header of the expected proposer. *)
Definition judge s (ph : ProposedHeader) : bytes * option error :=
  if negb (String.eqb ph.(ph_Annotations).(ann_Driver) (appendInt "p" s.(is_expProposerIndex))) then (nilHash, None)
  else if negb (String.eqb ph.(ph_Header).(hd_Annotations).(ann_Driver) (appendInt "b" s.(is_expProposerIndex))) then (nilHash, None)
  else if negb (String.eqb ph.(ph_Header).(DataID) (appDataID s.(is_curH) s.(is_curR))) then (nilHash, None)
  else (ph.(ph_Header).(Hash), None).

Definition ConsiderProposedBlocks (phs : list ProposedHeader) s : outcome (bytes * option error) :=
  considerWith (judge s) s.(is_expProposerPubKey) phs.
Definition ChooseProposedBlock (phs : list ProposedHeader) s : outcome (bytes * option error) :=
  chooseFrom (ConsiderProposedBlocks phs s).
End identity.
End Identity.

(** * The application that shuffles the validators *)
Module ValShuffle.

(** binary.BigEndian: [n] bytes of an unsigned integer. *)
Fixpoint bigEndian (n : nat) (z : Z) : bytes :=
  match n with
  | O => EmptyString
  | S n => String (ascii_of_N (Z.to_N (Z.shiftr z (8 * Z.of_nat n) mod 256))) (bigEndian n z)
  end.

Section shuffle.
(** blake2b with 32 bytes; the generator of math/rand/v2: the state of a PCG that is seeded with two numbers, whatever
    it was before, and the permutation drawn with it. *)
Context (blake2b32 : bytes -> bytes) {R : Type} (NewPCG : Z -> Z -> R) (Perm : nat -> R -> list nat * R).
Context (hs : HashScheme) (pickN : Z).

Definition validatorHashes (vals : list Validator) : result (bytes * bytes) :=
  match hs.(hs_PubKeys) (ValidatorsToPubKeys vals) with
  | Err e => Err e
  | Ok keyHash =>
      match hs.(hs_VotePowers) (map val_Power vals) with
      | Err e => Err e
      | Ok powHash => Ok (keyHash, powHash)
      end
  end.

Definition stateHash (height : Z) (keyHash powHash : bytes) : bytes :=
  blake2b32 (bigEndian 8 height +:+ keyHash +:+ powHash).

(** The kernel: the validators of the genesis, and the generator. *)
Record App := MkApp { initVals : list Validator; pcg : R }.

Definition answerInitChain (genesisValidators : ValidatorSet) : outcome (App * InitChainResponse) :=
  let vals := genesisValidators.(Validators) in
  match validatorHashes vals with
  | Err _ => Panic "failed to get validator hashes during init chain"
  | Ok (keyHash, powHash) => Ret (MkApp vals (NewPCG 0 0), MkInitChainResponse (stateHash 0 keyHash powHash) [])
  end.

(** perm[:pickN], on a slice without spare capacity. *)
Definition pickFrom (perm : list nat) : outcome (list nat) :=
  if (pickN <? 0) || (Z.of_nat (length perm) <? pickN) then Panic "runtime error: slice bounds out of range"
  else Ret (take (Z.to_nat pickN) perm).

Definition appendPicked (vals : list Validator) (next : list Validator) (origIdx : nat) : outcome (list Validator) :=
  match vals !! origIdx with
  | None => Panic "runtime error: index out of range"
  | Some v => Ret (next ++ [v])
  end.

Definition finalizeBlock (req : FinalizeBlockRequest) (a : App) : outcome (App * FinalizeBlockResponse) :=
  match validatorHashes req.(fr_Header).(hd_ValidatorSet).(Validators) with
  | Err _ => Panic "failed to calculate validator hashes at finalization"
  | Ok (keyHash, powHash) =>
      let '(perm, rng) := Perm (length a.(initVals)) (NewPCG (u64 (req.(fr_Header).(Height) + 2)) 0) in
      picked ← pickFrom perm;
      nextVals ← foldO (appendPicked a.(initVals)) [] picked;
      Ret (MkApp a.(initVals) rng,
           MkFinResp req.(fr_Header).(Height) req.(fr_Round) req.(fr_Header).(Hash) nextVals
             (stateHash req.(fr_Header).(Height) keyHash powHash))
  end.

Record Strategy := MkStrategy {
  vs_PubKey : option PubKey; vs_expProposerPubKey : option PubKey; vs_expProposerIndex : Z; vs_curH : Z; vs_curR : Z
}.
Implicit Types s : Strategy.

Definition appData (h : Z) (hashes : bytes * bytes) : bytes := bigEndian 8 h +:+ hashes.1 +:+ hashes.2.

(** The state after EnterRound, the proposal it sends, and the error it returns. *)
Definition EnterRound {P} (rv : RoundView P) s : outcome (Strategy * option Proposal * option error) :=
  '(i, key) ← expectedProposer rv;
  let s := MkStrategy s.(vs_PubKey) (Some key) i rv.(rv_Height) rv.(rv_Round) in
  if negb (keyEqual key s.(vs_PubKey)) then Ret (s, None, None)
  else match validatorHashes rv.(rv_ValidatorSet).(Validators) with
       | Err e => Ret (s, None, Some e)
       | Ok hashes => Ret (s, Some (MkProposal (appData rv.(rv_Height) hashes) (MkAnnotations nilHash nilHash) (MkAnnotations nilHash nilHash)), None)
       end.

Definition judge s (ph : ProposedHeader) : bytes * option error :=
  match validatorHashes ph.(ph_Header).(hd_ValidatorSet).(Validators) with
  | Err e => (nilHash, Some e)
  | Ok hashes => if negb (String.eqb ph.(ph_Header).(DataID) (appData s.(vs_curH) hashes)) then (nilHash, None)
                 else (ph.(ph_Header).(Hash), None)
  end.

Definition ConsiderProposedBlocks (phs : list ProposedHeader) s : outcome (bytes * option error) :=
  considerWith (judge s) s.(vs_expProposerPubKey) phs.
Definition ChooseProposedBlock (phs : list ProposedHeader) s : outcome (bytes * option error) :=
  chooseFrom (ConsiderProposedBlocks phs s).
End shuffle.
Arguments App : clear implicits.
End ValShuffle.

(** * What the strategies do *)
Section lemmas.
Context {P : Type}.
Implicit Types rv : RoundView P.

(** In a view with validators whose height and round do not overflow there is an expected proposer, whose index height,
    round and the number of validators determine. *)
Lemma expectedProposer_turn rv : rv.(rv_ValidatorSet).(Validators) <> [] -> 0 <= rv.(rv_Height) -> 0 <= rv.(rv_Round) ->
  rv.(rv_Height) + rv.(rv_Round) < two63 ->
  exists v, let i := turn rv.(rv_Height) rv.(rv_Round) (length rv.(rv_ValidatorSet).(Validators)) in
    rv.(rv_ValidatorSet).(Validators) !! i = Some v /\ expectedProposer rv = Ret (Z.of_nat i, v.(val_PubKey)).
Proof.
  intros Hne Hh Hr Hsum. set (vals := Validators (rv_ValidatorSet rv)) in *. unfold two63 in Hsum.
  assert (Hlen : 0 < Z.of_nat (length vals)) by (destruct vals; [done|simpl; lia]).
  pose proof (Z.mod_pos_bound (rv.(rv_Height) + rv.(rv_Round)) _ Hlen) as Hb.
  assert (Hturn : (turn rv.(rv_Height) rv.(rv_Round) (length vals) < length vals)%nat) by (unfold turn; lia).
  destruct (lookup_lt_is_Some_2 vals _ Hturn) as [v Hv]. exists v. split; [done|].
  unfold expectedProposer. fold vals. rewrite (proj2 (Nat.eqb_neq _ _)) by lia.
  rewrite (i64_small rv.(rv_Height)), (i64_small rv.(rv_Round)), i64_small by (unfold is_i64, two63; lia).
  rewrite Z.rem_mod_nonneg by lia. rewrite (proj2 (Z.ltb_ge _ _)) by lia.
  fold (turn rv.(rv_Height) rv.(rv_Round) (length vals)). rewrite Hv.
  do 2 f_equal. unfold turn. rewrite Z2Nat.id by lia. done.
Qed.

(** The first header of the expected proposer decides. *)
Lemma considerWith_first judge key before ph after : Forall (fun x => keyEqual key x.(ph_ProposerPubKey) = false) before ->
  keyEqual key ph.(ph_ProposerPubKey) = true -> considerWith judge (Some key) (before ++ ph :: after) = Ret (judge ph).
Proof.
  intros Hb Hk. induction Hb as [|x before Hx Hb IH]; simpl; [by rewrite Hk|]. by rewrite Hx.
Qed.

Lemma keyEqual_same key : keyEqual key (Some key) = true.
Proof. unfold keyEqual, pk_Equal. by apply bool_decide_eq_true_2. Qed.

Lemma considerWith_inv judge key phs r : considerWith judge (Some key) phs = Ret r ->
  r = (nilHash, Some ErrProposedBlockChoiceNotReady) \/
  exists ph, ph ∈ phs /\ ph.(ph_ProposerPubKey) = Some key /\ r = judge ph.
Proof.
  induction phs as [|ph phs IH]; simpl; [intros [= <-]; by left|].
  destruct (keyEqual key (ph_ProposerPubKey ph)) eqn:Hk; simpl.
  - intros [= <-]. right. exists ph. split; [by left|]. split; [|done].
    unfold keyEqual, pk_Equal in Hk. destruct (ph_ProposerPubKey ph); [|done]. by apply bool_decide_eq_true in Hk as ->.
  - intros Hr. destruct (IH Hr) as [?|(x & Hx & ?)]; [by left|]. right. exists x. split; [by right|done].
Qed.
End lemmas.

(** A proposed header made of a proposal. *)
Record madeOf (p : Proposal) (key : PubKey) (ph : ProposedHeader) : Prop := {
  mo_key : ph.(ph_ProposerPubKey) = Some key;
  mo_data : ph.(ph_Header).(DataID) = p.(pr_DataID);
  mo_annotations : ph.(ph_Annotations) = p.(ProposalAnnotations);
  mo_block_annotations : ph.(ph_Header).(hd_Annotations) = p.(BlockAnnotations)
}.

(** The header is the first one of its proposer. *)
Definition firstOf (key : PubKey) (ph : ProposedHeader) (phs : list ProposedHeader) : Prop :=
  exists before after, phs = before ++ ph :: after /\ Forall (fun x => keyEqual key x.(ph_ProposerPubKey) = false) before.

Lemma considerWith_chosen judge key ph phs hash : firstOf key ph phs -> ph.(ph_ProposerPubKey) = Some key -> judge ph = (hash, None) ->
  considerWith judge (Some key) phs = Ret (hash, None) /\
  chooseFrom (considerWith judge (Some key) phs) = Ret (hash, None).
Proof.
  intros (before & after & -> & Hb) Hk Hj. rewrite considerWith_first; [|done|rewrite Hk; apply keyEqual_same].
  rewrite Hj. by split.
Qed.

(** What a node of the identity application proposes is what all nodes vote for.  In every round one validator has the
    turn; the node with its key proposes on entering, whatever it did before, and any node that entered the same round
    chooses a header made of that proposal, when it is the first one of the proposer that it is shown.  What a node votes
    for is a header of that validator whose data is the hash of height and round. *)
Theorem identity_proposals_chosen {P : Type} (sha256 : bytes -> bytes) (rv : RoundView P) :
  rv.(rv_ValidatorSet).(Validators) <> [] -> 0 <= rv.(rv_Height) -> 0 <= rv.(rv_Round) -> rv.(rv_Height) + rv.(rv_Round) < two63 ->
  exists v p, rv.(rv_ValidatorSet).(Validators) !! turn rv.(rv_Height) rv.(rv_Round) (length rv.(rv_ValidatorSet).(Validators)) = Some v /\
  forall s, exists s', Identity.EnterRound sha256 rv s =
      Ret (s', if keyEqual v.(val_PubKey) s.(Identity.is_PubKey) then Some p else None) /\
    (forall ph phs, madeOf p v.(val_PubKey) ph -> firstOf v.(val_PubKey) ph phs ->
       Identity.ConsiderProposedBlocks sha256 phs s' = Ret (ph.(ph_Header).(Hash), None) /\
       Identity.ChooseProposedBlock sha256 phs s' = Ret (ph.(ph_Header).(Hash), None)) /\
    (forall phs x, Identity.ConsiderProposedBlocks sha256 phs s' = Ret (x, None) -> x <> nilHash ->
       exists ph, ph ∈ phs /\ ph.(ph_ProposerPubKey) = Some v.(val_PubKey) /\ ph.(ph_Header).(Hash) = x /\
         ph.(ph_Header).(DataID) = p.(pr_DataID)).
Proof.
  intros Hne Hh Hr Hsum. destruct (expectedProposer_turn rv Hne Hh Hr Hsum) as (v & Hv & He). set (i := turn _ _ _) in *.
  exists v, (MkProposal (Identity.appDataID sha256 rv.(rv_Height) rv.(rv_Round)) (Identity.driverOnly (Identity.appendInt "p" (Z.of_nat i)))
    (Identity.driverOnly (Identity.appendInt "b" (Z.of_nat i)))). split; [done|]. intros s.
  unfold Identity.EnterRound. rewrite He. cbn [outcome_bind mbind].
  eexists. split; [reflexivity|]. unfold Identity.ChooseProposedBlock, Identity.ConsiderProposedBlocks.
  cbn [Identity.is_expProposerPubKey]. split.
  - intros ph phs [Hk Hd Ha Hb] Hfirst. apply (considerWith_chosen _ _ ph); [done..|]. unfold Identity.judge.
    rewrite Ha, Hb, Hd. cbn. by rewrite !String.eqb_refl.
  - intros phs x [?|(ph & Hin & Hk & Hj)]%considerWith_inv Hx; [congruence|]. exists ph. unfold Identity.judge in Hj.
    destruct (negb _); [congruence|]. destruct (negb _); [congruence|]. cbn in Hj.
    destruct (String.eqb_spec ph.(ph_Header).(DataID) (Identity.appDataID sha256 rv.(rv_Height) rv.(rv_Round))); [|cbn in Hj; congruence].
    cbn in Hj. injection Hj as ->. done.
Qed.

(** The same for the application that shuffles, whose data is the height with the hashes of the header's validators; when
    these cannot be hashed nothing is proposed and the error is returned. *)
Theorem shuffle_proposals_chosen {P : Type} (hs : HashScheme) (rv : RoundView P) hashes :
  let vals := rv.(rv_ValidatorSet).(Validators) in
  vals <> [] -> 0 <= rv.(rv_Height) -> 0 <= rv.(rv_Round) -> rv.(rv_Height) + rv.(rv_Round) < two63 ->
  ValShuffle.validatorHashes hs vals = Ok hashes ->
  exists v p, vals !! turn rv.(rv_Height) rv.(rv_Round) (length vals) = Some v /\
  forall s, exists s', ValShuffle.EnterRound hs rv s =
      Ret (s', if keyEqual v.(val_PubKey) s.(ValShuffle.vs_PubKey) then Some p else None, None) /\
    (forall ph phs, madeOf p v.(val_PubKey) ph -> ph.(ph_Header).(hd_ValidatorSet).(Validators) = vals ->
       firstOf v.(val_PubKey) ph phs ->
       ValShuffle.ConsiderProposedBlocks hs phs s' = Ret (ph.(ph_Header).(Hash), None) /\
       ValShuffle.ChooseProposedBlock hs phs s' = Ret (ph.(ph_Header).(Hash), None)) /\
    (forall phs x, ValShuffle.ConsiderProposedBlocks hs phs s' = Ret (x, None) -> x <> nilHash ->
       exists ph own, ph ∈ phs /\ ph.(ph_ProposerPubKey) = Some v.(val_PubKey) /\ ph.(ph_Header).(Hash) = x /\
         ValShuffle.validatorHashes hs ph.(ph_Header).(hd_ValidatorSet).(Validators) = Ok own /\
         ph.(ph_Header).(DataID) = ValShuffle.appData rv.(rv_Height) own).
Proof.
  intros vals Hne Hh Hr Hsum Hhash. destruct (expectedProposer_turn rv Hne Hh Hr Hsum) as (v & Hv & He). set (i := turn _ _ _) in *.
  exists v, (MkProposal (ValShuffle.appData rv.(rv_Height) hashes) (MkAnnotations nilHash nilHash) (MkAnnotations nilHash nilHash)).
  split; [done|]. intros s. unfold ValShuffle.EnterRound. rewrite He. cbn [outcome_bind mbind ValShuffle.vs_PubKey]. fold vals.
  eexists. split; [rewrite Hhash; by destruct (keyEqual _ _)|].
  unfold ValShuffle.ChooseProposedBlock, ValShuffle.ConsiderProposedBlocks. cbn [ValShuffle.vs_expProposerPubKey]. split.
  - intros ph phs [Hk Hd _ _] Hvals Hfirst. apply (considerWith_chosen _ _ ph); [done..|]. unfold ValShuffle.judge.
    rewrite Hvals, Hhash, Hd. cbn. by rewrite String.eqb_refl.
  - intros phs x [?|(ph & Hin & Hk & Hj)]%considerWith_inv Hx; [congruence|]. unfold ValShuffle.judge in Hj.
    destruct (ValShuffle.validatorHashes hs ph.(ph_Header).(hd_ValidatorSet).(Validators)) as [own|e] eqn:Ho; [|congruence].
    exists ph, own. cbn in Hj.
    destruct (String.eqb_spec ph.(ph_Header).(DataID) (ValShuffle.appData rv.(rv_Height) own)); [|cbn in Hj; congruence].
    cbn in Hj. injection Hj as ->. done.
Qed.

(** ** The validators picked *)
Lemma appendPicked_all vals picked next : Forall (fun i => (i < length vals)%nat) picked ->
  exists more, foldO (ValShuffle.appendPicked vals) next picked = Ret (next ++ more) /\
    Forall2 (fun i v => vals !! i = Some v) picked more.
Proof.
  intros Hp. revert next. induction Hp as [|i picked Hi Hp IH]; intros next; simpl.
  - exists []. by rewrite app_nil_r.
  - destruct (lookup_lt_is_Some_2 vals i Hi) as [v Hv].
    assert (ValShuffle.appendPicked vals next i = Ret (next ++ [v])) as -> by (unfold ValShuffle.appendPicked; by rewrite Hv). simpl.
    destruct (IH (next ++ [v])) as (more & Hf & Hm). exists (v :: more). rewrite Hf, <- app_assoc. split; [done|by constructor].
Qed.

(** All nodes finalize a block alike.  Whatever blocks they finalized before, nodes that started from one genesis answer
    a request for a header that can be hashed with the same response, that names pickN different validators of the
    genesis; when the genesis has fewer, every finalization panics.  What is assumed of the generator is that it draws a
    permutation. *)
Theorem shuffle_nodes_agree {R : Type} (blake2b32 : bytes -> bytes) (NewPCG : Z -> Z -> R) (Perm : nat -> R -> list nat * R)
  (hs : HashScheme) (pickN : Z) (genesis : list Validator) (req : FinalizeBlockRequest) keyHash powHash :
  (forall n r, (Perm n r).1 ≡ₚ seq 0 n) ->
  ValShuffle.validatorHashes hs req.(fr_Header).(hd_ValidatorSet).(Validators) = Ok (keyHash, powHash) -> 0 <= pickN ->
  (pickN <= Z.of_nat (length genesis) ->
   exists idxs vals, NoDup idxs /\ length idxs = Z.to_nat pickN /\ Forall2 (fun i v => genesis !! i = Some v) idxs vals /\
     forall rng, exists rng', ValShuffle.finalizeBlock blake2b32 NewPCG Perm hs pickN req (ValShuffle.MkApp genesis rng) =
       Ret (ValShuffle.MkApp genesis rng', MkFinResp req.(fr_Header).(Height) req.(fr_Round) req.(fr_Header).(Hash) vals
              (ValShuffle.stateHash blake2b32 req.(fr_Header).(Height) keyHash powHash))) /\
  (Z.of_nat (length genesis) < pickN -> forall rng,
     ValShuffle.finalizeBlock blake2b32 NewPCG Perm hs pickN req (ValShuffle.MkApp genesis rng) =
       Panic "runtime error: slice bounds out of range").
Proof.
  intros Hperm Hhash Hpos. unfold ValShuffle.finalizeBlock. rewrite Hhash. cbn [ValShuffle.initVals].
  set (seed := NewPCG _ _). pose proof (Hperm (length genesis) seed) as Hp.
  destruct (Perm (length genesis) seed) as [perm rng'] eqn:EP. simpl in Hp.
  assert (Hl : length perm = length genesis) by (by rewrite Hp, length_seq).
  unfold ValShuffle.pickFrom. rewrite Hl, (proj2 (Z.ltb_ge _ _) Hpos). cbn [orb]. split.
  - intros Hle. rewrite (proj2 (Z.ltb_ge _ _) Hle). cbn [outcome_bind mbind].
    assert (Hin : Forall (fun i => (i < length genesis)%nat) (take (Z.to_nat pickN) perm)).
    { apply Forall_take, Forall_forall. intros i Hi. rewrite Hp in Hi. apply elem_of_seq in Hi. lia. }
    destruct (appendPicked_all genesis _ [] Hin) as (vals & Hf & Hall). exists (take (Z.to_nat pickN) perm), vals. split_and!.
    + assert (Hnd : NoDup perm) by (rewrite Hp; apply NoDup_seq).
      rewrite <- (take_drop (Z.to_nat pickN) perm) in Hnd. by apply NoDup_app in Hnd as [? _].
    + rewrite length_take. lia.
    + done.
    + intros rng. exists rng'. by rewrite Hf.
  - intros Hlt rng. by rewrite (proj2 (Z.ltb_lt _ _) Hlt).
Qed.

(** The second of four validators has the turn at height 1, and proposes. *)
Example identity_turn :
  let view := MkRoundView (P := unit) 1 0 (MkValidatorSet (map (fun n => MkValidator (MkPubKey "toy" n) 1) ["a"; "b"; "c"; "d"]) "h" "p")
    (MkCommitProof 0 nilHash None) [] None None VoteSummary_zero in
  Identity.EnterRound id view (Identity.MkStrategy (Some (MkPubKey "toy" "b")) None 0 0 0) =
  Ret (Identity.MkStrategy (Some (MkPubKey "toy" "b")) (Some (MkPubKey "toy" "b")) 1 1 0,
       Some (MkProposal "Height: 1; Round: 0" (MkAnnotations nilHash "p1") (MkAnnotations nilHash "b1"))).
Proof. vm_compute. reflexivity. Qed.
