(* ===== verification/Text.v ===== *)
(** Text shared by the printing code: fields that end at a separator, lines, hexadecimal and decimal numbers
    (fmt's %x and %d), and splitting at a separator (strings.Split). *)
From S2P Require Import Prelude.
From stdpp Require Import pretty.
From Stdlib Require Import Ascii.

(** ** Separators *)

(** [c] does not occur in [s]. *)
Fixpoint free (c : ascii) (s : bytes) : Prop :=
  match s with EmptyString => True | String x s => x <> c /\ free c s end.

Lemma append_cons c a b : String c a +:+ b = String c (a +:+ b).
Proof. done. Qed.

Lemma free_app c a b : free c (a +:+ b) <-> free c a /\ free c b.
Proof. induction a as [|x a IH]; [simpl; tauto|]. rewrite append_cons. simpl. rewrite IH. tauto. Qed.

Lemma sep_inj c a b x y : free c a -> free c b -> a +:+ String c x = b +:+ String c y -> a = b /\ x = y.
Proof.
  revert b. induction a as [|d a IH]; intros [|e b] Ha Hb; simpl in *.
  - by intros [= ->].
  - intros [= -> _]. tauto.
  - intros [= -> _]. tauto.
  - intros [= -> Heq]. destruct (IH b) as [-> ->]; tauto.
Qed.

Lemma append_inj (a b c : bytes) : a +:+ b = a +:+ c -> b = c.
Proof. induction a; [done|]. rewrite !append_cons. intros [= ?]. auto. Qed.

Lemma append_nil_r (a : bytes) : a +:+ "" = a.
Proof. induction a as [|c a IH]; [done|]. by rewrite append_cons, IH. Qed.

(** ** Lines *)
Definition newline : ascii := "010".
Definition lines (l : list bytes) : bytes := foldr (fun x s => x +:+ String newline s) "" l.

Lemma lines_inj l l' : Forall (free newline) l -> Forall (free newline) l' -> lines l = lines l' -> l = l'.
Proof.
  intros Hl. revert l'. induction Hl as [|x l Hx Hl IH]; intros [|y l'] Hl'; simpl.
  - done.
  - destruct y; discriminate.
  - destruct x; discriminate.
  - apply Forall_cons in Hl' as [Hy Hl']. intros Heq. destruct (sep_inj newline x y _ _ Hx Hy Heq) as [-> Hr].
    by rewrite (IH l').
Qed.

(** ** Hexadecimal *)
Definition hexDigit (n : nat) : ascii := default "0"%char (String.get n "0123456789abcdef").
Fixpoint hex (s : bytes) : bytes :=
  match s with
  | EmptyString => ""
  | String c s => String (hexDigit (nat_of_ascii c / 16)) (String (hexDigit (nat_of_ascii c mod 16)) (hex s))
  end.

Definition unhexDigit (c : ascii) : nat := let n := nat_of_ascii c in if (97 <=? n)%nat then n - 87 else n - 48.

Lemma unhex_hex n : (n < 16)%nat -> unhexDigit (hexDigit n) = n.
Proof. intros Hn. do 16 (destruct n as [|n]; [reflexivity|]). lia. Qed.

Lemma hi_lo c : (nat_of_ascii c / 16 < 16 /\ nat_of_ascii c mod 16 < 16)%nat.
Proof.
  pose proof (nat_ascii_bounded c). split; [apply Nat.Div0.div_lt_upper_bound; lia|by apply Nat.mod_upper_bound].
Qed.

Lemma String_eq c d a b : String c a = String d b -> c = d /\ a = b.
Proof. by intros [= -> ->]. Qed.

Lemma hex_inj a b : hex a = hex b -> a = b.
Proof.
  revert b. induction a as [|c a IH]; intros [|d b]; cbn [hex]; [done..|].
  intros [H1 [H2 H3]%String_eq]%String_eq.
  destruct (hi_lo c) as [Hc1 Hc2], (hi_lo d) as [Hd1 Hd2].
  apply (f_equal unhexDigit) in H1, H2. rewrite !unhex_hex in H1, H2 by done.
  rewrite (IH b H3). f_equal. rewrite <- (ascii_nat_embedding c), <- (ascii_nat_embedding d). f_equal.
  rewrite (Nat.div_mod_eq (nat_of_ascii c) 16), (Nat.div_mod_eq (nat_of_ascii d) 16). by rewrite H1, H2.
Qed.

Lemma hex_length a : String.length (hex a) = (2 * String.length a)%nat.
Proof. induction a as [|c a IH]; cbn [hex String.length]; [done|]. rewrite IH. lia. Qed.

Definition notHex (c : ascii) : Prop := forall n, (n < 16)%nat -> hexDigit n <> c.

Lemma hex_free c a : notHex c -> free c (hex a).
Proof. intros Hc. induction a as [|d a IH]; cbn [hex free]; [done|]. split; [|split; [|done]]; apply Hc, hi_lo. Qed.

(** ** Decimal *)
Definition dec (z : Z) : bytes := pretty (Z.to_N z).

Lemma dec_inj a b : (0 <= a)%Z -> (0 <= b)%Z -> dec a = dec b -> a = b.
Proof. unfold dec. intros Ha Hb Heq%(inj pretty). lia. Qed.

Definition notDigit (c : ascii) : Prop := forall n, pretty_N_char n <> c.

Lemma pretty_go_free c n s : notDigit c -> free c s -> free c (pretty_N_go n s).
Proof.
  intros Hc. revert s. induction (N.lt_wf_0 n) as [n _ IH]; intros s Hs.
  destruct (decide (0 < n)%N) as [Hn|Hn].
  - rewrite pretty_N_go_step by done. apply IH; [by apply N.div_lt|]. simpl. split; [apply Hc|done].
  - assert (n = 0)%N as -> by lia. by rewrite pretty_N_go_0.
Qed.

Lemma dec_free c z : notDigit c -> free c (dec z).
Proof.
  intros Hc. unfold dec, pretty, pretty_N. case_decide; [|by apply pretty_go_free]. simpl. split; [|done].
  intros <-. by apply (Hc 0%N).
Qed.

Lemma dec_nonempty z : dec z <> "".
Proof.
  unfold dec, pretty, pretty_N. case_decide as Hz; [done|].
  assert (Hl : forall n s, (0 < String.length (pretty_N_go n s) \/ n = 0%N)%nat).
  { intros n. induction (N.lt_wf_0 n) as [n _ IH]; intros s. destruct (decide (0 < n)%N) as [Hn|Hn]; [|right; lia].
    left. rewrite pretty_N_go_step by done. destruct (IH (n `div` 10)%N (N.div_lt n 10 Hn eq_refl) (String (pretty_N_char (n `mod` 10)) s)) as [|Hd]; [done|].
    rewrite Hd, pretty_N_go_0. simpl. lia. }
  intros He. destruct (Hl (Z.to_N z) "") as [Hp|]; [|done]. rewrite He in Hp. simpl in Hp. lia.
Qed.

(** ** Splitting *)
Fixpoint splitOn (c : ascii) (s : bytes) : list bytes :=
  match s with
  | EmptyString => [""]
  | String x s =>
      if Ascii.eqb x c then "" :: splitOn c s
      else match splitOn c s with [] => [String x ""] | w :: ws => String x w :: ws end
  end.
Fixpoint joinOn (c : ascii) (ws : list bytes) : bytes :=
  match ws with [] => "" | [w] => w | w :: ws => w +:+ String c (joinOn c ws) end.

Lemma splitOn_nonempty c s : splitOn c s <> [].
Proof. destruct s as [|x s]; simpl; [done|]. destruct (Ascii.eqb x c); [done|]. by destruct (splitOn c s). Qed.

Lemma joinOn_splitOn c s : joinOn c (splitOn c s) = s.
Proof.
  induction s as [|x s IH]; [done|]. simpl. pose proof (splitOn_nonempty c s) as Hne. destruct (Ascii.eqb_spec x c) as [->|].
  - destruct (splitOn c s) as [|w ws]; [done|]. simpl. by rewrite <- IH.
  - destruct (splitOn c s) as [|w [|w' ws]]; [done|..]; rewrite <- IH; done.
Qed.

#[export] Instance splitOn_inj c : Inj (=) (=) (splitOn c).
Proof. intros a b Heq. by rewrite <- (joinOn_splitOn c a), Heq, joinOn_splitOn. Qed.

Lemma splitOn_sep c a b : splitOn c (a +:+ String c b) = splitOn c a ++ splitOn c b.
Proof.
  induction a as [|x a IH]; simpl; [by rewrite Ascii.eqb_refl|]. rewrite IH. destruct (Ascii.eqb x c); [done|].
  pose proof (splitOn_nonempty c a). by destruct (splitOn c a).
Qed.

Lemma splitOn_free c s : free c s -> splitOn c s = [s].
Proof. induction s as [|x s IH]; simpl; [done|]. intros [Hx Hs]. destruct (Ascii.eqb_spec x c); [done|]. by rewrite IH. Qed.

Lemma joinOn_app c ws ws' : ws <> [] -> ws' <> [] -> joinOn c (ws ++ ws') = joinOn c ws +:+ String c (joinOn c ws').
Proof.
  intros Hne Hne'. induction ws as [|w ws IH]; [done|]. destruct ws as [|w2 ws].
  - simpl. by destruct ws'.
  - rewrite <- app_comm_cons. change (joinOn c (w :: (w2 :: ws) ++ ws')) with (w +:+ String c (joinOn c ((w2 :: ws) ++ ws'))).
    rewrite IH by done. change (joinOn c (w :: w2 :: ws)) with (w +:+ String c (joinOn c (w2 :: ws))). by rewrite append_assoc.
Qed.

Lemma splitOn_joinOn c ws : ws <> [] -> Forall (free c) ws -> splitOn c (joinOn c ws) = ws.
Proof.
  intros Hne Hf. induction Hf as [|w ws Hw Hf IH]; [done|]. destruct ws as [|w2 ws]; [by apply splitOn_free|].
  change (joinOn c (w :: w2 :: ws)) with (w +:+ String c (joinOn c (w2 :: ws))). by rewrite splitOn_sep, splitOn_free, IH.
Qed.

Lemma splitOn_words c s : Forall (free c) (splitOn c s).
Proof.
  induction s as [|x s IH]; simpl; [by repeat constructor|]. destruct (Ascii.eqb_spec x c); [by constructor|].
  destruct (splitOn c s) as [|w ws]; [by repeat constructor|]. inversion IH; subst. by constructor.
Qed.
