(* ===== verification/Schemes.v ===== *)
(** The signature scheme and the hash scheme of tm/tmconsensus/tmconsensustest (simplesignaturescheme.go and
    simplehashscheme.go), which the demonstration chains of cmd/ run on: what is signed and what is hashed.

    The hash itself (blake2b) is a parameter.  A nil and an empty annotation print differently, so they are options
    here; the header of Types.v reads the empty one as nil. *)
From S2P Require Import Prelude Types Text BitSets Powers SigProof VoteSummary.
From stdpp Require Import pretty sorting.
Local Open Scope Z_scope.

Definition nonNil (s : bytes) : option bytes := if String.eqb s nilHash then None else Some s.

(** ** SimpleSignatureScheme *)
Definition proposalContent (h : Header) (round : Z) (user driver : option bytes) : bytes :=
  lines ([ "PROPOSAL:"; "Height=" +:+ dec h.(Height); "Round=" +:+ dec round; "PrevBlockHash=" +:+ hex h.(PrevBlockHash);
           "PrevAppStateHash=" +:+ hex h.(PrevAppStateHash); "DataID=" +:+ hex h.(DataID) ] ++
         match user with Some u => ["UserAnnotation=" +:+ hex u] | None => [] end ++
         match driver with Some d => ["DriverAnnotation=" +:+ hex d] | None => [] end).
Definition prevoteContent (vt : VoteTarget) : bytes :=
  if String.eqb vt.(vt_BlockHash) nilHash
  then lines ["NIL PREVOTE:"; "Height=" +:+ dec vt.(vt_Height); "Round=" +:+ dec vt.(vt_Round)]
  else lines ["PREVOTE:"; "Height=" +:+ dec vt.(vt_Height); "Round=" +:+ dec vt.(vt_Round); "BlockHash=" +:+ hex vt.(vt_BlockHash)].
Definition precommitContent (vt : VoteTarget) : bytes :=
  if String.eqb vt.(vt_BlockHash) nilHash
  then lines ["NIL PRECOMMIT:"; "Height=" +:+ dec vt.(vt_Height); "Round=" +:+ dec vt.(vt_Round)]
  else lines ["PRECOMMIT:"; "Height=" +:+ dec vt.(vt_Height); "Round=" +:+ dec vt.(vt_Round); "BlockHash=" +:+ hex vt.(vt_BlockHash)].

Definition SimpleSignatureScheme : SignatureScheme :=
  MkSignatureScheme (fun h r a => Ok (proposalContent h r (nonNil a.(ann_User)) (nonNil a.(ann_Driver))))
    (fun vt => Ok (prevoteContent vt)) (fun vt => Ok (precommitContent vt)).

(** ** SimpleHashScheme *)
Definition blockKey (bh : bytes) : bytes := if String.eqb bh nilHash then "<nil>" else hex bh.

#[export] Instance bytesLe_dec : RelDecision bytesLe.
Proof. intros a b. unfold bytesLe. apply _. Defined.

Definition sigString (sig : SparseSignature) : bytes := hex sig.(ss_KeyID) +:+ ":" +:+ hex sig.(ss_Sig).

(** Strings with a comma between them. *)
Fixpoint commaList (l : list bytes) : bytes :=
  match l with [] => "" | [x] => x | x :: l => x +:+ ", " +:+ commaList l end.

(** The entry for a printed block hash. *)
Definition blockEntry (proofs : gomap (list SparseSignature)) (blockHash : bytes) : bytes :=
  blockHash +:+ " => (" +:+ commaList (merge_sort bytesLe (map sigString (gm_getz [] proofs blockHash))) +:+ ")".
Definition prevCommitBlocks (proofs : gomap (list SparseSignature)) : list bytes :=
  merge_sort bytesLe (map (fun e => blockKey e.1) (gm_entries proofs)).
Definition prevCommitSignatures (proofs : gomap (list SparseSignature)) : bytes :=
  commaList (map (blockEntry proofs) (prevCommitBlocks proofs)).

Definition blockContent (h : Header) (user driver : option bytes) : bytes :=
  lines ([ "BLOCK"; "PrevBlockHash: " +:+ hex h.(PrevBlockHash); "Height: " +:+ dec h.(Height); "PrevCommitProof:";
           "  Round: " +:+ dec h.(PrevCommitProof).(cp_Round); "  PubKeyHash: " +:+ hex h.(PrevCommitProof).(cp_PubKeyHash);
           "  Signatures: " +:+ prevCommitSignatures h.(PrevCommitProof).(cp_Proofs);
           "ValidatorSet: " +:+ hex h.(hd_ValidatorSet).(PubKeyHash) +:+ "." +:+ hex h.(hd_ValidatorSet).(VotePowerHash);
           "NextValidatorSet: " +:+ hex h.(NextValidatorSet).(PubKeyHash) +:+ "." +:+ hex h.(NextValidatorSet).(VotePowerHash);
           "DataID: " +:+ hex h.(DataID); "PrevAppStateHash: " +:+ hex h.(PrevAppStateHash) ] ++
         match user with Some u => ["UserAnnotation: " +:+ hex u] | None => [] end ++
         match driver with Some d => ["DriverAnnotation: " +:+ hex d] | None => [] end).

Section hashes.
Context (blake2b : bytes -> bytes).

Definition Block (h : Header) (user driver : option bytes) : result bytes := Ok (blake2b (blockContent h user driver)).

Definition keysContent (keys : list PubKey) : bytes := joinOn newline (map (fun k => hex k.(pk_PubKeyBytes)) keys).
Definition PubKeys (keys : list PubKey) : outcome (result bytes) :=
  if (length keys =? 0)%nat then Panic "BUG: HashScheme.PubKeys should never be called with zero keys"
  else Ret (Ok (blake2b (keysContent keys))).

Definition powersContent (pows : list Z) : bytes := joinOn "," (map dec pows).
Definition VotePowers (pows : list Z) : outcome (result bytes) :=
  if (length pows =? 0)%nat then Panic "BUG: HashScheme.VotePowers should never be called with zero powers"
  else Ret (Ok (blake2b (powersContent pows))).
End hashes.

(** * What is signed *)
Lemma notHex_newline : notHex newline.
Proof. intros n Hn. do 16 (destruct n as [|n]; [discriminate|]). lia. Qed.
Lemma notHex_space : notHex " ".
Proof. intros n Hn. do 16 (destruct n as [|n]; [discriminate|]). lia. Qed.
Lemma notHex_dot : notHex ".".
Proof. intros n Hn. do 16 (destruct n as [|n]; [discriminate|]). lia. Qed.
Lemma notDigit_newline : notDigit newline.
Proof. intros n. unfold pretty_N_char. by repeat case_match. Qed.
Lemma notDigit_comma : notDigit ",".
Proof. intros n. unfold pretty_N_char. by repeat case_match. Qed.
#[export] Hint Resolve notHex_newline notHex_space notHex_dot notDigit_newline notDigit_comma hex_free dec_free : text.

(** A label and a value that does not contain the separator. *)
Lemma free_label c a b : free c a -> free c b -> free c (a +:+ b).
Proof. intros. by apply free_app. Qed.

Ltac free_lines :=
  repeat first [ apply Forall_nil_2 | apply Forall_cons_2 | apply Forall_app_2 ];
  repeat first [ apply free_label | progress auto with text | by (cbn; repeat split; discriminate) ].

Lemma free_annotation c label (x : option bytes) : notHex c -> free c label ->
  Forall (free c) match x with Some u => [label +:+ hex u] | None => [] end.
Proof. intros. destruct x; [|constructor]. constructor; [|constructor]. apply free_label; auto with text. Qed.

(** The lines of a vote. *)
Definition voteLines (kind : bytes) (vt : VoteTarget) : list bytes :=
  if String.eqb vt.(vt_BlockHash) nilHash
  then ["NIL " +:+ kind; "Height=" +:+ dec vt.(vt_Height); "Round=" +:+ dec vt.(vt_Round)]
  else [kind; "Height=" +:+ dec vt.(vt_Height); "Round=" +:+ dec vt.(vt_Round); "BlockHash=" +:+ hex vt.(vt_BlockHash)].
Lemma prevoteContent_lines vt : prevoteContent vt = lines (voteLines "PREVOTE:" vt).
Proof. unfold prevoteContent, voteLines. by destruct (String.eqb _ _). Qed.
Lemma precommitContent_lines vt : precommitContent vt = lines (voteLines "PRECOMMIT:" vt).
Proof. unfold precommitContent, voteLines. by destruct (String.eqb _ _). Qed.

Lemma voteLines_free kind vt : free newline kind -> Forall (free newline) (voteLines kind vt).
Proof. intros. unfold voteLines. destruct (String.eqb _ _); free_lines; done. Qed.

Lemma field_dec label a b : 0 <= a -> 0 <= b -> label +:+ dec a = label +:+ dec b -> a = b.
Proof. intros Ha Hb Heq%append_inj. by apply dec_inj. Qed.
Lemma field_hex label a b : label +:+ hex a = label +:+ hex b -> a = b.
Proof. intros Heq%append_inj. by apply hex_inj. Qed.

(** The target's numbers are unsigned. *)
Definition vt_ok (vt : VoteTarget) : Prop := 0 <= vt.(vt_Height) /\ 0 <= vt.(vt_Round).

Lemma voteLines_inj kind v1 v2 : vt_ok v1 -> vt_ok v2 -> voteLines kind v1 = voteLines kind v2 -> v1 = v2.
Proof.
  destruct v1 as [h1 r1 b1], v2 as [h2 r2 b2]. unfold vt_ok, voteLines. cbn [vt_Height vt_Round vt_BlockHash].
  intros [Hh1 Hr1] [Hh2 Hr2].
  destruct (String.eqb_spec b1 nilHash) as [->|], (String.eqb_spec b2 nilHash) as [->|]; intros Heq; try discriminate.
  - assert (Hh : "Height=" +:+ dec h1 = "Height=" +:+ dec h2) by congruence.
    assert (Hr : "Round=" +:+ dec r1 = "Round=" +:+ dec r2) by congruence.
    by apply field_dec in Hh as ->, Hr as ->.
  - assert (Hh : "Height=" +:+ dec h1 = "Height=" +:+ dec h2) by congruence.
    assert (Hr : "Round=" +:+ dec r1 = "Round=" +:+ dec r2) by congruence.
    assert (Hb : "BlockHash=" +:+ hex b1 = "BlockHash=" +:+ hex b2) by congruence.
    apply field_dec in Hh as ->, Hr as ->; [|done..]. by apply field_hex in Hb as ->.
Qed.


(** Optional last lines with different labels. *)
Definition optLine (label : bytes) (x : option bytes) : list bytes := match x with Some u => [label +:+ hex u] | None => [] end.
Lemma optLine_inj l x y : optLine l x = optLine l y -> x = y.
Proof.
  destruct x as [u|], y as [v|]; unfold optLine; try done. intros Heq.
  assert (Hl : l +:+ hex u = l +:+ hex v) by congruence. by apply field_hex in Hl as ->.
Qed.

Lemma annotations_inj l l' u1 u2 d1 d2 : (forall a b, l +:+ hex a <> l' +:+ hex b) ->
  optLine l u1 ++ optLine l' d1 = optLine l u2 ++ optLine l' d2 -> u1 = u2 /\ d1 = d2.
Proof.
  intros Hne. destruct u1 as [u1|], u2 as [u2|]; cbn [optLine app].
  - intros Heq. assert (Hl : l +:+ hex u1 = l +:+ hex u2) by congruence. apply field_hex in Hl as ->.
    split; [done|]. apply (optLine_inj l'). congruence.
  - destruct d2 as [d2|]; cbn [optLine]; [|done]. intros Heq. destruct (Hne u1 d2). congruence.
  - destruct d1 as [d1|]; cbn [optLine]; [|done]. intros Heq. destruct (Hne u2 d1). congruence.
  - intros Heq%optLine_inj. done.
Qed.

(** The lines of a proposal. *)
Definition proposalLines (h : Header) (round : Z) (user driver : option bytes) : list bytes :=
  [ "PROPOSAL:"; "Height=" +:+ dec h.(Height); "Round=" +:+ dec round; "PrevBlockHash=" +:+ hex h.(PrevBlockHash);
    "PrevAppStateHash=" +:+ hex h.(PrevAppStateHash); "DataID=" +:+ hex h.(DataID) ] ++
  optLine "UserAnnotation=" user ++ optLine "DriverAnnotation=" driver.

Lemma proposalLines_free h r u d : Forall (free newline) (proposalLines h r u d).
Proof. unfold proposalLines. free_lines; try apply free_annotation; auto with text; cbn; repeat split; discriminate. Qed.

(** What of a header and its round a proposal signature covers. *)
Record sameProposal (h1 h2 : Header) (r1 r2 : Z) : Prop := {
  sp_Height : h1.(Height) = h2.(Height);
  sp_Round : r1 = r2;
  sp_PrevBlockHash : h1.(PrevBlockHash) = h2.(PrevBlockHash);
  sp_PrevAppStateHash : h1.(PrevAppStateHash) = h2.(PrevAppStateHash);
  sp_DataID : h1.(DataID) = h2.(DataID)
}.

Lemma proposalLines_inj h1 h2 r1 r2 u1 u2 d1 d2 : 0 <= h1.(Height) -> 0 <= h2.(Height) -> 0 <= r1 -> 0 <= r2 ->
  proposalLines h1 r1 u1 d1 = proposalLines h2 r2 u2 d2 -> sameProposal h1 h2 r1 r2 /\ u1 = u2 /\ d1 = d2.
Proof.
  intros Hh1 Hh2 Hr1 Hr2 Heq. unfold proposalLines in Heq.
  apply app_inj_1 in Heq as [Hf Ha]; [|done]. split; [|by apply annotations_inj in Ha].
  split; [apply (field_dec "Height=")|apply (field_dec "Round=")|apply (field_hex "PrevBlockHash=")
         |apply (field_hex "PrevAppStateHash=")|apply (field_hex "DataID=")]; try done; congruence.
Qed.

(** C21: the simple signature scheme signs exactly what is meant.  A prevote and a precommit each name one height, round
    and block hash, so no signature counts for two targets or for both kinds, and none is a proposal signature.
    A proposal signature names height, round, previous block and application state, data and annotations, and nothing
    else: two headers that differ in hash, previous commit proof or validators have the same signing content, so
    with the proposer's signature for one, anyone can present the other. *)
Theorem signing_contents_exact :
  (forall v1 v2, vt_ok v1 -> vt_ok v2 ->
     (prevoteContent v1 = prevoteContent v2 <-> v1 = v2) /\ (precommitContent v1 = precommitContent v2 <-> v1 = v2) /\
     prevoteContent v1 <> precommitContent v2) /\
  (forall h1 h2 r1 r2 u1 u2 d1 d2, 0 <= h1.(Height) -> 0 <= h2.(Height) -> 0 <= r1 -> 0 <= r2 ->
     (proposalContent h1 r1 u1 d1 = proposalContent h2 r2 u2 d2 <-> sameProposal h1 h2 r1 r2 /\ u1 = u2 /\ d1 = d2)) /\
  (forall h r u d v, proposalContent h r u d <> prevoteContent v /\ proposalContent h r u d <> precommitContent v).
Proof.
  assert (Hp : forall v, Forall (free newline) (voteLines "PREVOTE:" v)) by (intros; apply voteLines_free; repeat split; discriminate).
  assert (Hc : forall v, Forall (free newline) (voteLines "PRECOMMIT:" v)) by (intros; apply voteLines_free; repeat split; discriminate).
  setoid_rewrite prevoteContent_lines. setoid_rewrite precommitContent_lines.
  change proposalContent with (fun h r u d => lines (proposalLines h r u d)). cbv beta. split; [|split].
  - intros v1 v2 H1 H2. split; [|split].
    + split; [|by intros ->]. intros Heq%lines_inj; [|done..]. by apply voteLines_inj in Heq.
    + split; [|by intros ->]. intros Heq%lines_inj; [|done..]. by apply voteLines_inj in Heq.
    + intros Heq%lines_inj; [|done..]. unfold voteLines in Heq.
      destruct (String.eqb (vt_BlockHash v1) _), (String.eqb (vt_BlockHash v2) _); discriminate.
  - intros h1 h2 r1 r2 u1 u2 d1 d2 Hh1 Hh2 Hr1 Hr2. split.
    + intros Heq%lines_inj; [|apply proposalLines_free..]. by apply proposalLines_inj.
    + intros ([E1 E2 E3 E4 E5] & -> & ->). unfold proposalLines. by rewrite E1, E2, E3, E4, E5.
  - intros h r u d v. split; intros Heq%lines_inj; try apply proposalLines_free; try done;
      unfold voteLines in Heq; destruct (String.eqb _ _); discriminate.
Qed.

(** * What is hashed *)

(** Block hashes as the scheme makes them: nil or 32 bytes long. *)
Definition hashes32 (proofs : gomap (list SparseSignature)) : Prop :=
  forall bh, is_Some (gm_get proofs bh) -> bh = nilHash \/ String.length bh = 32%nat.

(** A printed block hash is never one itself, so the lookup of its signatures finds nothing. *)
Lemma printed_not_found proofs bh : hashes32 proofs -> is_Some (gm_get proofs bh) -> gm_getz [] proofs (blockKey bh) = [].
Proof.
  intros Hk Hb. unfold gm_getz. destruct (gm_get proofs (blockKey bh)) as [sigs|] eqn:E; [|done]. exfalso.
  assert (Hlen : String.length (blockKey bh) <> 0%nat /\ String.length (blockKey bh) <> 32%nat).
  { destruct (Hk bh Hb) as [->|Hl]; [done|]. unfold blockKey.
    destruct (String.eqb_spec bh nilHash) as [->|]; [done|]. rewrite hex_length, Hl. lia. }
  destruct (Hk (blockKey bh)) as [Hn|Hn]; [by eexists|rewrite Hn in Hlen; by destruct Hlen|lia].
Qed.

Lemma blockKey_inj a b : blockKey a = blockKey b -> a = b.
Proof.
  assert (Hn : forall x, "<nil>" <> hex x).
  { intros x Heq. assert (Hf : free "<" (hex x)).
    { apply hex_free. intros n Hn. do 16 (destruct n as [|n]; [discriminate|]). lia. }
    rewrite <- Heq in Hf. by destruct Hf. }
  unfold blockKey. destruct (String.eqb_spec a nilHash) as [->|], (String.eqb_spec b nilHash) as [->|]; intros Heq; try done.
  - by destruct (Hn b).
  - by destruct (Hn a).
  - by apply hex_inj.
Qed.

Lemma blockKey_free c bh : notHex c -> free c "<nil>" -> free c (blockKey bh).
Proof. intros. unfold blockKey. destruct (String.eqb _ _); [done|by apply hex_free]. Qed.

Definition bareEntry (k : bytes) : bytes := k +:+ " => ()".

Lemma commaList_inj l l' : Forall (free " ") l -> Forall (free " ") l' ->
  commaList (map bareEntry l) = commaList (map bareEntry l') -> l = l'.
Proof.
  intros Hl. revert l'. induction Hl as [|x l Hx Hl IH]; intros l' Hl' Heq.
  - destruct Hl' as [|y l' Hy]; [done|]. destruct y, l'; discriminate Heq.
  - destruct Hl' as [|y l' Hy Hl']; [destruct x, l; discriminate Heq|].
    assert (Hcut : forall z m, exists t, commaList (map bareEntry (z :: m)) = z +:+ String " " ("=> ()" +:+ t) /\
      ((m = [] /\ t = "") \/ (m <> [] /\ t = ", " +:+ commaList (map bareEntry m)))).
    { intros z [|w m]; [exists ""|exists (", " +:+ commaList (map bareEntry (w :: m)))]; cbn [map commaList]; unfold bareEntry.
      - split; [done|by left].
      - rewrite append_assoc. split; [done|by right]. }
    destruct (Hcut x l) as (t & E1 & Ht), (Hcut y l') as (t' & E2 & Ht'). rewrite E1, E2 in Heq.
    destruct (sep_inj " " _ _ _ _ Hx Hy Heq) as [-> Heq2%append_inj]. subst t'.
    destruct Ht as [[-> ->]|[Hn ->]], Ht' as [[-> Ht']|[Hn' Ht']]; try done.
    apply append_inj in Ht'. by rewrite (IH l').
Qed.

Lemma prevCommitSignatures_bare proofs : hashes32 proofs ->
  prevCommitSignatures proofs = commaList (map bareEntry (prevCommitBlocks proofs)).
Proof.
  intros Hk. unfold prevCommitSignatures. f_equal. apply map_ext_in. intros x Hx.
  apply list_elem_of_In in Hx. unfold prevCommitBlocks in Hx. rewrite merge_sort_Permutation in Hx.
  apply list_elem_of_fmap in Hx as ([bh sigs] & -> & Hin). unfold gm_entries in Hin. apply elem_of_map_to_list in Hin.
  unfold blockEntry. by rewrite printed_not_found by (try done; by eexists).
Qed.

Lemma prevCommitBlocks_elem proofs bh : blockKey bh ∈ prevCommitBlocks proofs <-> is_Some (gm_get proofs bh).
Proof.
  unfold prevCommitBlocks. rewrite merge_sort_Permutation. split.
  - intros ([k sigs] & Heq%blockKey_inj & Hin)%list_elem_of_fmap. simpl in Heq. subst bh.
    unfold gm_entries in Hin. apply elem_of_map_to_list in Hin. by eexists.
  - intros [sigs Hs]. apply (list_elem_of_fmap_2 (fun e => blockKey e.1) _ (bh, sigs)). unfold gm_entries. by apply elem_of_map_to_list.
Qed.

#[export] Instance bytesLe_total : Total bytesLe.
Proof.
  intros a b. destruct (decide (bytesLe a b)) as [|Hn]; [by left|]. right. apply bytesLe_ltb. by apply not_false_is_true.
Qed.

Lemma prevCommitBlocks_dom p1 p2 : (forall bh, is_Some (gm_get p1 bh) <-> is_Some (gm_get p2 bh)) ->
  prevCommitBlocks p1 = prevCommitBlocks p2.
Proof.
  intros Hd. unfold prevCommitBlocks.
  apply (StronglySorted_unique bytesLe); [apply StronglySorted_merge_sort; apply _..|]. rewrite !merge_sort_Permutation.
  assert (Hf : forall l : list (bytes * list SparseSignature), map (fun e => blockKey e.1) l = blockKey <$> l.*1).
  { intros l. by rewrite <- list_fmap_compose. }
  rewrite !Hf. f_equiv. apply NoDup_Permutation; [apply NoDup_fst_map_to_list..|].
  intros bh. unfold gm_entries. unfold gm_get in Hd.
  assert (Hin : forall m : gmap bytes (list SparseSignature), bh ∈ (map_to_list m).*1 <-> is_Some (m !! bh)).
  { intros m. rewrite list_elem_of_fmap. split.
    - intros ([k v] & -> & Hkv%elem_of_map_to_list). by eexists.
    - intros [v Hv]. exists (bh, v). by rewrite elem_of_map_to_list. }
  rewrite !Hin. apply Hd.
Qed.

(** What of a header its block hash depends on: all of it, except its own hash and the signatures in the previous
    commit proof. *)
Record sameBlock (h1 h2 : Header) : Prop := {
  sb_PrevBlockHash : h1.(PrevBlockHash) = h2.(PrevBlockHash);
  sb_Height : h1.(Height) = h2.(Height);
  sb_Round : h1.(PrevCommitProof).(cp_Round) = h2.(PrevCommitProof).(cp_Round);
  sb_PubKeyHash : h1.(PrevCommitProof).(cp_PubKeyHash) = h2.(PrevCommitProof).(cp_PubKeyHash);
  sb_Proofs bh : is_Some (gm_get h1.(PrevCommitProof).(cp_Proofs) bh) <-> is_Some (gm_get h2.(PrevCommitProof).(cp_Proofs) bh);
  sb_Keys : h1.(hd_ValidatorSet).(PubKeyHash) = h2.(hd_ValidatorSet).(PubKeyHash);
  sb_Powers : h1.(hd_ValidatorSet).(VotePowerHash) = h2.(hd_ValidatorSet).(VotePowerHash);
  sb_NextKeys : h1.(NextValidatorSet).(PubKeyHash) = h2.(NextValidatorSet).(PubKeyHash);
  sb_NextPowers : h1.(NextValidatorSet).(VotePowerHash) = h2.(NextValidatorSet).(VotePowerHash);
  sb_DataID : h1.(DataID) = h2.(DataID);
  sb_PrevAppStateHash : h1.(PrevAppStateHash) = h2.(PrevAppStateHash)
}.

(** The numbers of a header are unsigned, and its previous commit proof is for hashes the scheme makes. *)
Definition header_ok (h : Header) : Prop :=
  0 <= h.(Height) /\ 0 <= h.(PrevCommitProof).(cp_Round) /\ hashes32 h.(PrevCommitProof).(cp_Proofs).

Definition blockLines (h : Header) (user driver : option bytes) : list bytes :=
  [ "BLOCK"; "PrevBlockHash: " +:+ hex h.(PrevBlockHash); "Height: " +:+ dec h.(Height); "PrevCommitProof:";
    "  Round: " +:+ dec h.(PrevCommitProof).(cp_Round); "  PubKeyHash: " +:+ hex h.(PrevCommitProof).(cp_PubKeyHash);
    "  Signatures: " +:+ prevCommitSignatures h.(PrevCommitProof).(cp_Proofs);
    "ValidatorSet: " +:+ hex h.(hd_ValidatorSet).(PubKeyHash) +:+ "." +:+ hex h.(hd_ValidatorSet).(VotePowerHash);
    "NextValidatorSet: " +:+ hex h.(NextValidatorSet).(PubKeyHash) +:+ "." +:+ hex h.(NextValidatorSet).(VotePowerHash);
    "DataID: " +:+ hex h.(DataID); "PrevAppStateHash: " +:+ hex h.(PrevAppStateHash) ] ++
  optLine "UserAnnotation: " user ++ optLine "DriverAnnotation: " driver.

Lemma commaList_free c l : free c ", " -> Forall (free c) l -> free c (commaList l).
Proof.
  intros Hc Hl. induction Hl as [|x l Hx Hl IH]; [done|]. destruct l as [|y l]; [done|].
  change (commaList (x :: y :: l)) with (x +:+ ", " +:+ commaList (y :: l)). by repeat apply free_label.
Qed.

Lemma prevCommitSignatures_free proofs : free newline (prevCommitSignatures proofs).
Proof.
  apply commaList_free; [by repeat split|]. apply Forall_map, Forall_forall. intros x Hx. unfold prevCommitBlocks in Hx.
  rewrite merge_sort_Permutation in Hx. apply list_elem_of_fmap in Hx as (e & -> & _). cbn. unfold blockEntry.
  repeat apply free_label; [apply blockKey_free; [auto with text|by repeat split]|by repeat split| |by repeat split].
  apply commaList_free; [by repeat split|]. apply Forall_forall. intros y Hy. rewrite merge_sort_Permutation in Hy.
  apply list_elem_of_fmap in Hy as (sig & -> & _). unfold sigString. repeat apply free_label; auto with text. by repeat split.
Qed.
#[export] Hint Resolve prevCommitSignatures_free : text.

Lemma blockLines_free h u d : Forall (free newline) (blockLines h u d).
Proof. unfold blockLines. free_lines; try apply free_annotation; auto with text; cbn; repeat split; discriminate. Qed.

Lemma hexPair_inj label a b a' b' :
  label +:+ hex a +:+ "." +:+ hex b = label +:+ hex a' +:+ "." +:+ hex b' -> a = a' /\ b = b'.
Proof.
  intros Heq%append_inj. change ("." +:+ ?x) with (String "." x) in Heq.
  apply sep_inj in Heq as [->%hex_inj ->%hex_inj]; auto with text.
Qed.

Lemma blockLines_inj h1 h2 u1 u2 d1 d2 : header_ok h1 -> header_ok h2 ->
  blockLines h1 u1 d1 = blockLines h2 u2 d2 -> sameBlock h1 h2 /\ u1 = u2 /\ d1 = d2.
Proof.
  intros (Hh1 & Hr1 & Hk1) (Hh2 & Hr2 & Hk2) Heq. unfold blockLines in Heq.
  apply app_inj_1 in Heq as [Hf Ha]; [|done]. split; [|by apply annotations_inj in Ha].
  assert (Hv : "ValidatorSet: " +:+ hex h1.(hd_ValidatorSet).(PubKeyHash) +:+ "." +:+ hex h1.(hd_ValidatorSet).(VotePowerHash) =
    "ValidatorSet: " +:+ hex h2.(hd_ValidatorSet).(PubKeyHash) +:+ "." +:+ hex h2.(hd_ValidatorSet).(VotePowerHash)) by congruence.
  assert (Hn : "NextValidatorSet: " +:+ hex h1.(NextValidatorSet).(PubKeyHash) +:+ "." +:+ hex h1.(NextValidatorSet).(VotePowerHash) =
    "NextValidatorSet: " +:+ hex h2.(NextValidatorSet).(PubKeyHash) +:+ "." +:+ hex h2.(NextValidatorSet).(VotePowerHash)) by congruence.
  assert (Hs : "  Signatures: " +:+ prevCommitSignatures h1.(PrevCommitProof).(cp_Proofs) =
    "  Signatures: " +:+ prevCommitSignatures h2.(PrevCommitProof).(cp_Proofs)) by congruence.
  apply hexPair_inj in Hv as [Hv1 Hv2], Hn as [Hn1 Hn2]. apply append_inj in Hs.
  rewrite !prevCommitSignatures_bare in Hs by done.
  apply commaList_inj in Hs.
  2,3: apply Forall_forall; intros x Hx; unfold prevCommitBlocks in Hx; rewrite merge_sort_Permutation in Hx;
       apply list_elem_of_fmap in Hx as (e & -> & _); apply blockKey_free; [auto with text|by repeat split].
  split; try done.
  - apply (field_hex "PrevBlockHash: "). congruence.
  - apply (field_dec "Height: "); try done. congruence.
  - apply (field_dec "  Round: "); try done. congruence.
  - apply (field_hex "  PubKeyHash: "). congruence.
  - intros bh. by rewrite <- !prevCommitBlocks_elem, Hs.
  - apply (field_hex "DataID: "). congruence.
  - apply (field_hex "PrevAppStateHash: "). congruence.
Qed.

(** The hashes of a validator set cover its keys and powers in order: distinct lists have distinct hashed contents. *)
Lemma keysContent_inj k1 k2 : k1 <> [] -> k2 <> [] -> keysContent k1 = keysContent k2 -> map pk_PubKeyBytes k1 = map pk_PubKeyBytes k2.
Proof.
  intros H1 H2 Heq%(f_equal (splitOn newline)). unfold keysContent in Heq.
  rewrite !splitOn_joinOn in Heq; try (by intros Hn%map_eq_nil); try (apply Forall_map, Forall_true; intros; cbn; auto with text).
  rewrite <- !(map_map pk_PubKeyBytes hex) in Heq. revert Heq. generalize (map pk_PubKeyBytes k1) (map pk_PubKeyBytes k2).
  intros l. induction l as [|x l IH]; intros [|y l']; cbn [map]; try done. intros Heq.
  assert (Hx : hex x = hex y) by congruence. apply hex_inj in Hx as ->. f_equal. apply IH. congruence.
Qed.

Lemma powersContent_inj p1 p2 : p1 <> [] -> p2 <> [] -> Forall (fun z => 0 <= z) p1 -> Forall (fun z => 0 <= z) p2 ->
  powersContent p1 = powersContent p2 -> p1 = p2.
Proof.
  intros H1 H2 Hp1 Hp2 Heq%(f_equal (splitOn ",")). unfold powersContent in Heq.
  rewrite !splitOn_joinOn in Heq; try (by intros Hn%map_eq_nil); try (apply Forall_map, Forall_true; intros; cbn; auto with text).
  clear H1 H2. revert p2 Hp2 Heq. induction Hp1 as [|x l Hx Hl IH]; intros [|y l'] Hp2; cbn [map]; try done. intros Heq.
  apply Forall_cons in Hp2 as [Hy Hp2].
  assert (Hxy : dec x = dec y) by congruence. apply dec_inj in Hxy as ->; [|done..]. f_equal. apply IH; [done|congruence].
Qed.

(** The hashes of a validator set are those the hash scheme makes of its keys and its powers, as the code computes
    them for a new validator set and the compliance tests of a hash scheme recompute them for a changed one. *)
Record hashedSet (blake2b : bytes -> bytes) (s : ValidatorSet) : Prop := {
  hs_keys : PubKeys blake2b (map val_PubKey s.(Validators)) = Ret (Ok s.(PubKeyHash));
  hs_powers : VotePowers blake2b (map val_Power s.(Validators)) = Ret (Ok s.(VotePowerHash));
  hs_range : Forall (fun v => 0 <= v.(val_Power)) s.(Validators)
}.

(** Two different contents with one hash. *)
Definition collides (blake2b : bytes -> bytes) : Prop := exists x y, x <> y /\ blake2b x = blake2b y.

(** Two validator sets with the same key bytes and powers in the same order. *)
Definition sameValidators (s1 s2 : ValidatorSet) : Prop :=
  map (pk_PubKeyBytes ∘ val_PubKey) s1.(Validators) = map (pk_PubKeyBytes ∘ val_PubKey) s2.(Validators) /\
  map val_Power s1.(Validators) = map val_Power s2.(Validators).

Lemma hashedSet_inj blake2b s1 s2 : hashedSet blake2b s1 -> hashedSet blake2b s2 ->
  s1.(PubKeyHash) = s2.(PubKeyHash) -> s1.(VotePowerHash) = s2.(VotePowerHash) ->
  sameValidators s1 s2 \/ collides blake2b.
Proof.
  intros [Hk1 Hp1 Hr1] [Hk2 Hp2 Hr2] Ek Ep. unfold PubKeys, VotePowers in *. rewrite !length_map in *.
  destruct (length (Validators s1) =? 0)%nat eqn:E1; [done|]. destruct (length (Validators s2) =? 0)%nat eqn:E2; [done|].
  apply Nat.eqb_neq in E1, E2.
  assert (Hne : forall {X} (f : Validator -> X) s, length (Validators s) <> 0%nat -> map f (Validators s) <> []).
  { intros X f s Hl Hn. apply Hl. by destruct (Validators s). }
  injection Hk1 as Hk1. injection Hk2 as Hk2. injection Hp1 as Hp1. injection Hp2 as Hp2.
  destruct (decide (keysContent (map val_PubKey (Validators s1)) = keysContent (map val_PubKey (Validators s2)))) as [Hk|Hk];
    [|right; eexists _, _; split; [exact Hk|congruence]].
  destruct (decide (powersContent (map val_Power (Validators s1)) = powersContent (map val_Power (Validators s2)))) as [Hp|Hp];
    [|right; eexists _, _; split; [exact Hp|congruence]].
  left. split.
  - apply keysContent_inj in Hk; [|by apply Hne..]. by rewrite !map_map in Hk.
  - apply powersContent_inj in Hp; [done|by apply Hne|by apply Hne|by apply Forall_map..].
Qed.

(** C22: what the block hash commits to.  Take headers with non-negative heights and rounds whose previous commit proofs
    are for nil and for hashes of 32 bytes.  Two of them have the same hashed content just when they agree in previous
    block, height, application state, data, both annotations, the PubKeyHash and the VotePowerHash of both validator
    sets, and in round, key hash and voted block hashes of the previous commit proof.  The signatures of that proof
    have no influence, since the printed block hash is looked up among the raw ones and never found (it could be, if
    a raw one read like a printed one): a peer can strip or replace them without changing the hash.  The lists of
    validators enter only through the two hashes; so if these are the hashes of the lists, equal contents mean that
    the lists have the same key bytes and powers in the same order, unless the hash function collides. *)
Theorem block_content_exact (blake2b : bytes -> bytes) (h1 h2 : Header) (u1 u2 d1 d2 : option bytes) :
  header_ok h1 -> header_ok h2 ->
  (blockContent h1 u1 d1 = blockContent h2 u2 d2 <-> sameBlock h1 h2 /\ u1 = u2 /\ d1 = d2) /\
  (blockContent h1 u1 d1 = blockContent h2 u2 d2 ->
   hashedSet blake2b h1.(hd_ValidatorSet) -> hashedSet blake2b h2.(hd_ValidatorSet) ->
   hashedSet blake2b h1.(NextValidatorSet) -> hashedSet blake2b h2.(NextValidatorSet) ->
   sameValidators h1.(hd_ValidatorSet) h2.(hd_ValidatorSet) /\
   sameValidators h1.(NextValidatorSet) h2.(NextValidatorSet) \/ collides blake2b).
Proof.
  intros Hok1 Hok2. change blockContent with (fun h u d => lines (blockLines h u d)). cbv beta.
  assert (Hsame : lines (blockLines h1 u1 d1) = lines (blockLines h2 u2 d2) -> sameBlock h1 h2 /\ u1 = u2 /\ d1 = d2).
  { intros Heq%lines_inj; [|apply blockLines_free..]. by apply blockLines_inj. }
  split; [split; [done|]|].
  - intros ([E1 E2 E3 E4 E5 E6 E7 E8 E9 E10 E11] & -> & ->). destruct Hok1 as (_ & _ & Hk1), Hok2 as (_ & _ & Hk2).
    unfold blockLines. rewrite !prevCommitSignatures_bare by done.
    by rewrite (prevCommitBlocks_dom _ _ E5), E1, E2, E3, E4, E6, E7, E8, E9, E10, E11.
  - intros (Hs & _ & _)%Hsame H1 H2 N1 N2.
    destruct (hashedSet_inj _ _ _ H1 H2 (sb_Keys _ _ Hs) (sb_Powers _ _ Hs)) as [Hv|Hc]; [|by right].
    destruct (hashedSet_inj _ _ _ N1 N2 (sb_NextKeys _ _ Hs) (sb_NextPowers _ _ Hs)) as [Hn|Hc]; [|by right]. by left.
Qed.

(** ** Witnesses *)
Lemma signing_contents_exact_witness :
  prevoteContent (MkVoteTarget 1 0 "x") <> prevoteContent (MkVoteTarget 1 1 "x") /\
  proposalContent Header_zero 0 None None = proposalContent {| Header_zero with Hash := "other" |} 0 None None.
Proof.
  destruct signing_contents_exact as (Hv & Hp & _). split.
  - intros Heq. apply Hv in Heq; [discriminate|split; vm_compute; discriminate..].
  - apply Hp; [vm_compute; discriminate..|]. split; [|done]. split; reflexivity.
Defined.

(** A certified header and the same one without its signatures. *)
Definition hashA : bytes := "aaaaaaaaaaaaaaaaaaaaaaaaaaaaaaaa".
Definition signedHeader : Header :=
  {| Header_zero with PrevCommitProof := MkCommitProof 0 "k" (Some {[hashA := [MkSparseSignature "0" "sig"]]}) |}.
Definition strippedHeader : Header := {| Header_zero with PrevCommitProof := MkCommitProof 0 "k" (Some {[hashA := []]}) |}.

Lemma one_hash32 (sigs : list SparseSignature) bh : is_Some (gm_get (Some ({[hashA := sigs]} : gmap bytes _)) bh) <-> bh = hashA.
Proof.
  unfold gm_get. change (gm_map (Some ?g)) with g. split.
  - intros [x Hx]. by apply lookup_singleton_Some in Hx as [<- _].
  - intros ->. rewrite lookup_singleton_eq. by eexists.
Qed.

(** Two validators, and the same two with another name for their key type. *)
Definition twoValidators (typeName : bytes) : ValidatorSet :=
  let vs := [MkValidator (MkPubKey typeName "a") 1; MkValidator (MkPubKey typeName "b") 2] in
  MkValidatorSet vs (keysContent (map val_PubKey vs)) (powersContent (map val_Power vs)).
Lemma twoValidators_hashed typeName : hashedSet id (twoValidators typeName).
Proof. split; [reflexivity|reflexivity|]. repeat constructor; vm_compute; discriminate. Qed.
Definition withSets (s : ValidatorSet) (h : Header) : Header := {| h with hd_ValidatorSet := s; NextValidatorSet := s |}.

Lemma block_content_exact_witness :
  blockContent (withSets (twoValidators "k") signedHeader) None None =
    blockContent (withSets (twoValidators "l") strippedHeader) None None /\
  (sameValidators (twoValidators "k") (twoValidators "l") /\ sameValidators (twoValidators "k") (twoValidators "l") \/ collides id).
Proof.
  assert (Hok1 : header_ok (withSets (twoValidators "k") signedHeader)).
  { split; [vm_compute; discriminate|]. split; [vm_compute; discriminate|]. intros bh Hb. apply one_hash32 in Hb as ->. by right. }
  assert (Hok2 : header_ok (withSets (twoValidators "l") strippedHeader)).
  { split; [vm_compute; discriminate|]. split; [vm_compute; discriminate|]. intros bh Hb. apply one_hash32 in Hb as ->. by right. }
  destruct (block_content_exact id (withSets (twoValidators "k") signedHeader) (withSets (twoValidators "l") strippedHeader)
    None None None None Hok1 Hok2) as [Hiff Hsets].
  assert (Heq : blockContent (withSets (twoValidators "k") signedHeader) None None =
    blockContent (withSets (twoValidators "l") strippedHeader) None None).
  { apply Hiff. split; [|split; reflexivity]. split; try reflexivity. intros bh.
    transitivity (bh = hashA); [apply one_hash32|symmetry; apply one_hash32]. }
  split; [exact Heq|].
  exact (Hsets Heq (twoValidators_hashed "k") (twoValidators_hashed "l") (twoValidators_hashed "k") (twoValidators_hashed "l")).
Defined.
