(* ===== verification/Assertions.v ===== *)
(** The rules of gassert/env_debug.go that enable the debug assertions of the engine: parsing them from a
    comma-separated string or a file, and deciding whether an assertion is enabled.

    Enabled runs its cache lookups and updates under a lock and looks again once it holds the write lock, so a call is
    one step here.  The logger is a flag. *)
From S2P Require Import Prelude Types Text.
From stdpp Require Import sorting.
From Stdlib Require Import Ascii.

(** ** Strings *)
Fixpoint contains (sub s : bytes) : bool :=
  String.prefix sub s || match s with EmptyString => false | String _ s => contains sub s end.
Fixpoint countChar (c : ascii) (s : bytes) : nat :=
  match s with EmptyString => 0 | String x s => (if Ascii.eqb x c then 1 else 0) + countChar c s end.
(** strings.CutPrefix for one character, and strings.CutSuffix. *)
Definition cutChar (c : ascii) (s : bytes) : option bytes :=
  match s with String x s => if Ascii.eqb x c then Some s else None | EmptyString => None end.
Fixpoint cutSuffix (suf s : bytes) : option bytes :=
  if String.eqb s suf then Some "" else match s with EmptyString => None | String c s => String c <$> cutSuffix suf s end.

(** ** Environment *)
Record Environment := MkEnvironment {
  prefixes : list (list bytes); excludes : list (list bytes); exacts : list (list bytes);
  cache : option (gmap bytes bool); onlyLog : bool
}.
Definition Environment_zero : Environment := MkEnvironment [] [] [] None false.
Implicit Types e : Environment.

Definition parseSingleRule (r : bytes) e : result Environment :=
  if (String.length r =? 0)%nat then Err (ErrOther "received empty rule")
  else if contains ".." r then Err (ErrOther "dot-separated sections may not be empty")
  else if contains "!" r then
    match cutChar "!" r with
    | None => Err (ErrOther "! may only occur at the start of the rule, indicating an exclusion")
    | Some exRule =>
        if contains "*" exRule then Err (ErrOther "wildcards are not allowed with exclusion rules")
        else Ok {| e with excludes := e.(excludes) ++ [splitOn "." exRule] |}
    end
  else
    let nStars := countChar "*" r in
    if (1 <? nStars)%nat then Err (ErrOther "may contain at most one *, and it must be at the end")
    else if (nStars =? 1)%nat then
      if String.eqb r "*" then Ok {| e with prefixes := e.(prefixes) ++ [[]] |}
      else
        match cutSuffix ".*" r with
        | None => Err (ErrOther "* only allowed as last element of dot-separated rule")
        | Some p => Ok {| e with prefixes := e.(prefixes) ++ [splitOn "." p] |}
        end
    else Ok {| e with exacts := e.(exacts) ++ [splitOn "." r] |}.

(** The sort compares lengths; which of several slices of one length comes first does not matter. *)
Definition shorter (a b : list bytes) : Prop := length a <= length b.
#[export] Instance shorter_dec : RelDecision shorter.
Proof. intros a b. unfold shorter. apply _. Defined.
Definition sortRules e : Environment :=
  {| e with prefixes := merge_sort shorter e.(prefixes); excludes := merge_sort shorter e.(excludes);
            exacts := merge_sort shorter e.(exacts) |}.

Fixpoint parseRules (rs : list bytes) e : result Environment :=
  match rs with
  | [] => Ok e
  | r :: rs => match parseSingleRule r e with Err err => Err err | Ok e => parseRules rs e end
  end.

Definition EnvironmentFromString (input : bytes) : result Environment :=
  if String.eqb input "" then Ok Environment_zero
  else match parseRules (splitOn "," input) Environment_zero with Err err => Err err | Ok e => Ok (sortRules e) end.

(** bufio.Scanner with a buffer of 512 bytes: the lines up to the first one that does not fit. *)
Fixpoint dropCR (s : bytes) : bytes :=
  match s with EmptyString => "" | String c "" => if Ascii.eqb c "013" then "" else s | String c s => String c (dropCR s) end.
Fixpoint scanned (ls : list bytes) : list bytes :=
  match ls with
  | [] => []
  | [l] => if String.eqb l "" || (512 <=? String.length l)%nat then [] else [dropCR l]
  | l :: ls => if (512 <=? String.length l)%nat then [] else dropCR l :: scanned ls
  end.

(** The loop over the lines: errors so far and their number. *)
Fixpoint parseLines (ls : list bytes) e (errs : option error) (nErrs : nat) : result Environment :=
  match ls with
  | [] => match errs with Some err => Err err | None => Ok e end
  | line :: ls =>
      if String.eqb line "" || String.prefix "#" line then parseLines ls e errs nErrs
      else
        match parseSingleRule line e with
        | Ok e => parseLines ls e errs nErrs
        | Err err =>
            let errs := match errs with Some es => ErrJoin es err | None => ErrJoin1 err end in
            if (5 <=? S nErrs)%nat then Err (ErrJoin errs (ErrOther "stopped parsing")) else parseLines ls e (Some errs) (S nErrs)
        end
  end.
Definition ParseEnvironment (text : bytes) : result Environment := parseLines (scanned (splitOn newline text)) Environment_zero None 0.

Definition UseCaching e : outcome Environment :=
  match e.(cache) with Some _ => Panic "BUG: UseCaching called twice" | None => Ret {| e with cache := Some ∅ |} end.
Definition OnlyLogFailures e : Environment := {| e with onlyLog := true |}.
Definition HandleAssertionFailure (err : option error) e : outcome unit :=
  match err with
  | None => Panic "BUG: HandleAssertionFailure called with nil error"
  | Some _ => if e.(onlyLog) then Ret tt else Panic "assertion failure"
  end.

(** The three loops of enabled. *)
Fixpoint prefixLoop (ps : list (list bytes)) (ruleParts : list bytes) : bool :=
  match ps with
  | [] => false
  | p :: ps =>
      if (length ruleParts - 1 <? length p)%nat then false
      else if bool_decide (p = take (length p) ruleParts) then true else prefixLoop ps ruleParts
  end.
Fixpoint excludeLoop (xs : list (list bytes)) (ruleParts : list bytes) : bool :=
  match xs with
  | [] => true
  | x :: xs =>
      if (length x <? length ruleParts)%nat then excludeLoop xs ruleParts
      else if (length ruleParts <? length x)%nat then true
      else if bool_decide (x = ruleParts) then false else excludeLoop xs ruleParts
  end.
Fixpoint exactLoop (xs : list (list bytes)) (ruleParts : list bytes) : bool :=
  match xs with
  | [] => false
  | x :: xs =>
      if (length x <? length ruleParts)%nat then exactLoop xs ruleParts
      else if (length ruleParts <? length x)%nat then false
      else if bool_decide (x = ruleParts) then true else exactLoop xs ruleParts
  end.
Definition enabled e (rule : bytes) : bool :=
  let ruleParts := splitOn "." rule in
  if prefixLoop e.(prefixes) ruleParts then excludeLoop e.(excludes) ruleParts else exactLoop e.(exacts) ruleParts.

Definition Enabled (rule : bytes) e : bool * Environment :=
  if (length e.(prefixes) =? 0)%nat && (length e.(exacts) =? 0)%nat then (false, e)
  else
    match e.(cache) with
    | None => (enabled e rule, e)
    | Some c =>
        match c !! rule with
        | Some val => (val, e)
        | None => let val := enabled e rule in (val, {| e with cache := Some (<[rule := val]> c) |})
        end
    end.

(** * Loops over sorted rules *)
#[export] Instance shorter_trans : Transitive shorter.
Proof. intros a b c. unfold shorter. lia. Qed.
#[export] Instance shorter_total : Total shorter.
Proof. intros a b. unfold shorter. lia. Qed.

Definition properPrefix (p parts : list bytes) : Prop := length p < length parts /\ p = take (length p) parts.

Lemma prefixLoop_spec ps parts : parts <> [] -> StronglySorted shorter ps ->
  prefixLoop ps parts = true <-> exists p, p ∈ ps /\ properPrefix p parts.
Proof.
  intros Hne. assert (Hlen : 1 <= length parts) by (destruct parts; [done|simpl; lia]).
  induction 1 as [|p ps Hs IH Hall]; simpl; [split; [done|by intros (p & []%not_elem_of_nil & _)]|].
  unfold properPrefix in *. destruct (Nat.ltb_spec (length parts - 1) (length p)) as [Hlt|Hge].
  - split; [done|]. intros (q & [->|Hq]%elem_of_cons & Hql & _); [lia|].
    rewrite Forall_forall in Hall. specialize (Hall q Hq). unfold shorter in Hall. lia.
  - case_bool_decide as Hp.
    + split; [|done]. intros _. exists p. split; [by left|]. split; [lia|done].
    + rewrite IH. split; intros (q & Hq & Hqp).
      * exists q. split; [by right|done].
      * apply elem_of_cons in Hq as [->|Hq]; [by destruct Hqp|]. by exists q.
Qed.

Lemma exactLoop_spec xs parts : StronglySorted shorter xs -> exactLoop xs parts = true <-> parts ∈ xs.
Proof.
  induction 1 as [|x xs Hs IH Hall]; simpl; [by rewrite elem_of_nil|]. rewrite elem_of_cons.
  destruct (Nat.ltb_spec (length x) (length parts)); [|destruct (Nat.ltb_spec (length parts) (length x))].
  - rewrite IH. split; [by right|]. intros [->|]; [lia|done].
  - split; [done|]. intros [->|Hin]; [lia|]. rewrite Forall_forall in Hall. specialize (Hall _ Hin). unfold shorter in Hall. lia.
  - case_bool_decide as Hx; [subst; tauto|]. rewrite IH. split; [tauto|]. by intros [->|].
Qed.

Lemma excludeLoop_exactLoop xs parts : excludeLoop xs parts = negb (exactLoop xs parts).
Proof. induction xs as [|x xs IH]; simpl; [done|]. repeat case_match; done. Qed.

(** * What the rules mean *)
Lemma prefix_parts p r : properPrefix (splitOn "." p) (splitOn "." r) <-> exists s, r = p +:+ "." +:+ s.
Proof.
  split.
  - intros [Hl Ht]. pose proof (take_drop (length (splitOn "." p)) (splitOn "." r)) as Hr. rewrite <- Ht in Hr.
    exists (joinOn "." (drop (length (splitOn "." p)) (splitOn "." r))).
    rewrite <- (joinOn_splitOn "." r) at 1. rewrite <- Hr at 1. rewrite joinOn_app, joinOn_splitOn; [done|apply splitOn_nonempty|].
    intros Hd%(f_equal length). rewrite length_drop in Hd. simpl in Hd. lia.
  - intros [s ->]. change (p +:+ "." +:+ s) with (p +:+ String "." s). unfold properPrefix.
    rewrite splitOn_sep, length_app. pose proof (splitOn_nonempty "." s). split; [|by rewrite take_app_length].
    destruct (splitOn "." s); [done|simpl; lia].
Qed.

Lemma cutSuffix_spec suf s p : cutSuffix suf s = Some p <-> s = p +:+ suf.
Proof.
  revert p. induction s as [|c s IH]; intros p; cbn [cutSuffix].
  - destruct (String.eqb_spec "" suf) as [<-|Hn]; split.
    + by intros [= <-].
    + by destruct p.
    + done.
    + destruct p; [|done]. intros Heq. by destruct Hn.
  - destruct (String.eqb_spec (String c s) suf) as [<-|Hn]; split.
    + by intros [= <-].
    + intros Heq. destruct p as [|d p]; [done|]. rewrite append_cons in Heq. injection Heq as <- Heq. exfalso.
      assert (Hlen : forall a b, String.length (a +:+ b) = String.length a + String.length b).
      { intros a b. induction a as [|x a IHa]; [done|]. rewrite append_cons. cbn [String.length]. by rewrite IHa. }
      apply (f_equal String.length) in Heq. rewrite Hlen in Heq. cbn [String.length] in Heq. lia.
    + intros (q & Hq & ->)%fmap_Some. apply IH in Hq as ->. done.
    + intros Heq. destruct p as [|d p]; [by destruct Hn|]. rewrite append_cons in Heq. injection Heq as <- Heq.
      apply IH in Heq. by rewrite Heq.
Qed.

Lemma contains_char c s : contains (String c "") s = negb (countChar c s =? 0).
Proof.
  induction s as [|x s IH]; [done|]. cbn [contains countChar String.prefix]. rewrite IH.
  destruct (ascii_dec c x) as [->|Hn]; [rewrite Ascii.eqb_refl; by destruct s|].
  destruct (Ascii.eqb_spec x c) as [->|]; [done|]. done.
Qed.

Lemma cutChar_spec c s p : cutChar c s = Some p <-> s = String c p.
Proof.
  destruct s as [|x s]; simpl; [done|]. destruct (Ascii.eqb_spec x c) as [->|Hn]; split; intros [=]; subst; done.
Qed.

(** What a rule adds to each list. *)
Definition wildOf (r : bytes) : option (list bytes) := if String.eqb r "*" then Some [] else splitOn "." <$> cutSuffix ".*" r.
Definition excludedBy (r : bytes) : option (list bytes) := splitOn "." <$> cutChar "!" r.
Definition plain (r : bytes) : bool := negb (contains "!" r) && negb (contains "*" r).
Definition exactOf (r : bytes) : option (list bytes) := if plain r then Some (splitOn "." r) else None.

Lemma countChar_app c a b : countChar c (a +:+ b) = countChar c a + countChar c b.
Proof. induction a as [|x a IH]; [done|]. rewrite append_cons. cbn [countChar]. rewrite IH. lia. Qed.

Lemma wild_has_star r : is_Some (wildOf r) -> contains "*" r = true.
Proof.
  unfold wildOf. destruct (String.eqb_spec r "*") as [->|_]; [done|]. intros [p (q & Hq%cutSuffix_spec & _)%fmap_Some].
  subst r. rewrite contains_char, countChar_app. cbn [countChar]. by rewrite Nat.add_comm.
Qed.

Lemma parse_effect r e e' : parseSingleRule r e = Ok e' ->
  e'.(prefixes) = e.(prefixes) ++ omap wildOf [r] /\ e'.(excludes) = e.(excludes) ++ omap excludedBy [r] /\
  e'.(exacts) = e.(exacts) ++ omap exactOf [r] /\ e'.(cache) = e.(cache).
Proof.
  unfold parseSingleRule. destruct (_ =? 0); [done|]. destruct (contains ".." r); [done|].
  destruct (contains "!" r) eqn:Eex.
  - destruct (cutChar "!" r) as [x|] eqn:Ecut; [|done]. destruct (contains "*" x) eqn:Es; [done|]. intros [= <-]. simpl.
    unfold exactOf, plain, excludedBy. rewrite Eex, Ecut. simpl. rewrite !app_nil_r.
    destruct (wildOf r) as [p|] eqn:Ew; [|by rewrite app_nil_r]. apply cutChar_spec in Ecut as ->.
    assert (Hs : contains "*" (String "!" x) = true) by (apply wild_has_star; by eexists). cbn in Hs. congruence.
  - assert (Hcut : cutChar "!" r = None).
    { destruct (cutChar "!" r) as [x|] eqn:E; [|done]. apply cutChar_spec in E as ->. by rewrite contains_char in Eex. }
    destruct (Nat.ltb_spec 1 (countChar "*" r)); [done|]. pose proof (contains_char "*" r) as Hc.
    destruct (Nat.eqb_spec (countChar "*" r) 1) as [He|He].
    + rewrite He in Hc. simpl in Hc. simpl. unfold exactOf, plain, excludedBy, wildOf. rewrite Eex, Hcut, Hc. simpl. rewrite !app_nil_r.
      destruct (String.eqb r "*"); [by intros [= <-]|]. destruct (cutSuffix ".*" r); [|done]. by intros [= <-].
    + intros [= <-]. assert (H0 : countChar "*" r = 0) by lia. rewrite H0 in Hc. simpl in Hc. simpl.
      unfold exactOf, plain, excludedBy. rewrite Eex, Hcut, Hc. simpl. rewrite !app_nil_r.
      destruct (wildOf r) as [p|] eqn:Ew; [|by rewrite app_nil_r].
      assert (Hs : contains "*" r = true) by (apply wild_has_star; by eexists). congruence.
Qed.

Lemma parseRules_effect rs e e' : parseRules rs e = Ok e' ->
  e'.(prefixes) = e.(prefixes) ++ omap wildOf rs /\ e'.(excludes) = e.(excludes) ++ omap excludedBy rs /\
  e'.(exacts) = e.(exacts) ++ omap exactOf rs /\ e'.(cache) = e.(cache).
Proof.
  revert e. induction rs as [|r rs IH]; intros e; cbn [parseRules]; [intros [= <-]; by rewrite !app_nil_r|].
  destruct (parseSingleRule r e) as [e1|] eqn:E; [|done]. intros (-> & -> & -> & ->)%IH.
  apply parse_effect in E as (-> & -> & -> & ->). rewrite <- !app_assoc, <- !omap_app. done.
Qed.

(** ** The meaning of a string of rules, in its text *)
Definition rulesOf (input : bytes) : list bytes := if String.eqb input "" then [] else splitOn "," input.

(** A wildcard rule covers [r]. *)
Definition covered (rules : list bytes) (r : bytes) : Prop :=
  "*" ∈ rules \/ exists p s, (p +:+ ".*") ∈ rules /\ r = p +:+ "." +:+ s.

Definition rulesEnable (rules : list bytes) (r : bytes) : Prop :=
  (covered rules r /\ ("!" +:+ r) ∉ rules) \/ (~ covered rules r /\ r ∈ rules /\ plain r = true).

(** The rules of an environment, sorted. *)
Record represents (rules : list bytes) e : Prop := {
  rep_prefixes : e.(prefixes) ≡ₚ omap wildOf rules;
  rep_excludes : e.(excludes) ≡ₚ omap excludedBy rules;
  rep_exacts : e.(exacts) ≡ₚ omap exactOf rules;
  rep_sorted : StronglySorted shorter e.(prefixes) /\ StronglySorted shorter e.(excludes) /\ StronglySorted shorter e.(exacts)
}.

Lemma EnvironmentFromString_represents input e : EnvironmentFromString input = Ok e ->
  represents (rulesOf input) e /\ e.(cache) = None.
Proof.
  unfold EnvironmentFromString, rulesOf. destruct (String.eqb input "").
  - intros [= <-]. split; [|done]. split; simpl; try done. by repeat split; constructor.
  - destruct (parseRules _ _) as [e1|] eqn:E; [|done]. intros [= <-]. apply parseRules_effect in E as (E1 & E2 & E3 & E4).
    simpl in E1, E2, E3. split; [|done]. split; simpl; rewrite ?merge_sort_Permutation, ?E1, ?E2, ?E3; try done.
    repeat split; apply StronglySorted_merge_sort; apply _.
Qed.

Lemma covered_spec rules e r : represents rules e ->
  prefixLoop e.(prefixes) (splitOn "." r) = true <-> covered rules r.
Proof.
  intros [Hp _ _ [Hs _]]. rewrite prefixLoop_spec by (done || apply splitOn_nonempty). unfold covered. split.
  - intros (p & Hin & Hpp). rewrite Hp in Hin. apply list_elem_of_omap in Hin as (w & Hw & Hwild).
    unfold wildOf in Hwild. destruct (String.eqb_spec w "*") as [->|]; [by left|]. right.
    apply fmap_Some in Hwild as (q & Hq%cutSuffix_spec & ->). apply prefix_parts in Hpp as [s ->]. exists q, s. by subst w.
  - intros [Hin|(p & s & Hin & ->)].
    + exists []. split; [rewrite Hp; apply list_elem_of_omap; by exists "*"|]. split; [|done].
      pose proof (splitOn_nonempty "." r). destruct (splitOn "." r); [done|simpl; lia].
    + exists (splitOn "." p). split; [|apply prefix_parts; by exists s]. rewrite Hp. apply list_elem_of_omap.
      exists (p +:+ ".*"). split; [done|]. unfold wildOf. destruct (String.eqb_spec (p +:+ ".*") "*") as [Heq|].
      * exfalso. destruct p as [|c [|d p]]; discriminate.
      * by rewrite (proj2 (cutSuffix_spec ".*" (p +:+ ".*") p) eq_refl).
Qed.

Lemma enabled_spec rules e r : represents rules e -> enabled e r = true <-> rulesEnable rules r.
Proof.
  intros Hrep. unfold enabled, rulesEnable. rewrite <- (covered_spec _ _ _ Hrep).
  destruct Hrep as [_ Hx Ha (_ & Hsx & Hsa)].
  assert (Hex : splitOn "." r ∈ e.(excludes) <-> ("!" +:+ r) ∈ rules).
  { rewrite Hx, list_elem_of_omap. split.
    - intros (w & Hw & Hf). unfold excludedBy in Hf. apply fmap_Some in Hf as (x & Hx1%cutChar_spec & Heq%(inj (splitOn "."))). by subst.
    - intros Hin. exists ("!" +:+ r). split; [done|]. unfold excludedBy. by rewrite (proj2 (cutChar_spec "!" ("!" +:+ r) r) eq_refl). }
  assert (Hea : splitOn "." r ∈ e.(exacts) <-> r ∈ rules /\ plain r = true).
  { rewrite Ha, list_elem_of_omap. unfold exactOf. split.
    - intros (w & Hw & Hf). destruct (plain w) eqn:Ep; [|done]. injection Hf as Heq%(inj (splitOn ".")). by subst.
    - intros [Hin Hp]. exists r. by rewrite Hp. }
  destruct (prefixLoop _ _).
  - rewrite excludeLoop_exactLoop, negb_true_iff, <- not_true_iff_false, exactLoop_spec, Hex by done. tauto.
  - rewrite exactLoop_spec, Hea by done. split; [|by intros [[]|[_ ?]]]. intros ?. by right.
Qed.

(** ** Using an environment *)

(** The environments that calls of the methods make of [e0]. *)
Inductive uses e0 : Environment -> Prop :=
| uses_new : uses e0 e0
| uses_cache e e' : uses e0 e -> UseCaching e = Ret e' -> uses e0 e'
| uses_log e : uses e0 e -> uses e0 (OnlyLogFailures e)
| uses_enabled e r : uses e0 e -> uses e0 (Enabled r e).2.

(** The cache only holds right answers, and the rules stay. *)
Record sameRules e0 e : Prop := {
  sr_prefixes : e.(prefixes) = e0.(prefixes);
  sr_excludes : e.(excludes) = e0.(excludes);
  sr_exacts : e.(exacts) = e0.(exacts);
  sr_cache c r b : e.(cache) = Some c -> c !! r = Some b -> b = enabled e0 r
}.

Lemma enabled_same e0 e r : sameRules e0 e -> enabled e r = enabled e0 r.
Proof. intros [H1 H2 H3 _]. unfold enabled. by rewrite H1, H2, H3. Qed.

Lemma uses_sameRules e0 e : e0.(cache) = None -> uses e0 e -> sameRules e0 e.
Proof.
  intros Hc. induction 1 as [|e e' Hu IH He|e Hu IH|e r Hu IH].
  - split; try done. congruence.
  - unfold UseCaching in He. destruct (cache e); [done|]. injection He as <-. destruct IH. split; try done.
    intros c r b [= <-]. by rewrite lookup_empty.
  - destruct IH. by split.
  - pose proof (enabled_same e0 e r IH) as Hr. unfold Enabled. destruct (_ && _); [exact IH|].
    destruct (cache e) as [c|] eqn:Ec; [|exact IH]. destruct (c !! r) eqn:El; [exact IH|]. destruct IH as [H1 H2 H3 H4].
    split; try done. intros c' r' b [= <-] Hl. apply lookup_insert_Some in Hl as [[<- <-]|[_ Hl]]; [done|by eapply H4].
Qed.

Lemma Enabled_enabled e0 e r : sameRules e0 e -> (Enabled r e).1 = enabled e0 r.
Proof.
  intros Hs. pose proof (enabled_same e0 e r Hs) as Hr. destruct Hs as [H1 H2 H3 H4]. unfold Enabled.
  destruct (_ && _) eqn:E0.
  - apply andb_true_iff in E0 as [E1%Nat.eqb_eq%nil_length_inv E2%Nat.eqb_eq%nil_length_inv]. simpl. rewrite <- Hr.
    unfold enabled. by rewrite E1, E2.
  - destruct (cache e) as [c|] eqn:Ec; [|done]. destruct (c !! r) eqn:El; [simpl; by eapply H4|done].
Qed.

(** C38: an assertion is enabled just when the rules say so.  In an environment parsed from a comma-separated string,
    however it was used since, with or without the cache, Enabled reports whether some wildcard rule covers the
    assertion and none excludes it, or no wildcard rule covers it and it is itself a rule. *)
Theorem enabled_exact (input : bytes) (e0 e : Environment) (r : bytes) :
  EnvironmentFromString input = Ok e0 -> uses e0 e -> ((Enabled r e).1 = true <-> rulesEnable (rulesOf input) r).
Proof.
  intros [Hrep Hc]%EnvironmentFromString_represents Hu. rewrite (Enabled_enabled e0 e r) by by apply uses_sameRules.
  by apply enabled_spec.
Qed.

(** Rules read from a file are not sorted, so a wildcard rule behind a longer one is not found. *)
Lemma file_rules_unsorted :
  (exists e, ParseEnvironment (lines ["a.b.c.*"; "d.*"]) = Ok e /\ (Enabled "d.x" e).1 = false) /\
  (exists e, EnvironmentFromString "a.b.c.*,d.*" = Ok e /\ (Enabled "d.x" e).1 = true).
Proof. split; eexists; (split; [vm_compute; reflexivity|vm_compute; reflexivity]). Qed.

Lemma enabled_exact_witness :
  exists e, EnvironmentFromString "foo.*,!foo.bar,baz" = Ok e /\
    ((Enabled "foo.bar" e).1 = true <-> rulesEnable (rulesOf "foo.*,!foo.bar,baz") "foo.bar").
Proof.
  eexists. split; [vm_compute; reflexivity|]. apply (enabled_exact "foo.*,!foo.bar,baz" _ _ "foo.bar" ltac:(vm_compute; reflexivity)).
  apply uses_new.
Defined.
