(* ===== verification/Erasure.v ===== *)
(** The erasure coding of gerasure/gereedsolomon: splitting data into shards and putting it together again from
    enough of them.

    The Reed-Solomon code itself is a library outside the repository: a class with the documented behaviour of the
    calls made here. *)
From S2P Require Import Prelude Types Text.
Local Open Scope nat_scope.

(** reedsolomon.Encoder.  A shard of length zero is missing. *)
Class ReedSolomon := {
  rs_Split : bytes -> result (list bytes);
  rs_Encode : list bytes -> result (list bytes);
  rs_ReconstructData : list bytes -> list bytes * option error;
  rs_Join : list bytes -> nat -> result bytes;
  rs_dataShards : nat;
  rs_totalShards : nat
}.
Definition ErrTooFewShards : error := ErrOther "too few shards given".

(** The shards of [S] are there. *)
Definition present (ps : list bytes) (S : gset nat) : Prop := forall i, i ∈ S <-> exists s, ps !! i = Some s /\ s <> "".

(** [ps] has some of the shards of [sh]. *)
Definition partOf (sh ps : list bytes) : Prop :=
  length ps = length sh /\ forall i s, ps !! i = Some s -> s = "" \/ sh !! i = Some s.

(** What the library documents: the data shards in order hold the data, padded; from any [rs_dataShards] of the shards
    it restores the data shards, from fewer it changes nothing; joining takes the wanted size from the data shards. *)
Class ReedSolomonLaws `{ReedSolomon} := {
  rs_encode data : data <> "" -> exists sh0 sh size padding, rs_Split data = Ok sh0 /\ rs_Encode sh0 = Ok sh /\
    length sh = rs_totalShards /\ size <> 0 /\ Forall (fun s => String.length s = size) sh /\
    String.concat "" (take rs_dataShards sh) = data +:+ padding;
  rs_enough data sh0 sh ps S : rs_Split data = Ok sh0 -> rs_Encode sh0 = Ok sh -> partOf sh ps -> present ps S ->
    rs_dataShards <= size S -> exists ps', rs_ReconstructData ps = (ps', None) /\ partOf sh ps' /\
      (forall i s, ps !! i = Some s -> s <> "" -> ps' !! i = Some s) /\ take rs_dataShards ps' = take rs_dataShards sh;
  rs_too_few data sh0 sh ps S : rs_Split data = Ok sh0 -> rs_Encode sh0 = Ok sh -> partOf sh ps -> present ps S ->
    S <> ∅ -> size S < rs_dataShards -> rs_ReconstructData ps = (ps, Some ErrTooFewShards);
  rs_join ps data padding : String.concat "" (take rs_dataShards ps) = data +:+ padding ->
    rs_Join ps (String.length data) = Ok data
}.

Definition ErrIncompleteSet : error := ErrOther "insufficient shard received to reconstruct data".

Section coding.
Context `{ReedSolomon}.

(** ** Encoder *)
Definition Encode (data : bytes) : result (list bytes) :=
  match rs_Split data with
  | Err err => Err (ErrWrap "failed to split input data" err)
  | Ok allShards =>
      match rs_Encode allShards with
      | Err err => Err (ErrWrap "failed to encode parity" err)
      | Ok allShards => Ok allShards
      end
  end.

(** ** Reconstructor *)
Record Reconstructor := MkReconstructor { allShards : list bytes; shardSize : nat }.

(** The allocated shards are cut to length zero. *)
Definition NewReconstructor (shardSize : nat) : Reconstructor := MkReconstructor (replicate rs_totalShards "") shardSize.

Definition ReconstructData (idx : nat) (shard : bytes) (r : Reconstructor) : outcome (option error * Reconstructor) :=
  if negb (String.length shard =? r.(shardSize)) then Panic "BUG: attempted to reconstruct with invalid shard size"
  else if length r.(allShards) <=? idx then Panic "runtime error: index out of range"
  else
    match rs_ReconstructData (<[idx := shard]> r.(allShards)) with
    | (shards, err) =>
        let r := {| r with allShards := shards |} in
        match err with
        | Some err => Ret (Some (if errAs (fun e => bool_decide (e = ErrTooFewShards)) err then ErrIncompleteSet
                                 else ErrWrap "failed to attempt data reconstruction" err), r)
        | None => Ret (None, r)
        end
    end.

(** A slice of bytes with its capacity. *)
Record Slice := MkSlice { sl_bytes : bytes; sl_cap : nat }.

Definition Data (dst : Slice) (dataSize : nat) (r : Reconstructor) : result bytes :=
  let dst := if sl_cap dst <? dataSize then "" else sl_bytes dst in
  match rs_Join r.(allShards) dataSize with
  | Err err => Err (ErrWrap "failed to write reconstructed data" err)
  | Ok b => Ok (dst +:+ b)
  end.

(** Shards of a set handed in one after the other, with the answers. *)
Fixpoint feed (sh : list bytes) (idxs : list nat) (r : Reconstructor) : outcome (list (option error) * Reconstructor) :=
  match idxs with
  | [] => Ret ([], r)
  | i :: idxs =>
      '(a, r) ← ReconstructData i (default "" (sh !! i)) r;
      '(as_, r) ← feed sh idxs r;
      Ret (a :: as_, r)
  end.

(** The answer once the shards of [S] have been handed in. *)
Definition answer (S : gset nat) : option error := if size S <? rs_dataShards then Some ErrIncompleteSet else None.
Fixpoint answers (S : gset nat) (idxs : list nat) : list (option error) :=
  match idxs with [] => [] | i :: idxs => answer ({[i]} ∪ S) :: answers ({[i]} ∪ S) idxs end.
End coding.

(** * Any sufficient set of shards gives the data back *)
Lemma present_exists ps : exists S, present ps S.
Proof.
  exists (list_to_set (filter (fun i => default "" (ps !! i) <> "") (seq 0 (length ps)))). intros i.
  rewrite elem_of_list_to_set, list_elem_of_filter, elem_of_seq. split.
  - intros [Hne [_ Hi]]. destruct (lookup_lt_is_Some_2 ps i) as [s Hs]; [lia|]. rewrite Hs in Hne. by exists s.
  - intros (s & Hs & Hne). rewrite Hs. split; [done|]. apply lookup_lt_Some in Hs. lia.
Qed.

Section laws.
Context `{ReedSolomonLaws}.
Context (data : bytes) (sh0 sh : list bytes) (sz : nat).
Context (Hsplit : rs_Split data = Ok sh0) (Henc : rs_Encode sh0 = Ok sh) (Hsz : sz <> 0).
Context (Hsizes : Forall (fun s => String.length s = sz) sh) (Htotal : length sh = rs_totalShards).

(** The reconstructor after the shards of [S]. *)
Record fedWith (S : gset nat) (r : Reconstructor) : Prop := {
  fw_size : shardSize r = sz;
  fw_part : partOf sh (allShards r);
  fw_in i : i ∈ S -> i < length sh;
  fw_has i s : i ∈ S -> sh !! i = Some s -> allShards r !! i = Some s;
  fw_few : size S < rs_dataShards -> present (allShards r) S;
  fw_enough : rs_dataShards <= size S -> S <> ∅ -> take rs_dataShards (allShards r) = take rs_dataShards sh
}.

Lemma fedWith_new : fedWith ∅ (NewReconstructor sz).
Proof.
  split; simpl; [done| |set_solver| | |done].
  - split; [by rewrite length_replicate|]. intros i s [-> _]%lookup_replicate. by left.
  - intros i s Hi. set_solver.
  - intros _ i. split; [set_solver|]. intros (s & [-> _]%lookup_replicate & Hne). done.
Qed.

Lemma fedWith_step S r i s : fedWith S r -> sh !! i = Some s ->
  exists r', ReconstructData i s r = Ret (answer ({[i]} ∪ S), r') /\ fedWith ({[i]} ∪ S) r'.
Proof.
  intros [H1 [Hl Hp] Hin Hhas Hfew Henough] Hs. unfold ReconstructData.
  assert (Hlen : String.length s = sz) by (rewrite Forall_lookup in Hsizes; by eapply Hsizes).
  assert (Hne : s <> "") by (intros ->; by subst sz).
  assert (Hi : i < length (allShards r)) by (rewrite Hl; by eapply lookup_lt_Some).
  rewrite H1, Hlen, Nat.eqb_refl. simpl. rewrite (proj2 (Nat.leb_gt _ _)) by done.
  set (ps := <[i := s]> (allShards r)).
  assert (Hpart : partOf sh ps).
  { split; [unfold ps; by rewrite length_insert|]. intros j t Hj. unfold ps in Hj.
    apply list_lookup_insert_Some in Hj as [(-> & <- & _)|[_ Hj]]; [by right|by apply Hp]. }
  assert (Hkeep : forall j t, j ∈ {[i]} ∪ S -> sh !! j = Some t -> ps !! j = Some t).
  { intros j t Hj Ht. unfold ps. apply list_lookup_insert_Some. destruct (decide (i = j)) as [->|Hn].
    - left. assert (t = s) as -> by congruence. done.
    - right. split; [done|]. apply Hhas; [set_solver|done]. }
  assert (Hin' : forall j, j ∈ {[i]} ∪ S -> j < length sh).
  { intros j [->%elem_of_singleton|Hj]%elem_of_union; [by eapply lookup_lt_Some|by apply Hin]. }
  unfold answer. destruct (Nat.ltb_spec (size ({[i]} ∪ S)) rs_dataShards) as [Hlt|Hge].
  - assert (HS : size S < rs_dataShards) by (pose proof (subseteq_size S ({[i]} ∪ S) ltac:(set_solver)); lia).
    assert (Hpres : present ps ({[i]} ∪ S)).
    { intros j. unfold ps. rewrite elem_of_union, elem_of_singleton, (Hfew HS j). split.
      - intros [->|(t & Ht & Hnt)]; [exists s; by rewrite list_lookup_insert_eq|].
        destruct (decide (i = j)) as [->|Hn]; [exists s; by rewrite list_lookup_insert_eq|]. exists t. by rewrite list_lookup_insert_ne.
      - intros (t & [(-> & _)|[Hn Ht]]%list_lookup_insert_Some & Hnt); [by left|]. right. by exists t. }
    rewrite (rs_too_few data sh0 sh ps ({[i]} ∪ S)) by (done || set_solver). eexists. split; [reflexivity|].
    split; simpl; try done. lia.
  - destruct (present_exists ps) as [S' HS'].
    assert (Hsub : {[i]} ∪ S ⊆ S').
    { intros j Hj. apply HS'. destruct (lookup_lt_is_Some_2 sh j (Hin' j Hj)) as [t Ht]. exists t. split; [by apply Hkeep|].
      intros ->. rewrite Forall_lookup in Hsizes. by specialize (Hsizes _ _ Ht). }
    destruct (rs_enough data sh0 sh ps S') as (ps' & E & Hpart' & Hkeep' & Htake); try done.
    { pose proof (subseteq_size _ _ Hsub). lia. }
    rewrite E. eexists. split; [reflexivity|]. split; simpl; try done; [|lia].
    intros j t Hj Ht. apply Hkeep'; [by apply Hkeep|]. intros ->. rewrite Forall_lookup in Hsizes. by specialize (Hsizes _ _ Ht).
Qed.

Lemma feed_answers S r idxs : fedWith S r -> Forall (fun i => i < length sh) idxs ->
  exists r', feed sh idxs r = Ret (answers S idxs, r') /\ fedWith (list_to_set idxs ∪ S) r'.
Proof.
  intros Hr Hi. revert S r Hr. induction Hi as [|i idxs Hi His IH]; intros S r Hr; cbn [feed answers].
  - exists r. split; [done|]. by replace (list_to_set [] ∪ S) with S by set_solver.
  - destruct (lookup_lt_is_Some_2 sh i Hi) as [s Hs]. destruct (fedWith_step S r i s Hr Hs) as (r1 & E & Hr1).
    rewrite Hs. cbn [default from_option id]. rewrite E. simpl. destruct (IH _ _ Hr1) as (r' & -> & Hr'). exists r'.
    split; [done|]. by replace ({[i]} ∪ list_to_set idxs ∪ S) with (list_to_set idxs ∪ ({[i]} ∪ S)) by set_solver.
Qed.
End laws.

(** C40: Data survives the loss of shards.  Encoding data that is not empty succeeds; a reconstructor of the shard size
    that is handed any of the shards, in any order and repeatedly, answers that the set is incomplete just while it
    has seen fewer different ones than there are data shards, and from then on Data returns the data, behind what
    the destination held when its capacity suffices and without it when not. *)
Theorem reconstructed_from_any_shards `{ReedSolomonLaws} (data : bytes) (idxs : list nat) (dst : Slice) :
  data <> "" -> Forall (fun i => i < rs_totalShards) idxs ->
  exists sh shardSize r, Encode data = Ok sh /\ length sh = rs_totalShards /\
    feed sh idxs (NewReconstructor shardSize) = Ret (answers ∅ idxs, r) /\
    (rs_dataShards <= size (list_to_set idxs : gset nat) -> idxs <> [] ->
      Data dst (String.length data) r = Ok ((if sl_cap dst <? String.length data then "" else sl_bytes dst) +:+ data)).
Proof.
  intros Hne Hi. destruct (rs_encode data Hne) as (sh0 & sh & sz & padding & Hs & He & Hl & Hsz & Hall & Hcat).
  assert (Hi' : Forall (fun i => i < length sh) idxs) by (by rewrite Hl).
  assert (Hnew : fedWith sh sz ∅ (NewReconstructor sz)) by by apply fedWith_new.
  destruct (feed_answers data sh0 sh sz Hs He Hsz Hall Hl ∅ _ idxs Hnew Hi') as (r & Hr & Hf).
  exists sh, sz, r. unfold Encode. rewrite Hs, He. do 3 (split; [done|]). intros Hk Hn.
  unfold Data. rewrite (rs_join _ data padding); [done|]. rewrite (right_id_L ∅ (∪)) in Hf. rewrite (fw_enough _ _ _ _ Hf); try done.
  destruct idxs; [done|]. set_solver.
Qed.

(** ** A code: two data shards and their exclusive or *)
Definition xorAscii (a b : Ascii.ascii) : Ascii.ascii :=
  match a, b with
  | Ascii.Ascii a0 a1 a2 a3 a4 a5 a6 a7, Ascii.Ascii b0 b1 b2 b3 b4 b5 b6 b7 =>
      Ascii.Ascii (xorb a0 b0) (xorb a1 b1) (xorb a2 b2) (xorb a3 b3) (xorb a4 b4) (xorb a5 b5) (xorb a6 b6) (xorb a7 b7)
  end.
Fixpoint xorBytes (a b : bytes) : bytes :=
  match a, b with String x a, String y b => String (xorAscii x y) (xorBytes a b) | _, _ => "" end.

(** The first half of the data, and the rest with a zero when that is shorter. *)
Fixpoint halves (data : bytes) (fuel : nat) : bytes * bytes :=
  match fuel, data with
  | S fuel, String a data => let '(l, r) := halves data fuel in (String a l, r)
  | _, _ => ("", data)
  end.
Definition pad (n : nat) (s : bytes) : bytes := s +:+ String.concat "" (replicate (n - String.length s) (String "000" "")).

#[export] Instance xorCode : ReedSolomon := {
  rs_Split data := if String.eqb data "" then Err (ErrOther "short data")
    else let '(l, r) := halves data ((String.length data + 1) / 2) in Ok [l; pad (String.length l) r; ""];
  rs_Encode sh := match sh with [a; b; _] => Ok [a; b; xorBytes a b] | _ => Err (ErrOther "shards") end;
  rs_ReconstructData ps :=
    match ps with
    | [a; b; c] =>
        if String.eqb a "" then if String.eqb b "" || String.eqb c "" then (ps, Some ErrTooFewShards) else ([xorBytes b c; b; c], None)
        else if String.eqb b "" then if String.eqb c "" then (ps, Some ErrTooFewShards) else ([a; xorBytes a c; c], None)
        else (ps, None)
    | _ => (ps, Some (ErrOther "shards"))
    end;
  rs_Join ps n := Ok (String.substring 0 n (String.concat "" (take 2 ps)));
  rs_dataShards := 2;
  rs_totalShards := 3
}.

Lemma xorAscii_comm a b : xorAscii a b = xorAscii b a.
Proof. destruct a, b. simpl. f_equal; apply xorb_comm. Qed.
Lemma xorAscii_undo a b : xorAscii a (xorAscii a b) = b.
Proof. destruct a, b. simpl. by rewrite <- !xorb_assoc, !xorb_nilpotent, !xorb_false_l. Qed.
Lemma xorBytes_comm a b : xorBytes a b = xorBytes b a.
Proof. revert b. induction a as [|x a IH]; intros [|y b]; simpl; [done..|]. by rewrite xorAscii_comm, IH. Qed.
Lemma xorBytes_undo a b : String.length a = String.length b -> xorBytes a (xorBytes a b) = b.
Proof. revert b. induction a as [|x a IH]; intros [|y b]; simpl; try done. intros [= Hl]. by rewrite xorAscii_undo, IH. Qed.
Lemma xorBytes_length a b : String.length a = String.length b -> String.length (xorBytes a b) = String.length a.
Proof. revert b. induction a as [|x a IH]; intros [|y b]; simpl; try done. intros [= Hl]. by rewrite IH. Qed.

Lemma zeros_length n : String.length (String.concat "" (replicate n (String "000" ""))) = n.
Proof.
  induction n as [|n IH]; [done|]. destruct n as [|n]; [done|].
  change (String.concat "" (replicate (S (S n)) (String "000" ""))) with (String "000" "" +:+ "" +:+ String.concat "" (replicate (S n) (String "000" ""))).
  rewrite !append_length, IH. done.
Qed.

Lemma halves_spec data n : n <= String.length data ->
  (halves data n).1 +:+ (halves data n).2 = data /\ String.length (halves data n).1 = n.
Proof.
  revert data. induction n as [|n IH]; intros [|x data]; cbn [halves String.length]; try done; [lia|]. intros Hl.
  destruct (IH data) as [H1 H2]; [lia|]. destruct (halves data n) as [l r]. simpl in *. rewrite append_cons, H1. auto.
Qed.

(** The shards of the code. *)
Lemma xor_shards data sh0 sh : rs_Split data = Ok sh0 -> rs_Encode sh0 = Ok sh -> exists a b padding, sh = [a; b; xorBytes a b] /\
  a +:+ b = data +:+ padding /\ String.length a = String.length b /\ String.length a <> 0.
Proof.
  cbn [rs_Split rs_Encode xorCode]. destruct (String.eqb_spec data "") as [|Hne]; [done|].
  assert (Hlen : 1 <= String.length data) by (destruct data; [done|simpl; lia]).
  set (n := (String.length data + 1) / 2).
  assert (Hn : n <= String.length data /\ String.length data <= 2 * n /\ 1 <= n).
  { unfold n. pose proof (Nat.div_mod_eq (String.length data + 1) 2). pose proof (Nat.mod_upper_bound (String.length data + 1) 2). lia. }
  clearbody n. destruct (halves_spec data n) as [Hcat Hl]; [lia|]. destruct (halves data n) as [l r]. simpl in Hcat, Hl.
  pose proof (f_equal String.length Hcat) as Htot. rewrite append_length in Htot. intros E0 E1.
  injection E0 as <-. simpl in E1. injection E1 as <-.
  exists l, (pad (String.length l) r). eexists. split; [done|]. unfold pad. split; [by rewrite <- append_assoc, Hcat|].
  rewrite append_length, zeros_length. lia.
Qed.

Lemma substring_prefix a b : String.substring 0 (String.length a) (a +:+ b) = a.
Proof. induction a as [|x a IH]; [by destruct b|]. rewrite append_cons. cbn [String.length String.substring]. by rewrite IH. Qed.

(** Three shards, some of them missing. *)
Lemma partOf_three a b c ps : partOf [a; b; c] ps ->
  exists p q r, ps = [p; q; r] /\ (p = "" \/ p = a) /\ (q = "" \/ q = b) /\ (r = "" \/ r = c).
Proof.
  intros [Hl Hp]. destruct ps as [|p [|q [|r [|? ?]]]]; try done. exists p, q, r. split; [done|].
  pose proof (Hp 0 p eq_refl) as [|[= ->]]; pose proof (Hp 1 q eq_refl) as [|[= ->]]; pose proof (Hp 2 r eq_refl) as [|[= ->]]; auto.
Qed.

Lemma present_three p q r S : present [p; q; r] S ->
  (0 ∈ S <-> p <> "") /\ (1 ∈ S <-> q <> "") /\ (2 ∈ S <-> r <> "") /\ S ⊆ {[0; 1; 2]}.
Proof.
  intros HS. assert (H0 : forall i s, [p; q; r] !! i = Some s -> (i ∈ S <-> s <> "")).
  { intros i s Hs. rewrite (HS i). split; [intros (t & Ht & Hne); by simplify_eq|by exists s]. }
  split; [by apply H0|]. split; [by apply H0|]. split; [by apply H0|]. intros i Hi. apply HS in Hi as (s & Hs & _).
  apply lookup_lt_Some in Hs. simpl in Hs. set_solver by lia.
Qed.

(** At least two shards are there just when no two are missing. *)
Lemma two_of_three p q r S : present [p; q; r] S ->
  (2 <= size S <-> ~ (p = "" /\ q = "") /\ ~ (p = "" /\ r = "") /\ ~ (q = "" /\ r = "")).
Proof.
  intros (H0 & H1 & H2 & Hsub)%present_three. split.
  - intros Hs. assert (Hone : forall i, S ⊆ {[i]} -> False).
    { intros i Hi%subseteq_size. rewrite size_singleton in Hi. lia. }
    repeat split; intros [? ?]; [apply (Hone 2)|apply (Hone 1)|apply (Hone 0)]; set_solver.
  - intros (Ha & Hb & Hc). assert (Htwo : forall i j : nat, i <> j -> i ∈ S -> j ∈ S -> 2 <= size S).
    { intros i j Hn Hi Hj. assert (Hij : {[i; j]} ⊆ S) by set_solver. apply subseteq_size in Hij.
      rewrite size_union, !size_singleton in Hij by set_solver. lia. }
    destruct (decide (p = "")), (decide (q = "")); [tauto|apply (Htwo 1 2)|apply (Htwo 0 2)|apply (Htwo 0 1)]; first [done|tauto].
Qed.

#[export] Instance xorCode_laws : ReedSolomonLaws.
Proof.
  split.
  - intros data Hne. cbn [rs_Split xorCode]. destruct (String.eqb_spec data "") as [|_]; [done|].
    destruct (halves data _) as [l r] eqn:E. eexists _, _.
    assert (Hs : rs_Split data = Ok [l; pad (String.length l) r; ""]).
    { cbn [rs_Split xorCode]. destruct (String.eqb_spec data "") as [|_]; [done|]. by rewrite E. }
    destruct (xor_shards data _ _ Hs eq_refl) as (a & b & padding & Hab & Hcat & Hl & Hz).
    injection Hab as -> <-. exists (String.length a), padding. do 3 (split; [done|]). split; [done|]. split.
    + repeat constructor; [done|by apply xorBytes_length].
    + exact Hcat.
  - intros data sh0 sh ps S Hs He Hpart Hpres Hk. destruct (xor_shards _ _ _ Hs He) as (a & b & padding & -> & _ & Hl & Hz).
    destruct (partOf_three _ _ _ _ Hpart) as (p & q & r & -> & Hp & Hq & Hr). apply (two_of_three _ _ _ _ Hpres) in Hk as (Ha & Hb & Hc).
    cbn [rs_ReconstructData xorCode]. exists [a; b; r].
    assert (Hpart' : partOf [a; b; xorBytes a b] [a; b; r]).
    { split; [done|]. intros [|[|[|i]]] s; simpl; intros [= <-]; auto. destruct Hr as [->| ->]; auto. }
    assert (Hkeep : forall i s, [p; q; r] !! i = Some s -> s <> "" -> [a; b; r] !! i = Some s).
    { intros [|[|[|i]]] s; simpl; intros [= <-] Hn; try done; f_equal; [by destruct Hp|by destruct Hq]. }
    split; [|by split].
    destruct (String.eqb_spec p "") as [->|Hpn]; [|destruct (String.eqb_spec q "") as [->|Hqn]].
    + destruct (String.eqb_spec q "") as [->|Hqn]; [by destruct Ha|]. destruct (String.eqb_spec r "") as [->|Hrn]; [by destruct Hb|].
      simpl. destruct Hq as [| ->]; [done|]. destruct Hr as [| ->]; [done|]. by rewrite (xorBytes_comm a b), xorBytes_undo.
    + destruct (String.eqb_spec r "") as [->|Hrn]; [by destruct Hc|]. destruct Hp as [| ->]; [done|]. destruct Hr as [| ->]; [done|].
      by rewrite xorBytes_undo.
    + destruct Hp as [| ->]; [done|]. by destruct Hq as [| ->].
  - intros data sh0 sh ps S Hs He Hpart Hpres Hne Hk. destruct (xor_shards _ _ _ Hs He) as (a & b & padding & -> & _).
    destruct (partOf_three _ _ _ _ Hpart) as (p & q & r & -> & _). pose proof (two_of_three _ _ _ _ Hpres) as Htwo.
    simpl in Hk. cbn [rs_ReconstructData xorCode].
    destruct (String.eqb_spec p "") as [->|Hpn]; destruct (String.eqb_spec q "") as [->|Hqn]; destruct (String.eqb_spec r "") as [->|Hrn];
      try done; exfalso; assert (2 <= size S) by (apply Htwo; tauto); lia.
  - intros ps data padding Hc. cbn [rs_Join rs_dataShards xorCode] in *. by rewrite Hc, substring_prefix.
Qed.

(** The first shard is lost, the second is handed in twice. *)
Lemma reconstructed_from_any_shards_witness :
  exists sh shardSize r, Encode "hello" = Ok sh /\ length sh = 3 /\
    feed sh [1; 1; 2] (NewReconstructor shardSize) = Ret ([Some ErrIncompleteSet; Some ErrIncompleteSet; None], r) /\
    Data (MkSlice "" 0) 5 r = Ok "hello".
Proof.
  destruct (reconstructed_from_any_shards "hello" [1; 1; 2] (MkSlice "" 0)) as (sh & sz & r & He & Hl & Hf & Hd);
    [done|repeat constructor|]. exists sh, sz, r. split; [exact He|]. split; [exact Hl|]. split; [exact Hf|].
  apply Hd; [vm_compute; lia|done].
Defined.
