(* ===== verification/Watchdog.v ===== *)
(** The watchdog of gwatchdog (watchdog.go, monitor.go, error.go), which polls the main loops of the mirror and the
    state machine and cancels the engine's context when one does not answer in time.

    The goroutines (one per monitored subsystem, and the kernel that starts them) are a step relation over a common
    clock; a step is a case of one of their selects, or something a caller or a subsystem does. *)
From S2P Require Import Prelude Types.
Local Open Scope Z_scope.

(** ** error.go *)
Inductive Cause :=
| FailureToRespondError (SubsystemName : bytes)
| ForcedTerminationError (Reason : bytes)
| WrappedError (msg : bytes) (err : Cause)
| OtherError (msg : bytes).

Fixpoint asTermination (e : Cause) : bool :=
  match e with FailureToRespondError _ | ForcedTerminationError _ => true | WrappedError _ e => asTermination e | OtherError _ => false end.
(** On the cause of a context, nil when it is not cancelled. *)
Definition IsTermination (cause : option Cause) : bool := match cause with None => false | Some e => asTermination e end.

(** ** monitor.go *)
Record MonitorConfig := MkMonitorConfig { Name : bytes; Interval : Z; Jitter : Z; ResponseTimeout : Z }.

Definition joinErr (cond : bool) (msg : string) (err : option error) : option error :=
  if cond then Some (match err with None => ErrJoin1 (ErrOther msg) | Some e => ErrJoin e (ErrOther msg) end) else err.
Definition validate (c : MonitorConfig) : option error :=
  joinErr (c.(ResponseTimeout) <=? 0) "MonitorConfig.ResponseTimeout must be positive" (
  joinErr (c.(Jitter) <=? 0) "MonitorConfig.Jitter must be positive" (
  joinErr (c.(Interval) <? c.(Jitter)) "MonitorConfig.Jitter must be less than MonitorConfig.Interval" (
  joinErr (c.(Jitter) <=? 0) "MonitorConfig.Jitter must be positive" (
  joinErr (c.(Interval) <=? 0) "MonitorConfig.Interval must be positive" (
  joinErr (String.eqb c.(Name) "") "MonitorConfig.Name must not be empty" None))))).

(** Where a monitor is: at its first select, sending the signal, or waiting for the subsystem to close the channel it
    sent; since when, and whether it is closed. *)
Inductive Phase := Waiting | Signalling (since : Z) | Awaiting (since : Z) (closed : bool) | Finished.

(** [m_wake] is when the timer of the phase elapses. *)
Record Monitor := MkMonitor { m_cfg : MonitorConfig; m_phase : Phase; m_wake : Z }.

(** The time to the next poll; [n] is what the random source gave for the bound. *)
Definition jitterBound (c : MonitorConfig) : Z := i64 (2 * c.(Jitter)).
Definition pollInterval (c : MonitorConfig) (n : Z) : outcome Z :=
  if jitterBound c <=? 0 then Panic "invalid argument to Int64N" else Ret (i64 (c.(Interval) + i64 (n - c.(Jitter)))).

(** ** watchdog.go *)
Record Watchdog := MkWatchdog {
  now : Z;
  nop : bool;
  rootCause : option Cause;
  wCause : option Cause;
  kernelDone : bool;
  monitors : list Monitor
}.
Implicit Types w : Watchdog.

Definition NewWatchdog (t : Z) : Watchdog := MkWatchdog t false None None false [].
Definition NewNopWatchdog (t : Z) : Watchdog := MkWatchdog t true None None false [].

(** The cancel function of the watchdog's context: the first cause stays. *)
Definition cancel (e : Cause) w : Watchdog := {| w with wCause := Some (default e w.(wCause)) |}.
Definition Terminate (reason : bytes) w : Watchdog := cancel (ForcedTerminationError reason) w.

(** Wait returns when the kernel and all monitors are done. *)
Definition waitReturns w : bool := w.(kernelDone) && forallb (fun m => match m.(m_phase) with Finished => true | _ => false end) w.(monitors).

Inductive Event :=
| Tick (d : Z)
| TerminateCall (reason : bytes)
| RootCancel (e : Cause)
| MonitorCall (cfg : MonitorConfig) (n : Z)
| KernelStop
| Poll (i : nat)
| Received (i : nat)
| Closed (i : nat)
| SawAlive (i : nat) (n : Z)
| SendTimeout (i : nat) (n : Z)
| ReplyTimeout (i : nat) (n : Z)
| MonitorStop (i : nat).

Definition setMonitor (i : nat) (m : Monitor) w : Watchdog := {| w with monitors := <[i := m]> w.(monitors) |}.

(** The top of the monitor's loop. *)
Definition nextWait (i : nat) (c : MonitorConfig) (n : Z) w : outcome Watchdog :=
  d ← pollInterval c n; Ret (setMonitor i (MkMonitor c Waiting (w.(now) + d)) w).
Definition inRange (c : MonitorConfig) (n : Z) : bool := (0 <=? n) && (n <? Z.max 1 (jitterBound c)).

(** The state after an event; None when it cannot happen in the state. *)
Definition step (e : Event) w : option (outcome Watchdog) :=
  let onMonitor i (f : Monitor -> option (outcome Watchdog)) := match w.(monitors) !! i with Some m => f m | None => None end in
  match e with
  | Tick d => if 0 <=? d then Some (Ret {| w with now := w.(now) + d |}) else None
  | TerminateCall reason => Some (Ret (Terminate reason w))
  | RootCancel e =>
      Some (Ret (match w.(rootCause) with None => cancel e {| w with rootCause := Some e |} | Some _ => w end))
  | MonitorCall cfg n =>
      match validate cfg with
      | Some _ => Some (Panic "(*Watchdog).Monitor: MonitorConfig is invalid")
      | None =>
          if w.(nop) then Some (Ret w)
          else if w.(kernelDone) || negb (inRange cfg n) then None
          else Some (nextWait (length w.(monitors)) cfg n {| w with monitors := w.(monitors) ++ [MkMonitor cfg Waiting 0] |})
      end
  | KernelStop => if w.(kernelDone) then None else match w.(rootCause) with Some _ => Some (Ret {| w with kernelDone := true |}) | None => None end
  | Poll i => onMonitor i (fun m =>
      match m.(m_phase) with
      | Waiting => if m.(m_wake) <=? w.(now)
          then Some (Ret (setMonitor i (MkMonitor m.(m_cfg) (Signalling w.(now)) (w.(now) + m.(m_cfg).(ResponseTimeout))) w)) else None
      | _ => None
      end)
  | Received i => onMonitor i (fun m =>
      match m.(m_phase) with
      | Signalling t => Some (Ret (setMonitor i {| m with m_phase := Awaiting t false |} w))
      | _ => None
      end)
  | Closed i => onMonitor i (fun m =>
      match m.(m_phase) with
      | Awaiting t false => Some (Ret (setMonitor i {| m with m_phase := Awaiting t true |} w))
      | _ => None
      end)
  | SawAlive i n => onMonitor i (fun m =>
      match m.(m_phase) with
      | Awaiting _ true => if inRange m.(m_cfg) n then Some (nextWait i m.(m_cfg) n w) else None
      | _ => None
      end)
  | SendTimeout i n => onMonitor i (fun m =>
      match m.(m_phase) with
      | Signalling _ =>
          if (m.(m_wake) <=? w.(now)) && inRange m.(m_cfg) n
          then Some (nextWait i m.(m_cfg) n (cancel (FailureToRespondError m.(m_cfg).(Name)) w)) else None
      | _ => None
      end)
  | ReplyTimeout i n => onMonitor i (fun m =>
      match m.(m_phase) with
      | Awaiting _ closed =>
          if (m.(m_wake) <=? w.(now)) && inRange m.(m_cfg) n
          then Some (nextWait i m.(m_cfg) n (if closed then w else cancel (FailureToRespondError m.(m_cfg).(Name)) w)) else None
      | _ => None
      end)
  | MonitorStop i => onMonitor i (fun m =>
      match m.(m_phase), w.(wCause) with
      | Finished, _ | _, None => None
      | _, Some _ => Some (Ret (setMonitor i {| m with m_phase := Finished |} w))
      end)
  end.

(** Runs, with what happened and when. *)
Inductive run (w0 : Watchdog) : list (Z * Event) -> Watchdog -> Prop :=
| run_new : run w0 [] w0
| run_step h e w w' : run w0 h w -> step e w = Some (Ret w') -> run w0 (h ++ [(w.(now), e)]) w'.

(** * Who is blamed *)

(** In the history, monitor [i] polled its subsystem at [t] and the subsystem has not answered since. *)
Definition unanswered (h : list (Z * Event)) (i : nat) (t : Z) : Prop :=
  exists h1 h2, h = h1 ++ (t, Poll i) :: h2 /\ forall t', (t', Closed i) ∉ h2.

Lemma unanswered_app h i t t' e : unanswered h i t -> e <> Closed i -> unanswered (h ++ [(t', e)]) i t.
Proof.
  intros (h1 & h2 & -> & Hn) He. exists h1, (h2 ++ [(t', e)]). split; [by rewrite <- app_assoc|].
  intros t'' [Hin|Hin]%elem_of_app; [by apply (Hn t'')|]. apply list_elem_of_singleton in Hin. congruence.
Qed.

Lemma unanswered_new h i t : unanswered (h ++ [(t, Poll i)]) i t.
Proof. exists h, []. split; [done|]. intros t'. by intros ?%not_elem_of_nil. Qed.

(** The timeout of a monitor elapsed, after [t], with no answer. *)
Inductive timedOut (h : list (Z * Event)) (i : nat) (timeout : Z) : Prop :=
| timedOut_at h1 h2 t e : h = h1 ++ e :: h2 -> (exists n, e.2 = SendTimeout i n \/ e.2 = ReplyTimeout i n) ->
    unanswered h1 i t -> t + timeout <= e.1 -> timedOut h i timeout.

Lemma timedOut_app h i timeout e : timedOut h i timeout -> timedOut (h ++ [e]) i timeout.
Proof. intros [h1 h2 t e' -> He Hu Ht]. apply (timedOut_at _ _ _ h1 (h2 ++ [e]) t e'); try done. by rewrite <- app_assoc. Qed.

(** The reasons there are to cancel the watchdog's context. *)
Inductive justified (h : list (Z * Event)) w : Cause -> Prop :=
| by_root t e : (t, RootCancel e) ∈ h -> justified h w e
| by_terminate t reason : (t, TerminateCall reason) ∈ h -> justified h w (ForcedTerminationError reason)
| by_monitor i m : w.(monitors) !! i = Some m -> timedOut h i m.(m_cfg).(ResponseTimeout) ->
    justified h w (FailureToRespondError m.(m_cfg).(Name)).

(** The configurations stay. *)
Definition keeps w w' : Prop :=
  forall i m, w.(monitors) !! i = Some m -> exists m', w'.(monitors) !! i = Some m' /\ m'.(m_cfg) = m.(m_cfg).

Lemma justified_app h w w' c e : keeps w w' -> justified h w c -> justified (h ++ [e]) w' c.
Proof.
  intros Hk [t c' Hin|t reason Hin|i m Hm Ht].
  - apply (by_root _ _ t). rewrite elem_of_app. by left.
  - apply (by_terminate _ _ t). rewrite elem_of_app. by left.
  - destruct (Hk i m Hm) as (m' & Hm' & <-). apply (by_monitor _ _ i); [done|]. apply timedOut_app. destruct (Hk i m Hm) as (m2 & Hm2 & ?).
    congruence.
Qed.

Record dogInv (h : list (Z * Event)) w : Prop := {
  inv_cause c : w.(wCause) = Some c -> justified h w c;
  inv_phase i m : w.(monitors) !! i = Some m ->
    match m.(m_phase) with
    | Signalling t | Awaiting t false => m.(m_wake) = t + m.(m_cfg).(ResponseTimeout) /\ unanswered h i t
    | _ => True
    end
}.

(** Setting monitor [i] keeps the invariant when the new phase does, and the cause is justified. *)
Lemma inv_set h w w' i m m' e : dogInv h w -> w.(monitors) !! i = Some m -> w'.(monitors) = <[i := m']> w.(monitors) ->
  m'.(m_cfg) = m.(m_cfg) ->
  (forall j, j <> i -> e <> Closed j) ->
  (forall c, w'.(wCause) = Some c -> w.(wCause) = Some c \/ justified (h ++ [(w.(now), e)]) w' c) ->
  match m'.(m_phase) with
  | Signalling t | Awaiting t false => m'.(m_wake) = t + m'.(m_cfg).(ResponseTimeout) /\ unanswered (h ++ [(w.(now), e)]) i t
  | _ => True
  end -> dogInv (h ++ [(w.(now), e)]) w'.
Proof.
  intros [Hc Hp] Hm Hset Hcfg He Hcause Hphase.
  assert (Hk : keeps w w').
  { intros j mj Hj. rewrite Hset. destruct (decide (i = j)) as [<-|Hn].
    - exists m'. rewrite list_lookup_insert_eq by by eapply lookup_lt_Some. split; [done|congruence].
    - exists mj. by rewrite list_lookup_insert_ne. }
  split.
  - intros c Hw. destruct (Hcause c Hw) as [Hold|Hnew]; [|done]. by apply (justified_app h w), Hc.
  - intros j mj Hj. rewrite Hset in Hj. apply list_lookup_insert_Some in Hj as [(-> & <- & _)|[Hn Hj]]; [done|].
    specialize (Hp j mj Hj). destruct (m_phase mj) as [|t|t [|]|]; try done; destruct Hp as [Hw Hu]; (split; [done|]);
      apply unanswered_app; try done; by apply He.
Qed.

(** Events that leave the monitors alone. *)
Lemma inv_keep h w w' e : dogInv h w -> w'.(monitors) = w.(monitors) -> (forall j, e <> Closed j) ->
  (forall c, w'.(wCause) = Some c -> w.(wCause) = Some c \/ justified (h ++ [(w.(now), e)]) w' c) ->
  dogInv (h ++ [(w.(now), e)]) w'.
Proof.
  intros [Hc Hp] Hset He Hcause. split.
  - intros c Hw. destruct (Hcause c Hw) as [Hold|Hnew]; [|done]. apply (justified_app h w); [|by apply Hc].
    intros i m Hm. exists m. by rewrite Hset.
  - intros j mj Hj. rewrite Hset in Hj. specialize (Hp j mj Hj).
    destruct (m_phase mj) as [|t|t [|]|]; try done; destruct Hp as [Hw Hu]; (split; [done|]); by apply unanswered_app.
Qed.

Lemma nextWait_set i c n w w' : nextWait i c n w = Ret w' ->
  exists t, w' = setMonitor i (MkMonitor c Waiting t) w.
Proof. unfold nextWait. destruct (pollInterval c n) as [d|]; [|done]. simpl. intros [= <-]. by eexists. Qed.

Lemma cancel_cause e w c : (cancel e w).(wCause) = Some c -> w.(wCause) = Some c \/ c = e.
Proof. unfold cancel. simpl. destruct (wCause w); simpl; intros [= <-]; auto. Qed.

(** The blame of a timeout that happens now. *)
Lemma blame h w w' i m m' n t e : w'.(monitors) = <[i := m']> w.(monitors) -> w.(monitors) !! i = Some m ->
  m'.(m_cfg) = m.(m_cfg) -> e = SendTimeout i n \/ e = ReplyTimeout i n -> unanswered h i t ->
  t + m.(m_cfg).(ResponseTimeout) <= w.(now) -> justified (h ++ [(w.(now), e)]) w' (FailureToRespondError m.(m_cfg).(Name)).
Proof.
  intros Hset Hm Hcfg He Hu Ht. rewrite <- Hcfg. apply (by_monitor _ _ i).
  - rewrite Hset. apply list_lookup_insert_eq. by eapply lookup_lt_Some.
  - rewrite Hcfg. apply (timedOut_at _ _ _ h [] t (now w, e)); try done. by exists n.
Qed.

(** The monitor of an event. *)
Lemma step_monitor (i : nat) w (f : Monitor -> option (outcome Watchdog)) w' :
  match w.(monitors) !! i with Some m => f m | None => None end = Some (Ret w') ->
  exists m, w.(monitors) !! i = Some m /\ f m = Some (Ret w').
Proof. destruct (monitors w !! i) as [m|]; [by exists m|done]. Qed.

Ltac take_monitor Hs := apply step_monitor in Hs as (m & Hm & Hs).

Lemma inv_step_call h e w w' : dogInv h w -> step e w = Some (Ret w') ->
  match e with Tick _ | TerminateCall _ | RootCancel _ | MonitorCall _ _ | KernelStop => True | _ => False end ->
  dogInv (h ++ [(w.(now), e)]) w'.
Proof.
  intros Hi Hs Hk. destruct e as [d|reason|c|cfg n| | | | | | | | ]; try done; simpl in Hs.
  - destruct (0 <=? d); [|done]. injection Hs as <-. apply (inv_keep h w); auto.
  - injection Hs as <-. apply (inv_keep h w); try done. intros c [Hc|Hc]%cancel_cause; [by left|right]. subst.
    apply (by_terminate _ _ (now w)). rewrite elem_of_app. right. by left.
  - injection Hs as <-. destruct (rootCause w); apply (inv_keep h w); auto; intros c' [Hc|Hc]%cancel_cause; [by left|right].
    subst. apply (by_root _ _ (now w)). rewrite elem_of_app. right. by left.
  - destruct (validate cfg); [done|]. destruct (nop w); [injection Hs as <-; apply (inv_keep h w); auto|].
    destruct (_ || _); [done|]. injection Hs as Hs. apply nextWait_set in Hs as (t & ->). destruct Hi as [Hc Hp].
    assert (Hlast : <[length (monitors w) := MkMonitor cfg Waiting t]> (monitors w ++ [MkMonitor cfg Waiting 0]) = monitors w ++ [MkMonitor cfg Waiting t]).
    { rewrite insert_app_r_alt by done. by rewrite Nat.sub_diag. }
    set (w1 := setMonitor _ _ _). assert (Hmon : monitors w1 = monitors w ++ [MkMonitor cfg Waiting t]) by exact Hlast.
    assert (Hcause : wCause w1 = wCause w) by done. clearbody w1. split; rewrite ?Hmon, ?Hcause.
    + intros c Hw. apply (justified_app h w); [|by apply Hc]. intros i m Hm. exists m. split; [|done]. rewrite Hmon. by apply lookup_app_l_Some.
    + intros i m [Hm|[_ Hm]]%lookup_app_Some.
      * specialize (Hp i m Hm). destruct (m_phase m) as [|u|u [|]|]; try done; destruct Hp as [Hw Hu]; (split; [done|]); by apply unanswered_app.
      * apply list_lookup_singleton_Some in Hm as [_ <-]. done.
  - destruct (kernelDone w); [done|]. destruct (rootCause w); [|done]. injection Hs as <-. apply (inv_keep h w); auto.
Qed.

Lemma inv_step_monitor h e w w' : dogInv h w -> step e w = Some (Ret w') ->
  match e with Poll _ | Received _ | Closed _ | SawAlive _ _ | MonitorStop _ => True | _ => False end ->
  dogInv (h ++ [(w.(now), e)]) w'.
Proof.
  intros Hi Hs Hk. destruct e as [ | | | | |i|i|i|i n| | |i]; try done; simpl in Hs; take_monitor Hs;
    pose proof (inv_phase _ _ Hi i m Hm) as Hp; destruct (m_phase m) as [|t|t [|]|] eqn:Eph; try done.
  - destruct (m_wake m <=? now w); [|done]. injection Hs as <-. eapply (inv_set h w _ i m); try done; [intros; by left|].
    simpl. split; [done|]. apply unanswered_new.
  - injection Hs as <-. destruct Hp as [Hw Hu]. eapply (inv_set h w _ i m); try done; [intros; by left|].
    simpl. split; [done|]. by apply unanswered_app.
  - injection Hs as <-. eapply (inv_set h w _ i m); try done; [intros j Hj [= ->]; done|intros; by left].
  - destruct (inRange _ _); [|done]. injection Hs as Hs. apply nextWait_set in Hs as (u & ->). eapply (inv_set h w _ i m); try done. intros; by left.
  - destruct (wCause w) as [c|] eqn:Ec; [|done]. injection Hs as <-. eapply (inv_set h w _ i m); try done. simpl. intros; by left.
  - destruct (wCause w) as [c|] eqn:Ec; [|done]. injection Hs as <-. eapply (inv_set h w _ i m); try done. simpl. intros; by left.
  - destruct (wCause w) as [c|] eqn:Ec; [|done]. injection Hs as <-. eapply (inv_set h w _ i m); try done. simpl. intros; by left.
  - destruct (wCause w) as [c|] eqn:Ec; [|done]. injection Hs as <-. eapply (inv_set h w _ i m); try done. simpl. intros; by left.
Qed.

Lemma inv_step_timeout h e w w' : dogInv h w -> step e w = Some (Ret w') ->
  match e with SendTimeout _ _ | ReplyTimeout _ _ => True | _ => False end -> dogInv (h ++ [(w.(now), e)]) w'.
Proof.
  intros Hi Hs Hk. destruct e as [ | | | | | | | | |i n|i n| ]; try done; simpl in Hs; take_monitor Hs;
    pose proof (inv_phase _ _ Hi i m Hm) as Hp; destruct (m_phase m) as [|t|t [|]|] eqn:Eph; try done;
    destruct (Z.leb_spec (m_wake m) (now w)) as [Hle|]; simpl in Hs; try done; destruct (inRange _ _); try done;
    injection Hs as Hs; apply nextWait_set in Hs as (u & ->); eapply (inv_set h w _ i m); try done.
  - destruct Hp as [Hw Hu]. intros c [Hc|Hc]%cancel_cause; [by left|right]. subst c.
    eapply (blame h w _ i m _ n t); try done; [by left|lia].
  - by left.
  - destruct Hp as [Hw Hu]. intros c [Hc|Hc]%cancel_cause; [by left|right]. subst c.
    eapply (blame h w _ i m _ n t); try done; [by right|lia].
Qed.

Lemma dogRun_inv w0 h w : dogInv [] w0 -> run w0 h w -> dogInv h w.
Proof.
  intros H0. induction 1 as [|h e w w' Hr IH Hs]; [done|].
  destruct e; first [by eapply inv_step_call|by eapply inv_step_monitor|by eapply inv_step_timeout].
Qed.

(** ** Shutdown and polling intervals *)

(** The kernel only listens to the root context, so Wait does not return before that is cancelled. *)
Lemma run_kernel w0 h w : w0.(kernelDone) = false -> run w0 h w -> waitReturns w = true -> exists c, w.(rootCause) = Some c.
Proof.
  intros H0 Hr [Hk _]%andb_true_iff. revert Hk. induction Hr as [|h e w w' Hr IH Hs]; [congruence|]. intros Hk.
  assert (Hroot : forall v, kernelDone v = kernelDone w -> (forall c, rootCause w = Some c -> exists c', rootCause v = Some c') ->
    v = w' -> exists c, rootCause w' = Some c).
  { intros v H1 H2 <-. rewrite H1 in Hk. destruct (IH Hk) as [c Hc]. by eapply H2. }
  assert (Hnext : forall i c n v, nextWait i c n v = Ret w' -> kernelDone v = kernelDone w -> rootCause v = rootCause w ->
    exists c, rootCause w' = Some c).
  { intros i c n v (t & E)%nextWait_set H1 H2. apply (Hroot (setMonitor i (MkMonitor c Waiting t) v)); [done| |done].
    intros c' Hc'. exists c'. simpl. congruence. }
  destruct e; simpl in Hs; try (take_monitor Hs; destruct (m_phase m) as [|t|t [|]|]); repeat case_match; try done;
    injection Hs as Hs; try (by eapply Hnext; [exact Hs|..]); subst w'; simpl in *; eauto.
Qed.

(** With a valid configuration, and durations that do not overflow, the next poll comes within the jitter of the interval. *)
Lemma poll_interval cfg n : validate cfg = None -> 2 * cfg.(Jitter) < two63 -> cfg.(Interval) + cfg.(Jitter) < two63 ->
  inRange cfg n = true -> exists d, pollInterval cfg n = Ret d /\ 0 <= d /\ cfg.(Interval) - cfg.(Jitter) <= d < cfg.(Interval) + cfg.(Jitter).
Proof.
  intros Hv H1 H2 Hr. assert (Hcfg : 0 < cfg.(Jitter) <= cfg.(Interval)).
  { unfold validate, joinErr in Hv. repeat case_match; try done.
    repeat match goal with H : (_ <=? _) = false |- _ => apply Z.leb_gt in H | H : (_ <? _) = false |- _ => apply Z.ltb_ge in H end. lia. }
  unfold inRange, pollInterval, jitterBound in *. unfold two63 in *.
  rewrite (i64_small (2 * Jitter cfg)) in * by (unfold is_i64, two63; lia).
  apply andb_true_iff in Hr as [Hn1%Z.leb_le Hn2%Z.ltb_lt]. rewrite (proj2 (Z.leb_gt _ _)) by lia. eexists. split; [done|].
  rewrite (i64_small (n - Jitter cfg)), i64_small by (unfold is_i64, two63; lia). lia.
Qed.

(** C35: the watchdog only brings the engine down for cause.  Whenever the context it guards is cancelled, with that cause
    either the root context was cancelled or Terminate was called with that reason, or a monitor of the named
    subsystem polled it and the response timeout elapsed, with no answer between the poll and the timeout; and once
    the watchdog's goroutines are done, the root context is cancelled. *)
Theorem watchdog_cancels_for_cause (t0 : Z) (h : list (Z * Event)) (w : Watchdog) (c : Cause) :
  run (NewWatchdog t0) h w -> w.(wCause) = Some c -> justified h w c /\ (waitReturns w = true -> exists r, w.(rootCause) = Some r).
Proof.
  intros Hr Hc. split; [|by apply (run_kernel (NewWatchdog t0) h)]. eapply inv_cause; [|done]. eapply dogRun_inv; [|done].
  split; [done|]. intros i m Hm. simpl in Hm. by rewrite lookup_nil in Hm.
Qed.

(** A subsystem that accepts the signal and does not answer. *)
Definition dogConfig : MonitorConfig := MkMonitorConfig "kernel" 100 10 50.
Definition dogEvents : list Event := [MonitorCall dogConfig 3; Tick 93; Poll 0; Tick 10; Received 0; Tick 40; ReplyTimeout 0 5].
Fixpoint runEvents (es : list Event) w : option (list (Z * Event) * Watchdog) :=
  match es with
  | [] => Some ([], w)
  | e :: es => match step e w with Some (Ret w') => (fun r => ((w.(now), e) :: r.1, r.2)) <$> runEvents es w' | _ => None end
  end.

Lemma dogEvents_run w0 h es w h' w' : run w0 h w -> runEvents es w = Some (h', w') -> run w0 (h ++ h') w'.
Proof.
  revert h h' w. induction es as [|e es IH]; intros h h' w Hr; cbn [runEvents]; [intros [= <- <-]; by rewrite app_nil_r|].
  destruct (step e w) as [[w1|]|] eqn:E; [|done..]. intros ([h2 w2] & He & [= -> ->])%fmap_Some. simpl.
  rewrite cons_middle, app_assoc. eapply IH; [|done]. by eapply run_step.
Qed.

Lemma watchdog_cancels_for_cause_witness :
  exists h w, run (NewWatchdog 0) h w /\ justified h w (FailureToRespondError "kernel").
Proof.
  destruct (runEvents dogEvents (NewWatchdog 0)) as [[h w]|] eqn:E; [|exfalso; vm_compute in E; discriminate].
  assert (Hc : wCause w = Some (FailureToRespondError "kernel")) by (vm_compute in E; injection E as <- <-; reflexivity).
  apply (dogEvents_run (NewWatchdog 0) [] _ _ _ _ (run_new _)) in E. exists h, w. split; [exact E|].
  apply (watchdog_cancels_for_cause 0 h w (FailureToRespondError "kernel") E Hc).
Defined.
