(* ===== verification/Metrics.v ===== *)
(** The collector of the engine's metrics (tmemetrics/metrics.go): the mirror and the state machine report where they
    are without ever waiting, and the collector passes what it has on to whoever reads the output channel.

    The goroutine is a step relation over the cases of its select and the calls of its two reporters.  A history
    records what was handed to the collector, taken by it and read from it. *)
From S2P Require Import Prelude Types.
Local Open Scope Z_scope.

Record Metrics := MkMetrics {
  MirrorCommittingHeight : Z; MirrorCommittingRound : Z;
  MirrorVotingHeight : Z; MirrorVotingRound : Z;
  StateMachineHeight : Z; StateMachineRound : Z
}.
Record MirrorMetrics := MkMirrorMetrics { VH : Z; VR : Z; CH : Z; CR : Z }.
Record StateMachineMetrics := MkStateMachineMetrics { mt_H : Z; mt_R : Z }.

Definition Metrics_zero : Metrics := MkMetrics 0 0 0 0 0 0.

#[export] Instance MirrorMetrics_eq_dec : EqDecision MirrorMetrics.
Proof. solve_decision. Defined.
#[export] Instance StateMachineMetrics_eq_dec : EqDecision StateMachineMetrics.
Proof. solve_decision. Defined.
#[export] Instance Metrics_eq_dec : EqDecision Metrics.
Proof. solve_decision. Defined.

(** The collector: the two buffered channels, and the variables of its goroutine. *)
Record Collector := MkCollector {
  bufSize : nat;
  mCh : list MirrorMetrics; sCh : list StateMachineMetrics;
  cur : Metrics; gotM : bool; gotS : bool; outdated : bool;
  done_ : bool
}.
Implicit Types c : Collector.

Definition NewCollector (bufSize : nat) : Collector := MkCollector bufSize [] [] Metrics_zero false false false false.

(** The reports do not block: a report that finds the buffer full is dropped. *)
Definition UpdateMirror (m : MirrorMetrics) c : Collector :=
  if (length c.(mCh) <? c.(bufSize))%nat then {| c with mCh := c.(mCh) ++ [m] |} else c.
Definition UpdateStateMachine (s : StateMachineMetrics) c : Collector :=
  if (length c.(sCh) <? c.(bufSize))%nat then {| c with sCh := c.(sCh) ++ [s] |} else c.

(** The output channel is nil until both have reported and something is new. *)
Definition offers c : bool := c.(gotM) && c.(gotS) && c.(outdated).

Definition withMirror (m : MirrorMetrics) (v : Metrics) : Metrics :=
  {| v with MirrorCommittingHeight := m.(CH); MirrorCommittingRound := m.(CR);
            MirrorVotingHeight := m.(VH); MirrorVotingRound := m.(VR) |}.
Definition withStateMachine (s : StateMachineMetrics) (v : Metrics) : Metrics :=
  {| v with StateMachineHeight := s.(mt_H); StateMachineRound := s.(mt_R) |}.

Inductive MEvent :=
| ReportMirror (m : MirrorMetrics)
| ReportStateMachine (s : StateMachineMetrics)
| TakeMirror (m : MirrorMetrics)
| TakeStateMachine (s : StateMachineMetrics)
| Output (v : Metrics)
| Stop.

(** The state after an event; None when it cannot happen. *)
Definition mstep (e : MEvent) c : option Collector :=
  match e with
  | ReportMirror m => Some (UpdateMirror m c)
  | ReportStateMachine s => Some (UpdateStateMachine s c)
  | _ => if c.(done_) then None else
      match e with
      | TakeMirror m' =>
          match c.(mCh) with
          | m :: l => if decide (m = m')
                      then Some {| c with mCh := l; cur := withMirror m c.(cur); gotM := true; outdated := true |} else None
          | [] => None
          end
      | TakeStateMachine s' =>
          match c.(sCh) with
          | s :: l => if decide (s = s')
                      then Some {| c with sCh := l; cur := withStateMachine s c.(cur); gotS := true; outdated := true |} else None
          | [] => None
          end
      | Output v => if offers c && bool_decide (v = c.(cur)) then Some {| c with outdated := false |} else None
      | _ => Some {| c with done_ := true |}
      end
  end.

Inductive mrun (n : nat) : list MEvent -> Collector -> Prop :=
| mrun_new : mrun n [] (NewCollector n)
| mrun_step h e c c' : mrun n h c -> mstep e c = Some c' -> mrun n (h ++ [e]) c'.

(** ** What a history says *)

(** The last metrics taken from each reporter, and whether any came since the last output. *)
Record Seen := MkSeen { lastMirror : option MirrorMetrics; lastStateMachine : option StateMachineMetrics; fresh : bool }.
Definition see (x : Seen) (e : MEvent) : Seen :=
  match e with
  | TakeMirror m => {| x with lastMirror := Some m; fresh := true |}
  | TakeStateMachine s => {| x with lastStateMachine := Some s; fresh := true |}
  | Output _ => {| x with fresh := false |}
  | _ => x
  end.
Definition seen (h : list MEvent) : Seen := foldl see (MkSeen None None false) h.

(** What was handed in, and what was taken of it. *)
Definition reportedM (e : MEvent) : option MirrorMetrics := match e with ReportMirror m => Some m | _ => None end.
Definition takenM (e : MEvent) : option MirrorMetrics := match e with TakeMirror m => Some m | _ => None end.
Definition reportedS (e : MEvent) : option StateMachineMetrics := match e with ReportStateMachine s => Some s | _ => None end.
Definition takenS (e : MEvent) : option StateMachineMetrics := match e with TakeStateMachine s => Some s | _ => None end.

Definition shown (x : Seen) : Metrics :=
  let v := match x.(lastMirror) with Some m => withMirror m Metrics_zero | None => Metrics_zero end in
  match x.(lastStateMachine) with Some s => withStateMachine s v | None => v end.

Record faithful (h : list MEvent) c : Prop := {
  fa_cur : c.(cur) = shown (seen h);
  fa_gotM : c.(gotM) = bool_decide (is_Some (seen h).(lastMirror));
  fa_gotS : c.(gotS) = bool_decide (is_Some (seen h).(lastStateMachine));
  fa_fresh : c.(outdated) = (seen h).(fresh);
  fa_mirror : sublist (omap takenM h ++ c.(mCh)) (omap reportedM h);
  fa_machine : sublist (omap takenS h ++ c.(sCh)) (omap reportedS h)
}.

Lemma seen_snoc h e : seen (h ++ [e]) = see (seen h) e.
Proof. unfold seen. by rewrite foldl_app. Qed.

Lemma shown_mirror x m : shown (see x (TakeMirror m)) = withMirror m (shown x).
Proof. destruct x as [[m0|] [s0|] f]; reflexivity. Qed.
Lemma shown_machine x s : shown (see x (TakeStateMachine s)) = withStateMachine s (shown x).
Proof. destruct x as [[m0|] [s0|] f]; reflexivity. Qed.

(** A report that is handed in goes to the buffer, or is dropped; one that is taken comes from it. *)
Lemma sublist_buffered {A} (t l r : list A) (a : A) : sublist (t ++ l) r -> sublist (t ++ l ++ [a]) (r ++ [a]).
Proof. intros Hs. rewrite app_assoc. by apply sublist_app. Qed.
Lemma sublist_dropped {A} (t l r : list A) (a : A) : sublist (t ++ l) r -> sublist (t ++ l) (r ++ [a]).
Proof. intros Hs. rewrite <- (app_nil_r (t ++ l)). by apply sublist_app; [|apply sublist_nil_l]. Qed.
Lemma sublist_taken {A} (t l r : list A) (a : A) : sublist (t ++ a :: l) r -> sublist ((t ++ [a]) ++ l) r.
Proof. by rewrite <- app_assoc. Qed.

Lemma mstep_faithful h e c c' : faithful h c -> mstep e c = Some c' -> faithful (h ++ [e]) c'.
Proof.
  intros [Hc Hm Hs Hf Hsm Hss] Hst. split; rewrite ?seen_snoc, ?omap_app.
  all: destruct e as [m|s|m|s|v|]; simpl in Hst |- *; unfold UpdateMirror, UpdateStateMachine in *;
    rewrite ?app_nil_r; repeat case_match; simplify_eq; simpl; try done.
  all: first [rewrite Hc; symmetry; apply shown_mirror | rewrite Hc; symmetry; apply shown_machine
             |by apply sublist_buffered | by apply sublist_dropped | apply sublist_taken; congruence].
Qed.

Lemma mrun_faithful n h c : mrun n h c -> faithful h c.
Proof.
  induction 1 as [|h e c c' Hr IH Hs]; [|by eapply mstep_faithful].
  by split.
Qed.

Lemma mrun_split n h1 e h2 c : mrun n (h1 ++ e :: h2) c -> exists c1 c2, mrun n h1 c1 /\ mstep e c1 = Some c2.
Proof.
  revert c. induction h2 as [|e2 h2 IH] using rev_ind; intros c Hr.
  - inversion Hr as [Heq|h e' c1 c2 Hr1 Hs Heq]; [by destruct h1|]. apply app_inj_tail in Heq as [-> ->]. by exists c1, c.
  - rewrite app_comm_cons, app_assoc in Hr. inversion Hr as [Heq|h e' c1 c2 Hr1 Hs Heq]; [by destruct h1|].
    apply app_inj_tail in Heq as [-> ->]. by eapply IH.
Qed.

(** What the reader of the metrics gets.  Every value output was assembled from the last report taken from the mirror
    and the last one taken from the state machine; none is output before both have reported, nor twice without a new
    report in between; and reports are taken in the order they were handed in, some of them dropped. *)
Theorem metrics_output_latest (n : nat) (h1 h2 : list MEvent) (v : Metrics) (c : Collector) :
  mrun n (h1 ++ Output v :: h2) c ->
  (exists m s, (seen h1).(lastMirror) = Some m /\ (seen h1).(lastStateMachine) = Some s /\
     v = withStateMachine s (withMirror m Metrics_zero)) /\
  (seen h1).(fresh) = true /\
  sublist (omap takenM h1) (omap reportedM h1) /\ sublist (omap takenS h1) (omap reportedS h1).
Proof.
  intros (c1 & c2 & Hr & Hs)%mrun_split. destruct (mrun_faithful _ _ _ Hr) as [Hc Hm Hss Hf Hsm Hsx]. simpl in Hs.
  destruct (done_ c1); [discriminate|]. unfold offers in Hs. rewrite Hm, Hss, Hf, Hc in Hs.
  destruct (seen h1) as [[m|] [s|] f]; simpl in *; try discriminate. destruct f; simpl in Hs; [|discriminate].
  case_bool_decide as Hv; [|discriminate]. split; [by exists m, s|]. split; [done|].
  split; (etransitivity; [|eassumption]); apply sublist_inserts_r; reflexivity.
Qed.

(** Two reports of the mirror in a buffer of one, of which the second is dropped. *)
Definition metricsRun : list MEvent :=
  [ReportMirror (MkMirrorMetrics 2 0 1 0); ReportMirror (MkMirrorMetrics 2 1 1 0); ReportStateMachine (MkStateMachineMetrics 2 0);
   TakeMirror (MkMirrorMetrics 2 0 1 0); TakeStateMachine (MkStateMachineMetrics 2 0)].
Fixpoint msteps (es : list MEvent) c : option Collector :=
  match es with [] => Some c | e :: es => match mstep e c with Some c' => msteps es c' | None => None end end.

Lemma msteps_run n h es c c' : mrun n h c -> msteps es c = Some c' -> mrun n (h ++ es) c'.
Proof.
  revert h c. induction es as [|e es IH]; intros h c Hr; simpl; [intros [= <-]; by rewrite app_nil_r|].
  destruct (mstep e c) as [c1|] eqn:E; [|done]. intros Hs. rewrite cons_middle, app_assoc.
  eapply IH; [by eapply mrun_step|done].
Qed.

Lemma metrics_output_latest_witness :
  (exists c, mrun 1 (metricsRun ++ [Output (MkMetrics 1 0 2 0 2 0)]) c) /\ (seen metricsRun).(fresh) = true.
Proof.
  assert (Hr : exists c, mrun 1 (metricsRun ++ [Output (MkMetrics 1 0 2 0 2 0)]) c).
  { destruct (msteps (metricsRun ++ [Output (MkMetrics 1 0 2 0 2 0)]) (NewCollector 1)) as [c|] eqn:E; [|vm_compute in E; discriminate].
    exists c. exact (msteps_run 1 [] _ _ _ (mrun_new 1) E). }
  split; [exact Hr|]. destruct Hr as [c Hr]. exact (proj1 (proj2 (metrics_output_latest 1 metricsRun [] _ c Hr))).
Defined.
