(* ===== verification/DaisyChain.v ===== *)
(** The in-memory network of tm/tmp2p/tmp2ptest/daisychainnetwork.go: connections in a row, each of which passes a
    message on to the next one once its handler accepted it.  The demonstration and integration runs use it.

    Each connection's goroutine is modelled by the cases of its select; while it sends on a channel without room it
    is blocked.  What a handler answers is part of the event.  Cancellation of the context, which only ends the
    goroutines, is left out, and the chain is built before messages flow. *)
From S2P Require Import Prelude Types RoundView Feedback.
From stdpp Require Import functions.
Local Open Scope nat_scope.

(** Of the three fields of a message exactly one is set. *)
Inductive Payload := DPH (ph : ProposedHeader) | DPrevote (p : PrevoteSparseProof) | DPrecommit (p : PrecommitSparseProof).
Record dcMessage := MkDc { srcIdx : nat; payload : Payload }.

Definition dcMessageBufSize : nat := 16.

(** A connection: whether it has a handler, its outgoing channels, the channels to its neighbours (nil at the ends of
    the chain), and a message it is sending left and right.  The last four fields are not of the code: they record the
    messages published here, taken from the outgoing channels, and received from either side (with whether they were
    passed on). *)
Record Conn := MkConn {
  handler : bool; disconnected : bool;
  outgoingPHs : list dcMessage; outgoingPrevotes : list dcMessage; outgoingPrecommits : list dcMessage;
  toLeft : option (list dcMessage); toRight : option (list dcMessage);
  sendingLeft : option dcMessage; sendingRight : option dcMessage;
  g_published : list dcMessage; g_taken : list dcMessage;
  g_left : list (dcMessage * bool); g_right : list (dcMessage * bool)
}.
Definition newConn : Conn := MkConn false false [] [] [] None None None None [] [] [] [].

(** The connections, numbered from the left. *)
Record Chain := MkChain { size_ : nat; node : nat -> Conn }.
Implicit Types (ch : Chain) (c : Conn).

Definition setNode (i : nat) c ch : Chain := {| ch with node := <[i := c]> ch.(node) |}.

(** A new connection is paired with the last one. *)
Definition connect ch : Chain :=
  let n := ch.(size_) in
  let ch := match n with
            | O => setNode n newConn ch
            | S l => setNode n {| newConn with toLeft := Some [] |} (setNode l {| (ch.(node) l) with toRight := Some [] |} ch)
            end in
  {| ch with size_ := S n |}.
Definition NewDaisyChainNetwork : Chain := MkChain 0 (fun _ => newConn).
Fixpoint connectN (n : nat) : Chain := match n with O => NewDaisyChainNetwork | S n => connect (connectN n) end.

(** The outgoing channels. *)
Inductive Kind := KPH | KPrevote | KPrecommit.
Definition kindOf (p : Payload) : Kind := match p with DPH _ => KPH | DPrevote _ => KPrevote | DPrecommit _ => KPrecommit end.
Definition outgoing (k : Kind) c : list dcMessage :=
  match k with KPH => c.(outgoingPHs) | KPrevote => c.(outgoingPrevotes) | KPrecommit => c.(outgoingPrecommits) end.
Definition setOutgoing (k : Kind) (l : list dcMessage) c : Conn :=
  match k with
  | KPH => {| c with outgoingPHs := l |}
  | KPrevote => {| c with outgoingPrevotes := l |}
  | KPrecommit => {| c with outgoingPrecommits := l |}
  end.

(** The goroutine is at its select. *)
Definition idle c : bool := match c.(sendingLeft), c.(sendingRight) with None, None => true | _, _ => false end.

(** What remains to be sent over a channel: nothing when it is nil. *)
Definition onto (q : option (list dcMessage)) (m : dcMessage) : option dcMessage := match q with Some _ => Some m | None => None end.

Inductive Event :=
| SetConsensusHandler (i : nat) (h : bool)
| Disconnect (i : nat)
| Publish (i : nat) (p : Payload)
| TakeOutgoing (i : nat) (k : Kind)
| TakeLeft (i : nat) (f : Feedback)
| TakeRight (i : nat) (f : Feedback)
| SendLeft (i : nat)
| SendRight (i : nat).

(** propagateMessage starts sending on both channels. *)
Definition propagateMessage (m : dcMessage) c : Conn := {| c with sendingLeft := onto c.(toLeft) m; sendingRight := onto c.(toRight) m |}.

(** handleMessage, or passing the message through without a handler: whether it is passed on. *)
Definition passes c (f : Feedback) : bool := negb c.(handler) || bool_decide (f = FeedbackAccepted).

(** A message from the left and from the right. *)
Definition fromLeft (m : dcMessage) (f : Feedback) c : Conn :=
  {| c with sendingRight := if passes c f then onto c.(toRight) m else None; g_left := c.(g_left) ++ [(m, passes c f)] |}.
Definition fromRight (m : dcMessage) (f : Feedback) c : Conn :=
  {| c with sendingLeft := if passes c f then onto c.(toLeft) m else None; g_right := c.(g_right) ++ [(m, passes c f)] |}.

(** A send on a buffered channel, when it has room. *)
Definition push (m : dcMessage) (q : option (list dcMessage)) : option (list dcMessage) :=
  match q with Some q => if length q <? dcMessageBufSize then Some (q ++ [m]) else None | None => None end.

(** An event at one connection. *)
Definition stepAt (e : Event) (i : nat) c : option (outcome Conn) :=
  match e with
  | SetConsensusHandler _ h =>
      if idle c then Some (if c.(disconnected) then Panic "BUG: SetConsensusHandler called after Disconnect" else Ret {| c with handler := h |})
      else None
  | Disconnect _ => if idle c && negb c.(disconnected) then Some (Ret {| c with handler := false; disconnected := true |}) else None
  | Publish _ p =>
      let l := outgoing (kindOf p) c in let m := MkDc i p in
      if length l <? dcMessageBufSize
      then Some (Ret (setOutgoing (kindOf p) (l ++ [m]) {| c with g_published := c.(g_published) ++ [m] |})) else None
  | TakeOutgoing _ k =>
      match idle c, outgoing k c with
      | true, m :: l => Some (Ret (propagateMessage m (setOutgoing k l {| c with g_taken := c.(g_taken) ++ [m] |})))
      | _, _ => None
      end
  | SendLeft _ =>
      match c.(sendingLeft) with
      | Some m => (fun q => Ret {| c with toLeft := Some q; sendingLeft := None |}) <$> push m c.(toLeft)
      | None => None
      end
  | SendRight _ =>
      match c.(sendingRight) with
      | Some m => (fun q => Ret {| c with toRight := Some q; sendingRight := None |}) <$> push m c.(toRight)
      | None => None
      end
  | TakeLeft _ _ | TakeRight _ _ => None
  end.
Definition eventNode (e : Event) : nat :=
  match e with SetConsensusHandler i _ | Disconnect i | Publish i _ | TakeOutgoing i _ | TakeLeft i _ | TakeRight i _ | SendLeft i | SendRight i => i end.

Definition stepLocal (e : Event) (i : nat) ch : option (outcome Chain) :=
  if i <? ch.(size_)
  then match stepAt e i (ch.(node) i) with
       | Some (Ret c) => Some (Ret (setNode i c ch))
       | Some (Panic s) => Some (Panic s)
       | None => None
       end
  else None.

(** The state after an event; None when it cannot happen. *)
Definition step (e : Event) ch : option (outcome Chain) :=
  let i := eventNode e in
  match e with
  | TakeLeft _ f =>
      match i with
      | O => None
      | S l =>
          match (i <? ch.(size_)) && idle (ch.(node) i), (ch.(node) l).(toRight) with
          | true, Some (m :: q) => Some (Ret (setNode i (fromLeft m f (ch.(node) i)) (setNode l {| (ch.(node) l) with toRight := Some q |} ch)))
          | _, _ => None
          end
      end
  | TakeRight _ f =>
      match (S i <? ch.(size_)) && idle (ch.(node) i), (ch.(node) (S i)).(toLeft) with
      | true, Some (m :: q) => Some (Ret (setNode i (fromRight m f (ch.(node) i)) (setNode (S i) {| (ch.(node) (S i)) with toLeft := Some q |} ch)))
      | _, _ => None
      end
  | _ => stepLocal e i ch
  end.

Inductive run (n : nat) : Chain -> Prop :=
| run_new : run n (connectN n)
| run_step e ch ch' : run n ch -> step e ch = Some (Ret ch') -> run n ch'.

(** * Conservation of messages *)
Definition msgs (l : list (dcMessage * bool)) : list dcMessage := l.*1.
Definition passed (l : list (dcMessage * bool)) : list dcMessage := omap (fun e : dcMessage * bool => if e.2 then Some e.1 else None) l.
Definition opt (m : option dcMessage) : list dcMessage := option_list m.

(** What a connection has to send to either side, and what of it is under way. *)
Definition owesRight c : list dcMessage := c.(g_taken) ++ passed c.(g_left).
Definition owesLeft c : list dcMessage := c.(g_taken) ++ passed c.(g_right).
Definition emitRight c : list dcMessage := default [] c.(toRight) ++ opt c.(sendingRight).
Definition emitLeft c : list dcMessage := default [] c.(toLeft) ++ opt c.(sendingLeft).
Definition waiting c : list dcMessage := c.(outgoingPHs) ++ c.(outgoingPrevotes) ++ c.(outgoingPrecommits).

Record chainInv (n : nat) ch : Prop := {
  ci_size : ch.(size_) = n;
  ci_wired i : i < n -> (is_Some (ch.(node) i).(toRight) <-> S i < n) /\ (is_Some (ch.(node) i).(toLeft) <-> 0 < i);
  ci_out i : i < n -> (ch.(node) i).(g_published) ≡ₚ (ch.(node) i).(g_taken) ++ waiting (ch.(node) i);
  ci_right i : S i < n -> msgs (ch.(node) (S i)).(g_left) ++ emitRight (ch.(node) i) ≡ₚ owesRight (ch.(node) i);
  ci_left i : S i < n -> msgs (ch.(node) i).(g_right) ++ emitLeft (ch.(node) (S i)) ≡ₚ owesLeft (ch.(node) (S i))
}.

(** A change of one connection that receives nothing. *)
Record localStep c c' : Prop := {
  ls_right : is_Some c'.(toRight) <-> is_Some c.(toRight);
  ls_left : is_Some c'.(toLeft) <-> is_Some c.(toLeft);
  ls_recv : c'.(g_left) = c.(g_left) /\ c'.(g_right) = c.(g_right);
  ls_out : c.(g_published) ≡ₚ c.(g_taken) ++ waiting c -> c'.(g_published) ≡ₚ c'.(g_taken) ++ waiting c';
  ls_emit_right : is_Some c.(toRight) -> exists d, emitRight c' ≡ₚ emitRight c ++ d /\ owesRight c' ≡ₚ owesRight c ++ d;
  ls_emit_left : is_Some c.(toLeft) -> exists d, emitLeft c' ≡ₚ emitLeft c ++ d /\ owesLeft c' ≡ₚ owesLeft c ++ d
}.

Lemma inv_local n i c ch : chainInv n ch -> i < n -> localStep (ch.(node) i) c -> chainInv n (setNode i c ch).
Proof.
  intros [Hs Hw Ho Hr Hl] Hi [H1 H2 [H3 H4] H5 H6 H7]. split; [done|..]; intros j Hj; simpl;
    unfold insert, fn_insert; repeat case_decide; subst; try lia; auto.
  - rewrite H1, H2. auto.
  - rewrite H3. auto.
  - destruct H6 as (d & E1 & E2); [by apply (proj1 (Hw _ Hi))|]. rewrite E1, E2, (assoc_L (++)), Hr; done.
  - rewrite H4. auto.
  - destruct H7 as (d & E1 & E2); [apply (proj2 (Hw _ Hi)); lia|]. rewrite E1, E2, (assoc_L (++)), Hl; done.
Qed.

Lemma localStep_refl_queues c c' : c'.(toRight) = c.(toRight) -> c'.(toLeft) = c.(toLeft) -> c'.(sendingLeft) = c.(sendingLeft) ->
  c'.(sendingRight) = c.(sendingRight) -> c'.(g_left) = c.(g_left) -> c'.(g_right) = c.(g_right) -> c'.(g_taken) = c.(g_taken) ->
  (c.(g_published) ≡ₚ c.(g_taken) ++ waiting c -> c'.(g_published) ≡ₚ c'.(g_taken) ++ waiting c') -> localStep c c'.
Proof.
  intros E1 E2 E3 E4 E5 E6 E7 Ho. split; rewrite ?E1, ?E2; try done; intros _; exists [];
    unfold emitRight, emitLeft, owesRight, owesLeft; rewrite ?E1, ?E2, ?E3, ?E4, ?E5, ?E6, ?E7, !app_nil_r; done.
Qed.

Lemma idle_spec c : idle c = true -> c.(sendingLeft) = None /\ c.(sendingRight) = None.
Proof. unfold idle. by destruct (sendingLeft c), (sendingRight c). Qed.

Lemma stepAt_local e i c c' : stepAt e i c = Some (Ret c') -> localStep c c'.
Proof.
  destruct e as [j h|j|j p|j k|j f|j f|j|j]; simpl; try done.
  - destruct (idle c); [|done]. destruct (disconnected c); [done|]. intros [= <-]. by apply localStep_refl_queues.
  - destruct (_ && _); [|done]. intros [= <-]. by apply localStep_refl_queues.
  - destruct (_ <? _); [|done]. intros [= <-]. destruct p; apply localStep_refl_queues; try done; unfold waiting; simpl; intros ->; solve_Permutation.
  - destruct (idle c) eqn:Ei; [|done]. apply idle_spec in Ei as [Hl Hr]. destruct (outgoing k c) as [|m l] eqn:Eo; [done|]. intros [= <-].
    assert (Hc : toRight (setOutgoing k l c) = toRight c) by by destruct k.
    split; unfold propagateMessage; simpl; try (by destruct k).
    + destruct k; unfold waiting; simpl in *; rewrite Eo; intros ->; solve_Permutation.
    + intros [q Hq]. exists [m]. unfold emitRight, owesRight. destruct k; simpl; rewrite Hq, Hr; simpl; split; solve_Permutation.
    + intros [q Hq]. exists [m]. unfold emitLeft, owesLeft. destruct k; simpl; rewrite Hq, Hl; simpl; split; solve_Permutation.
  - destruct (sendingLeft c) as [m|] eqn:E; [|done]. intros (q & Hp & [= ->])%fmap_Some. unfold push in Hp.
    destruct (toLeft c) as [q0|] eqn:Eq; [|done]. destruct (_ <? _); [|done]. injection Hp as <-. split; simpl; try done.
    + intros _. exists []. unfold emitRight, owesRight. simpl. rewrite !app_nil_r. done.
    + intros _. exists []. unfold emitLeft, owesLeft. simpl. rewrite E, Eq. simpl. rewrite !app_nil_r. done.
  - destruct (sendingRight c) as [m|] eqn:E; [|done]. intros (q & Hp & [= ->])%fmap_Some. unfold push in Hp.
    destruct (toRight c) as [q0|] eqn:Eq; [|done]. destruct (_ <? _); [|done]. injection Hp as <-. split; simpl; try done.
    + intros _. exists []. unfold emitRight, owesRight. simpl. rewrite E, Eq. simpl. rewrite !app_nil_r. done.
    + intros _. exists []. unfold emitLeft, owesLeft. simpl. rewrite !app_nil_r. done.
Qed.

Lemma inv_stepLocal n e i ch ch' : chainInv n ch -> stepLocal e i ch = Some (Ret ch') -> chainInv n ch'.
Proof.
  intros IH. unfold stepLocal. destruct (Nat.ltb_spec i (size_ ch)) as [Hlt|]; [|done].
  destruct (stepAt _ _ _) as [[c|]|] eqn:E; [|done..]. intros [= <-]. apply stepAt_local in E.
  apply inv_local; [done|by rewrite <- (ci_size _ _ IH)|done].
Qed.

Lemma passed_snoc l m b : passed (l ++ [(m, b)]) = passed l ++ (if b then [m] else []).
Proof. unfold passed. rewrite omap_app. by destruct b. Qed.
Lemma msgs_snoc l m b : msgs (l ++ [(m, b)]) = msgs l ++ [m].
Proof. unfold msgs. by rewrite fmap_app. Qed.

Lemma fromLeft_right m f c : idle c = true -> is_Some c.(toRight) ->
  exists d, emitRight (fromLeft m f c) = emitRight c ++ d /\ owesRight (fromLeft m f c) = owesRight c ++ d.
Proof.
  intros [_ Hs]%idle_spec [q Hq]. exists (if passes c f then [m] else []). unfold emitRight, owesRight, fromLeft. simpl.
  rewrite passed_snoc, Hq, Hs. simpl. rewrite app_nil_r, app_assoc. by destruct (passes c f).
Qed.
Lemma fromRight_left m f c : idle c = true -> is_Some c.(toLeft) ->
  exists d, emitLeft (fromRight m f c) = emitLeft c ++ d /\ owesLeft (fromRight m f c) = owesLeft c ++ d.
Proof.
  intros [Hs _]%idle_spec [q Hq]. exists (if passes c f then [m] else []). unfold emitLeft, owesLeft, fromRight. simpl.
  rewrite passed_snoc, Hq, Hs. simpl. rewrite app_nil_r, app_assoc. by destruct (passes c f).
Qed.

Lemma inv_TakeLeft n l f ch ch' : chainInv n ch -> step (TakeLeft (S l) f) ch = Some (Ret ch') -> chainInv n ch'.
Proof.
  intros [Hs Hw Ho Hr Hl] Hstep. cbn [step eventNode] in Hstep. destruct (Nat.ltb_spec (S l) (size_ ch)) as [Hlt|]; [|done].
  destruct (idle (node ch (S l))) eqn:Ei; [|done]. destruct (toRight (node ch l)) as [[|m q]|] eqn:Eq; try done.
  injection Hstep as <-. rewrite Hs in Hlt. pose proof (Hw l ltac:(lia)) as Hwl. rewrite Eq in Hwl.
  split; [done|..]; intros j Hj; simpl; unfold insert, fn_insert; repeat case_decide; subst; try lia;
    first [exact (Hw _ Hj)|exact (Ho _ Hj)|exact (Hr _ Hj)|exact (Hl _ Hj)|idtac].
  - split; [|apply Hwl]. simpl. split; [intros _; by apply Hwl|by eexists].
  - simpl. rewrite msgs_snoc. specialize (Hr j Hlt). unfold emitRight in *. rewrite Eq in Hr. simpl in *. rewrite <- Hr. solve_Permutation.
  - destruct (fromLeft_right m f (node ch (S l))) as (d & -> & ->); [done|apply Hw; [done|lia]|]. by rewrite (assoc_L (++)), Hr.
Qed.

Lemma inv_TakeRight n i f ch ch' : chainInv n ch -> step (TakeRight i f) ch = Some (Ret ch') -> chainInv n ch'.
Proof.
  intros [Hs Hw Ho Hr Hl] Hstep. cbn [step eventNode] in Hstep. destruct (Nat.ltb_spec (S i) (size_ ch)) as [Hlt|]; [|done].
  destruct (idle (node ch i)) eqn:Ei; [|done]. destruct (toLeft (node ch (S i))) as [[|m q]|] eqn:Eq; try done.
  injection Hstep as <-. rewrite Hs in Hlt. pose proof (Hw (S i) ltac:(lia)) as Hwi. rewrite Eq in Hwi.
  split; [done|..]; intros j Hj; simpl; unfold insert, fn_insert; repeat case_decide; subst; try lia;
    first [exact (Hw _ Hj)|exact (Ho _ Hj)|exact (Hr _ Hj)|exact (Hl _ Hj)|idtac].
  - split; [apply Hwi|]. simpl. split; [intros _; lia|by eexists].
  - simpl. rewrite msgs_snoc. specialize (Hl j Hlt). unfold emitLeft in *. rewrite Eq in Hl. simpl in *. rewrite <- Hl. solve_Permutation.
  - destruct (fromRight_left m f (node ch (S j))) as (d & -> & ->); [done|apply Hw; lia|]. by rewrite (assoc_L (++)), Hl.
Qed.

(** ** Runs *)
Lemma connectN_size n : (connectN n).(size_) = n.
Proof. induction n as [|n IH]; [done|]. cbn [connectN]. unfold connect. cbn [size_]. by rewrite IH. Qed.

Lemma connectN_node n i : i < n -> (connectN n).(node) i =
  {| newConn with toLeft := match i with O => None | S _ => Some [] end; toRight := if S i <? n then Some [] else None |}.
Proof.
  revert i. induction n as [|n IH]; intros i Hi; [lia|]. cbn [connectN]. unfold connect. rewrite connectN_size.
  destruct n as [|n].
  - assert (i = 0) as -> by lia. simpl. unfold insert, fn_insert. by rewrite decide_True.
  - cbn [node setNode]. unfold insert, fn_insert. case_decide as H1; [subst i|case_decide as H2; [subst i|]].
    + by rewrite (proj2 (Nat.ltb_ge _ _)) by lia.
    + rewrite (IH n) by lia. destruct (Nat.ltb_spec (S n) (S (S n))); [done|lia].
    + rewrite (IH i) by lia. destruct (Nat.ltb_spec (S i) (S n)), (Nat.ltb_spec (S i) (S (S n))); try done; lia.
Qed.

Lemma chainRun_inv n ch : run n ch -> chainInv n ch.
Proof.
  induction 1 as [|e ch ch' Hr IH Hs].
  - split; [apply connectN_size|..]; intros i Hi; repeat (rewrite connectN_node by lia); try done.
    + simpl. destruct (Nat.ltb_spec (S i) n) as [H1|H1]; (split; [split|destruct i; split]);
        first [by intros [? ?]|intros _; by eexists|intros _; lia|intros; lia].
    + unfold emitRight, owesRight. simpl. by destruct (_ <? _).
  - destruct e as [i h|i|i p|i k|[|l] f|i f|i|i]; [..|by eapply inv_TakeLeft|by eapply inv_TakeRight| |];
      cbn [step eventNode] in Hs; first [done|by eapply inv_stepLocal].
Qed.

(** * What arrives *)

(** Nothing is under way. *)
Definition quiet ch : Prop := forall i, i < ch.(size_) ->
  idle (ch.(node) i) = true /\ waiting (ch.(node) i) = [] /\ default [] (ch.(node) i).(toLeft) = [] /\ default [] (ch.(node) i).(toRight) = [].

(** No handler turned a message away. *)
Definition allPassed (l : list (dcMessage * bool)) : Prop := forall e, e ∈ l -> e.2 = true.

Lemma allPassed_passed l : allPassed l -> passed l = msgs l.
Proof.
  unfold allPassed, passed, msgs. induction l as [|[m b] l IH]; intros Hl; [done|].
  pose proof (Hl (m, b) ltac:(by left)) as Hb. simpl in Hb. subst b. cbn.
  f_equal. apply IH. intros e He. apply Hl. by right.
Qed.

Lemma quiet_emit c : idle c = true -> default [] c.(toLeft) = [] -> default [] c.(toRight) = [] -> emitLeft c = [] /\ emitRight c = [].
Proof. intros [H1 H2]%idle_spec H3 H4. unfold emitLeft, emitRight. by rewrite H1, H2, H3, H4. Qed.

(** What connection [i] published. *)
Definition published ch (i : nat) : list dcMessage := (ch.(node) i).(g_published).

Lemma quiet_edges n ch : run n ch -> quiet ch -> ch.(size_) = n /\ forall i, S i < n ->
  msgs (ch.(node) (S i)).(g_left) ≡ₚ published ch i ++ passed (ch.(node) i).(g_left) /\
  msgs (ch.(node) i).(g_right) ≡ₚ published ch (S i) ++ passed (ch.(node) (S i)).(g_right).
Proof.
  intros Hr%chainRun_inv Hq. pose proof (ci_size _ _ Hr) as Hs. split; [done|]. intros i Hi. unfold published.
  assert (Hn : forall j, j < n -> emitLeft (node ch j) = [] /\ emitRight (node ch j) = [] /\ g_published (node ch j) ≡ₚ g_taken (node ch j)).
  { intros j Hj. destruct (Hq j) as (H1 & H2 & H3 & H4); [lia|]. destruct (quiet_emit _ H1 H3 H4) as [-> ->].
    split; [done|]. split; [done|]. by rewrite (ci_out _ _ Hr j Hj), H2, app_nil_r. }
  destruct (Hn i) as (_ & Er & Ep); [lia|]. destruct (Hn (S i) Hi) as (El & _ & Ep').
  pose proof (ci_right _ _ Hr i Hi) as Hright. pose proof (ci_left _ _ Hr i Hi) as Hleft.
  rewrite Er, app_nil_r in Hright. rewrite El, app_nil_r in Hleft. rewrite Hright, Hleft, Ep, Ep'. done.
Qed.

Lemma first_nothing_left n ch : run n ch -> 0 < n -> (ch.(node) 0).(g_left) = [] /\ (ch.(node) (n - 1)).(g_right) = [].
Proof.
  intros Hr Hn. induction Hr as [|e ch ch' Hr [IH1 IH2] Hs].
  - rewrite !connectN_node by lia. done.
  - pose proof (chainRun_inv _ _ Hr) as Hinv.
    assert (Hloc : forall i, stepLocal e i ch = Some (Ret ch') -> g_left (node ch' 0) = [] /\ g_right (node ch' (n - 1)) = []).
    { intros i. unfold stepLocal. destruct (_ <? _); [|done]. destruct (stepAt _ _ _) as [[c|]|] eqn:E; [|done..]. intros [= <-].
      apply stepAt_local in E as [_ _ [E1 E2] _ _ _]. simpl. unfold insert, fn_insert. repeat case_decide; subst; rewrite ?E1, ?E2; split; congruence. }
    destruct e as [i h|i|i p|i k|[|l] f|i f|i|i]; cbn [step eventNode] in Hs; try done; try (by eapply Hloc).
    + destruct (_ && _); [|done]. destruct (toRight (node ch l)) as [[|m q]|]; try done. injection Hs as <-. simpl.
      unfold insert, fn_insert. repeat case_decide; subst; simpl; split; congruence.
    + destruct (Nat.ltb_spec (S i) (size_ ch)) as [Hlt|]; [|done]. rewrite (ci_size _ _ Hinv) in Hlt.
      destruct (idle _); [|done]. destruct (toLeft (node ch (S i))) as [[|m q]|]; try done. injection Hs as <-. simpl.
      unfold insert, fn_insert. repeat case_decide; subst; simpl; try lia; split; congruence.
Qed.

Lemma from_left_all n ch i : run n ch -> quiet ch -> (forall j, j < n -> allPassed (ch.(node) j).(g_left)) -> i < n ->
  msgs (ch.(node) i).(g_left) ≡ₚ concat (map (published ch) (seq 0 i)).
Proof.
  intros Hr Hq Hp. induction i as [|i IH]; intros Hi.
  - by rewrite (proj1 (first_nothing_left _ _ Hr Hi)).
  - rewrite (proj1 (proj2 (quiet_edges _ _ Hr Hq) i Hi)), allPassed_passed, IH by (lia || (apply Hp; lia)).
    rewrite seq_S, map_app, concat_app. simpl. rewrite app_nil_r. apply Permutation_app_comm.
Qed.

Lemma from_right_all n ch k i : run n ch -> quiet ch -> (forall j, j < n -> allPassed (ch.(node) j).(g_right)) -> n = i + S k ->
  msgs (ch.(node) i).(g_right) ≡ₚ concat (map (published ch) (seq (S i) k)).
Proof.
  intros Hr Hq Hp. revert i. induction k as [|k IH]; intros i Hi.
  - assert (Hn : 0 < n) by lia. pose proof (proj2 (first_nothing_left _ _ Hr Hn)) as H0. replace (n - 1) with i in H0 by lia. by rewrite H0.
  - rewrite (proj2 (proj2 (quiet_edges _ _ Hr Hq) i ltac:(lia))), allPassed_passed, IH by (lia || (apply Hp; lia)). done.
Qed.

(** The chain delivers.  However handlers, connections and senders interleave, once nothing is under way each
    connection has received from its left exactly what its left neighbour published and what that one received from
    its left and passed on, likewise from the right, each message as often as it was published; and when no handler
    turned a message away, exactly what all the other connections published. *)
Theorem daisy_chain_delivers (n : nat) (ch : Chain) : run n ch -> quiet ch ->
  (forall i, S i < n ->
     msgs (ch.(node) (S i)).(g_left) ≡ₚ published ch i ++ passed (ch.(node) i).(g_left) /\
     msgs (ch.(node) i).(g_right) ≡ₚ published ch (S i) ++ passed (ch.(node) (S i)).(g_right)) /\
  ((forall i, i < n -> allPassed (ch.(node) i).(g_left) /\ allPassed (ch.(node) i).(g_right)) ->
   forall i, i < n -> msgs (ch.(node) i).(g_left) ++ msgs (ch.(node) i).(g_right) ≡ₚ
     concat (map (published ch) (seq 0 i)) ++ concat (map (published ch) (seq (S i) (n - S i)))).
Proof.
  intros Hr Hq. split; [by apply quiet_edges|]. intros Hp i Hi.
  rewrite (from_left_all n ch i) by (done || (intros; by apply Hp)).
  by rewrite (from_right_all n ch (n - S i) i) by (done || lia || (intros; by apply Hp)).
Qed.

(** ** Two connections that block each other *)

(** Both are sending to the other, and neither has room. *)
Record blocked ch : Prop := {
  bl_size : ch.(size_) = 2;
  bl_right : exists m q, (ch.(node) 0).(sendingRight) = Some m /\ (ch.(node) 0).(toRight) = Some q /\ length q = dcMessageBufSize;
  bl_left : exists m q, (ch.(node) 1).(sendingLeft) = Some m /\ (ch.(node) 1).(toLeft) = Some q /\ length q = dcMessageBufSize;
  bl_ends : (ch.(node) 0).(sendingLeft) = None /\ (ch.(node) 1).(sendingRight) = None
}.

Definition received ch : list dcMessage := msgs (ch.(node) 0).(g_right) ++ msgs (ch.(node) 1).(g_left).

Lemma blocked_idle ch i : blocked ch -> i < 2 -> idle (ch.(node) i) = false.
Proof.
  intros [_ (m & q & E & _) (m' & q' & E' & _) _] Hi. unfold idle. destruct i as [|[|i]]; [| |lia].
  - rewrite E. by destruct (sendingLeft (node ch 0)).
  - by rewrite E'.
Qed.

Lemma blocked_stepAt ch e i c : blocked ch -> i < 2 -> stepAt e i (ch.(node) i) = Some (Ret c) ->
  c.(sendingRight) = (ch.(node) i).(sendingRight) /\ c.(sendingLeft) = (ch.(node) i).(sendingLeft) /\
  c.(toRight) = (ch.(node) i).(toRight) /\ c.(toLeft) = (ch.(node) i).(toLeft) /\
  c.(g_left) = (ch.(node) i).(g_left) /\ c.(g_right) = (ch.(node) i).(g_right).
Proof.
  intros Hb Hi. pose proof (blocked_idle ch i Hb Hi) as Hidle.
  destruct Hb as [_ (m & q & E1 & E2 & E3) (m' & q' & E1' & E2' & E3') [N1 N2]].
  destruct e as [j h|j|j p|j k|j f|j f|j|j]; cbn [stepAt]; rewrite ?Hidle; try done.
  - destruct (_ <? _); [|done]. intros [= <-]. by destruct p.
  - destruct i as [|[|i]]; [by rewrite N1| |lia]. rewrite E1', E2'. unfold push. by rewrite E3', Nat.ltb_irrefl.
  - destruct i as [|[|i]]; [|by rewrite N2|lia]. rewrite E1, E2. unfold push. by rewrite E3, Nat.ltb_irrefl.
Qed.

Lemma blocked_step ch ch' e : blocked ch -> step e ch = Some (Ret ch') -> blocked ch' /\ received ch' = received ch.
Proof.
  intros Hb Hs. pose proof (bl_size _ Hb) as H2.
  assert (Hloc : forall i, stepLocal e i ch = Some (Ret ch') -> blocked ch' /\ received ch' = received ch).
  { intros i. unfold stepLocal. rewrite H2. destruct (Nat.ltb_spec i 2) as [Hi|]; [|done].
    destruct (stepAt e i (node ch i)) as [[c|]|] eqn:E; [|done..]. intros [= <-].
    destruct (blocked_stepAt ch e i c Hb Hi E) as (S1 & S2 & S3 & S4 & S5 & S6). destruct Hb as [_ Hr Hl He].
    destruct i as [|[|i]]; [| |lia]; (split; [split|]; unfold received; simpl; unfold insert, fn_insert; simpl; rewrite ?S1, ?S2, ?S3, ?S4, ?S5, ?S6; done). }
  destruct e as [i h|i|i p|i k|[|l] f|i f|i|i]; cbn [step eventNode] in Hs; try done; try (by eapply Hloc).
  - rewrite H2 in Hs. destruct (Nat.ltb_spec (S l) 2); [|done]. by rewrite (blocked_idle ch (S l)) in Hs.
  - rewrite H2 in Hs. destruct (Nat.ltb_spec (S i) 2); [|done]. by rewrite (blocked_idle ch i) in Hs by (done || lia).
Qed.

Lemma blocked_steps ch ch' : rtc (fun a b => exists e, step e a = Some (Ret b)) ch ch' -> blocked ch ->
  blocked ch' /\ received ch' = received ch.
Proof.
  induction 1 as [|a b c [e He] _ IH]; [done|]. intros Hb. destruct (blocked_step a b e Hb He) as [Hb' <-]. by apply IH.
Qed.

(** Each publishes seventeen votes and takes them from its channel, and sixteen fit between them. *)
Definition oneVote : Payload := DPrevote (MkPrevoteSparse 1 0 "h" (Some ∅)).
Definition flood (i : nat) (send : Event) : list Event :=
  concat (repeat [Publish i oneVote; TakeOutgoing i KPrevote; send] 16) ++ [Publish i oneVote; TakeOutgoing i KPrevote].
Definition floodEvents : list Event := flood 0 (SendRight 0) ++ flood 1 (SendLeft 1).
Fixpoint runEvents (es : list Event) ch : option Chain :=
  match es with [] => Some ch | e :: es => match step e ch with Some (Ret ch') => runEvents es ch' | _ => None end end.

Lemma chainEvents_run n es ch ch' : run n ch -> runEvents es ch = Some ch' -> run n ch'.
Proof.
  revert ch. induction es as [|e es IH]; intros ch Hr; cbn [runEvents]; [by intros [= <-]|].
  destruct (step e ch) as [[ch1|]|] eqn:E; [|done..]. apply IH. by eapply run_step.
Qed.

Definition floodedChain : Chain := default (connectN 2) (runEvents floodEvents (connectN 2)).

Definition returned {A} (o : option A) : bool := match o with Some _ => true | None => false end.
Lemma returned_default {A} (d : A) (o : option A) : returned o = true -> o = Some (default d o).
Proof. by destruct o. Qed.

Lemma flooded_returned : returned (runEvents floodEvents (connectN 2)) = true.
Proof. vm_compute. reflexivity. Qed.

Lemma flooded_run : run 2 floodedChain.
Proof.
  apply (chainEvents_run 2 floodEvents (connectN 2)); [apply run_new|].
  exact (returned_default (connectN 2) (runEvents floodEvents (connectN 2)) flooded_returned).
Qed.

Lemma flooded_blocked : blocked floodedChain.
Proof.
  split; [vm_compute; reflexivity|..].
  - eexists _, _. split; [vm_compute; reflexivity|]. split; vm_compute; reflexivity.
  - eexists _, _. split; [vm_compute; reflexivity|]. split; vm_compute; reflexivity.
  - split; vm_compute; reflexivity.
Qed.

(** The chain can deadlock.  Two connections that each publish seventeen messages before either receives one reach
    a state in which each is sending to the other over a full channel, and whatever happens from there, no message
    is ever received again. *)
Theorem daisy_chain_deadlocks :
  exists ch, run 2 ch /\ length (published ch 0) = 17 /\ length (published ch 1) = 17 /\ received ch = [] /\
    forall ch', rtc (fun a b => exists e, step e a = Some (Ret b)) ch ch' -> received ch' = [].
Proof.
  exists floodedChain. split; [exact flooded_run|]. split; [vm_compute; reflexivity|]. split; [vm_compute; reflexivity|].
  assert (H0 : received floodedChain = []) by (vm_compute; reflexivity). split; [exact H0|].
  intros ch' Hrun. by rewrite (proj2 (blocked_steps _ _ Hrun flooded_blocked)).
Qed.

(** ** Witness: the middle one of three publishes a vote, which both ends receive *)
Definition middleEvents : list Event :=
  [Publish 1 oneVote; TakeOutgoing 1 KPrevote; SendRight 1; SendLeft 1; TakeLeft 2 FeedbackIgnored; TakeRight 0 FeedbackIgnored].
Definition middleChain : Chain := default (connectN 3) (runEvents middleEvents (connectN 3)).
Lemma middle_returned : returned (runEvents middleEvents (connectN 3)) = true.
Proof. vm_compute. reflexivity. Qed.
Lemma middle_run : run 3 middleChain.
Proof.
  apply (chainEvents_run 3 middleEvents (connectN 3)); [apply run_new|].
  exact (returned_default (connectN 3) (runEvents middleEvents (connectN 3)) middle_returned).
Qed.
Lemma middle_quiet : quiet middleChain.
Proof.
  intros i Hi. change (size_ middleChain) with 3 in Hi. destruct i as [|[|[|i]]]; [..|lia];
    (split; [vm_compute; reflexivity|]); (split; [vm_compute; reflexivity|]); split; vm_compute; reflexivity.
Qed.

Lemma daisy_chain_delivers_witness :
  quiet middleChain /\ msgs (middleChain.(node) 2).(g_left) ++ msgs (middleChain.(node) 2).(g_right) ≡ₚ [MkDc 1 oneVote].
Proof.
  split; [exact middle_quiet|]. apply (proj2 (daisy_chain_delivers 3 middleChain middle_run middle_quiet)); [|lia].
  intros i Hi. destruct i as [|[|[|i]]]; [..|lia]; split; intros e He; vm_compute in He; try (by apply not_elem_of_nil in He);
    apply list_elem_of_singleton in He as ->; reflexivity.
Defined.
