(* ===== verification/Bootstrap.v ===== *)
(** Bootstrapping a stress cluster (cmd/gordian-stress/internal/gstress): the host that gathers the chain ID, the
    application's name and the validators over HTTP, its client, and the seed service that hands them to the nodes as
    their genesis once the host was told to start.

    Routing, HTTP, JSON and RPC are libraries (a decoded key is in the array encoding/json makes for it): a request is the handler it is routed to with its body, and a client sees
    the status and the body, or an aborted connection when the handler panics, which the server recovers from.  Dialling,
    listening and logging are left out. *)
From S2P Require Import Prelude Types Registry Assertions Metrics.
From stdpp Require Import relations.
Local Open Scope Z_scope.

(** * strings.TrimSpace *)
Definition NL : bytes := String "010" EmptyString.

(** The spaces of unicode.IsSpace, in UTF-8. *)
Definition byteOf (n : N) : ascii := ascii_of_N n.
Definition utf8Of (l : list N) : bytes := fold_right (fun n b => String (byteOf n) b) EmptyString l.
Definition spaces : list bytes := map utf8Of
  ([[9]; [10]; [11]; [12]; [13]; [32]; [194; 133]; [194; 160]; [225; 154; 128]] ++
   map (fun n => [226; 128; n]) [128; 129; 130; 131; 132; 133; 134; 135; 136; 137; 138; 168; 169; 175] ++
   [[226; 129; 159]; [227; 128; 128]])%N.

Fixpoint cutPrefix (pre s : bytes) : option bytes :=
  match pre, s with
  | EmptyString, _ => Some s
  | String a pre, String b s => if Ascii.eqb a b then cutPrefix pre s else None
  | _, EmptyString => None
  end.
Definition cutSpace (s : bytes) : option bytes := head (omap (fun sp => cutPrefix sp s) spaces).

(** The fuel is the length of the string: each space has a byte. *)
Fixpoint trimLeft (fuel : nat) (s : bytes) : bytes :=
  match fuel with
  | O => s
  | S fuel => match cutSpace s with Some s => trimLeft fuel s | None => s end
  end.
Definition onlySpaces (s : bytes) : bool := String.eqb (trimLeft (String.length s) s) EmptyString.
Fixpoint trimEnd (s : bytes) : bytes :=
  match s with
  | EmptyString => EmptyString
  | String c t => if onlySpaces s then EmptyString else String c (trimEnd t)
  end.
Definition TrimSpace (s : bytes) : bytes := trimEnd (trimLeft (String.length s) s).

(** * The host *)

(** bState, the channels for started and halted, and the addresses of the seed. *)
Record Host := MkHost {
  b_app : bytes; b_chainID : bytes; b_validators : list Validator; b_started : bool; b_halted : bool; b_hostAddrs : list bytes
}.
Definition NewBootstrapHost (unixTime : bytes) (hostAddrs : list bytes) : Host :=
  MkHost "echo" ("gstress" +:+ unixTime) [] false false hostAddrs.
Implicit Types h : Host.

Definition AddValidator (v : Validator) h : outcome Host :=
  if existsb (fun val => pk_Equal v.(val_PubKey) val.(val_PubKey)) h.(b_validators) then Panic "validator with pub key already registered"
  else Ret {| h with b_validators := h.(b_validators) ++ [v] |}.

(** sync.Once around closing a channel: closed once and for all. *)
Definition Start h : Host := {| h with b_started := true |}.
Definition Halt h : Host := {| h with b_halted := true |}.

Record bootValidator := MkJSONValidator { jv_PubKeyBytes : bytes; jv_Power : Z }.

Definition StatusOK : Z := 200.
Definition StatusNoContent : Z := 204.
Definition StatusBadRequest : Z := 400.
Definition StatusInternalServerError : Z := 500.
Record HTTPResponse := MkResponse { rs_status : Z; rs_body : bytes }.

(** The registry both sides make. *)
Definition reg : Registry := RegisterEd25519 Registry_zero.

Inductive HTTPRequest :=
| GetSeedAddrs | GetChainID | PostChainID (body : result bytes) | GetApp | PostApp (body : result bytes)
| PostRegisterValidator (body : bytes) | GetValidators | PostStart | AnyHalt.

(** encoding/json of the values that are sent: what an Encoder or Marshal writes, and what a Decoder reads. *)
Class HostJSON := {
  encodeAddrs : list bytes -> bytes; decodeAddrs : bytes -> result (list bytes);
  encodeValidator : bootValidator -> bytes; decodeValidator : bytes -> result bootValidator;
  encodeValidators : list bootValidator -> bytes; decodeValidators : bytes -> result (list bootValidator)
}.
Class HostJSONLaws `{HostJSON} := {
  addrs_roundtrip l : decodeAddrs (encodeAddrs l) = Ok l;
  validator_roundtrip jv : decodeValidator (encodeValidator jv) = Ok jv;
  validators_roundtrip l : decodeValidators (encodeValidators l) = Ok l
}.

Section host.
Context `{HostJSON}.

Definition reply (status : Z) (body : bytes) : HTTPResponse := MkResponse status body.
Definition badRequest (body : bytes) h : outcome (Host * HTTPResponse) := Ret (h, reply StatusBadRequest body).
Definition noContent h : outcome (Host * HTTPResponse) := Ret (h, reply StatusNoContent EmptyString).

Definition postChainID (body : result bytes) h : outcome (Host * HTTPResponse) :=
  match body with
  | Err _ => badRequest EmptyString h
  | Ok b => match cutSuffix NL b with
            | None => badRequest ("new chain ID missing required trailing newline") h
            | Some newID => noContent {| h with b_chainID := TrimSpace newID |}
            end
  end.

Definition postApp (body : result bytes) h : outcome (Host * HTTPResponse) :=
  match body with
  | Err _ => badRequest EmptyString h
  | Ok b => match cutSuffix NL b with
            | None => badRequest "new app missing required trailing newline" h
            | Some a => if String.eqb a "echo" then noContent {| h with b_app := TrimSpace a |}
                        else badRequest "invalid app name" h
            end
  end.

Definition httpRegisterValidator (body : bytes) h : outcome (Host * HTTPResponse) :=
  match decodeValidator body with
  | Err _ => badRequest EmptyString h
  | Ok jv =>
      key ← Registry.Unmarshal jv.(jv_PubKeyBytes) (base64Spare jv.(jv_PubKeyBytes)) reg;
      match key with
      | Err _ => badRequest EmptyString h
      | Ok key => h ← AddValidator (MkValidator key jv.(jv_Power)) h; noContent h
      end
  end.

Definition toJSON (val : Validator) : outcome bootValidator :=
  b ← Registry.Marshal val.(val_PubKey) reg; Ret (MkJSONValidator b val.(val_Power)).
Fixpoint mapO {A C} (f : A -> outcome C) (l : list A) : outcome (list C) :=
  match l with [] => Ret [] | a :: l => c ← f a; cs ← mapO f l; Ret (c :: cs) end.

Definition httpValidators h : outcome (Host * HTTPResponse) :=
  jvs ← mapO toJSON h.(b_validators); Ret (h, reply StatusOK (encodeValidators jvs)).

Definition serveHTTP (req : HTTPRequest) h : outcome (Host * HTTPResponse) :=
  match req with
  | GetSeedAddrs => Ret (h, reply StatusOK (encodeAddrs h.(b_hostAddrs)))
  | GetChainID => Ret (h, reply StatusOK (h.(b_chainID) +:+ NL))
  | PostChainID body => postChainID body h
  | GetApp => Ret (h, reply StatusOK (h.(b_app) +:+ NL))
  | PostApp body => postApp body h
  | PostRegisterValidator body => httpRegisterValidator body h
  | GetValidators => httpValidators h
  | PostStart => noContent (Start h)
  | AnyHalt => noContent (Halt h)
  end.

(** What a panicking handler did before stays, which is nothing here: no handler changes the host before it can panic. *)
Definition served (req : HTTPRequest) h : Host * option HTTPResponse :=
  match serveHTTP req h with Ret (h', rs) => (h', Some rs) | Panic _ => (h, None) end.

(** * The client *)
Definition accepted (rs : option HTTPResponse) : bool :=
  match rs with Some rs => (rs.(rs_status) =? StatusOK) || (rs.(rs_status) =? StatusNoContent) | None => false end.

Definition lineOf (rs : option HTTPResponse) : option bytes := rs ← rs; cutSuffix NL rs.(rs_body).
Definition client_ChainID h : option bytes := lineOf (served GetChainID h).2.
Definition client_SeedAddrs h : option (list bytes) :=
  match (served GetSeedAddrs h).2 with
  | Some rs => match decodeAddrs rs.(rs_body) with Ok l => Some l | Err _ => None end
  | None => None
  end.
Definition client_App h : option bytes := lineOf (served GetApp h).2.
Definition client_SetChainID (newID : bytes) h : Host * bool :=
  let '(h', rs) := served (PostChainID (Ok (newID +:+ NL))) h in (h', accepted rs).
Definition client_SetApp (a : bytes) h : Host * bool :=
  let '(h', rs) := served (PostApp (Ok (a +:+ NL))) h in (h', accepted rs).

Definition client_RegisterValidator (v : Validator) h : outcome (Host * bool) :=
  b ← Registry.Marshal v.(val_PubKey) reg;
  let '(h', rs) := served (PostRegisterValidator (encodeValidator (MkJSONValidator b v.(val_Power)))) h in
  Ret (h', accepted rs).

Definition ofJSON (jv : bootValidator) : outcome (result Validator) :=
  key ← Registry.Unmarshal jv.(jv_PubKeyBytes) (base64Spare jv.(jv_PubKeyBytes)) reg;
  Ret (match key with Ok key => Ok (MkValidator key jv.(jv_Power)) | Err e => Err e end).
Fixpoint allOfJSON (jvs : list bootValidator) : outcome (result (list Validator)) :=
  match jvs with
  | [] => Ret (Ok [])
  | jv :: jvs => v ← ofJSON jv;
                 match v with
                 | Err e => Ret (Err e)
                 | Ok v => vs ← allOfJSON jvs; Ret (match vs with Ok vs => Ok (v :: vs) | Err e => Err e end)
                 end
  end.
Definition client_Validators h : outcome (option (result (list Validator))) :=
  match (served GetValidators h).2 with
  | Some rs =>
      if negb (rs.(rs_status) =? StatusOK) then Ret None
      else match decodeValidators rs.(rs_body) with
           | Err _ => Ret None
           | Ok jvs => vs ← allOfJSON jvs; Ret (Some vs)
           end
  | None => Ret None
  end.
Definition client_Start h : Host * bool :=
  let '(h', rs) := served PostStart h in (h', match rs with Some rs => rs.(rs_status) =? StatusNoContent | None => false end).
Definition client_Halt h : Host * bool :=
  let '(h', rs) := served AnyHalt h in (h', match rs with Some rs => rs.(rs_status) =? StatusNoContent | None => false end).
End host.

(** * The seed service *)
Record GenesisResponse := MkGenesisResponse { gr_App : bytes; gr_ChainID : bytes; gr_Validators : list Validator }.

(** A call of Genesis: it waits for the start and then takes the host's lock three times. *)
Inductive GenesisCall :=
| GcWait | GcApp | GcChainID (app : bytes) | GcValidators (app chainID : bytes) | GcDone (resp : GenesisResponse).

Definition genesisStep (h : Host) (c : GenesisCall) : option GenesisCall :=
  match c with
  | GcWait => if h.(b_started) then Some GcApp else None
  | GcApp => Some (GcChainID h.(b_app))
  | GcChainID app => Some (GcValidators app h.(b_chainID))
  | GcValidators app chainID => Some (GcDone (MkGenesisResponse app chainID h.(b_validators)))
  | GcDone _ => None
  end.

Definition AwaitHalt (h : Host) : bool := h.(b_halted).

(** PublishMetrics and CopyMetrics, on the map of the service. *)
Definition PublishMetrics (pID : bytes) (m : Metrics) (stats : gomap Metrics) : gomap Metrics := Some (<[pID := m]> (gm_map stats)).
Definition CopyMetrics (stats : gomap Metrics) (dst : gmap bytes Metrics) : gmap bytes Metrics := gm_map stats ∪ dst.

(** The service: the host and the calls of Genesis in progress; requests and calls interleave. *)
Record Service := MkService { sv_host : Host; sv_calls : list GenesisCall }.

Inductive svstep `{HostJSON} : Service -> option HTTPRequest -> Service -> Prop :=
| sv_request req h calls : svstep (MkService h calls) (Some req) (MkService (served req h).1 calls)
| sv_begin h calls : svstep (MkService h calls) None (MkService h (calls ++ [GcWait]))
| sv_call h i c c' calls : calls !! i = Some c -> genesisStep h c = Some c' ->
    svstep (MkService h calls) None (MkService h (<[i := c']> calls)).

Inductive svrun `{HostJSON} : Service -> list (option HTTPRequest) -> Service -> Prop :=
| svr_nil s : svrun s [] s
| svr_cons s req s1 l s2 : svstep s req s1 -> svrun s1 l s2 -> svrun s (req :: l) s2.

(** * What the client gets is what the host has *)
Section roundtrips.
Context `{HostJSONLaws}.

(** The host's validators can be written and read, and have different keys. *)
Record hostOK h : Prop := {
  ho_registered : Forall (fun v => registered reg v.(val_PubKey)) h.(b_validators);
  ho_distinct : NoDup (map val_PubKey h.(b_validators))
}.

Lemma Unmarshal_registered b spare key : Registry.Unmarshal b spare reg = Ret (Ok key) -> registered reg key.
Proof.
  unfold Registry.Unmarshal. destruct (splitAt prefixSize (b +:+ spare)) as [[hd rest']|]; [|done].
  destruct (gm_get (byPrefix reg) (trimRight hd)) as [fn|] eqn:Ef; [|done].
  destruct (splitAt prefixSize b) as [[hd' rest]|]; [|done]. intros [= Hfn].
  assert (fn = NewEd25519PubKey) as ->.
  { unfold gm_get, reg, RegisterEd25519, Register in Ef. simpl in Ef. by apply lookup_insert_Some in Ef as [[_ <-]|[_ Ef]]. }
  injection Hfn as <-. apply ed25519_registered.
Qed.

Lemma AddValidator_spec v h :
  (In v.(val_PubKey) (map val_PubKey h.(b_validators)) /\ exists msg, AddValidator v h = Panic msg) \/
  (~ In v.(val_PubKey) (map val_PubKey h.(b_validators)) /\
   AddValidator v h = Ret {| h with b_validators := h.(b_validators) ++ [v] |}).
Proof.
  unfold AddValidator. destruct (existsb _ _) eqn:E; [left|right].
  - apply existsb_exists in E as (x & Hx & Hk). split; [|by eexists]. apply in_map_iff. exists x.
    unfold pk_Equal in Hk. by apply bool_decide_eq_true in Hk.
  - split; [|done]. intros (x & Hk & Hx)%in_map_iff. apply not_true_iff_false in E. apply E, existsb_exists. exists x.
    split; [done|]. unfold pk_Equal. by apply bool_decide_eq_true_2.
Qed.

Lemma AddValidator_ok v h h' : registered reg v.(val_PubKey) -> hostOK h -> AddValidator v h = Ret h' -> hostOK h'.
Proof.
  intros Hr [Hf Hn] Ha. destruct (AddValidator_spec v h) as [[_ [msg Hp]]|[Hnew Hp]]; rewrite Hp in Ha; [done|].
  injection Ha as <-. split; simpl; [apply Forall_app; by split; [|constructor]|].
  rewrite map_app. apply NoDup_app. split_and!; [done| |apply NoDup_singleton].
  intros x Hx ->%list_elem_of_singleton. by apply Hnew, list_elem_of_In.
Qed.

(** No request breaks that, whatever its body. *)
Lemma served_ok req h : hostOK h -> hostOK (served req h).1.
Proof.
  intros Hok. destruct Hok as [Hf Hn] eqn:E. clear E. unfold served. destruct req as [| |body| |body|body| | |]; simpl; try (by split).
  - unfold postChainID. destruct body as [b|e]; [|by split]. destruct (cutSuffix NL b); by split.
  - unfold postApp. destruct body as [b|e]; [|by split]. destruct (cutSuffix NL b); [|by split]. destruct (String.eqb _ _); by split.
  - unfold httpRegisterValidator. destruct (decodeValidator body) as [jv|e]; [|by split].
    destruct (Registry.Unmarshal _ _ _) as [[key|e]|] eqn:Eu; simpl; [|by split..].
    destruct (AddValidator (MkValidator key (jv_Power jv)) h) as [h'|] eqn:Ea; simpl; [|by split].
    eapply AddValidator_ok; [|by split|exact Ea]. by eapply Unmarshal_registered.
  - unfold httpValidators. destruct (mapO _ _); by split.
Qed.

Lemma NewBootstrapHost_ok t addrs : hostOK (NewBootstrapHost t addrs).
Proof. split; simpl; constructor. Qed.

Lemma allOfJSON_toJSON vals : Forall (fun v => registered reg v.(val_PubKey)) vals ->
  exists jvs, mapO toJSON vals = Ret jvs /\ allOfJSON jvs = Ret (Ok vals).
Proof.
  intros Hf. induction Hf as [|v vals Hv Hf (jvs & Hm & Ha)]; simpl; [by exists []|].
  destruct (registered_roundtrip _ _ Hv) as (b & Hb & Hu).
  assert (toJSON v = Ret (MkJSONValidator b v.(val_Power))) as -> by (unfold toJSON; by rewrite Hb). simpl. rewrite Hm. simpl.
  eexists. split; [reflexivity|]. simpl. unfold ofJSON. simpl. rewrite Hu. simpl. rewrite Ha. by destruct v.
Qed.

(** The client reads what was registered.  Whatever requests a new host has served, the client's Validators returns the
    validators of the host, in order; registering a key of a type known to the registry adds the validator, unless the
    key is there already, which aborts the request and changes nothing; a chain ID that is set is read back with the
    spaces around it trimmed; and the seed's addresses are read back. *)
Theorem bootstrap_roundtrip unixTime addrs (reqs : list HTTPRequest) :
  let h := foldl (fun h req => (served req h).1) (NewBootstrapHost unixTime addrs) reqs in
  client_Validators h = Ret (Some (Ok h.(b_validators))) /\ NoDup (map val_PubKey h.(b_validators)) /\
  (forall v, registered reg v.(val_PubKey) ->
     client_RegisterValidator v h =
       Ret (if bool_decide (v.(val_PubKey) ∈ map val_PubKey h.(b_validators)) then (h, false)
            else ({| h with b_validators := h.(b_validators) ++ [v] |}, true))) /\
  (forall id, exists h', client_SetChainID id h = (h', true) /\ client_ChainID h' = Some (TrimSpace id)) /\
  client_SeedAddrs h = Some h.(b_hostAddrs).
Proof.
  intros h. assert (Hok : hostOK h).
  { unfold h. generalize (NewBootstrapHost_ok unixTime addrs). generalize (NewBootstrapHost unixTime addrs). clear h.
    induction reqs as [|req reqs IH]; intros h Hok; simpl; [done|]. by apply IH, served_ok. }
  clearbody h. split_and!.
  - unfold client_Validators, served. simpl. unfold httpValidators.
    destruct (allOfJSON_toJSON _ (ho_registered _ Hok)) as (jvs & Hm & Ha). rewrite Hm. simpl.
    rewrite validators_roundtrip, Ha. done.
  - apply Hok.
  - intros [key pow] Hv. simpl in Hv. destruct (registered_roundtrip _ _ Hv) as (b & Hb & Hu). unfold client_RegisterValidator, served. simpl. rewrite Hb.
    simpl. unfold httpRegisterValidator. rewrite validator_roundtrip. simpl. rewrite Hu. simpl.
    destruct (AddValidator_spec (MkValidator key pow) h) as [[Hin [msg ->]]|[Hnew ->]]; simpl in *.
    + by rewrite bool_decide_eq_true_2 by (by apply list_elem_of_In).
    + by rewrite bool_decide_eq_false_2 by (by rewrite list_elem_of_In).
  - intros id. unfold client_SetChainID, served. simpl. unfold postChainID.
    assert (Hcut : forall x, cutSuffix NL (x +:+ NL) = Some x) by (intros x; by apply cutSuffix_spec).
    rewrite Hcut. simpl. eexists. split; [reflexivity|]. unfold client_ChainID, lineOf, served. simpl. apply Hcut.
  - unfold client_SeedAddrs, served. simpl. by rewrite addrs_roundtrip.
Qed.
End roundtrips.

(** * The genesis of the nodes *)
Section genesis.
Context `{HostJSON}.

(** Requests that leave the genesis alone. *)
Definition leavesGenesis (req : option HTTPRequest) : Prop :=
  match req with Some (PostChainID _ | PostApp _ | PostRegisterValidator _) => False | _ => True end.
Definition isStart (req : option HTTPRequest) : Prop := req = Some PostStart.

Definition genesisOf (h : Host) : GenesisResponse := MkGenesisResponse h.(b_app) h.(b_chainID) h.(b_validators).

(** What a call has read so far is the host's. *)
Definition callFits (h : Host) (c : GenesisCall) : Prop :=
  match c with
  | GcWait | GcApp => True
  | GcChainID app => app = h.(b_app)
  | GcValidators app chainID => app = h.(b_app) /\ chainID = h.(b_chainID)
  | GcDone resp => resp = genesisOf h
  end.

Lemma served_quiet req h : leavesGenesis (Some req) -> genesisOf (served req h).1 = genesisOf h.
Proof. unfold served. destruct req; try done. intros _. simpl. unfold httpValidators. by destruct (mapO _ _). Qed.

Lemma callFits_same h h' c : genesisOf h' = genesisOf h -> callFits h c -> callFits h' c.
Proof. unfold genesisOf. intros [= Ea Ec Ev]. destruct c; simpl; unfold genesisOf; by rewrite ?Ea, ?Ec, ?Ev. Qed.

Lemma genesisStep_fits h c c' : genesisStep h c = Some c' -> callFits h c -> callFits h c'.
Proof. destruct c; simpl; [destruct (b_started h)|..]; intros [= <-]; naive_solver. Qed.

Lemma quiet_run s l s' : svrun s l s' -> Forall leavesGenesis l -> Forall (callFits s.(sv_host)) s.(sv_calls) ->
  Forall (callFits s'.(sv_host)) s'.(sv_calls).
Proof.
  intros Hr. induction Hr as [s|s req s1 l s2 Hs Hr IH]; intros Hq Hf; [done|].
  apply Forall_cons in Hq as [Hreq Hq]. apply IH; [done|]. destruct Hs as [req h calls|h calls|h i c c' calls Hi Hc]; simpl in *.
  - eapply Forall_impl; [exact Hf|]. intros c. by apply callFits_same, served_quiet.
  - apply Forall_app. split; [done|]. by constructor.
  - apply Forall_insert; [done|]. eapply genesisStep_fits; [exact Hc|]. exact (Forall_lookup_1 _ _ _ _ Hf Hi).
Qed.

Lemma served_started req h : req <> PostStart -> b_started (served req h).1 = b_started h.
Proof.
  intros Hne. unfold served. destruct req as [| |body| |body|body| | |]; try done; simpl.
  - unfold postChainID. destruct body as [b|e]; [|done]. by destruct (cutSuffix NL b).
  - unfold postApp. destruct body as [b|e]; [|done]. destruct (cutSuffix NL b); [|done]. by destruct (String.eqb _ _).
  - unfold httpRegisterValidator. destruct (decodeValidator body) as [jv|e]; [|done].
    destruct (Registry.Unmarshal _ _ _) as [[key|e]|]; simpl; [|done..].
    destruct (AddValidator_spec (MkValidator key (jv_Power jv)) h) as [[_ [msg ->]]|[_ ->]]; done.
  - unfold httpValidators. by destruct (mapO _ _).
Qed.

(** Before the start every call waits. *)
Lemma waiting_run s l s' : svrun s l s' -> Forall (fun req => ~ isStart req) l -> b_started s.(sv_host) = false ->
  Forall (eq GcWait) s.(sv_calls) -> b_started s'.(sv_host) = false /\ Forall (eq GcWait) s'.(sv_calls).
Proof.
  intros Hr. induction Hr as [s|s req s1 l s2 Hs Hr IH]; intros Hn Hst Hw; [done|].
  apply Forall_cons in Hn as [Hreq Hn]. apply IH; [done|..].
  - destruct Hs as [req h calls| |]; try done. simpl in *. rewrite served_started; [done|]. by intros ->.
  - destruct Hs as [req h calls|h calls|h i c c' calls Hi Hc]; simpl in *; [done|apply Forall_app; by split; [|constructor]|].
    pose proof (Forall_lookup_1 _ _ _ _ Hw Hi) as <-. simpl in Hc. by rewrite Hst in Hc.
Qed.

(** All nodes get one genesis, unless it is changed after the start.  No call of Genesis returns before the host is told
    to start; and when from then on nobody sets the chain ID or the app or registers a validator, then every call that
    returns, whenever it was made and however its three reads interleave with requests, returns what the host had at the
    start.  But nothing prevents such a change, and then two nodes are given different genesis data. *)
Theorem genesis_agrees_unless_changed (h : Host) l1 l2 s1 s2 :
  h.(b_started) = false -> Forall (fun req => ~ isStart req) l1 ->
  svrun (MkService h []) l1 s1 -> svrun (MkService (Start s1.(sv_host)) s1.(sv_calls)) l2 s2 ->
  Forall (eq GcWait) s1.(sv_calls) /\
  (Forall leavesGenesis l2 -> forall resp, GcDone resp ∈ s2.(sv_calls) -> resp = genesisOf s1.(sv_host)) /\
  (exists s3 a b, svrun (MkService (Start s1.(sv_host)) []) [None; None; None; None; None; Some (PostChainID (Ok ("other" +:+ NL)));
       None; None; None; None; None] s3 /\
     GcDone a ∈ s3.(sv_calls) /\ GcDone b ∈ s3.(sv_calls) /\
     gr_ChainID a = s1.(sv_host).(b_chainID) /\ gr_ChainID b = "other").
Proof.
  intros Hst Hn Hr1 Hr2. destruct (waiting_run _ _ _ Hr1 Hn Hst ltac:(by constructor)) as [_ Hw]. split_and!; [done|..].
  - intros Hq resp Hin. assert (Hf : Forall (callFits (Start s1.(sv_host))) s1.(sv_calls)).
    { eapply Forall_impl; [exact Hw|]. by intros c <-. }
    pose proof (quiet_run _ _ _ Hr2 Hq Hf) as Hf2. pose proof (proj1 (Forall_forall _ _) Hf2 _ Hin) as ->. clear -Hr2 Hq.
    change (genesisOf (sv_host s1)) with (genesisOf (sv_host (MkService (Start (sv_host s1)) (sv_calls s1)))).
    induction Hr2 as [s|s req s1' l s2' Hs Hr IH]; [done|]. apply Forall_cons in Hq as [Hreq Hq]. rewrite IH by done.
    destruct Hs; simpl; [by apply served_quiet|done..].
  - set (h1 := Start s1.(sv_host)). set (h2 := {| h1 with b_chainID := "other" |}).
    exists (MkService h2 [GcDone (genesisOf h1); GcDone (genesisOf h2)]), (genesisOf h1), (genesisOf h2).
    assert (Hstep : forall hh i c c' calls, calls !! i = Some c -> genesisStep hh c = Some c' ->
      svstep (MkService hh calls) None (MkService hh (<[i := c']> calls))) by (intros; by eapply sv_call).
    split_and!; [|by left|by right; left|done|done].
    eapply svr_cons; [apply sv_begin|simpl]. do 4 (eapply svr_cons; [by eapply (Hstep h1 0%nat)|simpl]).
    eapply svr_cons; [apply sv_request|]. simpl. change (served _ h1).1 with h2.
    eapply svr_cons; [apply sv_begin|simpl]. do 4 (eapply svr_cons; [by eapply (Hstep h2 1%nat)|simpl]). constructor.
Qed.
End genesis.

Example TrimSpace_ends : TrimSpace (" " +:+ NL +:+ "a b" +:+ utf8Of [226; 128; 131]%N +:+ " ") = "a b".
Proof. vm_compute. reflexivity. Qed.
Example TrimSpace_only : TrimSpace (" " +:+ NL) = EmptyString.
Proof. vm_compute. reflexivity. Qed.
